(* ===== verification/_CoqProject ===== *)
-Q . S2P
Prelude.v
Float64.v
GoTime.v
Models.v
Queue.v
RateLimiter.v
Tables.v
Prog.v
Services.v
Loops.v
Retry.v
Postgres.v
RedisStore.v
Mongo.v
StatePattern.v
Alerting.v
Invariant.v
MemWorld.v
StoreSafety.v
Machine.v
Escalator.v
Debounce.v
Ingestion.v
Worker.v
Health.v
WorkItemsAPI.v
Config.v
Process.v
Auth.v
Hub.v
System.v
Liveness.v
Alone.v
Knowledge.v
Scenarios.v
Tracker.v
Severity.v
Dashboard.v
Replicas.v
Fleet.v
Progress.v
FleetDashboard.v
Router.v
Gateway.v
Outsider.v
Entrance.v
