(* ===== verification/Prelude.v ===== *)
(** Incident Management System (IMS): verification of the Go backend, [src/backend].

    * The program

    A client sends signals about components over HTTP. The router ([internal/api/router.go]) takes
    the request through CORS and JWT middleware to a handler. [IngestSignal] and [IngestBatch]
    ([internal/ingestion/handler.go]) ask the rate limiter ([ratelimiter.go]), check the request,
    ask the debouncer ([debounce.go]) for the work item of the component, which is created when
    the process and Redis know none, and put the signal into a bounded queue
    ([internal/queue/queue.go]). The workers ([internal/worker/pool.go]) take signals from it, and
    write the document to MongoDB, the signal count and a time series to PostgreSQL. People move
    work items along OPEN, INVESTIGATING, RESOLVED, CLOSED and submit the root-cause analysis
    ([internal/workflow/machine.go], [state.go]), behind [internal/api/workitems.go]; a loop
    raises severities ([escalator.go]); alerts go out by severity ([internal/alerting]). The
    stores ([internal/store]) repeat statements that fail. [cmd/server/main.go] starts and stops
    all of it. The accounts ([internal/api/auth.go]) and the WebSocket hub
    ([internal/api/websocket.go]) share no memory with the rest.

    * How it is modelled

    A handler, a background loop and a job is a [Prog.prog]: a tree of effects, with the source's
    guards and early returns in between. Effects are the calls of the services, readings of the
    clock, and atomic accesses to the memory that goroutines share ([Services.eff]); what the
    source does in one critical section is one access, and what it does in two is two. A result
    [(value, err)] is a pair of options, so that a value next to an error is kept; a nil
    dereference or an explicit [panic] is [Panic]. Between any two effects other goroutines may
    run: the process is a pool of programs ([Prog.pool_step], [System.goroutine]), in which
    [sync.WaitGroup] with two goroutines is [Prog.par]. Undisturbed executions are [Prog.exec].

    PostgreSQL, Redis, MongoDB, the clock and UUIDs are an interface, [Services.World]: any answer
    is possible that [Services.allowed] permits, the documented behaviour with every failure left
    open. [Tables.v] says what a statement does to the tables, with the constraints of the
    migration. [MemWorld.v] has two implementations, one without faults and one with a script of
    faults, which run the definitions on concrete inputs. JSON and [Sscanf]
    ([RedisStore.Formats]), bcrypt and JWT ([Auth.Crypto]), fiber ([Router.Fiber]) and the library
    of the WebSockets ([Hub.WebSocketLibrary]) are classes too; the laws that a theorem needs of
    them are classes of their own, with instances.

    * The files

    - [Prelude.v], [Float64.v], [GoTime.v]: lists and strings; binary64 arithmetic with its
      rounding; machine integers, times and durations of Go.
    - [Models.v]: [models/models.go], [errors.go]. [Queue.v]: [queue.go]. [RateLimiter.v]:
      [ratelimiter.go], in binary64, with the pointers that requests keep to deleted buckets.
    - [Tables.v], [Services.v]: the services. [Prog.v], [Loops.v], [Retry.v]: programs, the
      reasoning about them, the loops over a ticker, and [withRetry]. [Postgres.v],
      [RedisStore.v], [Mongo.v]: the stores.
    - [StatePattern.v], [Machine.v], [Escalator.v]: the workflow. [Alerting.v]: the strategies.
      [Debounce.v], [Ingestion.v]: ingestion, and the limiter's cleanup. [Worker.v]:
      [processSignal], the throughput log. [Health.v], [WorkItemsAPI.v]: the endpoints, and the
      metrics collector.
    - [Invariant.v], [StoreSafety.v]: the invariant of the process, the relation [evolves] that is
      the rely and the guarantee of every goroutine, and the stores under interference.
    - [System.v], [Liveness.v], [Alone.v], [Scenarios.v]: the running process; its progress;
      executions without interference; concrete deployments and races.
    - [Knowledge.v], [Tracker.v]: what a goroutine has learned from the replies it got, and with it
      the refinement of an abstract incident tracker. [Severity.v], [Dashboard.v]: the escalator,
      and the cached dashboard, among the other goroutines.
    - [Replicas.v]: the deployment of [helm/ims], several processes on the same stores, which
      start, crash and are replaced. [Fleet.v], [Progress.v], [FleetDashboard.v]: its refinement of
      the incident tracker, the progress of a replica among the others, the cache they share.
    - [Config.v], [Process.v]: the environment, the connections, [main] and the life of the
      workers. [Auth.v], [Hub.v], [Router.v]: accounts, WebSockets, routes. [Gateway.v],
      [Entrance.v]: routes and accounts together, of one replica and of several. [Outsider.v]: the
      whole server, for a request without a token.

    Proofs about handlers walk through the program: [Invariant.walk] for what stays true under
    interference, with the operations of [StoreSafety.store_op]; [Retry.crawl] for the effects of
    a program, which ends in claims about single effects; [Prog.distinguished] for one goroutine
    that does what the others do not; [Knowledge.informed] for what a goroutine may do because of
    what it was told; [Prog.run_among] for a process whose stores others use too; [Prog.logged] for
    what a program does in which order, whatever it is answered. The hints are in the database
    [ims].

    * What the theorems show

    - The running system, in every interleaving and with every failure of the services: the
      invariant and the absence of panics ([System.system_invariant]); a CLOSED work item has
      its complete RCA; history is kept. Under a fair scheduler each queued signal is processed,
      and without faults it is in MongoDB in the end ([Liveness.v]).
    - The deployment: any number of replicas, killed and replaced at any moment, keep the closed
      incidents complete and the history ([Replicas.deployment_is_safe]), implement the incident
      tracker, skip no stage of the life cycle, and keep the RCA and the MTTR of a work item that
      was CLOSED, also when a race takes it back to RESOLVED ([Fleet.v]); a dashboard in the cache
      they share was true at some moment ([FleetDashboard.v]); and the signals that wait at a
      replica which lives on reach the audit log ([Progress.v]).
    - Handlers under interference: what a 202 of the ingestion, a nil of [SubmitRCA] and a counted
      signal promise stays true whatever the others do.
    - Refinement: every run, with all races, faults and repeated statements, is a run of the
      abstract incident tracker [Tracker.tracker_step]; so no stage of the life cycle is skipped
      ([Tracker.v]), and with one escalator severities only rise ([Severity.v]).
    - Refinement and function of operations: [Transition] against [transition_spec]; ingestion,
      escalation, status codes, validation, queries and alerts, branch by branch.
    - Bounds: the admitted rate with the rounding of float64, the queue and its int64 counters, the
      MTTR, the numbers of the environment, the signal count under retries.
    - Life of the process: start-up, by the log of its attempts and waits; conservation of signals;
      termination of the shutdown.
    - Security: that a request without a token can at most sign up or open a WebSocket
      ([Outsider.v]); accounts; who a token belongs to; and, of any sequence of requests to any
      replicas, that only account holders get to the protected handlers ([Gateway.v], [Entrance.v]).
    - What does not hold is stated as well: a CLOSED incident that reopens and two incidents of one
      burst are reachable interleavings ([Scenarios.v]); the shutdown drops the queue
      ([Process.v]); a connection stays a client, and the hub uses connections that the library has
      taken back ([Hub.v]); a lost reply counts twice; an invalidated dashboard comes back
      ([Dashboard.v]); two escalators lower a severity ([Replicas.v]); the default secret admits
      anyone, and an account is known to one replica only ([Gateway.v]).

    * Bounds and fuel

    Loops over data are structural. The retry loops have the constants of the source (three
    attempts, five for a connection) as fuel and use it up as the source does; the fuel of
    [containsAt] is the number of iterations of its [for]. [RateLimiter.admitted_rate_bound] is
    for runs of at most 2^41 requests and cleanups, within which the rounding errors of the
    token count stay below one token. A background loop has no end of its own: it is given by its
    first [rounds] rounds, for every number of them, and what it has done at some moment it has
    done in finitely many rounds ([Loops.v]). A worker's loop is a turn that may come again at any
    time; its end is in [Process.v].

    * Choices

    - A [context.Context] appears as the possibility that a call fails, and where the source selects
      on it ([withRetry], [runWorker], [main]).
    - A write whose call fails may have taken effect, but not after the call has returned.
    - A send to the queue and the counter next to it are one step; so is a bcrypt comparison with
      the look-up before it, since accounts never change.
    - A [time.Time] is its instant; monotonic readings are not told apart. The replicas of a
      deployment read one clock.
    - A request belongs to the replica that it reached; the load balancer may choose any. What a
      replica has in flight when it is killed takes effect before it is gone, or not at all.
    - fiber would turn a panic of a handler into a 500, while a panic of a goroutine of its own takes
      the process down; both are [Panic], and none happens.
    - A panic of [main] itself during the start-up (a channel that [make] refuses) ends the process
      like a fatal error ([Process.main_setup]). A queue that [make] accepts and the machine has
      no memory for is not told apart from any other.
    - What [c.BodyParser] yields is a value that does not change any more. That holds of JSON bodies;
      of a form-encoded body fiber hands out strings that share the buffer of the request.
    - JSON gives a dashboard back as it was ([RedisStore.FormatLaws]). encoding/json would replace
      bytes that are not UTF-8; the rows of a PostgreSQL database of that encoding have none.
    - The chain of fiber runs the layers in the order of their registration; a route ends it.

    * Not modelled

    Logging, the registration of Prometheus metrics and the memory statistics of the runtime have
    no effect on the state. [Close] of the stores only ends connections. Writing a response is fiber's;
    a handler returns the response that it set. JSON encoding, SQL and BSON texts are behind the
    interfaces. The frontend, the scripts, and of the deployment files all but the number of
    replicas, are not code of the backend. *)
From stdpp Require Export base tactics numbers list gmap strings fin_maps sorting.
From Stdlib Require Export ZArith Lia.

(** [naive_solver] clears hypotheses that are already gone. *)
#[export] Set Warnings "-clear-no-such-hyp".

(** Hint database of the development: the lemmas that close the routine goals. *)
Create HintDb ims discriminated.

(** ** Lists *)

(** [List.find] of a decidable predicate returns the first element that satisfies it. *)
Lemma find_first_iff {A} (P : A -> Prop) `{!forall a, Decision (P a)} (l : list A) (x : A) :
  List.find (fun a => bool_decide (P a)) l = Some x <->
  exists before after, l = before ++ x :: after /\ P x /\ Forall (fun a => ~ P a) before.
Proof.
  induction l as [|y l IH]; cbn [List.find].
  { split; [done|]. by intros ([|] & ? & ? & _). }
  destruct (bool_decide_reflect (P y)) as [Hy|Hy].
  - split; [intros [= ->]; by exists [], l|].
    intros (before & after & Heq & Hx & Hall). destruct before as [|z before]; [by simplify_eq/=|].
    apply Forall_cons in Hall as [? _]. by simplify_eq/=.
  - rewrite IH. split; intros (before & after & Heq & Hx & Hall).
    + exists (y :: before), after. subst. by repeat constructor.
    + destruct before as [|z before]; [by simplify_eq/=|].
      apply Forall_cons in Hall as [_ Hall]. simplify_eq/=. by exists before, after.
Qed.

Lemma sum_list_with_insert {A} (f : A -> nat) (l : list A) i x y : l !! i = Some x ->
  (sum_list_with f (<[i := y]> l) + f x = sum_list_with f l + f y)%nat.
Proof.
  intros Hi. rewrite insert_take_drop by (by eapply lookup_lt_Some). rewrite <- (take_drop_middle l i x Hi) at 3.
  rewrite !sum_list_with_app. cbn. lia.
Qed.

(** ** Strings *)

Lemma string_app_nil_r (s : string) : String.append s EmptyString = s.
Proof. induction s as [|a s IH]; [done|]. exact (f_equal (String a) IH). Qed.

Lemma string_length_app (s t : string) : String.length (String.append s t) = (String.length s + String.length t)%nat.
Proof. induction s as [|a s IH]; [done|]. exact (f_equal S IH). Qed.
