(* ===== verification/Float64.v ===== *)
(** IEEE 754 binary64 arithmetic, the semantics of Go's [float64]. *)
From Stdlib Require Import SpecFloat.
From S2P Require Import Prelude.
Local Open Scope Z_scope.

Abbreviation float64 := spec_float (only parsing).
Definition f64_add (x y : float64) : float64 := SFadd 53 1024 x y.
Definition f64_sub (x y : float64) : float64 := SFsub 53 1024 x y.
Definition f64_mul (x y : float64) : float64 := SFmul 53 1024 x y.
Definition f64_div (x y : float64) : float64 := SFdiv 53 1024 x y.
Definition f64_ltb (x y : float64) : bool := SFltb x y.
Definition f64_leb (x y : float64) : bool := SFleb x y.
Definition f64_of_Z (z : Z) : float64 := binary_normalize 53 1024 z 0 false.

Abbreviation fexp64 := (fexp 53 1024).

Lemma digits2_pos_spec p :
  2 ^ (Z.pos (digits2_pos p) - 1) <= Z.pos p < 2 ^ Z.pos (digits2_pos p).
Proof.
  induction p as [p IH|p IH|]; cbn [digits2_pos]; [..|cbn; lia].
  all: rewrite Pos2Z.inj_succ, Z.pow_succ_r by lia.
  all: replace (Z.succ (Z.pos (digits2_pos p)) - 1) with (Z.succ (Z.pos (digits2_pos p) - 1)) by lia.
  all: rewrite Z.pow_succ_r by lia; lia.
Qed.

Lemma Zdigits2_spec m :
  0 < m -> 0 < Zdigits2 m /\ 2 ^ (Zdigits2 m - 1) <= m < 2 ^ Zdigits2 m.
Proof. destruct m as [|p|p]; try lia. intros _. split; [done|apply digits2_pos_spec]. Qed.

Lemma Zdigits2_unique m d : 0 < d -> 2 ^ (d - 1) <= m < 2 ^ d -> Zdigits2 m = d.
Proof.
  intros Hd Hm.
  assert (0 < 2 ^ (d - 1)) by (apply Z.pow_pos_nonneg; lia).
  destruct (Zdigits2_spec m) as [Hp Hs]; [lia|].
  destruct (Z.lt_trichotomy (Zdigits2 m) d) as [Hl|[->|Hl]]; [exfalso| reflexivity |exfalso].
  - assert (2 ^ Zdigits2 m <= 2 ^ (d - 1)) by (apply Z.pow_le_mono_r; lia). lia.
  - assert (2 ^ d <= 2 ^ (Zdigits2 m - 1)) by (apply Z.pow_le_mono_r; lia). lia.
Qed.

Lemma Zdigits2_le m d : 0 <= d -> 0 <= m < 2 ^ d -> Zdigits2 m <= d.
Proof.
  intros Hd Hm. destruct (Z.eq_dec m 0) as [->|]; [cbn; lia|].
  destruct (Zdigits2_spec m) as [Hp Hs]; [lia|].
  destruct (Z.le_gt_cases (Zdigits2 m) d); [done|].
  assert (2 ^ d <= 2 ^ (Zdigits2 m - 1)) by (apply Z.pow_le_mono_r; lia). lia.
Qed.

(** ** The right shift of the rounding *)

Lemma iter_pos_iter {A} (f : A -> A) p x : SpecFloat.iter_pos f p x = Nat.iter (Pos.to_nat p) f x.
Proof.
  revert x. induction p as [p IH|p IH|]; intros x; cbn [SpecFloat.iter_pos]; [| |reflexivity].
  all: rewrite !IH, <- Nat.iter_add.
  - rewrite <- Nat.iter_succ_r. f_equal. lia.
  - f_equal. lia.
Qed.

Lemma shr_1_m r : 0 <= shr_m r -> shr_m (shr_1 r) = shr_m r / 2.
Proof.
  destruct r as [[|[p|p|]|p] r s]; cbn [shr_1 shr_m]; intros Hm; try (by cbn); try lia.
  - change (Z.pos p~1) with (2 * Z.pos p + 1). by apply (Z.div_unique _ _ _ 1); lia.
  - change (Z.pos p~0) with (2 * Z.pos p). by apply (Z.div_unique _ _ _ 0); lia.
Qed.

Lemma shr_iter_m n r : 0 <= shr_m r -> shr_m (Nat.iter n shr_1 r) = shr_m r / 2 ^ Z.of_nat n.
Proof.
  intros Hr. induction n as [|n IH]; [cbn; by rewrite Z.div_1_r|].
  rewrite Nat.iter_succ, shr_1_m; rewrite IH.
  - rewrite Nat2Z.inj_succ, Z.pow_succ_r by lia.
    rewrite Z.div_div by lia. f_equal. lia.
  - apply Z.div_pos; [done|]. apply Z.pow_pos_nonneg; lia.
Qed.

(** ** The shape of a rounded result *)

Definition emin64 : Z := -1074.

Lemma fexp64_eq d : fexp64 d = Z.max (d - 53) emin64.
Proof. reflexivity. Qed.

Lemma pow2_pos n : 0 <= n -> 0 < 2 ^ n.
Proof. intros. by apply Z.pow_pos_nonneg. Qed.

(** [located m l v g]: the location [l] tells where the exact value [v] lies between [m * g]
    and [(m + 1) * g]. *)
Definition located (m : Z) (l : location) (v g : Z) : Prop :=
  let d := v - m * g in
  match l with
  | loc_Exact => d = 0
  | loc_Inexact Lt => 0 < 2 * d < g
  | loc_Inexact Eq => 2 * d = g
  | loc_Inexact Gt => g < 2 * d < 2 * g
  end.

Lemma shr_1_located r v g :
  0 < g -> 0 <= shr_m r -> located (shr_m r) (loc_of_shr_record r) v g ->
  located (shr_m (shr_1 r)) (loc_of_shr_record (shr_1 r)) v (2 * g).
Proof.
  intros Hg Hr. destruct r as [[|[p|p|]|p] [] []]; unfold located; cbn in Hr |- *; lia.
Qed.

Lemma shr_iter_located n r v g :
  0 < g -> 0 <= shr_m r -> located (shr_m r) (loc_of_shr_record r) v g ->
  located (shr_m (Nat.iter n shr_1 r)) (loc_of_shr_record (Nat.iter n shr_1 r)) v (2 ^ Z.of_nat n * g).
Proof.
  intros Hg Hr Hl. induction n as [|n IH]; [by rewrite Z.mul_1_l|].
  rewrite Nat.iter_succ, Nat2Z.inj_succ, Z.pow_succ_r, <- Z.mul_assoc by lia.
  apply shr_1_located; [by apply Z.mul_pos_pos; [apply pow2_pos; lia|]| |done].
  rewrite shr_iter_m by done. apply Z.div_pos; [done|]. apply pow2_pos; lia.
Qed.

Lemma shr_fexp_spec m e l v h :
  0 <= m -> e <= fexp64 (Zdigits2 m + e) -> 0 < h -> located m l v h ->
  let e1 := fexp64 (Zdigits2 m + e) in
  exists mrs, shr_fexp 53 1024 m e l = (mrs, e1) /\ shr_m mrs = m / 2 ^ (e1 - e) /\
    located (shr_m mrs) (loc_of_shr_record mrs) v (2 ^ (e1 - e) * h).
Proof.
  intros Hm He Hh Hloc e1. unfold shr_fexp. fold e1 in He |- *.
  assert (Hl : shr_m (shr_record_of_loc m l) = m) by (by destruct l as [|[]]).
  assert (Hl' : loc_of_shr_record (shr_record_of_loc m l) = l) by (by destruct l as [|[]]).
  destruct (e1 - e) as [|p|p] eqn:Hn; [| |lia]; cbn [shr].
  - exists (shr_record_of_loc m l). rewrite Hl, Hl', Z.div_1_r, Z.mul_1_l.
    by replace e1 with e by lia.
  - rewrite iter_pos_iter. eexists. split; [f_equal; lia|].
    assert (Hp : Z.of_nat (Pos.to_nat p) = Z.pos p) by lia. rewrite <- Hp.
    split; [by rewrite shr_iter_m, Hl by (by rewrite Hl)|].
    apply shr_iter_located; by rewrite ?Hl, ?Hl'.
Qed.

(** The mantissa [m1] kept by the first shift fits in 53 bits, and is normal unless the
    exponent is the least one. *)
Lemma shifted_mantissa m e :
  0 <= m -> e <= fexp64 (Zdigits2 m + e) ->
  let e1 := fexp64 (Zdigits2 m + e) in
  let m1 := m / 2 ^ (e1 - e) in
  0 <= m1 < 2 ^ 53 /\ emin64 <= e1 /\ (e1 = emin64 \/ 2 ^ 52 <= m1).
Proof.
  intros Hm He e1 m1. pose proof (pow2_pos (e1 - e)) as Hpow.
  assert (H0 : 0 <= m1) by (apply Z.div_pos; lia).
  destruct (Z.eq_dec m 0) as [->|Hne].
  { cbn [Zdigits2] in *. unfold m1 in *. rewrite Z.div_0_l in * by lia.
    unfold e1 in *. rewrite fexp64_eq in *. lia. }
  destruct (Zdigits2_spec m) as [Hd [Hlo Hhi]]; [lia|].
  assert (Heq : e1 = Z.max (Zdigits2 m + e - 53) emin64) by (by rewrite <- fexp64_eq).
  split; [split; [done|]|split; [lia|]].
  - apply Z.div_lt_upper_bound; [lia|]. rewrite <- Z.pow_add_r by lia.
    eapply Z.lt_le_trans; [done|]. apply Z.pow_le_mono_r; lia.
  - destruct (Z.eq_dec e1 emin64) as [->|Hn]; [by left|right].
    apply Z.div_le_lower_bound; [lia|]. rewrite <- Z.pow_add_r by lia.
    etransitivity; [|done]. apply Z.pow_le_mono_r; lia.
Qed.

Definition pack (sx : bool) (m e : Z) : float64 :=
  match m with
  | Z0 => S754_zero sx
  | Zpos p => if e <=? 971 then S754_finite sx p e else S754_infinity sx
  | Zneg _ => S754_nan
  end.

(** [binary_round_aux] returns a 53-bit mantissa [m3] at exponent [e3] that denotes
    [m2 * 2^e1], where [m2] is the nearest of the kept mantissa [m1] and its successor. *)
Lemma binary_round_aux_shape sx m e l v h :
  0 <= m -> e <= fexp64 (Zdigits2 m + e) -> 0 < h -> located m l v h ->
  let e1 := fexp64 (Zdigits2 m + e) in
  let m1 := m / 2 ^ (e1 - e) in
  let g := 2 ^ (e1 - e) * h in
  exists m2 m3 e3, binary_round_aux 53 1024 sx m e l = pack sx m3 e3 /\
    ((m2 = m1 /\ 0 <= 2 * (v - m1 * g) <= g) \/ (m2 = m1 + 1 /\ g <= 2 * (v - m1 * g) < 2 * g)) /\
    ((m3 = m2 /\ e3 = e1 /\ m2 < 2 ^ 53) \/ (m2 = 2 ^ 53 /\ m3 = 2 ^ 52 /\ e3 = e1 + 1)).
Proof.
  intros Hm He Hh Hloc e1 m1 g.
  destruct (shr_fexp_spec m e l v h Hm He Hh Hloc) as (mrs & Hs & Hmrs & Hl).
  destruct (shifted_mantissa m e Hm He) as (Hb & Hemin & Hnorm).
  fold e1 in Hs, Hmrs, Hl, Hemin, Hnorm. fold m1 in Hmrs, Hnorm. fold g in Hl.
  change (0 <= m1 < 2 ^ 53) in Hb.
  assert (Hg : 0 < g) by (apply Z.mul_pos_pos; [apply pow2_pos|]; lia).
  set (m2 := round_nearest_even (shr_m mrs) (loc_of_shr_record mrs)).
  assert (Hm2 : (m2 = m1 /\ 0 <= 2 * (v - m1 * g) <= g) \/ (m2 = m1 + 1 /\ g <= 2 * (v - m1 * g) < 2 * g)).
  { unfold m2. rewrite Hmrs in *. unfold located in Hl.
    destruct (loc_of_shr_record mrs) as [|[]]; cbn [round_nearest_even]; [left| |left|right]; [lia| |lia|lia].
    destruct (Z.even m1); [left|right]; lia. }
  unfold binary_round_aux. rewrite Hs. cbv zeta beta iota. fold m2.
  assert (H02 : 0 <= m2 <= 2 ^ 53 /\ m1 <= m2) by (clearbody m1 m2; lia).
  clearbody m2.
  destruct (Z.eq_dec m2 (2 ^ 53)) as [Heq|Hne].
  - exists m2, (2 ^ 52), (e1 + 1). split; [|by auto].
    rewrite Heq.
    assert (Hfe : fexp64 (Zdigits2 (2 ^ 53) + e1) = e1 + 1) by (rewrite fexp64_eq; change (Zdigits2 (2 ^ 53)) with 54; lia).
    unfold shr_fexp. rewrite Hfe. by replace (e1 + 1 - e1) with 1 by lia.
  - exists m2, m2, e1. split; [|split; [done|left; lia]].
    assert (Hd : Zdigits2 m2 <= 53) by (apply Zdigits2_le; lia).
    assert (Hfe : fexp64 (Zdigits2 m2 + e1) = e1).
    { rewrite fexp64_eq. destruct Hnorm as [->|Hn]; [lia|].
      rewrite (Zdigits2_unique m2 53) by lia. lia. }
    unfold shr_fexp. rewrite Hfe, Z.sub_diag. by destruct m2.
Qed.

Lemma pack_valid sx m e :
  0 <= m < 2 ^ 53 -> emin64 <= e -> (e = emin64 \/ 2 ^ 52 <= m) -> valid_binary 53 1024 (pack sx m e) = true.
Proof.
  intros Hm He Hn. destruct m as [|p|p]; [done| |lia]. cbn [pack].
  destruct (Z.leb_spec e 971); [|done]. cbn [valid_binary]. unfold bounded, canonical_mantissa.
  apply andb_true_intro; split; [|by apply Z.leb_le].
  apply Z.eqb_eq. rewrite fexp64_eq. change (Z.pos (digits2_pos p)) with (Zdigits2 (Z.pos p)).
  destruct Hn as [->|Hn].
  - pose proof (Zdigits2_le (Z.pos p) 53). lia.
  - rewrite (Zdigits2_unique (Z.pos p) 53) by lia. lia.
Qed.

(** ** Values

    Every finite binary64 number is an integer multiple of [2^-1074]; [f64_units] is that
    integer, so that comparisons of values are comparisons in [Z]. *)

Definition f64_unit : Z := 2 ^ 1074.

Lemma f64_unit_pos : 0 < f64_unit.
Proof. by apply pow2_pos. Qed.

Definition f64_units (f : float64) : Z :=
  match f with
  | S754_finite s m e => cond_Zopp s (Z.pos m * 2 ^ (e + 1074))
  | _ => 0
  end.

Definition f64_finite (f : float64) : Prop :=
  match f with
  | S754_zero _ => True
  | S754_finite _ _ _ => valid_binary 53 1024 f = true
  | _ => False
  end.

(** Non-negative numbers, [+Inf] included. *)
Definition f64_nonneg (f : float64) : Prop :=
  match f with
  | S754_zero _ | S754_infinity false => True
  | S754_finite false _ _ => valid_binary 53 1024 f = true
  | _ => False
  end.

Definition f64_finite_nonneg (f : float64) : Prop := f64_finite f /\ f64_nonneg f.

(** The magnitudes a finite number can have. *)
Definition representable (k : Z) : Prop :=
  exists m e, 0 <= m < 2 ^ 53 /\ emin64 <= e /\ k = m * 2 ^ (e + 1074).

Lemma bounded_inv m e : bounded 53 1024 m e = true ->
  Z.pos m < 2 ^ 53 /\ emin64 <= e <= 971 /\ (e = emin64 \/ 2 ^ 52 <= Z.pos m).
Proof.
  unfold bounded, canonical_mantissa. rewrite andb_true_iff, Z.eqb_eq, Z.leb_le, fexp64_eq.
  intros [Hc He]. pose proof (digits2_pos_spec m) as [Hlo Hhi].
  split; [|split; [lia|]].
  - eapply Z.lt_le_trans; [done|]. apply Z.pow_le_mono_r; lia.
  - destruct (Z.eq_dec e emin64); [by left|right]. etransitivity; [|exact Hlo].
    apply Z.pow_le_mono_r; lia.
Qed.

Lemma f64_units_representable f : f64_finite_nonneg f -> representable (f64_units f).
Proof.
  intros [Hf Hn]. destruct f as [s| | |[] m e]; try done.
  - exists 0, emin64. by repeat split.
  - apply bounded_inv in Hf as (? & ? & ?). exists (Z.pos m), e. by repeat split; try lia.
Qed.

Lemma representable_intro m e : 0 <= m < 2 ^ 53 -> emin64 <= e -> representable (m * 2 ^ (e + 1074)).
Proof. intros. exists m, e. by repeat split; try lia. Qed.

Lemma representable_nonneg k : representable k -> 0 <= k.
Proof. intros (m & e & ? & ? & ->). pose proof (Z.pow_nonneg 2 (e + 1074)). lia. Qed.

Lemma f64_units_nonneg f : f64_nonneg f -> 0 <= f64_units f.
Proof.
  destruct f as [s| | |[] m e]; try done; cbn [f64_units cond_Zopp f64_nonneg]; try lia.
Qed.

(** ** Rounding to nearest brackets the exact value

    No representable number lies strictly between the exact value and its rounding. *)

Lemma f64_units_pack m e : 0 <= m -> e <= 971 -> f64_units (pack false m e) = m * 2 ^ (e + 1074).
Proof. intros Hm He. destruct m as [|p|p]; [done| |lia]. cbn [pack]. by rewrite (proj2 (Z.leb_le _ _) He). Qed.

Lemma f64_finite_pack m e :
  0 <= m < 2 ^ 53 -> emin64 <= e <= 971 -> (e = emin64 \/ 2 ^ 52 <= m) -> f64_finite_nonneg (pack false m e).
Proof.
  intros Hm He Hn. pose proof (pack_valid false m e Hm ltac:(lia) Hn) as Hv.
  destruct m as [|p|p]; [done| |lia]. cbn [pack] in *.
  rewrite (proj2 (Z.leb_le _ _) (proj2 He)) in *. done.
Qed.

Lemma pow2_split a b : 0 <= a -> 0 <= b -> 2 ^ (a + b) = 2 ^ a * 2 ^ b.
Proof. intros. by apply Z.pow_add_r. Qed.

(** A representable number below [2^(e+53)] units that is not on the grid of exponent [e1]
    is smaller than every normal number of exponent [e1]. *)
Lemma representable_grid k e1 : representable k -> emin64 <= e1 ->
  (2 ^ (e1 + 1074) | k) \/ (emin64 < e1 /\ k < 2 ^ 52 * 2 ^ (e1 + 1074)).
Proof.
  unfold emin64. intros (m & e & Hm & He & ->) He1. unfold emin64 in He.
  destruct (Z.le_gt_cases e1 e) as [Hle|Hgt].
  - left. replace (e + 1074) with ((e - e1) + (e1 + 1074)) by lia.
    rewrite (pow2_split (e - e1) (e1 + 1074)) by lia. exists (m * 2 ^ (e - e1)). lia.
  - right. split; [lia|].
    replace (e1 + 1074) with ((e1 - e - 1) + 1 + (e + 1074)) by lia.
    rewrite (pow2_split _ (e + 1074)), (pow2_split _ 1) by lia.
    pose proof (pow2_pos (e + 1074)). pose proof (pow2_pos (e1 - e - 1)).
    set (x := 2 ^ (e1 - e - 1)) in *. set (y := 2 ^ (e + 1074)) in *.
    change (2 ^ 52 * (x * 2 ^ 1 * y)) with (2 ^ 52 * (x * 2 * y)).
    apply Z.lt_le_trans with (2 ^ 53 * y); [|nia]. nia.
Qed.

Lemma mul_le_r g a b : 0 < g -> a <= b -> a * g <= b * g.
Proof. intros. apply Z.mul_le_mono_nonneg_r; lia. Qed.

Lemma mul_lt_inv g a b : 0 < g -> a * g < b * g -> a < b.
Proof. intros Hg H. by apply (Z.mul_lt_mono_pos_r g). Qed.

(** [rounds s v f]: [f] is a finite non-negative number and no representable number is closer
    to the exact value, [v / s] units. *)
Definition rounds (s v : Z) (f : float64) : Prop :=
  0 < s /\ f64_finite_nonneg f /\
  forall k, representable k -> Z.abs (f64_units f * s - v) <= Z.abs (k * s - v).

Lemma rounds_le s v f k : rounds s v f -> representable k -> v <= k * s -> f64_units f <= k.
Proof.
  intros (Hs & _ & H) Hk Hv. specialize (H k Hk). apply Z.nlt_ge. intros Hlt.
  apply (Z.mul_lt_mono_pos_r s) in Hlt; lia.
Qed.

Lemma rounds_ge s v f k : rounds s v f -> representable k -> k * s <= v -> k <= f64_units f.
Proof.
  intros (Hs & _ & H) Hk Hv. specialize (H k Hk). apply Z.nlt_ge. intros Hlt.
  apply (Z.mul_lt_mono_pos_r s) in Hlt; lia.
Qed.

Lemma rounds_finite s v f : rounds s v f -> f64_finite_nonneg f.
Proof. by intros (_ & ? & _). Qed.

Section Bracket.
Variables (m e t c v : Z) (l : location).
Let h : Z := 2 ^ (e + 1074 + t) * c.
Hypothesis Hm : 0 <= m.
Hypothesis Ht : 0 <= t.
Hypothesis Hc : 0 < c.
Hypothesis He : - 1074 - t <= e.
Hypothesis Hfe : e <= fexp64 (Zdigits2 m + e).
Hypothesis Hloc : located m l v h.
Hypothesis Hsmall : v < 2 ^ 2000 * (2 ^ t * c).

Lemma binary_round_aux_rounds :
  rounds (2 ^ t * c) v (binary_round_aux 53 1024 false m e l).
Proof.
  assert (Hh : 0 < h) by (apply Z.mul_pos_pos; [apply pow2_pos|]; lia).
  destruct (binary_round_aux_shape false m e l v h Hm Hfe Hh Hloc) as (m2 & m3 & e3 & -> & Hm2 & Hm3).
  destruct (shifted_mantissa m e Hm Hfe) as (Hb & Hemin & Hnorm).
  set (e1 := fexp64 (Zdigits2 m + e)) in *. set (m1 := m / 2 ^ (e1 - e)) in *.
  change (0 <= m1 < 2 ^ 53) in Hb.
  set (g := 2 ^ (e1 - e) * h) in *.
  assert (Hg : 0 < g) by (apply Z.mul_pos_pos; [apply pow2_pos|]; lia).
  assert (Hgs : g = 2 ^ (e1 + 1074) * (2 ^ t * c)).
  { unfold g, h. rewrite !Z.mul_assoc, <- !Z.pow_add_r by (unfold emin64 in *; lia).
    do 2 f_equal. lia. }
  assert (Hs : 0 < 2 ^ t * c) by (apply Z.mul_pos_pos; [apply pow2_pos|]; lia).
  assert (He1 : e1 < 900).
  { destruct Hnorm as [->|Hn2]; [done|].
    destruct (Z.lt_ge_cases e1 900) as [?|Hge]; [done|exfalso].
    assert (H1 : 2 ^ 1974 <= 2 ^ (e1 + 1074)) by (apply Z.pow_le_mono_r; lia).
    assert (H2 : 2 ^ 2000 < 2 ^ 52 * 2 ^ 1974)
      by (rewrite <- Z.pow_add_r by lia; apply Z.pow_lt_mono_r; lia).
    revert H1 H2 Hsmall. generalize (2 ^ 1974) (2 ^ 2000). intros a b H1 H2 H3.
    pose proof (mul_le_r g (2 ^ 52) m1 Hg Hn2).
    apply (mul_le_r (2 ^ t * c)) in H1; [|done]. apply Z.lt_le_incl, (mul_le_r (2 ^ t * c)) in H2; [|done].
    rewrite Hgs in *. lia. }
  assert (Hu : f64_units (pack false m3 e3) = m2 * 2 ^ (e1 + 1074)).
  { rewrite f64_units_pack by lia. destruct Hm3 as [(-> & -> & _)|(-> & -> & ->)]; [done|].
    replace (e1 + 1 + 1074) with (1 + (e1 + 1074)) by lia.
    rewrite pow2_split by (unfold emin64 in *; lia). lia. }
  unfold rounds. rewrite Hu, <- Z.mul_assoc, <- Hgs. split; [done|]. split.
  - apply f64_finite_pack; [lia|unfold emin64 in *; lia|].
    destruct Hm3 as [(-> & -> & _)|(-> & -> & ->)]; [|right; lia].
    destruct Hnorm; [by left|right; lia].
  - intros k Hk. cut (k * (2 ^ t * c) <= m1 * g \/ (m1 + 1) * g <= k * (2 ^ t * c)); [lia|].
    destruct (representable_grid k e1 Hk Hemin) as [[q ->]|[Hne Hlt]].
    + rewrite <- Z.mul_assoc, <- Hgs.
      destruct (Z.le_gt_cases q m1); [left|right]; apply mul_le_r; lia.
    + left. apply (Z.mul_lt_mono_pos_r (2 ^ t * c)) in Hlt; [|done].
      rewrite <- Z.mul_assoc, <- Hgs in Hlt.
      pose proof (mul_le_r g (2 ^ 52) m1 Hg ltac:(lia)). lia.
Qed.
End Bracket.

Lemma rounds_exact s v f : rounds s (v * s) f -> representable v -> f64_units f = v.
Proof.
  intros Hr Hv. pose proof (rounds_le _ _ _ _ Hr Hv). pose proof (rounds_ge _ _ _ _ Hr Hv). lia.
Qed.

(** The error of a rounding below [2^53 * 2^j] units is less than [2^j] units. *)
Lemma rounds_error s v f j :
  rounds s v f -> 0 <= j -> 0 <= v <= 2 ^ 53 * 2 ^ j * s -> f64_units f * s < v + 2 ^ j * s.
Proof.
  intros Hr Hj Hv. assert (Hs : 0 < s) by apply Hr.
  pose proof (pow2_pos j Hj) as Hp.
  set (q := (v + 2 ^ j * s - 1) / (2 ^ j * s)).
  assert (Hq : v <= q * (2 ^ j * s) < v + 2 ^ j * s).
  { pose proof (Z.mul_div_le (v + 2 ^ j * s - 1) (2 ^ j * s) ltac:(nia)).
    pose proof (Z.mul_succ_div_gt (v + 2 ^ j * s - 1) (2 ^ j * s) ltac:(nia)). unfold q. lia. }
  assert (Hq53 : 0 <= q <= 2 ^ 53).
  { split; [apply Z.div_pos; nia|]. apply Z.lt_succ_r, (mul_lt_inv (2 ^ j * s)); [nia|].
    rewrite Z.mul_succ_l. destruct Hv as [_ Hv]. rewrite <- Z.mul_assoc in Hv. lia. }
  assert (Hrep : representable (q * 2 ^ j)).
  { destruct (Z.eq_dec q (2 ^ 53)) as [->|].
    - replace (2 ^ 53 * 2 ^ j) with (2 ^ 52 * 2 ^ ((j - 1073) + 1074)).
      + apply representable_intro; unfold emin64; lia.
      + replace (j - 1073 + 1074) with (1 + j) by lia. rewrite (pow2_split 1 j) by lia. lia.
    - replace (2 ^ j) with (2 ^ ((j - 1074) + 1074)) by (f_equal; lia).
      apply representable_intro; unfold emin64; lia. }
  pose proof (rounds_le _ _ _ _ Hr Hrep) as Hle. rewrite <- Z.mul_assoc in Hle.
  specialize (Hle ltac:(lia)). apply (mul_le_r s) in Hle; [|done]. lia.
Qed.

Lemma rounds_of_exact f : f64_finite_nonneg f -> rounds 1 (f64_units f) f.
Proof. intros Hf. split; [done|]. split; [done|]. intros. lia. Qed.

(** ** The operations on finite non-negative numbers *)

Lemma rounds_zero s v f sz : f = S754_zero sz -> 0 < s -> v = 0 -> rounds s v f.
Proof.
  intros -> Hs ->. split; [done|]. split; [done|]. intros k Hk.
  change (f64_units (S754_zero sz)) with 0. lia.
Qed.

Lemma shl_align_spec p ex ex' :
  exists mz ez, shl_align p ex ex' = (mz, ez) /\ ez = Z.min ex ex' /\
    Z.pos mz = Z.pos p * 2 ^ (ex - ez).
Proof.
  unfold shl_align. destruct (ex' - ex) as [|d|d] eqn:Hd.
  - exists p, ex. rewrite Z.sub_diag. repeat split; lia.
  - exists p, ex. rewrite Z.sub_diag. repeat split; lia.
  - eexists _, ex'. split; [done|]. split; [lia|].
    replace (ex - ex') with (Z.pos d) by lia.
    clear Hd. induction d as [|d IH] using Pos.peano_ind; [cbn; lia|].
    rewrite Pos.iter_succ, Pos2Z.inj_succ, Z.pow_succ_r by lia.
    change (Z.pos (Pos.iter xO p d)~0) with (2 * Z.pos (Pos.iter xO p d)). lia.
Qed.

Lemma Zdigits2_shift m n : 0 < m -> 0 <= n -> Zdigits2 (m * 2 ^ n) = Zdigits2 m + n.
Proof.
  intros Hm Hn. destruct (Zdigits2_spec m Hm) as [Hd [Hlo Hhi]].
  pose proof (pow2_pos n Hn). apply Zdigits2_unique; [lia|].
  replace (Zdigits2 m + n - 1) with ((Zdigits2 m - 1) + n) by lia.
  rewrite !Z.pow_add_r by lia. split; [by apply mul_le_r|]. by apply Z.mul_lt_mono_pos_r.
Qed.

Lemma binary_normalize_rounds m e sz :
  0 <= m -> emin64 <= e -> m * 2 ^ (e + 1074) < 2 ^ 2000 ->
  rounds 1 (m * 2 ^ (e + 1074)) (binary_normalize 53 1024 m e sz).
Proof.
  intros Hm He Hs. destruct m as [|p|p]; [|cbn [binary_normalize]|lia].
  - apply (rounds_of_exact (S754_zero sz)). done.
  - unfold binary_round.
    destruct (shl_align_spec p e (fexp64 (Z.pos (digits2_pos p) + e))) as (mz & ez & -> & Hez & Hmz).
    change (Z.pos (digits2_pos p)) with (Zdigits2 (Z.pos p)) in *.
    pose proof (fexp64_eq (Zdigits2 (Z.pos p) + e)) as Hf.
    assert (Hdig : Zdigits2 (Z.pos mz) + ez = Zdigits2 (Z.pos p) + e)
      by (rewrite Hmz, Zdigits2_shift by lia; lia).
    assert (Hfe : ez <= fexp64 (Zdigits2 (Z.pos mz) + ez)) by (rewrite Hdig; lia).
    assert (Hval : Z.pos p * 2 ^ (e + 1074) = Z.pos mz * 2 ^ (ez + 1074 + 0)).
    { rewrite Hmz, <- Z.mul_assoc, <- Z.pow_add_r by (unfold emin64 in *; lia). do 2 f_equal. lia. }
    unfold emin64 in *. rewrite Hval in *.
    pose proof (pow2_pos (ez + 1074 + 0)).
    apply (binary_round_aux_rounds (Z.pos mz) ez 0 1); rewrite ?Z.mul_1_r; try done; try lia.
    unfold located. cbn. lia.
Qed.

Lemma f64_of_Z_rounds z : 0 <= z < 2 ^ 100 -> rounds 1 (z * f64_unit) (f64_of_Z z).
Proof.
  intros Hz. apply (binary_normalize_rounds z 0 false); [lia|done|].
  apply Z.lt_trans with (2 ^ 100 * 2 ^ (0 + 1074)); [apply Z.mul_lt_mono_pos_r; [by apply pow2_pos|lia]|].
  rewrite <- Z.pow_add_r by lia. by apply Z.pow_lt_mono_r.
Qed.

Lemma representable_small z : 0 <= z <= 2 ^ 53 -> representable (z * f64_unit).
Proof.
  intros Hz. destruct (Z.eq_dec z (2 ^ 53)) as [->|].
  - exists (2 ^ 52), 1. split; [lia|]. split; [done|]. unfold f64_unit.
    rewrite <- !Z.pow_add_r by lia. done.
  - exists z, 0. split; [lia|]. split; [done|]. done.
Qed.

(** Integers of magnitude at most [2^53] convert exactly. *)
Lemma f64_of_Z_exact z : 0 <= z <= 2 ^ 53 ->
  f64_finite_nonneg (f64_of_Z z) /\ f64_units (f64_of_Z z) = z * f64_unit.
Proof.
  intros Hz. assert (Hr : rounds 1 (z * f64_unit) (f64_of_Z z)).
  { apply f64_of_Z_rounds. split; [lia|]. eapply Z.le_lt_trans; [apply Hz|done]. }
  split; [apply Hr|]. apply (rounds_exact 1); [by rewrite Z.mul_1_r|by apply representable_small].
Qed.

Lemma f64_finite_inv p e : f64_finite_nonneg (S754_finite false p e) ->
  Z.pos p < 2 ^ 53 /\ emin64 <= e <= 971 /\ (e = emin64 \/ 2 ^ 52 <= Z.pos p).
Proof. intros [Hf _]. by apply bounded_inv. Qed.

(** The aligned mantissas of an addition or subtraction denote the operands' units. *)
Lemma align_units p e ez : emin64 <= ez <= e ->
  Z.pos (fst (shl_align p e ez)) * 2 ^ (ez + 1074) = Z.pos p * 2 ^ (e + 1074).
Proof.
  intros He. destruct (shl_align_spec p e ez) as (mz & ez' & -> & Hez & Hmz). cbn [fst].
  replace ez' with ez in * by lia. rewrite Hmz, <- Z.mul_assoc, <- Z.pow_add_r by (unfold emin64 in *; lia).
  do 2 f_equal. lia.
Qed.

Lemma f64_add_rounds x y :
  f64_finite_nonneg x -> f64_finite_nonneg y -> f64_units x + f64_units y < 2 ^ 2000 ->
  rounds 1 (f64_units x + f64_units y) (f64_add x y).
Proof.
  intros Hx Hy Hs. unfold f64_add.
  destruct x as [sx| | |[] mx ex]; try (by destruct Hx); destruct y as [sy| | |[] my ey]; try (by destruct Hy).
  - cbn [f64_units]. destruct sx, sy; by apply rounds_of_exact.
  - cbn [SFadd f64_units Z.add]. by apply rounds_of_exact.
  - cbn [SFadd]. replace (_ + _) with (f64_units (S754_finite false mx ex)) by (cbn; lia).
    by apply rounds_of_exact.
  - apply f64_finite_inv in Hx as (_ & Hex & _), Hy as (_ & Hey & _).
    cbn [SFadd f64_units cond_Zopp] in *. set (ez := Z.min ex ey).
    rewrite <- (align_units mx ex ez), <- (align_units my ey ez), <- Z.mul_add_distr_r in * by lia.
    apply binary_normalize_rounds; [lia|lia|done].
Qed.

Lemma f64_sub_rounds x y :
  f64_finite_nonneg x -> f64_finite_nonneg y -> f64_units y <= f64_units x -> f64_units x < 2 ^ 2000 ->
  rounds 1 (f64_units x - f64_units y) (f64_sub x y).
Proof.
  intros Hx Hy Hle Hs. unfold f64_sub. pose proof (f64_units_nonneg y (proj2 Hy)).
  destruct x as [sx| | |[] mx ex]; try (by destruct Hx); destruct y as [sy| | |[] my ey]; try (by destruct Hy).
  - cbn [f64_units]. destruct sx, sy; by apply rounds_of_exact.
  - apply f64_finite_inv in Hy as (_ & Hey & _). cbn [f64_units cond_Zopp] in Hle. exfalso.
    pose proof (pow2_pos (ey + 1074)) as Hp. unfold emin64 in *. specialize (Hp ltac:(lia)). nia.
  - cbn [SFsub]. replace (_ - _) with (f64_units (S754_finite false mx ex)) by (cbn; lia).
    by apply rounds_of_exact.
  - apply f64_finite_inv in Hx as (_ & Hex & _), Hy as (_ & Hey & _).
    cbn [SFsub f64_units cond_Zopp] in *. set (ez := Z.min ex ey).
    rewrite <- (align_units mx ex ez), <- (align_units my ey ez), <- ?Z.mul_sub_distr_r in * by lia.
    pose proof (pow2_pos (ez + 1074)) as Hp. unfold emin64 in *.
    pose proof (proj2 (Z.mul_le_mono_pos_r _ _ _ (Hp ltac:(lia))) Hle).
    apply binary_normalize_rounds; unfold emin64; lia.
Qed.

Lemma canonical_fexp p e : f64_finite_nonneg (S754_finite false p e) ->
  fexp64 (Zdigits2 (Z.pos p) + e) = e.
Proof.
  intros [Hf _]. cbn in Hf. unfold bounded, canonical_mantissa in Hf.
  apply andb_true_iff in Hf as [Hf _]. by apply Z.eqb_eq.
Qed.

Lemma f64_mul_rounds x y :
  f64_finite_nonneg x -> f64_finite_nonneg y -> f64_units x * f64_units y < 2 ^ 2000 * f64_unit ->
  rounds f64_unit (f64_units x * f64_units y) (f64_mul x y).
Proof.
  intros Hx Hy Hs. unfold f64_mul.
  destruct x as [sx| | |[] mx ex]; try (by destruct Hx); destruct y as [sy| | |[] my ey]; try (by destruct Hy);
    try (eapply rounds_zero; [reflexivity|exact f64_unit_pos|cbn [f64_units]; lia]).
  pose proof (canonical_fexp _ _ Hx) as Hcx. pose proof (canonical_fexp _ _ Hy) as Hcy.
  apply f64_finite_inv in Hx as (_ & Hex & _), Hy as (_ & Hey & _).
  cbn [SFmul f64_units cond_Zopp xorb] in *.
  assert (Hv : Z.pos mx * 2 ^ (ex + 1074) * (Z.pos my * 2 ^ (ey + 1074))
             = Z.pos (mx * my) * (2 ^ (ex + ey + 1074 + 1074) * 1)).
  { replace (ex + ey + 1074 + 1074) with ((ex + 1074) + (ey + 1074)) by lia.
    unfold emin64 in *. rewrite (Z.pow_add_r 2 (ex + 1074)), Pos2Z.inj_mul by lia. lia. }
  rewrite Hv in *. pose proof (pow2_pos (ex + ey + 1074 + 1074)) as Hp. unfold emin64 in *.
  replace f64_unit with (2 ^ 1074 * 1) in * by (by rewrite Z.mul_1_r).
  apply (binary_round_aux_rounds (Z.pos (mx * my)) (ex + ey)); try done; try lia; [|unfold located; cbn; lia].
  rewrite !fexp64_eq in *. unfold emin64 in *.
  destruct (Zdigits2_spec (Z.pos mx)) as [? [Hx1 Hx2]]; [lia|].
  destruct (Zdigits2_spec (Z.pos my)) as [? [Hy1 Hy2]]; [lia|].
  assert (Zdigits2 (Z.pos mx) + Zdigits2 (Z.pos my) - 1 <= Zdigits2 (Z.pos (mx * my))); [|lia].
  destruct (Zdigits2_spec (Z.pos (mx * my))) as [? [_ Hxy]]; [lia|].
  apply Z.lt_pred_le, (Z.pow_lt_mono_r_iff 2); [lia|lia|]. rewrite Pos2Z.inj_mul in Hxy.
  eapply Z.le_lt_trans; [|exact Hxy].
  replace (Z.pred (Zdigits2 (Z.pos mx) + Zdigits2 (Z.pos my) - 1))
    with ((Zdigits2 (Z.pos mx) - 1) + (Zdigits2 (Z.pos my) - 1)) by lia.
  rewrite Z.pow_add_r by lia. apply Z.mul_le_mono_nonneg; lia.
Qed.

Lemma new_location_located q n r h : 0 < h -> 0 <= r < n ->
  located q (new_location n r) ((q * n + r) * h) (h * n).
Proof.
  intros Hh Hr. unfold located, new_location.
  replace ((q * n + r) * h - q * (h * n)) with (r * h) by lia.
  destruct (Z.even n) eqn:Hn; unfold new_location_even, new_location_odd; destruct (Z.eqb_spec r 0); try nia.
  - destruct (Z.compare_spec (2 * r) n); nia.
  - assert (Hodd : exists j, n = 2 * j + 1).
    { apply Zodd_ex. apply Zodd_bool_iff. by rewrite <- Z.negb_even, Hn. }
    destruct Hodd as [j ->]. destruct (Z.compare_spec (2 * r + 1) (2 * j + 1)); nia.
Qed.

(** The digits that a quotient has at least. *)
Lemma quotient_digits mx my k q r : 0 <= k -> Z.pos mx * 2 ^ k = Z.pos my * q + r -> 0 <= r < Z.pos my ->
  Zdigits2 (Z.pos mx) + k - Zdigits2 (Z.pos my) <= Zdigits2 q.
Proof.
  intros Hk Hq Hr. pose proof (pow2_pos _ Hk) as Hp. assert (Hq0 : 0 <= q) by nia.
  set (d1 := Zdigits2 (Z.pos mx)). set (d2 := Zdigits2 (Z.pos my)).
  destruct (Z.le_gt_cases (d1 + k - d2) 0) as [|Hgt]; [etransitivity; [done|]; by destruct q|].
  destruct (Zdigits2_spec (Z.pos mx)) as [_ [Hx1 _]]; [lia|]. fold d1 in Hx1.
  destruct (Zdigits2_spec (Z.pos my)) as [_ [_ Hy2]]; [lia|]. fold d2 in Hy2.
  apply Z.nlt_ge. intros Hlt.
  assert (Hq2 : q < 2 ^ (d1 + k - d2 - 1)).
  { destruct (Z.eq_dec q 0) as [->|]; [by apply pow2_pos; lia|].
    destruct (Zdigits2_spec q) as [_ [_ Hqd]]; [lia|].
    eapply Z.lt_le_trans; [exact Hqd|]. apply Z.pow_le_mono_r; lia. }
  assert (Hm2 : 2 ^ (d1 - 1) * 2 ^ k <= Z.pos mx * 2 ^ k) by (by apply mul_le_r).
  assert (Hsplit : 2 ^ (d1 - 1) * 2 ^ k = 2 ^ (d1 + k - d2 - 1) * 2 ^ d2).
  { rewrite <- !Z.pow_add_r; [f_equal; lia|..]; try lia; unfold d1, d2; cbn; lia. }
  rewrite Hsplit in Hm2. clear - Hq Hr Hq2 Hm2 Hy2 Hq0. nia.
Qed.

Lemma f64_div_rounds x y :
  f64_finite_nonneg x -> f64_finite_nonneg y -> 0 < f64_units y ->
  f64_units x * f64_unit < 2 ^ 2000 * f64_units y ->
  rounds (f64_units y) (f64_units x * f64_unit) (f64_div x y).
Proof.
  intros Hx Hy Hpos Hs. unfold f64_div.
  destruct y as [sy| | |[] my ey]; try (by destruct Hy).
  destruct x as [sx| | |[] mx ex]; try (by destruct Hx).
  { eapply rounds_zero; [reflexivity|done|cbn [f64_units]; lia]. }
  apply f64_finite_inv in Hx as (_ & Hex & _), Hy as (_ & Hey & _).
  cbn [SFdiv xorb]. unfold SFdiv_core_binary.
  set (d1 := Zdigits2 (Z.pos mx)). set (d2 := Zdigits2 (Z.pos my)).
  set (e' := Z.min (fexp64 (d1 + ex - (d2 + ey))) (ex - ey)).
  assert (Hm' : match ex - ey - e' with
                | 0 => Z.pos mx | Z.pos _ => Z.shiftl (Z.pos mx) (ex - ey - e') | Z.neg _ => 0
                end = Z.pos mx * 2 ^ (ex - ey - e')).
  { destruct (ex - ey - e') as [|s|s] eqn:Hs'; [lia| |unfold e' in *; lia].
    by rewrite Z.shiftl_mul_pow2 by lia. }
  rewrite Hm'. clear Hm'. set (m' := Z.pos mx * 2 ^ (ex - ey - e')).
  assert (He' : 0 <= ex - ey - e') by (unfold e'; lia).
  pose proof (pow2_pos _ He') as Hp'.
  pose proof (Z_div_mod m' (Z.pos my) ltac:(lia)) as Hdm.
  destruct (Z.div_eucl m' (Z.pos my)) as [q r]. destruct Hdm as [Hq Hr].
  assert (Hq0 : 0 <= q) by nia.
  cbn [f64_units cond_Zopp] in *. unfold emin64 in *.
  assert (Hv : Z.pos mx * 2 ^ (ex + 1074) * f64_unit
             = (q * Z.pos my + r) * 2 ^ (e' + 1074 + (ey + 1074))).
  { rewrite (Z.mul_comm q), <- Hq. unfold m', f64_unit.
    rewrite <- !Z.mul_assoc, <- !Z.pow_add_r; [do 2 f_equal; lia| | | |]; try lia.
    unfold e'. rewrite fexp64_eq. unfold emin64. lia. }
  rewrite Hv in *. rewrite (Z.mul_comm (Z.pos my)) in *.
  assert (Hfb : -1074 <= fexp64 (d1 + ex - (d2 + ey))) by (rewrite fexp64_eq; unfold emin64; lia).
  set (h := 2 ^ (e' + 1074 + (ey + 1074))) in *.
  assert (Hh : 0 < h) by (apply pow2_pos; unfold e'; lia).
  apply (binary_round_aux_rounds q e'); fold h; try done; try lia.
  - etransitivity; [apply Z.le_min_l|]. rewrite !fexp64_eq.
    pose proof (quotient_digits mx my (ex - ey - e') q r He' ltac:(lia) Hr) as Hd. fold d1 d2 in Hd. lia.
  - by apply new_location_located.
Qed.

(** ** Comparisons *)

Lemma units_compare_exponent p e q e' :
  f64_finite_nonneg (S754_finite false p e) -> f64_finite_nonneg (S754_finite false q e') -> e < e' ->
  Z.pos p * 2 ^ (e + 1074) < Z.pos q * 2 ^ (e' + 1074).
Proof.
  intros Hp Hq Hlt. apply f64_finite_inv in Hp as (Hp & He & _).
  apply f64_finite_inv in Hq as (_ & He' & [->|Hq]); [lia|].
  unfold emin64 in *. replace (e' + 1074) with ((e' - e - 1) + 1 + (e + 1074)) by lia.
  rewrite (pow2_split (e' - e - 1 + 1)), (pow2_split _ 1) by lia. pose proof (pow2_pos (e + 1074)) as H1. pose proof (pow2_pos (e' - e - 1)) as H2.
  rewrite !Z.mul_assoc. apply Z.mul_lt_mono_pos_r; [lia|]. nia.
Qed.

Lemma SFcompare_units x y : f64_finite_nonneg x -> f64_finite_nonneg y ->
  SFcompare x y = Some (f64_units x ?= f64_units y).
Proof.
  intros Hx Hy.
  destruct x as [sx| | |[] mx ex]; try (by destruct Hx); destruct y as [sy| | |[] my ey]; try (by destruct Hy).
  - cbn [SFcompare f64_units cond_Zopp]. f_equal. symmetry. apply Z.compare_lt_iff.
    apply f64_finite_inv in Hy as (_ & He & _). pose proof (pow2_pos (ey + 1074)). unfold emin64 in *. lia.
  - cbn [SFcompare f64_units cond_Zopp]. f_equal. symmetry. apply Z.compare_gt_iff.
    apply f64_finite_inv in Hx as (_ & He & _). pose proof (pow2_pos (ex + 1074)). unfold emin64 in *. lia.
  - cbn [SFcompare f64_units cond_Zopp]. f_equal.
    destruct (Z.compare_spec ex ey) as [->|Hlt|Hgt]; symmetry.
    + change (Pos.compare_cont Eq mx my) with (Z.pos mx ?= Z.pos my).
      apply f64_finite_inv in Hx as (_ & He & _). pose proof (pow2_pos (ey + 1074)). unfold emin64 in *.
      symmetry. apply Zmult_compare_compat_r. lia.
    + apply Z.compare_lt_iff. by apply units_compare_exponent.
    + apply Z.compare_gt_iff. by apply units_compare_exponent.
Qed.

Lemma f64_ltb_units x y : f64_finite_nonneg x -> f64_finite_nonneg y ->
  f64_ltb x y = (f64_units x <? f64_units y).
Proof. intros Hx Hy. unfold f64_ltb, SFltb. rewrite SFcompare_units by done. unfold Z.ltb. by destruct (_ ?= _). Qed.

Lemma f64_leb_units x y : f64_finite_nonneg x -> f64_finite_nonneg y ->
  f64_leb x y = (f64_units x <=? f64_units y).
Proof. intros Hx Hy. unfold f64_leb, SFleb. rewrite SFcompare_units by done. unfold Z.leb. by destruct (_ ?= _). Qed.

(** Go's conversion [int(f)]: truncation toward zero, and the indefinite integer of the amd64
    instruction for NaN and values outside [int64]. *)
Definition f64_to_int (f : float64) : Z :=
  let z := Z.quot (f64_units f) f64_unit in
  match f with
  | S754_zero _ => 0
  | S754_finite _ _ _ => if ((- 2 ^ 63 <=? z) && (z <? 2 ^ 63))%bool then z else - 2 ^ 63
  | _ => - 2 ^ 63
  end.

Lemma f64_to_int_small f : f64_finite_nonneg f -> f64_units f < 2 ^ 63 * f64_unit ->
  f64_to_int f = f64_units f / f64_unit.
Proof.
  intros Hf Hlt. pose proof f64_unit_pos as Hu. pose proof (f64_units_nonneg f (proj2 Hf)) as Hnn.
  assert (Hb : 0 <= f64_units f / f64_unit < 2 ^ 63).
  { split; [by apply Z.div_pos|]. apply Z.div_lt_upper_bound; lia. }
  unfold f64_to_int. rewrite Z.quot_div_nonneg by done.
  destruct f as [s| | |[] m e]; try (by destruct Hf).
  destruct (Z.leb_spec (- 2 ^ 63) (f64_units (S754_finite false m e) / f64_unit)); [|lia].
  by destruct (Z.ltb_spec (f64_units (S754_finite false m e) / f64_unit) (2 ^ 63)); [|lia].
Qed.
