(* ===== verification/GoTime.v ===== *)
(** Go's machine integers, [time.Time] and [time.Duration].

    A [Time] is the instant it denotes, in nanoseconds since Go's zero time (January 1, year 1,
    UTC); locations and monotonic readings do not take part in the comparisons the code makes.
    A [Duration] is an [int64] number of nanoseconds. *)
From S2P Require Import Prelude Float64.
Local Open Scope Z_scope.

(** ** [int64] (and [int], on the amd64 target of the Dockerfile) *)

Definition min_int64 : Z := - 2 ^ 63.
Definition max_int64 : Z := 2 ^ 63 - 1.
Definition int64_wrap (z : Z) : Z := (z + 2 ^ 63) mod 2 ^ 64 - 2 ^ 63.
Definition in_int64 (z : Z) : Prop := min_int64 <= z <= max_int64.

Lemma int64_wrap_range z : in_int64 (int64_wrap z).
Proof.
  unfold in_int64, int64_wrap, min_int64, max_int64.
  pose proof (Z.mod_pos_bound (z + 2 ^ 63) (2 ^ 64) ltac:(lia)). lia.
Qed.

Lemma int64_wrap_id z : in_int64 z -> int64_wrap z = z.
Proof.
  unfold in_int64, int64_wrap, min_int64, max_int64. intros Hz.
  rewrite Z.mod_small by lia. lia.
Qed.

Lemma int64_wrap_wrap_add a b : int64_wrap (int64_wrap a + b) = int64_wrap (a + b).
Proof.
  unfold int64_wrap. f_equal.
  replace ((a + 2 ^ 63) mod 2 ^ 64 - 2 ^ 63 + b + 2 ^ 63) with ((a + 2 ^ 63) mod 2 ^ 64 + b) by lia.
  rewrite Z.add_mod_idemp_l by lia. f_equal. lia.
Qed.

Lemma int64_wrap_wrap_mul a b : int64_wrap (int64_wrap a * b) = int64_wrap (a * b).
Proof.
  unfold int64_wrap. f_equal.
  replace (((a + 2 ^ 63) mod 2 ^ 64 - 2 ^ 63) * b + 2 ^ 63)
    with ((a + 2 ^ 63) mod 2 ^ 64 * b + (2 ^ 63 - 2 ^ 63 * b)) by lia.
  rewrite <- Z.add_mod_idemp_l, Z.mul_mod_idemp_l, Z.add_mod_idemp_l by lia. f_equal. lia.
Qed.

(** ** Durations *)

Abbreviation Duration := Z (only parsing).
Definition Nanosecond : Duration := 1.
Definition Millisecond : Duration := 1000000.
Definition Second : Duration := 1000000000.
Definition Minute : Duration := 60 * Second.

(** [Duration.Seconds] and [Duration.Minutes] of the standard library. *)
Definition Seconds (d : Duration) : float64 :=
  f64_add (f64_of_Z (Z.quot d Second)) (f64_div (f64_of_Z (Z.rem d Second)) (f64_of_Z Second)).
Definition Minutes (d : Duration) : float64 :=
  f64_add (f64_of_Z (Z.quot d Minute)) (f64_div (f64_of_Z (Z.rem d Minute)) (f64_of_Z Minute)).

(** ** Instants *)

Abbreviation Time := Z (only parsing).
Definition zero_time : Time := 0.
Definition IsZero (t : Time) : bool := t =? zero_time.
Definition After (t u : Time) : bool := u <? t.
Definition Before (t u : Time) : bool := t <? u.

(** [t.Sub(u)], which saturates. *)
Definition Sub (t u : Time) : Duration := Z.max min_int64 (Z.min max_int64 (t - u)).

(** [t.Truncate(d)] for a positive [d]. *)
Definition Truncate (t : Time) (d : Duration) : Time := t - t mod d.

(** [t.Unix()]: whole seconds since January 1, 1970. *)
Definition Unix (t : Time) : Z := t / Second - 62135596800.

Lemma Sub_range t u : in_int64 (Sub t u).
Proof. unfold in_int64, Sub, min_int64, max_int64. lia. Qed.

Lemma Sub_exact t u : in_int64 (t - u) -> Sub t u = t - u.
Proof. unfold in_int64, Sub. lia. Qed.

(** ** Durations as floats

    [q + r / n] computed in binary64, for [d = q * n + r]: it lies between [q] and [q + 1], is
    [q] when [r] is zero, and is positive when [d] is. *)
Definition float_quotient (d n : Z) : float64 :=
  f64_add (f64_of_Z (Z.quot d n)) (f64_div (f64_of_Z (Z.rem d n)) (f64_of_Z n)).

Lemma float_quotient_div r n :
  0 <= r < n -> Second <= n < 2 ^ 40 ->
  rounds (n * f64_unit) (r * f64_unit * f64_unit) (f64_div (f64_of_Z r) (f64_of_Z n)) /\
  f64_units (f64_div (f64_of_Z r) (f64_of_Z n)) <= f64_unit.
Proof.
  unfold Second. intros Hr Hn. pose proof f64_unit_pos as Hu.
  destruct (f64_of_Z_exact r) as [Hrf Hru]; [lia|].
  destruct (f64_of_Z_exact n) as [Hnf Hnu]; [lia|].
  assert (Hdiv : rounds (n * f64_unit) (r * f64_unit * f64_unit) (f64_div (f64_of_Z r) (f64_of_Z n))).
  { rewrite <- Hru, <- Hnu. apply f64_div_rounds; [done|done|rewrite Hnu; nia|].
    rewrite Hru, Hnu. rewrite !Z.mul_assoc. apply Z.mul_lt_mono_pos_r; [done|].
    apply Z.lt_trans with (n * f64_unit); [apply Z.mul_lt_mono_pos_r; lia|].
    rewrite (Z.mul_comm n). apply Z.mul_lt_mono_pos_r; [lia|]. by apply Z.pow_lt_mono_r. }
  split; [done|]. rewrite <- (Z.mul_1_l f64_unit).
  eapply rounds_le; [exact Hdiv|by apply representable_small|]. nia.
Qed.

Lemma float_quotient_add q x :
  0 <= q < 2 ^ 53 -> f64_finite_nonneg x -> f64_units x <= f64_unit ->
  rounds 1 (q * f64_unit + f64_units x) (f64_add (f64_of_Z q) x).
Proof.
  intros Hq Hx Hx1. pose proof f64_unit_pos as Hu.
  destruct (f64_of_Z_exact q) as [Hqf Hqu]; [lia|]. rewrite <- Hqu.
  apply f64_add_rounds; [done|done|]. rewrite Hqu.
  apply Z.le_lt_trans with (2 ^ 53 * f64_unit); [nia|].
  unfold f64_unit. rewrite <- Z.pow_add_r by lia. by apply Z.pow_lt_mono_r.
Qed.

Lemma float_quotient_spec d n :
  0 <= d < 2 ^ 63 -> Second <= n < 2 ^ 40 ->
  f64_finite_nonneg (float_quotient d n) /\
  d / n * f64_unit <= f64_units (float_quotient d n) <= (d / n + 1) * f64_unit /\
  (d mod n = 0 -> f64_units (float_quotient d n) = d / n * f64_unit) /\
  (0 < d -> 0 < f64_units (float_quotient d n)).
Proof.
  unfold Second. intros Hd Hn. unfold float_quotient.
  rewrite Z.quot_div_nonneg, Z.rem_mod_nonneg by lia.
  pose proof (Z.mod_pos_bound d n ltac:(lia)) as Hr.
  assert (Hq : 0 <= d / n < 2 ^ 53).
  { split; [apply Z.div_pos; lia|]. apply Z.div_lt_upper_bound; lia. }
  set (q := d / n) in *. set (r := d mod n) in *.
  pose proof f64_unit_pos as Hu.
  destruct (float_quotient_div r n Hr Hn) as [Hdiv Hx1].
  set (x := f64_div (f64_of_Z r) (f64_of_Z n)) in *.
  assert (Hx0 : 0 <= f64_units x) by (eapply f64_units_nonneg, rounds_finite, Hdiv).
  pose proof (float_quotient_add q x Hq (rounds_finite _ _ _ Hdiv) Hx1) as Hadd.
  split; [by eapply rounds_finite|]. split; [split|split].
  - eapply rounds_ge; [exact Hadd|by apply representable_small; lia|lia].
  - eapply rounds_le; [exact Hadd|by apply representable_small; lia|lia].
  - intros Hr0. fold r in Hr0.
    assert (f64_units x <= 0).
    { eapply rounds_le; [exact Hdiv|by exists 0, emin64|]. rewrite Hr0. lia. }
    apply (rounds_exact 1); [|by apply representable_small; lia].
    replace (q * f64_unit * 1) with (q * f64_unit + f64_units x) by lia. done.
  - intros Hpos. destruct (Z.eq_dec q 0) as [Hq0|Hq0].
    + assert (0 < r) by (pose proof (Z.div_mod d n ltac:(lia)); unfold q, r in *; nia).
      assert (1 <= f64_units x).
      { assert (Hu40 : 2 ^ 40 <= f64_unit) by (by apply Z.pow_le_mono_r).
        eapply rounds_ge; [exact Hdiv|by exists 1, emin64|]. rewrite Z.mul_1_l.
        apply (mul_le_r f64_unit); [done|]. apply Z.le_trans with f64_unit; [lia|nia]. }
      assert (1 <= f64_units (f64_add (f64_of_Z q) x)); [|lia].
      eapply rounds_ge; [exact Hadd|by exists 1, emin64|lia].
    + assert (q * f64_unit <= f64_units (f64_add (f64_of_Z q) x)); [|nia].
      eapply rounds_ge; [exact Hadd|by apply representable_small; lia|lia].
Qed.

(** The rounding error of [float_quotient] for durations of at most five units. *)
Lemma float_quotient_error d n :
  0 <= d < 5 * n -> Second <= n < 2 ^ 40 ->
  n * f64_units (float_quotient d n) <= d * f64_unit + n * 2 ^ 1025.
Proof.
  intros Hd Hn. assert (Hn' : 0 < n < 2 ^ 40) by (unfold Second in *; lia). unfold float_quotient.
  rewrite Z.quot_div_nonneg, Z.rem_mod_nonneg by lia.
  pose proof (Z.mod_pos_bound d n ltac:(lia)) as Hr. pose proof (Z.div_mod d n ltac:(lia)) as Hdm.
  assert (Hq : 0 <= d / n <= 4).
  { split; [apply Z.div_pos; lia|]. apply Z.lt_succ_r, Z.div_lt_upper_bound; lia. }
  set (q := d / n) in *. set (r := d mod n) in *. pose proof f64_unit_pos as Hu.
  destruct (float_quotient_div r n Hr Hn) as [Hdiv Hx].
  pose proof (float_quotient_add q _ ltac:(lia) (rounds_finite _ _ _ Hdiv) Hx) as Hadd.
  set (x := f64_div (f64_of_Z r) (f64_of_Z n)) in *.
  pose proof (rounds_error _ _ _ 1021 Hdiv ltac:(done)) as He1.
  pose proof (rounds_error _ _ _ 1024 Hadd ltac:(done)) as He2.
  assert (Hu1 : f64_unit = 2 ^ 53 * 2 ^ 1021) by (unfold f64_unit; by rewrite <- Z.pow_add_r).
  assert (Hu2 : 2 ^ 1024 = 2 ^ 3 * 2 ^ 1021) by (by rewrite <- Z.pow_add_r).
  assert (Hu3 : 2 ^ 1025 = 2 ^ 4 * 2 ^ 1021) by (by rewrite <- Z.pow_add_r).
  pose proof (pow2_pos 1021 ltac:(done)) as Hp.
  rewrite Hu2 in He2. rewrite Hu3. rewrite !Z.mul_1_r in He2.
  revert Hu1 He1 He2 Hp. generalize (2 ^ 1021). intros g Hu1 He1 He2 Hp. clear Hu2 Hu3.
  assert (Hx' : n * f64_units x <= r * f64_unit + n * g).
  { apply Z.lt_le_incl, (mul_lt_inv f64_unit); [done|].
    replace (n * f64_units x * f64_unit) with (f64_units x * (n * f64_unit)) by lia.
    eapply Z.lt_le_trans; [apply He1; rewrite <- Hu1; split; nia|nia]. }
  assert (0 <= q * f64_unit <= 4 * f64_unit) by (split; [lia|apply mul_le_r; lia]).
  assert (0 <= f64_units x) by (eapply f64_units_nonneg, rounds_finite, Hdiv).
  assert (Hs : f64_units (f64_add (f64_of_Z q) x) <= q * f64_unit + f64_units x + 2 ^ 3 * g) by lia.
  apply (Z.mul_le_mono_nonneg_l _ _ n) in Hs; [|lia].
  replace (d * f64_unit) with (n * (q * f64_unit) + r * f64_unit) by (rewrite Hdm; lia).
  assert (0 < n * g) by (apply Z.mul_pos_pos; lia). lia.
Qed.
