(* ===== verification/Models.v ===== *)
(** The data model: [backend/internal/models/models.go] and [errors.go].

    Go's string-typed enumerations stay strings, as the code compares them; a Go string is its
    bytes, so [String.length] is Go's [len]. Pointers that may be nil are options. *)
From S2P Require Import Prelude Float64 GoTime.
Local Open Scope string_scope.
Local Open Scope Z_scope.
Local Set Warnings "-register-all".

(** ** Enumerations *)

Abbreviation Severity := string (only parsing).
Definition SeverityP0 : Severity := "P0".
Definition SeverityP1 : Severity := "P1".
Definition SeverityP2 : Severity := "P2".

Abbreviation ComponentType := string (only parsing).
Definition ComponentRDBMS : ComponentType := "RDBMS".
Definition ComponentNoSQL : ComponentType := "NOSQL".
Definition ComponentCache : ComponentType := "CACHE".
Definition ComponentQueue : ComponentType := "QUEUE".
Definition ComponentAPI : ComponentType := "API".
Definition ComponentMCPHost : ComponentType := "MCP_HOST".

Abbreviation WorkItemState := string (only parsing).
Definition StateOpen : WorkItemState := "OPEN".
Definition StateInvestigating : WorkItemState := "INVESTIGATING".
Definition StateResolved : WorkItemState := "RESOLVED".
Definition StateClosed : WorkItemState := "CLOSED".

(** No code of the backend compares a category with these: [Validate] takes any but the empty one. *)
Abbreviation RootCauseCategory := string (only parsing).
Definition RCACategoryInfrastructure : RootCauseCategory := "INFRASTRUCTURE".
Definition RCACategoryApplication : RootCauseCategory := "APPLICATION".
Definition RCACategoryNetwork : RootCauseCategory := "NETWORK".
Definition RCACategoryDatabase : RootCauseCategory := "DATABASE".
Definition RCACategoryThirdParty : RootCauseCategory := "THIRD_PARTY".
Definition RCACategoryHuman : RootCauseCategory := "HUMAN_ERROR".
Definition RCACategoryUnknown : RootCauseCategory := "UNKNOWN".

(** ** Errors *)

(** The package-level error values of [errors.go], compared by identity. *)
Inductive Sentinel :=
| ErrRCAMissingWorkItemID | ErrRCAMissingStartTime | ErrRCAMissingEndTime | ErrRCAEndBeforeStart
| ErrRCAMissingCategory | ErrRCARootCauseTooShort | ErrRCAFixTooShort | ErrRCAPreventionTooShort
| ErrInvalidTransition | ErrRCARequiredForClose | ErrWorkItemNotFound
| ErrQueueFull | ErrRateLimitExceeded | ErrInvalidSignal
| ErrInvalidCredentials | ErrUnauthorized.

#[export] Instance Sentinel_eq_dec : EqDecision Sentinel.
Proof. solve_decision. Defined.

Definition sentinel_text (s : Sentinel) : string :=
  match s with
  | ErrRCAMissingWorkItemID => "RCA: work_item_id is required"
  | ErrRCAMissingStartTime => "RCA: incident_start is required"
  | ErrRCAMissingEndTime => "RCA: incident_end is required"
  | ErrRCAEndBeforeStart => "RCA: incident_end must be after incident_start"
  | ErrRCAMissingCategory => "RCA: root_cause_category is required"
  | ErrRCARootCauseTooShort => "RCA: root_cause_detail must be at least 20 characters"
  | ErrRCAFixTooShort => "RCA: fix_applied must be at least 10 characters"
  | ErrRCAPreventionTooShort => "RCA: prevention_steps must be at least 10 characters"
  | ErrInvalidTransition => "workflow: invalid state transition"
  | ErrRCARequiredForClose => "workflow: RCA must be submitted and complete before closing"
  | ErrWorkItemNotFound => "workflow: work item not found"
  | ErrQueueFull => "ingestion: signal queue is full, try again later"
  | ErrRateLimitExceeded => "ingestion: rate limit exceeded"
  | ErrInvalidSignal => "ingestion: invalid signal payload"
  | ErrInvalidCredentials => "auth: invalid username or password"
  | ErrUnauthorized => "auth: unauthorized"
  end.

(** A Go [error]: a sentinel, [fmt.Errorf(pre + "%w" + post, err)], or any other error (one
    built without [%w], or returned by a third-party package) by its text. *)
Inductive error :=
| ESentinel (s : Sentinel)
| EWrap (pre : string) (err : error) (post : string)
| EText (text : string).

#[export] Instance error_eq_dec : EqDecision error.
Proof. solve_decision. Defined.

Fixpoint Error (e : error) : string :=
  match e with
  | ESentinel s => sentinel_text s
  | EWrap pre e' post => pre +:+ Error e' +:+ post
  | EText s => s
  end.

(** [errors.Is(e, s)] *)
Fixpoint errors_Is (e : error) (s : Sentinel) : bool :=
  match e with
  | ESentinel s' => bool_decide (s' = s)
  | EWrap _ e' _ => errors_Is e' s
  | EText _ => false
  end.

(** ** Records *)

(** JSON values, the contents of a [map[string]any]. *)
Inductive Any :=
| AnyNull | AnyBool (b : bool) | AnyNumber (f : float64) | AnyString (s : string)
| AnyArray (l : list Any) | AnyObject (l : list (string * Any)).

Record Signal := mkSignal {
  sig_ID : string;
  sig_ComponentID : string;
  sig_ComponentType : ComponentType;
  sig_Message : string;
  sig_Severity : Severity;
  sig_Metadata : option (list (string * Any));
  sig_WorkItemID : string;
  sig_ReceivedAt : Time;
}.

Record WorkItem := mkWorkItem {
  wi_ID : string;
  wi_ComponentID : string;
  wi_ComponentType : ComponentType;
  wi_Title : string;
  wi_Severity : Severity;
  wi_State : WorkItemState;
  wi_SignalCount : Z;
  wi_AssignedTo : string;
  wi_CreatedAt : Time;
  wi_UpdatedAt : Time;
  wi_ResolvedAt : option Time;
  wi_ClosedAt : option Time;
  wi_MTTR : option float64;
}.

(** The zero value of the struct. *)
Definition zero_WorkItem : WorkItem :=
  mkWorkItem "" "" "" "" "" "" 0 "" zero_time zero_time None None None.

Record RCA := mkRCA {
  rca_ID : string;
  rca_WorkItemID : string;
  rca_IncidentStart : Time;
  rca_IncidentEnd : Time;
  rca_RootCauseCategory : RootCauseCategory;
  rca_RootCauseDetail : string;
  rca_FixApplied : string;
  rca_PreventionSteps : string;
  rca_SubmittedBy : string;
  rca_SubmittedAt : Time;
}.

Definition zero_RCA : RCA := mkRCA "" "" zero_time zero_time "" "" "" "" "" zero_time.

Record Alert := mkAlert {
  alert_ID : string;
  alert_WorkItemID : string;
  alert_Severity : Severity;
  alert_Channel : string;
  alert_Message : string;
  alert_SentAt : Time;
}.

Record DashboardState := mkDashboardState {
  ds_TotalOpen : Z;
  ds_TotalInvestigating : Z;
  ds_TotalResolved : Z;
  ds_TotalClosed : Z;
  ds_SignalsPerSecond : float64;
  ds_ActiveIncidents : list WorkItem;
  ds_UpdatedAt : Time;
}.

Record IngestRequest := mkIngestRequest {
  req_ComponentID : string;
  req_ComponentType : ComponentType;
  req_Message : string;
  req_Severity : Severity;
  req_Metadata : option (list (string * Any));
}.

Record IngestResponse := mkIngestResponse {
  resp_SignalID : string;
  resp_WorkItemID : string;
  resp_Debounced : bool;
}.

(** ** [RCA.Validate] *)

Definition len (s : string) : Z := Z.of_nat (String.length s).

Definition Validate (r : RCA) : option Sentinel :=
  if bool_decide (rca_WorkItemID r = "") then Some ErrRCAMissingWorkItemID
  else if IsZero (rca_IncidentStart r) then Some ErrRCAMissingStartTime
  else if IsZero (rca_IncidentEnd r) then Some ErrRCAMissingEndTime
  else if negb (After (rca_IncidentEnd r) (rca_IncidentStart r)) then Some ErrRCAEndBeforeStart
  else if bool_decide (rca_RootCauseCategory r = "") then Some ErrRCAMissingCategory
  else if len (rca_RootCauseDetail r) <? 20 then Some ErrRCARootCauseTooShort
  else if len (rca_FixApplied r) <? 10 then Some ErrRCAFixTooShort
  else if len (rca_PreventionSteps r) <? 10 then Some ErrRCAPreventionTooShort
  else None.

(** [RCA.MTTRMinutes] *)
Definition MTTRMinutes (r : RCA) : float64 :=
  Minutes (Sub (rca_IncidentEnd r) (rca_IncidentStart r)).

(** What a complete RCA is: the abstract specification of [Validate]. *)
Definition complete_RCA (r : RCA) : Prop :=
  rca_WorkItemID r <> "" /\
  rca_IncidentStart r <> zero_time /\ rca_IncidentEnd r <> zero_time /\
  rca_IncidentStart r < rca_IncidentEnd r /\
  rca_RootCauseCategory r <> "" /\
  20 <= len (rca_RootCauseDetail r) /\ 10 <= len (rca_FixApplied r) /\
  10 <= len (rca_PreventionSteps r).

(** Whether the check that returns [e] fails on [r]; [rca_checks] lists them in the code's order. *)
Definition rca_check_fails (r : RCA) (e : Sentinel) : Prop :=
  match e with
  | ErrRCAMissingWorkItemID => rca_WorkItemID r = ""
  | ErrRCAMissingStartTime => rca_IncidentStart r = zero_time
  | ErrRCAMissingEndTime => rca_IncidentEnd r = zero_time
  | ErrRCAEndBeforeStart => rca_IncidentEnd r <= rca_IncidentStart r
  | ErrRCAMissingCategory => rca_RootCauseCategory r = ""
  | ErrRCARootCauseTooShort => len (rca_RootCauseDetail r) < 20
  | ErrRCAFixTooShort => len (rca_FixApplied r) < 10
  | ErrRCAPreventionTooShort => len (rca_PreventionSteps r) < 10
  | _ => False
  end.

Definition rca_checks : list Sentinel :=
  [ErrRCAMissingWorkItemID; ErrRCAMissingStartTime; ErrRCAMissingEndTime; ErrRCAEndBeforeStart;
   ErrRCAMissingCategory; ErrRCARootCauseTooShort; ErrRCAFixTooShort; ErrRCAPreventionTooShort].

(** Case analysis on every test of a validation chain. *)
Ltac validation_cases :=
  unfold IsZero, After, zero_time in *;
  repeat match goal with
  | |- context [@bool_decide ?P ?D] => destruct (@bool_decide_reflect P D)
  | |- context [?a =? ?b] => destruct (Z.eqb_spec a b)
  | |- context [?a <? ?b] => destruct (Z.ltb_spec a b)
  end; cbn [negb] in *.

Lemma Validate_complete r : Validate r = None <-> complete_RCA r.
Proof.
  unfold Validate, complete_RCA. validation_cases.
  all: split; [done || (intros _; repeat split; done || lia)|intros (? & ? & ? & ? & ? & ? & ? & ?)].
  all: done || lia.
Qed.

#[export] Instance complete_RCA_dec r : Decision (complete_RCA r).
Proof.
  destruct (Validate r) eqn:Hv.
  - right. intros Hc%Validate_complete. congruence.
  - left. by apply Validate_complete.
Defined.

#[export] Instance rca_check_fails_dec r e : Decision (rca_check_fails r e).
Proof. destruct e; cbn [rca_check_fails]; apply _. Defined.

(** The reference definition: the first check of the list that fails. *)
Lemma Validate_find r :
  Validate r = List.find (fun e => bool_decide (rca_check_fails r e)) rca_checks.
Proof.
  assert (H : forall e, bool_decide (rca_check_fails r e) =
    match e with
    | ErrRCAMissingWorkItemID => bool_decide (rca_WorkItemID r = "")
    | ErrRCAMissingStartTime => IsZero (rca_IncidentStart r)
    | ErrRCAMissingEndTime => IsZero (rca_IncidentEnd r)
    | ErrRCAEndBeforeStart => negb (After (rca_IncidentEnd r) (rca_IncidentStart r))
    | ErrRCAMissingCategory => bool_decide (rca_RootCauseCategory r = "")
    | ErrRCARootCauseTooShort => len (rca_RootCauseDetail r) <? 20
    | ErrRCAFixTooShort => len (rca_FixApplied r) <? 10
    | ErrRCAPreventionTooShort => len (rca_PreventionSteps r) <? 10
    | _ => false
    end).
  { intros []; cbn [rca_check_fails]; validation_cases; done || lia. }
  unfold rca_checks. cbn [List.find]. by rewrite !H.
Qed.

(** C29. [Validate] accepts exactly the complete RCAs, and what it rejects it rejects with the
    error of the first check, in the code's order, that the RCA fails. *)
Theorem Validate_spec r :
  (Validate r = None <-> complete_RCA r) /\
  (forall e, Validate r = Some e <->
     exists before after, rca_checks = (before ++ e :: after)%list /\
       rca_check_fails r e /\ Forall (fun e' => ~ rca_check_fails r e') before).
Proof.
  split; [apply Validate_complete|]. intros e. rewrite Validate_find.
  apply (find_first_iff (rca_check_fails r)).
Qed.

(** ** Mean time to repair *)

Definition example_RCA : RCA :=
  mkRCA "rca-1" "wi-1" (Truncate 63870000000000000000 Minute)
    (Truncate 63870000000000000000 Minute + 90 * Minute) RCACategoryDatabase
    "Connection pool exhausted due to slow query" "Rolled back deploy" "Add query timeout" "admin" 0.

(** C30. For a complete RCA the MTTR is a finite, positive number of minutes: it lies between the
    whole minutes of the incident's duration and the next whole minute, and it is exact when the
    duration is a whole number of minutes. The duration itself is exact up to the [int64] limit
    of about 292 years, where it saturates. *)
Theorem MTTRMinutes_spec r :
  complete_RCA r ->
  let d := Sub (rca_IncidentEnd r) (rca_IncidentStart r) in
  d = Z.min max_int64 (rca_IncidentEnd r - rca_IncidentStart r) /\
  f64_finite_nonneg (MTTRMinutes r) /\ 0 < f64_units (MTTRMinutes r) /\
  d / Minute * f64_unit <= f64_units (MTTRMinutes r) <= (d / Minute + 1) * f64_unit /\
  (d mod Minute = 0 -> f64_units (MTTRMinutes r) = d / Minute * f64_unit).
Proof.
  intros (_ & _ & _ & Hlt & _) d.
  assert (Hd : d = Z.min max_int64 (rca_IncidentEnd r - rca_IncidentStart r))
    by (unfold d, Sub, max_int64, min_int64; lia).
  destruct (float_quotient_spec d Minute) as (Hf & Hb & Hx & Hp);
    [unfold max_int64 in *; lia|by unfold Minute, Second|].
  unfold MTTRMinutes. repeat split; try done; [apply Hf|apply Hf|apply Hp|apply Hb|apply Hb].
  unfold max_int64 in *. lia.
Qed.

Lemma MTTRMinutes_spec_witness :
  complete_RCA example_RCA /\ f64_units (MTTRMinutes example_RCA) = 90 * f64_unit.
Proof.
  split; [by apply Validate_complete; vm_compute|].
  destruct (MTTRMinutes_spec example_RCA) as (_ & _ & _ & _ & H); [by apply Validate_complete; vm_compute|].
  rewrite H by (by vm_compute). reflexivity.
Defined.

(** ** The unit tests of [models/rca_test.go], on the model *)

(** [validRCA()] with the fields a test overwrites. *)
Definition test_RCA (wi category detail fixed prevention : string) : RCA :=
  mkRCA "test-rca-001" wi (rca_IncidentStart example_RCA) (rca_IncidentEnd example_RCA)
    category detail fixed prevention "admin" (rca_IncidentEnd example_RCA).

(** [strings.Repeat("x", n)] *)
Fixpoint xs (n : nat) : string := match n with O => "" | S n => "x" +:+ xs n end.

Example test_all_categories :
  Forall (fun c => Validate (test_RCA "test-wi-001" c (xs 20) (xs 10) (xs 10)) = None)
    [RCACategoryInfrastructure; RCACategoryApplication; RCACategoryNetwork; RCACategoryDatabase;
     RCACategoryThirdParty; RCACategoryHuman; RCACategoryUnknown].
Proof. by repeat constructor. Qed.

Example test_too_short :
  Forall (fun n => Validate (test_RCA "test-wi-001" RCACategoryDatabase (xs n) (xs 10) (xs 10)) =
    Some ErrRCARootCauseTooShort) [0; 1; 19]%nat /\
  Forall (fun n => Validate (test_RCA "test-wi-001" RCACategoryDatabase (xs 20) (xs n) (xs 10)) =
    Some ErrRCAFixTooShort) [0; 1; 9]%nat /\
  Forall (fun n => Validate (test_RCA "test-wi-001" RCACategoryDatabase (xs 20) (xs 10) (xs n)) =
    Some ErrRCAPreventionTooShort) [0; 1; 9]%nat.
Proof. by repeat constructor. Qed.

Example test_validation_order :
  Validate zero_RCA = Some ErrRCAMissingWorkItemID /\
  Validate (test_RCA "" "" "" "" "") = Some ErrRCAMissingWorkItemID /\
  Validate (test_RCA "test-wi-001" "" "" "" "") = Some ErrRCAMissingCategory.
Proof. by repeat constructor. Qed.

Example test_MTTR_minutes :
  Forall (fun n => f64_units (MTTRMinutes (mkRCA "" "" (rca_IncidentStart example_RCA)
    (rca_IncidentStart example_RCA + n * Minute) "" "" "" "" "" 0)) = n * f64_unit)
    [30; 90; 1; 150].
Proof. repeat constructor; by vm_compute. Qed.
