(* ===== verification/Queue.v ===== *)
(** The bounded signal queue: [backend/internal/queue/queue.go]. *)
From S2P Require Import Prelude Float64 GoTime Models.
Local Open Scope Z_scope.

Definition DefaultCapacity : Z := 50000.

(** The untyped constant [0.80] as a [float64]. *)
Definition warnThreshold : float64 := f64_div (f64_of_Z 80) (f64_of_Z 100).

(** [ch] is the channel's buffer, oldest signal first; the counters are [atomic.Int64]. *)
Record SignalQueue := mkSignalQueue {
  ch : list Signal;
  capacity : Z;
  dropped : Z;
  enqueued : Z;
}.

Definition New (cap : Z) : SignalQueue :=
  let cap := if cap <=? 0 then DefaultCapacity else cap in
  mkSignalQueue [] cap 0 0.

Definition Len (q : SignalQueue) : Z := Z.of_nat (length (ch q)).
Definition Cap (q : SignalQueue) : Z := capacity q.
Definition DroppedCount (q : SignalQueue) : Z := dropped q.
Definition EnqueuedCount (q : SignalQueue) : Z := enqueued q.

Definition FillRatio (q : SignalQueue) : float64 := f64_div (f64_of_Z (Len q)) (f64_of_Z (capacity q)).

(** Whether the pressure warning is logged. *)
Definition logIfPressured (q : SignalQueue) : bool := f64_leb warnThreshold (FillRatio q).

(** The non-blocking send: the first case of the [select] is ready when the buffer has room. *)
Definition TryEnqueue (signal : Signal) (q : SignalQueue) : bool * SignalQueue :=
  if Len q <? capacity q
  then (true, mkSignalQueue (ch q ++ [signal]) (capacity q) (dropped q) (int64_wrap (enqueued q + 1)))
  else (false, mkSignalQueue (ch q) (capacity q) (int64_wrap (dropped q + 1)) (enqueued q)).

(** A receive from the channel that [Consume] returns; [None] when the receiver would block. *)
Definition Consume (q : SignalQueue) : option (Signal * SignalQueue) :=
  match ch q with
  | [] => None
  | s :: rest => Some (s, mkSignalQueue rest (capacity q) (dropped q) (enqueued q))
  end.

(** ** The queue is a bounded FIFO that counts what it refuses *)

Inductive queue_op := OpEnqueue (s : Signal) | OpReceive.

(** What the callers of a sequence of operations saw. *)
Record observed := mkObserved { accepted : list Signal; refused : list Signal; received : list Signal }.

Definition queue_step (op : queue_op) (st : SignalQueue * observed) : SignalQueue * observed :=
  let '(q, o) := st in
  match op with
  | OpEnqueue s =>
      match TryEnqueue s q with
      | (true, q') => (q', mkObserved (accepted o ++ [s]) (refused o) (received o))
      | (false, q') => (q', mkObserved (accepted o) (refused o ++ [s]) (received o))
      end
  | OpReceive =>
      match Consume q with
      | Some (s, q') => (q', mkObserved (accepted o) (refused o) (received o ++ [s]))
      | None => (q, o)
      end
  end.

Definition run_queue (ops : list queue_op) (cap : Z) : SignalQueue * observed :=
  fold_left (fun st op => queue_step op st) ops (New cap, mkObserved [] [] []).

(** The refinement relation to the abstract FIFO: every accepted signal is received in order or
    still buffered, the buffer respects the capacity, and the counters count. *)
Definition queue_inv (cap : Z) (st : SignalQueue * observed) : Prop :=
  let '(q, o) := st in
  capacity q = Cap (New cap) /\ 0 < capacity q /\ Len q <= capacity q /\
  accepted o = received o ++ ch q /\
  enqueued q = int64_wrap (Z.of_nat (length (accepted o))) /\
  dropped q = int64_wrap (Z.of_nat (length (refused o))).

Lemma Cap_New_pos cap : 0 < Cap (New cap).
Proof. unfold Cap, New. cbn. by destruct (Z.leb_spec cap 0). Qed.

Lemma int64_wrap_succ n : int64_wrap (int64_wrap (Z.of_nat n) + 1) = int64_wrap (Z.of_nat (n + 1)).
Proof. rewrite int64_wrap_wrap_add. f_equal. lia. Qed.

Lemma queue_step_inv cap op st : queue_inv cap st -> queue_inv cap (queue_step op st).
Proof.
  destruct st as [q o]. unfold queue_inv. intros (Hc & Hp & Hl & Ha & He & Hd). destruct op as [s|]; cbn [queue_step].
  - unfold TryEnqueue. destruct (Z.ltb_spec (Len q) (capacity q)) as [Hlt|Hge];
      cbn [capacity Len ch accepted refused received enqueued dropped] in *.
    + split; [done|]. split; [done|]. split; [unfold Len in *; cbn [ch]; rewrite length_app; cbn [length]; lia|].
      split; [by rewrite Ha, app_assoc|]. split; [|done].
      by rewrite He, int64_wrap_succ, length_app.
    + repeat split; try done. by rewrite Hd, int64_wrap_succ, length_app.
  - unfold Consume. destruct (ch q) as [|s rest] eqn:Hch; cbn; [by rewrite Hch|].
    unfold Len in *. rewrite Hch in *. cbn in *. repeat split; try done; [lia|].
    by rewrite <- app_assoc.
Qed.

(** C25. Over any sequence of enqueues and receives on a fresh queue, whatever capacity was asked
    for: the capacity in force is positive, the buffer never exceeds it, the signals received are
    exactly the accepted ones in order, with the rest still buffered, and the two counters are the
    numbers of accepted and refused signals (as [int64]s). *)
Theorem run_queue_fifo ops cap : queue_inv cap (run_queue ops cap).
Proof.
  unfold run_queue. cut (queue_inv cap (New cap, mkObserved [] [] [])).
  { generalize (New cap, mkObserved [] [] []). induction ops as [|op ops IH]; intros st Hst; [done|].
    cbn. by apply IH, queue_step_inv. }
  pose proof (Cap_New_pos cap). unfold queue_inv, Len. cbn in *. repeat split; done || lia.
Qed.

(** ** The pressure threshold *)

Lemma warnThreshold_val : warnThreshold = SpecFloat.S754_finite false 7205759403792794 (-53).
Proof. by vm_compute. Qed.

(** The float [0.80] is above 4/5 by a third of its last place; a fill ratio that equals 4/5 rounds to it. *)
Lemma FillRatio_rounds q :
  0 < capacity q <= 2 ^ 50 -> Len q <= capacity q ->
  rounds (capacity q * f64_unit) (Len q * f64_unit * f64_unit) (FillRatio q).
Proof.
  intros Hc Hl. assert (H0 : 0 <= Len q) by (unfold Len; lia). pose proof f64_unit_pos as Hu.
  destruct (f64_of_Z_exact (Len q)) as [Hlf Hlu]; [lia|].
  destruct (f64_of_Z_exact (capacity q)) as [Hcf Hcu]; [lia|].
  unfold FillRatio. rewrite <- Hlu, <- Hcu. apply f64_div_rounds; [done|done|rewrite Hcu; nia|].
  rewrite Hlu, Hcu, !Z.mul_assoc. apply Z.mul_lt_mono_pos_r; [done|].
  apply Z.le_lt_trans with (capacity q * f64_unit); [nia|]. rewrite (Z.mul_comm (capacity q)).
  apply Z.mul_lt_mono_pos_r; [lia|]. by apply Z.pow_lt_mono_r.
Qed.

(** The pressure warning of [logIfPressured] is logged exactly when the buffer holds at least
    80% of its capacity: the rounding of the division and of the constant 0.80 never moves the
    threshold (for capacities up to 2^48). *)
Theorem logIfPressured_exact q :
  0 < capacity q <= 2 ^ 48 -> Len q <= capacity q ->
  logIfPressured q = true <-> 4 * capacity q <= 5 * Len q.
Proof.
  intros Hc Hl. assert (H0 : 0 <= Len q) by (unfold Len; lia).
  pose proof (FillRatio_rounds q ltac:(lia) Hl) as Hr.
  assert (Hwf : f64_finite_nonneg warnThreshold) by (rewrite warnThreshold_val; by split).
  unfold logIfPressured. rewrite f64_leb_units by (done || by eapply rounds_finite).
  rewrite Z.leb_le.
  assert (Hwu : f64_units warnThreshold = 7205759403792794 * 2 ^ (-53 + 1074)) by (by rewrite warnThreshold_val).
  assert (Hw : representable (7205759403792794 * 2 ^ (-53 + 1074))) by (apply (representable_intro _ (-53)); [lia|done]).
  assert (Hp : representable (7205759403792793 * 2 ^ (-53 + 1074))) by (apply (representable_intro _ (-53)); [lia|done]).
  assert (Hug : f64_unit = 2 ^ 53 * 2 ^ (-53 + 1074)) by (unfold f64_unit; by rewrite <- Z.pow_add_r).
  assert (Hg : 0 < 2 ^ (-53 + 1074)) by (by apply pow2_pos).
  rewrite Hwu. pose proof (f64_units_representable _ (rounds_finite _ _ _ Hr)) as Hu.
  pose proof (representable_grid _ (-53) Hu ltac:(done)) as Hgrid. unfold emin64 in Hgrid.
  destruct Hr as (Hs & Hf & Hnear). specialize (Hnear _ Hw) as Hnw.
  pose proof (rounds_le _ _ _ _ (conj Hs (conj Hf Hnear)) Hp) as Hup.
  revert Hug Hg Hgrid Hnw Hup Hs. clear Hnear Hw Hp Hwu Hwf Hu Hf.
  generalize (f64_units (FillRatio q)) (2 ^ (-53 + 1074)) f64_unit. intros u g unit Hug Hg Hgrid Hnw Hup Hs.
  assert (Hunit : 0 < unit) by lia.
  (* Everything is linear in [x], [y] and [b]. *)
  set (b := g * unit) in *. set (x := capacity q * b). set (y := Len q * b).
  assert (Hb : 0 < b) by (by apply Z.mul_pos_pos).
  assert (Hx : 0 < x <= 2 ^ 48 * b) by (unfold x; nia).
  assert (Hv : Len q * unit * unit = 2 ^ 53 * y) by (unfold y, b; rewrite Hug at 1; lia).
  assert (Hks : forall w, w * g * (capacity q * unit) = w * x) by (intros; unfold x, b; lia).
  rewrite Hv, Hks in *.
  split; intros Hle.
  - apply Z.nlt_ge. intros Hlt.
    assert (5 * y + b <= 4 * x) by (unfold x, y; nia).
    enough (u <= 7205759403792793 * g) by lia. apply Hup. lia.
  - apply Z.nlt_ge. intros Hlt.
    assert (4 * x <= 5 * y) by (unfold x, y; nia).
    assert (Hu : u <= 7205759403792793 * g).
    { destruct Hgrid as [[k ->]|[_ ?]]; [|lia]. apply mul_le_r; [done|].
      apply mul_lt_inv in Hlt; [lia|done]. }
    assert (u * (capacity q * unit) <= 7205759403792793 * x).
    { rewrite <- Hks. by apply mul_le_r. }
    lia.
Qed.

Lemma logIfPressured_exact_witness :
  logIfPressured (mkSignalQueue (repeat (mkSignal "" "" "" "" "" None "" 0) 4) 5 0 4) = true.
Proof.
  apply logIfPressured_exact; [split; [reflexivity|by vm_compute]|by vm_compute|by vm_compute].
Defined.
