(* ===== verification/RateLimiter.v ===== *)
(** The token-bucket rate limiter: [backend/internal/ingestion/ratelimiter.go].

    Buckets are heap objects that the map [buckets] points to, since a request keeps its bucket
    while the cleanup loop deletes the map entry. One definition per critical section; the
    argument [now] is what [time.Now()] returned inside it. *)
From S2P Require Import Prelude Float64 GoTime.
Local Open Scope string_scope.
Local Open Scope Z_scope.

Record tokenBucket := mkTokenBucket {
  tokens : float64;
  tb_capacity : float64;
  tb_refillRate : float64;
  lastRefill : Time;
}.

Definition newTokenBucket (capacity refillRate : float64) (now : Time) : tokenBucket :=
  mkTokenBucket capacity capacity refillRate now.

(** The package's own [min] on [float64]. *)
Definition min (a b : float64) : float64 := if f64_ltb a b then a else b.

Definition one : float64 := f64_of_Z 1.

(** The tokens after the refill of [allow]. *)
Definition refilled (b : tokenBucket) (now : Time) : float64 :=
  let elapsed := Seconds (Sub now (lastRefill b)) in
  min (tb_capacity b) (f64_add (tokens b) (f64_mul elapsed (tb_refillRate b))).

Definition allow (now : Time) (b : tokenBucket) : bool * tokenBucket :=
  let t := refilled b now in
  if f64_leb one t
  then (true, mkTokenBucket (f64_sub t one) (tb_capacity b) (tb_refillRate b) now)
  else (false, mkTokenBucket t (tb_capacity b) (tb_refillRate b) now).

Definition remaining (b : tokenBucket) : Z := f64_to_int (tokens b).

Record RateLimiter := mkRateLimiter {
  buckets : gmap string nat;
  bucket_heap : gmap nat tokenBucket;
  next_bucket : nat;
  rl_capacity : float64;
  rl_refillRate : float64;
}.

Definition NewRateLimiter (capacity ratePerSec : float64) : RateLimiter :=
  mkRateLimiter ∅ ∅ 0 capacity ratePerSec.

(** The read-locked lookup of [Allow]. *)
Definition Allow_lookup (key : string) (rl : RateLimiter) : option nat := buckets rl !! key.

(** The write-locked section of [Allow]: look again, create the bucket when it is still absent. *)
Definition Allow_create (key : string) (now : Time) (rl : RateLimiter) : nat * RateLimiter :=
  match buckets rl !! key with
  | Some p => (p, rl)
  | None =>
      let p := next_bucket rl in
      (p, mkRateLimiter (<[key := p]> (buckets rl))
            (<[p := newTokenBucket (rl_capacity rl) (rl_refillRate rl) now]> (bucket_heap rl))
            (S p) (rl_capacity rl) (rl_refillRate rl))
  end.

Definition set_bucket (p : nat) (b : tokenBucket) (rl : RateLimiter) : RateLimiter :=
  mkRateLimiter (buckets rl) (<[p := b]> (bucket_heap rl)) (next_bucket rl) (rl_capacity rl) (rl_refillRate rl).

(** [bucket.allow()] on the bucket the request holds. *)
Definition Allow_take (p : nat) (now : Time) (rl : RateLimiter) : bool * RateLimiter :=
  match bucket_heap rl !! p with
  | Some b => let '(ok, b') := allow now b in (ok, set_bucket p b' rl)
  | None => (false, rl) (* a dangling pointer: excluded by the invariant *)
  end.

(** [bucket.remaining()] *)
Definition Allow_remaining (p : nat) (rl : RateLimiter) : Z :=
  match bucket_heap rl !! p with Some b => remaining b | None => 0 end.

(** [time.Duration(float64(time.Second) / rl.refillRate)] *)
Definition Allow_resetIn (rl : RateLimiter) : Duration :=
  f64_to_int (f64_div (f64_of_Z Second) (rl_refillRate rl)).

(** [Allow] with no other goroutine in between: [now] and [now'] are its two clock readings. *)
Definition Allow (key : string) (now now' : Time) (rl : RateLimiter) : (bool * Z * Duration) * RateLimiter :=
  let '(p, rl) := match Allow_lookup key rl with
                  | Some p => (p, rl)
                  | None => Allow_create key now rl
                  end in
  let '(allowed, rl) := Allow_take p now' rl in
  ((allowed, Allow_remaining p rl, Allow_resetIn rl), rl).

(** The cleanup loop. *)
Definition stale (cutoff : Time) (b : tokenBucket) : bool := Before (lastRefill b) cutoff.

Definition is_stale (cutoff : Time) (heap : gmap nat tokenBucket) (p : nat) : bool :=
  match heap !! p with Some b => stale cutoff b | None => false end.

(** The body of the loop for one key; [cutoff] was computed before the loop took the lock of the map. *)
Definition cleanup_key (cutoff : Time) (key : string) (rl : RateLimiter) : RateLimiter :=
  match buckets rl !! key with
  | Some p =>
      if is_stale cutoff (bucket_heap rl) p
      then mkRateLimiter (delete key (buckets rl)) (bucket_heap rl) (next_bucket rl) (rl_capacity rl) (rl_refillRate rl)
      else rl
  | None => rl
  end.

(** ** Buckets with the handler's parameters: [NewRateLimiter(200, 100)] *)

Definition burst : Z := 200.
Definition rate : Z := 100.

(** The unit of account of the lemmas: a token, in float units. *)
Abbreviation token := f64_unit.

Record bucket_ok (now : Time) (b : tokenBucket) : Prop := {
  ok_capacity : tb_capacity b = f64_of_Z burst;
  ok_rate : tb_refillRate b = f64_of_Z rate;
  ok_finite : f64_finite_nonneg (tokens b);
  ok_tokens : f64_units (tokens b) <= burst * token;
  ok_time : lastRefill b <= now;
}.

Lemma units_small z : 0 <= z <= 2 ^ 53 -> f64_units (f64_of_Z z) = z * token.
Proof. intros Hz. by apply f64_of_Z_exact. Qed.

Lemma finite_small z : 0 <= z <= 2 ^ 53 -> f64_finite_nonneg (f64_of_Z z).
Proof. intros Hz. by apply f64_of_Z_exact. Qed.

Lemma min_units a b : f64_finite_nonneg a -> f64_finite_nonneg b ->
  f64_finite_nonneg (min a b) /\ f64_units (min a b) = Z.min (f64_units a) (f64_units b).
Proof.
  intros Ha Hb. unfold min. rewrite f64_ltb_units by done.
  destruct (Z.ltb_spec (f64_units a) (f64_units b)); split; done || lia.
Qed.

Lemma token_big k : 0 <= k <= 900 -> 2 ^ k * token < 2 ^ 2000.
Proof. intros Hk. unfold f64_unit. rewrite <- Z.pow_add_r by lia. apply Z.pow_lt_mono_r; lia. Qed.

Section Refill.
Variables (b : tokenBucket) (last now : Time).
Hypothesis Hok : bucket_ok last b.
Hypothesis Hnow : last <= now.

Let d : Duration := Sub now (lastRefill b).
Let s : float64 := Seconds d.
Let x : float64 := f64_mul s (tb_refillRate b).
Let a : float64 := f64_add (tokens b) x.

Lemma elapsed_range : 0 <= d < 2 ^ 63 /\ d <= now - lastRefill b.
Proof. pose proof (ok_time _ _ Hok). unfold d, Sub, min_int64, max_int64. lia. Qed.

Lemma seconds_spec : f64_finite_nonneg s /\
  d / Second * token <= f64_units s <= (d / Second + 1) * token.
Proof.
  destruct (float_quotient_spec d Second) as (H1 & H2 & _); [apply elapsed_range|done|].
  by split.
Qed.

Lemma product_rounds : rounds token (f64_units s * (rate * token)) x.
Proof.
  destruct seconds_spec as [Hs Hb]. destruct elapsed_range as [Hd _]. pose proof f64_unit_pos.
  unfold x. rewrite (ok_rate _ _ Hok), <- (units_small rate) by done.
  apply f64_mul_rounds; [done|by apply finite_small|].
  rewrite (units_small rate), Z.mul_assoc by done. apply Z.mul_lt_mono_pos_r; [done|].
  apply Z.le_lt_trans with (2 ^ 100 * token); [|by apply token_big].
  assert (d / Second < 2 ^ 63) by (apply Z.div_lt_upper_bound; unfold Second; lia).
  unfold rate. nia.
Qed.

Lemma product_bound : 0 <= f64_units x <= 2 ^ 100 * token.
Proof.
  destruct seconds_spec as [Hs Hb]. destruct elapsed_range as [Hd _]. pose proof f64_unit_pos.
  split; [by eapply f64_units_nonneg, rounds_finite, product_rounds|].
  eapply rounds_le; [exact product_rounds| |].
  - unfold f64_unit. rewrite <- Z.pow_add_r by done. by apply (representable_intro 1 100).
  - rewrite Z.mul_assoc. apply mul_le_r; [done|].
    assert (d / Second < 2 ^ 63) by (apply Z.div_lt_upper_bound; unfold Second; lia).
    unfold rate. nia.
Qed.

Lemma sum_rounds : rounds 1 (f64_units (tokens b) + f64_units x) a.
Proof.
  pose proof product_bound. pose proof (ok_tokens _ _ Hok). pose proof f64_unit_pos.
  apply f64_add_rounds; [apply Hok|eapply rounds_finite, product_rounds|].
  apply Z.le_lt_trans with (2 ^ 101 * token); [|by apply token_big]. unfold burst in *. lia.
Qed.

(** The refill caps the sum, and loses no token. *)
Lemma refilled_spec :
  f64_finite_nonneg (refilled b now) /\
  f64_units (refilled b now) = Z.min (burst * token) (f64_units a) /\
  f64_units (tokens b) <= f64_units (refilled b now) <= burst * token.
Proof.
  destruct (min_units (tb_capacity b) a) as [Hf Hu].
  { rewrite (ok_capacity _ _ Hok). by apply finite_small. }
  { eapply rounds_finite, sum_rounds. }
  rewrite (ok_capacity _ _ Hok), units_small in Hu by done.
  assert (f64_units (tokens b) <= f64_units a).
  { eapply rounds_ge; [exact sum_rounds| |].
    - apply f64_units_representable, (ok_finite _ _ Hok).
    - pose proof product_bound. lia. }
  pose proof (ok_tokens _ _ Hok). unfold refilled. fold d s x a.
  rewrite (ok_capacity _ _ Hok) in *. split; [done|]. split; [done|]. lia.
Qed.

(** After two idle seconds the bucket is full. *)
Lemma refilled_full : 2 * Second <= now - lastRefill b -> f64_units (refilled b now) = burst * token.
Proof.
  intros Hidle. destruct refilled_spec as (_ & -> & _). pose proof f64_unit_pos.
  cut (burst * token <= f64_units a); [lia|].
  assert (Hd : 2 <= d / Second).
  { apply Z.div_le_lower_bound; [done|]. unfold d, Sub, min_int64, max_int64, Second in *. lia. }
  assert (Hx : burst * token <= f64_units x).
  { eapply rounds_ge; [exact product_rounds|by apply representable_small|].
    destruct seconds_spec as [_ [Hs _]]. unfold burst, rate. nia. }
  eapply rounds_ge; [exact sum_rounds|by apply representable_small|].
  pose proof (f64_units_nonneg _ (proj2 (ok_finite _ _ Hok))). lia.
Qed.

(** The refill gains at most the rate times the elapsed time, up to a rounding error. *)
Lemma refilled_error :
  Second * f64_units (refilled b now) <=
  Second * f64_units (tokens b) + rate * (now - lastRefill b) * token + Second * 2 ^ 1033.
Proof.
  destruct refilled_spec as (_ & Hmin & _ & Hcap). destruct elapsed_range as [Hd0 Hd].
  pose proof f64_unit_pos as Hu.
  pose proof (f64_units_nonneg _ (proj2 (ok_finite _ _ Hok))) as Ht0.
  destruct (Z.le_gt_cases (5 * Second) d) as [Hlong|Hshort].
  { assert (rate * (5 * Second) * token <= rate * (now - lastRefill b) * token)
      by (apply mul_le_r; unfold rate, Second in *; lia).
    pose proof (pow2_pos 1033). unfold rate, burst, Second in *. lia. }
  pose proof (float_quotient_error d Second ltac:(lia) ltac:(done)) as Hs.
  change (float_quotient d Second) with s in Hs.
  destruct seconds_spec as [Hsf [_ Hsb]].
  pose proof (f64_units_nonneg _ (proj2 Hsf)) as Hs0.
  assert (Hs5 : f64_units s <= 5 * token).
  { etransitivity; [exact Hsb|]. apply mul_le_r; [done|].
    assert (d / Second < 5) by (apply Z.div_lt_upper_bound; unfold Second in *; lia). lia. }
  pose proof (rounds_error _ _ _ 1031 product_rounds ltac:(done)) as Hx.
  pose proof (rounds_error _ _ _ 1031 sum_rounds ltac:(done)) as Ha.
  destruct product_bound as [Hx0 _]. pose proof (ok_tokens _ _ Hok) as Htb.
  assert (Hg1 : 2 ^ 1031 = 64 * 2 ^ 1025) by (by (change 1031 with (6 + 1025); rewrite Z.pow_add_r by done; reflexivity)).
  assert (Hg2 : 2 ^ 1033 = 256 * 2 ^ 1025) by (by (change 1033 with (8 + 1025); rewrite Z.pow_add_r by done; reflexivity)).
  assert (Hg3 : token = 2 ^ 49 * 2 ^ 1025) by (unfold f64_unit; by rewrite <- Z.pow_add_r).
  pose proof (pow2_pos 1025 ltac:(done)) as Hg.
  rewrite Hg1 in Hx, Ha. rewrite Hg2. rewrite !Z.mul_1_r in Ha.
  revert Hs Hx Ha Hg Hg3. clear Hg1 Hg2. generalize (2 ^ 1025). intros g Hs Hx Ha Hg Hg3.
  assert (Hx' : f64_units x < rate * f64_units s + 64 * g).
  { apply (mul_lt_inv token); [done|]. eapply Z.lt_le_trans; [apply Hx|unfold rate in *; lia].
    unfold rate. split; [nia|]. rewrite Z.mul_assoc. apply mul_le_r; [done|].
    lia. }
  specialize (Ha ltac:(unfold rate, burst in *; lia)).
  assert (rate * d * token <= rate * (now - lastRefill b) * token) by (apply mul_le_r; unfold rate; lia).
  unfold rate, burst, Second in *. lia.
Qed.
End Refill.

(** ** [allow] *)

Lemma one_units : f64_units one = token.
Proof. unfold one. rewrite units_small by done. lia. Qed.

(** Taking a token is exact. *)
Lemma take_exact t : f64_finite_nonneg t -> token <= f64_units t <= burst * token ->
  f64_finite_nonneg (f64_sub t one) /\ f64_units (f64_sub t one) = f64_units t - token.
Proof.
  intros Ht Hb. pose proof f64_unit_pos as Hu.
  assert (Hr : rounds 1 (f64_units t - token) (f64_sub t one)).
  { rewrite <- one_units. apply f64_sub_rounds; [done|by apply finite_small|rewrite one_units; lia|].
    apply Z.le_lt_trans with (2 ^ 100 * token); [unfold burst in *; lia|by apply token_big]. }
  split; [by eapply rounds_finite|]. apply (rounds_exact 1); [by rewrite Z.mul_1_r|].
  destruct (f64_units_representable t Ht) as (m & e & Hm & He & Hte). rewrite Hte in *.
  destruct (Z.le_gt_cases 0 e) as [Hpos|Hneg].
  - assert (Hg : m * 2 ^ (e + 1074) = m * 2 ^ e * token).
    { unfold f64_unit. rewrite (Z.pow_add_r 2 e 1074) by lia. lia. }
    rewrite Hg in *. replace (m * 2 ^ e * token - token) with ((m * 2 ^ e - 1) * token) by lia.
    apply representable_small. destruct Hb as [Hb1 Hb2].
    pose proof (proj2 (Z.mul_le_mono_pos_r (m * 2 ^ e) burst _ Hu) Hb2). unfold burst in *.
    assert (1 <= m * 2 ^ e); [|lia]. apply (Z.mul_le_mono_pos_r _ _ token); lia.
  - unfold emin64 in He. pose proof (pow2_pos (- e) ltac:(lia)) as Hpe.
    pose proof (pow2_pos (e + 1074) ltac:(lia)) as Hpg.
    assert (Hg : token = 2 ^ (- e) * 2 ^ (e + 1074)).
    { unfold f64_unit. rewrite <- Z.pow_add_r by lia. f_equal. lia. }
    assert (Hle : 2 ^ (- e) <= m).
    { apply (Z.mul_le_mono_pos_r _ _ (2 ^ (e + 1074))); [done|]. rewrite <- Hg. lia. }
    rewrite Hg, <- Z.mul_sub_distr_r. apply representable_intro; [lia|done].
Qed.

(** The exact account of [allow]: it admits when a whole token is there, and then takes exactly one. *)
Lemma allow_spec last now b : bucket_ok last b -> last <= now ->
  let '(ok, b') := allow now b in
  ok = (token <=? f64_units (refilled b now)) /\
  bucket_ok now b' /\ lastRefill b' = now /\
  f64_units (tokens b') = f64_units (refilled b now) - (if ok then token else 0).
Proof.
  intros Hok Hle. destruct (refilled_spec b last now Hok Hle) as (Hf & _ & Hlo & Hhi).
  pose proof f64_unit_pos as Hu. pose proof (f64_units_nonneg _ (proj2 Hf)).
  unfold allow. rewrite f64_leb_units, one_units by (done || by apply finite_small).
  destruct (Z.leb_spec token (f64_units (refilled b now))) as [H1|H1]; cbn [tokens lastRefill].
  - destruct (take_exact _ Hf (conj H1 Hhi)) as [Hsf Hsu].
    split; [done|]. split; [constructor; cbn [tb_capacity tb_refillRate tokens lastRefill]; (apply Hok || done || lia)|]. split; [done|]. lia.
  - split; [done|]. split; [constructor; cbn [tb_capacity tb_refillRate tokens lastRefill]; (apply Hok || done || lia)|]. split; [done|]. lia.
Qed.

(** ** The limiter's critical sections, in any interleaving *)

Inductive rl_event :=
| EvCreate (key : string) (now : Time)
| EvTake (p : nat) (now : Time)
| EvCleanup (cutoff : Time) (key : string) (now : Time).

Definition ev_time (e : rl_event) : Time :=
  match e with EvCreate _ now | EvTake _ now | EvCleanup _ _ now => now end.

Definition rl_step (e : rl_event) (rl : RateLimiter) : RateLimiter :=
  match e with
  | EvCreate key now => (Allow_create key now rl).2
  | EvTake p now => (Allow_take p now rl).2
  | EvCleanup cutoff key _ => cleanup_key cutoff key rl
  end.

(** The well-formed limiters at time [now]: every pointer that was ever handed out is valid, the
    map's pointers are distinct, and every bucket, evicted or not, is within its bounds. *)
Record rl_wf (now : Time) (rl : RateLimiter) : Prop := {
  wf_capacity : rl_capacity rl = f64_of_Z burst;
  wf_rate : rl_refillRate rl = f64_of_Z rate;
  wf_heap : forall p, is_Some (bucket_heap rl !! p) <-> (p < next_bucket rl)%nat;
  wf_buckets : forall p b, bucket_heap rl !! p = Some b -> bucket_ok now b;
  wf_map : forall k p, buckets rl !! k = Some p -> (p < next_bucket rl)%nat;
  wf_inj : forall k k' p, buckets rl !! k = Some p -> buckets rl !! k' = Some p -> k = k';
}.

Lemma bucket_ok_mono now now' b : bucket_ok now b -> now <= now' -> bucket_ok now' b.
Proof. intros [] Hle. constructor; try done. lia. Qed.

Lemma newTokenBucket_ok now : bucket_ok now (newTokenBucket (f64_of_Z burst) (f64_of_Z rate) now).
Proof.
  constructor; cbn [newTokenBucket tb_capacity tb_refillRate tokens lastRefill]; try done.
Qed.

Lemma rl_wf_mono now now' rl : rl_wf now rl -> now <= now' -> rl_wf now' rl.
Proof. intros [] Hle. constructor; try done. intros p b Hb. eapply bucket_ok_mono; eauto. Qed.

Lemma NewRateLimiter_wf now : rl_wf now (NewRateLimiter (f64_of_Z burst) (f64_of_Z rate)).
Proof.
  constructor; cbn; try done.
  intros p. rewrite lookup_empty. split; [by intros []|lia].
Qed.

Lemma set_bucket_wf now rl p b : rl_wf now rl -> is_Some (bucket_heap rl !! p) -> bucket_ok now b ->
  rl_wf now (set_bucket p b rl).
Proof.
  intros [] Hp Hb. constructor; cbn; try done.
  - intros p'. rewrite lookup_insert_is_Some'. rewrite wf_heap0.
    split; [intros [<-|]; [by apply wf_heap0|done]|by right].
  - intros p' b'. rewrite lookup_insert_Some. intros [[_ <-]|[_ Hb']]; [done|by eauto].
Qed.

Lemma Allow_create_wf now key rl : rl_wf now rl ->
  rl_wf now (Allow_create key now rl).2 /\
  is_Some (bucket_heap (Allow_create key now rl).2 !! (Allow_create key now rl).1).
Proof.
  intros Hwf. unfold Allow_create. destruct (buckets rl !! key) as [p|] eqn:Hk; cbn [fst snd].
  { split; [done|]. apply (wf_heap _ _ Hwf). by eapply wf_map. }
  split; [|cbn; rewrite lookup_insert_eq; by eexists].
  destruct Hwf as [Hc Hr Hh Hb Hm Hi]. constructor; cbn; try done.
  - intros p. rewrite lookup_insert_is_Some', Hh. lia.
  - intros p b. rewrite lookup_insert_Some. intros [[_ <-]|[_ Hb']]; [|by eauto].
    rewrite Hc, Hr. apply newTokenBucket_ok.
  - intros k p. rewrite lookup_insert_Some. intros [[_ <-]|[_ Hp]]; [lia|]. apply Hm in Hp. lia.
  - intros k k' p. rewrite !lookup_insert_Some.
    intros [[<- <-]|[_ Hp]] [[<- Hn]|[_ Hp']]; try done; [apply Hm in Hp'|apply Hm in Hp|by eauto]; lia.
Qed.

Lemma Allow_take_wf last now p rl : rl_wf last rl -> last <= now ->
  rl_wf now (Allow_take p now rl).2.
Proof.
  intros Hwf Hle. unfold Allow_take. destruct (bucket_heap rl !! p) as [b|] eqn:Hp; [|by eapply rl_wf_mono].
  pose proof (allow_spec last now b (wf_buckets _ _ Hwf _ _ Hp) Hle) as Ha.
  destruct (allow now b) as [ok b']. destruct Ha as (_ & Hb' & _).
  apply set_bucket_wf; [by eapply rl_wf_mono|by eexists|done].
Qed.

Lemma cleanup_key_wf now cutoff key rl : rl_wf now rl -> rl_wf now (cleanup_key cutoff key rl).
Proof.
  intros Hwf. unfold cleanup_key. destruct (buckets rl !! key) as [p|]; [|done]. destruct (is_stale _ _ _); [|done].
  destruct Hwf. constructor; cbn; try done.
  - intros k q [_ Hk]%lookup_delete_Some. by eauto.
  - intros k k' q [_ Hk]%lookup_delete_Some [_ Hk']%lookup_delete_Some. by eauto.
Qed.

Lemma cleanup_key_fields cutoff key rl : let rl' := cleanup_key cutoff key rl in
  bucket_heap rl' = bucket_heap rl /\ next_bucket rl' = next_bucket rl /\
  rl_capacity rl' = rl_capacity rl /\ rl_refillRate rl' = rl_refillRate rl.
Proof. unfold cleanup_key. destruct (buckets rl !! key) as [p|]; [|done]. by destruct (is_stale _ _ _). Qed.

Lemma cleanup_key_lookup cutoff key rl k :
  buckets (cleanup_key cutoff key rl) !! k =
  p ← buckets rl !! k; if is_stale cutoff (bucket_heap rl) p && bool_decide (k = key) then None else Some p.
Proof.
  unfold cleanup_key. destruct (decide (k = key)) as [->|Hne].
  - rewrite (bool_decide_true (key = key)) by done. destruct (buckets rl !! key) as [p|] eqn:Hp; [cbn|by rewrite Hp].
    destruct (is_stale _ _ _); cbn; [apply lookup_delete_eq|done].
  - rewrite (bool_decide_false (k = key)) by done.
    assert (Hid : forall o : option nat, (p ← o; if is_stale cutoff (bucket_heap rl) p && false then None else Some p) = o).
    { intros [p|]; cbn; [by rewrite andb_false_r|done]. }
    rewrite Hid. destruct (buckets rl !! key) as [p|]; [|done]. destruct (is_stale _ _ p); [|done].
    cbn. by rewrite lookup_delete_ne.
Qed.

Definition sorted_from (start : Time) (ts : list Time) : Prop := Sorted Z.le (start :: ts).

(** C24. Whatever the interleaving of the critical sections of any number of requests and of the
    iterations of the cleanup loop, at nondecreasing clock readings and with any cutoff, a limiter
    keeps its well-formedness: every bucket holds between 0 and 200 tokens, a finite float, each
    pointer a request holds stays valid also after its map entry is deleted, and no two keys share
    a bucket. *)
Theorem rate_limiter_invariant start evs :
  sorted_from start (map ev_time evs) ->
  rl_wf (default start (last (map ev_time evs)))
    (fold_left (fun rl e => rl_step e rl) evs (NewRateLimiter (f64_of_Z burst) (f64_of_Z rate))).
Proof.
  generalize (NewRateLimiter_wf start).
  generalize (NewRateLimiter (f64_of_Z burst) (f64_of_Z rate)). revert start.
  induction evs as [|e evs IH]; intros start rl Hwf Hs; [done|].
  cbn [map fold_left] in *. apply Sorted_inv in Hs as [Hs Hhd%HdRel_inv].
  assert (He : rl_wf (ev_time e) (rl_step e rl)).
  { destruct e as [key now|p now|cutoff key now]; cbn [rl_step ev_time] in *.
    - apply Allow_create_wf. by eapply rl_wf_mono.
    - by eapply Allow_take_wf.
    - apply cleanup_key_wf. by eapply rl_wf_mono. }
  rewrite last_cons. specialize (IH _ _ He Hs). by destruct (last (map ev_time evs)).
Qed.

(** ** Requests one after the other: a map of buckets *)

Definition bucket_of (key : string) (rl : RateLimiter) : option tokenBucket :=
  buckets rl !! key ≫= fun p => bucket_heap rl !! p.

(** The bucket a request for [key] takes its token from. *)
Definition current_bucket (key : string) (now : Time) (rl : RateLimiter) : tokenBucket :=
  default (newTokenBucket (rl_capacity rl) (rl_refillRate rl) now) (bucket_of key rl).

Lemma Allow_create_bucket now t key rl : rl_wf now rl ->
  let '(p, rl') := Allow_create key t rl in
  bucket_heap rl' !! p = Some (current_bucket key t rl) /\ buckets rl' !! key = Some p /\
  (forall k, k <> key -> bucket_of k rl' = bucket_of k rl) /\
  rl_capacity rl' = rl_capacity rl /\ rl_refillRate rl' = rl_refillRate rl.
Proof.
  intros Hwf. unfold Allow_create, current_bucket, bucket_of.
  destruct (buckets rl !! key) as [p|] eqn:Hk; cbn.
  - destruct (proj2 (wf_heap _ _ Hwf p) (wf_map _ _ Hwf _ _ Hk)) as [b ->]. done.
  - rewrite !lookup_insert_eq. repeat split; try done. intros k Hne.
    rewrite lookup_insert_ne by done. destruct (buckets rl !! k) as [p|] eqn:Hp; [|done]. cbn.
    apply (wf_map _ _ Hwf) in Hp. rewrite lookup_insert_ne by lia. done.
Qed.

Lemma Allow_lookup_create key now rl :
  match Allow_lookup key rl with Some p => (p, rl) | None => Allow_create key now rl end =
  Allow_create key now rl.
Proof. unfold Allow_lookup, Allow_create. by destruct (buckets rl !! key). Qed.

(** A request answers from, and updates, its own key's bucket only. *)
Lemma Allow_spec last key now now' rl : rl_wf last rl -> last <= now -> now <= now' ->
  let '(ok, b') := allow now' (current_bucket key now rl) in
  let '(answer, rl') := Allow key now now' rl in
  answer = (ok, remaining b', Allow_resetIn rl) /\
  bucket_of key rl' = Some b' /\ (forall k, k <> key -> bucket_of k rl' = bucket_of k rl) /\
  rl_wf now' rl'.
Proof.
  intros Hwf Hle Hle'. unfold Allow. rewrite Allow_lookup_create.
  pose proof (Allow_create_bucket last now key rl Hwf) as Hc.
  pose proof (Allow_create_wf now key rl (rl_wf_mono _ _ _ Hwf Hle)) as [Hwf' _].
  destruct (Allow_create key now rl) as [p rl1]. cbn [snd] in Hwf'. destruct Hc as (Hp & Hk & Ho & Hcap & Hrate).
  pose proof (Allow_take_wf now now' p rl1 Hwf' Hle') as Hwf''.
  unfold Allow_take, Allow_remaining in *. rewrite Hp in *.
  destruct (allow now' (current_bucket key now rl)) as [ok b']. cbn [snd bucket_heap set_bucket] in *.
  rewrite lookup_insert_eq. unfold Allow_resetIn, bucket_of in *. cbn [set_bucket bucket_heap buckets rl_refillRate].
  rewrite Hk. cbn [mbind option_bind]. rewrite lookup_insert_eq, Hrate.
  split; [done|]. split; [done|]. split; [|done]. intros k Hne. rewrite <- (Ho k Hne).
  destruct (buckets rl1 !! k) as [p'|] eqn:Hk'; [|done]. cbn. rewrite lookup_insert_ne; [done|].
  intros ->. apply Hne. by eapply (wf_inj _ _ Hwf').
Qed.

Lemma bucket_of_ok now key rl b : rl_wf now rl -> bucket_of key rl = Some b -> bucket_ok now b.
Proof.
  intros Hwf Hb. unfold bucket_of in Hb. destruct (buckets rl !! key) as [p|]; [|done]. by eapply wf_buckets.
Qed.

Lemma current_bucket_ok last now key rl : rl_wf last rl -> last <= now -> bucket_ok now (current_bucket key now rl).
Proof.
  intros Hwf Hle. unfold current_bucket. destruct (bucket_of key rl) as [b|] eqn:Hb; cbn.
  - eapply bucket_ok_mono; [by eapply bucket_of_ok|done].
  - rewrite (wf_capacity _ _ Hwf), (wf_rate _ _ Hwf). apply newTokenBucket_ok.
Qed.

(** ** The cleanup loop is unobservable *)

(** A request, or an iteration of the cleanup loop at [now], which read the clock at [read]: other
    requests may have come in between. *)
Inductive rl_op := OpAllow (key : string) (now now' : Time) | OpCleanup (read : Time) (key : string) (now : Time).

Definition op_times (op : rl_op) : list Time :=
  match op with OpAllow _ now now' => [now; now'] | OpCleanup _ _ now => [now] end.

(** The clock was read before. *)
Definition read_before (op : rl_op) : Prop := match op with OpAllow _ _ _ => True | OpCleanup read _ now => read <= now end.

Definition is_request (op : rl_op) : bool := match op with OpAllow _ _ _ => true | OpCleanup _ _ _ => false end.

(** The answers to the requests, each with its key. *)
Fixpoint answers (ops : list rl_op) (rl : RateLimiter) : list (string * (bool * Z * Duration)) :=
  match ops with
  | [] => []
  | OpAllow key now now' :: ops =>
      let '(a, rl') := Allow key now now' rl in (key, a) :: answers ops rl'
  | OpCleanup read key _ :: ops => answers ops (cleanup_key (read - 10 * Minute) key rl)
  end.

Lemma f64_units_inj x y : f64_finite_nonneg x -> f64_finite_nonneg y -> 0 < f64_units x ->
  f64_units x = f64_units y -> x = y.
Proof.
  intros Hx Hy Hpos Heq. pose proof (SFcompare_units x y Hx Hy) as Hc.
  rewrite Heq, Z.compare_refl in Hc.
  destruct x as [sx| | |[] mx ex]; try (by destruct Hx).
  destruct y as [sy| | |[] my ey]; try (by destruct Hy).
  cbn in Hc. destruct (Z.compare_spec ex ey) as [->| |]; try done.
  change (Pos.compare_cont Eq mx my) with (Pos.compare mx my) in Hc.
  destruct (Pos.compare_spec mx my) as [->| |]; done.
Qed.

(** A bucket that was idle for the two seconds answers like a fresh one. *)
Lemma idle_bucket_fresh last created now b : bucket_ok last b -> last <= created -> created <= now ->
  2 * Second <= now - lastRefill b ->
  allow now b = allow now (newTokenBucket (f64_of_Z burst) (f64_of_Z rate) created).
Proof.
  intros Hok Hle Hle' Hidle. pose proof (newTokenBucket_ok created) as Hn.
  pose proof f64_unit_pos.
  destruct (refilled_spec b last now Hok ltac:(lia)) as (Hf & _).
  pose proof (refilled_full b last now Hok ltac:(lia) Hidle) as Hu.
  destruct (refilled_spec _ created now Hn Hle') as (Hf' & _ & Hlo & Hhi).
  assert (Hr : refilled b now = refilled (newTokenBucket (f64_of_Z burst) (f64_of_Z rate) created) now).
  { apply f64_units_inj; [done|done|unfold burst in *; lia|]. rewrite Hu.
    cbn [newTokenBucket tokens] in Hlo. rewrite units_small in Hlo by done. lia. }
  unfold allow. rewrite Hr, (ok_capacity _ _ Hok), (ok_rate _ _ Hok). done.
Qed.

(** The limiter with the cleanup loop simulates the one without: a key's buckets agree, or the
    evicted one was idle for more than ten minutes. *)
Definition cleanup_sim (now : Time) (rl rl' : RateLimiter) : Prop :=
  rl_wf now rl /\ rl_wf now rl' /\
  forall k, bucket_of k rl = bucket_of k rl' \/
    (bucket_of k rl' = None /\ exists b, bucket_of k rl = Some b /\ lastRefill b < now - 10 * Minute).

Lemma bucket_of_cleanup k cutoff key rl :
  bucket_of k (cleanup_key cutoff key rl) =
  match bucket_of k rl with
  | Some b => if stale cutoff b && bool_decide (k = key) then None else Some b
  | None => None
  end.
Proof.
  unfold bucket_of. rewrite cleanup_key_lookup, (proj1 (cleanup_key_fields _ _ _)).
  destruct (buckets rl !! k) as [p|]; [|done]. cbn. unfold is_stale.
  destruct (bucket_heap rl !! p) as [b|] eqn:Hb; cbn; [|by rewrite Hb].
  by destruct (stale _ b && _); cbn.
Qed.

Lemma cleanup_sim_cleanup last read key now rl rl' : cleanup_sim last rl rl' -> last <= now -> read <= now ->
  cleanup_sim now rl (cleanup_key (read - 10 * Minute) key rl').
Proof.
  intros (Hwf & Hwf' & Hk) Hle Hread. split; [by eapply rl_wf_mono|].
  split; [by apply cleanup_key_wf; eapply rl_wf_mono|]. intros k. rewrite bucket_of_cleanup.
  destruct (Hk k) as [->|(-> & b & Hb & Hlast)].
  - destruct (bucket_of k rl') as [b|]; [|by left]. unfold stale, Before. case_bool_decide; [|rewrite andb_false_r; by left].
    destruct (Z.ltb_spec (lastRefill b) (read - 10 * Minute)); [right|by left].
    split; [done|]. exists b. split; [done|lia].
  - right. split; [done|]. exists b. split; [done|lia].
Qed.

Lemma cleanup_sim_Allow last key now now' rl rl' : cleanup_sim last rl rl' -> last <= now -> now <= now' ->
  (Allow key now now' rl).1 = (Allow key now now' rl').1 /\
  cleanup_sim now' (Allow key now now' rl).2 (Allow key now now' rl').2.
Proof.
  intros (Hwf & Hwf' & Hk) Hle Hle'.
  assert (Heq : allow now' (current_bucket key now rl) = allow now' (current_bucket key now rl')).
  { unfold current_bucket.
    rewrite (wf_capacity _ _ Hwf), (wf_rate _ _ Hwf), (wf_capacity _ _ Hwf'), (wf_rate _ _ Hwf').
    destruct (Hk key) as [->|(-> & b & Hb & Hlast)]; [done|]. rewrite Hb. cbn [default from_option id].
    apply (idle_bucket_fresh last); [exact (bucket_of_ok _ _ _ _ Hwf Hb)|done|done|unfold Minute, Second in *; lia]. }
  pose proof (Allow_spec last key now now' rl Hwf Hle Hle') as H1.
  pose proof (Allow_spec last key now now' rl' Hwf' Hle Hle') as H2. rewrite Heq in H1.
  destruct (allow now' (current_bucket key now rl')) as [ok b'].
  destruct (Allow key now now' rl) as [a1 rl1], (Allow key now now' rl') as [a2 rl2].
  destruct H1 as (-> & Hb1 & Ho1 & Hw1), H2 as (-> & Hb2 & Ho2 & Hw2). cbn [fst snd].
  split; [unfold Allow_resetIn; by rewrite (wf_rate _ _ Hwf), (wf_rate _ _ Hwf')|].
  split; [done|]. split; [done|]. intros k. destruct (decide (k = key)) as [->|Hne].
  - left. congruence.
  - rewrite Ho1, Ho2 by done. destruct (Hk k) as [?|(? & b & ? & ?)]; [by left|right].
    split; [done|]. exists b. split; [done|lia].
Qed.

Lemma answers_cleanup_sim ops last rl rl' :
  cleanup_sim last rl' rl -> sorted_from last (concat (map op_times ops)) -> Forall read_before ops ->
  answers ops rl = answers (filter is_request ops) rl'.
Proof.
  revert last rl rl'. induction ops as [|op ops IH]; intros last rl rl' Hsim Hs Hread; [done|].
  apply Forall_cons in Hread as [Hop Hread].
  cbn [map concat] in Hs. destruct op as [key now now'|read key now]; cbn [op_times app] in Hs.
  - apply Sorted_inv in Hs as [Hs Hle%HdRel_inv]. pose proof (Sorted_inv Hs) as [Hs' Hle'%HdRel_inv].
    rewrite filter_cons_True by done. cbn [answers].
    destruct (cleanup_sim_Allow last key now now' rl' rl Hsim Hle Hle') as [Ha Hsim'].
    destruct (Allow key now now' rl) as [a rl1], (Allow key now now' rl') as [a' rl1']. cbn [fst snd] in *.
    rewrite Ha. f_equal. by apply (IH now').
  - apply Sorted_inv in Hs as [Hs Hle%HdRel_inv]. rewrite filter_cons_False by (by intros []). cbn [answers].
    apply (IH now); [by eapply cleanup_sim_cleanup|done..].
Qed.

Abbreviation fresh_limiter := (NewRateLimiter (f64_of_Z burst) (f64_of_Z rate)).

Lemma fresh_sim now : cleanup_sim now fresh_limiter fresh_limiter.
Proof. split; [apply NewRateLimiter_wf|]. split; [apply NewRateLimiter_wf|]. by left. Qed.


(** ** The bounds of the rate *)

Definition admitted_for (key : string) (l : list (string * (bool * Z * Duration))) : Z :=
  Z.of_nat (length (filter (fun a => a.1 = key /\ a.2.1.1 = true) l)).

Lemma admitted_for_cons key k a l :
  admitted_for key ((k, a) :: l) =
  (if decide (k = key /\ a.1.1 = true) then 1 else 0) + admitted_for key l.
Proof.
  unfold admitted_for. rewrite filter_cons. cbn [fst snd].
  destruct (decide (k = key /\ a.1.1 = true)); cbn [length]; lia.
Qed.

(** What the key can still spend at time [now], in units scaled by a second. *)
Definition credit (key : string) (last : Time) (rl : RateLimiter) : Z :=
  match bucket_of key rl with
  | Some b => Second * f64_units (tokens b) + rate * (last - lastRefill b) * token
  | None => Second * (burst * token)
  end.

Lemma credit_Allow last key k now now' rl : rl_wf last rl -> last <= now -> now <= now' ->
  let '(a, rl') := Allow k now now' rl in
  credit key now' rl' + (if decide (k = key /\ a.1.1 = true) then Second * token else 0) <=
  credit key last rl + rate * (now' - last) * token + Second * 2 ^ 1033.
Proof.
  intros Hwf Hle Hle'. pose proof (Allow_spec last k now now' rl Hwf Hle Hle') as Ha.
  pose proof (current_bucket_ok last now k rl Hwf Hle) as Hok.
  pose proof (allow_spec now now' _ Hok Hle') as Hal.
  pose proof (refilled_error _ now now' Hok Hle') as Herr.
  assert (Hg : 0 < 2 ^ 1033) by (by apply pow2_pos). pose proof f64_unit_pos as Hu.
  destruct (allow now' (current_bucket k now rl)) as [ok b'].
  destruct (Allow k now now' rl) as [a rl']. destruct Ha as (-> & Hb & Ho & _), Hal as (_ & _ & Hlr & Hun).
  cbn [fst]. unfold credit. destruct (decide (k = key)) as [->|Hne].
  - rewrite Hb, Hlr, Z.sub_diag, Hun.
    assert (Hdec : (if decide (key = key /\ ok = true) then Second * token else 0) = Second * (if ok then token else 0)).
    { destruct ok; [by rewrite decide_True|rewrite decide_False; [lia|by intros []]]. }
    rewrite Hdec. unfold current_bucket in *. destruct (bucket_of key rl) as [b|]; cbn [default from_option id] in *.
    + lia.
    + destruct (refilled_spec _ now now' Hok Hle') as (_ & _ & _ & Hcap). unfold rate, Second in *. nia.
  - rewrite Ho by done. rewrite decide_False by tauto.
    destruct (bucket_of key rl); unfold rate, Second in *; nia.
Qed.

Lemma credit_nonneg key last rl : rl_wf last rl -> 0 <= credit key last rl.
Proof.
  intros Hwf. unfold credit. pose proof f64_unit_pos as Hu.
  destruct (bucket_of key rl) as [b|] eqn:Hb; [|unfold burst, Second; lia].
  pose proof (bucket_of_ok _ _ _ _ Hwf Hb) as [_ _ Hf _ Ht].
  pose proof (f64_units_nonneg _ (proj2 Hf)). unfold rate, Second. nia.
Qed.

(** The last clock reading of a run. *)
Definition end_time (start : Time) (ops : list rl_op) : Time := default start (last (concat (map op_times ops))).

Lemma end_time_cons start op ops : op_times op <> [] ->
  end_time start (op :: ops) = end_time (default start (last (op_times op))) ops.
Proof.
  intros Hne. unfold end_time. cbn [map concat]. rewrite last_app.
  destruct (last (concat (map op_times ops))) eqn:Hl; [done|].
  by destruct (last (op_times op)).
Qed.

Lemma credit_mono key last now rl : last <= now ->
  credit key now rl <= credit key last rl + rate * (now - last) * token.
Proof.
  intros Hle. pose proof f64_unit_pos. unfold credit, rate. destruct (bucket_of key rl); nia.
Qed.

Lemma admitted_credit key ops start rl :
  rl_wf start rl -> sorted_from start (concat (map op_times ops)) ->
  Second * token * admitted_for key (answers (filter is_request ops) rl) <=
  credit key start rl + rate * (end_time start ops - start) * token +
  Second * 2 ^ 1033 * Z.of_nat (length ops).
Proof.
  assert (Hg : 0 < 2 ^ 1033) by (by apply pow2_pos). revert Hg. remember (2 ^ 1033) as g eqn:Eg. intros Hg.
  pose proof f64_unit_pos as Hu.
  revert start rl. induction ops as [|op ops IH]; intros start rl Hwf Hs.
  { pose proof (credit_nonneg key start rl Hwf). unfold end_time, admitted_for. cbn. lia. }
  cbn [map concat] in Hs. rewrite end_time_cons by (by destruct op).
  change (length (op :: ops)) with (S (length ops)). rewrite Nat2Z.inj_succ.
  destruct op as [k now now'|read k now]; cbn [op_times app] in Hs |- *;
    apply Sorted_inv in Hs as [Hs Hle%HdRel_inv].
  - pose proof (Sorted_inv Hs) as [Hs' Hle'%HdRel_inv]. change (default start (last [now; now'])) with now'.
    pose proof (credit_Allow start key k now now' rl Hwf Hle Hle') as Hc. rewrite <- Eg in Hc.
    pose proof (Allow_spec start k now now' rl Hwf Hle Hle') as Ha.
    rewrite filter_cons_True by done. cbn [answers].
    destruct (allow now' (current_bucket k now rl)) as [ok b'].
    destruct (Allow k now now' rl) as [a rl']. destruct Ha as (_ & _ & _ & Hwf').
    specialize (IH now' rl' Hwf' Hs'). rewrite admitted_for_cons.
    destruct (decide (k = key /\ a.1.1 = true)); unfold rate, Second in *; lia.
  - rewrite filter_cons_False by (by intros []). change (default start (last [now])) with now.
    specialize (IH now rl (rl_wf_mono _ _ _ Hwf Hle) Hs). pose proof (credit_mono key start now rl Hle).
    unfold rate, Second in *. lia.
Qed.

(** C23. The sustained rate: over any run of at most 2^41 requests and iterations of the cleanup
    loop, with nondecreasing clock readings over a time T, a client is admitted at most 201 + 100 * T times
    (T in seconds): the burst, the sustained rate, and at most one request more for all the
    floating-point rounding. *)
Theorem admitted_rate_bound start ops key :
  sorted_from start (concat (map op_times ops)) -> Forall read_before ops -> Z.of_nat (length ops) <= 2 ^ 41 ->
  Second * admitted_for key (answers ops fresh_limiter) <=
  Second * (burst + 1) + rate * (end_time start ops - start).
Proof.
  intros Hs Hread Hn. rewrite (answers_cleanup_sim ops start _ _ (fresh_sim start) Hs Hread).
  pose proof (admitted_credit key ops start fresh_limiter (NewRateLimiter_wf start) Hs) as H.
  change (credit key start fresh_limiter) with (Second * (burst * token)) in H.
  pose proof f64_unit_pos as Hu.
  assert (Hg : 2 ^ 1033 * Z.of_nat (length ops) <= token).
  { replace token with (2 ^ 1033 * 2 ^ 41) by (unfold token; by rewrite <- Z.pow_add_r).
    apply Z.mul_le_mono_nonneg_l; [by apply Z.lt_le_incl, pow2_pos|done]. }
  revert H Hg. generalize (2 ^ 1033). intros g H Hg.
  apply (Z.mul_le_mono_pos_r _ _ token); [done|]. unfold Second, burst, rate in *. lia.
Qed.

(** The tokens the key has for sure. *)
Definition spare (key : string) (rl : RateLimiter) : Z :=
  match bucket_of key rl with Some b => f64_units (tokens b) | None => burst * token end.

Lemma spare_Allow start key k now now' rl : rl_wf start rl -> start <= now -> now <= now' ->
  let '(a, rl') := Allow k now now' rl in
  if decide (k = key)
  then (token <= spare key rl -> a.1.1 = true) /\ spare key rl - token <= spare key rl'
  else spare key rl' = spare key rl.
Proof.
  intros Hwf Hle Hle'. pose proof (Allow_spec start k now now' rl Hwf Hle Hle') as Ha.
  pose proof (current_bucket_ok start now k rl Hwf Hle) as Hok.
  pose proof (allow_spec now now' _ Hok Hle') as Hal. pose proof f64_unit_pos as Hu.
  destruct (refilled_spec _ now now' Hok Hle') as (_ & _ & Hlo & _).
  destruct (allow now' (current_bucket k now rl)) as [ok b'].
  destruct (Allow k now now' rl) as [a rl']. destruct Ha as (-> & Hb & Ho & _), Hal as (Hadm & _ & _ & Hun).
  unfold spare. destruct (decide (k = key)) as [->|Hne]; [|by rewrite Ho].
  assert (Hsp : f64_units (tokens (current_bucket key now rl)) =
    match bucket_of key rl with Some b => f64_units (tokens b) | None => burst * token end).
  { unfold current_bucket. destruct (bucket_of key rl); [done|].
    rewrite (wf_capacity _ _ Hwf). cbn [default from_option id newTokenBucket tokens]. by rewrite units_small. }
  rewrite Hb, <- Hsp. cbn [fst]. split.
  - intros H. rewrite Hadm. apply Z.leb_le. lia.
  - rewrite Hun. destruct ok; lia.
Qed.

Lemma spare_answers key ops start rl :
  rl_wf start rl -> sorted_from start (concat (map op_times ops)) ->
  let mine := filter (fun a => a.1 = key) (answers (filter is_request ops) rl) in
  Z.of_nat (length mine) * token <= spare key rl -> Forall (fun a => a.2.1.1 = true) mine.
Proof.
  pose proof f64_unit_pos as Hu. revert start rl. induction ops as [|op ops IH]; intros start rl Hwf Hs; [done|].
  cbn [map concat] in Hs. destruct op as [k now now'|read k now]; cbn [op_times app] in Hs;
    apply Sorted_inv in Hs as [Hs Hle%HdRel_inv].
  - pose proof (Sorted_inv Hs) as [Hs' Hle'%HdRel_inv]. rewrite filter_cons_True by done. cbn [answers].
    pose proof (spare_Allow start key k now now' rl Hwf Hle Hle') as Hc.
    pose proof (Allow_spec start k now now' rl Hwf Hle Hle') as Ha.
    destruct (allow now' (current_bucket k now rl)) as [ok b'].
    destruct (Allow k now now' rl) as [a rl']. destruct Ha as (_ & _ & _ & Hwf').
    specialize (IH now' rl' Hwf' Hs'). cbn zeta in IH |- *. rewrite filter_cons. cbn [fst].
    destruct (decide (k = key)) as [->|Hne]; [|rewrite <- Hc; apply IH].
    cbn [length]. intros Hn. destruct Hc as [Hadm Hsp]. constructor; [apply Hadm; cbn [snd]; lia|apply IH; lia].
  - rewrite filter_cons_False by (by intros []). apply (IH now); [by eapply rl_wf_mono|done].
Qed.

(** The burst is granted: a client whose requests in a run number at most 200 is admitted
    every time, whatever the spacing of the requests and whatever the other clients and the
    cleanup loop do in between. *)
Theorem burst_admitted start ops key :
  sorted_from start (concat (map op_times ops)) -> Forall read_before ops ->
  let mine := filter (fun a => a.1 = key) (answers ops fresh_limiter) in
  (length mine <= 200)%nat -> Forall (fun a => a.2.1.1 = true) mine.
Proof.
  intros Hs Hread. rewrite (answers_cleanup_sim ops start _ _ (fresh_sim start) Hs Hread). intros mine Hn.
  apply (spare_answers key ops start); [apply NewRateLimiter_wf|done|].
  change (spare key fresh_limiter) with (burst * token). apply mul_le_r; [exact f64_unit_pos|].
  apply (inj_le _ 200) in Hn. exact Hn.
Qed.

(** ** Witnesses *)

Definition example_ops : list rl_op :=
  OpAllow "10.0.0.1" 0 1 :: OpAllow "10.0.0.2" 2 2 :: OpCleanup (10 * Minute + Second) "10.0.0.1" (11 * Minute) :: [OpAllow "10.0.0.1" (12 * Minute) (12 * Minute)].

Lemma rate_limiter_invariant_witness :
  rl_wf (11 * Minute) (fold_left (fun rl e => rl_step e rl)
    [EvCreate "10.0.0.1" 0; EvCleanup Minute "10.0.0.1" (11 * Minute); EvTake 0 (11 * Minute)] fresh_limiter).
Proof.
  apply (rate_limiter_invariant 0 [EvCreate "10.0.0.1" 0; EvCleanup Minute "10.0.0.1" (11 * Minute); EvTake 0 (11 * Minute)]).
  repeat constructor; by vm_compute.
Defined.

Lemma example_ops_sorted : sorted_from 0 (concat (map op_times example_ops)).
Proof. repeat constructor; by vm_compute. Qed.

Lemma example_ops_read : Forall read_before example_ops.
Proof. repeat constructor; by vm_compute. Qed.


Lemma admitted_rate_bound_witness :
  Second * admitted_for "10.0.0.1" (answers example_ops fresh_limiter) <=
  Second * 201 + 100 * (12 * Minute).
Proof. apply (admitted_rate_bound 0 example_ops "10.0.0.1"); [apply example_ops_sorted|apply example_ops_read|by vm_compute]. Defined.

Lemma burst_admitted_witness :
  Forall (fun a => a.2.1.1 = true) (filter (fun a => a.1 = "10.0.0.1"%string) (answers example_ops fresh_limiter)).
Proof.
  apply (burst_admitted 0 example_ops "10.0.0.1"); [apply example_ops_sorted|apply example_ops_read|].
  apply Nat.leb_le. by vm_compute.
Defined.
