(* ===== verification/Tables.v ===== *)
(** The PostgreSQL schema [backend/migrations/001_init_schema.sql] and the SQL statements of
    [store/postgres.go] and [worker/pool.go], with what PostgreSQL documents they do to the
    tables. The database itself is not code of the repository: these functions are the contract
    that [Services.World] requires of it. *)
From S2P Require Import Prelude Float64 GoTime Models.
Local Open Scope string_scope.
Local Open Scope Z_scope.

(** [rcas] is keyed by [work_item_id], which is UNIQUE; [signal_timeseries] by its primary key. *)
Record Tables := mkTables {
  work_items : gmap string WorkItem;
  rcas : gmap string RCA;
  timeseries : gmap (Z * string * string) (string * Z);
}.

(** A TIMESTAMPTZ has microseconds; the driver drops the nanoseconds. *)
Definition pg_time (t : Time) : Time := Truncate t 1000.

Definition max_int4 : Z := 2 ^ 31 - 1.

(** The CHECK constraints and the INTEGER range of a row of [work_items]. *)
Definition severity_ok (s : Severity) : bool := bool_decide (s ∈ [SeverityP0; SeverityP1; SeverityP2]).
Definition state_ok (s : WorkItemState) : bool :=
  bool_decide (s ∈ [StateOpen; StateInvestigating; StateResolved; StateClosed]).
Definition work_item_ok (wi : WorkItem) : bool :=
  severity_ok (wi_Severity wi) && state_ok (wi_State wi) &&
  (- 2 ^ 31 <=? wi_SignalCount wi) && (wi_SignalCount wi <=? max_int4).

(** The statements, one constructor per SQL text. *)
Inductive Stmt :=
| InsertWorkItem (wi : WorkItem)
| SetResolved (id : string) (state : WorkItemState) (now : Time)
| SetClosed (id : string) (state : WorkItemState) (now : Time) (mttr : option float64)
| SetState (id : string) (state : WorkItemState) (now : Time)
| SetSeverity (id : string) (severity : Severity) (now : Time)
| BumpSignalCount (id : string) (now : Time)
| InsertRCA (rca : RCA)
| UpsertTimeseries (bucket : Time) (component_id component_type : string) (severity : Severity).

(** The row that [INSERT INTO work_items] stores: the columns it does not name are NULL. *)
Definition inserted_work_item (wi : WorkItem) : WorkItem :=
  mkWorkItem (wi_ID wi) (wi_ComponentID wi) (wi_ComponentType wi) (wi_Title wi) (wi_Severity wi)
    (wi_State wi) (wi_SignalCount wi) (wi_AssignedTo wi) (pg_time (wi_CreatedAt wi))
    (pg_time (wi_UpdatedAt wi)) None None None.

Definition inserted_rca (r : RCA) : RCA :=
  mkRCA (rca_ID r) (rca_WorkItemID r) (pg_time (rca_IncidentStart r)) (pg_time (rca_IncidentEnd r))
    (rca_RootCauseCategory r) (rca_RootCauseDetail r) (rca_FixApplied r) (rca_PreventionSteps r)
    (rca_SubmittedBy r) (pg_time (rca_SubmittedAt r)).

Definition set_state (st : WorkItemState) (now : Time) (wi : WorkItem) : WorkItem :=
  mkWorkItem (wi_ID wi) (wi_ComponentID wi) (wi_ComponentType wi) (wi_Title wi) (wi_Severity wi)
    st (wi_SignalCount wi) (wi_AssignedTo wi) (wi_CreatedAt wi) (pg_time now)
    (wi_ResolvedAt wi) (wi_ClosedAt wi) (wi_MTTR wi).

Definition set_resolved (st : WorkItemState) (now : Time) (wi : WorkItem) : WorkItem :=
  mkWorkItem (wi_ID wi) (wi_ComponentID wi) (wi_ComponentType wi) (wi_Title wi) (wi_Severity wi)
    st (wi_SignalCount wi) (wi_AssignedTo wi) (wi_CreatedAt wi) (pg_time now)
    (Some (pg_time now)) (wi_ClosedAt wi) (wi_MTTR wi).

Definition set_closed (st : WorkItemState) (now : Time) (mttr : option float64) (wi : WorkItem) : WorkItem :=
  mkWorkItem (wi_ID wi) (wi_ComponentID wi) (wi_ComponentType wi) (wi_Title wi) (wi_Severity wi)
    st (wi_SignalCount wi) (wi_AssignedTo wi) (wi_CreatedAt wi) (pg_time now)
    (wi_ResolvedAt wi) (Some (pg_time now)) mttr.

Definition set_severity (sev : Severity) (now : Time) (wi : WorkItem) : WorkItem :=
  mkWorkItem (wi_ID wi) (wi_ComponentID wi) (wi_ComponentType wi) (wi_Title wi) sev
    (wi_State wi) (wi_SignalCount wi) (wi_AssignedTo wi) (wi_CreatedAt wi) (pg_time now)
    (wi_ResolvedAt wi) (wi_ClosedAt wi) (wi_MTTR wi).

Definition bump_count (now : Time) (wi : WorkItem) : WorkItem :=
  mkWorkItem (wi_ID wi) (wi_ComponentID wi) (wi_ComponentType wi) (wi_Title wi) (wi_Severity wi)
    (wi_State wi) (wi_SignalCount wi + 1) (wi_AssignedTo wi) (wi_CreatedAt wi) (pg_time now)
    (wi_ResolvedAt wi) (wi_ClosedAt wi) (wi_MTTR wi).

(** [UPDATE work_items SET ... WHERE id = $n]: no row is no error. *)
Definition update_work_item (id : string) (f : WorkItem -> WorkItem) (T : Tables) : option Tables :=
  match work_items T !! id with
  | None => Some T
  | Some wi =>
      if work_item_ok (f wi)
      then Some (mkTables (<[id := f wi]> (work_items T)) (rcas T) (timeseries T)) else None
  end.

(** [None] is a constraint violation. *)
Definition exec_stmt (s : Stmt) (T : Tables) : option Tables :=
  match s with
  | InsertWorkItem wi =>
      if work_item_ok wi && bool_decide (work_items T !! wi_ID wi = None)
      then Some (mkTables (<[wi_ID wi := inserted_work_item wi]> (work_items T)) (rcas T) (timeseries T))
      else None
  | SetResolved id st now => update_work_item id (set_resolved st now) T
  | SetClosed id st now mttr => update_work_item id (set_closed st now mttr) T
  | SetState id st now => update_work_item id (set_state st now) T
  | SetSeverity id sev now => update_work_item id (set_severity sev now) T
  | BumpSignalCount id now => update_work_item id (bump_count now) T
  | InsertRCA r =>
      let r := inserted_rca r in
      if bool_decide (rcas T !! rca_WorkItemID r = None) &&
         bool_decide (map_Forall (fun _ r' => rca_ID r' <> rca_ID r) (rcas T)) &&
         bool_decide (is_Some (work_items T !! rca_WorkItemID r)) &&
         (rca_IncidentStart r <? rca_IncidentEnd r)
      then Some (mkTables (work_items T) (<[rca_WorkItemID r := r]> (rcas T)) (timeseries T))
      else None
  | UpsertTimeseries bucket cid ctype sev =>
      match timeseries T !! (bucket, cid, sev) with
      | None => Some (mkTables (work_items T) (rcas T) (<[(bucket, cid, sev) := (ctype, 1)]> (timeseries T)))
      | Some (ctype', n) =>
          if n + 1 <=? max_int4
          then Some (mkTables (work_items T) (rcas T) (<[(bucket, cid, sev) := (ctype', n + 1)]> (timeseries T)))
          else None
      end
  end.

(** ** Queries *)

(** What [QueryRow(...).Scan] gives: on an error the destination may be partly written. *)
Inductive row (R : Type) : Type := RowOk (r : R) | NoRows | RowErr (partial : R) (err : error).
Arguments RowOk {_} _.
Arguments NoRows {_}.
Arguments RowErr {_} _ _.

(** What [Query] gives: each row scans or fails to, and [rows.Err()] after the last one. *)
Record RowSet (R : Type) : Type := mkRowSet { rs_rows : list (error + R); rs_err : option error }.
Arguments mkRowSet {_} _ _.
Arguments rs_rows {_} _.
Arguments rs_err {_} _.

Definition severity_rank (s : Severity) : Z :=
  if bool_decide (s = SeverityP0) then 0 else if bool_decide (s = SeverityP1) then 1 else 2.

(** [ORDER BY CASE severity ... ASC, created_at DESC] *)
Definition listed_before (a b : WorkItem) : Prop :=
  severity_rank (wi_Severity a) < severity_rank (wi_Severity b) \/
  (severity_rank (wi_Severity a) = severity_rank (wi_Severity b) /\ wi_CreatedAt b <= wi_CreatedAt a).

Definition is_active (wi : WorkItem) : bool := bool_decide (wi_State wi ∈ [StateOpen; StateInvestigating]).

(** The complete answers of the list queries: [active_only] is the WHERE clause. *)
Definition list_answer (active_only : bool) (T : Tables) (l : list WorkItem) : Prop :=
  Permutation l (filter (fun wi => active_only = true -> is_active wi = true) (map_to_list (work_items T)).*2) /\
  StronglySorted listed_before l.

Definition count_state (T : Tables) (st : WorkItemState) : Z :=
  Z.of_nat (length (filter (fun wi => wi_State wi = st) (map_to_list (work_items T)).*2)).

(** [SELECT state, COUNT( * ) ... GROUP BY state]: one row per state that occurs, in any order. *)
Definition count_answer (T : Tables) (l : list (WorkItemState * Z)) : Prop :=
  NoDup l.*1 /\ forall st n, (st, n) ∈ l <-> (n = count_state T st /\ 0 < n).

(** ** The schema's invariant: every statement keeps the tables consistent *)

Record tables_ok (T : Tables) : Prop := {
  tok_id : forall id wi, work_items T !! id = Some wi -> wi_ID wi = id;
  tok_row : forall id wi, work_items T !! id = Some wi -> work_item_ok wi = true;
  tok_rca_id : forall id r, rcas T !! id = Some r -> rca_WorkItemID r = id;
  tok_rca_fk : forall id r, rcas T !! id = Some r -> is_Some (work_items T !! id);
  tok_rca_check : forall id r, rcas T !! id = Some r -> rca_IncidentStart r < rca_IncidentEnd r;
  tok_rca_pk : forall id id' r r', rcas T !! id = Some r -> rcas T !! id' = Some r' -> rca_ID r = rca_ID r' -> id = id';
}.

Definition empty_tables : Tables := mkTables ∅ ∅ ∅.

Lemma empty_tables_ok : tables_ok empty_tables.
Proof. constructor; intros *; cbn; by rewrite lookup_empty. Qed.

Lemma update_work_item_ok id f T T' : tables_ok T -> (forall wi, wi_ID (f wi) = wi_ID wi) ->
  update_work_item id f T = Some T' -> tables_ok T'.
Proof.
  intros [] Hf. unfold update_work_item. destruct (work_items T !! id) as [wi|] eqn:Hwi; [|by intros [= <-]].
  destruct (work_item_ok (f wi)) eqn:Hok; [|done]. intros [= <-]. constructor; cbn; try done.
  - intros id' wi'. rewrite lookup_insert_Some. intros [[<- <-]|[_ H]]; [rewrite Hf|]; by eauto.
  - intros id' wi'. rewrite lookup_insert_Some. intros [[<- <-]|[_ H]]; by eauto.
  - intros id' r Hr. rewrite lookup_insert_is_Some'. right. by eauto.
Qed.

Lemma exec_stmt_ok s T T' : tables_ok T -> exec_stmt s T = Some T' -> tables_ok T'.
Proof.
  intros Hok. destruct s; cbn [exec_stmt]; try (by apply update_work_item_ok).
  - destruct (work_item_ok wi) eqn:Hwi; [|done]. destruct (bool_decide_reflect (work_items T !! wi_ID wi = None)) as [Hn|]; [|done].
    intros [= <-]. destruct Hok. constructor; cbn; try done.
    + intros id wi'. rewrite lookup_insert_Some. intros [[<- <-]|[_ H]]; by eauto.
    + intros id wi'. rewrite lookup_insert_Some. intros [[<- <-]|[_ H]]; by eauto.
    + intros id r Hr. rewrite lookup_insert_is_Some'. right. by eauto.
  - cbn zeta. set (r := inserted_rca rca).
    destruct (bool_decide_reflect (rcas T !! rca_WorkItemID r = None)) as [Hn|]; [|done].
    destruct (bool_decide_reflect (map_Forall (fun _ r' => rca_ID r' <> rca_ID r) (rcas T))) as [Hpk|]; [|done].
    destruct (bool_decide_reflect (is_Some (work_items T !! rca_WorkItemID r))) as [Hfk|]; [|done].
    destruct (Z.ltb_spec (rca_IncidentStart r) (rca_IncidentEnd r)) as [Hck|]; [|done].
    intros [= <-]. destruct Hok. constructor; cbn; try done.
    + intros id r'. rewrite lookup_insert_Some. intros [[<- <-]|[_ H]]; by eauto.
    + intros id r'. rewrite lookup_insert_Some. intros [[<- <-]|[_ H]]; by eauto.
    + intros id r'. rewrite lookup_insert_Some. intros [[<- <-]|[_ H]]; by eauto.
    + intros id id' r1 r2. rewrite !lookup_insert_Some.
      intros [[<- <-]|[_ H1]] [[<- <-]|[_ H2]] Hid; try done; [|apply Hpk in H1; congruence|by eauto].
      apply Hpk in H2. congruence.
  - destruct (timeseries T !! (bucket, component_id, severity)) as [[ct n]|];
      [destruct (n + 1 <=? max_int4); [|done]|]; intros [= <-]; destruct Hok; by constructor.
Qed.

(** Rows are never deleted, and a stored RCA never changes. *)
Lemma exec_stmt_work_items s T T' id :
  exec_stmt s T = Some T' -> is_Some (work_items T !! id) -> is_Some (work_items T' !! id).
Proof.
  assert (Hu : forall id' f, update_work_item id' f T = Some T' ->
    is_Some (work_items T !! id) -> is_Some (work_items T' !! id)).
  { intros id' f. unfold update_work_item. destruct (work_items T !! id') as [wi|]; [|by intros [= <-]].
    destruct (work_item_ok (f wi)); [|done]. intros [= <-]. cbn. rewrite lookup_insert_is_Some'. by right. }
  destruct s; cbn [exec_stmt]; try (by apply Hu); repeat case_match; intros [=]; simplify_eq/=; try done.
  rewrite lookup_insert_is_Some'. by right.
Qed.

Lemma exec_stmt_rcas s T T' id r :
  exec_stmt s T = Some T' -> rcas T !! id = Some r -> rcas T' !! id = Some r.
Proof.
  assert (Hu : forall id' f, update_work_item id' f T = Some T' -> rcas T' = rcas T).
  { intros id' f. unfold update_work_item. destruct (work_items T !! id') as [wi|]; [|by intros [= <-]].
    destruct (work_item_ok (f wi)); [|done]. by intros [= <-]. }
  destruct s; cbn [exec_stmt]; try (by intros ->%Hu); repeat case_match; intros [=]; simplify_eq/=; try done.
  intros Hr. rewrite lookup_insert_ne; [done|]. intros <-.
  match goal with H : _ && _ = true |- _ => apply andb_true_iff in H as [[[H%bool_decide_eq_true _]%andb_true_iff _]%andb_true_iff _] end.
  cbn in *. congruence.
Qed.
