(* ===== verification/Prog.v ===== *)
(** Programs with effects, their executions, and rely/guarantee reasoning.

    A handler of the backend is a [prog]: a finite tree of effects (service calls, clock
    readings, atomic accesses to the process's shared memory) that ends in a result or a panic.
    The semantics of the effects is a parameter of this file, a step relation on a state.
    Other goroutines run between any two effects. *)
From S2P Require Import Prelude.
Local Open Scope string_scope.

Inductive prog (E : Type -> Type) (A : Type) : Type :=
| Ret (a : A)
| Panic (msg : string)
| Step {B : Type} (e : E B) (k : B -> prog E A).
Arguments Ret {_ _} _.
Arguments Panic {_ _} _.
Arguments Step {_ _ _} _ _.

Fixpoint bind {E A B} (k : A -> prog E B) (p : prog E A) : prog E B :=
  match p with
  | Ret a => k a
  | Panic msg => Panic msg
  | Step e k' => Step e (fun x => bind k (k' x))
  end.

Definition perform {E B} (e : E B) : prog E B := Step e Ret.

Declare Scope prog_scope.
Delimit Scope prog_scope with prog.
Notation "x <-- p ;; q" := (bind (fun x => q) p)
  (at level 100, p at next level, q at level 200, right associativity) : prog_scope.
Notation "p ;;; q" := (bind (fun _ => q) p)
  (at level 100, q at level 200, right associativity) : prog_scope.
Open Scope prog_scope.

(** [for _, x := range l { ... }] with an accumulator. *)
Fixpoint foldP {E A S} (f : A -> S -> prog E S) (l : list A) (s : S) : prog E S :=
  match l with
  | [] => Ret s
  | x :: l => s <-- f x s;; foldP f l s
  end.

(** Two goroutines and the wait for both ([sync.WaitGroup]); [choose] is the scheduler. A panic
    of either takes the process down. *)
Section Par.
Context {E : Type -> Type} (choose : E bool) {A B : Type}.

Fixpoint par (p : prog E A) : prog E B -> prog E (A * B) :=
  match p with
  | Panic msg => fun _ => Panic msg
  | Ret a => fun q => b <-- q;; Ret (a, b)
  | Step e k => fix par_p (q : prog E B) : prog E (A * B) :=
      match q with
      | Panic msg => Panic msg
      | Ret b => a <-- Step e k;; Ret (a, b)
      | Step e' k' => Step choose (fun c : bool =>
          if c then Step e (fun x => par (k x) q) else Step e' (fun y => par_p (k' y)))
      end
  end.
End Par.

(** ** The effects of a program *)

(** Every effect of the program satisfies [P], and it panics only if [may_panic]. *)
Section Only.
Context {E : Type -> Type} (may_panic : Prop) (P : forall B, E B -> Prop).

Fixpoint only {A} (p : prog E A) : Prop :=
  match p with
  | Ret _ => True
  | Panic _ => may_panic
  | Step e k => P _ e /\ forall b, only (k b)
  end.

Lemma only_ret {A} (a : A) : only (Ret a).
Proof. done. Qed.

Lemma only_perform {B} (e : E B) : P _ e -> only (perform e).
Proof. done. Qed.

Lemma only_bind {A B} (p : prog E A) (k : A -> prog E B) : only p -> (forall a, only (k a)) -> only (bind k p).
Proof. intros Hp Hk. induction p as [a|msg|C e k' IH]; cbn in *; [done|done|]. destruct Hp. by split; auto. Qed.

Lemma only_foldP {A S} (f : A -> S -> prog E S) l s : (forall x s, only (f x s)) -> only (foldP f l s).
Proof. intros Hf. revert s. induction l as [|x l IH]; intros s; cbn; [done|by apply only_bind]. Qed.

Lemma only_par choose {A B} (p : prog E A) (q : prog E B) : P _ choose -> only p -> only q -> only (par choose p q).
Proof.
  intros Hch. revert q. induction p as [a|msg|C e k IHp]; intros q Hp Hq; [by apply only_bind|done|].
  induction q as [b|msg|D e' k' IHq]; [by apply (only_bind (Step e k))|done|].
  cbn in Hp, Hq |- *. destruct Hp as [He Hk], Hq as [He' Hk']. split; [done|].
  intros []; cbn; (split; [done|]); intros b; [by apply IHp|by apply IHq].
Qed.
End Only.

#[export] Hint Resolve only_ret only_perform only_bind only_foldP only_par : ims.

(** ** The log of a program: what [obs] notes of each effect and its answer. Whatever the effects are
    answered, the program does not panic, and its log and result satisfy [Q]. *)
Section Logged.
Context {E : Type -> Type} {O : Type} (obs : forall B, E B -> B -> list O).

Fixpoint logged {A} (p : prog E A) (Q : list O -> A -> Prop) : Prop :=
  match p with
  | Ret a => Q [] a
  | Panic _ => False
  | Step e k => forall b, logged (k b) (fun log a => Q (obs _ e b ++ log)%list a)
  end.

Lemma logged_mono {A} (p : prog E A) (Q Q' : list O -> A -> Prop) :
  (forall log a, Q log a -> Q' log a) -> logged p Q -> logged p Q'.
Proof.
  revert Q Q'. induction p as [a|msg|B e k IH]; intros Q Q' HQ; cbn; [by apply HQ|done|].
  intros Hk b. eapply IH; [|apply Hk]. intros log a. apply HQ.
Qed.

Lemma logged_bind {A B} (p : prog E A) (k : A -> prog E B) (Q : list O -> B -> Prop) :
  logged p (fun log a => logged (k a) (fun log' b => Q (log ++ log')%list b)) -> logged (bind k p) Q.
Proof.
  revert Q. induction p as [a|msg|C e k' IH]; intros Q; cbn; [done|done|].
  intros Hk b. apply IH. eapply logged_mono; [|apply Hk]. intros log a. apply logged_mono. intros log' c. by rewrite app_assoc.
Qed.
End Logged.

(** ** Executions *)

Section Semantics.
Context {E : Type -> Type} {St : Type} (step : forall B, E B -> St -> B -> St -> Prop).

(** An execution with nothing in between. *)
Inductive exec {A} : prog E A -> St -> A -> St -> Prop :=
| exec_ret a s : exec (Ret a) s a s
| exec_step {B} (e : E B) k s b s1 a s2 :
    step _ e s b s1 -> exec (k b) s1 a s2 -> exec (Step e k) s a s2.

(** *** Rely/guarantee: from a state that others may change by [R], each effect of the program
    makes a change within [G], it never panics, and its result satisfies [Q]. *)
Section RelyGuarantee.
Context (R G : St -> St -> Prop).

Fixpoint rg {A} (p : prog E A) (Q : A -> St -> Prop) (s : St) : Prop :=
  match p with
  | Ret a => forall s1, R s s1 -> Q a s1
  | Panic _ => False
  | Step e k => forall s1, R s s1 -> forall b s2, step _ e s1 b s2 -> G s1 s2 /\ rg (k b) Q s2
  end.

Lemma rg_mono {A} (p : prog E A) (Q Q' : A -> St -> Prop) s :
  (forall a s', Q a s' -> Q' a s') -> rg p Q s -> rg p Q' s.
Proof.
  intros HQ. revert s. induction p as [a|msg|B e k IH]; intros s; cbn; [by eauto|done|].
  intros H s1 HR b s2 Hs. destruct (H s1 HR b s2 Hs) as [HG Hk]. split; [done|by apply IH].
Qed.

Context `{!PreOrder R}.

Lemma rg_rely {A} (p : prog E A) (Q : A -> St -> Prop) s s' : rg p Q s -> R s s' -> rg p Q s'.
Proof.
  destruct p as [a|msg|B e k]; cbn; [|done|].
  - intros H HR s1 HR'. apply H. by etrans.
  - intros H HR s1 HR' b s2 Hs. apply (H s1); [by etrans|done].
Qed.

Lemma rg_bind {A B} (p : prog E A) (k : A -> prog E B) (Q : B -> St -> Prop) s :
  rg p (fun a s' => rg (k a) Q s') s -> rg (bind k p) Q s.
Proof.
  revert s. induction p as [a|msg|C e k' IH]; intros s; cbn [bind rg]; [|done|].
  - intros H. by apply H.
  - intros H s1 HR b s2 Hs. destruct (H s1 HR b s2 Hs) as [HG Hk]. split; [done|by apply IH].
Qed.

(** An assertion that every change of [R] preserves can be carried along. *)
Lemma rg_frame {A} (p : prog E A) (Q : A -> St -> Prop) (P : St -> Prop) s :
  (forall s1 s2, P s1 -> R s1 s2 -> P s2) -> (forall s1 s2, G s1 s2 -> R s1 s2) ->
  P s -> rg p Q s -> rg p (fun a s' => Q a s' /\ P s') s.
Proof.
  intros Hst HGR. revert s. induction p as [a|msg|B e k IH]; intros s HP; cbn; [by eauto|done|].
  intros H s1 HR b s2 Hs. destruct (H s1 HR b s2 Hs) as [HG Hk]. split; [done|].
  apply IH; [|done]. by eauto.
Qed.

Lemma rg_foldP {A S} (f : A -> S -> prog E S) (I : list A -> S -> St -> Prop) l acc s :
  (forall x l acc s, I (x :: l) acc s -> rg (f x acc) (fun acc' s' => I l acc' s') s) ->
  (forall acc s s', I [] acc s -> R s s' -> I [] acc s') ->
  I l acc s -> rg (foldP f l acc) (fun acc' s' => I [] acc' s') s.
Proof.
  intros Hf Hst. revert acc s. induction l as [|x l IH]; intros acc s HI; cbn; [by eauto|].
  apply rg_bind. eapply rg_mono; [|by apply Hf]. intros acc' s' HI'. by apply IH.
Qed.

Lemma rg_stable {A} (p : prog E A) (Q : A -> St -> Prop) s :
  rg p Q s -> rg p (fun a s' => forall s1, R s' s1 -> Q a s1) s.
Proof.
  revert s. induction p as [a|msg|B e k IH]; intros s; cbn; [|done|].
  - intros H s1 HR s2 HR'. apply H. by etrans.
  - intros H s1 HR b s2 Hs. destruct (H s1 HR b s2 Hs) as [HG Hk]. split; [done|by apply IH].
Qed.

(** An assertion that every effect of the program and the others keep. *)
Lemma only_rg {A} (J : St -> Prop) (p : prog E A) s : (forall s1 s2, J s1 -> R s1 s2 -> J s2) ->
  only False (fun B (e : E B) => forall s b s', J s -> step B e s b s' -> G s s' /\ J s') p -> J s -> rg p (fun _ s' => J s') s.
Proof.
  intros HJ. revert s. induction p as [a|msg|B e k IH]; intros s Hp Hs; cbn in *; [by eauto|done|].
  destruct Hp as [He Hk]. intros s1 HR b s2 Hstep. destruct (He s1 b s2) as [HG Hs2]; [by eapply HJ|done|].
  split; [done|]. by apply IH.
Qed.

(** Goroutines that tolerate each other. *)
Lemma rg_par choose {A B} (p : prog E A) (q : prog E B) QA QB s :
  (forall s1 s2, G s1 s2 -> R s1 s2) ->
  (forall s1 c s2, step _ choose s1 c s2 -> G s1 s2) ->
  rg p QA s -> rg q QB s ->
  rg (par choose p q) (fun ab s' => QA ab.1 s' /\ QB ab.2 s') s.
Proof.
  intros HGR Hch.
  assert (Hret : forall (a : A) (q : prog E B) s, rg (Ret a) QA s -> rg q QB s ->
    rg (b <-- q;; Ret (a, b)) (fun ab s' => QA ab.1 s' /\ QB ab.2 s') s).
  { intros a q' s' Hp Hq. apply rg_bind.
    eapply rg_mono; [|apply (rg_frame q' (fun b s' => forall s1, R s' s1 -> QB b s1) (fun s' => forall s1, R s' s1 -> QA a s1));
      [..|by apply rg_stable]; [|done|done]].
    - cbn. intros b s1 [Hb Ha] s2 HR. split; [by apply Ha|by apply Hb].
    - intros s1 s2 HP HR s3 HR'. apply HP. by etrans. }
  assert (Hret' : forall (p : prog E A) (b : B) s, rg p QA s -> rg (Ret b) QB s ->
    rg (a <-- p;; Ret (a, b)) (fun ab s' => QA ab.1 s' /\ QB ab.2 s') s).
  { intros p' b s' Hp Hq. apply rg_bind.
    eapply rg_mono; [|apply (rg_frame p' (fun a s' => forall s1, R s' s1 -> QA a s1) (fun s' => forall s1, R s' s1 -> QB b s1));
      [..|by apply rg_stable]; [|done|done]].
    - cbn. intros a s1 [Ha Hb] s2 HR. split; [by apply Ha|by apply Hb].
    - intros s1 s2 HP HR s3 HR'. apply HP. by etrans. }
  revert q s. induction p as [a|msg|C e k IHp]; intros q s Hp Hq; [by apply Hret|done|].
  induction q as [b|msg|D e' k' IHq] in s, Hp, Hq |- *; [by apply (Hret' (Step e k))|done|].
  cbn [par]. cbn [rg]. intros s1 HR c s2 Hs. split; [by eapply Hch|].
  assert (HR2 : R s s2) by (etrans; [done|]; apply HGR; by eapply Hch). destruct c.
  - cbn [rg]. intros s3 HR3 x s4 Hs4. destruct (Hp s3 ltac:(by etrans) x s4 Hs4) as [HG Hk].
    split; [done|]. apply IHp; [done|]. apply (rg_rely _ _ s); [done|].
    etrans; [exact HR2|]. etrans; [exact HR3|by apply HGR].
  - cbn [rg]. intros s3 HR3 y s4 Hs4. destruct (Hq s3 ltac:(by etrans) y s4 Hs4) as [HG Hk].
    split; [done|]. apply IHq; [|done]. apply (rg_rely _ _ s); [done|].
    etrans; [exact HR2|]. etrans; [exact HR3|by apply HGR].
Qed.
End RelyGuarantee.

Lemma exec_bind {A B} (p : prog E A) (k : A -> prog E B) s a s1 b s2 :
  exec p s a s1 -> exec (k a) s1 b s2 -> exec (bind k p) s b s2.
Proof. intros Hp. induction Hp; cbn; [done|]. intros Hk. econstructor; [done|by auto]. Qed.

Lemma exec_inv {A} (p : prog E A) s a s' : exec p s a s' ->
  match p with
  | Ret a0 => a = a0 /\ s' = s
  | Panic _ => False
  | Step e k => exists b s1, step _ e s b s1 /\ exec (k b) s1 a s'
  end.
Proof. intros [a0 s0|B e k s0 b s1 a0 s2 Hs Hk]; [done|]. by exists b, s1. Qed.

Lemma exec_bind_inv {A B} (p : prog E A) (k : A -> prog E B) s b s2 :
  exec (bind k p) s b s2 -> exists a s1, exec p s a s1 /\ exec (k a) s1 b s2.
Proof.
  revert s. induction p as [a|msg|C e k' IH]; intros s Hex; cbn [bind] in Hex.
  - exists a, s. split; [constructor|done].
  - by apply exec_inv in Hex.
  - apply exec_inv in Hex as (c & s1 & Hs & Hk). destruct (IH c s1 Hk) as (a & s3 & Hp & Hka).
    exists a, s3. split; [by econstructor|done].
Qed.

(** An undisturbed execution keeps what all its effects keep. *)
Lemma only_exec {A} mp P (I : St -> Prop) (p : prog E A) s a s' :
  (forall B (e : E B) s b s', P _ e -> step _ e s b s' -> I s -> I s') ->
  only mp P p -> exec p s a s' -> I s -> I s'.
Proof.
  intros Hstep Hp Hex. induction Hex as [a s|B e k s b s1 a s2 Hs _ IH]; [done|].
  destruct Hp as [He Hk]. intros HI. apply IH; [done|]. by eapply Hstep.
Qed.

(** What rely/guarantee proves holds of the undisturbed executions. *)
Lemma rg_exec {A} R G (p : prog E A) (Q : A -> St -> Prop) s a s' :
  Reflexive R -> rg R G p Q s -> exec p s a s' -> Q a s'.
Proof.
  intros HR Hrg Hex. induction Hex as [a s|B e k s b s1 a s2 Hs _ IH]; cbn in Hrg; [by apply Hrg|].
  apply IH. by eapply Hrg.
Qed.

(** And there is such an execution, when every effect answers. *)
Lemma rg_terminates {A} R G (p : prog E A) (Q : A -> St -> Prop) s :
  (forall B (e : E B) s, exists b s', step _ e s b s') ->
  Reflexive R -> rg R G p Q s -> exists a s', exec p s a s' /\ Q a s'.
Proof.
  intros Htot HR. revert s. induction p as [a|msg|B e k IH]; intros s Hrg; cbn in Hrg; [|done|].
  - exists a, s. split; [constructor|by apply Hrg].
  - destruct (Htot B e s) as (b & s1 & Hs). destruct (Hrg s (HR s) b s1 Hs) as [_ Hk].
    destruct (IH b s1 Hk) as (a & s2 & Hex & HQ). exists a, s2. split; [by econstructor|done].
Qed.

(** ** The process: a pool of goroutines

    A step lets one goroutine perform its next effect, which may start goroutines, or lets a
    goroutine of the class [entry] arrive: a request, a tick of a background loop. *)
Section Pool.
Context (spawned : forall B, E B -> list (prog E unit)) (entry : prog E unit -> Prop).

Abbreviation pool := (list (prog E unit) * St)%type.

Inductive pool_step : pool -> pool -> Prop :=
| pool_run i {B} (e : E B) k threads s b s' :
    threads !! i = Some (Step e k) -> step _ e s b s' ->
    pool_step (threads, s) ((<[i := k b]> threads ++ spawned _ e)%list, s')
| pool_arrive p threads s : entry p -> pool_step (threads, s) ((threads ++ [p])%list, s).

Definition reachable (s0 : St) (threads : list (prog E unit)) (s : St) : Prop :=
  rtc pool_step ([], s0) (threads, s).

Definition panicked (p : prog E unit) : Prop := exists msg, p = Panic msg.

(** A step takes each goroutine that meets the guarantee under the rely to one that does, with the
    same postcondition, when all of them do. *)
Lemma pool_step_rg R G c c' i p Q : PreOrder R -> (forall s1 s2, G s1 s2 -> R s1 s2) ->
  Forall (fun p => rg R G p (fun _ _ => True) c.2) c.1 -> pool_step c c' -> c.1 !! i = Some p -> rg R G p Q c.2 ->
  R c.2 c'.2 /\ exists p', c'.1 !! i = Some p' /\ rg R G p' Q c'.2.
Proof.
  intros HR HGR Hall Hstep Hi Hp. destruct Hstep as [j B e k ts s b s' Hj Hs|p1 ts s Hp1]; cbn in *.
  - pose proof (Forall_lookup_1 _ _ _ _ Hall Hj s ltac:(reflexivity) b s' Hs) as [HG _]. split; [by apply HGR|].
    assert (Hlt : (i < length ts)%nat) by (by eapply lookup_lt_Some).
    rewrite lookup_app_l by (by rewrite length_insert). destruct (decide (j = i)) as [->|Hne].
    + exists (k b). split; [by apply list_lookup_insert_eq|]. rewrite Hi in Hj. injection Hj as ->.
      by apply (Hp s ltac:(reflexivity) b s' Hs).
    + exists p. split; [by rewrite list_lookup_insert_ne|]. apply (rg_rely _ _ p _ s); [done|by apply HGR].
  - split; [reflexivity|]. exists p. split; [by apply lookup_app_l_Some|done].
Qed.

(** A step keeps all goroutines to the guarantee, those that it starts included. *)
Lemma pool_step_safe R G c c' : PreOrder R -> (forall s1 s2, G s1 s2 -> R s1 s2) ->
  (forall p, entry p -> R c.2 c'.2 -> rg R G p (fun _ _ => True) c'.2) -> (forall B (e : E B), Forall entry (spawned _ e)) ->
  pool_step c c' -> Forall (fun p => rg R G p (fun _ _ => True) c.2) c.1 ->
  R c.2 c'.2 /\ Forall (fun p => rg R G p (fun _ _ => True) c'.2) c'.1.
Proof.
  intros HR HGR Hentry Hspawn Hstep Hall. destruct Hstep as [i B e k ts s b s' Hi Hs|p ts s Hp]; cbn in *.
  - destruct (Forall_lookup_1 _ _ _ _ Hall Hi s ltac:(reflexivity) b s' Hs) as [HG%HGR Hk]. split; [done|]. apply Forall_app. split.
    + apply Forall_insert; [|done]. eapply Forall_impl; [exact Hall|]. intros p Hp. by apply (rg_rely _ _ p _ s).
    + eapply Forall_impl; [apply Hspawn|]. intros p Hp. by apply Hentry.
  - split; [reflexivity|]. apply Forall_app. split; [done|]. repeat constructor. by apply Hentry.
Qed.

(** When every goroutine meets the guarantee under the rely, all states of every interleaving are
    related to the initial one, and the goroutines go on like that. *)
Lemma pool_rg R G s0 threads s :
  PreOrder R -> (forall s1 s2, G s1 s2 -> R s1 s2) ->
  (forall p s, entry p -> R s0 s -> rg R G p (fun _ _ => True) s) ->
  (forall B (e : E B), Forall entry (spawned _ e)) ->
  reachable s0 threads s -> R s0 s /\ Forall (fun p => rg R G p (fun _ _ => True) s) threads.
Proof.
  intros HR HGR Hentry Hspawn Hreach. change (R s0 (threads, s).2 /\ Forall (fun p => rg R G p (fun _ _ => True) (threads, s).2) (threads, s).1).
  eapply (rtc_ind_r (fun c => R s0 c.2 /\ Forall (fun p => rg R G p (fun _ _ => True) c.2) c.1)); [..|exact Hreach].
  - split; [reflexivity|constructor].
  - intros c c' _ Hstep [H0 Hall]. destruct (pool_step_safe R G c c' HR HGR) as [H1 Hall']; try done; [|by split; [etrans|]].
    intros p Hp Hc. apply Hentry; [done|by etrans].
Qed.

Lemma pool_rely_guarantee R G s0 threads s :
  PreOrder R -> (forall s1 s2, G s1 s2 -> R s1 s2) ->
  (forall p s, entry p -> R s0 s -> rg R G p (fun _ _ => True) s) ->
  (forall B (e : E B), Forall entry (spawned _ e)) ->
  reachable s0 threads s -> R s0 s /\ Forall (fun p => ~ panicked p) threads.
Proof.
  intros HR HGR Hentry Hspawn Hreach. destruct (pool_rg R G s0 threads s HR HGR Hentry Hspawn Hreach) as [H1 H2].
  split; [done|]. eapply Forall_impl; [exact H2|]. by intros p Hp [msg ->].
Qed.

(** *** Infinite runs *)

(** [sigma n] is the process after [n] steps; it may also idle. *)
Definition is_run (sigma : nat -> pool) : Prop :=
  forall n, sigma (S n) = sigma n \/ pool_step (sigma n) (sigma (S n)).

(** The process among others: they may change the state by [others] between its steps. *)
Definition among (others : St -> St -> Prop) (c c' : pool) : Prop := (c'.1 = c.1 /\ others c.2 c'.2) \/ pool_step c c'.

Definition run_among (others : St -> St -> Prop) (sigma : nat -> pool) : Prop := forall n, among others (sigma n) (sigma (S n)).

Lemma is_run_among others sigma : Reflexive others -> is_run sigma -> run_among others sigma.
Proof. intros Ho Hrun n. destruct (Hrun n) as [->|Hs]; [by left|by right]. Qed.

Definition thread (i : nat) (c : pool) : option (prog E unit) := c.1 !! i.

(** The effect that [p] performs next is answered, and leaves [q]. *)
Definition next (p q : prog E unit) : Prop := match p with Step e k => exists b, q = k b | _ => False end.

Definition ended (p : prog E unit) : Prop := match p with Step _ _ => False | _ => True end.

Definition moves (i : nat) (c c' : pool) : Prop := exists p q, thread i c = Some p /\ thread i c' = Some q /\ next p q.

(** The scheduler does not forget a goroutine: again and again it goes on, until it has ended. *)
Definition fair (i : nat) (sigma : nat -> pool) : Prop :=
  forall n, exists m, (n <= m)%nat /\ (moves i (sigma m) (sigma (S m)) \/ exists p, thread i (sigma m) = Some p /\ ended p).

Lemma pool_step_thread i c c' p : pool_step c c' -> thread i c = Some p ->
  thread i c' = Some p \/ exists q, thread i c' = Some q /\ next p q.
Proof.
  unfold thread. intros [j B e k ts s b s' Hj Hs|q ts s Hq] Hp; cbn in *.
  - assert (Hlt : (i < length ts)%nat) by (by eapply lookup_lt_Some).
    rewrite lookup_app_l by (by rewrite length_insert). destruct (decide (j = i)) as [->|Hne].
    + right. rewrite Hj in Hp. injection Hp as <-. exists (k b). split; [by apply list_lookup_insert_eq|by exists b].
    + left. by rewrite list_lookup_insert_ne.
  - left. by apply lookup_app_l_Some.
Qed.

Lemma run_thread others i sigma p n : run_among others sigma -> thread i (sigma n) = Some p ->
  thread i (sigma (S n)) = Some p \/ exists q, thread i (sigma (S n)) = Some q /\ next p q.
Proof. unfold thread. intros Hrun Hp. destruct (Hrun n) as [[-> _]|Hs]; [by left|by eapply pool_step_thread]. Qed.

(** A goroutine that the scheduler does not forget ends: its program is a finite tree. *)
Lemma fair_run_ends others i sigma n p : run_among others sigma -> fair i sigma -> thread i (sigma n) = Some p ->
  exists m q, (n <= m)%nat /\ thread i (sigma m) = Some q /\ ended q.
Proof.
  intros Hrun Hfair. revert n. induction p as [a|msg|B e k IH]; intros n Hp; [by exists n, (Ret a)|by exists n, (Panic msg)|].
  cut (exists m b, (n <= m)%nat /\ thread i (sigma m) = Some (k b)).
  { intros (m & b & Hnm & Hm). destruct (IH b m Hm) as (m' & q & Hm' & Hq). exists m', q. split; [lia|done]. }
  destruct (Hfair n) as (m & Hnm & Hm). replace m with (n + (m - n))%nat in Hm by lia. revert Hm.
  generalize (m - n)%nat as d. clear m Hnm. intros d. revert n Hp. induction d as [|d IHd]; intros n Hp Hm.
  - rewrite Nat.add_0_r in Hm. destruct Hm as [(p & q & Hp' & Hq & Hnext)|(p & Hp' & Hend)]; rewrite Hp in Hp'; injection Hp' as <-; [|done].
    destruct Hnext as [b ->]. exists (S n), b. split; [lia|done].
  - destruct (run_thread others i sigma _ n Hrun Hp) as [Hp'|(q & Hq & b & ->)]; [|exists (S n), b; split; [lia|done]].
    destruct (IHd (S n) Hp') as (m & b & Hle & Hmb); [by rewrite Nat.add_succ_comm|]. exists m, b. split; [lia|done].
Qed.

Lemma run_thread_stays others i sigma n d : run_among others sigma -> is_Some (thread i (sigma n)) -> is_Some (thread i (sigma (n + d)%nat)).
Proof.
  intros Hrun Hn. induction d as [|d IH]; [by rewrite Nat.add_0_r|]. rewrite Nat.add_succ_r. destruct IH as [p Hp].
  destruct (run_thread others i sigma p _ Hrun Hp) as [Hp'|(q & Hq & _)]; by eexists.
Qed.

(** [p] performs its next effect. *)
Definition performs (p : prog E unit) (s : St) (q : prog E unit) (s' : St) : Prop :=
  match p with Step e k => exists b, q = k b /\ step _ e s b s' | _ => False end.

Lemma performs_next p s q s' : performs p s q s' -> next p q.
Proof. destruct p as [a|msg|B e k]; [done..|]. intros (b & -> & _). by exists b. Qed.

Lemma pool_step_cases c c' : pool_step c c' ->
  (exists i p q, thread i c = Some p /\ performs p c.2 q c'.2 /\ thread i c' = Some q /\
     forall j, j <> i -> is_Some (thread j c) -> thread j c' = thread j c) \/
  (c'.2 = c.2 /\ forall j, is_Some (thread j c) -> thread j c' = thread j c).
Proof.
  unfold thread. intros [i B e k ts s b s' Hi Hs|p ts s Hp]; cbn; [left|right].
  - exists i, (Step e k), (k b). assert (Hlt : (i < length ts)%nat) by (by eapply lookup_lt_Some).
    split; [done|]. split; [by exists b|]. split.
    + rewrite lookup_app_l by (by rewrite length_insert). by apply list_lookup_insert_eq.
    + intros j Hne [q Hj]. assert (Hj' : (j < length ts)%nat) by (by eapply lookup_lt_Some).
      rewrite lookup_app_l by (by rewrite length_insert). by rewrite list_lookup_insert_ne.
  - split; [done|]. intros j [q Hj]. apply lookup_app_l. by eapply lookup_lt_Some.
Qed.

(** What arrives with a goroutine and survives its effects holds of all goroutines. *)
Lemma pool_step_keeps (K : prog E unit -> Prop) c c' :
  (forall p, entry p -> K p) -> (forall p q, K p -> next p q -> K q) ->
  (forall B (e : E B), Forall entry (spawned _ e)) -> pool_step c c' -> Forall K c.1 -> Forall K c'.1.
Proof.
  intros Hentry Hnext Hspawn [i B e k ts ss b s' Hi _|p ts ss Hp] Hts; cbn in Hts |- *; apply Forall_app; split.
  - apply Forall_insert; [done|]. apply (Hnext (Step e k)); [by eapply Forall_lookup_1|by eexists].
  - eapply Forall_impl; [apply Hspawn|exact Hentry].
  - done.
  - repeat constructor. by apply Hentry.
Qed.

Lemma run_keeps others (K : prog E unit -> Prop) sigma n :
  (forall p, entry p -> K p) -> (forall p q, K p -> next p q -> K q) ->
  (forall B (e : E B), Forall entry (spawned _ e)) -> run_among others sigma -> Forall K (sigma 0%nat).1 -> Forall K (sigma n).1.
Proof.
  intros Hentry Hnext Hspawn Hrun H0. induction n as [|n IH]; [done|].
  destruct (Hrun n) as [[-> _]|Hs]; [done|by eapply pool_step_keeps].
Qed.

(** The rely and the guarantee along a run, when the others keep to the rely as well. *)
Lemma run_rg R G others sigma n : PreOrder R -> (forall s1 s2, G s1 s2 -> R s1 s2) -> (forall s1 s2, others s1 s2 -> R s1 s2) ->
  (forall p s, entry p -> R (sigma 0%nat).2 s -> rg R G p (fun _ _ => True) s) ->
  (forall B (e : E B), Forall entry (spawned _ e)) -> run_among others sigma -> Forall entry (sigma 0%nat).1 ->
  R (sigma 0%nat).2 (sigma n).2 /\ Forall (fun p => rg R G p (fun _ _ => True) (sigma n).2) (sigma n).1.
Proof.
  intros HR HGR HoR Hentry Hspawn Hrun H0. induction n as [|n [Hn Hall]].
  - split; [reflexivity|]. eapply Forall_impl; [exact H0|]. intros p Hp. by apply Hentry.
  - destruct (Hrun n) as [[-> Ho%HoR]|Hs].
    + split; [by etrans|]. eapply Forall_impl; [exact Hall|]. intros p Hp. by apply (rg_rely _ _ p _ (sigma n).2).
    + destruct (pool_step_safe R G (sigma n) (sigma (S n)) HR HGR) as [Hs' Hall']; try done; [|by split; [etrans|]].
      intros p Hp Hc. apply Hentry; [done|by etrans].
Qed.

Lemma run_ended others i sigma p n m : run_among others sigma -> thread i (sigma n) = Some p -> ended p -> (n <= m)%nat -> thread i (sigma m) = Some p.
Proof.
  intros Hrun Hp Hend Hle. induction Hle as [|m Hle IH]; [done|].
  destruct (run_thread others i sigma p m Hrun IH) as [|(q & _ & Hn)]; [done|]. by destruct p.
Qed.

(** *** A goroutine that changes the state in its own way

    Goroutine [i] makes changes within [G], among others of the class [K], which change the state
    by [R]. *)
Section Distinguished.
Context (R G : St -> St -> Prop) (K : prog E unit -> Prop) `{!PreOrder R}.
Context (Hentry : forall p, entry p -> K p) (Hnext : forall p q, K p -> next p q -> K q).
Context (Hspawn : forall B (e : E B), Forall entry (spawned _ e)).
Context (HKR : forall p q s s', K p -> performs p s q s' -> R s s').

Definition distinguished (i : nat) (c : pool) : Prop :=
  (exists p, thread i c = Some p /\ rg R G p (fun _ _ => True) c.2) /\
  forall j p, j <> i -> thread j c = Some p -> K p.

Lemma pool_threads (ts new : list (prog E unit)) j q j' p' : (j < length ts)%nat ->
  (<[j := q]> ts ++ new)%list !! j' = Some p' -> (j' = j /\ p' = q) \/ (j' <> j /\ ts !! j' = Some p') \/ p' ∈ new.
Proof.
  intros Hlt. rewrite lookup_app_Some. intros [Hp|[_ Hp]]; [|right; right; by eapply list_elem_of_lookup_2].
  destruct (decide (j' = j)) as [->|Hne]; [|right; left; by rewrite list_lookup_insert_ne in Hp].
  rewrite list_lookup_insert_eq in Hp by done. injection Hp as <-. by left.
Qed.

Lemma distinguished_step i c c' : pool_step c c' -> distinguished i c -> (R c.2 c'.2 \/ G c.2 c'.2) /\ distinguished i c'.
Proof.
  intros Hs [(p & Hp & Hrg) Hall]. unfold distinguished, thread in *. destruct Hs as [j B e k ts s b s' Hj Hs|q ts s Hq]; cbn in *.
  - assert (Hlt : (j < length ts)%nat) by (by eapply lookup_lt_Some). assert (Hlti : (i < length ts)%nat) by (by eapply lookup_lt_Some).
    assert (HK : forall j' p', j' <> i -> (<[j := k b]> ts ++ spawned B e)%list !! j' = Some p' -> K p').
    { intros j' p' Hne [[-> ->]|[[_ Hts]|Hnew]]%pool_threads; [|by eapply Hall| |done].
      - apply (Hnext (Step e k)); [by eapply Hall|by exists b].
      - apply Hentry. by eapply (proj1 (Forall_forall entry _)). }
    destruct (decide (j = i)) as [->|Hne].
    + rewrite Hp in Hj. injection Hj as ->. destruct (Hrg s ltac:(reflexivity) b s' Hs) as [HG Hk]. split; [by right|]. split; [|done].
      exists (k b). rewrite lookup_app_l by (by rewrite length_insert). by rewrite list_lookup_insert_eq.
    + assert (HR : R s s') by (eapply (HKR (Step e k) (k b)); [by eapply Hall|by exists b]). split; [by left|]. split; [|done].
      exists p. rewrite lookup_app_l by (by rewrite length_insert). rewrite list_lookup_insert_ne by done. split; [done|by eapply rg_rely].
  - split; [left; reflexivity|]. split; [exists p; split; [by apply lookup_app_l_Some|done]|].
    intros j p' Hne. rewrite lookup_app_Some. intros [Hj|[_ Hj]]; [by eapply Hall|].
    apply list_lookup_singleton_Some in Hj as [_ <-]. by apply Hentry.
Qed.

Lemma run_distinguished i sigma n : is_run sigma -> distinguished i (sigma 0%nat) ->
  distinguished i (sigma n) /\ (R (sigma n).2 (sigma (S n)).2 \/ G (sigma n).2 (sigma (S n)).2).
Proof.
  intros Hrun H0. assert (Hstep : forall n, distinguished i (sigma n) ->
    (R (sigma n).2 (sigma (S n)).2 \/ G (sigma n).2 (sigma (S n)).2) /\ distinguished i (sigma (S n))).
  { intros m Hm. destruct (Hrun m) as [->|Hs]; [by split; [left|]|by apply distinguished_step]. }
  assert (Hn : distinguished i (sigma n)) by (induction n as [|n IH]; [done|by apply Hstep]).
  split; [done|by apply Hstep].
Qed.
End Distinguished.

(** A goroutine that has ended has established what it guarantees at its end. *)
Lemma run_post R G others sigma i n m p Q a : PreOrder R -> (forall s1 s2, G s1 s2 -> R s1 s2) -> (forall s1 s2, others s1 s2 -> R s1 s2) ->
  run_among others sigma ->
  (forall n, Forall (fun p => rg R G p (fun _ _ => True) (sigma n).2) (sigma n).1) ->
  thread i (sigma n) = Some p -> rg R G p Q (sigma n).2 -> (n <= m)%nat ->
  thread i (sigma m) = Some (Ret a) -> Q a (sigma m).2.
Proof.
  intros HR HGR HoR Hrun Hall Hp Hrg Hle Hm.
  assert (Hex : exists q, thread i (sigma m) = Some q /\ rg R G q Q (sigma m).2).
  { clear Hm. induction Hle as [|m Hle IH]; [by exists p|]. destruct IH as (q & Hq & Hqrg).
    destruct (Hrun m) as [[Heq Ho%HoR]|Hs].
    - exists q. unfold thread. rewrite Heq. split; [done|by apply (rg_rely _ _ q _ (sigma m).2)].
    - by destruct (pool_step_rg R G _ _ i q Q HR HGR (Hall m) Hs Hq Hqrg) as (_ & q' & Hq' & Hrg'); exists q'. }
  destruct Hex as (q & Hq & Hqrg). rewrite Hm in Hq. injection Hq as <-. apply Hqrg. reflexivity.
Qed.

Lemma run_reachable s0 sigma n : is_run sigma -> reachable s0 (sigma 0%nat).1 (sigma 0%nat).2 ->
  reachable s0 (sigma n).1 (sigma n).2.
Proof.
  intros Hrun H0. induction n as [|n IH]; [done|]. destruct (Hrun n) as [->|Hs]; [done|].
  unfold reachable in *. destruct (sigma n), (sigma (S n)). by eapply rtc_r.
Qed.
End Pool.
End Semantics.

(** ** Running a program *)

Section Run.
Context {E : Type -> Type} {St : Type} (serve : forall B, E B -> St -> B * St).

(** [None] is a panic. *)
Fixpoint run {A} (p : prog E A) (s : St) : option A * St :=
  match p with
  | Ret a => (Some a, s)
  | Panic _ => (None, s)
  | Step e k => let '(b, s') := serve _ e s in run (k b) s'
  end.

(** A schedule names the goroutine that goes next. *)
Fixpoint run_schedule (spawned : forall B, E B -> list (prog E unit)) (sched : list nat)
  (ts : list (prog E unit)) (s : St) : list (prog E unit) * St :=
  match sched with
  | [] => (ts, s)
  | i :: sched =>
      match ts !! i with
      | Some (Step e k) =>
          let '(b, s') := serve _ e s in
          run_schedule spawned sched (<[i := k b]> ts ++ spawned _ e)%list s'
      | _ => run_schedule spawned sched ts s
      end
  end.

Context (step : forall B, E B -> St -> B -> St -> Prop)
  (serve_step : forall B (e : E B) s, step _ e s (serve _ e s).1 (serve _ e s).2).

Lemma run_exec {A} (p : prog E A) s a s' : run p s = (Some a, s') -> exec step p s a s'.
Proof.
  revert s. induction p as [a0|msg|B e k IH]; intros s; cbn; [intros [= -> ->]; constructor|done|].
  pose proof (serve_step B e s) as Hs. destruct (serve B e s) as [b s1]. intros Hr.
  econstructor; [exact Hs|by apply IH].
Qed.

Lemma run_schedule_reachable spawned entry s0 sched ts s :
  reachable step spawned entry s0 ts s ->
  reachable step spawned entry s0 (run_schedule spawned sched ts s).1 (run_schedule spawned sched ts s).2.
Proof.
  revert ts s. induction sched as [|i sched IH]; intros ts s Hr; cbn [run_schedule]; [done|].
  destruct (ts !! i) as [[a|msg|B e k]|] eqn:Hi; [by apply IH..| |by apply IH].
  pose proof (serve_step B e s) as Hs. destruct (serve B e s) as [b s1]. apply IH.
  eapply rtc_r; [exact Hr|by constructor].
Qed.

Lemma arrive_reachable spawned entry s0 ps :
  Forall entry ps -> reachable step spawned entry s0 ps s0.
Proof.
  intros Hps. unfold reachable. induction ps as [|p ps IH] using rev_ind; [constructor|].
  apply Forall_app in Hps as [Hps Hp]. eapply rtc_r; [by apply IH|]. constructor. by inversion Hp.
Qed.
End Run.
