(* ===== verification/Services.v ===== *)
(** The effects of the backend: the calls to the services around the process (the clock, UUIDs,
    PostgreSQL, Redis, MongoDB), which are not code of the repository, and the atomic accesses to
    the memory the goroutines of the process share.

    [World] is the interface to the services: what any deployment answers must be [allowed], the
    documented behaviour, which leaves every failure open. A call that takes a [context.Context]
    may in particular fail because its deadline passed or the context was cancelled. A write
    whose call fails may have taken effect, by the time the call returns. *)
From stdpp Require Import pretty.
From S2P Require Import Prelude Float64 GoTime Models Queue RateLimiter Tables Prog.
Local Open Scope string_scope.
Local Open Scope Z_scope.

(** ** Redis *)

(** A value is a string; the counters that INCR makes are kept as integers. *)
Inductive RedisValue := RStr (s : string) | RInt (n : Z).
Record RedisEntry := mkRedisEntry { re_value : RedisValue; re_expiry : option Time }.
Abbreviation Redis := (gmap string RedisEntry) (only parsing).

Definition live (t : Time) (r : Redis) (key : string) : option RedisValue :=
  match r !! key with
  | Some (mkRedisEntry v (Some exp)) => if t <? exp then Some v else None
  | Some (mkRedisEntry v None) => Some v
  | None => None
  end.

Definition redis_text (v : RedisValue) : string := match v with RStr s => s | RInt n => pretty n end.

(** [INCR key] followed by [EXPIRE key ttl], at time [t]. *)
Definition incr_entry (t : Time) (r : Redis) (key : string) : option RedisEntry :=
  match live t r key with
  | None => Some (mkRedisEntry (RInt 1) None)
  | Some (RInt n) => if n + 1 <=? max_int64 then Some (mkRedisEntry (RInt (n + 1)) (r !! key ≫= re_expiry)) else None
  | Some (RStr _) => None
  end.

(** ** The effects *)

(** The calls that set up a connection, or end it. *)

(** [mongo.IndexModel]: the fields with their directions, and the name. *)
Record IndexModel := mkIndexModel { index_keys : list (string * Z); index_name : string }.

Inductive connection :=
| PgParseConfig (dsn : string)
| PgNewPool (dsn : string)
| MgConnect (uri : string)
| MgCreateIndexes (indexes : list IndexModel)
(* ... and those that end it *)
| PgClose
| MgDisconnect
| RdClose.

Inductive ext : Type -> Type :=
| Now : ext Time
| NewUUID : ext string
| PgExec (s : Stmt) : ext (option error)
| PgSelectWorkItem (id : string) : ext (row WorkItem)
| PgSelectRCA (work_item_id : string) : ext (row RCA)
| PgListWorkItems (active_only : bool) : ext (error + RowSet WorkItem)
| PgCountByState : ext (error + RowSet (WorkItemState * Z))
| PgExecScript (sql : string) : ext (option error)   (* the migration *)
| PgPing : ext (option error)
| RdSet (key value : string) (ttl : Duration) : ext (option error)
| RdGet (key : string) : ext (error + option string)
| RdDel (key : string) : ext (option error)
| RdIncrExpire (key : string) (ttl : Duration) : ext (option error)
| RdMGet (keys : list string) : ext (error + list (option RedisValue))
| RdPing : ext (option error)
| MgInsert (s : Signal) : ext (option error)
| MgSetWorkItemID (id work_item_id : string) : ext (option error)
| MgFind (work_item_id : option string) (limit : Z) : ext (error + (error + list Signal))
| MgCount (component_id : string) : ext (error + Z)
| MgPing : ext (option error)
| Connect (c : connection) : ext (option error)
| Sleep (d : Duration) : ext unit
  (* select { case <-ctx.Done(): ...ctx.Err(); case <-time.After(d): } *)
| SelectDoneAfter (d : Duration) : ext (option error)
  (* select { case <-ctx.Done(): true; case <-ticker.C: false }, for a ticker of period d *)
| SelectDoneTick (d : Duration) : ext bool
| AwaitTick (d : Duration) : ext unit.   (* <-ticker.C *)

(** What the services hold, as far as the process can tell; [clock] is the last instant observed. *)
Record View := mkView {
  tables : Tables;
  redis : Redis;
  docs : gmap string Signal;
  clock : Time;
  issued : gset string;
}.

Definition with_tables (T : Tables) (v : View) : View := mkView T (redis v) (docs v) (clock v) (issued v).
Definition with_redis (r : Redis) (v : View) : View := mkView (tables v) r (docs v) (clock v) (issued v).
Definition with_docs (d : gmap string Signal) (v : View) : View := mkView (tables v) (redis v) d (clock v) (issued v).
Definition at_time (t : Time) (v : View) : View := mkView (tables v) (redis v) (docs v) t (issued v).
Definition issue (u : string) (v : View) : View := mkView (tables v) (redis v) (docs v) (clock v) ({[u]} ∪ issued v).

(** ** MongoDB's [signals] collection *)

(** The document of a signal: BSON dates have milliseconds. *)
Definition bson_signal (s : Signal) : Signal :=
  mkSignal (sig_ID s) (sig_ComponentID s) (sig_ComponentType s) (sig_Message s) (sig_Severity s)
    (sig_Metadata s) (sig_WorkItemID s) (Truncate (sig_ReceivedAt s) Millisecond).

Definition set_work_item (wid : string) (s : Signal) : Signal :=
  mkSignal (sig_ID s) (sig_ComponentID s) (sig_ComponentType s) (sig_Message s) (sig_Severity s)
    (sig_Metadata s) wid (sig_ReceivedAt s).

Definition matches (wid : option string) (s : Signal) : bool :=
  match wid with Some w => bool_decide (sig_WorkItemID s = w) | None => true end.

(** [Find] with the filter, sorted by [received_at] descending, with the limit (0 is none). *)
Definition find_answer (wid : option string) (limit : Z) (d : gmap string Signal) (l : list Signal) : Prop :=
  exists all, Permutation all (filter (fun s => matches wid s = true) (map_to_list d).*2) /\
    StronglySorted (fun a b => sig_ReceivedAt b <= sig_ReceivedAt a) all /\
    l = if limit =? 0 then all else take (Z.to_nat (Z.abs limit)) all.

(** ** The documented behaviour *)

(** A write that fails may or may not have been applied; one that cannot be applied fails. *)
Definition write (applied : option View) (v : View) (r : option error) (v' : View) : Prop :=
  match r with
  | None => applied = Some v'
  | Some _ => v' = v \/ applied = Some v'
  end.

(** A read at an instant that is not before the last one observed. *)
Definition read_at (v v' : View) : Prop := exists t, clock v <= t /\ v' = at_time t v.

Definition allowed {B} (e : ext B) : View -> B -> View -> Prop :=
  match e with
  | Now => fun v t v' => clock v <= t /\ v' = at_time t v
  | NewUUID => fun v u v' => (u ∉ issued v) /\ u <> "" /\ v' = issue u v
  | PgExec s => fun v r v' => write ((fun T => with_tables T v) <$> exec_stmt s (tables v)) v r v'
  | PgSelectWorkItem id => fun v r v' => v' = v /\
      match r with
      | RowOk wi => work_items (tables v) !! id = Some wi
      | NoRows => work_items (tables v) !! id = None
      | RowErr _ _ => True
      end
  | PgSelectRCA id => fun v r v' => v' = v /\
      match r with
      | RowOk rca => rcas (tables v) !! id = Some rca
      | NoRows => rcas (tables v) !! id = None
      | RowErr _ _ => True
      end
  | PgListWorkItems active => fun v r v' => v' = v /\
      match r with
      | inl _ => True
      | inr rs => exists all, list_answer active (tables v) all /\
          (forall i x, rs_rows rs !! i = Some (inr x) -> all !! i = Some x) /\
          (rs_err rs = None -> length (rs_rows rs) = length all)
      end
  | PgCountByState => fun v r v' => v' = v /\
      match r with
      | inl _ => True
      | inr rs => exists all, count_answer (tables v) all /\
          (forall i x, rs_rows rs !! i = Some (inr x) -> all !! i = Some x) /\
          (rs_err rs = None -> length (rs_rows rs) = length all)
      end
  (* [CREATE ... IF NOT EXISTS] of the schema that [Tables] has: it touches no row *)
  | PgExecScript _ => fun v r v' => v' = v
  | PgPing | RdPing | MgPing | Connect _ => fun v r v' => v' = v
  | Sleep d => fun v _ v' => exists t, clock v + Z.max 0 d <= t /\ v' = at_time t v
  | RdSet key value ttl => fun v r v' => exists t, clock v <= t /\
      write (Some (with_redis (<[key := mkRedisEntry (RStr value) (Some (t + ttl))]> (redis v)) (at_time t v))) v r v'
  | RdGet key => fun v r v' => read_at v v' /\
      match r with
      | inl _ => True
      | inr o => o = redis_text <$> live (clock v') (redis v) key
      end
  | RdDel key => fun v r v' => write (Some (with_redis (delete key (redis v)) v)) v r v'
  | RdIncrExpire key ttl => fun v r v' => exists t, clock v <= t /\
      match incr_entry t (redis v) key with
      | None => (* INCR fails; EXPIRE is a command of its own *)
          r <> None /\ (v' = v \/ v' = with_redis (alter (fun e => mkRedisEntry (re_value e) (Some (t + ttl))) key (redis v)) (at_time t v))
      | Some e =>
          write (Some (with_redis (<[key := mkRedisEntry (re_value e) (Some (t + ttl))]> (redis v)) (at_time t v))) v r v' \/
          (* the pipeline broke between the two commands *)
          (r <> None /\ v' = with_redis (<[key := e]> (redis v)) (at_time t v))
      end
  | RdMGet keys => fun v r v' => read_at v v' /\
      match r with
      | inl _ => True
      | inr l => l = live (clock v') (redis v) <$> keys
      end
  | MgInsert s => fun v r v' =>
      write (if decide (docs v !! sig_ID s = None) then Some (with_docs (<[sig_ID s := bson_signal s]> (docs v)) v) else None) v r v'
  | MgSetWorkItemID id wid => fun v r v' => write (Some (with_docs (alter (set_work_item wid) id (docs v)) v)) v r v'
  | MgFind wid limit => fun v r v' => v' = v /\
      match r with
      | inr (inr l) => find_answer wid limit (docs v) l
      | _ => True
      end
  | MgCount cid => fun v r v' => v' = v /\
      match r with
      | inl _ => True
      | inr n => n = Z.of_nat (length (filter (fun s => sig_ComponentID s = cid) (map_to_list (docs v)).*2))
      end
  | SelectDoneAfter d => fun v r v' => exists t, clock v <= t /\ v' = at_time t v /\
      (r = None -> clock v + d <= t)
  (* a tick may be waiting already *)
  | SelectDoneTick _ => fun v _ v' => read_at v v'
  | AwaitTick _ => fun v _ v' => read_at v v'
  end.

Lemma write_clock applied v r v' : (forall v1, applied = Some v1 -> clock v <= clock v1) -> write applied v r v' -> clock v <= clock v'.
Proof. intros Ha. destruct r as [err|]; cbn; [intros [->|Hw]; [done|by apply Ha]|by apply Ha]. Qed.

(** Time does not go back. *)
Lemma allowed_clock {B} (e : ext B) v b v' : allowed e v b v' -> clock v <= clock v'.
Proof.
  destruct e; cbn [allowed]; unfold read_at.
  all: try (by intros ->).
  all: try (by intros [-> _]).
  all: try (intros [(t & Ht & ->) _]; exact Ht).
  all: try (intros (t & Ht & ->); cbn; lia).
  all: try (intros (t & Ht & -> & _); exact Ht).
  all: try (intros Hw; eapply write_clock; [|exact Hw]; intros v1; first [by intros [= <-]|case_decide; by intros [= <-]]).
  - by intros [Ht ->].
  - intros Hw. eapply write_clock; [|exact Hw]. intros v1. destruct (exec_stmt _ _); [by intros [= <-]|done].
  - intros (t & Ht & Hw). eapply write_clock; [|exact Hw]. by intros v1 [= <-].
  - intros (t & Ht & Hw). destruct (incr_entry t (redis v) key) as [entry|].
    + destruct Hw as [Hw|[_ ->]]; [|done]. eapply write_clock; [|exact Hw]. by intros v1 [= <-].
    + by destruct Hw as [_ [->| ->]].
Qed.

Class World := {
  world : Type;
  view : world -> View;
  answer : forall B, ext B -> world -> B -> world -> Prop;
  answer_allowed : forall B (e : ext B) w b w', answer B e w b w' -> allowed e (view w) b (view w');
  answer_total : forall B (e : ext B) w, exists b w', answer B e w b w';
}.

(** ** The process *)

(** The goroutines the handlers start and do not wait for. *)
Inductive Job :=
| JobDispatch (wi : WorkItem)
| JobIncrementSignalCounter
| JobRebuildDashboard (items : list WorkItem).

(** The memory the goroutines share: [Debouncer.local], the queue, the rate limiter, and the
    worker pool's atomic counters. *)
Record Mem := mkMem {
  local : gmap string string;
  queue : SignalQueue;
  limiter : RateLimiter;
  processed : Z;
  errors : Z;
}.

Definition with_local (l : gmap string string) (m : Mem) : Mem := mkMem l (queue m) (limiter m) (processed m) (errors m).
Definition with_queue (q : SignalQueue) (m : Mem) : Mem := mkMem (local m) q (limiter m) (processed m) (errors m).
Definition with_limiter (rl : RateLimiter) (m : Mem) : Mem := mkMem (local m) (queue m) rl (processed m) (errors m).

Inductive eff : Type -> Type :=
| Ext {B} (e : ext B) : eff B
| Atomic {B} (f : Mem -> B * Mem) : eff B
| AtomicNow {B} (f : Time -> Mem -> B * Mem) : eff B  (* reads the clock inside the critical section *)
| Choose : eff bool                                    (* the scheduler, between two goroutines *)
| Go (j : Job) : eff unit.

Abbreviation io := (prog eff).

Definition call {B} (e : ext B) : io B := perform (Ext e).
Definition now : io Time := call Now.

(** An atomic read of the memory. *)
Definition peek {B} (f : Mem -> B) : io B := perform (Atomic (fun m => (f m, m))).

Section Steps.
Context `{World}.

Record Sys := mkSys { outside : world; mem : Mem }.
Definition seen (s : Sys) : View := view (outside s).

Definition step (B : Type) (e : eff B) : Sys -> B -> Sys -> Prop :=
  match e with
  | Ext e => fun s b s' => answer _ e (outside s) b (outside s') /\ mem s' = mem s
  | Atomic f => fun s b s' => outside s' = outside s /\ (b, mem s') = f (mem s)
  | AtomicNow f => fun s b s' => exists t, answer _ Now (outside s) t (outside s') /\ (b, mem s') = f t (mem s)
  | Choose => fun s _ s' => s' = s
  | Go j => fun s _ s' => s' = s
  end.

Lemma step_total B (e : eff B) s : exists b s', step B e s b s'.
Proof.
  destruct s as [w m], e as [B e|B f|B f| |j]; cbn.
  - destruct (answer_total B e w) as (b & w' & Ha). by exists b, (mkSys w' m).
  - destruct (f m) as [b m'] eqn:Hf. by exists b, (mkSys w m').
  - destruct (answer_total _ Now w) as (t & w' & Ha). destruct (f t m) as [b m'] eqn:Hf.
    exists b, (mkSys w' m'), t. by rewrite Hf.
  - by exists true, (mkSys w m).
  - by exists tt, (mkSys w m).
Qed.

Lemma step_clock B (e : eff B) s b s' : step B e s b s' -> clock (seen s) <= clock (seen s').
Proof.
  unfold seen. destruct e as [B e|B f|B f| |j]; cbn.
  - intros [Ha _]. by eapply allowed_clock, answer_allowed.
  - by intros [-> _].
  - intros (t & Ha & _). by eapply (allowed_clock Now), answer_allowed.
  - by intros ->.
  - by intros ->.
Qed.

(** Executions of a handler with nothing in between: what it ends in and with which result. *)
Definition runs {A} (p : io A) (s : Sys) (a : A) (s' : Sys) : Prop := exec step p s a s'.

(** Every undisturbed execution ends in [Q], and there is one. *)
Definition sees {A} (p : io A) (Q : A -> Sys -> Prop) (s : Sys) : Prop := rg step eq (fun _ _ => True) p Q s.

Lemma sees_runs {A} (p : io A) Q s a s' : sees p Q s -> runs p s a s' -> Q a s'.
Proof. by apply rg_exec. Qed.

Lemma sees_terminates {A} (p : io A) Q s : sees p Q s -> exists a s', runs p s a s' /\ Q a s'.
Proof. intros Hs. eapply rg_terminates; [apply step_total| |exact Hs]. by intros ?. Qed.

Lemma sees_bind {A B} (p : io A) (k : A -> io B) Q s :
  sees p (fun a s' => sees (k a) Q s') s -> sees (bind k p) Q s.
Proof. apply rg_bind. split; [by intros ?|by intros ? ? ? -> ->]. Qed.

Lemma sees_mono {A} (p : io A) (Q Q' : A -> Sys -> Prop) s :
  (forall a s', Q a s' -> Q' a s') -> sees p Q s -> sees p Q' s.
Proof. by apply rg_mono. Qed.

(** Meanwhile time goes on. *)
Lemma sees_clock {A} (p : io A) Q s : sees p Q s -> sees p (fun a s' => Q a s' /\ clock (seen s) <= clock (seen s')) s.
Proof.
  unfold sees. cut (forall s0, clock (seen s0) <= clock (seen s) -> rg step eq (fun _ _ => True) p Q s ->
    rg step eq (fun _ _ => True) p (fun a s' => Q a s' /\ clock (seen s0) <= clock (seen s')) s); [by eauto using Z.le_refl|].
  intros s0. revert s. induction p as [a|msg|B e k IH]; intros s Hs; cbn [rg]; [|done|].
  - intros HQ s1 <-. by split; [apply HQ|].
  - intros Hk s1 <- b s2 Hstep. destruct (Hk s eq_refl b s2 Hstep) as [_ Hr]. split; [done|].
    apply IH; [|done]. by etrans; [|eapply step_clock].
Qed.

Lemma sees_ret {A} (a : A) (Q : A -> Sys -> Prop) s : Q a s -> sees (Ret a) Q s.
Proof. by intros HQ s' <-. Qed.

Lemma sees_call {B A} (e : ext B) (k : B -> io A) Q s :
  (forall b s', allowed e (seen s) b (seen s') -> mem s' = mem s -> sees (k b) Q s') ->
  sees (Step (Ext e) k) Q s.
Proof. intros Hk s1 <- b s2 [Ha Hm]. split; [done|]. by apply Hk; [apply answer_allowed|]. Qed.

Lemma sees_atomic {B A} (f : Mem -> B * Mem) (k : B -> io A) Q s :
  (forall s', outside s' = outside s -> mem s' = (f (mem s)).2 -> sees (k (f (mem s)).1) Q s') ->
  sees (Step (Atomic f) k) Q s.
Proof.
  intros Hk s1 <- b s2 [Ho Hf]. split; [done|].
  destruct (f (mem s)) as [b' m']. simplify_eq. by apply Hk.
Qed.

Lemma sees_peek {B A} (f : Mem -> B) (k : B -> io A) Q s :
  (forall s', outside s' = outside s -> mem s' = mem s -> sees (k (f (mem s))) Q s') ->
  sees (bind k (peek f)) Q s.
Proof. intros Hk. by apply sees_bind, sees_atomic; intros; apply sees_ret, Hk. Qed.

Lemma sees_atomic_now {B A} (f : Time -> Mem -> B * Mem) (k : B -> io A) Q s :
  (forall t s', clock (seen s) <= t -> seen s' = at_time t (seen s) ->
    mem s' = (f t (mem s)).2 -> sees (k (f t (mem s)).1) Q s') ->
  sees (Step (AtomicNow f) k) Q s.
Proof.
  intros Hk s1 <- b s2 (t & Ha & Hf). split; [done|].
  apply answer_allowed in Ha as [Ht Hv]. destruct (f t (mem s)) as [b' m'] eqn:Hft. simplify_eq.
  specialize (Hk t s2 Ht Hv). rewrite Hft in Hk. by apply Hk.
Qed.

Lemma sees_go {A} (j : Job) (k : unit -> io A) Q s : sees (k tt) Q s -> sees (Step (Go j) k) Q s.
Proof. intros Hk s1 <- [] s2 ->. done. Qed.
End Steps.

(** ** Fault-free services

    A reply that is not a failure: valid statements succeed, queries are answered in full, and
    no deadline passes. *)
Definition fine {B} (e : ext B) : View -> B -> Prop :=
  match e with
  | PgExec s => fun v r => is_Some (exec_stmt s (tables v)) -> r = None
  | PgSelectWorkItem _ => fun _ r => forall p err, r <> RowErr p err
  | PgSelectRCA _ => fun _ r => forall p err, r <> RowErr p err
  | PgListWorkItems _ => fun _ r => exists l, r = inr (mkRowSet (inr <$> l) None)
  | PgCountByState => fun _ r => exists l, r = inr (mkRowSet (inr <$> l) None)
  | PgExecScript _ | PgPing | RdPing | MgPing | Connect _ | RdSet _ _ _ | RdDel _ | SelectDoneAfter _ => fun _ r => r = None
  | RdGet _ => fun _ r => exists x, r = inr x
  | RdMGet _ => fun _ r => exists x, r = inr x
  | MgInsert s => fun v r => docs v !! sig_ID s = None -> r = None
  | MgSetWorkItemID _ _ => fun _ r => r = None
  | MgFind _ _ => fun _ r => exists x, r = inr (inr x)
  | MgCount _ => fun _ r => exists x, r = inr x
  | Now | NewUUID | Sleep _ | SelectDoneTick _ | AwaitTick _ | RdIncrExpire _ _ => fun _ _ => True
  end.

Class FaultFree `{World} : Prop :=
  fault_free : forall B (e : ext B) w b w', answer B e w b w' -> fine e (view w) b.

Section FaultFree.
Context `{FaultFree}.

Lemma sees_call_fine {B A} (e : ext B) (k : B -> io A) Q s :
  (forall b s', allowed e (seen s) b (seen s') -> fine e (seen s) b -> mem s' = mem s -> sees (k b) Q s') ->
  sees (Step (Ext e) k) Q s.
Proof.
  intros Hk s1 <- b s2 [Ha Hm]. split; [done|].
  apply Hk; [by apply answer_allowed|by eapply fault_free|done].
Qed.

(** A valid statement takes effect, once. *)
Lemma sees_exec_fine {A} stmt (k : option error -> io A) Q s T' :
  exec_stmt stmt (tables (seen s)) = Some T' ->
  (forall s', seen s' = with_tables T' (seen s) -> mem s' = mem s -> sees (k None) Q s') ->
  sees (Step (Ext (PgExec stmt)) k) Q s.
Proof.
  intros He Hk. apply sees_call_fine. intros r s' Hw Hf Hm. cbn in *. rewrite He in *. cbn in *.
  rewrite (Hf ltac:(by eexists)) in *. injection Hw as Hv. by apply Hk.
Qed.
End FaultFree.
