(* ===== verification/Loops.v ===== *)
(** The background loops of the backend: [for] loops over a ticker, until the context is cancelled.

    A loop is given by its first [rounds] rounds, for any number of them: what a loop that never
    ends has done at some moment, it has done in finitely many rounds. *)
From S2P Require Import Prelude Float64 GoTime Models Queue RateLimiter Tables Prog Services.
Local Open Scope Z_scope.

(** [for { select { case <-ctx.Done(): return; case <-ticker.C: ... } }] for a ticker of period [d].
    The body is given the number of the round and the variables of the loop. *)
Fixpoint ticker_loop_from {S} (d : Duration) (body : nat -> S -> io S) (rounds i : nat) (s : S) : io S :=
  match rounds with
  | O => Ret s
  | Datatypes.S rounds =>
      stop <-- call (SelectDoneTick d);;
      if stop : bool then Ret s
      else s <-- body i s;; ticker_loop_from d body rounds (Datatypes.S i) s
  end.

Definition ticker_loop {S} (d : Duration) (body : nat -> S -> io S) (rounds : nat) (s : S) : io S :=
  ticker_loop_from d body rounds 0 s.

(** [for range ticker.C { ... }] *)
Fixpoint range_ticker (d : Duration) (body : io unit) (rounds : nat) : io unit :=
  match rounds with
  | O => Ret tt
  | S rounds => call (AwaitTick d);;; body;;; range_ticker d body rounds
  end.

(** The effects of a loop are those of its body, and the waits. *)
Section Effects.
Context (mp : Prop) (P : forall B, eff B -> Prop).

Lemma only_ticker_loop {S} d (body : nat -> S -> io S) rounds s : P _ (Ext (SelectDoneTick d)) ->
  (forall i s, only mp P (body i s)) -> only mp P (ticker_loop d body rounds s).
Proof.
  intros Hw Hb. unfold ticker_loop. generalize 0%nat as i. intros i. revert s i. induction rounds as [|n IH]; intros s i; cbn [ticker_loop_from]; [done|].
  split; [done|]. intros []; cbn [bind]; [done|]. apply only_bind; [apply Hb|]. intros s'. apply IH.
Qed.

Lemma only_range_ticker d body rounds : P _ (Ext (AwaitTick d)) -> only mp P body -> only mp P (range_ticker d body rounds).
Proof.
  intros Hw Hb. induction rounds as [|n IH]; cbn [range_ticker]; [done|]. split; [done|]. intros []; cbn [bind]. by apply only_bind.
Qed.
End Effects.

#[export] Hint Resolve only_ticker_loop only_range_ticker : ims.
