(* ===== verification/Retry.v ===== *)
(** The retry loops of the stores: [withRetry] of [store/postgres.go] and [store/mongo.go]. *)
From S2P Require Import Prelude Float64 GoTime Models Queue RateLimiter Tables Prog Services Loops.
Local Open Scope string_scope.
Local Open Scope Z_scope.

(** [time.Duration(math.Pow(2, float64(attempt))) * 100 * time.Millisecond], for the small
    attempts of the loops, whose powers are exact. *)
Definition retry_wait (attempt : Z) : Duration := 2 ^ attempt * 100 * Millisecond.

(** [remaining] attempts are left after this one, which is number [attempt]. *)
Fixpoint retry_loop (gave_up : error -> error) (fn : io (option error)) (remaining : nat) (attempt : Z) : io (option error) :=
  err <-- fn;;
  match err with
  | None => Ret None
  | Some err =>
      done <-- call (SelectDoneAfter (retry_wait attempt));;
      match done with
      | Some ctx_err => Ret (Some ctx_err)
      | None =>
          match remaining with
          | O => Ret (Some (gave_up err))
          | S remaining => retry_loop gave_up fn remaining (attempt + 1)
          end
      end
  end.

(** [for attempt := 1; attempt <= 3; attempt++], of the store named [store]. *)
Definition withRetry (store op : string) (fn : io (option error)) : io (option error) :=
  retry_loop (fun err => EWrap (store +:+ ": " +:+ op +:+ " failed after 3 attempts: ") err "") fn 2 1.

(** The loop the three stores connect with, [for attempt := 1; attempt <= 5; attempt++]: each failed
    attempt, the last one too, is followed by a wait of [2^attempt] seconds; [connect] gives what
    the loop variable [err] holds when it fails. *)
Fixpoint backoff {X} (connect : io (unit + X)) (gave_up : X -> error) (remaining : nat) (attempt : Z) : io (option error) :=
  r <-- connect;;
  match r with
  | inl _ => Ret None
  | inr err =>
      call (Sleep (2 ^ attempt * Second));;;
      match remaining with
      | O => Ret (Some (gave_up err))
      | S remaining => backoff connect gave_up remaining (attempt + 1)
      end
  end.

Section Retry.
Context `{World}.

(** The rule of the loop under interference: [I k] holds after [k] failed attempts, whatever
    the other goroutines do while it waits. *)
Lemma retry_loop_rg R G (I : nat -> Sys -> Prop) (Q : Sys -> Prop) gave_up fn remaining attempt k s :
  PreOrder R -> (forall s1 s2, G s1 s2 -> R s1 s2) ->
  (forall j s1 s2, I j s1 -> R s1 s2 -> I j s2) -> (forall s1 s2, Q s1 -> R s1 s2 -> Q s2) ->
  (forall s1 t s2, clock (seen s1) <= t -> seen s2 = at_time t (seen s1) -> mem s2 = mem s1 -> G s1 s2) ->
  (forall j s, (k <= j <= k + remaining)%nat -> I j s -> rg step R G fn (fun r s' => match r with None => Q s' | Some _ => I (S j) s' end) s) ->
  I k s ->
  rg step R G (retry_loop gave_up fn remaining attempt)
    (fun r s' => match r with
                 | None => Q s'
                 | Some _ => exists j, (k < j <= k + S remaining)%nat /\ I j s'
                 end) s.
Proof.
  intros HR HGR HI HQ Htime. revert attempt k s. induction remaining as [|n IH]; intros attempt k s Hfn Hk; cbn [retry_loop].
  all: apply rg_bind; [done|]; eapply rg_mono; [|apply (Hfn k); [lia|exact Hk]].
  all: intros [err|] s1 Hs1; [|intros s2 HR2; by eapply HQ].
  all: cbn; intros s2 HR2 r s3 [Ha Hm]; pose proof (answer_allowed _ _ _ _ _ Ha) as (t & Ht & Hv & _).
  all: assert (HG : G s2 s3) by (by eapply Htime); split; [done|].
  all: assert (HI3 : I (S k) s3) by (eapply HI; [exact Hs1|]; etrans; [exact HR2|by apply HGR]).
  all: destruct r as [ce|].
  1-3: intros s4 HR4; exists (S k); split; [lia|by eapply HI].
  eapply rg_mono; [|apply (IH _ (S k)); [intros j s4 Hj HIj; apply (Hfn j); [lia|exact HIj]|exact HI3]].
  intros [e|] s4; [|done]. intros (j & Hj & HIj). exists j. split; [lia|done].
Qed.

Lemma withRetry_rg R G (I : nat -> Sys -> Prop) (Q : Sys -> Prop) store op fn s :
  PreOrder R -> (forall s1 s2, G s1 s2 -> R s1 s2) ->
  (forall j s1 s2, I j s1 -> R s1 s2 -> I j s2) -> (forall s1 s2, Q s1 -> R s1 s2 -> Q s2) ->
  (forall s1 t s2, clock (seen s1) <= t -> seen s2 = at_time t (seen s1) -> mem s2 = mem s1 -> G s1 s2) ->
  (forall j s, (j <= 2)%nat -> I j s -> rg step R G fn (fun r s' => match r with None => Q s' | Some _ => I (S j) s' end) s) ->
  I O s ->
  rg step R G (withRetry store op fn)
    (fun r s' => match r with
                 | None => Q s'
                 | Some _ => exists j, (0 < j <= 3)%nat /\ I j s'
                 end) s.
Proof.
  intros HR HGR HI HQ Ht Hfn H0. eapply rg_mono; [|apply (retry_loop_rg R G I Q _ fn 2 1 0); try done].
  - intros [e|] s'; [|done]. intros (j & Hj & HIj). exists j. split; [lia|done].
  - intros j s1 Hj HIj. apply (Hfn j); [lia|exact HIj].
Qed.
(** The rule of the loop run on its own: [I k] holds after [k] failed attempts, also when time goes
    on, and [Q k] after the [k]-th attempt has succeeded. *)
Lemma retry_loop_sees (I Q : nat -> Sys -> Prop) gave_up fn remaining attempt k s :
  (forall j s1, (k <= j <= k + remaining)%nat -> I j s1 ->
     sees fn (fun r s2 => match r with None => Q (S j) s2 | Some _ => I (S j) s2 end) s1) ->
  (forall j s1 s2 t, I j s1 -> seen s2 = at_time t (seen s1) -> mem s2 = mem s1 -> I j s2) ->
  I k s ->
  sees (retry_loop gave_up fn remaining attempt)
    (fun r s' => exists j, (k < j <= k + S remaining)%nat /\ match r with None => Q j s' | Some _ => I j s' end) s.
Proof.
  intros Hfn Htime. revert attempt k s Hfn. induction remaining as [|n IH]; intros attempt k s Hfn Hk; cbn [retry_loop].
  all: apply sees_bind; eapply sees_mono; [|apply (Hfn k); [lia|exact Hk]].
  all: intros [err|] s1 Hs1; [|apply sees_ret; exists (S k); split; [lia|done]].
  all: apply sees_call; intros r s2 (t & _ & Hv & _) Hm; pose proof (Htime _ _ _ _ Hs1 Hv Hm) as Hs2.
  all: destruct r as [ce|]; [apply sees_ret; exists (S k); split; [lia|done]|].
  - apply sees_ret. exists (S k). split; [lia|done].
  - eapply sees_mono; [|apply (IH _ (S k)); [intros j s3 Hj; apply Hfn; lia|exact Hs2]].
    intros r s3 (j & Hj & HQ). exists j. split; [lia|exact HQ].
Qed.

Lemma withRetry_sees (I Q : nat -> Sys -> Prop) store op fn s :
  (forall j s1, (j <= 2)%nat -> I j s1 ->
     sees fn (fun r s2 => match r with None => Q (S j) s2 | Some _ => I (S j) s2 end) s1) ->
  (forall j s1 s2 t, I j s1 -> seen s2 = at_time t (seen s1) -> mem s2 = mem s1 -> I j s2) ->
  I O s ->
  sees (withRetry store op fn)
    (fun r s' => exists j, (1 <= j <= 3)%nat /\ match r with None => Q j s' | Some _ => I j s' end) s.
Proof.
  intros Hfn Htime H0. eapply sees_mono; [|apply (retry_loop_sees I Q _ fn 2 1 0); [|exact Htime|exact H0]].
  - intros r s' (j & Hj & HQ). exists j. split; [lia|exact HQ].
  - intros j s1 Hj. apply Hfn. lia.
Qed.
End Retry.

(** The effects of a retried operation: its own, and the waits. *)
Lemma only_withRetry (mp : Prop) (P : forall B, eff B -> Prop) store op (fn : io (option error)) : (forall d, P _ (Ext (SelectDoneAfter d))) ->
  only mp P fn -> only mp P (withRetry store op fn).
Proof.
  intros Hwait Hfn. unfold withRetry. generalize 1. generalize 2%nat. intros n.
  induction n as [|n IH]; intros attempt; cbn [retry_loop]; apply only_bind; try done;
    intros [err|]; try done; split; try done; intros [ce|]; try done. apply IH.
Qed.

Lemma only_peek (mp : Prop) (P : forall B, eff B -> Prop) {B} (f : Mem -> B) : P _ (Atomic (fun m => (f m, m))) -> only mp P (peek f).
Proof. by apply only_perform. Qed.

#[export] Hint Resolve only_withRetry only_peek : ims.

(** Walks through a handler down to its effects: the goals that stay are the claims about them.
    [op] applies the lemma of an operation. *)
Ltac crawl_with op :=
  repeat first
    [ done
    | op
    | match goal with
      | |- forall _, _ => intro
      | |- _ /\ _ => split
      | |- only _ _ (Ret _) => exact I
      | |- only _ _ (bind _ _) => apply only_bind
      | |- only _ _ (withRetry _ _ _) => apply only_withRetry
      | |- only _ _ (ticker_loop _ _ _ _) => apply only_ticker_loop
      | |- only _ _ (range_ticker _ _ _) => apply only_range_ticker
      | |- only _ _ (par _ _ _) => apply only_par
      | |- only _ _ (foldP _ _ _) => apply only_foldP
      | |- only _ _ (perform _) => apply only_perform
      | |- only _ _ (match ?x with _ => _ end) => destruct x
      | |- only _ _ (if ?b then _ else _) => destruct b
      | |- only _ _ (let '(_, _) := ?x in _) => destruct x
      end
    | match goal with |- only _ _ ?p => let h := get_head p in unfold h end
    | match goal with |- only _ _ _ => progress cbn end ].
Ltac crawl := crawl_with fail.
