(* ===== verification/Postgres.v ===== *)
(** The PostgreSQL store: [backend/internal/store/postgres.go]. A Go pair [(value, error)] is a
    pair of options; a value returned next to a non-nil error is kept. *)
From S2P Require Import Prelude Float64 GoTime Models Queue RateLimiter Tables Prog Services Retry.
Local Open Scope string_scope.
Local Open Scope Z_scope.

(** [fmt.Errorf(pre + "%w", err)] for an [err] that may be nil. *)
Definition wrap (pre : string) (err : option error) : error :=
  match err with Some e => EWrap pre e "" | None => EText (pre +:+ "%!w(<nil>)") end.

(** An attempt of [NewPostgresStore]; [pool] is never read when it fails, so the error alone counts. *)
Definition connect_postgres (dsn : string) : io (unit + option error) :=
  err <-- call (Connect (PgNewPool dsn));;
  match err with
  | None => pingErr <-- call PgPing;; Ret (if bool_decide (pingErr = None) then inl tt else inr None)
  | Some err => Ret (inr (Some err))
  end.

Definition NewPostgresStore (dsn : string) : io (option error) :=
  err <-- call (Connect (PgParseConfig dsn));;
  match err with
  | Some err => Ret (Some (EWrap "postgres: parse config: " err ""))
  | None => backoff (connect_postgres dsn) (wrap "postgres: failed to connect after 5 attempts: ") 4 1
  end.

(** [PostgresStore.Close] *)
Definition Postgres_Close : io unit := call (Connect PgClose);;; Ret tt.

Definition CreateWorkItem (wi : WorkItem) : io (option error) :=
  withRetry "postgres" "CreateWorkItem" (call (PgExec (InsertWorkItem wi))).

Definition GetWorkItem (id : string) : io (option WorkItem * option error) :=
  r <-- call (PgSelectWorkItem id);;
  Ret match r with
      | NoRows => (None, Some (ESentinel ErrWorkItemNotFound))
      | RowOk wi => (Some wi, None)
      | RowErr partial err => (Some partial, Some err)
      end.

Definition UpdateWorkItemState (id : string) (state : WorkItemState) (mttr : option float64) : io (option error) :=
  withRetry "postgres" "UpdateWorkItemState" (
    t <-- now;;
    if bool_decide (state = StateResolved) then call (PgExec (SetResolved id state t))
    else if bool_decide (state = StateClosed) then call (PgExec (SetClosed id state t mttr))
    else call (PgExec (SetState id state t))).

Definition UpdateWorkItemSeverity (id : string) (severity : Severity) : io (option error) :=
  withRetry "postgres" "UpdateWorkItemSeverity" (
    t <-- now;; call (PgExec (SetSeverity id severity t))).

Definition IncrementSignalCount (workItemID : string) : io (option error) :=
  withRetry "postgres" "IncrementSignalCount" (
    t <-- now;; call (PgExec (BumpSignalCount workItemID t))).

(** [for rows.Next() { rows.Scan(...); append }]: the rows up to the first that does not scan. *)
Fixpoint scan_rows {R} (rows : list (error + R)) : list R * option error :=
  match rows with
  | [] => ([], None)
  | inl err :: _ => ([], Some err)
  | inr r :: rows => let '(l, err) := scan_rows rows in (r :: l, err)
  end.

(** Both list functions have this body, with different queries. *)
Definition list_items (active_only : bool) : io (list WorkItem * option error) :=
  r <-- call (PgListWorkItems active_only);;
  Ret match r with
      | inl err => ([], Some err)
      | inr rs =>
          match scan_rows (rs_rows rs) with
          | (_, Some err) => ([], Some err)
          | (items, None) => (items, rs_err rs)
          end
      end.

Definition ListWorkItems : io (list WorkItem * option error) := list_items false.
Definition ListActiveWorkItems : io (list WorkItem * option error) := list_items true.

Record counts := mkCounts { c_open : Z; c_investigating : Z; c_resolved : Z; c_closed : Z }.
Definition zero_counts : counts := mkCounts 0 0 0 0.

Definition set_count (state : WorkItemState) (count : Z) (c : counts) : counts :=
  if bool_decide (state = StateOpen) then mkCounts count (c_investigating c) (c_resolved c) (c_closed c)
  else if bool_decide (state = StateInvestigating) then mkCounts (c_open c) count (c_resolved c) (c_closed c)
  else if bool_decide (state = StateResolved) then mkCounts (c_open c) (c_investigating c) count (c_closed c)
  else if bool_decide (state = StateClosed) then mkCounts (c_open c) (c_investigating c) (c_resolved c) count
  else c.

(** The loop of [GetDashboardCounts], which returns what it has at the first row that fails. *)
Fixpoint count_rows (rows : list (error + (WorkItemState * Z))) (c : counts) : counts * option error :=
  match rows with
  | [] => (c, None)
  | inl err :: _ => (c, Some err)
  | inr (state, count) :: rows => count_rows rows (set_count state count c)
  end.

(** [rows.Err()] is not consulted. *)
Definition GetDashboardCounts : io (counts * option error) :=
  r <-- call PgCountByState;;
  Ret match r with
      | inl err => (zero_counts, Some err)
      | inr rs => count_rows (rs_rows rs) zero_counts
      end.

Definition CreateRCA (rca : RCA) : io (option error) :=
  withRetry "postgres" "CreateRCA" (call (PgExec (InsertRCA rca))).

Definition GetRCAByWorkItemID (workItemID : string) : io (option RCA * option error) :=
  r <-- call (PgSelectRCA workItemID);;
  Ret match r with
      | NoRows => (None, None)
      | RowOk rca => (Some rca, None)
      | RowErr partial err => (Some partial, Some err)
      end.

(** ** What the queries return *)

Lemma scan_rows_ok {R} (rows : list (error + R)) l :
  scan_rows rows = (l, None) -> rows = inr <$> l.
Proof.
  revert l. induction rows as [|[err|r] rows IH]; intros l; cbn; [by intros [= <-]|done|].
  destruct (scan_rows rows) as [l' err] eqn:Hs. intros [= <- ->]. cbn. by rewrite <- (IH l').
Qed.

Lemma rows_complete {R} (rows : list (error + R)) l all :
  rows = inr <$> l -> (forall i x, rows !! i = Some (inr x) -> all !! i = Some x) ->
  length rows = length all -> l = all.
Proof.
  intros -> Hall Hlen. rewrite length_fmap in Hlen. apply list_eq_same_length with (length all); [done|done|].
  intros i x y _ Hx Hy. specialize (Hall i x). rewrite list_lookup_fmap, Hx in Hall.
  specialize (Hall eq_refl). congruence.
Qed.

(** *** The dashboard counts *)

Definition get_count (st : WorkItemState) (c : counts) : Z :=
  if bool_decide (st = StateOpen) then c_open c
  else if bool_decide (st = StateInvestigating) then c_investigating c
  else if bool_decide (st = StateResolved) then c_resolved c
  else if bool_decide (st = StateClosed) then c_closed c else 0.

Lemma get_set_count st st' n c : state_ok st = true ->
  get_count st (set_count st' n c) = if decide (st' = st) then n else get_count st c.
Proof.
  unfold state_ok. intros Hst%bool_decide_eq_true. unfold get_count, set_count.
  rewrite !elem_of_cons, elem_of_nil in Hst.
  destruct Hst as [->|[->|[->|[->|[]]]]]; repeat case_bool_decide; subst; try done;
    by repeat case_decide.
Qed.

(** The rows scanned so far are a prefix [l] of the complete answer. *)
Lemma count_rows_get st (l : list (WorkItemState * Z)) c : state_ok st = true -> NoDup l.*1 ->
  exists c', count_rows (inr <$> l) c = (c', None) /\
    (((st ∉ l.*1) /\ get_count st c' = get_count st c) \/ (st, get_count st c') ∈ l).
Proof.
  intros Hst. revert c. induction l as [|[st' n] l IH]; intros c Hnd; cbn.
  { exists c. split; [done|]. left. split; [by intros ?%elem_of_nil|done]. }
  apply NoDup_cons in Hnd as [Hnew Hnd]. destruct (IH (set_count st' n c) Hnd) as (c' & Hc & Hcase).
  exists c'. split; [done|]. rewrite get_set_count in Hcase by done.
  destruct Hcase as [[Hnot Hget]|Hin]; [|right; by right].
  destruct (decide (st' = st)) as [->|Hne].
  - right. rewrite Hget. by left.
  - left. split; [|done]. intros [->|?]%elem_of_cons; done.
Qed.

Lemma count_rows_ok rows c c' : count_rows rows c = (c', None) -> exists l, rows = inr <$> l.
Proof.
  revert c. induction rows as [|[err|[st n]] rows IH]; intros c; cbn; [by exists []|done|].
  intros (l & ->)%IH. by exists ((st, n) :: l).
Qed.

Lemma rows_prefix {R} (l all : list R) :
  (forall i x, (inr <$> l : list (error + R)) !! i = Some (inr x) -> all !! i = Some x) -> l = take (length l) all.
Proof.
  intros Hall. apply list_eq. intros i. destruct (l !! i) as [x|] eqn:Hx.
  - specialize (Hall i x). rewrite list_lookup_fmap, Hx in Hall. specialize (Hall eq_refl).
    apply lookup_lt_Some in Hx. by rewrite lookup_take_lt.
  - apply lookup_ge_None in Hx. by rewrite lookup_take_ge.
Qed.

Section Queries.
Context `{World}.

(** The list queries never pass off an incomplete answer as a success: when the error is
    nil, the items are exactly the rows of the table (the OPEN and INVESTIGATING ones for
    [ListActiveWorkItems]), sorted by severity from P0 to P2 and then by creation time, the
    newest first. *)
Theorem list_items_complete active_only s :
  sees (list_items active_only)
    (fun r s' => seen s' = seen s /\
       (r.2 = None -> list_answer active_only (tables (seen s)) r.1)) s.
Proof.
  apply sees_call. intros r s' [Hv Hr] _. apply sees_ret. split; [done|].
  destruct r as [err|rs]; [done|]. destruct Hr as (all & Hans & Hrows & Hlen).
  destruct (scan_rows (rs_rows rs)) as [l [err|]] eqn:Hs; [done|]. cbn. intros Herr.
  apply scan_rows_ok in Hs. by rewrite (rows_complete _ l all Hs Hrows (Hlen Herr)).
Qed.

(** [GetDashboardCounts] with a nil error: every count is the number of work items in that
    state, or 0 (the loop does not consult [rows.Err()], so a truncated answer leaves zeros);
    it is never another number. When all the rows arrived, every count is right. *)
Theorem dashboard_counts s st : state_ok st = true ->
  sees GetDashboardCounts
    (fun r s' => seen s' = seen s /\
       (r.2 = None -> get_count st r.1 = 0 \/ get_count st r.1 = count_state (tables (seen s)) st)) s /\
  (forall l all, count_answer (tables (seen s)) all -> l = inr <$> all ->
     exists c, count_rows l zero_counts = (c, None) /\ get_count st c = count_state (tables (seen s)) st).
Proof.
  intros Hst. assert (Hz : get_count st zero_counts = 0) by (unfold get_count; by repeat case_bool_decide).
  split.
  - apply sees_call. intros r s' [Hv Hr] _. apply sees_ret. split; [done|].
    destruct r as [err|rs]; [done|]. destruct Hr as (all & [Hnd Hans] & Hrows & _).
    destruct (count_rows (rs_rows rs) zero_counts) as [c [err|]] eqn:Hc; [done|]. intros _. cbn [fst].
    destruct (count_rows_ok _ _ _ Hc) as [l Hl]. rewrite Hl in *.
    pose proof (rows_prefix l all Hrows) as Hpre.
    destruct (count_rows_get st l zero_counts Hst) as (c' & Hc' & Hcase).
    { rewrite Hpre, fmap_take. rewrite <- (take_drop (length l) all.*1) in Hnd. by apply NoDup_app in Hnd as [? _]. }
    rewrite Hc' in Hc. injection Hc as <-. destruct Hcase as [[_ ->]|Hin]; [by left|right].
    rewrite Hpre in Hin. apply elem_of_take in Hin as (i & Hi & _).
    apply list_elem_of_lookup_2 in Hi. by apply Hans in Hi as [? _].
  - intros l all [Hnd Hans] ->.
    destruct (count_rows_get st all zero_counts Hst Hnd) as (c & Hc & Hcase). exists c. split; [done|].
    destruct Hcase as [[Hnot Hget]|Hin]; [|by apply Hans in Hin as [? _]].
    rewrite Hget, Hz. destruct (decide (0 < count_state (tables (seen s)) st)) as [Hpos|]; [|unfold count_state in *; lia].
    destruct Hnot. apply list_elem_of_fmap. exists (st, count_state (tables (seen s)) st).
    split; [done|]. by apply Hans.
Qed.
End Queries.
