(* ===== verification/RedisStore.v ===== *)
(** The Redis store: [backend/internal/store/redis.go]. *)
From stdpp Require Import pretty.
From S2P Require Import Prelude Float64 GoTime Models Queue RateLimiter Tables Prog Services Retry.
Local Open Scope string_scope.
Local Open Scope Z_scope.

(** The textual formats the store relies on: [encoding/json] on a [DashboardState], and
    [fmt.Sscanf] with [%f] on a string that INCR did not make. *)
Class Formats := {
  marshal : DashboardState -> error + string;
  unmarshal : string -> error + DashboardState;
  sscanf_float : string -> option float64;
}.

Definition dashboardKey : string := "ims:dashboard:state".
Definition debounceKeyPrefix : string := "ims:debounce:".
Definition dashboardTTL : Duration := 3 * Second.
Definition debounceTTL : Duration := 15 * Second.

Definition connect_redis : io (unit + unit) :=
  err <-- call RdPing;; Ret (if bool_decide (err = None) then inl tt else inr tt).

Definition NewRedisStore : io (option error) :=
  backoff connect_redis (fun _ => EText "redis: failed to connect after 5 attempts") 4 1.

(** [RedisStore.Close] *)
Definition Redis_Close : io (option error) := call (Connect RdClose).

Definition SetDashboardState `{Formats} (state : DashboardState) : io (option error) :=
  match marshal state with
  | inl err => Ret (Some (EWrap "redis: marshal dashboard state: " err ""))
  | inr data => call (RdSet dashboardKey data dashboardTTL)
  end.

Definition GetDashboardState `{Formats} : io (option DashboardState * option error) :=
  r <-- call (RdGet dashboardKey);;
  Ret match r with
      | inr None => (None, None)
      | inl err => (None, Some (EWrap "redis: get dashboard state: " err ""))
      | inr (Some data) =>
          match unmarshal data with
          | inl err => (None, Some (EWrap "redis: unmarshal dashboard state: " err ""))
          | inr state => (Some state, None)
          end
      end.

Definition InvalidateDashboard : io (option error) := call (RdDel dashboardKey).

Definition debounce_key (componentID : string) : string := debounceKeyPrefix +:+ componentID.

Definition SetDebounceEntry (componentID workItemID : string) : io (option error) :=
  call (RdSet (debounce_key componentID) workItemID debounceTTL).

Definition GetDebounceEntry (componentID : string) : io (string * option error) :=
  r <-- call (RdGet (debounce_key componentID));;
  Ret match r with
      | inr None => ("", None)
      | inl err => ("", Some (EWrap "redis: get debounce entry: " err ""))
      | inr (Some val) => (val, None)
      end.

Definition throughput_key (second : Z) : string := "ims:throughput:" +:+ pretty second.

Definition IncrementSignalCounter : io (option error) :=
  t <-- now;;
  call (RdIncrExpire (throughput_key (Unix t)) (10 * Second)).

(** The text of a counter parses to its integer, correctly rounded. *)
Definition scan_count `{Formats} (v : RedisValue) : option float64 :=
  match v with RInt n => Some (f64_of_Z n) | RStr s => sscanf_float s end.

(** The loop over [vals]: the total and the number of buckets. *)
Fixpoint sum_buckets `{Formats} (vals : list (option RedisValue)) (total buckets : float64) : float64 * float64 :=
  match vals with
  | [] => (total, buckets)
  | v :: vals =>
      match v ≫= scan_count with
      | Some count => sum_buckets vals (f64_add total count) (f64_add buckets (f64_of_Z 1))
      | None => sum_buckets vals total buckets
      end
  end.

Definition f64_eqb (x y : float64) : bool := SpecFloat.SFeqb x y.

Definition rate_of_buckets `{Formats} (vals : list (option RedisValue)) : float64 :=
  let '(total, buckets) := sum_buckets vals (f64_of_Z 0) (f64_of_Z 0) in
  if f64_eqb buckets (f64_of_Z 0) then f64_of_Z 0 else f64_div total buckets.

Definition GetSignalsPerSecond `{Formats} : io (float64 * option error) :=
  t <-- now;;
  vals <-- call (RdMGet (map (fun i => throughput_key (Unix t - i)) [0; 1; 2; 3; 4]));;
  Ret match vals with
      | inl err => (f64_of_Z 0, Some err)
      | inr vals => (rate_of_buckets vals, None)
      end.

Definition Ping : io (option error) := call RdPing.

(** ** The throughput rate *)

Definition bucket_counts (vals : list (option RedisValue)) : list Z :=
  omap (fun v => match v with Some (RInt n) => Some n | _ => None end) vals.

Lemma f64_add_small a b : 0 <= a -> 0 <= b -> a + b <= 2 ^ 53 ->
  f64_add (f64_of_Z a) (f64_of_Z b) = f64_of_Z (a + b).
Proof.
  intros Ha Hb Hab. destruct (f64_of_Z_exact a) as [Hfa Hua]; [lia|]. destruct (f64_of_Z_exact b) as [Hfb Hub]; [lia|].
  destruct (f64_of_Z_exact (a + b)) as [Hfc Huc]; [lia|]. pose proof f64_unit_pos as Hu.
  destruct (Z.eq_dec (a + b) 0) as [H0|H0].
  { assert (a = 0) as -> by lia. assert (b = 0) as -> by lia. done. }
  assert (Hr : rounds 1 ((a + b) * f64_unit) (f64_add (f64_of_Z a) (f64_of_Z b))).
  { rewrite Z.mul_add_distr_r, <- Hua, <- Hub. apply f64_add_rounds; [done|done|].
    rewrite Hua, Hub, <- Z.mul_add_distr_r. apply Z.le_lt_trans with (2 ^ 53 * f64_unit).
    - apply mul_le_r; lia.
    - unfold f64_unit. rewrite <- Z.pow_add_r by done. by apply Z.pow_lt_mono_r. }
  apply f64_units_inj; [by eapply rounds_finite|done| |].
  all: rewrite (rounds_exact 1 ((a + b) * f64_unit)); [| |by apply representable_small; lia].
  - apply Z.mul_pos_pos; lia.
  - by rewrite Z.mul_1_r.
  - done.
  - by rewrite Z.mul_1_r.
Qed.

Lemma sum_buckets_exact `{Formats} vals total buckets :
  Forall (fun v => v = None \/ exists n, v = Some (RInt n) /\ 0 <= n) vals ->
  0 <= total -> 0 <= buckets ->
  total + foldr Z.add 0 (bucket_counts vals) <= 2 ^ 53 -> buckets + Z.of_nat (length vals) <= 2 ^ 53 ->
  sum_buckets vals (f64_of_Z total) (f64_of_Z buckets) =
  (f64_of_Z (total + foldr Z.add 0 (bucket_counts vals)),
   f64_of_Z (buckets + Z.of_nat (length (bucket_counts vals)))).
Proof.
  intros Hall. revert total buckets. induction Hall as [|v vals Hv Hall IH]; intros total buckets Ht Hb Hsum Hlen.
  { cbn. by rewrite !Z.add_0_r. }
  assert (Hnn : 0 <= foldr Z.add 0 (bucket_counts vals)).
  { clear -Hall. induction Hall as [|v vals [->|(n & -> & Hn)] Hall IH]; cbn; try done.
    change (0 <= n + foldr Z.add 0 (bucket_counts vals)). lia. }
  destruct Hv as [->|(n & -> & Hn)]; cbn [sum_buckets mbind option_bind length] in *.
  - change (bucket_counts (None :: vals)) with (bucket_counts vals) in *. apply IH; lia.
  - change (bucket_counts (Some (RInt n) :: vals)) with (n :: bucket_counts vals) in *. cbn [scan_count foldr length] in *.
    rewrite !f64_add_small by lia. rewrite IH by lia. f_equal; f_equal; lia.
Qed.

(** When the five counters [GetSignalsPerSecond] reads are what INCR makes, the rate it
    computes is exactly the quotient (correctly rounded) of the number of signals by the number
    of the counters that exist, and 0 when none exists: the seconds without a signal do not take
    part in the average. *)
Theorem rate_of_buckets_exact `{Formats} vals :
  Forall (fun v => v = None \/ exists n, v = Some (RInt n) /\ 0 < n) vals -> (length vals <= 5)%nat ->
  let n := foldr Z.add 0 (bucket_counts vals) in
  let k := Z.of_nat (length (bucket_counts vals)) in
  n <= 2 ^ 53 ->
  rate_of_buckets vals = (if k =? 0 then f64_of_Z 0 else f64_div (f64_of_Z n) (f64_of_Z k)) /\
  (k <> 0 -> rounds (k * f64_unit) (n * f64_unit * f64_unit) (rate_of_buckets vals)).
Proof.
  intros Hall Hlen n k Hn.
  assert (Hk : k <= 5).
  { unfold k. transitivity (Z.of_nat (length vals)); [|lia]. apply inj_le. clear.
    induction vals as [|v vals IH]; cbn; [done|].
    change (match match v with Some (RInt n) => Some n | _ => None end with Some y => y :: bucket_counts vals | None => bucket_counts vals end)
      with (bucket_counts (v :: vals)) in *. destruct v as [[]|]; cbn; fold (bucket_counts vals) in *; lia. }
  assert (Hn0 : 0 <= n).
  { unfold n. clear -Hall. induction Hall as [|v vals [->|(m & -> & Hm)] Hall IH]; cbn; [done|done|].
    change (0 <= m + foldr Z.add 0 (bucket_counts vals)). lia. }
  assert (Hk0 : 0 <= k) by (unfold k; lia).
  assert (Hval : rate_of_buckets vals = if k =? 0 then f64_of_Z 0 else f64_div (f64_of_Z n) (f64_of_Z k)).
  { unfold rate_of_buckets. rewrite sum_buckets_exact; [|..|lia|lia|fold n; lia|lia].
    2: { eapply Forall_impl; [exact Hall|]. intros v [->|(m & -> & Hm)]; [by left|right; exists m; split; [done|lia]]. }
    rewrite !Z.add_0_l. fold n k. clearbody n k.
    assert (k = 0 \/ k = 1 \/ k = 2 \/ k = 3 \/ k = 4 \/ k = 5) as [->|[->|[->|[->|[->| ->]]]]] by lia; done. }
  split; [done|]. intros Hne. rewrite Hval. destruct (Z.eqb_spec k 0) as [|_]; [done|].
  destruct (f64_of_Z_exact n) as [Hfn Hun]; [lia|]. destruct (f64_of_Z_exact k) as [Hfk Huk]; [lia|].
  pose proof f64_unit_pos as Hu. rewrite <- Hun, <- Huk. apply f64_div_rounds; [done|done|rewrite Huk; nia|].
  rewrite Hun, Huk. apply Z.le_lt_trans with (2 ^ 53 * f64_unit * f64_unit).
  { by apply mul_le_r, mul_le_r. }
  apply Z.lt_le_trans with (2 ^ 2000 * f64_unit); [|apply Z.mul_le_mono_nonneg_l; [done|nia]].
  apply Z.mul_lt_mono_pos_r; [done|]. unfold f64_unit. rewrite <- Z.pow_add_r by done. by apply Z.pow_lt_mono_r.
Qed.

#[local] Instance no_formats : Formats := Build_Formats (fun _ => inl (EText "")) (fun _ => inl (EText "")) (fun _ => None).

Lemma rate_of_buckets_exact_witness :
  rate_of_buckets [Some (RInt 30); None; Some (RInt 10); None; None] = f64_of_Z 20.
Proof.
  destruct (rate_of_buckets_exact [Some (RInt 30); None; Some (RInt 10); None; None]) as [-> _]; [..|by vm_compute].
  - repeat apply Forall_cons_2; try apply Forall_nil_2; try (by left); right; by eexists.
  - done.
  - by vm_compute.
Defined.
