(* ===== verification/Mongo.v ===== *)
(** The MongoDB store: [backend/internal/store/mongo.go]. *)
From S2P Require Import Prelude Float64 GoTime Models Queue RateLimiter Tables Prog Services Retry.
From S2P Require Import Postgres.
Local Open Scope string_scope.
Local Open Scope Z_scope.

Definition ensureIndexes : io (option error) :=
  call (Connect (MgCreateIndexes
    [ mkIndexModel [("component_id", 1)] "idx_component_id";
      mkIndexModel [("work_item_id", 1)] "idx_work_item_id";
      mkIndexModel [("received_at", -1)] "idx_received_at";
      mkIndexModel [("severity", 1); ("received_at", -1)] "idx_severity_time" ])).

(** An attempt of [NewMongoStore]; a failure to create the indexes is logged only. *)
Definition connect_mongo (uri : string) : io (unit + option error) :=
  err <-- call (Connect (MgConnect uri));;
  match err with
  | None =>
      pingErr <-- call MgPing;;
      if bool_decide (pingErr = None) then ensureIndexes;;; Ret (inl tt) else Ret (inr None)
  | Some err => Ret (inr (Some err))
  end.

Definition NewMongoStore (uri : string) : io (option error) :=
  backoff (connect_mongo uri) (wrap "mongodb: failed to connect after 5 attempts: ") 4 1.

(** [MongoStore.Close] *)
Definition Mongo_Close : io (option error) := call (Connect MgDisconnect).

(** [MongoStore.withRetry] *)
Definition mongo_withRetry (op : string) (fn : io (option error)) : io (option error) := withRetry "mongodb" op fn.

Definition InsertSignal (signal : Signal) : io (option error) :=
  mongo_withRetry "InsertSignal" (call (MgInsert signal)).

Definition LinkSignalToWorkItem (signalID workItemID : string) : io (option error) :=
  mongo_withRetry "LinkSignalToWorkItem" (call (MgSetWorkItemID signalID workItemID)).

Definition GetSignalsByWorkItemID (workItemID : string) : io (list Signal * option error) :=
  r <-- call (MgFind (Some workItemID) 500);;
  Ret match r with
      | inl err => ([], Some (EWrap "mongodb: GetSignalsByWorkItemID: " err ""))
      | inr (inl err) => ([], Some (EWrap "mongodb: decode signals: " err ""))
      | inr (inr signals) => (signals, None)
      end.

Definition GetRecentSignals (limit : Z) : io (list Signal * option error) :=
  r <-- call (MgFind None limit);;
  Ret match r with
      | inl err => ([], Some (EWrap "mongodb: GetRecentSignals: " err ""))
      | inr (inl err) => ([], Some err)
      | inr (inr signals) => (signals, None)
      end.

Definition CountSignalsByComponentID (componentID : string) : io (error + Z) := call (MgCount componentID).

Section Audit.
Context `{World}.

Lemma take_sorted {A} (R : A -> A -> Prop) n (l : list A) : StronglySorted R l -> StronglySorted R (take n l).
Proof.
  intros Hs. revert n. induction Hs as [|a l Hs IH Hall]; intros [|n]; cbn; constructor; [by apply IH|].
  by apply Forall_take.
Qed.

(** The audit log of a work item: with a nil error, [GetSignalsByWorkItemID] returns
    signals of that work item only, the newest first, at most 500 of them, and all of them
    when there are at most 500. *)
Theorem audit_log wid s :
  sees (GetSignalsByWorkItemID wid)
    (fun r s' => seen s' = seen s /\
       (r.2 = None ->
          let mine := filter (fun d => sig_WorkItemID d = wid) (map_to_list (docs (seen s))).*2 in
          Forall (fun d => sig_WorkItemID d = wid) r.1 /\ r.1 ⊆ mine /\
          StronglySorted (fun a b => sig_ReceivedAt b <= sig_ReceivedAt a) r.1 /\
          length r.1 = Nat.min 500 (length mine) /\
          ((length mine <= 500)%nat -> Permutation r.1 mine))) s.
Proof.
  apply sees_call. intros r s' [Hv Hr] _. apply sees_ret. split; [done|].
  destruct r as [err|[err|l]]; [done|done|]. intros _. destruct Hr as (all & Hperm & Hsort & Hl).
  assert (Hf : filter (fun d => matches (Some wid) d = true) (map_to_list (docs (seen s))).*2 =
    filter (fun d => sig_WorkItemID d = wid) (map_to_list (docs (seen s))).*2).
  { apply list_filter_iff. intros d. cbn. apply bool_decide_eq_true. }
  rewrite Hf in Hperm. clear Hf. cbn [fst].
  change (l = take 500 all) in Hl. subst l.
  assert (Hin : forall d, d ∈ take 500 all -> d ∈ filter (fun d => sig_WorkItemID d = wid) (map_to_list (docs (seen s))).*2).
  { intros d Hd. rewrite <- Hperm. apply elem_of_take in Hd as (i & Hi & _). by eapply list_elem_of_lookup_2. }
  split; [|split; [|split; [|split]]].
  - apply Forall_forall. intros d Hd. apply Hin in Hd. by apply list_elem_of_filter in Hd as [? _].
  - intros d. apply Hin.
  - by apply take_sorted.
  - by rewrite length_take, Hperm.
  - intros Hle. rewrite take_ge; [done|by rewrite Hperm].
Qed.
End Audit.
