(* ===== verification/StatePattern.v ===== *)
(** The states of a work item: [backend/internal/workflow/state.go]. *)
From S2P Require Import Prelude Float64 GoTime Models Tables Prog.
Local Open Scope string_scope.
Local Open Scope Z_scope.

(** The interface [State], a record of its methods. *)
Record State := mkState {
  Name : WorkItemState;
  CanTransitionTo : WorkItemState -> bool;
  ValidTransitions : list WorkItemState;
}.

Definition openState : State :=
  mkState StateOpen (fun next => bool_decide (next = StateInvestigating)) [StateInvestigating].
Definition investigatingState : State :=
  mkState StateInvestigating (fun next => bool_decide (next = StateResolved)) [StateResolved].
Definition resolvedState : State :=
  mkState StateResolved (fun next => bool_decide (next = StateClosed)) [StateClosed].
Definition closedState : State :=
  mkState StateClosed (fun _ => false) [].

Definition stateRegistry : gmap string State :=
  list_to_map [(StateOpen, openState); (StateInvestigating, investigatingState);
               (StateResolved, resolvedState); (StateClosed, closedState)].

Definition stateFor {E} (s : WorkItemState) : prog E State :=
  match stateRegistry !! s with
  | Some impl => Ret impl
  | None => Panic ("workflow: unknown state: " +:+ s)
  end.

(** ** The life cycle *)

(** The abstract life cycle, a chain: OPEN, INVESTIGATING, RESOLVED, CLOSED. *)
Definition lifecycle : list WorkItemState := [StateOpen; StateInvestigating; StateResolved; StateClosed].

(** [follows s t]: [t] is the successor of [s] in the chain. *)
Definition follows (s t : WorkItemState) : Prop := exists i, lifecycle !! i = Some s /\ lifecycle !! S i = Some t.

#[export] Instance follows_dec s t : Decision (follows s t).
Proof.
  refine (cast_if (decide (Exists (fun i => lifecycle !! i = Some s /\ lifecycle !! S i = Some t) (seq 0 4)))).
  - rewrite Exists_exists in *. destruct e as (i & _ & H). by exists i.
  - intros (i & Hi & Hi'). apply n, Exists_exists. exists i. split; [|done].
    apply elem_of_seq. apply lookup_lt_Some in Hi. cbn in Hi. lia.
Defined.

Lemma follows_cases s t : follows s t <->
  (s = StateOpen /\ t = StateInvestigating) \/ (s = StateInvestigating /\ t = StateResolved) \/
  (s = StateResolved /\ t = StateClosed).
Proof.
  split.
  - intros (i & Hs & Ht). destruct i as [|[|[|[|]]]]; cbn in *; simplify_eq; by auto.
  - intros [[-> ->]|[[-> ->]|[-> ->]]]; [by exists 0%nat|by exists 1%nat|by exists 2%nat].
Qed.

Lemma stateFor_known {E} s : state_ok s = true ->
  exists impl, stateFor (E := E) s = Ret impl /\ stateRegistry !! s = Some impl.
Proof.
  unfold state_ok. rewrite bool_decide_eq_true, !elem_of_cons, elem_of_nil.
  intros [->|[->|[->|[->|[]]]]]; eexists; done.
Qed.

Lemma stateRegistry_cases s impl : stateRegistry !! s = Some impl ->
  (s = StateOpen /\ impl = openState) \/ (s = StateInvestigating /\ impl = investigatingState) \/
  (s = StateResolved /\ impl = resolvedState) \/ (s = StateClosed /\ impl = closedState).
Proof.
  intros Hs%elem_of_list_to_map_2. rewrite !elem_of_cons, elem_of_nil in Hs.
  destruct Hs as [[= -> ->]|[[= -> ->]|[[= -> ->]|[[= -> ->]|[]]]]]; by auto 6.
Qed.

Lemma CanTransitionTo_follows s impl t : stateRegistry !! s = Some impl ->
  CanTransitionTo impl t = true <-> follows s t.
Proof.
  intros [[-> ->]|[[-> ->]|[[-> ->]|[-> ->]]]]%stateRegistry_cases; rewrite follows_cases; cbn;
    rewrite ?bool_decide_eq_true; intuition (subst; done).
Qed.

(** The state objects implement the life cycle: [stateFor] panics exactly on a string that
    is not one of the four states; each registered object has the name it is registered under,
    permits exactly the successor of its state in the chain OPEN, INVESTIGATING, RESOLVED, CLOSED
    (so CLOSED permits nothing), and lists exactly what it permits. *)
Theorem state_objects {E} s :
  (state_ok s = false <-> stateFor (E := E) s = Panic ("workflow: unknown state: " +:+ s)) /\
  (forall impl, stateFor (E := E) s = Ret impl ->
     Name impl = s /\
     (forall t, CanTransitionTo impl t = true <-> follows s t) /\
     (forall t, t ∈ ValidTransitions impl <-> CanTransitionTo impl t = true)).
Proof.
  split.
  - split.
    + intros Hs. unfold stateFor. destruct (stateRegistry !! s) as [impl|] eqn:Hi; [|done].
      apply stateRegistry_cases in Hi as [[-> _]|[[-> _]|[[-> _]|[-> _]]]]; done.
    + intros Hp. destruct (state_ok s) eqn:Hs; [|done].
      destruct (stateFor_known (E := E) s Hs) as (impl & H & _). congruence.
  - intros impl Hf. unfold stateFor in Hf. destruct (stateRegistry !! s) as [impl'|] eqn:Hi; [|done].
    injection Hf as ->.
    split; [by apply stateRegistry_cases in Hi as [[-> ->]|[[-> ->]|[[-> ->]|[-> ->]]]]|].
    split; [intros t; by apply CanTransitionTo_follows|].
    apply stateRegistry_cases in Hi as [[-> ->]|[[-> ->]|[[-> ->]|[-> ->]]]].
    all: intros t; cbn [CanTransitionTo ValidTransitions openState investigatingState resolvedState closedState];
      rewrite ?bool_decide_eq_true, ?list_elem_of_singleton, ?elem_of_nil; intuition (subst; done).
Qed.
