(* ===== verification/Alerting.v ===== *)
(** The alert strategies and their dispatcher: [backend/internal/alerting/]. *)
From S2P Require Import Prelude Float64 GoTime Models Queue RateLimiter Tables Prog Services.
Local Open Scope string_scope.
Local Open Scope Z_scope.

(** The interface [AlertStrategy], a record of its methods; [Execute] never returns an error. *)
Record AlertStrategy := mkAlertStrategy {
  Execute : WorkItem -> io Alert;
  strategy_Severity : Severity;
  Channel : string;
}.

(** The body the three strategies share: they differ in the message. *)
Definition send (severity : Severity) (channel : string) (message : WorkItem -> string) (wi : WorkItem) : io Alert :=
  id <-- call NewUUID;;
  t <-- now;;
  Ret (mkAlert id (wi_ID wi) severity channel (message wi) t).

Definition P0_message (wi : WorkItem) : string :=
  "[P0 CRITICAL] " +:+ wi_ComponentType wi +:+ " on " +:+ wi_ComponentID wi +:+
  " — immediate response required. Work Item: " +:+ wi_ID wi.
Definition P0Strategy : AlertStrategy :=
  mkAlertStrategy (send SeverityP0 "pagerduty" P0_message) SeverityP0 "pagerduty".

Definition P1_message (wi : WorkItem) : string :=
  "[P1 HIGH] " +:+ wi_ComponentType wi +:+ " degraded on " +:+ wi_ComponentID wi +:+
  " — investigate within 15 minutes. Work Item: " +:+ wi_ID wi.
Definition P1Strategy : AlertStrategy :=
  mkAlertStrategy (send SeverityP1 "slack" P1_message) SeverityP1 "slack".

Definition P2_message (wi : WorkItem) : string :=
  "[P2 LOW] " +:+ wi_ComponentType wi +:+ " issue detected on " +:+ wi_ComponentID wi +:+
  " — review within 4 hours. Work Item: " +:+ wi_ID wi.
Definition P2Strategy : AlertStrategy :=
  mkAlertStrategy (send SeverityP2 "email" P2_message) SeverityP2 "email".

Definition componentSeverityMap : gmap string Severity :=
  list_to_map [(ComponentRDBMS, SeverityP0); (ComponentQueue, SeverityP0); (ComponentAPI, SeverityP1);
               (ComponentNoSQL, SeverityP1); (ComponentMCPHost, SeverityP1); (ComponentCache, SeverityP2)].

Definition strategyRegistry : gmap string AlertStrategy :=
  list_to_map [(SeverityP0, P0Strategy); (SeverityP1, P1Strategy); (SeverityP2, P2Strategy)].

Definition SeverityForComponent (ct : ComponentType) : Severity :=
  match componentSeverityMap !! ct with Some s => s | None => SeverityP2 end.

(** The severity [Dispatch] selects the strategy by. *)
Definition dispatch_severity (wi : WorkItem) : Severity :=
  if bool_decide (wi_Severity wi = "")
  then match componentSeverityMap !! wi_ComponentType wi with Some s => s | None => SeverityP2 end
  else wi_Severity wi.

(** A nil strategy, should the fallback be missing, panics at its first method call. *)
Definition Dispatch (wi : WorkItem) : io Alert :=
  let strategy := match strategyRegistry !! dispatch_severity wi with
                  | Some s => Some s
                  | None => strategyRegistry !! SeverityP2
                  end in
  match strategy with
  | Some s => Execute s wi
  | None => Panic "invalid memory address or nil pointer dereference"
  end.

(** The channel each severity is announced on, and the severity of the alert itself. *)
Definition channel_of (s : Severity) : string :=
  if bool_decide (s = SeverityP0) then "pagerduty" else if bool_decide (s = SeverityP1) then "slack" else "email".

Lemma SeverityForComponent_ok ct : severity_ok (SeverityForComponent ct) = true.
Proof.
  unfold SeverityForComponent. destruct (componentSeverityMap !! ct) as [s|] eqn:Hs; [|done].
  apply elem_of_list_to_map_2 in Hs. rewrite !elem_of_cons, elem_of_nil in Hs.
  destruct Hs as [[= _ ->]|[[= _ ->]|[[= _ ->]|[[= _ ->]|[[= _ ->]|[[= _ ->]|[]]]]]]]; done.
Qed.

(** Whatever the severity, [Dispatch] finds a strategy: it never calls the nil one. *)
Lemma Dispatch_is_send wi : let sev := dispatch_severity wi in
  exists msg, Dispatch wi = send (if severity_ok sev then sev else SeverityP2) (channel_of sev) msg wi.
Proof.
  intros sev. unfold Dispatch. fold sev. destruct (decide (sev ∈ [SeverityP0; SeverityP1; SeverityP2])) as [Hin|Hout].
  - rewrite !elem_of_cons, elem_of_nil in Hin. destruct Hin as [->|[->|[->|[]]]]; by eexists.
  - assert (strategyRegistry !! sev = None) as ->.
    { apply not_elem_of_list_to_map_1. intros Hin. apply Hout. exact Hin. }
    rewrite !elem_of_cons in Hout. unfold channel_of, severity_ok. rewrite !bool_decide_false by
      (rewrite ?elem_of_cons; naive_solver). by eexists.
Qed.

Section Dispatch.
Context `{World}.

Lemma send_sees sev ch msg wi s :
  sees (send sev ch msg wi) (fun a s' =>
    a = mkAlert (alert_ID a) (wi_ID wi) sev ch (msg wi) (alert_SentAt a) /\
    (alert_ID a ∉ issued (seen s)) /\ clock (seen s) <= alert_SentAt a /\
    tables (seen s') = tables (seen s)) s.
Proof.
  apply sees_call. intros u s1 (Hu & Hne & Hv) _. apply sees_call. intros t s2 [Ht Hv2] _.
  apply sees_ret. rewrite Hv2, Hv in *. done.
Qed.

(** [Dispatch] never panics: for every work item it sends exactly one alert, for that
    work item, with a fresh identifier, on the channel of the severity in force (PagerDuty for
    P0, Slack for P1, e-mail otherwise). That is the work item's own severity, if it is set,
    and the default of its component type if it is not; an unknown severity is treated as P2. *)
Theorem Dispatch_spec wi s :
  sees (Dispatch wi) (fun a s' =>
    let sev := dispatch_severity wi in
    alert_WorkItemID a = wi_ID wi /\ (alert_ID a ∉ issued (seen s)) /\
    alert_Channel a = channel_of sev /\
    alert_Severity a = (if severity_ok sev then sev else SeverityP2) /\
    (wi_Severity wi <> "" -> sev = wi_Severity wi) /\
    (wi_Severity wi = "" -> sev = SeverityForComponent (wi_ComponentType wi)) /\
    tables (seen s') = tables (seen s)) s.
Proof.
  destruct (Dispatch_is_send wi) as [msg ->]. eapply sees_mono; [|apply send_sees].
  intros a s' (-> & Hid & Ht & HT). cbn. repeat split; try done; unfold dispatch_severity; by case_bool_decide.
Qed.
End Dispatch.
