(* ===== verification/Invariant.v ===== *)
(** The invariant of the running system, and how its goroutines may change the state: the rely
    and guarantee every handler is proved against. *)
From S2P Require Import Prelude Float64 GoTime Models Queue RateLimiter Tables Prog Services Loops.
From S2P Require Import RedisStore.
Local Open Scope string_scope.
Local Open Scope Z_scope.

(** ** The tables *)

(** A CLOSED work item has a complete RCA, and its MTTR is the one of that RCA. *)
Definition closed_ok (T : Tables) : Prop :=
  forall id wi, work_items T !! id = Some wi -> wi_State wi = StateClosed ->
    exists r, rcas T !! id = Some r /\ complete_RCA r /\ wi_MTTR wi = Some (MTTRMinutes r).

(** What a statement must meet to keep [closed_ok]. *)
Definition stmt_safe (s : Stmt) (T : Tables) : Prop :=
  match s with
  | InsertWorkItem wi => wi_State wi <> StateClosed
  | SetResolved _ st _ | SetState _ st _ => st <> StateClosed
  | SetClosed id _ _ mttr => exists r, rcas T !! id = Some r /\ complete_RCA r /\ mttr = Some (MTTRMinutes r)
  | _ => True
  end.

(** The same work item later: most columns are never updated, and the signal count only grows. *)
Record same_incident (a b : WorkItem) : Prop := {
  si_ID : wi_ID a = wi_ID b;
  si_ComponentID : wi_ComponentID a = wi_ComponentID b;
  si_ComponentType : wi_ComponentType a = wi_ComponentType b;
  si_Title : wi_Title a = wi_Title b;
  si_AssignedTo : wi_AssignedTo a = wi_AssignedTo b;
  si_CreatedAt : wi_CreatedAt a = wi_CreatedAt b;
  si_SignalCount : wi_SignalCount a <= wi_SignalCount b;
}.

#[export] Instance same_incident_preorder : PreOrder same_incident.
Proof. split; [by intros a|intros a b c [] []; constructor; (congruence || lia)]. Qed.

Record tables_grow (T T' : Tables) : Prop := {
  grow_items : forall id wi, work_items T !! id = Some wi ->
    exists wi', work_items T' !! id = Some wi' /\ same_incident wi wi';
  grow_rcas : forall id r, rcas T !! id = Some r -> rcas T' !! id = Some r;
}.

#[export] Instance tables_grow_preorder : PreOrder tables_grow.
Proof.
  split.
  - intros T. split; [|done]. intros id wi Hwi. by exists wi.
  - intros T1 T2 T3 [H1 H2] [H3 H4]. split; [|by auto]. intros id wi Hwi.
    destruct (H1 id wi Hwi) as (wi' & Hwi' & Hs). destruct (H3 id wi' Hwi') as (wi'' & Hwi'' & Hs').
    exists wi''. split; [done|by etrans].
Qed.

Lemma update_work_item_grow id f T T' : (forall wi, same_incident wi (f wi)) ->
  update_work_item id f T = Some T' -> tables_grow T T' /\ rcas T' = rcas T.
Proof.
  intros Hf. unfold update_work_item. destruct (work_items T !! id) as [wi|] eqn:Hwi; [|by intros [= <-]].
  destruct (work_item_ok (f wi)); [|done]. intros [= <-]. split; [split; cbn; [|done]|done].
  intros id' wi' Hwi'. destruct (decide (id = id')) as [<-|Hne].
  - exists (f wi). rewrite lookup_insert_eq. simplify_eq. split; [done|apply Hf].
  - exists wi'. by rewrite lookup_insert_ne.
Qed.

Lemma exec_stmt_grow s T T' : exec_stmt s T = Some T' -> tables_grow T T'.
Proof.
  intros He. pose proof (exec_stmt_rcas s T T') as Hr. split; [|by eauto]. clear Hr.
  assert (Hsame : forall f, (forall wi, same_incident wi (f wi)) -> forall id, update_work_item id f T = Some T' ->
    forall id' wi, work_items T !! id' = Some wi -> exists wi', work_items T' !! id' = Some wi' /\ same_incident wi wi').
  { intros f Hf id Hu. by apply update_work_item_grow in Hu as [[] _]. }
  destruct s; cbn [exec_stmt] in He; try (eapply Hsame; [|exact He]; intros wi; constructor; cbn; done || lia).
  - destruct (work_item_ok wi); [|done]. case_bool_decide as Hn; [|done]. simplify_eq/=.
    intros id wi' Hwi'. exists wi'. rewrite lookup_insert_ne by congruence. done.
  - repeat case_match; simplify_eq/=. intros id wi Hwi. by exists wi.
  - repeat case_match; simplify_eq/=; intros id wi Hwi; by exists wi.
Qed.

Lemma update_closed_ok id f T T' : closed_ok T ->
  (forall wi, wi_State (f wi) = StateClosed -> closed_ok (mkTables (<[id := f wi]> (work_items T)) (rcas T) (timeseries T)) \/
     (wi_State wi = StateClosed /\ wi_MTTR (f wi) = wi_MTTR wi)) ->
  update_work_item id f T = Some T' -> closed_ok T'.
Proof.
  intros Hc Hf. unfold update_work_item. destruct (work_items T !! id) as [wi|] eqn:Hwi; [|by intros [= <-]].
  destruct (work_item_ok (f wi)); [|done]. intros [= <-].
  destruct (decide (wi_State (f wi) = StateClosed)) as [Hcl|Hcl].
  - destruct (Hf wi Hcl) as [Hok|[Hcl' Hm]]; [done|].
    intros id' wi'. cbn. rewrite lookup_insert_Some. intros [[<- <-]|[_ H]]; [|by eauto].
    intros _. rewrite Hm. by eauto.
  - intros id' wi'. cbn. rewrite lookup_insert_Some. intros [[<- <-]|[_ H]]; [done|by eauto].
Qed.

Lemma exec_stmt_closed_ok s T T' : closed_ok T -> stmt_safe s T -> exec_stmt s T = Some T' -> closed_ok T'.
Proof.
  intros Hc Hs. destruct s; cbn [exec_stmt stmt_safe] in *.
  - destruct (work_item_ok wi); [|done]. case_bool_decide as Hn; [|done]. intros [= <-].
    intros id wi'. cbn. rewrite lookup_insert_Some. intros [[<- <-]|[_ H]]; [done|by eauto].
  - apply update_closed_ok; [done|]. by intros wi.
  - apply update_closed_ok; [done|]. intros wi _. left. destruct Hs as (r & Hr & Hcr & ->).
    intros id' wi'. cbn. rewrite lookup_insert_Some. intros [[<- <-]|[_ H]]; [by exists r|by eauto].
  - apply update_closed_ok; [done|]. by intros wi.
  - apply update_closed_ok; [done|]. intros wi Hcl. by right.
  - apply update_closed_ok; [done|]. intros wi Hcl. by right.
  - intros He id wi Hwi Hcl. pose proof (exec_stmt_rcas (InsertRCA rca) T T' id) as Hr.
    assert (Hw : work_items T' = work_items T) by (cbn in He; by repeat case_match; simplify_eq/=).
    rewrite Hw in Hwi. destruct (Hc id wi Hwi Hcl) as (r & Hrc & Hok). exists r. split; [by apply Hr|done].
  - intros He. assert (work_items T' = work_items T /\ rcas T' = rcas T) as [Hw Hr].
    { by repeat case_match; simplify_eq/=. }
    unfold closed_ok. by rewrite Hw, Hr.
Qed.

(** ** The invariant *)

Definition known (T : Tables) (wid : string) : Prop := is_Some (work_items T !! wid).

Section Inv.
Context `{World}.

Record Inv (s : Sys) : Prop := {
  inv_tables : tables_ok (tables (seen s));
  inv_closed : closed_ok (tables (seen s));
  (* the debounce entries, of the process and of Redis, name existing work items *)
  inv_local : map_Forall (fun _ wid => known (tables (seen s)) wid) (local (mem s));
  inv_redis : forall cid e, redis (seen s) !! debounce_key cid = Some e ->
    exists wid, re_value e = RStr wid /\ known (tables (seen s)) wid;
  (* so do the signals that wait in the queue, which respects its capacity *)
  inv_queue : Forall (fun sig => known (tables (seen s)) (sig_WorkItemID sig)) (ch (queue (mem s)));
  inv_len : Len (queue (mem s)) <= capacity (queue (mem s));
  inv_limiter : rl_wf (clock (seen s)) (limiter (mem s));
}.

(** What any goroutine may do to the state. *)
Record evolves (s s' : Sys) : Prop := {
  ev_inv : Inv s -> Inv s';
  ev_clock : clock (seen s) <= clock (seen s');
  ev_issued : issued (seen s) ⊆ issued (seen s');
  ev_tables : tables_grow (tables (seen s)) (tables (seen s'));
  ev_docs : forall id d, docs (seen s) !! id = Some d -> docs (seen s') !! id = Some d;
  ev_buckets : forall p, is_Some (bucket_heap (limiter (mem s)) !! p) -> is_Some (bucket_heap (limiter (mem s')) !! p);
}.

#[export] Instance evolves_preorder : PreOrder evolves.
Proof.
  split.
  - intros s. constructor; done.
  - intros s1 s2 s3 [] []. constructor; [by auto|lia|set_solver|by etrans|by auto|by auto].
Qed.

Lemma known_grow T T' wid : tables_grow T T' -> known T wid -> known T' wid.
Proof. intros [Hi _] [wi Hwi]. destruct (Hi _ _ Hwi) as (wi' & H' & _). by exists wi'. Qed.

(** *** The elementary changes *)

Lemma evolves_read s s' t : clock (seen s) <= t -> seen s' = at_time t (seen s) -> mem s' = mem s -> evolves s s'.
Proof.
  intros Ht Hv Hm. constructor; rewrite ?Hv, ?Hm; cbn; try done.
  intros []. constructor; rewrite ?Hv, ?Hm; cbn; try done. by eapply rl_wf_mono.
Qed.

Lemma evolves_same s s' : seen s' = seen s -> mem s' = mem s -> evolves s s'.
Proof. intros Hv Hm. apply (evolves_read s s' (clock (seen s))); [done| |done]. rewrite Hv. by destruct (seen s). Qed.

Lemma evolves_exec s s' stmt T' :
  exec_stmt stmt (tables (seen s)) = Some T' -> stmt_safe stmt (tables (seen s)) ->
  seen s' = with_tables T' (seen s) -> mem s' = mem s -> evolves s s'.
Proof.
  intros He Hs Hv Hm. pose proof (exec_stmt_grow _ _ _ He) as Hg.
  constructor; rewrite ?Hv, ?Hm; cbn; try done.
  intros []. constructor; rewrite ?Hv, ?Hm; cbn; try done.
  - by eapply exec_stmt_ok.
  - by eapply exec_stmt_closed_ok.
  - eapply map_Forall_impl; [exact inv_local0|]. intros ? ?. by apply known_grow.
  - intros cid e He'. destruct (inv_redis0 cid e He') as (wid & Hw & Hk). exists wid. split; [done|by eapply known_grow].
  - eapply Forall_impl; [exact inv_queue0|]. intros ?. by apply known_grow.
Qed.

(** A change of Redis that leaves the debounce entries alone, or adds one of a known work item. *)
Lemma evolves_redis s s' r t : clock (seen s) <= t ->
  seen s' = with_redis r (at_time t (seen s)) -> mem s' = mem s ->
  (forall cid e, r !! debounce_key cid = Some e ->
     (exists e', redis (seen s) !! debounce_key cid = Some e' /\ re_value e' = re_value e) \/
     exists wid, re_value e = RStr wid /\ known (tables (seen s)) wid) ->
  evolves s s'.
Proof.
  intros Ht Hv Hm Hr. constructor; rewrite ?Hv, ?Hm; cbn; try done.
  intros []. constructor; rewrite ?Hv, ?Hm; cbn; try done; [|by eapply rl_wf_mono].
  intros cid e He. destruct (Hr cid e He) as [(e' & He' & <-)|]; [by eauto|done].
Qed.

Lemma evolves_docs s s' d : seen s' = with_docs d (seen s) -> mem s' = mem s ->
  (forall id x, docs (seen s) !! id = Some x -> d !! id = Some x) -> evolves s s'.
Proof.
  intros Hv Hm Hd. constructor; rewrite ?Hv, ?Hm; cbn; try done.
  intros []. by constructor; rewrite ?Hv, ?Hm.
Qed.

Lemma evolves_issue s s' u : seen s' = issue u (seen s) -> mem s' = mem s -> evolves s s'.
Proof.
  intros Hv Hm. constructor; rewrite ?Hv, ?Hm; cbn; try done; [|set_solver].
  intros []. by constructor; rewrite ?Hv, ?Hm.
Qed.

(** ** The rules of the handlers' proofs *)

Definition safe {A} (p : io A) (Q : A -> Sys -> Prop) (s : Sys) : Prop := rg step evolves evolves p Q s.

Lemma safe_mono {A} (p : io A) (Q Q' : A -> Sys -> Prop) s :
  (forall a s', Q a s' -> Q' a s') -> safe p Q s -> safe p Q' s.
Proof. apply rg_mono. Qed.

Lemma safe_bind {A B} (p : io A) (k : A -> io B) Q s :
  safe p (fun a s' => safe (k a) Q s') s -> safe (bind k p) Q s.
Proof. apply rg_bind, _. Qed.

Lemma safe_rely {A} (p : io A) Q s s' : safe p Q s -> evolves s s' -> safe p Q s'.
Proof. apply rg_rely, _. Qed.

Lemma safe_frame {A} (p : io A) Q (P : Sys -> Prop) s :
  (forall s1 s2, P s1 -> evolves s1 s2 -> P s2) -> P s -> safe p Q s -> safe p (fun a s' => Q a s' /\ P s') s.
Proof. intros Hst. by apply rg_frame. Qed.

(** The invariant is carried along. *)
Lemma safe_inv {A} (p : io A) Q s : Inv s -> safe p Q s -> safe p (fun a s' => Q a s' /\ Inv s') s.
Proof. apply safe_frame. intros s1 s2 Hi He. by apply (ev_inv _ _ He). Qed.

Lemma safe_ret {A} (a : A) (Q : A -> Sys -> Prop) s : (forall s', evolves s s' -> Q a s') -> safe (Ret a) Q s.
Proof. done. Qed.

Lemma safe_ret_inv {A} (a : A) (Q : A -> Sys -> Prop) s : Inv s ->
  (forall s', evolves s s' -> Inv s' -> Q a s') -> safe (Ret a) Q s.
Proof. intros Hi HQ s' He. apply HQ; [done|]. by apply (ev_inv _ _ He). Qed.

Lemma safe_call {B A} (e : ext B) (k : B -> io A) Q s : Inv s ->
  (forall s1 b s2, evolves s s1 -> Inv s1 -> allowed e (seen s1) b (seen s2) -> mem s2 = mem s1 ->
     evolves s1 s2 /\ (evolves s s2 -> Inv s2 -> safe (k b) Q s2)) ->
  safe (Step (Ext e) k) Q s.
Proof.
  intros Hi Hk s1 Hs1 b s2 [Ha Hm]. assert (Hi1 : Inv s1) by (by apply (ev_inv _ _ Hs1)).
  destruct (Hk s1 b s2 Hs1 Hi1 (answer_allowed _ _ _ _ _ Ha) Hm) as [He Hq]. split; [done|].
  apply Hq; [by etrans|by apply (ev_inv _ _ He)].
Qed.

Lemma safe_atomic {B A} (f : Mem -> B * Mem) (k : B -> io A) Q s : Inv s ->
  (forall s1 s2, evolves s s1 -> Inv s1 -> seen s2 = seen s1 -> mem s2 = (f (mem s1)).2 ->
     evolves s1 s2 /\ (evolves s s2 -> Inv s2 -> safe (k (f (mem s1)).1) Q s2)) ->
  safe (Step (Atomic f) k) Q s.
Proof.
  intros Hi Hk s1 Hs1 b s2 [Ho Hf]. assert (Hi1 : Inv s1) by (by apply (ev_inv _ _ Hs1)).
  destruct (Hk s1 s2 Hs1 Hi1) as [He Hq]; [by unfold seen; rewrite Ho|by rewrite <- Hf|].
  rewrite <- Hf in Hq. split; [done|]. apply Hq; [by etrans|by apply (ev_inv _ _ He)].
Qed.

Lemma safe_peek {B A} (f : Mem -> B) (k : B -> io A) Q s : Inv s ->
  (forall b s', evolves s s' -> Inv s' -> safe (k b) Q s') -> safe (bind k (peek f)) Q s.
Proof.
  intros Hi Hk. apply safe_atomic; [done|]. intros s1 s2 He1 Hi1 Hv Hm. cbn [fst snd bind] in *.
  split; [by apply evolves_same|by apply Hk].
Qed.

Lemma safe_atomic_now {B A} (f : Time -> Mem -> B * Mem) (k : B -> io A) Q s : Inv s ->
  (forall s1 t s2, evolves s s1 -> Inv s1 -> clock (seen s1) <= t -> seen s2 = at_time t (seen s1) ->
     mem s2 = (f t (mem s1)).2 ->
     evolves s1 s2 /\ (evolves s s2 -> Inv s2 -> safe (k (f t (mem s1)).1) Q s2)) ->
  safe (Step (AtomicNow f) k) Q s.
Proof.
  intros Hi Hk s1 Hs1 b s2 (t & Ha & Hf). assert (Hi1 : Inv s1) by (by apply (ev_inv _ _ Hs1)).
  apply answer_allowed in Ha as [Ht Hv].
  destruct (Hk s1 t s2 Hs1 Hi1 Ht Hv) as [He Hq]; [by rewrite <- Hf|].
  rewrite <- Hf in Hq. split; [done|]. apply Hq; [by etrans|by apply (ev_inv _ _ He)].
Qed.

Lemma safe_go {A} (j : Job) (k : unit -> io A) Q s : safe (k tt) Q s -> safe (Step (Go j) k) Q s.
Proof. intros Hk s1 Hs1 [] s2 ->. split; [reflexivity|by eapply safe_rely]. Qed.

Lemma safe_now {A} (k : Time -> io A) Q s : Inv s ->
  (forall t s', evolves s s' -> Inv s' -> safe (k t) Q s') -> safe (Step (Ext Now) k) Q s.
Proof.
  intros Hi Hk. apply safe_call; [done|]. intros s1 t s2 Hs1 Hi1 [Ht Hv] Hm.
  split; [by eapply evolves_read|by apply Hk].
Qed.

Lemma safe_uuid {A} (k : string -> io A) Q s : Inv s ->
  (forall u s', evolves s s' -> Inv s' -> u <> "" -> safe (k u) Q s') -> safe (Step (Ext NewUUID) k) Q s.
Proof.
  intros Hi Hk. apply safe_call; [done|]. intros s1 u s2 Hs1 Hi1 (_ & Hne & Hv) Hm.
  split; [by eapply evolves_issue|intros; by apply Hk].
Qed.

Lemma safe_sleep {A} d (k : unit -> io A) Q s : Inv s -> 0 <= d ->
  (forall s', evolves s s' -> Inv s' -> safe (k tt) Q s') -> safe (Step (Ext (Sleep d)) k) Q s.
Proof.
  intros Hi Hd Hk. apply safe_call; [done|]. intros s1 [] s2 Hs1 Hi1 (t & Ht & Hv) Hm.
  split; [by eapply evolves_read; [|exact Hv|]; [lia|]|by apply Hk].
Qed.

(** A statement that is safe whenever it runs; when it returns nil it took effect. *)
Lemma safe_exec {A} stmt (k : option error -> io A) Q s : Inv s ->
  (forall s1, evolves s s1 -> Inv s1 -> stmt_safe stmt (tables (seen s1))) ->
  (forall r s1 s2, evolves s s1 -> Inv s1 -> evolves s s2 -> Inv s2 ->
     (r = None -> exec_stmt stmt (tables (seen s1)) = Some (tables (seen s2))) -> safe (k r) Q s2) ->
  safe (Step (Ext (PgExec stmt)) k) Q s.
Proof.
  intros Hi Hsafe Hk. apply safe_call; [done|]. intros s1 r s2 Hs1 Hi1 Hw Hm.
  assert (Happ : forall T', exec_stmt stmt (tables (seen s1)) = Some T' -> seen s2 = with_tables T' (seen s1) -> evolves s1 s2).
  { intros T' He Hv. by eapply evolves_exec; [|apply Hsafe| |]. }
  cbn in Hw. destruct (exec_stmt stmt (tables (seen s1))) as [T'|] eqn:He; destruct r as [err|]; cbn in Hw.
  - split; [|intros; by apply (Hk _ s1)].
    destruct Hw as [Hv|[= Hv]]; [by apply evolves_same|by apply (Happ T')].
  - injection Hw as Hv. split; [by apply (Happ T')|]. intros. apply (Hk _ s1); try done.
    intros _. by rewrite <- Hv.
  - destruct Hw as [Hv|]; [|done]. split; [by apply evolves_same|intros; by apply (Hk _ s1)].
  - done.
Qed.

(** A loop whose rounds keep the invariant. *)
Lemma safe_ticker_loop {S} d (body : nat -> S -> io S) rounds (x : S) s : Inv s ->
  (forall i x s, Inv s -> safe (body i x) (fun _ s' => Inv s') s) ->
  safe (ticker_loop d body rounds x) (fun _ s' => Inv s') s.
Proof.
  intros Hi Hb. unfold ticker_loop. generalize 0%nat as i. intros i. revert i x s Hi. induction rounds as [|n IH]; intros i x s Hi; cbn [ticker_loop_from].
  - by apply safe_ret_inv.
  - apply safe_call; [done|]. intros s1 stop s2 _ _ (t & Ht & Hv) Hm. split; [by eapply evolves_read|]. intros _ Hi2.
    destruct stop; cbn [bind]; [by apply safe_ret_inv|]. apply safe_bind. eapply safe_mono; [|by apply Hb]. cbn. intros x' s3 Hi3. by apply IH.
Qed.

Lemma safe_range_ticker d body rounds s : Inv s -> (forall s, Inv s -> safe body (fun _ s' => Inv s') s) ->
  safe (range_ticker d body rounds) (fun _ s' => Inv s') s.
Proof.
  intros Hi Hb. revert s Hi. induction rounds as [|n IH]; intros s Hi; cbn [range_ticker]; [by apply safe_ret_inv|].
  apply safe_call; [done|]. intros s1 b s2 _ _ (t & Ht & Hv) Hm. split; [by eapply evolves_read|]. intros _ Hi2.
  cbn [bind]. apply safe_bind. eapply safe_mono; [|by apply Hb]. cbn. intros _ s3 Hi3. by apply IH.
Qed.

(** A Redis write of a key that is not a debounce key. *)
Lemma debounce_key_ne_dashboard cid : debounce_key cid <> dashboardKey.
Proof. done. Qed.

Lemma debounce_key_ne_throughput cid n : debounce_key cid <> throughput_key n.
Proof. done. Qed.

Lemma debounce_key_inj : Inj (=) (=) debounce_key.
Proof. intros a b Hab. by apply (inj (String.append debounceKeyPrefix)) in Hab. Qed.
End Inv.

(** Walks through a program whose [safe]ty is to be proved, from a state with [Inv]: down its
    effects and into each branch of it; [op] applies the lemma of an operation. *)
Ltac walk op :=
  repeat first
    [ done
    | match goal with
      | |- forall _, _ => intro
      | |- safe (bind _ (peek _)) _ _ => apply safe_peek
      | |- safe (bind _ (Ret _)) _ _ => cbn [bind]
      | |- safe (bind _ _) _ _ => apply safe_bind
      | |- safe (Ret _) _ _ => apply safe_ret_inv
      | |- safe (match ?x with _ => _ end) _ _ => destruct x
      | |- safe (let '(_, _) := ?x in _) _ _ => destruct x
      | |- safe (if ?b then _ else _) _ _ => destruct b
      | |- safe (let x := ?y in _) _ _ => cbv zeta
      | |- safe now _ _ => apply safe_now
      | |- safe (call NewUUID) _ _ => apply safe_uuid
      | |- safe (perform (Go _)) _ _ => apply safe_go
      | |- safe (foldP _ _ _) _ _ => fail 1
      end
    | op
    | match goal with |- safe ?p _ _ => let h := get_head p in unfold h end ].
