(* ===== verification/MemWorld.v ===== *)
(** Concrete services: an in-memory deployment, without faults and with a script of faults. It
    shows that the interface [World] can be met, and it runs the handlers on concrete inputs. *)
From stdpp Require Import pretty.
From S2P Require Import Prelude Float64 GoTime Models Queue RateLimiter Tables Prog Services.
Local Open Scope string_scope.
Local Open Scope Z_scope.

(** A string longer than all the strings of a set. *)
Fixpoint letters (n : nat) : string := match n with O => "" | S n => String (Ascii.ascii_of_nat 117) (letters n) end.

Lemma length_letters n : String.length (letters n) = n.
Proof. induction n as [|n IH]; cbn; congruence. Qed.

Definition fresh_id (X : gset string) : string := letters (S (max_list (String.length <$> elements X))).

Lemma fresh_id_fresh X : fresh_id X ∉ X.
Proof.
  intros Hin. apply elem_of_elements in Hin.
  assert (Hle : (String.length (fresh_id X) <= max_list (String.length <$> elements X))%nat).
  { apply max_list_elem_of_le, list_elem_of_fmap. by exists (fresh_id X). }
  unfold fresh_id in Hle. rewrite length_letters in Hle. lia.
Qed.

#[local] Instance listed_before_dec : RelDecision listed_before.
Proof. unfold RelDecision, listed_before, Decision. intros a b. apply or_dec; [apply _|apply and_dec; apply _]. Defined.
#[local] Instance listed_before_trans : Transitive listed_before.
Proof. unfold listed_before. intros a b c. lia. Qed.
#[local] Instance listed_before_total : Total listed_before.
Proof. unfold listed_before. intros a b. lia. Qed.

Definition newer (a b : Signal) : Prop := sig_ReceivedAt b <= sig_ReceivedAt a.
#[local] Instance newer_dec : RelDecision newer := fun a b => Z_le_dec (sig_ReceivedAt b) (sig_ReceivedAt a).
#[local] Instance newer_trans : Transitive newer.
Proof. unfold newer. intros a b c. lia. Qed.
#[local] Instance newer_total : Total newer.
Proof. unfold newer. intros a b. lia. Qed.

Definition sorted_items (active : bool) (T : Tables) : list WorkItem :=
  merge_sort listed_before (filter (fun wi => active = true -> is_active wi = true) (map_to_list (work_items T)).*2).

Lemma sorted_items_answer active T : list_answer active T (sorted_items active T).
Proof. split; [apply merge_sort_Permutation|apply StronglySorted_merge_sort; apply _]. Qed.

Definition state_counts (T : Tables) : list (WorkItemState * Z) :=
  (fun st => (st, count_state T st)) <$> remove_dups (wi_State <$> (map_to_list (work_items T)).*2).

Lemma state_counts_answer T : count_answer T (state_counts T).
Proof.
  unfold count_answer, state_counts. split.
  - rewrite <- list_fmap_compose. rewrite list_fmap_id by done. apply NoDup_remove_dups.
  - intros st n. rewrite list_elem_of_fmap. split.
    + intros (st' & [= <- ->] & Hin). split; [done|].
      apply elem_of_remove_dups, list_elem_of_fmap in Hin as (wi & -> & Hin). unfold count_state.
      assert (Hf : wi ∈ filter (fun wi' => wi_State wi' = wi_State wi) (map_to_list (work_items T)).*2)
        by (by apply list_elem_of_filter).
      destruct (filter _ _); [by apply elem_of_nil in Hf|cbn; lia].
    + intros [-> Hpos]. exists st. split; [done|]. apply elem_of_remove_dups, list_elem_of_fmap.
      unfold count_state in Hpos. destruct (filter (fun wi => wi_State wi = st) _) as [|wi l] eqn:Hf; [done|].
      assert (Hin : wi ∈ filter (fun wi => wi_State wi = st) (map_to_list (work_items T)).*2) by (rewrite Hf; by left).
      apply list_elem_of_filter in Hin as [Hst Hin]. by exists wi.
Qed.

Definition found (wid : option string) (limit : Z) (d : gmap string Signal) : list Signal :=
  let all := merge_sort newer (filter (fun s => matches wid s = true) (map_to_list d).*2) in
  if limit =? 0 then all else take (Z.to_nat (Z.abs limit)) all.

Lemma found_answer wid limit d : find_answer wid limit d (found wid limit d).
Proof.
  eexists. split; [apply (merge_sort_Permutation newer)|]. split; [|done].
  apply StronglySorted_merge_sort; apply _.
Qed.

(** The reply to each call and the new contents; the clock advances only by the waits. A write
    that violates a constraint is refused. *)
Definition refused : option error := Some (EText "refused").
Definition unreachable : error := EText "connection reset by peer".

Definition serve_view {B} (e : ext B) (v : View) : B * View :=
  match e in ext B return B * View with
  | Now => (clock v, v)
  | NewUUID => let u := fresh_id (issued v) in (u, issue u v)
  | PgExec s => match exec_stmt s (tables v) with Some T => (None, with_tables T v) | None => (refused, v) end
  | PgSelectWorkItem id => (match work_items (tables v) !! id with Some wi => RowOk wi | None => NoRows end, v)
  | PgSelectRCA id => (match rcas (tables v) !! id with Some r => RowOk r | None => NoRows end, v)
  | PgListWorkItems active => (inr (mkRowSet (inr <$> sorted_items active (tables v)) None), v)
  | PgCountByState => (inr (mkRowSet (inr <$> state_counts (tables v)) None), v)
  | PgExecScript _ | PgPing | RdPing | MgPing | Connect _ => (None, v)
  | RdSet key value ttl => (None, with_redis (<[key := mkRedisEntry (RStr value) (Some (clock v + ttl))]> (redis v)) v)
  | RdGet key => (inr (redis_text <$> live (clock v) (redis v) key), v)
  | RdDel key => (None, with_redis (delete key (redis v)) v)
  | RdIncrExpire key ttl =>
      match incr_entry (clock v) (redis v) key with
      | Some e => (None, with_redis (<[key := mkRedisEntry (re_value e) (Some (clock v + ttl))]> (redis v)) v)
      | None => (refused, v)
      end
  | RdMGet keys => (inr (live (clock v) (redis v) <$> keys), v)
  | MgInsert s =>
      match docs v !! sig_ID s with
      | None => (None, with_docs (<[sig_ID s := bson_signal s]> (docs v)) v)
      | Some _ => (refused, v)
      end
  | MgSetWorkItemID id wid => (None, with_docs (alter (set_work_item wid) id (docs v)) v)
  | MgFind wid limit => (inr (inr (found wid limit (docs v))), v)
  | MgCount cid => (inr (Z.of_nat (length (filter (fun s => sig_ComponentID s = cid) (map_to_list (docs v)).*2))), v)
  | Sleep d => (tt, at_time (clock v + Z.max 0 d) v)
  | SelectDoneAfter d => (None, at_time (clock v + Z.max 0 d) v)
  | SelectDoneTick d => (false, at_time (clock v + Z.max 0 d) v)
  | AwaitTick d => (tt, at_time (clock v + Z.max 0 d) v)
  end.

Lemma at_clock v : at_time (clock v) v = v.
Proof. by destruct v. Qed.

Lemma serve_view_allowed {B} (e : ext B) v : allowed e v (serve_view e v).1 (serve_view e v).2.
Proof.
  destruct e; cbn; try done.
  - split; [done|by rewrite at_clock].
  - split; [apply fresh_id_fresh|done].
  - by destruct (exec_stmt s (tables v)); [|left].
  - by destruct (work_items (tables v) !! id).
  - by destruct (rcas (tables v) !! work_item_id).
  - split; [done|]. exists (sorted_items active_only (tables v)). split; [apply sorted_items_answer|].
    split; [|by rewrite length_fmap]. intros i x. rewrite list_lookup_fmap. destruct (sorted_items active_only (tables v) !! i); cbn; congruence.
  - split; [done|]. exists (state_counts (tables v)). split; [apply state_counts_answer|].
    split; [|by rewrite length_fmap]. intros i x. rewrite list_lookup_fmap. destruct (state_counts (tables v) !! i); cbn; congruence.
  - exists (clock v). split; [done|]. by rewrite at_clock.
  - split; [|done]. exists (clock v). split; [done|by rewrite at_clock].
  - exists (clock v). split; [done|]. rewrite at_clock. destruct (incr_entry _ _ _); [by left|by split; [|left]].
  - split; [|done]. exists (clock v). split; [done|by rewrite at_clock].
  - case_decide as Hd; [by rewrite Hd|]. destruct (docs v !! sig_ID s); [by left|done].
  - split; [done|apply found_answer].
  - exists (clock v + Z.max 0 d). split; [lia|done].
  - exists (clock v + Z.max 0 d). split; [lia|]. split; [done|lia].
  - exists (clock v + Z.max 0 d). split; [lia|done].
  - exists (clock v + Z.max 0 d). split; [lia|done].
Qed.

(** ** Without faults *)

#[local] Instance MemWorld : World.
Proof.
  refine {| world := View; view := fun v => v;
            answer := fun B e v b v' => (b, v') = serve_view e v |}.
  - intros B e w b w' Ha. pose proof (serve_view_allowed e w) as H. cbn in Ha. by rewrite <- Ha in H.
  - intros B e w. destruct (serve_view e w) as [b w']. by exists b, w'.
Defined.

#[local] Instance MemWorld_fault_free : FaultFree.
Proof.
  intros B e w b w' Ha. cbn in Ha. assert (b = (serve_view e w).1) as -> by (by rewrite <- Ha). clear.
  destruct e; cbn; try done; try (by eexists).
  - by intros [T ->].
  - intros p err. by destruct (work_items (tables w) !! id).
  - intros p err. by destruct (rcas (tables w) !! work_item_id).
  - by intros ->.
Qed.

(** ** With a script of faults

    Each call takes the next entry of the script: it is served, it fails without effect, or it
    takes effect and the reply is lost. Calls that cannot fail are always served. *)
Inductive fault := Serve | Lost | Unacked.

Definition failed_reply {B} (e : ext B) : option B :=
  match e in ext B return option B with
  | Now => None
  | NewUUID => None
  | Sleep _ => None
  | AwaitTick _ => None
  | SelectDoneTick _ => Some true   (* cancelled *)
  | PgExec _ | PgExecScript _ | PgPing | RdSet _ _ _ | RdDel _ | RdIncrExpire _ _ | RdPing | MgInsert _ | MgSetWorkItemID _ _
  | MgPing | Connect _ | SelectDoneAfter _ => Some (Some unreachable)
  | PgSelectWorkItem _ => Some (RowErr zero_WorkItem unreachable)
  | PgSelectRCA _ => Some (RowErr zero_RCA unreachable)
  | PgListWorkItems _ => Some (inl unreachable)
  | PgCountByState => Some (inl unreachable)
  | RdGet _ => Some (inl unreachable)
  | RdMGet _ => Some (inl unreachable)
  | MgFind _ _ => Some (inl unreachable)
  | MgCount _ => Some (inl unreachable)
  end.

Definition serve_faulty {B} (e : ext B) (w : View * list fault) : B * (View * list fault) :=
  let '(v, script) := w in
  match failed_reply e, script with
  | Some b, Lost :: script => (b, (v, script))
  | Some b, Unacked :: script => (b, ((serve_view e v).2, script))
  | Some _, Serve :: script => ((serve_view e v).1, ((serve_view e v).2, script))
  | _, _ => ((serve_view e v).1, ((serve_view e v).2, script))
  end.

(** A failure is an allowed reply, whether the call took effect or not. *)
Lemma failed_reply_allowed {B} (e : ext B) b v v' : failed_reply e = Some b ->
  v' = v \/ v' = (serve_view e v).2 -> allowed e v b v'.
Proof.
  intros Hb Hv. assert (Hread : read_at v v) by (exists (clock v); by rewrite at_clock).
  destruct e; cbn in Hb; try done; injection Hb as <-; cbn in Hv |- *.
  - destruct (exec_stmt s (tables v)); cbn; destruct Hv as [->| ->]; by auto.
  - by destruct Hv.
  - by destruct Hv.
  - by destruct Hv.
  - by destruct Hv.
  - by destruct Hv.
  - by destruct Hv.
  - exists (clock v). rewrite at_clock. split; [done|]. destruct Hv as [->| ->]; by auto.
  - by destruct Hv as [->| ->].
  - destruct Hv as [->| ->]; by auto.
  - exists (clock v). rewrite at_clock. split; [done|].
    destruct (incr_entry (clock v) (redis v) key); cbn in Hv; destruct Hv as [->| ->]; by auto.
  - by destruct Hv as [->| ->].
  - by destruct Hv.
  - case_decide as Hd; [rewrite Hd in Hv|destruct (docs v !! sig_ID s); [|done]]; cbn in Hv; destruct Hv as [->| ->]; by auto.
  - destruct Hv as [->| ->]; by auto.
  - by destruct Hv.
  - by destruct Hv.
  - by destruct Hv.
  - by destruct Hv.
  - destruct Hv as [->| ->]; [exists (clock v); by rewrite at_clock|].
    exists (clock v + Z.max 0 d). split; [lia|]. done.
  - destruct Hv as [->| ->]; [done|]. exists (clock v + Z.max 0 d). split; [lia|done].
Qed.

Lemma serve_faulty_allowed {B} (e : ext B) w : allowed e w.1 (serve_faulty e w).1 (serve_faulty e w).2.1.
Proof.
  destruct w as [v script]. pose proof (serve_view_allowed e v) as Hok. unfold serve_faulty.
  destruct (failed_reply e) as [b|] eqn:Hb; [|done].
  destruct script as [|[] script]; cbn; try done; apply failed_reply_allowed; by auto.
Qed.

Definition FaultyWorld : World.
Proof.
  refine {| world := View * list fault; view := fst;
            answer := fun B e w b w' => (b, w') = serve_faulty e w |}.
  - intros B e w b w' Ha. pose proof (serve_faulty_allowed e w) as H. cbn in Ha. by rewrite <- Ha in H.
  - intros B e w. destruct (serve_faulty e w) as [b w']. by exists b, w'.
Defined.

(** ** Running handlers on them *)

Definition serve_eff (W : World) (serve : forall B, ext B -> world -> B * world) (B : Type) (e : eff B) : Sys -> B * Sys :=
  match e with
  | Ext e => fun s => let '(b, w) := serve _ e (outside s) in (b, mkSys w (mem s))
  | Atomic f => fun s => let '(b, m) := f (mem s) in (b, mkSys (outside s) m)
  | AtomicNow f => fun s =>
      let '(t, w) := serve _ Now (outside s) in let '(b, m) := f t (mem s) in (b, mkSys w m)
  | Choose => fun s => (true, s)
  | Go j => fun s => (tt, s)
  end.

Lemma serve_eff_step W serve B (e : eff B) s :
  (forall B (e : ext B) w, answer B e w (serve B e w).1 (serve B e w).2) ->
  step B e s (serve_eff W serve B e s).1 (serve_eff W serve B e s).2.
Proof.
  intros Hs. destruct e as [B e|B f|B f| |j]; cbn; try done.
  - specialize (Hs B e (outside s)). by destruct (serve B e (outside s)).
  - by destruct (f (mem s)).
  - specialize (Hs _ Now (outside s)). destruct (serve _ Now (outside s)) as [t w].
    exists t. by destruct (f t (mem s)).
Qed.

Definition mem_serve := serve_eff MemWorld (@serve_view).
Definition faulty_serve := serve_eff FaultyWorld (@serve_faulty).

Lemma mem_serve_step B (e : eff B) s : @step MemWorld B e s (mem_serve B e s).1 (mem_serve B e s).2.
Proof. apply serve_eff_step. intros C e' w. cbn. by destruct (serve_view e' w). Qed.

Lemma faulty_serve_step B (e : eff B) s : @step FaultyWorld B e s (faulty_serve B e s).1 (faulty_serve B e s).2.
Proof. apply serve_eff_step. intros C e' w. cbn. by destruct (serve_faulty e' w). Qed.

(** A freshly started system at a given instant. *)
Definition empty_view (t : Time) : View := mkView empty_tables ∅ ∅ t ∅.
Definition empty_mem : Mem := mkMem ∅ (New 50000) (NewRateLimiter (f64_of_Z 200) (f64_of_Z 100)) 0 0.
