(* ===== verification/StoreSafety.v ===== *)
(** The store operations under interference: each keeps the invariant, and what it reports stays
    true whatever the other goroutines do. *)
From S2P Require Import Prelude Float64 GoTime Models Queue RateLimiter Tables Prog Services Retry.
From S2P Require Import Postgres RedisStore Mongo Invariant.
Local Open Scope string_scope.
Local Open Scope Z_scope.

Section StoreSafety.
Context `{World}.

(** The loop, for an attempt that keeps the invariant and whose success establishes [P]. *)
Lemma withRetry_safe store op fn (P : Sys -> Prop) (Q : option error -> Sys -> Prop) s : Inv s ->
  (forall s1 s2, P s1 -> evolves s1 s2 -> P s2) ->
  (forall s1, evolves s s1 -> Inv s1 -> safe fn (fun r s' => evolves s s' /\ Inv s' /\ (r = None -> P s')) s1) ->
  (forall r s', evolves s s' -> Inv s' -> (r = None -> P s') -> Q r s') ->
  safe (withRetry store op fn) Q s.
Proof.
  intros Hi HP Hfn HQ. eapply safe_mono;
    [|apply (withRetry_rg evolves evolves (fun _ s' => evolves s s' /\ Inv s') (fun s' => evolves s s' /\ Inv s' /\ P s'))].
  - intros [err|] s'; [intros (_ & _ & He & Hi')|intros (He & Hi' & Hp)]; by apply HQ.
  - apply _.
  - done.
  - intros _ s1 s2 [He Hi1] He2. split; [by etrans|by apply (ev_inv _ _ He2)].
  - intros s1 s2 (He & Hi1 & Hp) He2. split; [by etrans|]. split; [by apply (ev_inv _ _ He2)|by eapply HP].
  - intros s1 t s2 Ht Hv Hm. by eapply evolves_read.
  - intros j s1 _ [He Hi1]. eapply safe_mono; [|by apply Hfn].
    intros [err|] s2 (He2 & Hi2 & Hp); split; try done. split; [done|by apply Hp].
  - done.
Qed.

(** One statement, as the body of an attempt. *)
Lemma exec_safe stmt (P : Sys -> Prop) s0 s : Inv s -> evolves s0 s ->
  (forall s1, evolves s s1 -> Inv s1 -> stmt_safe stmt (tables (seen s1))) ->
  (forall s1 s2, P s1 -> evolves s1 s2 -> P s2) ->
  (forall s1 s2, evolves s s1 -> Inv s1 -> exec_stmt stmt (tables (seen s1)) = Some (tables (seen s2)) -> P s2) ->
  safe (call (PgExec stmt)) (fun r s' => evolves s0 s' /\ Inv s' /\ (r = None -> P s')) s.
Proof.
  intros Hi H0 Hs HP Hex. apply safe_exec; [done|done|]. intros r s1 s2 Hs1 Hi1 Hs2 Hi2 Hr.
  apply safe_ret. intros s3 Hs3. split; [etrans; [exact H0|etrans; [exact Hs2|exact Hs3]]|]. split; [by apply (ev_inv _ _ Hs3)|].
  intros Hn. apply (HP s2); [|done]. apply (Hex s1); [done|done|by apply Hr].
Qed.

Lemma known_evolves wid s s' : known (tables (seen s)) wid -> evolves s s' -> known (tables (seen s')) wid.
Proof. intros Hk He. by eapply known_grow; [apply He|]. Qed.

Lemma CreateWorkItem_safe wi (Q : option error -> Sys -> Prop) s : Inv s -> wi_State wi <> StateClosed ->
  (forall r s', evolves s s' -> Inv s' -> (r = None -> known (tables (seen s')) (wi_ID wi)) -> Q r s') ->
  safe (CreateWorkItem wi) Q s.
Proof.
  intros Hi Hst HQ. apply (withRetry_safe _ _ _ (fun s' => known (tables (seen s')) (wi_ID wi))); [done| | |done].
  - intros s1 s2. by apply known_evolves.
  - intros s1 He1 Hi1. apply exec_safe; [done|done|done|by intros ? ?; apply known_evolves|].
    intros s2 s3 _ _. cbn. destruct (work_item_ok wi); [|done]. case_bool_decide; [|done].
    intros [= <-]. unfold known. cbn. rewrite lookup_insert_eq. by eexists.
Qed.

(** What [GetWorkItem] returns: a row that is in the table, or an error. *)
Definition got_item (id : string) (r : option WorkItem * option error) (s : Sys) : Prop :=
  match r with
  | (Some wi, None) => known (tables (seen s)) id /\ wi_ID wi = id /\ work_item_ok wi = true
  | (None, None) => False
  | _ => True
  end.

Lemma GetWorkItem_safe id (Q : option WorkItem * option error -> Sys -> Prop) s : Inv s ->
  (forall r s', evolves s s' -> Inv s' -> got_item id r s' -> Q r s') -> safe (GetWorkItem id) Q s.
Proof.
  intros Hi HQ. apply safe_call; [done|]. intros s1 r s2 Hs1 Hi1 [Hv Hr] Hm.
  split; [by apply evolves_same|]. intros Hs2 Hi2. apply safe_ret. intros s3 Hs3.
  apply HQ; [by etrans|by apply (ev_inv _ _ Hs3)|]. destruct r as [wi| |p err]; cbn; try done.
  rewrite <- Hv in Hr. split; [eapply known_evolves; [by exists wi|done]|].
  split; [by eapply tok_id; [apply inv_tables|]|by eapply tok_row; [apply inv_tables|]].
Qed.

Definition got_rca (wid : string) (r : option RCA * option error) (s : Sys) : Prop :=
  match r with
  | (Some rca, None) => rcas (tables (seen s)) !! wid = Some rca
  | _ => True
  end.

Lemma got_rca_evolves wid r s s' : got_rca wid r s -> evolves s s' -> got_rca wid r s'.
Proof. destruct r as [[rca|] [err|]]; cbn; try done. intros Hr He. by apply (grow_rcas _ _ (ev_tables _ _ He)). Qed.

Lemma GetRCA_safe wid (Q : option RCA * option error -> Sys -> Prop) s : Inv s ->
  (forall r s', evolves s s' -> Inv s' -> got_rca wid r s' -> Q r s') -> safe (GetRCAByWorkItemID wid) Q s.
Proof.
  intros Hi HQ. apply safe_call; [done|]. intros s1 r s2 Hs1 Hi1 [Hv Hr] Hm.
  split; [by apply evolves_same|]. intros Hs2 Hi2. apply safe_ret. intros s3 Hs3.
  apply HQ; [by etrans|by apply (ev_inv _ _ Hs3)|]. eapply got_rca_evolves; [|done].
  rewrite <- Hv in Hr. by destruct r.
Qed.

(** The premise of closing a work item. *)
Definition closable (id : string) (st : WorkItemState) (mttr : option float64) (s : Sys) : Prop :=
  st = StateClosed -> exists r, rcas (tables (seen s)) !! id = Some r /\ complete_RCA r /\ mttr = Some (MTTRMinutes r).

Lemma closable_evolves id st mttr s s' : closable id st mttr s -> evolves s s' -> closable id st mttr s'.
Proof.
  intros Hc He Hst. destruct (Hc Hst) as (r & Hr & Hok). exists r. split; [|done].
  by apply (grow_rcas _ _ (ev_tables _ _ He)).
Qed.

Lemma UpdateWorkItemState_safe id st mttr (Q : option error -> Sys -> Prop) s : Inv s -> closable id st mttr s ->
  (forall r s', evolves s s' -> Inv s' -> Q r s') -> safe (UpdateWorkItemState id st mttr) Q s.
Proof.
  intros Hi Hc HQ. apply (withRetry_safe _ _ _ (fun _ => True)); [done|done| |by intros; apply HQ].
  intros s1 He1 Hi1. apply safe_now; [done|]. intros t s2 He2 Hi2. cbn [bind].
  assert (He02 : evolves s s2) by (by etrans).
  repeat case_bool_decide; subst; apply exec_safe; try done; intros s3 He3 Hi3; cbn [stmt_safe]; try done.
  apply (closable_evolves id StateClosed mttr s); [done|by etrans|done].
Qed.

Lemma update_safe op mk (Q : option error -> Sys -> Prop) s : Inv s ->
  (forall t T, stmt_safe (mk t) T) -> (forall r s', evolves s s' -> Inv s' -> Q r s') ->
  safe (withRetry "postgres" op (t <-- now;; call (PgExec (mk t)))) Q s.
Proof.
  intros Hi Hs HQ. apply (withRetry_safe _ _ _ (fun _ => True)); [done|done| |by intros; apply HQ].
  intros s1 He1 Hi1. apply safe_now; [done|]. intros t s2 He2 Hi2.
  apply exec_safe; [done|by etrans|intros s3 _ _; apply Hs|done|done].
Qed.

Lemma UpdateWorkItemSeverity_safe id sev (Q : option error -> Sys -> Prop) s : Inv s ->
  (forall r s', evolves s s' -> Inv s' -> Q r s') -> safe (UpdateWorkItemSeverity id sev) Q s.
Proof. intros Hi HQ. by apply (update_safe _ (SetSeverity id sev)). Qed.

(** The signal count of a work item is at least [n]. *)
Definition counted (wid : string) (n : Z) (s : Sys) : Prop :=
  exists wi, work_items (tables (seen s)) !! wid = Some wi /\ n <= wi_SignalCount wi.

Lemma counted_evolves wid n s s' : counted wid n s -> evolves s s' -> counted wid n s'.
Proof.
  intros (wi & Hwi & Hn) He. destruct (grow_items _ _ (ev_tables _ _ He) _ _ Hwi) as (wi' & Hwi' & Hs).
  exists wi'. split; [done|]. pose proof (si_SignalCount _ _ Hs). lia.
Qed.

(** No increment is lost. *)
Lemma IncrementSignalCount_safe id n (Q : option error -> Sys -> Prop) s : Inv s -> counted id n s ->
  (forall r s', evolves s s' -> Inv s' -> (r = None -> counted id (n + 1) s') -> Q r s') ->
  safe (IncrementSignalCount id) Q s.
Proof.
  intros Hi Hn HQ. apply (withRetry_safe _ _ _ (counted id (n + 1))); [done|by intros ? ?; apply counted_evolves| |done].
  intros s1 He1 Hi1. apply safe_now; [done|]. intros t s2 He2 Hi2.
  apply exec_safe; [done|by etrans|done|by intros ? ?; apply counted_evolves|].
  intros s3 s4 He3 Hi3. cbn [exec_stmt]. unfold update_work_item.
  assert (He03 : evolves s s3) by (etrans; [exact He1|by etrans]).
  destruct (counted_evolves _ _ _ _ Hn He03) as (wi & -> & Hwi). destruct (work_item_ok _); [|done].
  intros Hex. unfold counted. injection Hex as <-. exists (bump_count t wi). cbn. rewrite lookup_insert_eq. split; [done|lia].
Qed.

Lemma CreateRCA_safe rca (Q : option error -> Sys -> Prop) s : Inv s ->
  (forall r s', evolves s s' -> Inv s' -> (r = None -> rcas (tables (seen s')) !! rca_WorkItemID rca = Some (inserted_rca rca)) -> Q r s') ->
  safe (CreateRCA rca) Q s.
Proof.
  intros Hi HQ. apply (withRetry_safe _ _ _ (fun s' => rcas (tables (seen s')) !! rca_WorkItemID rca = Some (inserted_rca rca))); [done| | |done].
  - intros s1 s2 Hr He. by apply (grow_rcas _ _ (ev_tables _ _ He)).
  - intros s1 He1 Hi1. apply exec_safe; [done|done|done| |].
    + intros s2 s3 Hr He. by apply (grow_rcas _ _ (ev_tables _ _ He)).
    + intros s2 s3 _ _. cbn [exec_stmt]. cbv zeta. case_match; [|done]. intros Hex. injection Hex as <-. cbn. by rewrite lookup_insert_eq.
Qed.

(** A query or a call whose reply changes nothing that matters. *)
Lemma read_safe {B A} (e : ext B) (k : B -> A) (Q : A -> Sys -> Prop) s : Inv s ->
  (forall s1 b s2, allowed e (seen s1) b (seen s2) -> read_at (seen s1) (seen s2)) ->
  (forall a s', evolves s s' -> Inv s' -> Q a s') ->
  safe (Step (Ext e) (fun b => Ret (k b))) Q s.
Proof.
  intros Hi Hr HQ. apply safe_call; [done|]. intros s1 b s2 Hs1 Hi1 Ha Hm.
  destruct (Hr s1 b s2 Ha) as (t & Ht & Hv). split; [by eapply evolves_read|].
  intros Hs2 Hi2. apply safe_ret. intros s3 Hs3. apply HQ; [by etrans|by apply (ev_inv _ _ Hs3)].
Qed.

Lemma read_same s1 s2 : seen s2 = seen s1 -> read_at (seen s1) (seen s2).
Proof. intros ->. exists (clock (seen s1)). split; [done|]. by destruct (seen s1). Qed.

Lemma list_items_safe active (Q : list WorkItem * option error -> Sys -> Prop) s : Inv s ->
  (forall r s', evolves s s' -> Inv s' -> Q r s') -> safe (list_items active) Q s.
Proof. intros Hi HQ. apply read_safe; [done| |done]. intros s1 b s2 [Hv _]. by apply read_same. Qed.

Lemma GetDashboardCounts_safe (Q : counts * option error -> Sys -> Prop) s : Inv s ->
  (forall r s', evolves s s' -> Inv s' -> Q r s') -> safe GetDashboardCounts Q s.
Proof. intros Hi HQ. apply read_safe; [done| |done]. intros s1 b s2 [Hv _]. by apply read_same. Qed.

(** *** Redis *)

(** A SET or DEL: it happens, with or without the process knowing, or it does not. *)
Lemma redis_write_safe {B} (e : ext B) (Q : B -> Sys -> Prop) s : Inv s ->
  (forall s1 b s2, evolves s s1 -> Inv s1 -> allowed e (seen s1) b (seen s2) -> mem s2 = mem s1 -> evolves s1 s2) ->
  (forall r s', evolves s s' -> Inv s' -> Q r s') -> safe (call e) Q s.
Proof.
  intros Hi Hw HQ. apply safe_call; [done|]. intros s1 b s2 Hs1 Hi1 Ha Hm. split; [by eapply Hw|].
  intros Hs2 Hi2. apply safe_ret. intros s3 Hs3. apply HQ; [by etrans|by apply (ev_inv _ _ Hs3)].
Qed.

Lemma evolves_set s1 s2 key value ttl r :
  (forall cid, debounce_key cid = key -> known (tables (seen s1)) value) ->
  allowed (RdSet key value ttl) (seen s1) r (seen s2) -> mem s2 = mem s1 -> evolves s1 s2.
Proof.
  intros Hk (t & Ht & Hw) Hm. assert (Happ : forall v, seen s2 = v ->
    v = with_redis (<[key := mkRedisEntry (RStr value) (Some (t + ttl))]> (redis (seen s1))) (at_time t (seen s1)) -> evolves s1 s2).
  { intros v Hv ->. eapply evolves_redis; [exact Ht|exact Hv|done|].
    intros cid e. rewrite lookup_insert_Some. intros [[Hkey <-]|[_ He]]; [right|left].
    - exists value. split; [done|by apply (Hk cid)].
    - by exists e. }
  destruct r as [err|]; cbn in Hw; [destruct Hw as [Hv|[= Hv]]; [by apply evolves_same|]|injection Hw as Hv].
  all: by eapply Happ.
Qed.

Lemma InvalidateDashboard_safe (Q : option error -> Sys -> Prop) s : Inv s ->
  (forall r s', evolves s s' -> Inv s' -> Q r s') -> safe InvalidateDashboard Q s.
Proof.
  intros Hi. apply redis_write_safe; [done|]. intros s1 r s2 _ _ Hw Hm.
  assert (Happ : seen s2 = with_redis (delete dashboardKey (redis (seen s1))) (seen s1) -> evolves s1 s2).
  { intros Hv. apply (evolves_redis _ _ (delete dashboardKey (redis (seen s1))) (clock (seen s1))); [done|by rewrite Hv; destruct (seen s1)|done|].
    intros cid e. rewrite lookup_delete_Some. intros [_ He]. left. by exists e. }
  destruct r as [err|]; cbn in Hw; [destruct Hw as [Hv|[= Hv]]; [by apply evolves_same|]|injection Hw as Hv].
  all: by apply Happ.
Qed.

Lemma SetDebounceEntry_safe cid wid (Q : option error -> Sys -> Prop) s : Inv s -> known (tables (seen s)) wid ->
  (forall r s', evolves s s' -> Inv s' -> Q r s') -> safe (SetDebounceEntry cid wid) Q s.
Proof.
  intros Hi Hk. apply redis_write_safe; [done|]. intros s1 r s2 He1 _ Ha Hm.
  eapply evolves_set; [|exact Ha|done]. intros _ _. by eapply known_evolves.
Qed.

Lemma GetDebounceEntry_safe cid (Q : string * option error -> Sys -> Prop) s : Inv s ->
  (forall r s', evolves s s' -> Inv s' -> (r.1 <> "" -> known (tables (seen s')) r.1) -> Q r s') ->
  safe (GetDebounceEntry cid) Q s.
Proof.
  intros Hi HQ. apply safe_call; [done|]. intros s1 r s2 Hs1 Hi1 [(t & Ht & Hv) Hr] Hm.
  split; [by eapply evolves_read|]. intros Hs2 Hi2. apply safe_ret. intros s3 Hs3.
  apply HQ; [by etrans|by apply (ev_inv _ _ Hs3)|].
  destruct r as [err|[val|]]; cbn; try done. intros _. eapply known_evolves; [|exact Hs3].
  symmetry in Hr. apply fmap_Some in Hr as (v & Hl & ->). unfold live in Hl.
  destruct (redis (seen s1) !! debounce_key cid) as [[v' exp]|] eqn:He; [|done].
  destruct (inv_redis _ Hi1 cid _ He) as (wid & Hw & Hk). cbn in Hw. subst v'.
  assert (v = RStr wid) as -> by (destruct exp as [exp|]; [destruct (_ <? _); [|done]|]; congruence).
  by rewrite Hv.
Qed.

Lemma SetDashboardState_safe `{Formats} ds (Q : option error -> Sys -> Prop) s : Inv s ->
  (forall r s', evolves s s' -> Inv s' -> Q r s') -> safe (SetDashboardState ds) Q s.
Proof.
  intros Hi HQ. unfold SetDashboardState. destruct (marshal ds) as [err|data].
  - apply safe_ret. intros s' Hs'. apply HQ; [done|by apply (ev_inv _ _ Hs')].
  - apply redis_write_safe; [done| |done]. intros s1 r s2 _ _ Ha Hm. eapply evolves_set; [|exact Ha|done].
    intros cid Hc. by destruct (debounce_key_ne_dashboard cid).
Qed.

Lemma IncrementSignalCounter_safe (Q : option error -> Sys -> Prop) s : Inv s ->
  (forall r s', evolves s s' -> Inv s' -> Q r s') -> safe IncrementSignalCounter Q s.
Proof.
  intros Hi HQ. apply safe_now; [done|]. intros t s1 He1 Hi1. apply redis_write_safe; [done| |intros; apply HQ; [by etrans|done]].
  intros s2 r s3 _ _ (t' & Ht & Hw) Hm. set (key := throughput_key (Unix t)) in *.
  assert (Happ : forall r', seen s3 = with_redis r' (at_time t' (seen s2)) ->
    (forall cid, r' !! debounce_key cid = redis (seen s2) !! debounce_key cid) -> evolves s2 s3).
  { intros r' Hv Hr'. eapply evolves_redis; [exact Ht|exact Hv|done|].
    intros cid e. rewrite Hr'. intros He. left. by exists e. }
  assert (Hins : forall e cid, <[key := e]> (redis (seen s2)) !! debounce_key cid = redis (seen s2) !! debounce_key cid).
  { intros e cid. rewrite lookup_insert_ne; [done|]. intros Hk. by apply (debounce_key_ne_throughput cid (Unix t)). }
  destruct (incr_entry t' (redis (seen s2)) key) as [e|].
  - destruct Hw as [Hw|[_ Hv]]; [|by eapply Happ].
    destruct r as [err|]; cbn in Hw; [destruct Hw as [Hv|[= Hv]]; [by apply evolves_same|]|injection Hw as Hv].
    all: by eapply Happ.
  - destruct Hw as [_ [Hv|Hv]]; [by apply evolves_same|]. eapply Happ; [exact Hv|].
    intros cid. apply lookup_alter_ne. intros Hk. by apply (debounce_key_ne_throughput cid (Unix t)).
Qed.

Lemma GetSignalsPerSecond_safe `{Formats} (Q : float64 * option error -> Sys -> Prop) s : Inv s ->
  (forall r s', evolves s s' -> Inv s' -> Q r s') -> safe GetSignalsPerSecond Q s.
Proof.
  intros Hi HQ. apply safe_now; [done|]. intros t s1 He1 Hi1. apply read_safe; [done| |intros; apply HQ; [by etrans|done]].
  by intros s2 b s3 [Hr _].
Qed.

(** *** MongoDB *)

Lemma InsertSignal_safe sig (Q : option error -> Sys -> Prop) s : Inv s ->
  (forall r s', evolves s s' -> Inv s' -> (r = None -> docs (seen s') !! sig_ID sig = Some (bson_signal sig)) -> Q r s') ->
  safe (InsertSignal sig) Q s.
Proof.
  intros Hi HQ. set (stored := fun s' => docs (seen s') !! sig_ID sig = Some (bson_signal sig)).
  assert (Hst : forall s1 s2, stored s1 -> evolves s1 s2 -> stored s2).
  { intros s1 s2 Hs He. by apply (ev_docs _ _ He). }
  apply (withRetry_safe _ _ _ stored); [done|exact Hst| |done].
  intros s1 He1 Hi1. apply safe_call; [done|]. intros s2 r s3 He2 Hi2 Hw Hm. cbn in Hw.
  assert (Happ : docs (seen s2) !! sig_ID sig = None -> seen s3 = with_docs (<[sig_ID sig := bson_signal sig]> (docs (seen s2))) (seen s2) ->
    evolves s2 s3 /\ stored s3).
  { intros Hn Hv. split; [|unfold stored; by rewrite Hv; cbn; rewrite lookup_insert_eq].
    eapply evolves_docs; [exact Hv|done|]. intros id x Hx. rewrite lookup_insert_ne; [done|congruence]. }
  assert (He : evolves s2 s3 /\ (r = None -> stored s3)).
  { destruct (decide (docs (seen s2) !! sig_ID sig = None)) as [Hn|]; destruct r as [err|]; cbn in Hw.
    - destruct Hw as [Hv|[= Hv]]; [split; [by apply evolves_same|done]|]. by destruct (Happ Hn (eq_sym Hv)).
    - injection Hw as Hv. by destruct (Happ Hn (eq_sym Hv)).
    - destruct Hw as [Hv|]; [|done]. split; [by apply evolves_same|done].
    - done. }
  destruct He as [He Hr]. split; [done|]. intros He3 Hi3. apply safe_ret. intros s4 He4.
  split; [etrans; [exact He1|by etrans]|]. split; [by apply (ev_inv _ _ He4)|].
  intros Hn. eapply Hst; [by apply Hr|done].
Qed.
Lemma GetSignals_safe wid (Q : list Signal * option error -> Sys -> Prop) s : Inv s ->
  (forall r s', evolves s s' -> Inv s' -> Q r s') -> safe (GetSignalsByWorkItemID wid) Q s.
Proof. intros Hi HQ. apply read_safe; [done| |done]. intros s1 b s2 [Hv _]. by apply read_same. Qed.

Lemma GetDashboardState_safe `{Formats} (Q : option DashboardState * option error -> Sys -> Prop) s : Inv s ->
  (forall r s', evolves s s' -> Inv s' -> Q r s') -> safe GetDashboardState Q s.
Proof. intros Hi HQ. apply read_safe; [done| |done]. by intros s1 b s2 [Hr _]. Qed.
End StoreSafety.

(** The operations of the stores, for [walk]. *)
Ltac store_op := first
  [ apply GetWorkItem_safe | apply GetRCA_safe | apply list_items_safe | apply GetDashboardCounts_safe
  | apply GetSignalsPerSecond_safe | apply SetDashboardState_safe | apply InvalidateDashboard_safe
  | apply SetDebounceEntry_safe | apply GetDebounceEntry_safe | apply UpdateWorkItemSeverity_safe
  | apply IncrementSignalCounter_safe | apply GetSignals_safe | apply GetDashboardState_safe ].
