(* ===== verification/Machine.v ===== *)
(** The workflow engine: [backend/internal/workflow/machine.go]. *)
From S2P Require Import Prelude Float64 GoTime Models Queue RateLimiter Tables Prog Services Retry.
From S2P Require Import Postgres RedisStore Mongo StatePattern Invariant StoreSafety.
Local Open Scope string_scope.
Local Open Scope Z_scope.

(** A method call or field access through a nil pointer. *)
Definition nil_deref {E A} : prog E A := Panic "invalid memory address or nil pointer dereference".

(** [fmt]'s [%v] on a slice of strings. *)
Definition print_states (l : list WorkItemState) : string := "[" +:+ String.concat " " l +:+ "]".

Definition invalid_transition (from to : WorkItemState) (valid : list WorkItemState) : error :=
  EWrap "" (ESentinel ErrInvalidTransition)
    (": " +:+ from +:+ " → " +:+ to +:+ " (valid: " +:+ print_states valid +:+ ")").

(** Step 3 of [Transition]: the MTTR, for a transition to CLOSED. *)
Definition closing_mttr (workItemID : string) (toState : WorkItemState) : io (error + option float64) :=
  if bool_decide (toState = StateClosed) then
    r <-- GetRCAByWorkItemID workItemID;;
    let '(rca, err) := r in
    match err with
    | Some err => Ret (inl (EWrap "workflow: fetch RCA: " err ""))
    | None =>
        match rca with
        | None => Ret (inl (ESentinel ErrRCARequiredForClose))
        | Some rca =>
            match Validate rca with
            | Some e => Ret (inl (EWrap "" (ESentinel ErrRCARequiredForClose) (": " +:+ Error (ESentinel e))))
            | None => Ret (inr (Some (MTTRMinutes rca)))
            end
        end
    end
  else Ret (inr None).

(** Steps 4 to 6: persist, invalidate the cache, read back. *)
Definition persist_transition (workItemID : string) (toState : WorkItemState) (mttr : option float64) :
    io (option WorkItem * option error) :=
  err <-- UpdateWorkItemState workItemID toState mttr;;
  match err with
  | Some err => Ret (None, Some (EWrap "workflow: persist transition: " err ""))
  | None =>
      InvalidateDashboard;;;
      r <-- GetWorkItem workItemID;;
      let '(updated, err) := r in
      match err with
      | Some err => Ret (None, Some err)
      | None => Ret (updated, None)
      end
  end.

Definition Transition (workItemID : string) (toState : WorkItemState) : io (option WorkItem * option error) :=
  r <-- GetWorkItem workItemID;;
  let '(wi, err) := r in
  match err with
  | Some err => Ret (None, Some err)
  | None =>
      match wi with
      | None => nil_deref
      | Some wi =>
          currentState <-- stateFor (wi_State wi);;
          if negb (CanTransitionTo currentState toState)
          then Ret (None, Some (invalid_transition (wi_State wi) toState (ValidTransitions currentState)))
          else
            mttr <-- closing_mttr workItemID toState;;
            match mttr with
            | inl err => Ret (None, Some err)
            | inr mttr => persist_transition workItemID toState mttr
            end
      end
  end.

(** The pointer [rca] is filled with the submission time: the result carries its final value. *)
Definition set_submitted (t : Time) (r : RCA) : RCA :=
  mkRCA (rca_ID r) (rca_WorkItemID r) (rca_IncidentStart r) (rca_IncidentEnd r) (rca_RootCauseCategory r)
    (rca_RootCauseDetail r) (rca_FixApplied r) (rca_PreventionSteps r) (rca_SubmittedBy r) t.

Definition SubmitRCA (rca : RCA) : io (RCA * option error) :=
  match Validate rca with
  | Some e => Ret (rca, Some (ESentinel e))
  | None =>
      r <-- GetWorkItem (rca_WorkItemID rca);;
      let '(wi, err) := r in
      match err with
      | Some err => Ret (rca, Some err)
      | None =>
          match wi with
          | None => nil_deref
          | Some wi =>
              if bool_decide (wi_State wi = StateOpen) || bool_decide (wi_State wi = StateClosed)
              then Ret (rca, Some (EText ("workflow: RCA can only be submitted when state is INVESTIGATING or RESOLVED, current state: " +:+ wi_State wi)))
              else
                r <-- GetRCAByWorkItemID (rca_WorkItemID rca);;
                let '(existing, err) := r in
                match err, existing with
                | Some err, _ => Ret (rca, Some (EWrap "workflow: check existing RCA: " err ""))
                | None, Some _ => Ret (rca, Some (EText ("workflow: RCA already submitted for work item " +:+ rca_WorkItemID rca)))
                | None, None =>
                    t <-- now;;
                    let rca := set_submitted t rca in
                    err <-- CreateRCA rca;;
                    match err with
                    | Some err => Ret (rca, Some (EWrap "workflow: persist RCA: " err ""))
                    | None => Ret (rca, None)
                    end
                end
          end
      end
  end.

Definition GetValidTransitions (workItemID : string) : io (list WorkItemState * option error) :=
  r <-- GetWorkItem workItemID;;
  let '(wi, err) := r in
  match err, wi with
  | Some err, _ => Ret ([], Some err)
  | None, None => nil_deref
  | None, Some wi => st <-- stateFor (wi_State wi);; Ret (ValidTransitions st, None)
  end.

Definition GetValidTransitionsSync (state : WorkItemState) : io (list WorkItemState) :=
  st <-- stateFor state;; Ret (ValidTransitions st).

(** ** The specification *)

(** What a transition does to the row, at time [t]. *)
Definition transition_row (to : WorkItemState) (t : Time) (r : option RCA) (wi : WorkItem) : WorkItem :=
  if bool_decide (to = StateResolved) then set_resolved to t wi
  else if bool_decide (to = StateClosed) then set_closed to t (MTTRMinutes <$> r) wi
  else set_state to t wi.

(** The contract of the engine: a transition to the successor state in the life cycle, and to
    CLOSED only with a complete RCA; otherwise the reason of the refusal. *)
Definition transition_spec (T : Tables) (id : string) (to : WorkItemState) : Sentinel + (Time -> Tables) :=
  match work_items T !! id with
  | None => inl ErrWorkItemNotFound
  | Some wi =>
      if decide (follows (wi_State wi) to) then
        let moved r := inr (fun t => mkTables (<[id := transition_row to t r wi]> (work_items T)) (rcas T) (timeseries T)) in
        if decide (to = StateClosed) then
          match rcas T !! id with
          | Some r => if decide (complete_RCA r) then moved (Some r) else inl ErrRCARequiredForClose
          | None => inl ErrRCARequiredForClose
          end
        else moved None
      else inl ErrInvalidTransition
  end.

(** The error that says so. *)
Definition refusal (T : Tables) (id : string) (to : WorkItemState) : error :=
  match work_items T !! id with
  | None => ESentinel ErrWorkItemNotFound
  | Some wi =>
      if decide (follows (wi_State wi) to) then
        match rcas T !! id ≫= Validate with
        | Some e => EWrap "" (ESentinel ErrRCARequiredForClose) (": " +:+ sentinel_text e)
        | None => ESentinel ErrRCARequiredForClose
        end
      else invalid_transition (wi_State wi) to
             match stateRegistry !! wi_State wi with Some impl => ValidTransitions impl | None => [] end
  end.

Lemma refusal_Is T id to reason : transition_spec T id to = inl reason -> errors_Is (refusal T id to) reason = true.
Proof.
  unfold transition_spec, refusal. destruct (work_items T !! id) as [wi|]; [|by intros [= <-]].
  destruct (decide (follows (wi_State wi) to)); [|by intros [= <-]].
  destruct (decide (to = StateClosed)); [|done].
  destruct (rcas T !! id) as [r|]; [|by intros [= <-]]. cbn. destruct (decide (complete_RCA r)) as [Hc|]; [done|].
  intros [= <-]. by destruct (Validate r).
Qed.

Lemma transition_row_ok to t r wi : work_item_ok wi = true -> state_ok to = true -> work_item_ok (transition_row to t r wi) = true.
Proof.
  unfold work_item_ok, transition_row. rewrite !andb_true_iff. intros [[[H1 _] H2] H3] Hto.
  by repeat case_bool_decide; cbn.
Qed.

Lemma follows_state_ok s t : follows s t -> state_ok t = true.
Proof. by intros [[_ ->]|[[_ ->]|[_ ->]]]%follows_cases. Qed.

(** The statement [UpdateWorkItemState] executes. *)
Definition update_stmt (id : string) (state : WorkItemState) (mttr : option float64) (t : Time) : Stmt :=
  if bool_decide (state = StateResolved) then SetResolved id state t
  else if bool_decide (state = StateClosed) then SetClosed id state t mttr
  else SetState id state t.

Lemma update_stmt_eq id state mttr (t : Time) :
  (if bool_decide (state = StateResolved) then call (PgExec (SetResolved id state t))
   else if bool_decide (state = StateClosed) then call (PgExec (SetClosed id state t mttr))
   else call (PgExec (SetState id state t))) = call (PgExec (update_stmt id state mttr t)).
Proof. unfold update_stmt. by repeat case_bool_decide. Qed.

Lemma update_stmt_exec T id wi to t r :
  work_items T !! id = Some wi -> work_item_ok wi = true -> state_ok to = true ->
  exec_stmt (update_stmt id to (MTTRMinutes <$> r) t) T =
    Some (mkTables (<[id := transition_row to t r wi]> (work_items T)) (rcas T) (timeseries T)).
Proof.
  intros Hwi Hok Hto. pose proof (transition_row_ok to t r wi Hok Hto) as Hrow.
  unfold update_stmt, transition_row in *.
  repeat case_bool_decide; cbn [exec_stmt]; unfold update_work_item; by rewrite Hwi, Hrow.
Qed.

Section Sequential.
Context `{FaultFree}.

(** A first attempt that succeeds ends the loop. *)
Lemma withRetry_fine store op fn (Q : Sys -> Prop) s :
  sees fn (fun r s' => r = None /\ Q s') s -> sees (withRetry store op fn) (fun r s' => r = None /\ Q s') s.
Proof.
  intros Hfn. unfold withRetry. cbn [retry_loop]. apply sees_bind.
  eapply sees_mono; [|exact Hfn]. intros r s' [-> HQ]. by apply sees_ret.
Qed.

Lemma GetWorkItem_fine id (Q : option WorkItem * option error -> Sys -> Prop) s :
  (forall s', seen s' = seen s -> mem s' = mem s ->
    Q match work_items (tables (seen s)) !! id with
      | Some wi => (Some wi, None)
      | None => (None, Some (ESentinel ErrWorkItemNotFound))
      end s') ->
  sees (GetWorkItem id) Q s.
Proof.
  intros HQ. apply sees_call_fine. intros r s' [Hv Hr] Hf Hm. apply sees_ret. specialize (HQ s' Hv Hm).
  destruct r as [wi| |p err]; [by rewrite Hr in HQ..|by destruct (Hf p err)].
Qed.

Lemma GetRCA_fine id (Q : option RCA * option error -> Sys -> Prop) s :
  (forall s', seen s' = seen s -> mem s' = mem s -> Q (rcas (tables (seen s)) !! id, None) s') ->
  sees (GetRCAByWorkItemID id) Q s.
Proof.
  intros HQ. apply sees_call_fine. intros r s' [Hv Hr] Hf Hm. apply sees_ret. specialize (HQ s' Hv Hm).
  destruct r as [rca| |p err]; [by rewrite Hr in HQ..|by destruct (Hf p err)].
Qed.

Lemma UpdateWorkItemState_fine id to r wi s (Q : option error -> Sys -> Prop) :
  work_items (tables (seen s)) !! id = Some wi -> work_item_ok wi = true -> state_ok to = true ->
  (forall t s', clock (seen s) <= t ->
     tables (seen s') = mkTables (<[id := transition_row to t r wi]> (work_items (tables (seen s)))) (rcas (tables (seen s))) (timeseries (tables (seen s))) ->
     Q None s') ->
  sees (UpdateWorkItemState id to (MTTRMinutes <$> r)) Q s.
Proof.
  intros Hwi Hok Hto HQ. eapply sees_mono; [|apply (withRetry_fine _ _ _ (fun s' => Q None s'))]; [by intros r' s' [-> ?]|].
  apply sees_call. intros t s1 [Ht Hv] _. cbn [bind]. rewrite update_stmt_eq.
  assert (HT : tables (seen s1) = tables (seen s)) by (by rewrite Hv).
  eapply sees_exec_fine; [rewrite HT; by apply update_stmt_exec|].
  intros s2 Hv2 _. apply sees_ret. split; [done|]. apply (HQ t); [done|]. by rewrite Hv2.
Qed.

Lemma closing_mttr_fine id to s (Q : error + option float64 -> Sys -> Prop) :
  (forall s', seen s' = seen s ->
    Q (if decide (to = StateClosed) then
         match rcas (tables (seen s)) !! id with
         | None => inl (ESentinel ErrRCARequiredForClose)
         | Some r =>
             match Validate r with
             | Some e => inl (EWrap "" (ESentinel ErrRCARequiredForClose) (": " +:+ sentinel_text e))
             | None => inr (MTTRMinutes <$> Some r)
             end
         end
       else inr (MTTRMinutes <$> None)) s') ->
  sees (closing_mttr id to) Q s.
Proof.
  intros HQ. unfold closing_mttr. case_bool_decide as Hto; [|rewrite decide_False in HQ by done; by apply sees_ret, HQ].
  rewrite decide_True in HQ by done. apply sees_bind, GetRCA_fine. intros s' Hv _. specialize (HQ s' Hv).
  destruct (rcas (tables (seen s)) !! id) as [r|]; [|by apply sees_ret].
  by destruct (Validate r); apply sees_ret.
Qed.

Lemma persist_fine id to r wi s :
  work_items (tables (seen s)) !! id = Some wi -> work_item_ok wi = true -> state_ok to = true ->
  sees (persist_transition id to (MTTRMinutes <$> r)) (fun res s' =>
    exists t, clock (seen s) <= t /\
      tables (seen s') = mkTables (<[id := transition_row to t r wi]> (work_items (tables (seen s)))) (rcas (tables (seen s))) (timeseries (tables (seen s))) /\
      res = (Some (transition_row to t r wi), None)) s.
Proof.
  intros Hwi Hok Hto. unfold persist_transition. apply sees_bind. eapply UpdateWorkItemState_fine; [done..|].
  intros t s1 Ht HT. apply sees_bind, sees_call_fine. intros d s2 Hd Hf Hm.
  assert (HT2 : tables (seen s2) = tables (seen s1)).
  { cbn in Hd. destruct d as [err|]; [destruct Hd as [->|[= <-]]|injection Hd as <-]; done. }
  apply sees_ret. apply sees_bind, GetWorkItem_fine. intros s3 Hv3 _. rewrite HT2, HT. cbn.
  rewrite lookup_insert_eq. apply sees_ret. exists t. split; [done|]. split; [by rewrite Hv3, HT2|done].
Qed.

(** With the exact error. *)
Lemma Transition_fine id to s :
  tables_ok (tables (seen s)) ->
  sees (Transition id to) (fun r s' =>
    match transition_spec (tables (seen s)) id to with
    | inl _ => tables (seen s') = tables (seen s) /\ r = (None, Some (refusal (tables (seen s)) id to))
    | inr moved => exists t, clock (seen s) <= t /\ tables (seen s') = moved t /\
        r = (work_items (moved t) !! id, None)
    end) s.
Proof.
  intros Hok. unfold Transition, transition_spec, refusal. apply sees_bind, GetWorkItem_fine. intros s1 Hv1 _.
  destruct (work_items (tables (seen s)) !! id) as [wi|] eqn:Hwi.
  2: { apply sees_ret. split; [by rewrite Hv1|done]. }
  pose proof (tok_row _ Hok _ _ Hwi) as Hrow.
  assert (Hst : state_ok (wi_State wi) = true).
  { unfold work_item_ok in Hrow. rewrite !andb_true_iff in Hrow. apply Hrow. }
  destruct (stateFor_known (E := eff) (wi_State wi) Hst) as (impl & -> & Hreg). cbn [bind].
  pose proof (CanTransitionTo_follows _ _ to Hreg) as Hcan.
  destruct (CanTransitionTo impl to); cbn [negb].
  2: { destruct (decide (follows (wi_State wi) to)) as [Hf|_]; [by apply Hcan in Hf|].
    apply sees_ret. split; [by rewrite Hv1|by rewrite Hreg]. }
  destruct (decide (follows (wi_State wi) to)) as [_|Hf]; [|by destruct Hf; apply Hcan]. pose proof (follows_state_ok _ _ (proj1 Hcan eq_refl)) as Hto.
  apply sees_bind, closing_mttr_fine. intros s2 Hv2.
  assert (Hpersist : forall r, sees (persist_transition id to (MTTRMinutes <$> r)) (fun res s' =>
    exists t, clock (seen s) <= t /\
      tables (seen s') = mkTables (<[id := transition_row to t r wi]> (work_items (tables (seen s)))) (rcas (tables (seen s))) (timeseries (tables (seen s))) /\
      res = (work_items (mkTables (<[id := transition_row to t r wi]> (work_items (tables (seen s)))) (rcas (tables (seen s))) (timeseries (tables (seen s)))) !! id, None)) s2).
  { intros r. eapply sees_mono; [|apply (persist_fine id to r wi); rewrite ?Hv2, ?Hv1; done].
    intros res s' (t & Ht & HT & ->). rewrite Hv2, Hv1 in *. exists t. cbn. by rewrite lookup_insert_eq. }
  rewrite Hv1. destruct (decide (to = StateClosed)) as [->|Hne]; [|apply (Hpersist None)].
  destruct (rcas (tables (seen s)) !! id) as [r|].
  2: { apply sees_ret. split; [by rewrite Hv2, Hv1|done]. }
  pose proof (Validate_complete r) as Hval. destruct (Validate r) as [e|] eqn:He.
  - rewrite decide_False by (intros Hc; by apply Hval in Hc). apply sees_ret.
    split; [by rewrite Hv2, Hv1|]. cbn. by rewrite He.
  - rewrite decide_True by (by apply Hval). apply (Hpersist (Some r)).
Qed.

(** C16. In a fault-free deployment, run on its own, [Transition] implements its contract: it
    returns the updated work item and has applied the transition at some later instant, exactly
    when the target is the successor state in the life cycle and, for CLOSED, a complete RCA is
    stored (its MTTR is then recorded); otherwise it changes no table and returns an error that
    wraps the sentinel of the reason. It never panics. *)
Theorem Transition_refines id to s :
  tables_ok (tables (seen s)) ->
  sees (Transition id to) (fun r s' =>
    match transition_spec (tables (seen s)) id to with
    | inl reason => tables (seen s') = tables (seen s) /\
        exists e, r = (None, Some e) /\ errors_Is e reason = true
    | inr moved => exists t, clock (seen s) <= t /\ tables (seen s') = moved t /\
        r = (work_items (moved t) !! id, None)
    end) s.
Proof.
  intros Hok. eapply sees_mono; [|by apply Transition_fine]. intros r s' Hr.
  destruct (transition_spec (tables (seen s)) id to) as [reason|moved] eqn:Hspec; [|done].
  destruct Hr as [HT ->]. split; [done|]. eexists. split; [done|by apply refusal_Is].
Qed.
End Sequential.

(** ** Under interference *)

Section Concurrent.
Context `{World}.

Lemma closing_mttr_safe id to (Q : error + option float64 -> Sys -> Prop) s : Inv s ->
  (forall r s', evolves s s' -> Inv s' -> (forall mttr, r = inr mttr -> closable id to mttr s') -> Q r s') ->
  safe (closing_mttr id to) Q s.
Proof.
  intros Hi HQ.
  assert (Hret : forall r s1, evolves s s1 -> Inv s1 -> (forall mttr, r = inr mttr -> closable id to mttr s1) -> safe (Ret r) Q s1).
  { intros r s1 He Hi1 Hc. apply safe_ret. intros s2 He2. apply HQ; [by etrans|by apply (ev_inv _ _ He2)|].
    intros mttr Hr. eapply closable_evolves; [by apply Hc|done]. }
  unfold closing_mttr. case_bool_decide as Hto; [|apply Hret; [done|done|by intros ? _ ?]].
  apply safe_bind, GetRCA_safe; [done|]. intros [[rca|] [err|]] s1 He1 Hi1 Hr; try (by apply Hret).
  pose proof (Validate_complete rca) as Hval. destruct (Validate rca) as [e|]; [by apply Hret|].
  apply Hret; [done|done|]. intros mttr [= <-] _. exists rca. split; [done|]. split; [by apply Hval|done].
Qed.

(** Either the work item or an error is returned. *)
Definition item_or_error (r : option WorkItem * option error) : Prop :=
  (exists wi, r = (Some wi, None)) \/ exists err, r = (None, Some err).

Lemma persist_safe id to mttr s : Inv s -> closable id to mttr s ->
  safe (persist_transition id to mttr) (fun r _ => item_or_error r) s.
Proof.
  intros Hi Hc. apply safe_bind, UpdateWorkItemState_safe; [done|done|]. intros [err|] s1 He1 Hi1.
  { apply safe_ret. intros _ _. right. by eexists. }
  apply safe_bind, InvalidateDashboard_safe; [done|]. intros _ s2 He2 Hi2.
  apply safe_bind, GetWorkItem_safe; [done|]. intros [[wi|] [err|]] s3 He3 Hi3 Hgot; try done; apply safe_ret; intros _ _.
  - right. by eexists.
  - left. by eexists.
  - right. by eexists.
Qed.

Lemma Transition_safe id to s : Inv s -> safe (Transition id to) (fun r _ => item_or_error r) s.
Proof.
  intros Hi. apply safe_bind, GetWorkItem_safe; [done|]. intros [[wi|] [err|]] s1 He1 Hi1 Hgot; try done.
  - apply safe_ret. intros _ _. right. by eexists.
  - destruct Hgot as (_ & _ & Hok). unfold work_item_ok in Hok. rewrite !andb_true_iff in Hok.
    destruct Hok as [[[_ Hst] _] _].
    destruct (stateFor_known (E := eff) (wi_State wi) Hst) as (impl & -> & _). cbn [bind].
    destruct (negb (CanTransitionTo impl to)); [apply safe_ret; intros _ _; right; by eexists|].
    apply safe_bind, closing_mttr_safe; [done|]. intros [err|mttr] s2 He2 Hi2 Hc.
    + apply safe_ret. intros _ _. right. by eexists.
    + apply persist_safe; [done|by apply Hc].
  - apply safe_ret. intros _ _. right. by eexists.
Qed.

Lemma SubmitRCA_ok rca s : Inv s ->
  safe (SubmitRCA rca) (fun r s' =>
    r.2 = None ->
    complete_RCA rca /\ exists t, r.1 = set_submitted t rca /\
    rcas (tables (seen s')) !! rca_WorkItemID rca = Some (inserted_rca r.1)) s.
Proof.
  intros Hi. unfold SubmitRCA. pose proof (Validate_complete rca) as Hval.
  destruct (Validate rca) as [e|]; [by apply safe_ret|]. pose proof (proj1 Hval eq_refl) as Hc.
  apply safe_bind, GetWorkItem_safe; [done|]. intros [[wi|] [err|]] s1 He1 Hi1 Hgot; try done; try (by apply safe_ret).
  destruct (_ || _); [by apply safe_ret|].
  apply safe_bind, GetRCA_safe; [done|]. intros [[r|] [err|]] s2 He2 Hi2 _; try (by apply safe_ret).
  apply safe_now; [done|]. intros t s3 He3 Hi3.
  apply safe_bind, CreateRCA_safe; [done|]. intros [err|] s4 He4 Hi4 Hr; [by apply safe_ret|].
  apply safe_ret. intros s5 He5 _. split; [done|]. exists t. split; [done|].
  apply (grow_rcas _ _ (ev_tables _ _ He5)), Hr. done.
Qed.

(** C20. An accepted RCA is complete and durable: whatever the other goroutines and the
    services do, when [SubmitRCA] returns nil the RCA it was given is complete, and it is stored
    for its work item as submitted (up to the precision of the timestamps of PostgreSQL), and
    stays so; [SubmitRCA] never panics. *)
Theorem SubmitRCA_durable rca s : Inv s ->
  safe (SubmitRCA rca) (fun r s' =>
    r.2 = None ->
    complete_RCA rca /\ exists t, r.1 = set_submitted t rca /\
    rcas (tables (seen s')) !! rca_WorkItemID rca = Some (inserted_rca r.1)) s.
Proof. apply SubmitRCA_ok. Qed.
End Concurrent.
