(* ===== verification/Escalator.v ===== *)
(** The auto-escalation of severities: [backend/internal/workflow/escalator.go]. *)
From S2P Require Import Prelude Float64 GoTime Models Queue RateLimiter Tables Prog Services Loops Retry.
From S2P Require Import Postgres RedisStore Mongo Invariant StoreSafety Machine.
Local Open Scope string_scope.
Local Open Scope Z_scope.

Definition escalationInterval : Duration := 60 * Second.
Definition p1EscalationAfter : Duration := 30 * Minute.
Definition p0EscalationAfter : Duration := 60 * Minute.

Definition computeEscalation (current : Severity) (age : Duration) : Severity :=
  if bool_decide (current = SeverityP2) then
    if p1EscalationAfter <=? age then SeverityP1 else current
  else if bool_decide (current = SeverityP1) then
    if p0EscalationAfter <=? age then SeverityP0 else current
  else current.

(** The body of the loop over the items; [escalated] is the counter. *)
Definition escalate_item (t : Time) (wi : WorkItem) (escalated : Z) : io Z :=
  if bool_decide (wi_State wi <> StateInvestigating) then Ret escalated
  else
    let age := Sub t (wi_CreatedAt wi) in
    let newSeverity := computeEscalation (wi_Severity wi) age in
    if bool_decide (newSeverity = wi_Severity wi) then Ret escalated
    else
      err <-- UpdateWorkItemSeverity (wi_ID wi) newSeverity;;
      match err with
      | Some _ => Ret escalated
      | None => InvalidateDashboard;;; Ret (escalated + 1)
      end.

(** [runEscalationCheck]; the result is what it logs. *)
Definition runEscalationCheck : io Z :=
  r <-- ListActiveWorkItems;;
  let '(items, err) := r in
  match err with
  | Some _ => Ret 0
  | None => t <-- now;; foldP (escalate_item t) items 0
  end.

(** One round of the loop of [Start]: the ticker fired. *)
Definition escalator_tick : io unit := runEscalationCheck;;; Ret tt.

(** [Escalator.Start] *)
Definition Escalator_Start (rounds : nat) : io unit := ticker_loop escalationInterval (fun _ _ => escalator_tick) rounds tt.

(** ** Properties *)

(** The escalation policy: from the three severities it yields one of them, never a less
    urgent one, and at most one level more urgent; it escalates exactly the P2 of 30 minutes or
    more and the P1 of 60 minutes or more; and it is monotone in the age. *)
Theorem computeEscalation_spec current age : severity_ok current = true ->
  let new := computeEscalation current age in
  severity_ok new = true /\
  severity_rank current - 1 <= severity_rank new <= severity_rank current /\
  (new <> current <-> (current = SeverityP2 /\ p1EscalationAfter <= age) \/ (current = SeverityP1 /\ p0EscalationAfter <= age)) /\
  (forall age', age <= age' -> severity_rank (computeEscalation current age') <= severity_rank new).
Proof.
  unfold severity_ok. rewrite bool_decide_eq_true, !elem_of_cons, elem_of_nil.
  assert (Hcases : forall a, computeEscalation SeverityP2 a = (if p1EscalationAfter <=? a then SeverityP1 else SeverityP2) /\
    computeEscalation SeverityP1 a = (if p0EscalationAfter <=? a then SeverityP0 else SeverityP1) /\
    computeEscalation SeverityP0 a = SeverityP0) by done.
  intros [->|[->|[->|[]]]]; cbv zeta; destruct (Hcases age) as (E2 & E1 & E0); rewrite ?E2, ?E1, ?E0.
  - do 2 (split; [done|]). split; [intuition (subst; done)|]. intros a _. by destruct (Hcases a) as (_ & _ & ->).
  - destruct (Z.leb_spec p0EscalationAfter age).
    all: do 2 (split; [done|]); split; [intuition (subst; done || lia)|].
    all: intros a Ha; destruct (Hcases a) as (_ & -> & _); destruct (Z.leb_spec p0EscalationAfter a); done || lia.
  - destruct (Z.leb_spec p1EscalationAfter age).
    all: do 2 (split; [done|]); split; [intuition (subst; done || lia)|].
    all: intros a Ha; destruct (Hcases a) as (-> & _); destruct (Z.leb_spec p1EscalationAfter a); done || lia.
Qed.

Lemma computeEscalation_spec_witness :
  computeEscalation SeverityP2 (31 * Minute) <> SeverityP2.
Proof.
  apply (computeEscalation_spec SeverityP2 (31 * Minute)); [reflexivity|left; split; [reflexivity|by vm_compute]].
Defined.

(** The severity a check leaves on a row, from a reading at [t]. *)
Definition escalated_row (t now' : Time) (wi : WorkItem) : WorkItem :=
  let new := computeEscalation (wi_Severity wi) (Sub t (wi_CreatedAt wi)) in
  if bool_decide (wi_State wi = StateInvestigating) && negb (bool_decide (new = wi_Severity wi))
  then set_severity new now' wi else wi.

Section Check.
Context `{FaultFree}.

Lemma work_item_ok_severity wi sev t : work_item_ok wi = true -> severity_ok sev = true -> work_item_ok (set_severity sev t wi) = true.
Proof. unfold work_item_ok. cbn. rewrite !andb_true_iff. by intros (((_ & ?) & ?) & ?) ?. Qed.

(** One item: its row, as read, is still the one of the table. *)
Lemma escalate_item_fine t wi n s :
  work_items (tables (seen s)) !! wi_ID wi = Some wi -> work_item_ok wi = true ->
  sees (escalate_item t wi n) (fun _ s' => exists t',
    clock (seen s) <= t' /\ clock (seen s') = t' /\
    tables (seen s') = mkTables (<[wi_ID wi := escalated_row t t' wi]> (work_items (tables (seen s)))) (rcas (tables (seen s))) (timeseries (tables (seen s)))) s.
Proof.
  intros Hwi Hok. unfold escalate_item, escalated_row.
  assert (Hsame : exists t', clock (seen s) <= t' /\ clock (seen s) = t' /\
    tables (seen s) = mkTables (<[wi_ID wi := wi]> (work_items (tables (seen s)))) (rcas (tables (seen s))) (timeseries (tables (seen s)))).
  { exists (clock (seen s)). do 2 (split; [done|]). rewrite insert_id by done. by destruct (tables (seen s)). }
  destruct (decide (wi_State wi = StateInvestigating)) as [Hst|Hst].
  2: { rewrite bool_decide_true, bool_decide_false by done. by apply sees_ret. }
  rewrite (bool_decide_false (wi_State wi <> _)) by (by intros Hn; apply Hn).
  rewrite (bool_decide_true (wi_State wi = _)) by done. cbn [andb].
  set (new := computeEscalation (wi_Severity wi) (Sub t (wi_CreatedAt wi))).
  destruct (decide (new = wi_Severity wi)) as [Hn|Hn].
  { rewrite !bool_decide_true by done. by apply sees_ret. }
  rewrite !bool_decide_false by done. cbn [negb]. clear Hsame. apply sees_bind.
  assert (Hsev : severity_ok new = true).
  { apply computeEscalation_spec. unfold work_item_ok in Hok. rewrite !andb_true_iff in Hok. apply Hok. }
  eapply sees_mono; [|apply (withRetry_fine _ _ _ (fun s' => exists t', clock (seen s) <= t' /\ clock (seen s') = t' /\
    tables (seen s') = mkTables (<[wi_ID wi := set_severity new t' wi]> (work_items (tables (seen s)))) (rcas (tables (seen s))) (timeseries (tables (seen s)))))].
  - intros r s1 (-> & t' & Ht & Hc & HT). apply sees_bind, sees_call_fine. intros d s2 Hd _ _. do 2 apply sees_ret.
    exists t'. split; [done|]. cbn in Hd.
    destruct d as [err|]; [destruct Hd as [->|[= <-]]|injection Hd as <-]; by cbn.
  - apply sees_call. intros t' s1 [Ht Hv] _. eapply sees_exec_fine.
    + cbn [exec_stmt]. unfold update_work_item. rewrite Hv. cbn.
      rewrite Hwi, work_item_ok_severity by done. done.
    + intros s2 Hv2 _. apply sees_ret. split; [done|]. exists t'. by rewrite Hv2, Hv.
Qed.

Lemma foldP_escalate t items n s T :
  NoDup (wi_ID <$> items) -> Forall (fun wi => work_items (tables (seen s)) !! wi_ID wi = Some wi /\ work_item_ok wi = true) items ->
  tables (seen s) = T ->
  sees (foldP (escalate_item t) items n) (fun _ s' =>
    rcas (tables (seen s')) = rcas T /\ timeseries (tables (seen s')) = timeseries T /\
    forall id, match work_items T !! id with
               | None => work_items (tables (seen s')) !! id = None
               | Some wi => exists t', work_items (tables (seen s')) !! id =
                   Some (if decide (id ∈ wi_ID <$> items) then escalated_row t t' wi else wi)
               end) s.
Proof.
  revert n s T. induction items as [|wi items IH]; intros n s T Hnd Hall HT; cbn [foldP].
  { apply sees_ret. rewrite HT. do 2 (split; [done|]). intros id.
    destruct (work_items T !! id); [|done]. exists 0. by rewrite decide_False by apply not_elem_of_nil. }
  cbn in Hnd. apply NoDup_cons in Hnd as [Hnew Hnd]. apply Forall_cons in Hall as [[Hwi Hok] Hall].
  apply sees_bind. eapply sees_mono; [|by apply escalate_item_fine].
  intros m s1 (t' & _ & _ & HT1). rewrite HT in HT1.
  eapply sees_mono; [|apply (IH m s1 (tables (seen s1)) Hnd); [|done]].
  - intros k s2 (HR & HTs & Hrows). rewrite HR, HTs, HT1. do 2 (split; [done|]). intros id.
    specialize (Hrows id). rewrite HT1 in Hrows. cbn [work_items] in Hrows.
    destruct (decide (wi_ID wi = id)) as [<-|Hne].
    + rewrite lookup_insert_eq in Hrows. rewrite HT in Hwi. rewrite Hwi.
      destruct Hrows as (t2 & ->). exists t'. rewrite decide_False by done. by rewrite decide_True by (cbn; by left).
    + rewrite lookup_insert_ne in Hrows by done. destruct (work_items T !! id) as [w|]; [|done].
      destruct Hrows as (t2 & ->). exists t2. cbn [fmap list_fmap].
      by rewrite (decide_ext _ (id ∈ wi_ID wi :: (wi_ID <$> items))) by (rewrite elem_of_cons; naive_solver).
  - apply Forall_forall. intros w Hw. rewrite Forall_forall in Hall. destruct (Hall w Hw) as [Hw' Hokw].
    split; [|done]. rewrite HT1. cbn. rewrite lookup_insert_ne; [by rewrite <- HT|].
    intros Heq. apply Hnew. rewrite Heq. by apply list_elem_of_fmap_2.
Qed.

Lemma NoDup_fmap_filter {A B} (f : A -> B) (P : A -> Prop) `{!forall a, Decision (P a)} l : NoDup (f <$> l) -> NoDup (f <$> filter P l).
Proof.
  induction l as [|a l IH]; [done|]. cbn [fmap list_fmap]. intros [Hnew Hnd]%NoDup_cons. rewrite filter_cons.
  case_decide; [|by apply IH]. cbn. apply NoDup_cons. split; [|by apply IH].
  intros (b & Hb & Hin)%list_elem_of_fmap. apply Hnew. rewrite Hb. apply list_elem_of_fmap_2.
  by apply list_elem_of_filter in Hin as [_ ?].
Qed.

Lemma NoDup_wi_ID T : tables_ok T -> NoDup (wi_ID <$> (map_to_list (work_items T)).*2).
Proof.
  intros Hok. rewrite <- list_fmap_compose.
  rewrite (list_fmap_ext _ fst); [apply NoDup_fst_map_to_list|].
  intros i [id wi] Hi. cbn. apply (tok_id _ Hok). apply elem_of_map_to_list. by eapply list_elem_of_lookup_2.
Qed.

(** C26. One escalation check, in a fault-free deployment and run on its own: with [t] the
    instant it reads, it raises exactly the INVESTIGATING work items that the policy asks for
    at their age at [t], changes nothing else in any row but the time of the update, creates
    and deletes nothing, and leaves every other table alone. An OPEN work item, however old, keeps
    its row as it is, although the check reads it and docs/architecture.md applies the thresholds
    to OPEN work items too: the code follows the comment of [Escalator], which does not. *)
Theorem runEscalationCheck_spec s : tables_ok (tables (seen s)) ->
  sees runEscalationCheck (fun _ s' =>
    let T := tables (seen s) in
    let T' := tables (seen s') in
    rcas T' = rcas T /\ timeseries T' = timeseries T /\
    exists t, clock (seen s) <= t /\ forall id,
      match work_items T !! id with
      | None => work_items T' !! id = None
      | Some wi => exists t', work_items T' !! id = Some (escalated_row t t' wi) /\
          (wi_State wi <> StateInvestigating -> work_items T' !! id = Some wi)
      end) s.
Proof.
  intros Hok. unfold runEscalationCheck, ListActiveWorkItems, list_items.
  apply sees_call_fine. intros r s1 [Hv Hr] (l & ->) _. cbn [bind rs_rows rs_err].
  destruct Hr as (all & [Hperm _] & Hrows & Hlen). pose proof (rows_complete _ l all eq_refl Hrows (Hlen eq_refl)) as ->.
  assert (Hscan : scan_rows (inr <$> all : list (error + WorkItem)) = (all, None)).
  { clear. induction all as [|w all IH]; cbn; [done|]. by rewrite IH. }
  rewrite Hscan.
  assert (Hin : forall wi, wi ∈ all -> work_items (tables (seen s)) !! wi_ID wi = Some wi /\ work_item_ok wi = true).
  { intros wi Hwi. rewrite Hperm in Hwi. apply list_elem_of_filter in Hwi as [_ Hwi].
    apply list_elem_of_fmap in Hwi as ([id w] & -> & Hwi). apply elem_of_map_to_list in Hwi. cbn.
    rewrite (tok_id _ Hok _ _ Hwi). split; [done|]. by apply (tok_row _ Hok id). }
  assert (Hnd : NoDup (wi_ID <$> all)).
  { rewrite Hperm. by apply NoDup_fmap_filter, NoDup_wi_ID. }
  apply sees_call. intros t s2 [Ht Hv2] _.
  assert (HT : tables (seen s2) = tables (seen s)) by (by rewrite Hv2, Hv). rewrite Hv in Ht.
  eapply sees_mono; [|apply (foldP_escalate t all 0 s2 (tables (seen s))); [done| |done]].
  - intros k s3 (HR & HTs & Hrows'). do 2 (split; [done|]). exists t. split; [done|]. intros id.
    specialize (Hrows' id). destruct (work_items (tables (seen s)) !! id) as [wi|] eqn:Hwi; [|done].
    destruct Hrows' as (t' & ->). exists t'. split; [|unfold escalated_row; intros Hst;
      rewrite (bool_decide_false (wi_State wi = _)) by done; by destruct (decide (id ∈ wi_ID <$> all))].
    destruct (decide (id ∈ wi_ID <$> all)) as [Hd|Hd]; [done|]. unfold escalated_row. rewrite bool_decide_false; [done|]. intros Hst. apply Hd.
    apply list_elem_of_fmap. exists wi. split; [by rewrite (tok_id _ Hok _ _ Hwi)|].
    rewrite Hperm. apply list_elem_of_filter. split.
    + intros _. unfold is_active. apply bool_decide_eq_true. rewrite Hst. right. by left.
    + apply list_elem_of_fmap. exists (id, wi). split; [done|]. by apply elem_of_map_to_list.
  - apply Forall_forall. rewrite HT. exact Hin.
Qed.
End Check.

Section Concurrent.
Context `{World}.

Lemma foldP_safe {A S} (f : A -> S -> io S) l acc s :
  (forall x acc s, Inv s -> safe (f x acc) (fun _ s' => Inv s') s) -> Inv s ->
  safe (foldP f l acc) (fun _ s' => Inv s') s.
Proof.
  intros Hf. revert acc s. induction l as [|x l IH]; intros acc s Hi; cbn [foldP].
  - apply safe_ret. intros s' He. by apply (ev_inv _ _ He).
  - apply safe_bind. eapply safe_mono; [|by apply Hf]. intros acc' s'. by apply IH.
Qed.

Lemma escalate_item_safe t wi n s : Inv s -> safe (escalate_item t wi n) (fun _ s' => Inv s') s.
Proof.
  intros Hi. assert (Hret : forall k s1, Inv s1 -> safe (Ret k : io Z) (fun _ s' => Inv s') s1).
  { intros k s1 Hi1. apply safe_ret. intros s2 He. by apply (ev_inv _ _ He). }
  unfold escalate_item. case_bool_decide; [by apply Hret|]. case_bool_decide; [by apply Hret|].
  apply safe_bind, UpdateWorkItemSeverity_safe; [done|]. intros [err|] s1 _ Hi1; [by apply Hret|].
  apply safe_bind, InvalidateDashboard_safe; [done|]. intros _ s2 _ Hi2. by apply Hret.
Qed.

Lemma escalator_tick_safe s : Inv s -> safe escalator_tick (fun _ s' => Inv s') s.
Proof.
  intros Hi. unfold escalator_tick, runEscalationCheck. apply safe_bind, safe_bind, list_items_safe; [done|].
  intros [items [err|]] s1 _ Hi1; [apply safe_ret_inv; [done|]; intros s2 _ Hi2; by apply safe_ret_inv|]. apply safe_now; [done|]. intros t s2 _ Hi2.
  eapply safe_mono; [|by apply foldP_safe; [intros; apply escalate_item_safe|]].
  intros k s3 Hi3. by apply safe_ret_inv.
Qed.

Lemma Escalator_Start_safe rounds s : Inv s -> safe (Escalator_Start rounds) (fun _ s' => Inv s') s.
Proof. intros Hi. apply safe_ticker_loop; [done|]. intros _ _ s1. apply escalator_tick_safe. Qed.
End Concurrent.
