(* ===== verification/Debounce.v ===== *)
(** The debouncer: [backend/internal/ingestion/debounce.go]. *)
From S2P Require Import Prelude Float64 GoTime Models Queue RateLimiter Tables Prog Services Retry.
From S2P Require Import Postgres RedisStore Mongo Invariant StoreSafety.
Local Open Scope string_scope.
Local Open Scope Z_scope.

(** [d.local.Load] and [d.local.Store], atomic operations of [sync.Map]. *)
Definition local_Load (componentID : string) : io (option string) :=
  perform (Atomic (fun m => (local m !! componentID, m))).
Definition local_Store (componentID workItemID : string) : io unit :=
  perform (Atomic (fun m => (tt, with_local (<[componentID := workItemID]> (local m)) m))).

(** [Resolve]: [componentID] is the signal's; [St] is what the closure [newWorkItemFn] may change
    (the signal it captured). The result is the work item's ID and [isNew], or the error. *)
Definition Resolve {St} (componentID : string) (newWorkItemFn : St -> io (St * (error + WorkItem))) (st : St) :
    io (St * (error + string * bool)) :=
  v <-- local_Load componentID;;
  match v with
  | Some workItemID => Ret (st, inr (workItemID, false))
  | None =>
      r <-- GetDebounceEntry componentID;;
      let '(existingID, _) := r in
      if bool_decide (existingID <> "") then
        local_Store componentID existingID;;;
        Ret (st, inr (existingID, false))
      else
        r <-- newWorkItemFn st;;
        let '(st, r) := r in
        match r with
        | inl err => Ret (st, inl err)
        | inr wi =>
            SetDebounceEntry componentID (wi_ID wi);;;
            local_Store componentID (wi_ID wi);;;
            Ret (st, inr (wi_ID wi, true))
        end
  end.

(** [d.local.Delete] *)
Definition Expire (componentID : string) : io unit :=
  perform (Atomic (fun m => (tt, with_local (delete componentID (local m)) m))).

(** ** On its own *)

Section Sequential.
Context `{World}.

Lemma Resolve_local {St} cid wid (fn : St -> io (St * (error + WorkItem))) st s :
  local (mem s) !! cid = Some wid ->
  sees (Resolve cid fn st) (fun r s' => r = (st, inr (wid, false)) /\ seen s' = seen s /\ mem s' = mem s) s.
Proof.
  intros Hw. apply sees_atomic. intros s' Ho Hm. cbn [fst snd] in *. cbn [bind]. rewrite Hw. apply sees_ret.
  by unfold seen; rewrite Ho.
Qed.

(** A hit is final: once the process has an entry for the component, [Resolve] returns its
    work item without calling the closure, Redis or PostgreSQL, and leaves the whole state as
    it was, whatever the closure is and however long ago the entry was made (the entries of the
    process do not expire). *)
Theorem Resolve_hit {St} cid wid (fn : St -> io (St * (error + WorkItem))) st s :
  local (mem s) !! cid = Some wid ->
  sees (Resolve cid fn st) (fun r s' => r = (st, inr (wid, false)) /\ seen s' = seen s /\ mem s' = mem s) s.
Proof. apply Resolve_local. Qed.

(** [Resolve] run on its own, for any replies of Redis: whatever the way the ID it returns
    was found or made, the next [Resolve] of the component in the process hits it; the ID is
    reported as new only when the process had no entry and the closure made the work item, and
    otherwise the signal is left as it was; an error leaves no entry in the process. *)
Theorem Resolve_registers {St} cid (fn : St -> io (St * (error + WorkItem))) st s (Made : WorkItem -> Prop) :
  (forall s1, mem s1 = mem s -> sees (fn st) (fun r s2 => mem s2 = mem s /\ forall wi, r.2 = inr wi -> Made wi) s1) ->
  sees (Resolve cid fn st) (fun r s' =>
    match r.2 with
    | inr (wid, isNew) =>
        local (mem s') !! cid = Some wid /\
        (isNew = false -> r.1 = st) /\
        (isNew = true -> local (mem s) !! cid = None /\ exists wi, Made wi /\ wi_ID wi = wid)
    | inl _ => local (mem s') = local (mem s) /\ local (mem s) !! cid = None
    end) s.
Proof.
  intros Hfn. apply sees_atomic. intros s1 Ho Hm. cbn [fst snd bind] in *.
  destruct (local (mem s) !! cid) as [wid|] eqn:Hl; [apply sees_ret; cbn; by rewrite Hm|].
  apply sees_bind, sees_call. intros r s2 _ Hm2. apply sees_ret.
  assert (Hstore : forall wid s3 (Q : unit -> Sys -> Prop), (forall s4, local (mem s4) !! cid = Some wid -> Q tt s4) -> sees (local_Store cid wid) Q s3).
  { intros wid s3 Q HQ. apply sees_atomic. intros s4 _ Hm4. apply sees_ret, HQ. rewrite Hm4. cbn. by rewrite lookup_insert_eq. }
  set (existing := match r with inl err => _ | inr None => _ | inr (Some val) => _ end).
  destruct existing as [existingID err]. case_bool_decide as Hne.
  - apply sees_bind, Hstore. intros s3 Hs3. by apply sees_ret.
  - apply sees_bind. eapply sees_mono; [|apply Hfn; congruence].
    intros [st' [e|wi]] s3 (Hm3 & Hmade); [apply sees_ret; cbn; by rewrite Hm3|].
    apply sees_bind, sees_call. intros r' s4 _ Hm4. apply sees_ret.
    apply sees_bind, Hstore. intros s5 Hs5. apply sees_ret. cbn. split; [done|]. split; [done|].
    intros _. split; [done|]. exists wi. split; [by apply Hmade|done].
Qed.
End Sequential.

(** ** Under interference *)

Section Concurrent.
Context `{World}.

Lemma evolves_local s s' l : seen s' = seen s -> mem s' = with_local l (mem s) ->
  (Inv s -> map_Forall (fun _ wid => known (tables (seen s)) wid) l) -> evolves s s'.
Proof.
  intros Hv Hm Hl. constructor; rewrite ?Hv, ?Hm; cbn; try done.
  intros Hi. pose proof (Hl Hi). destruct Hi. by constructor; rewrite ?Hv, ?Hm.
Qed.

Lemma local_Store_safe cid wid (Q : unit -> Sys -> Prop) s : Inv s -> known (tables (seen s)) wid ->
  (forall s', evolves s s' -> Inv s' -> Q tt s') -> safe (local_Store cid wid) Q s.
Proof.
  intros Hi Hk HQ. apply safe_atomic; [done|]. intros s1 s2 He1 Hi1 Hv Hm. cbn [fst snd] in *.
  split.
  - eapply evolves_local; [done|exact Hm|]. intros _. apply map_Forall_insert_2; [by eapply known_evolves|apply Hi1].
  - intros He2 Hi2. apply safe_ret. intros s3 He3. apply HQ; [by etrans|by apply (ev_inv _ _ He3)].
Qed.

(** Any ID that [Resolve] returns is one of an existing work item. *)
Lemma Resolve_safe {St} cid (fn : St -> io (St * (error + WorkItem))) st (Q : St * (error + string * bool) -> Sys -> Prop) s :
  Inv s ->
  (forall s1, evolves s s1 -> Inv s1 ->
     safe (fn st) (fun r s2 => evolves s s2 /\ Inv s2 /\ forall wi, r.2 = inr wi -> known (tables (seen s2)) (wi_ID wi)) s1) ->
  (forall r s', evolves s s' -> Inv s' -> (forall wid b, r.2 = inr (wid, b) -> known (tables (seen s')) wid) -> Q r s') ->
  safe (Resolve cid fn st) Q s.
Proof.
  intros Hi Hfn HQ.
  assert (Hret : forall (r : St * (error + string * bool)) s1, evolves s s1 -> Inv s1 ->
    (forall wid b, r.2 = inr (wid, b) -> known (tables (seen s1)) wid) -> safe (Ret r) Q s1).
  { intros r s1 He1 Hi1 Hr. apply safe_ret. intros s2 He2. apply HQ; [by etrans|by apply (ev_inv _ _ He2)|].
    intros wid b Hw. eapply known_evolves; [by eapply Hr|done]. }
  apply safe_bind, safe_atomic; [done|]. intros s1 s2 He1 Hi1 Hv Hm. cbn [fst snd] in *.
  split; [by apply evolves_same|]. intros He2 Hi2. apply safe_ret. intros s3 He3.
  assert (Hi3 : Inv s3) by (by apply (ev_inv _ _ He3)). assert (He03 : evolves s s3) by (by etrans).
  destruct (local (mem s1) !! cid) as [wid|] eqn:Hl.
  { apply Hret; [done|done|]. intros wid' b [= <- <-]. eapply known_evolves; [|exact He3].
    rewrite Hv. by apply (inv_local _ Hi1 cid). }
  apply safe_bind, GetDebounceEntry_safe; [done|]. intros [existingID err] s4 He4 Hi4 Hk. cbn [fst] in Hk.
  assert (He04 : evolves s s4) by (by etrans).
  case_bool_decide as Hne.
  - apply safe_bind, local_Store_safe; [done|by apply Hk|]. intros s5 He5 Hi5. apply Hret; [by etrans|done|].
    intros wid b [= <- <-]. eapply known_evolves; [by apply Hk|done].
  - apply safe_bind. eapply safe_mono; [|by apply Hfn]. intros [st' [e|wi]] s5 (He5 & Hi5 & Hmade); [by apply Hret|].
    cbn [snd] in Hmade. pose proof (Hmade wi eq_refl) as Hkw.
    apply safe_bind, SetDebounceEntry_safe; [done|done|]. intros _ s6 He6 Hi6.
    assert (Hk6 : known (tables (seen s6)) (wi_ID wi)) by (by eapply known_evolves).
    apply safe_bind, local_Store_safe; [done|done|]. intros s7 He7 Hi7.
    apply Hret; [etrans; [exact He5|by etrans]|done|]. intros wid b [= <- <-]. by eapply known_evolves.
Qed.
End Concurrent.
