(* ===== verification/Ingestion.v ===== *)
(** The ingestion handlers: [backend/internal/ingestion/handler.go], with the constructors
    [NewSignal] and [NewWorkItem] of [models/models.go].

    fiber is not code of the repository: a handler takes what [c.IP()] and [c.BodyParser]
    returned and returns the response it set. *)
From stdpp Require Import pretty.
From S2P Require Import Prelude Float64 GoTime Models Queue RateLimiter Tables Prog Services Loops Retry.
From S2P Require Import Postgres RedisStore Mongo Alerting Invariant StoreSafety StatePattern.
From S2P Require Import Machine Debounce.
Local Open Scope string_scope.
Local Open Scope Z_scope.

Definition NewSignal (componentID : string) (componentType : ComponentType) (message : string)
    (severity : Severity) (metadata : option (list (string * Any))) : io Signal :=
  id <-- call NewUUID;;
  t <-- now;;
  Ret (mkSignal id componentID componentType message severity metadata "" t).

Definition NewWorkItem (signal : Signal) : io WorkItem :=
  id <-- call NewUUID;;
  t <-- now;;
  t' <-- now;;
  Ret (mkWorkItem id (sig_ComponentID signal) (sig_ComponentType signal)
         ("Incident: " +:+ sig_ComponentType signal +:+ " failure on " +:+ sig_ComponentID signal)
         (sig_Severity signal) StateOpen 1 "" t t' None None None).

(** ** Responses *)

Record result := mkResult { res_SignalID : string; res_WorkItemID : string; res_Debounced : bool; res_Error : string }.

Inductive Body :=
| ErrorBody (msg : string)
| IngestBody (r : IngestResponse)
| ResultsBody (l : list result).

Record Response := mkResponse { status : Z; headers : list (string * string); body : Body }.

Definition StatusAccepted : Z := 202.
Definition StatusBadRequest : Z := 400.
Definition StatusTooManyRequests : Z := 429.
Definition StatusInternalServerError : Z := 500.

(** ** Validation *)

Definition invalid_signal (why : string) : error := EWrap "" (ESentinel ErrInvalidSignal) (": " +:+ why).

Definition valid_severities : list Severity := [SeverityP0; SeverityP1; SeverityP2].
Definition valid_components : list ComponentType :=
  [ComponentRDBMS; ComponentNoSQL; ComponentCache; ComponentQueue; ComponentAPI; ComponentMCPHost].

Definition set_metadata (m : list (string * Any)) (req : IngestRequest) : IngestRequest :=
  mkIngestRequest (req_ComponentID req) (req_ComponentType req) (req_Message req) (req_Severity req) (Some m).

(** The result is what the pointer [req] holds afterwards, and the error. *)
Definition validateIngestRequest (req : IngestRequest) : io (IngestRequest * option error) :=
  if bool_decide (req_ComponentID req = "") then Ret (req, Some (invalid_signal "component_id is required"))
  else if bool_decide (req_ComponentType req = "") then Ret (req, Some (invalid_signal "component_type is required"))
  else if bool_decide (req_Message req = "") then Ret (req, Some (invalid_signal "message is required"))
  else if bool_decide (req_Severity req = "") then Ret (req, Some (invalid_signal "severity is required"))
  else if negb (bool_decide (req_Severity req ∈ valid_severities)) then
    Ret (req, Some (invalid_signal "severity must be P0, P1, or P2"))
  else if negb (bool_decide (req_ComponentType req ∈ valid_components)) then
    Ret (req, Some (invalid_signal "invalid component_type"))
  else
    match req_Metadata req with
    | None => id <-- call NewUUID;; Ret (set_metadata [("signal_id", AnyString id)] req, None)
    | Some _ => Ret (req, None)
    end.

(** ** The rate limit *)

(** [h.rateLimiter.Allow(key)]: its critical sections, other goroutines in between. *)
Definition Allow_call (key : string) : io (bool * Z * Duration) :=
  found <-- perform (Atomic (fun m => (Allow_lookup key (limiter m), m)));;
  p <-- match found with
        | Some p => Ret p
        | None => perform (AtomicNow (fun t m => let '(p, rl) := Allow_create key t (limiter m) in (p, with_limiter rl m)))
        end;;
  allowed <-- perform (AtomicNow (fun t m => let '(ok, rl) := Allow_take p t (limiter m) in (ok, with_limiter rl m)));;
  rest <-- perform (Atomic (fun m => ((Allow_remaining p (limiter m), Allow_resetIn (limiter m)), m)));;
  Ret (allowed, rest.1, rest.2).

(** The check and the headers both handlers begin with. *)
Definition rate_limit (ip : string) : io (bool * list (string * string)) :=
  r <-- Allow_call ip;;
  let '(allowed, remaining, resetIn) := r in
  t <-- now;;
  Ret (allowed, [("X-RateLimit-Limit", "100"); ("X-RateLimit-Remaining", pretty remaining);
                 ("X-RateLimit-Reset", pretty (Unix (t + resetIn)))]).

(** One tick of the limiter's cleanup loop. The loop holds the lock of the map, which keeps requests
    from looking up or creating buckets meanwhile; here they may come in between the keys. *)
Definition cleanup_tick : io unit :=
  t <-- now;;
  let cutoff := t - 10 * Minute in
  keys <-- peek (fun m => (map_to_list (buckets (limiter m))).*1);;
  foldP (fun key _ => perform (Atomic (fun m => (tt, with_limiter (cleanup_key cutoff key (limiter m)) m)))) keys tt.

(** [RateLimiter.cleanup] *)
Definition RateLimiter_cleanup (rounds : nat) : io unit := range_ticker (5 * Minute) cleanup_tick rounds.

(** [h.queue.TryEnqueue(signal)] *)
Definition enqueue (signal : Signal) : io bool :=
  perform (Atomic (fun m => let '(ok, q) := TryEnqueue signal (queue m) in (ok, with_queue q m))).

Definition with_sig_severity (sev : Severity) (s : Signal) : Signal :=
  mkSignal (sig_ID s) (sig_ComponentID s) (sig_ComponentType s) (sig_Message s) sev (sig_Metadata s)
    (sig_WorkItemID s) (sig_ReceivedAt s).

Definition with_wi_severity (sev : Severity) (wi : WorkItem) : WorkItem :=
  mkWorkItem (wi_ID wi) (wi_ComponentID wi) (wi_ComponentType wi) (wi_Title wi) sev (wi_State wi)
    (wi_SignalCount wi) (wi_AssignedTo wi) (wi_CreatedAt wi) (wi_UpdatedAt wi) (wi_ResolvedAt wi)
    (wi_ClosedAt wi) (wi_MTTR wi).

(** The closure [IngestSignal] passes to the debouncer; it changes the signal it captured. *)
Definition new_incident (signal : Signal) : io (Signal * (error + WorkItem)) :=
  wi <-- NewWorkItem signal;;
  let wi := with_wi_severity (SeverityForComponent (sig_ComponentType signal)) wi in
  let signal := with_sig_severity (wi_Severity wi) signal in
  err <-- CreateWorkItem wi;;
  match err with
  | Some err => Ret (signal, inl (EWrap "create work item: " err ""))
  | None =>
      perform (Go (JobDispatch wi));;;
      InvalidateDashboard;;;
      Ret (signal, inr wi)
  end.

(** The closure of [IngestBatch]. *)
Definition new_incident_batch (signal : Signal) : io (Signal * (error + WorkItem)) :=
  wi <-- NewWorkItem signal;;
  err <-- CreateWorkItem wi;;
  match err with
  | Some err => Ret (signal, inl err)
  | None => InvalidateDashboard;;; Ret (signal, inr wi)
  end.

(** ** [IngestSignal] *)

(** Steps 3 to 7, for a validated request. *)
Definition accept_signal (hdrs : list (string * string)) (req : IngestRequest) : io Response :=
  signal <-- NewSignal (req_ComponentID req) (req_ComponentType req) (req_Message req) (req_Severity req) (req_Metadata req);;
  r <-- Resolve (sig_ComponentID signal) new_incident signal;;
  let '(signal, r) := r in
  match r with
  | inl err => Ret (mkResponse StatusInternalServerError hdrs (ErrorBody ("failed to process signal: " +:+ Error err)))
  | inr (workItemID, isNew) =>
      let signal := set_work_item workItemID signal in
      ok <-- enqueue signal;;
      if negb ok then Ret (mkResponse StatusTooManyRequests hdrs (ErrorBody (Error (ESentinel ErrQueueFull))))
      else
        perform (Go JobIncrementSignalCounter);;;
        Ret (mkResponse StatusAccepted hdrs (IngestBody (mkIngestResponse (sig_ID signal) workItemID (negb isNew))))
  end.

Definition IngestSignal (ip : string) (parsed : error + IngestRequest) : io Response :=
  r <-- rate_limit ip;;
  let '(allowed, hdrs) := r in
  if negb allowed then Ret (mkResponse StatusTooManyRequests hdrs (ErrorBody (Error (ESentinel ErrRateLimitExceeded))))
  else
    match parsed with
    | inl err => Ret (mkResponse StatusBadRequest hdrs (ErrorBody ("invalid request body: " +:+ Error err)))
    | inr req =>
        v <-- validateIngestRequest req;;
        let '(req, err) := v in
        match err with
        | Some err => Ret (mkResponse StatusBadRequest hdrs (ErrorBody (Error err)))
        | None => accept_signal hdrs req
        end
    end.

(** ** [IngestBatch] *)

(** One iteration of the loop, which appends its result. *)
Definition ingest_one (req : IngestRequest) (results : list result) : io (list result) :=
  v <-- validateIngestRequest req;;
  let '(req, err) := v in
  match err with
  | Some err => Ret (results ++ [mkResult "" "" false (Error err)])%list
  | None =>
      signal <-- NewSignal (req_ComponentID req) (req_ComponentType req) (req_Message req) (req_Severity req) (req_Metadata req);;
      r <-- Resolve (sig_ComponentID signal) new_incident_batch signal;;
      let '(signal, r) := r in
      match r with
      | inl err => Ret (results ++ [mkResult "" "" false (Error err)])%list
      | inr (workItemID, isNew) =>
          let signal := set_work_item workItemID signal in
          ok <-- enqueue signal;;
          if negb ok then Ret (results ++ [mkResult "" "" false (Error (ESentinel ErrQueueFull))])%list
          else
            perform (Go JobIncrementSignalCounter);;;
            Ret (results ++ [mkResult (sig_ID signal) workItemID (negb isNew) ""])%list
      end
  end.

Definition IngestBatch (ip : string) (parsed : error + list IngestRequest) : io Response :=
  r <-- rate_limit ip;;
  let '(allowed, hdrs) := r in
  if negb allowed then Ret (mkResponse StatusTooManyRequests hdrs (ErrorBody (Error (ESentinel ErrRateLimitExceeded))))
  else
    match parsed with
    | inl err => Ret (mkResponse StatusBadRequest hdrs (ErrorBody ("invalid batch request body: " +:+ Error err)))
    | inr reqs =>
        if (100 <? length reqs)%nat
        then Ret (mkResponse StatusBadRequest hdrs (ErrorBody "batch size exceeds maximum of 100 signals"))
        else
          results <-- foldP ingest_one reqs [];;
          Ret (mkResponse StatusAccepted hdrs (ResultsBody results))
    end.

(** ** Validation accepts exactly the valid requests *)

Definition valid_request (req : IngestRequest) : Prop :=
  req_ComponentID req <> "" /\ req_Message req <> "" /\
  req_Severity req ∈ valid_severities /\ req_ComponentType req ∈ valid_components.

Lemma valid_severities_nonempty s : s ∈ valid_severities -> s <> "".
Proof. unfold valid_severities. rewrite !elem_of_cons, elem_of_nil. by intros [->|[->|[->|[]]]]. Qed.

Lemma valid_components_nonempty s : s ∈ valid_components -> s <> "".
Proof.
  unfold valid_components. rewrite !elem_of_cons, elem_of_nil.
  by intros [->|[->|[->|[->|[->|[->|[]]]]]]].
Qed.

Section Validation.
Context `{World}.

(** C35. [validateIngestRequest] accepts exactly the requests with a component, a message, one
    of the three severities and one of the six component types; it fills in the metadata when
    they are absent and touches nothing else of the request; every rejection wraps
    [ErrInvalidSignal] and leaves the request alone. *)
Theorem validate_spec req s :
  sees (validateIngestRequest req) (fun r s' =>
    tables (seen s') = tables (seen s) /\ mem s' = mem s /\
    (r.2 = None <-> valid_request req) /\
    match r.2 with
    | Some e => errors_Is e ErrInvalidSignal = true /\ r.1 = req
    | None => is_Some (req_Metadata r.1) /\ (is_Some (req_Metadata req) -> r.1 = req) /\
        req_ComponentID r.1 = req_ComponentID req /\ req_ComponentType r.1 = req_ComponentType req /\
        req_Message r.1 = req_Message req /\ req_Severity r.1 = req_Severity req
    end) s.
Proof.
  assert (Hrej : forall why, ~ valid_request req ->
    sees (Ret (req, Some (invalid_signal why)) : io (IngestRequest * option error)) (fun r s' =>
    tables (seen s') = tables (seen s) /\ mem s' = mem s /\
    (r.2 = None <-> valid_request req) /\
    match r.2 with
    | Some e => errors_Is e ErrInvalidSignal = true /\ r.1 = req
    | None => is_Some (req_Metadata r.1) /\ (is_Some (req_Metadata req) -> r.1 = req) /\
        req_ComponentID r.1 = req_ComponentID req /\ req_ComponentType r.1 = req_ComponentType req /\
        req_Message r.1 = req_Message req /\ req_Severity r.1 = req_Severity req
    end) s).
  { intros why Hn. apply sees_ret. cbn. repeat split; done. }
  unfold validateIngestRequest.
  case_bool_decide as H1; [apply Hrej; by intros (? & _)|].
  case_bool_decide as H2; [apply Hrej; intros (_ & _ & _ & ?%valid_components_nonempty); done|].
  case_bool_decide as H3; [apply Hrej; by intros (_ & ? & _)|].
  case_bool_decide as H4; [apply Hrej; intros (_ & _ & ?%valid_severities_nonempty & _); done|].
  case_bool_decide as H5; cbn [negb]; [|apply Hrej; by intros (_ & _ & ? & _)].
  case_bool_decide as H6; cbn [negb]; [|apply Hrej; by intros (_ & _ & _ & ?)].
  assert (Hv : valid_request req) by done. destruct (req_Metadata req) as [m|] eqn:Hm.
  - apply sees_ret. cbn. rewrite Hm. repeat split; done.
  - apply sees_call. intros u s1 (_ & _ & Hseen) Hmem. apply sees_ret. cbn. rewrite Hseen. cbn.
    repeat split; try done; by eexists.
Qed.
End Validation.

(** ** Under interference *)

Section Concurrent.
Context `{World}.

Lemma evolves_limiter s s' t rl : clock (seen s) <= t -> seen s' = at_time t (seen s) ->
  mem s' = with_limiter rl (mem s) -> (rl_wf (clock (seen s)) (limiter (mem s)) -> rl_wf t rl) ->
  (forall p, is_Some (bucket_heap (limiter (mem s)) !! p) -> is_Some (bucket_heap rl !! p)) -> evolves s s'.
Proof.
  intros Ht Hv Hm Hwf Hp. constructor; rewrite ?Hv, ?Hm; cbn; try done.
  intros []. constructor; rewrite ?Hv, ?Hm; cbn; by auto.
Qed.

Lemma Allow_create_heap key t rl p : is_Some (bucket_heap rl !! p) -> is_Some (bucket_heap (Allow_create key t rl).2 !! p).
Proof. intros Hp. unfold Allow_create. destruct (buckets rl !! key); [done|]. cbn. rewrite lookup_insert_is_Some'. by right. Qed.

Lemma Allow_take_heap q t rl p : is_Some (bucket_heap rl !! p) -> is_Some (bucket_heap (Allow_take q t rl).2 !! p).
Proof.
  intros Hp. unfold Allow_take. destruct (bucket_heap rl !! q) as [b|]; [|done].
  destruct (allow t b) as [ok b']. cbn. rewrite lookup_insert_is_Some'. by right.
Qed.

Lemma Allow_call_safe key (Q : bool * Z * Duration -> Sys -> Prop) s : Inv s ->
  (forall r s', evolves s s' -> Inv s' -> Q r s') -> safe (Allow_call key) Q s.
Proof.
  intros Hi HQ. apply safe_atomic; [done|]. intros s1 s2 He1 Hi1 Hv Hm. cbn [fst snd] in *.
  split; [by apply evolves_same|]. intros He2 Hi2. cbn [bind].
  assert (Htail : forall p s3, evolves s s3 -> Inv s3 ->
    safe (allowed <-- perform (AtomicNow (fun t m => let '(ok, rl) := Allow_take p t (limiter m) in (ok, with_limiter rl m)));;
          rest <-- perform (Atomic (fun m => ((Allow_remaining p (limiter m), Allow_resetIn (limiter m)), m)));;
          Ret (allowed, rest.1, rest.2)) Q s3).
  { intros p s3 He3 Hi3. apply safe_atomic_now; [done|]. intros s4 t s5 He4 Hi4 Ht Hv5 Hm5.
    pose proof (Allow_take_wf (clock (seen s4)) t p (limiter (mem s4))) as Hwf.
    pose proof (Allow_take_heap p t (limiter (mem s4))) as Hh.
    destruct (Allow_take p t (limiter (mem s4))) as [ok rl]. cbn [fst snd] in *.
    split; [eapply evolves_limiter; [exact Ht|exact Hv5|exact Hm5| |exact Hh]; intros Hw; by apply Hwf|].
    intros He5 Hi5. cbn [bind]. apply safe_atomic; [done|]. intros s6 s7 He6 Hi6 Hv7 Hm7. cbn [fst snd] in *.
    split; [by apply evolves_same|]. intros He7 Hi7. apply safe_ret. intros s8 He8.
    apply HQ; [|by apply (ev_inv _ _ He8)]. etrans; [exact He3|]. etrans; [exact He5|]. by etrans. }
  destruct (Allow_lookup key (limiter (mem s1))) as [p|]; [by apply Htail|].
  apply safe_bind, safe_atomic_now; [done|]. intros s3 t s4 He3 Hi3 Ht Hv4 Hm4.
  pose proof (Allow_create_wf t key (limiter (mem s3))) as Hwf.
  pose proof (Allow_create_heap key t (limiter (mem s3))) as Hh.
  destruct (Allow_create key t (limiter (mem s3))) as [p rl]. cbn [fst snd] in *.
  split; [eapply evolves_limiter; [exact Ht|exact Hv4|exact Hm4| |exact Hh]; intros Hw; apply Hwf; by eapply rl_wf_mono|].
  intros He4 Hi4. apply safe_ret. intros s5 He5. apply Htail; [|by apply (ev_inv _ _ He5)].
  etrans; [exact He2|by etrans].
Qed.

Lemma rate_limit_safe ip (Q : bool * list (string * string) -> Sys -> Prop) s : Inv s ->
  (forall r s', evolves s s' -> Inv s' -> Q r s') -> safe (rate_limit ip) Q s.
Proof.
  intros Hi HQ. apply safe_bind, Allow_call_safe; [done|]. intros [[ok rem] reset] s1 He1 Hi1.
  apply safe_now; [done|]. intros t s2 He2 Hi2. apply safe_ret. intros s3 He3.
  apply HQ; [etrans; [exact He1|by etrans]|by apply (ev_inv _ _ He3)].
Qed.

Lemma cleanup_tick_safe s : Inv s -> safe cleanup_tick (fun _ s' => Inv s') s.
Proof.
  intros Hi. apply safe_now; [done|]. intros t s1 _ Hi1. apply safe_peek; [done|]. intros keys s2 _ Hi2.
  generalize tt. revert s2 Hi2. induction keys as [|key keys IH]; intros s2 Hi2 []; [by apply safe_ret_inv|].
  apply safe_atomic; [done|]. intros s3 s4 He3 Hi3 Hv Hm. cbn [fst snd] in *. split.
  - eapply (evolves_limiter _ _ (clock (seen s3))); [done|by rewrite Hv; destruct (seen s3)|exact Hm|apply cleanup_key_wf|].
    intros p. by rewrite (proj1 (cleanup_key_fields _ _ _)).
  - intros He4 Hi4. by apply IH.
Qed.

Lemma RateLimiter_cleanup_safe rounds s : Inv s -> safe (RateLimiter_cleanup rounds) (fun _ s' => Inv s') s.
Proof. intros Hi. apply safe_range_ticker; [done|]. apply cleanup_tick_safe. Qed.

Lemma evolves_queue s s' q : seen s' = seen s -> mem s' = with_queue q (mem s) ->
  (Inv s -> Forall (fun sig => known (tables (seen s)) (sig_WorkItemID sig)) (ch q) /\ Len q <= capacity q) -> evolves s s'.
Proof.
  intros Hv Hm Hq. constructor; rewrite ?Hv, ?Hm; cbn; try done.
  intros Hi. destruct (Hq Hi). destruct Hi. by constructor; rewrite ?Hv, ?Hm.
Qed.

Lemma enqueue_safe sig (Q : bool -> Sys -> Prop) s : Inv s -> known (tables (seen s)) (sig_WorkItemID sig) ->
  (forall b s', evolves s s' -> Inv s' -> Q b s') -> safe (enqueue sig) Q s.
Proof.
  intros Hi Hk HQ. apply safe_atomic; [done|]. intros s1 s2 He1 Hi1 Hv Hm.
  destruct (TryEnqueue sig (queue (mem s1))) as [ok q] eqn:Hq. cbn [fst snd] in *. split.
  - eapply evolves_queue; [done|exact Hm|]. intros _. unfold TryEnqueue in Hq.
    pose proof (inv_queue _ Hi1) as Hall. pose proof (inv_len _ Hi1) as Hlen. pose proof (known_evolves _ _ _ Hk He1).
    destruct (Z.ltb_spec (Len (queue (mem s1))) (capacity (queue (mem s1)))); injection Hq as <- <-; cbn; [|done].
    split; [apply Forall_app; by repeat constructor|]. unfold Len in *. cbn. rewrite length_app. cbn. lia.
  - intros He2 Hi2. apply safe_ret. intros s3 He3. apply HQ; [by etrans|by apply (ev_inv _ _ He3)].
Qed.

Lemma validate_safe req (Q : IngestRequest * option error -> Sys -> Prop) s : Inv s ->
  (forall r s', evolves s s' -> Inv s' -> Q r s') -> safe (validateIngestRequest req) Q s.
Proof.
  intros Hi HQ.
  assert (Hret : forall (r : IngestRequest * option error) s1, evolves s s1 -> Inv s1 -> safe (Ret r) Q s1).
  { intros r s1 He1 Hi1. apply safe_ret. intros s2 He2. apply HQ; [by etrans|by apply (ev_inv _ _ He2)]. }
  unfold validateIngestRequest. repeat case_bool_decide; cbn [negb]; try (by apply Hret).
  destruct (req_Metadata req); [by apply Hret|]. apply safe_uuid; [done|]. intros u s1 He1 Hi1 _. by apply Hret.
Qed.

Lemma NewSignal_safe cid ct msg sev md (Q : Signal -> Sys -> Prop) s : Inv s ->
  (forall sig s', evolves s s' -> Inv s' -> Q sig s') -> safe (NewSignal cid ct msg sev md) Q s.
Proof.
  intros Hi HQ. apply safe_uuid; [done|]. intros u s1 He1 Hi1 _. apply safe_now; [done|]. intros t s2 He2 Hi2.
  apply safe_ret. intros s3 He3. apply HQ; [etrans; [exact He1|by etrans]|by apply (ev_inv _ _ He3)].
Qed.

Lemma NewWorkItem_safe sig (Q : WorkItem -> Sys -> Prop) s : Inv s ->
  (forall wi s', evolves s s' -> Inv s' -> wi_State wi = StateOpen -> Q wi s') -> safe (NewWorkItem sig) Q s.
Proof.
  intros Hi HQ. apply safe_uuid; [done|]. intros u s1 He1 Hi1 _. apply safe_now; [done|]. intros t s2 He2 Hi2.
  apply safe_now; [done|]. intros t' s3 He3 Hi3. apply safe_ret. intros s4 He4.
  apply HQ; [|by apply (ev_inv _ _ He4)|done]. etrans; [exact He1|]. etrans; [exact He2|by etrans].
Qed.

(** What the closures promise the debouncer. *)
Definition made (s : Sys) (r : Signal * (error + WorkItem)) (s' : Sys) : Prop :=
  evolves s s' /\ Inv s' /\ forall wi, r.2 = inr wi -> known (tables (seen s')) (wi_ID wi).

Lemma made_ret s r s1 : evolves s s1 -> Inv s1 -> (forall wi, r.2 = inr wi -> known (tables (seen s1)) (wi_ID wi)) ->
  safe (Ret r) (made s) s1.
Proof.
  intros He1 Hi1 Hr. apply safe_ret. intros s2 He2. split; [by etrans|]. split; [by apply (ev_inv _ _ He2)|].
  intros wi Hwi. eapply known_evolves; [by apply Hr|done].
Qed.

Lemma new_incident_safe sig s0 s : evolves s0 s -> Inv s -> safe (new_incident sig) (made s0) s.
Proof.
  intros He0 Hi. apply safe_bind, NewWorkItem_safe; [done|]. intros wi s1 He1 Hi1 Hst. cbv zeta.
  apply safe_bind, CreateWorkItem_safe; [done|by cbn; rewrite Hst|]. intros [err|] s2 He2 Hi2 Hk.
  { apply made_ret; [etrans; [exact He0|by etrans]|done|done]. }
  specialize (Hk eq_refl). apply safe_go. apply safe_bind, InvalidateDashboard_safe; [done|]. intros _ s3 He3 Hi3.
  apply made_ret; [etrans; [exact He0|etrans; [exact He1|by etrans]]|done|]. intros wi' [= <-]. by eapply known_evolves.
Qed.

Lemma new_incident_batch_safe sig s0 s : evolves s0 s -> Inv s -> safe (new_incident_batch sig) (made s0) s.
Proof.
  intros He0 Hi. apply safe_bind, NewWorkItem_safe; [done|]. intros wi s1 He1 Hi1 Hst.
  apply safe_bind, CreateWorkItem_safe; [done|by rewrite Hst|]. intros [err|] s2 He2 Hi2 Hk.
  { apply made_ret; [etrans; [exact He0|by etrans]|done|done]. }
  specialize (Hk eq_refl). apply safe_bind, InvalidateDashboard_safe; [done|]. intros _ s3 He3 Hi3.
  apply made_ret; [etrans; [exact He0|etrans; [exact He1|by etrans]]|done|]. intros wi' [= <-]. by eapply known_evolves.
Qed.

(** What a response promises. *)
Definition good_response (r : Response) (s : Sys) : Prop :=
  status r ∈ [StatusAccepted; StatusBadRequest; StatusTooManyRequests; StatusInternalServerError] /\
  (status r = StatusAccepted <-> forall msg, body r <> ErrorBody msg) /\
  (forall ir, body r = IngestBody ir -> known (tables (seen s)) (resp_WorkItemID ir)) /\
  (forall l, body r = ResultsBody l -> Forall (fun x => res_SignalID x <> "" -> known (tables (seen s)) (res_WorkItemID x)) l).

Lemma error_response_safe st hdrs msg s : st ∈ [StatusBadRequest; StatusTooManyRequests; StatusInternalServerError] ->
  safe (Ret (mkResponse st hdrs (ErrorBody msg))) good_response s.
Proof.
  intros Hst. apply safe_ret. intros s' _. unfold good_response. cbn. split; [set_solver|]. split; [|done].
  rewrite !elem_of_cons, elem_of_nil in Hst. split; [by destruct Hst as [->|[->|[->|[]]]]|]. intros Hm. by destruct (Hm msg).
Qed.

Lemma queued_safe sig hdrs (ok_r : Response) s : Inv s -> known (tables (seen s)) (sig_WorkItemID sig) ->
  (forall s', known (tables (seen s')) (sig_WorkItemID sig) -> good_response ok_r s') ->
  safe (ok <-- enqueue sig;;
        if negb ok then Ret (mkResponse StatusTooManyRequests hdrs (ErrorBody (Error (ESentinel ErrQueueFull))))
        else perform (Go JobIncrementSignalCounter);;; Ret ok_r) good_response s.
Proof.
  intros Hi Hk Hok. apply safe_bind, enqueue_safe; [done|done|]. intros ok s1 He1 Hi1. destruct ok; cbn [negb].
  - apply safe_go, safe_ret. intros s2 He2. apply Hok. eapply known_evolves; [|exact He2]. by eapply known_evolves.
  - apply error_response_safe. set_solver.
Qed.

Lemma accept_signal_safe hdrs req s : Inv s -> safe (accept_signal hdrs req) good_response s.
Proof.
  intros Hi. apply safe_bind, NewSignal_safe; [done|]. intros sig s1 He1 Hi1.
  apply safe_bind, Resolve_safe; [done|intros; by apply new_incident_safe|].
  intros [sig' [err|[wid isNew]]] s2 He2 Hi2 Hk; [apply error_response_safe; set_solver|].
  apply queued_safe; [done|by eapply Hk|]. intros s3 Hk3. unfold good_response. cbn.
  split; [set_solver|]. split; [done|]. split; [|done]. by intros ir [= <-].
Qed.

Lemma IngestSignal_ok ip parsed s : Inv s -> safe (IngestSignal ip parsed) good_response s.
Proof.
  intros Hi. apply safe_bind, rate_limit_safe; [done|]. intros [ok hdrs] s1 He1 Hi1.
  destruct ok; cbn [negb]; [|apply error_response_safe; set_solver].
  destruct parsed as [err|req]; [apply error_response_safe; set_solver|].
  apply safe_bind, validate_safe; [done|]. intros [req' [err|]] s2 He2 Hi2; [apply error_response_safe; set_solver|].
  by apply accept_signal_safe.
Qed.

(** C19. Whatever the other goroutines do and whatever fails, [IngestSignal] never panics and
    answers 202, 400, 429 or 500; it answers 202 exactly with an ingestion body, and the work
    item that body names exists in PostgreSQL, and will exist from then on. *)
Theorem IngestSignal_safe ip parsed s : Inv s -> safe (IngestSignal ip parsed) good_response s.
Proof. apply IngestSignal_ok. Qed.

(** The results of a batch so far: one per request, and those without an error are linked. *)
Definition batch_results (n : nat) (l : list result) (s : Sys) : Prop :=
  length l = n /\ Forall (fun x => res_SignalID x <> "" -> known (tables (seen s)) (res_WorkItemID x)) l.

Lemma batch_results_evolves n l s s' : batch_results n l s -> evolves s s' -> batch_results n l s'.
Proof.
  intros [Hn Hl] He. split; [done|]. eapply Forall_impl; [exact Hl|].
  intros x Hx Herr. eapply known_evolves; [by apply Hx|done].
Qed.

Lemma ingest_one_safe req n l s : Inv s -> batch_results n l s ->
  safe (ingest_one req l) (fun l' s' => Inv s' /\ batch_results (S n) l' s') s.
Proof.
  intros Hi Hl.
  assert (Hret : forall x s1, evolves s s1 -> Inv s1 -> (res_SignalID x <> "" -> known (tables (seen s1)) (res_WorkItemID x)) ->
    safe (Ret (l ++ [x])%list) (fun l' s' => Inv s' /\ batch_results (S n) l' s') s1).
  { intros x s1 He1 Hi1 Hx. apply safe_ret. intros s2 He2. split; [by apply (ev_inv _ _ He2)|].
    destruct (batch_results_evolves n l s s2 Hl ltac:(by etrans)) as [Hn Hall].
    split; [rewrite length_app; cbn; lia|]. apply Forall_app. split; [done|]. apply Forall_singleton.
    intros Herr. eapply known_evolves; [by apply Hx|done]. }
  apply safe_bind, validate_safe; [done|]. intros [req' [err|]] s1 He1 Hi1; [by apply Hret|].
  apply safe_bind, NewSignal_safe; [done|]. intros sig s2 He2 Hi2. assert (He02 : evolves s s2) by (by etrans).
  apply safe_bind, Resolve_safe; [done|intros; by apply new_incident_batch_safe|].
  intros [sig' [err|[wid isNew]]] s3 He3 Hi3 Hk; [apply Hret; [by etrans|done|done]|].
  specialize (Hk wid isNew eq_refl).
  apply safe_bind, enqueue_safe; [done|done|]. intros ok s4 He4 Hi4.
  assert (He04 : evolves s s4) by (etrans; [exact He02|by etrans]).
  destruct ok; cbn [negb]; [apply safe_go|]; apply Hret; try done. intros _. by eapply known_evolves.
Qed.

Lemma ingest_all_safe reqs n l s : Inv s -> batch_results n l s ->
  safe (foldP ingest_one reqs l) (batch_results (n + length reqs)) s.
Proof.
  revert n l s. induction reqs as [|req reqs IH]; intros n l s Hi Hl; cbn [foldP length].
  - apply safe_ret. intros s' He. rewrite Nat.add_0_r. by eapply batch_results_evolves.
  - apply safe_bind. eapply safe_mono; [|by apply ingest_one_safe]. intros l' s' [Hi' Hl'].
    rewrite <- Nat.add_succ_comm. by apply IH.
Qed.

Lemma IngestBatch_ok ip parsed s : Inv s ->
  safe (IngestBatch ip parsed) (fun r s' => good_response r s' /\
    (forall l, body r = ResultsBody l -> exists reqs, parsed = inr reqs /\ length l = length reqs /\ (length reqs <= 100)%nat)) s.
Proof.
  intros Hi.
  assert (Herr : forall st hdrs msg s1, st ∈ [StatusBadRequest; StatusTooManyRequests; StatusInternalServerError] ->
    safe (Ret (mkResponse st hdrs (ErrorBody msg))) (fun r s' => good_response r s' /\
      (forall l, body r = ResultsBody l -> exists reqs, parsed = inr reqs /\ length l = length reqs /\ (length reqs <= 100)%nat)) s1).
  { intros st hdrs msg s1 Hst s2 He2. split; [by apply (error_response_safe st hdrs msg s1)|done]. }
  apply safe_bind, rate_limit_safe; [done|]. intros [ok hdrs] s1 He1 Hi1.
  destruct ok; cbn [negb]; [|apply Herr; set_solver].
  destruct parsed as [err|reqs]; [apply Herr; set_solver|].
  destruct (Nat.ltb_spec 100 (length reqs)) as [|Hlen]; [apply Herr; set_solver|].
  apply safe_bind. eapply safe_mono; [|by apply (ingest_all_safe reqs 0)].
  intros l s2 [Hn Hl]. apply safe_ret. intros s3 He3. split.
  - unfold good_response. cbn. split; [set_solver|]. split; [done|]. split; [done|]. intros l' [= <-].
    by apply (batch_results_evolves (length l) l s2 s3).
  - intros l' [= <-]. by exists reqs.
Qed.

(** C27. [IngestBatch], whatever the other goroutines do and whatever fails: it never panics;
    it answers 400 or 429 with an error, or 202 with exactly one result per request, of at most
    100 requests, where every result that carries a signal ID names an existing work item. *)
Theorem IngestBatch_safe ip parsed s : Inv s ->
  safe (IngestBatch ip parsed) (fun r s' => good_response r s' /\
    (forall l, body r = ResultsBody l -> exists reqs, parsed = inr reqs /\ length l = length reqs /\ (length reqs <= 100)%nat)) s.
Proof. apply IngestBatch_ok. Qed.
End Concurrent.

(** ** A signal of a new component, and the signals after it *)

Section EndToEnd.
Context `{World}.

(** What the steps that concern neither the tables nor the queue leave alone. *)
Record untouched (s s' : Sys) : Prop := {
  un_tables : tables (seen s') = tables (seen s);
  un_redis : redis (seen s') = redis (seen s);
  un_local : local (mem s') = local (mem s);
  un_queue : queue (mem s') = queue (mem s);
  un_issued : issued (seen s) ⊆ issued (seen s');
  un_clock : clock (seen s) <= clock (seen s');
}.

#[export] Instance untouched_preorder : PreOrder untouched.
Proof. split; [intros s; done|intros s1 s2 s3 [] []; constructor; (congruence || set_solver || lia)]. Qed.














End EndToEnd.

Section NewIncident.
Context `{FaultFree}.



End NewIncident.
