(* ===== verification/Worker.v ===== *)
(** The worker pool: [backend/internal/worker/pool.go]. *)
From S2P Require Import Prelude Float64 GoTime Models Queue RateLimiter Tables Prog Services Loops Retry.
From S2P Require Import Postgres RedisStore Mongo Invariant StoreSafety.
Local Open Scope string_scope.
Local Open Scope Z_scope.

Definition DefaultWorkerCount : Z := 20.
Definition throughputLogInterval : Duration := 5 * Second.

(** [New]: the number of workers of the pool. *)
Definition pool_workers (workerCount : Z) : Z := if workerCount <=? 0 then DefaultWorkerCount else workerCount.

Lemma pool_workers_pos n : 0 < pool_workers n.
Proof. unfold pool_workers. by destruct (Z.leb_spec n 0). Qed.

Definition bump_processed (m : Mem) : Mem := mkMem (local m) (queue m) (limiter m) (int64_wrap (processed m + 1)) (errors m).
Definition bump_errors (m : Mem) : Mem := mkMem (local m) (queue m) (limiter m) (processed m) (int64_wrap (errors m + 1)).

Definition writeTimeseries (signal : Signal) : io unit :=
  t <-- now;;
  call (PgExec (UpsertTimeseries (Truncate t Minute) (sig_ComponentID signal) (sig_ComponentType signal) (sig_Severity signal)));;;
  Ret tt.

(** The three goroutines of [processSignal] and the wait for them: [mongoErr] and [pgErr]. *)
Definition fan_out (signal : Signal) : io (option error * (option error * unit)) :=
  par Choose (InsertSignal signal)
    (par Choose
       (if bool_decide (sig_WorkItemID signal <> "") then IncrementSignalCount (sig_WorkItemID signal) else Ret None)
       (writeTimeseries signal)).

(** The result says which counter was incremented: [true] for [processed]. *)
Definition processSignal (signal : Signal) : io bool :=
  r <-- fan_out signal;;
  if bool_decide (r.1 <> None) || bool_decide (r.2.1 <> None)
  then perform (Atomic (fun m => (tt, bump_errors m)));;; Ret false
  else perform (Atomic (fun m => (tt, bump_processed m)));;; Ret true.

(** One round of [runWorker] that finds a signal in the queue; a worker that finds none waits. *)
Definition worker_round : io unit :=
  s <-- perform (Atomic (fun m =>
    match Consume (queue m) with
    | Some (signal, q) => (Some signal, with_queue q m)
    | None => (None, m)
    end));;
  match s with
  | Some signal => processSignal signal;;; Ret tt
  | None => Ret tt
  end.

(** [Stats], of a pool of [workers] goroutines. *)
Record PoolStats := mkPoolStats {
  st_workers : Z;
  st_processed : Z;
  st_errors : Z;
  st_queue_len : Z;
  st_queue_capacity : Z;
  st_queue_fill_pct : float64;
  st_dropped : Z;
}.

Definition Stats (workers : Z) : io PoolStats :=
  done <-- peek processed;;
  errs <-- peek errors;;
  len <-- peek (fun m => Len (queue m));;
  cap <-- peek (fun m => Cap (queue m));;
  fill <-- peek (fun m => FillRatio (queue m));;
  drop <-- peek (fun m => DroppedCount (queue m));;
  Ret (mkPoolStats workers done errs len cap (f64_mul fill (f64_of_Z 100)) drop).

(** What [logThroughput] logs at a tick, and the total it remembers. *)
Record throughput := mkThroughput {
  signals_last_5s : Z;
  signals_per_sec : float64;
  redis_signals_per_sec : float64;
  total_processed : Z;
  total_errors : Z;
  queue_len : Z;
  queue_fill_pct : float64;
  total_dropped : Z;
}.

Definition f64_of_int64 (z : Z) : float64 :=
  if z <? 0 then SpecFloat.SFopp (f64_of_Z (- z)) else f64_of_Z z.

Definition throughput_tick `{Formats} (lastProcessed : Z) : io (Z * throughput) :=
  current <-- peek processed;;
  let delta := int64_wrap (current - lastProcessed) in
  r <-- GetSignalsPerSecond;;
  let sps := match r.2 with Some _ => f64_of_Z 0 | None => r.1 end in
  errs <-- peek errors;;
  len <-- peek (fun m => Len (queue m));;
  fill <-- peek (fun m => FillRatio (queue m));;
  drop <-- peek (fun m => DroppedCount (queue m));;
  Ret (current, mkThroughput delta (f64_div (f64_of_int64 delta) (Seconds throughputLogInterval)) sps current errs len
                  (f64_mul fill (f64_of_Z 100)) drop).

(** [Pool.logThroughput]: the variable of the loop is [lastProcessed]. *)
Definition logThroughput `{Formats} (rounds : nat) : io Z :=
  ticker_loop throughputLogInterval (fun _ lastProcessed => r <-- throughput_tick lastProcessed;; Ret r.1) rounds 0.

(** ** The counters *)

(** A program that only calls services leaves the memory of the process alone. *)
Definition calls_only {B} (e : eff B) : Prop := match e with Ext _ | Choose => True | _ => False end.

Lemma fan_out_quiet signal : only False (@calls_only) (fan_out signal).
Proof. crawl. Qed.

Section Counters.
Context `{World}.

Lemma quiet_sees {A} (p : io A) s : only False (@calls_only) p -> sees p (fun _ s' => mem s' = mem s) s.
Proof.
  revert s. induction p as [a|msg|B e k IH]; intros s; [by intros _ s' <-|done|].
  intros [He Hk] s1 <- b s2 Hs. split; [done|].
  assert (Hm : mem s2 = mem s) by (destruct e; cbn in Hs; try done; [apply Hs|by rewrite Hs]).
  rewrite <- Hm. by apply IH.
Qed.

(** Each signal a worker takes is counted exactly once: whatever the replies of the
    services, [processSignal] run on its own ends, adds one to exactly one of the counters
    [processed] and [errors] (as [int64]), and changes nothing else in the process. *)
Theorem processSignal_counts signal s :
  sees (processSignal signal) (fun ok s' =>
    mem s' = if ok then bump_processed (mem s) else bump_errors (mem s)) s.
Proof.
  apply sees_bind. eapply sees_mono; [|apply quiet_sees, fan_out_quiet]. intros r s1 Hm.
  destruct (_ || _); apply sees_atomic; intros s2 _ Hm2; apply sees_ret; by rewrite Hm2, Hm.
Qed.
End Counters.

(** ** Under interference *)

Section Concurrent.
Context `{World}.

Lemma evolves_mem s s' m : seen s' = seen s -> mem s' = m -> local m = local (mem s) -> queue m = queue (mem s) ->
  limiter m = limiter (mem s) -> evolves s s'.
Proof.
  intros Hv Hm Hl Hq Hr. constructor; rewrite ?Hv, ?Hm, ?Hl, ?Hq, ?Hr; try done.
  intros []. by constructor; rewrite ?Hv, ?Hm, ?Hl, ?Hq, ?Hr.
Qed.

Lemma writeTimeseries_safe signal s : Inv s -> safe (writeTimeseries signal) (fun _ _ => True) s.
Proof.
  intros Hi. apply safe_now; [done|]. intros t s1 He1 Hi1. apply safe_exec; [done|done|].
  intros r s2 s3 _ _ _ _ _. by apply safe_ret.
Qed.

Lemma Choose_evolves s1 c s2 : step bool Choose s1 c s2 -> evolves s1 s2.
Proof. intros ->. reflexivity. Qed.

Lemma fan_out_safe signal n s : Inv s -> sig_WorkItemID signal <> "" -> counted (sig_WorkItemID signal) n s ->
  safe (fan_out signal) (fun r s' =>
    (r.1 = None -> docs (seen s') !! sig_ID signal = Some (bson_signal signal)) /\
    (r.2.1 = None -> counted (sig_WorkItemID signal) (n + 1) s')) s.
Proof.
  intros Hi Hne Hn. unfold fan_out. rewrite (bool_decide_true (_ <> _)) by done.
  eapply safe_mono; [|apply (rg_par step evolves evolves Choose _ _
    (fun r s' => r = None -> docs (seen s') !! sig_ID signal = Some (bson_signal signal))
    (fun r s' => (r.1 = None -> counted (sig_WorkItemID signal) (n + 1) s') /\ True))].
  - by intros [r1 [r2 []]] s' [H1 [H2 _]].
  - done.
  - apply Choose_evolves.
  - by apply InsertSignal_safe.
  - apply (rg_par step evolves evolves Choose _ _ (fun r s' => r = None -> counted (sig_WorkItemID signal) (n + 1) s') (fun _ _ => True)).
    + done.
    + apply Choose_evolves.
    + by apply (IncrementSignalCount_safe _ n).
    + by apply writeTimeseries_safe.
Qed.

(** C18. A signal that is counted as processed is durable: whatever the other goroutines do, when
    [processSignal] counts a signal in [processed], its document is in MongoDB, and the signal
    count of its work item has grown by at least one since the call began (no increment is
    lost); [processSignal] never panics. *)
Theorem processSignal_durable signal n s : Inv s -> sig_WorkItemID signal <> "" ->
  counted (sig_WorkItemID signal) n s ->
  safe (processSignal signal) (fun ok s' => ok = true ->
    docs (seen s') !! sig_ID signal = Some (bson_signal signal) /\
    counted (sig_WorkItemID signal) (n + 1) s') s.
Proof.
  intros Hi Hne Hn. apply safe_bind. eapply safe_mono; [|by apply safe_inv; [|by apply (fan_out_safe signal n)]].
  intros [e1 [e2 []]] s1 [[H1 H2] Hi1]. cbn [fst snd] in *.
  destruct e1 as [e1|], e2 as [e2|]; repeat case_bool_decide; cbn [orb]; try done;
    (apply safe_atomic; [done|]; intros s2 s3 He2 Hi2 Hv Hm; split; [by eapply evolves_mem|]; intros He3 Hi3; apply safe_ret; intros s4 He4; try done).
  intros _. assert (He14 : evolves s1 s4) by (by etrans). split.
  - apply (ev_docs _ _ He14). by apply H1.
  - eapply counted_evolves; [by apply H2|done].
Qed.

Lemma IncrementSignalCount_any id (Q : option error -> Sys -> Prop) s : Inv s ->
  (forall r s', evolves s s' -> Inv s' -> Q r s') -> safe (IncrementSignalCount id) Q s.
Proof. intros Hi HQ. by apply (update_safe _ (BumpSignalCount id)). Qed.

(** What runs next to the insertion into MongoDB. *)
Lemma fan_out_rest_safe signal s : Inv s ->
  safe (par Choose
     (if bool_decide (sig_WorkItemID signal <> "") then IncrementSignalCount (sig_WorkItemID signal) else Ret None)
     (writeTimeseries signal)) (fun _ _ => True) s.
Proof.
  intros Hi. eapply safe_mono; [|apply (rg_par step evolves evolves Choose _ _ (fun _ _ => True) (fun _ _ => True))];
    [done|done|apply Choose_evolves| |by apply writeTimeseries_safe].
  case_bool_decide; [by apply IncrementSignalCount_any|by apply safe_ret].
Qed.

Lemma processSignal_safe signal s : Inv s -> safe (processSignal signal) (fun _ _ => True) s.
Proof.
  intros Hi. apply safe_bind.
  eapply safe_mono; [|apply safe_inv; [done|apply (rg_par step evolves evolves Choose _ _ (fun _ _ => True) (fun _ _ => True))]].
  - intros r s1 [_ Hi1]. destruct (_ || _); (apply safe_atomic; [done|]; intros s2 s3 He2 Hi2 Hv Hm;
      split; [by eapply evolves_mem|intros; by apply safe_ret]).
  - done.
  - apply Choose_evolves.
  - by apply InsertSignal_safe.
  - by apply fan_out_rest_safe.
Qed.

Lemma worker_round_safe s : Inv s -> safe worker_round (fun _ _ => True) s.
Proof.
  intros Hi. apply safe_bind, safe_atomic; [done|]. intros s1 s2 He1 Hi1 Hv Hm.
  assert (Hq : evolves s1 s2).
  { unfold Consume in Hm. destruct (ch (queue (mem s1))) as [|sig rest] eqn:Hch; cbn [fst snd] in Hm; [by apply evolves_same|].
    constructor; rewrite ?Hv, ?Hm; cbn; try done. intros _.
    pose proof (inv_queue _ Hi1) as Hall. pose proof (inv_len _ Hi1) as Hlen. unfold Len in Hlen. rewrite Hch in Hall, Hlen.
    destruct Hi1. constructor; rewrite ?Hv, ?Hm; cbn; try done; [by apply Forall_cons in Hall as [_ ?]|].
    unfold Len. cbn in *. lia. }
  split; [done|]. intros He2 Hi2. apply safe_ret. intros s3 He3.
  assert (Hi3 : Inv s3) by (by apply (ev_inv _ _ He3)).
  destruct (match Consume (queue (mem s1)) with Some (signal, q) => _ | None => _ end).1 as [sig|]; [|by apply safe_ret].
  apply safe_bind. eapply safe_mono; [|by apply processSignal_safe]. intros _ s4 _. by apply safe_ret.
Qed.
End Concurrent.
