(* ===== verification/Health.v ===== *)
(** Health, metrics and the throughput log: [backend/internal/api/health.go], and the log loop of
    [backend/internal/worker/pool.go]. They read; the memory statistics of the Go runtime and the
    Prometheus registry are left out. *)
From S2P Require Import Prelude Float64 GoTime Models Queue RateLimiter Tables Prog Services Loops Retry.
From S2P Require Import Postgres RedisStore Invariant StoreSafety Worker.
Local Open Scope string_scope.
Local Open Scope Z_scope.

Definition boolToStatus (ok : bool) : string := if ok then "ok" else "unreachable".

(** The body of the response, without the memory statistics. *)
Record HealthReport := mkHealthReport {
  hr_status : string;
  hr_uptime : Duration;
  hr_timestamp : Time;
  hr_postgres : string;
  hr_redis : string;
  hr_mongodb : string;
  hr_length : Z;
  hr_capacity : Z;
  hr_fill_pct : float64;
  hr_dropped : Z;
  hr_enqueued : Z;
  hr_workers : PoolStats;
}.

(** [NewHealthHandler]: of the fields of the handler, its start time is the one it does not share. *)
Definition NewHealthHandler : io Time := now.

(** [Health] of a handler made at [startTime], for a pool of [workers]: the status and the body. *)
Definition Health (startTime : Time) (workers : Z) : io (Z * HealthReport) :=
  pgErr <-- call PgPing;;
  let pgOk := bool_decide (pgErr = None) in
  redisErr <-- Ping;;
  let redisOk := bool_decide (redisErr = None) in
  let '(overall, statusCode) := if negb pgOk || negb redisOk then ("degraded", 503) else ("healthy", 200) in
  workerStats <-- Stats workers;;
  t <-- now;;
  t' <-- now;;
  len <-- peek (fun m => Len (queue m));;
  cap <-- peek (fun m => Cap (queue m));;
  fill <-- peek (fun m => FillRatio (queue m));;
  drop <-- peek (fun m => DroppedCount (queue m));;
  enq <-- peek (fun m => EnqueuedCount (queue m));;
  Ret (statusCode, mkHealthReport overall (Sub t startTime) t' (boolToStatus pgOk) (boolToStatus redisOk) "ok"
                     len cap (f64_mul fill (f64_of_Z 100)) drop enq workerStats).

(** The gauges that [collect] sets. *)
Record gauges := mkGauges {
  QueueFillRatio : float64;
  WSClients : float64;
  SignalsPerSecond : float64;
  WorkItemsByState : gmap string float64;
  ActiveIncidents : float64;
}.

(** [collect], with the hub's [ClientCount()]: the gauges after it. A gauge whose source fails
    keeps its value. *)
Definition collect `{Formats} (clients : Z) (g : gauges) : io gauges :=
  fill <-- peek (fun m => FillRatio (queue m));;
  sps <-- GetSignalsPerSecond;;
  let sps := match sps.2 with None => sps.1 | Some _ => SignalsPerSecond g end in
  r <-- GetDashboardCounts;;
  let '(c, err) := r in
  Ret match err with
      | Some _ => mkGauges fill (f64_of_Z clients) sps (WorkItemsByState g) (ActiveIncidents g)
      | None =>
          mkGauges fill (f64_of_Z clients) sps
            (<["OPEN" := f64_of_int64 (c_open c)]> (<["INVESTIGATING" := f64_of_int64 (c_investigating c)]>
             (<["RESOLVED" := f64_of_int64 (c_resolved c)]> (<["CLOSED" := f64_of_int64 (c_closed c)]> (WorkItemsByState g)))))
            (f64_of_int64 (int64_wrap (c_open c + c_investigating c)))
      end.

(** [MetricsCollector.Start]: the hub has [clients i] clients in round [i]. *)
Definition MetricsCollector_Start `{Formats} (clients : nat -> Z) (rounds : nat) (g : gauges) : io gauges :=
  ticker_loop (10 * Second) (fun i => collect (clients i)) rounds g.

(** ** Properties *)

Section Health.
Context `{World}.

Lemma Stats_sees workers s :
  sees (Stats workers) (fun st s' => outside s' = outside s /\ mem s' = mem s /\
    st_processed st = processed (mem s) /\ st_errors st = errors (mem s)) s.
Proof. do 6 (apply sees_peek; intros ? ?Ho ?Hm). apply sees_ret. cbn. repeat split; congruence. Qed.

(** [Health] run on its own, whatever the services answer: it only reads; it reports 200,
    "healthy" and both PostgreSQL and Redis as "ok", or 503, "degraded" and one of the two as
    "unreachable"; and the numbers of the queue are those of the
    queue, so that the length is within the capacity. *)
Lemma Health_spec startTime workers s : Len (queue (mem s)) <= capacity (queue (mem s)) ->
  sees (Health startTime workers) (fun r s' =>
    mem s' = mem s /\ tables (seen s') = tables (seen s) /\ redis (seen s') = redis (seen s) /\
    docs (seen s') = docs (seen s) /\
    (r.1 = 200 /\ hr_status r.2 = "healthy" /\ hr_postgres r.2 = "ok" /\ hr_redis r.2 = "ok" \/
     r.1 = 503 /\ hr_status r.2 = "degraded" /\ (hr_postgres r.2 = "unreachable" \/ hr_redis r.2 = "unreachable")) /\
    hr_length r.2 = Len (queue (mem s)) /\ 0 <= hr_length r.2 <= hr_capacity r.2 /\
    hr_dropped r.2 = dropped (queue (mem s)) /\ hr_enqueued r.2 = enqueued (queue (mem s)) /\
    st_processed (hr_workers r.2) = processed (mem s) /\ st_errors (hr_workers r.2) = errors (mem s)) s.
Proof.
  intros Hlen. apply sees_call. intros pgErr s1 Hv1 Hm1. apply sees_call. intros redisErr s2 Hv2 Hm2. cbn in Hv1, Hv2.
  rewrite Hv1 in Hv2. rewrite Hm1 in Hm2. clear s1 Hv1 Hm1.
  destruct (bool_decide (pgErr = None)), (bool_decide (redisErr = None)); cbn [negb orb].
  all: apply sees_bind; eapply sees_mono; [|apply (Stats_sees workers)]; intros st s3 (Ho3 & Hm3 & Hp3 & He3).
  all: apply sees_call; intros t s4 [_ Hv4] Hm4; apply sees_call; intros t' s5 [_ Hv5] Hm5.
  all: do 5 (apply sees_peek; intros ? ?Ho ?Hm); apply sees_ret.
  all: assert (Hv' : seen s5 = at_time t' (seen s)) by (rewrite Hv5, Hv4; unfold seen in *; by rewrite Ho3, Hv2).
  all: assert (Hmem : mem s5 = mem s) by congruence.
  all: repeat match goal with H : mem ?a = mem ?b |- _ => rewrite H in *; clear H end.
  all: unfold seen in *; repeat match goal with H : outside ?a = outside ?b |- _ => rewrite H in *; clear H end.
  all: rewrite Hv'; cbn; unfold Len, Cap in *; repeat split; try done; try lia; by auto.
Qed.

(** *** Under interference *)

Lemma Stats_safe workers (Q : PoolStats -> Sys -> Prop) s : Inv s ->
  (forall st s', evolves s s' -> Inv s' -> Q st s') -> safe (Stats workers) Q s.
Proof.
  intros Hi HQ. do 6 (apply safe_peek; [done|]; intros ? ? ? ?). apply safe_ret. intros s7 He.
  apply HQ; [|by apply (ev_inv _ _ He)]. by repeat (etrans; [eassumption|]).
Qed.

Lemma Health_safe startTime workers s : Inv s -> safe (Health startTime workers) (fun _ _ => True) s.
Proof.
  intros Hi. assert (Hping : forall e : ext (option error), (e = PgPing \/ e = RdPing) -> forall (k : option error -> io (Z * HealthReport)) s1,
    Inv s1 -> (forall r s2, Inv s2 -> safe (k r) (fun _ _ => True) s2) -> safe (Step (Ext e) k) (fun _ _ => True) s1).
  { intros e He k s1 Hi1 Hk. apply safe_call; [done|]. intros s2 r s3 _ _ Ha Hm.
    assert (Hv : seen s3 = seen s2) by (by destruct He as [-> | ->]).
    split; [by apply evolves_same|]. intros _ Hi3. by apply Hk. }
  apply Hping; [by left|done|]. intros pgErr s1 Hi1. apply Hping; [by right|done|]. intros redisErr s2 Hi2.
  destruct (bool_decide (pgErr = None)), (bool_decide (redisErr = None)); cbn [negb orb].
  all: apply safe_bind, Stats_safe; [done|]; intros st s3 _ Hi3.
  all: apply safe_now; [done|]; intros t s4 _ Hi4; apply safe_now; [done|]; intros t' s5 _ Hi5.
  all: do 5 (apply safe_peek; [done|]; intros ? ? _ ?); by apply safe_ret.
Qed.

Context `{Formats}.

Lemma collect_safe clients g s : Inv s -> safe (collect clients g) (fun _ s' => Inv s') s.
Proof. intros Hi. walk store_op. Qed.

Lemma throughput_tick_safe last s : Inv s -> safe (throughput_tick last) (fun _ s' => Inv s') s.
Proof. intros Hi. walk store_op. Qed.

Lemma MetricsCollector_Start_safe clients rounds g s : Inv s -> safe (MetricsCollector_Start clients rounds g) (fun _ s' => Inv s') s.
Proof. intros Hi. apply safe_ticker_loop; [done|]. intros i g' s1. apply collect_safe. Qed.

Lemma logThroughput_safe rounds s : Inv s -> safe (logThroughput rounds) (fun _ s' => Inv s') s.
Proof.
  intros Hi. apply safe_ticker_loop; [done|]. intros _ last s1 Hi1. apply safe_bind.
  eapply safe_mono; [|by apply throughput_tick_safe]. intros r s2 Hi2. by apply safe_ret_inv.
Qed.
End Health.
