(* ===== verification/WorkItemsAPI.v ===== *)
(** The work item, RCA and dashboard endpoints: [backend/internal/api/workitems.go]. A handler
    takes what fiber gave it (the path parameter, the parsed body) and returns the response. *)
From S2P Require Import Prelude Float64 GoTime Models Queue RateLimiter Tables Prog Services Retry.
From S2P Require Import Postgres RedisStore Mongo StatePattern Alerting Invariant StoreSafety.
From S2P Require Import Machine.
Local Open Scope string_scope.
Local Open Scope Z_scope.

Inductive ApiBody :=
| ApiError (msg : string)
| ItemsBody (items : list WorkItem)
| ItemBody (wi : WorkItem) (signals : list Signal) (rca : option RCA) (valid_transitions : list WorkItemState)
| TransitionBody (updated : option WorkItem)
| RCACreatedBody (rca : RCA)
| RCABody (rca : RCA)
| DashboardBody (state : DashboardState)
| SignalsBody (signals : list Signal).

Record ApiResponse := mkApiResponse { api_status : Z; api_body : ApiBody }.

Definition StatusOK : Z := 200.
Definition StatusCreated : Z := 201.
Definition api_error (code : Z) (msg : string) : ApiResponse := mkApiResponse code (ApiError msg).

(** ** Substring search *)

(** The loop of [containsAt] from index [i], with [fuel] iterations left. *)
Fixpoint containsAt_loop (fuel : nat) (s sub : string) (i : nat) : bool :=
  match fuel with
  | O => false
  | S fuel =>
      if bool_decide (String.substring i (String.length sub) s = sub) then true
      else containsAt_loop fuel s sub (S i)
  end.

(** [i] runs from 0 to [len(s) - len(sub)] included. *)
Definition containsAt (s sub : string) : bool :=
  containsAt_loop (Z.to_nat (len s - len sub + 1)) s sub 0.

Definition contains (s sub : string) : bool :=
  (len sub <=? len s) && (bool_decide (s = sub) || ((0 <? len s) && containsAt s sub)).

Definition isInvalidTransition (err : option error) : bool :=
  match err with
  | None => false
  | Some err => contains (Error err) "invalid state transition"
  end.

(** ** The handlers *)

Definition active_items (items : list WorkItem) : list WorkItem :=
  filter (fun wi => bool_decide (wi_State wi = StateOpen) || bool_decide (wi_State wi = StateInvestigating)) items.

Definition rebuildDashboardCache `{Formats} (items : list WorkItem) : io unit :=
  r <-- GetDashboardCounts;;
  let '(c, err) := r in
  match err with
  | Some _ => Ret tt
  | None =>
      sps <-- GetSignalsPerSecond;;
      let active := active_items items in
      t <-- now;;
      SetDashboardState (mkDashboardState (c_open c) (c_investigating c) (c_resolved c) (c_closed c) sps.1 active t);;;
      Ret tt
  end.

Definition handle_ListWorkItems : io ApiResponse :=
  r <-- ListWorkItems;;
  let '(items, err) := r in
  match err with
  | Some err => Ret (api_error 500 ("failed to fetch work items: " +:+ Error err))
  | None =>
      perform (Go (JobRebuildDashboard items));;;
      Ret (mkApiResponse StatusOK (ItemsBody items))
  end.

(** [if err == models.ErrWorkItemNotFound] compares interface values: the sentinel itself. *)
Definition is_sentinel (err : error) (s : Sentinel) : bool := bool_decide (err = ESentinel s).

Definition handle_GetWorkItem (id : string) : io ApiResponse :=
  if bool_decide (id = "") then Ret (api_error 400 "id is required")
  else
    r <-- GetWorkItem id;;
    let '(wi, err) := r in
    match err with
    | Some err =>
        if is_sentinel err ErrWorkItemNotFound then Ret (api_error 404 (Error err)) else Ret (api_error 500 (Error err))
    | None =>
        r <-- GetSignalsByWorkItemID id;;
        let signals := match r.2 with Some _ => [] | None => r.1 end in
        r <-- GetRCAByWorkItemID id;;
        match wi with
        | None => nil_deref
        | Some wi =>
            valid <-- GetValidTransitionsSync (wi_State wi);;
            Ret (mkApiResponse StatusOK (ItemBody wi signals r.1 valid))
        end
    end.

(** The status of a failed transition: the [switch] on the error. *)
Definition transition_status (err : error) : Z :=
  if is_sentinel err ErrWorkItemNotFound then 404
  else if is_sentinel err ErrRCARequiredForClose then 422
  else if isInvalidTransition (Some err) then 409
  else 500.

Definition handle_TransitionWorkItem (id : string) (parsed : error + WorkItemState) : io ApiResponse :=
  if bool_decide (id = "") then Ret (api_error 400 "id is required")
  else
    match parsed with
    | inl err => Ret (api_error 400 ("invalid request body: " +:+ Error err))
    | inr toState =>
        if bool_decide (toState = "") then Ret (api_error 400 "to_state is required")
        else
          r <-- Transition id toState;;
          let '(updated, err) := r in
          match err with
          | Some err => Ret (api_error (transition_status err) (Error err))
          | None => Ret (mkApiResponse StatusOK (TransitionBody updated))
          end
    end.

(** What [c.Locals("user")] holds: nothing, a [fiber.Map] with its "sub" when that is a string, or
    a value of another type. *)
Inductive UserLocal := NoUser | UserMap (sub : option string) | OtherUser.

(** The fields of the RCA that the handler forces. *)
Definition forced_rca (id uuid : string) (t : Time) (user : UserLocal) (rca : RCA) : RCA :=
  mkRCA uuid id (rca_IncidentStart rca) (rca_IncidentEnd rca) (rca_RootCauseCategory rca)
    (rca_RootCauseDetail rca) (rca_FixApplied rca) (rca_PreventionSteps rca)
    match user with UserMap (Some sub) => sub | _ => rca_SubmittedBy rca end t.

Definition handle_SubmitRCA (id : string) (parsed : error + RCA) (user : UserLocal) : io ApiResponse :=
  if bool_decide (id = "") then Ret (api_error 400 "id is required")
  else
    match parsed with
    | inl err => Ret (api_error 400 ("invalid RCA body: " +:+ Error err))
    | inr rca =>
        u <-- call NewUUID;;
        t <-- now;;
        r <-- SubmitRCA (forced_rca id u t user rca);;
        let '(rca, err) := r in
        match err with
        | Some err => Ret (api_error 422 (Error err))
        | None => Ret (mkApiResponse StatusCreated (RCACreatedBody rca))
        end
    end.

Definition handle_GetRCA (id : string) : io ApiResponse :=
  r <-- GetRCAByWorkItemID id;;
  let '(rca, err) := r in
  match err, rca with
  | Some err, _ => Ret (api_error 500 (Error err))
  | None, None => Ret (api_error 404 "no RCA submitted for this work item")
  | None, Some rca => Ret (mkApiResponse StatusOK (RCABody rca))
  end.

Definition handle_GetDashboard `{Formats} : io ApiResponse :=
  r <-- GetDashboardState;;
  match r with
  | (Some cached, None) => Ret (mkApiResponse StatusOK (DashboardBody cached))
  | _ =>
      r <-- ListActiveWorkItems;;
      let '(items, err) := r in
      match err with
      | Some err => Ret (api_error 500 (Error err))
      | None =>
          r <-- GetDashboardCounts;;
          let '(c, err) := r in
          match err with
          | Some err => Ret (api_error 500 (Error err))
          | None =>
              sps <-- GetSignalsPerSecond;;
              t <-- now;;
              let state := mkDashboardState (c_open c) (c_investigating c) (c_resolved c) (c_closed c) sps.1 items t in
              SetDashboardState state;;;
              Ret (mkApiResponse StatusOK (DashboardBody state))
          end
      end
  end.

Definition handle_GetSignals (workItemID : string) : io ApiResponse :=
  r <-- GetSignalsByWorkItemID workItemID;;
  match r.2 with
  | Some err => Ret (api_error 500 (Error err))
  | None => Ret (mkApiResponse StatusOK (SignalsBody r.1))
  end.

(** ** [contains] is substring search *)

Lemma substring_full s : String.substring 0 (String.length s) s = s.
Proof. induction s as [|a s IH]; cbn; [done|by rewrite IH]. Qed.

Lemma substring_app_l pre s n : String.substring (String.length pre) n (pre +:+ s) = String.substring 0 n s.
Proof. induction pre as [|a pre IH]; cbn; [done|exact IH]. Qed.

Lemma substring_prefix s post : String.substring 0 (String.length s) (s +:+ post) = s.
Proof. induction s as [|a s IH]; [by destruct post|]. change (String a (String.substring 0 (String.length s) (s +:+ post)) = String a s). by rewrite IH. Qed.

Lemma substring_split i n s : exists pre post, s = pre +:+ String.substring i n s +:+ post /\ (String.length pre <= i)%nat.
Proof.
  revert i n. induction s as [|a s IH]; intros i n.
  - exists "", "". split; [by destruct i, n|cbn; lia].
  - destruct i as [|i].
    + destruct n as [|n]; [by exists "", (String a s)|]. cbn. destruct (IH 0%nat n) as (pre & post & Hs & Hp).
      assert (pre = "") as -> by (destruct pre; [done|cbn in Hp; lia]).
      exists "", post. split; [|done].
      change (String a s = String a (String.substring 0 n s +:+ post)). f_equal. exact Hs.
    + destruct (IH i n) as (pre & post & Hs & Hp). exists (String a pre), post.
      split; [|cbn; lia]. change (String a s = String a (pre +:+ String.substring i n s +:+ post)). by f_equal.
Qed.

Lemma containsAt_loop_true fuel s sub i : containsAt_loop fuel s sub i = true <->
  exists j, (i <= j < i + fuel)%nat /\ String.substring j (String.length sub) s = sub.
Proof.
  revert i. induction fuel as [|fuel IH]; intros i; cbn [containsAt_loop].
  - split; [done|]. intros (j & Hj & _). lia.
  - case_bool_decide as Hs.
    + split; [|done]. intros _. exists i. split; [lia|done].
    + rewrite IH. split; intros (j & Hj & Hsub); exists j; (split; [|done]); [lia|].
      destruct (decide (j = i)) as [->|]; [done|lia].
Qed.

(** [contains] is substring search: it is true exactly when the first string has the second
    as a contiguous part (at any position, the empty string included), and never reads out of
    range. *)
Theorem contains_spec s sub : contains s sub = true <-> exists pre post, s = pre +:+ sub +:+ post.
Proof.
  assert (Hat : containsAt s sub = true -> exists pre post, s = pre +:+ sub +:+ post).
  { intros (j & _ & Hj)%containsAt_loop_true. destruct (substring_split j (String.length sub) s) as (pre & post & Hs & _).
    exists pre, post. by rewrite Hj in Hs. }
  unfold contains. rewrite andb_true_iff, orb_true_iff, andb_true_iff, Z.leb_le, Z.ltb_lt, bool_decide_eq_true. split.
  - intros [_ [->|[_ Hc]]]; [|by apply Hat]. exists "", "". symmetry. apply string_app_nil_r.
  - intros (pre & post & ->). unfold len. rewrite !string_length_app.
    split; [lia|]. destruct (decide (0 < String.length pre + (String.length sub + String.length post))%nat) as [Hpos|Hz].
    + right. split; [lia|]. apply containsAt_loop_true. exists (String.length pre).
      split; [unfold len; rewrite !string_length_app; lia|]. by rewrite substring_app_l, substring_prefix.
    + left. destruct pre; [|cbn in Hz; lia]. destruct post; [|cbn in Hz; lia]. exact (string_app_nil_r sub).
Qed.

(** ** The status of a transition *)

Lemma Validate_rca_checks r e : Validate r = Some e -> e ∈ rca_checks.
Proof.
  rewrite Validate_find. intros (before & after & -> & _)%(find_first_iff (rca_check_fails r)).
  rewrite elem_of_app, elem_of_cons. by auto.
Qed.

Lemma invalid_transition_status from to valid : transition_status (invalid_transition from to valid) = 409.
Proof.
  unfold transition_status, is_sentinel. rewrite !bool_decide_false by done. unfold isInvalidTransition.
  rewrite (proj2 (contains_spec _ _)); [done|].
  exists "workflow: ", (": " +:+ from +:+ " → " +:+ to +:+ " (valid: " +:+ print_states valid +:+ ")"). done.
Qed.

Lemma incomplete_rca_status e : e ∈ rca_checks ->
  transition_status (EWrap "" (ESentinel ErrRCARequiredForClose) (": " +:+ sentinel_text e)) = 500.
Proof.
  unfold transition_status, is_sentinel. rewrite !bool_decide_false by done. unfold rca_checks.
  rewrite !elem_of_cons, elem_of_nil. by intros [->|[->|[->|[->|[->|[->|[->|[->|[]]]]]]]]]; vm_compute.
Qed.

Section Status.
Context `{FaultFree}.

(** C28. The status of [PATCH /workitems/:id/transition], in a fault-free deployment and run on
    its own: 400 without an id or a target; else what the engine's contract says: 200 when the
    transition is applied, 404 when the work item does not exist, 409 when the target is not
    the successor state, 422 when no RCA is stored. For a stored RCA that is not complete the
    error wraps the sentinel, the [switch] compares it by identity, and the status is 500. *)
Theorem handle_TransitionWorkItem_status id to s : tables_ok (tables (seen s)) ->
  sees (handle_TransitionWorkItem id (inr to)) (fun r s' =>
    if decide (id = "" \/ to = "") then api_status r = 400 /\ tables (seen s') = tables (seen s)
    else
      match transition_spec (tables (seen s)) id to with
      | inr moved => api_status r = 200 /\ exists t, clock (seen s) <= t /\ tables (seen s') = moved t /\
          api_body r = TransitionBody (work_items (moved t) !! id)
      | inl reason => tables (seen s') = tables (seen s) /\
          (reason = ErrWorkItemNotFound -> api_status r = 404) /\
          (reason = ErrInvalidTransition -> api_status r = 409) /\
          (reason = ErrRCARequiredForClose ->
             api_status r = if decide (is_Some (rcas (tables (seen s)) !! id)) then 500 else 422)
      end) s.
Proof.
  intros Hok. unfold handle_TransitionWorkItem.
  destruct (decide (id = "")) as [->|Hid]; [by apply sees_ret; rewrite decide_True by auto|].
  rewrite (bool_decide_false (id = "")) by done.
  destruct (decide (to = "")) as [->|Hto]; [by apply sees_ret; rewrite decide_True by auto|].
  rewrite (bool_decide_false (to = "")) by done. destruct (decide (id = "" \/ to = "")) as [[?|?]|_]; [done|done|].
  apply sees_bind. eapply sees_mono; [|by apply Transition_fine]. intros r s1 Hr.
  destruct (transition_spec (tables (seen s)) id to) as [reason|moved] eqn:Hspec.
  - destruct Hr as [HT ->]. apply sees_ret. split; [done|]. cbn [api_status api_error].
    unfold transition_spec, refusal in *. destruct (work_items (tables (seen s)) !! id) as [wi|].
    2: { injection Hspec as <-. by repeat split. }
    destruct (decide (follows (wi_State wi) to)).
    2: { injection Hspec as <-. repeat split; try done. intros _. apply invalid_transition_status. }
    destruct (decide (to = StateClosed)); [|done].
    destruct (rcas (tables (seen s)) !! id) as [rca|].
    + destruct (decide (complete_RCA rca)) as [|Hinc]; [done|]. injection Hspec as <-. repeat split; try done.
      intros _. rewrite decide_True by (by eexists). cbn.
      destruct (Validate rca) as [err|] eqn:Hv; [|by apply Validate_complete in Hv].
      by apply incomplete_rca_status, (Validate_rca_checks rca).
    + injection Hspec as <-. by repeat split.
  - destruct Hr as (t & Ht & HT & ->). apply sees_ret. split; [done|]. by exists t.
Qed.
End Status.

(** ** Under interference *)

Section Concurrent.
Context `{World} `{Formats}.

Lemma ret_any {A} (a : A) s : safe (Ret a : io A) (fun _ _ => True) s.
Proof. by apply safe_ret. Qed.

Lemma rebuildDashboardCache_safe items s : Inv s -> safe (rebuildDashboardCache items) (fun _ _ => True) s.
Proof. intros Hi. walk store_op. Qed.

Lemma handle_ListWorkItems_safe s : Inv s -> safe handle_ListWorkItems (fun _ _ => True) s.
Proof. intros Hi. walk store_op. Qed.

Lemma handle_GetWorkItem_safe id s : Inv s -> safe (handle_GetWorkItem id) (fun _ _ => True) s.
Proof.
  intros Hi. unfold handle_GetWorkItem. case_bool_decide; [apply ret_any|].
  apply safe_bind, GetWorkItem_safe; [done|]. intros [wi [err|]] s1 _ Hi1 Hgot; [destruct (is_sentinel _ _); apply ret_any|].
  destruct wi as [wi|]; [|done]. apply safe_bind, GetSignals_safe; [done|]. intros sigs s2 _ Hi2.
  apply safe_bind, GetRCA_safe; [done|]. intros rca s3 _ Hi3 _.
  destruct Hgot as (_ & _ & Hok). unfold work_item_ok in Hok. rewrite !andb_true_iff in Hok. destruct Hok as [[[_ Hst] _] _].
  unfold GetValidTransitionsSync. destruct (stateFor_known (E := eff) (wi_State wi) Hst) as (impl & -> & _).
  cbn [bind]. apply ret_any.
Qed.

Lemma handle_TransitionWorkItem_safe id parsed s : Inv s -> safe (handle_TransitionWorkItem id parsed) (fun _ _ => True) s.
Proof. intros Hi. walk ltac:(eapply safe_mono; [|by apply Transition_safe]). Qed.

Lemma handle_SubmitRCA_safe id parsed user s : Inv s -> safe (handle_SubmitRCA id parsed user) (fun _ _ => True) s.
Proof. intros Hi. walk ltac:(eapply safe_mono; [|by apply SubmitRCA_ok]). Qed.

Lemma handle_GetRCA_safe id s : Inv s -> safe (handle_GetRCA id) (fun _ _ => True) s.
Proof. intros Hi. walk store_op. Qed.

Lemma handle_GetDashboard_safe s : Inv s -> safe handle_GetDashboard (fun _ _ => True) s.
Proof. intros Hi. walk store_op. Qed.

Lemma handle_GetSignals_safe wid s : Inv s -> safe (handle_GetSignals wid) (fun _ _ => True) s.
Proof. intros Hi. walk store_op. Qed.
End Concurrent.
