(* ===== verification/Process.v ===== *)
(** The life of the process: [main] and [runMigrations] of [backend/cmd/server/main.go], with
    [Start], [runWorker] and [Wait] of [backend/internal/worker/pool.go].

    The start-up is a program; what follows is a machine whose events are the steps of the
    goroutines that decide when the process ends: the handlers that enqueue, the workers, the
    signal that cancels the context, and [main]. What a worker does with a signal is
    [Worker.processSignal]; here it takes the signal and, some time later, is done with it. *)
From S2P Require Import Prelude Float64 GoTime Models Queue RateLimiter Tables Prog Services Retry.
From S2P Require Import Postgres RedisStore Mongo Worker Config.
Local Open Scope string_scope.
Local Open Scope Z_scope.
Local Open Scope list_scope.

(** ** Start-up *)

(** [ReadFile] is [os.ReadFile]. A statement that fails is only logged. *)
Definition runMigrations (ReadFile : string -> error + string) : io (option error) :=
  let migration := match ReadFile "/app/migrations/001_init_schema.sql" with
                   | inr sql => inr sql
                   | inl _ => ReadFile "migrations/001_init_schema.sql"
                   end in
  match migration with
  | inl err => Ret (Some err)
  | inr sql => call (PgExecScript sql);;; Ret None
  end.

(** ** The goroutines *)

(** [runWorker]: in its [select], in [processSignal], returned. *)
Inductive worker_state := Waiting | Processing (signal : Signal) | Stopped.

(** [main], after the start-up: in the [select], in [ShutdownWithContext], in [pool.Wait()], in the
    deferred [stores.Close] ([Config.Stores_Close]). A fatal error exits without it. *)
Inductive main_state := Serving | ShuttingDown | WaitingForWorkers | ClosingStores | Exited (code : Z).

(** [done_] is whether [ctx.Done()] is closed; the last two say what became of the signals. *)
Record Life := mkLife {
  main_at : main_state;
  ctx_done : bool;
  workers : list worker_state;
  wg : Z;
  signals : SignalQueue;
  accepted_signals : list Signal;
  finished_signals : list Signal;
}.

Definition with_main (p : main_state) (l : Life) : Life :=
  mkLife p (ctx_done l) (workers l) (wg l) (signals l) (accepted_signals l) (finished_signals l).
Definition with_worker (i : nat) (w : worker_state) (l : Life) : Life :=
  mkLife (main_at l) (ctx_done l) (<[i := w]> (workers l)) (wg l) (signals l) (accepted_signals l) (finished_signals l).
Definition with_wg (n : Z) (l : Life) : Life :=
  mkLife (main_at l) (ctx_done l) (workers l) n (signals l) (accepted_signals l) (finished_signals l).
Definition with_signals (q : SignalQueue) (l : Life) : Life :=
  mkLife (main_at l) (ctx_done l) (workers l) (wg l) q (accepted_signals l) (finished_signals l).
Definition accept (s : Signal) (l : Life) : Life :=
  mkLife (main_at l) (ctx_done l) (workers l) (wg l) (signals l) (accepted_signals l ++ [s]) (finished_signals l).
Definition finish (s : Signal) (l : Life) : Life :=
  mkLife (main_at l) (ctx_done l) (workers l) (wg l) (signals l) (accepted_signals l) (finished_signals l ++ [s]).

(** The loop of [Start]: [p.wg.Add(1); go p.runWorker(ctx, i)]. *)
Fixpoint Start (n : nat) (l : Life) : Life :=
  match n with
  | O => l
  | S n => Start n (mkLife (main_at l) (ctx_done l) (workers l ++ [Waiting]) (wg l + 1) (signals l)
                      (accepted_signals l) (finished_signals l))
  end.

(** What [main] has built when it comes to its [select]. *)
Definition started (env : string -> string) : Life :=
  Start (Z.to_nat (pool_workers (worker_count env))) (mkLife Serving false [] 0 (New (queue_capacity env)) [] []).

Definition listen_port (env : string -> string) : string := getEnv env "PORT" "8080".

(** The largest channel of pointers that [make] makes on a machine of 64 bits; it panics for a larger
    one ([mem > maxAlloc-hchanSize] in the runtime, with 2^48 and 96 bytes). *)
Definition max_chan : Z := 2 ^ 45 - 12.

(** [main] up to the [select]: why the process ends, the message of [log.Fatal] with its error or a
    panic of [main], or the running process and the address it listens at. *)
Definition main_setup (env : string -> string) (ReadFile : string -> error + string) :
    io ((string * error) + (Life * string)) :=
  err <-- InitAll (ConfigFromEnv env);;
  match err with
  | Some err => Ret (inl ("failed to initialise stores", err))
  | None =>
      err <-- runMigrations ReadFile;;
      match err with
      | Some err => Ret (inl ("failed to run migrations", err))
      | None =>
          if max_chan <? Cap (New (queue_capacity env))
          then Ret (inl ("panic", EText "makechan: size out of range"))
          else Ret (inr (started env, ":" +:+ listen_port env))
      end
  end.

(** ** The events *)

Inductive event :=
| Enqueue (s : Signal)       (* a handler calls [TryEnqueue] *)
| Interrupt                  (* SIGINT or SIGTERM cancels the context *)
| ServerFails                (* [app.Listen] returns an error *)
| Take (i : nat)             (* a worker's [select] receives from the queue *)
| Finish (i : nat)           (* [processSignal] returns *)
| Stop (i : nat)             (* a worker's [select] finds the context done; [wg.Done()] *)
| MainGoesOn.                (* [main]: out of the [select], of the HTTP shutdown, of [Wait], of [stores.Close] *)

Definition exited (l : Life) : bool := match main_at l with Exited _ => true | _ => false end.

(** The turns of [runWorker]: the two cases of its [select], and the return of [processSignal]. [None]
    says that the event cannot happen in this state. *)
Definition worker_receives (i : nat) (l : Life) : option Life :=
  match workers l !! i, Consume (signals l) with
  | Some Waiting, Some (s, q) => Some (with_worker i (Processing s) (with_signals q l))
  | _, _ => None
  end.

Definition worker_finishes (i : nat) (l : Life) : option Life :=
  match workers l !! i with
  | Some (Processing s) => Some (finish s (with_worker i Waiting l))
  | _ => None
  end.

Definition worker_stops (i : nat) (l : Life) : option Life :=
  match workers l !! i with
  | Some Waiting => if ctx_done l then Some (with_wg (wg l - 1) (with_worker i Stopped l)) else None
  | _ => None
  end.

(** [Wait] returns when the counter of the wait group is zero. *)
Definition Wait (l : Life) : bool := wg l =? 0.

(** The end of [main]. *)
Definition main_goes_on (l : Life) : option Life :=
  match main_at l with
  | Serving => if ctx_done l then Some (with_main ShuttingDown l) else None
  | ShuttingDown => Some (with_main WaitingForWorkers l)
  | WaitingForWorkers => if Wait l then Some (with_main ClosingStores l) else None
  | ClosingStores => Some (with_main (Exited 0) l)
  | Exited _ => None
  end.

Definition life_step (e : event) (l : Life) : option Life :=
  if exited l then None else
  match e with
  | Enqueue s =>
      let '(ok, q) := TryEnqueue s (signals l) in
      Some (if ok then accept s (with_signals q l) else with_signals q l)
  | Interrupt =>
      if ctx_done l then None
      else Some (mkLife (main_at l) true (workers l) (wg l) (signals l) (accepted_signals l) (finished_signals l))
  | ServerFails => match main_at l with Serving => Some (with_main (Exited 1) l) | _ => None end
  | Take i => worker_receives i l
  | Finish i => worker_finishes i l
  | Stop i => worker_stops i l
  | MainGoesOn => main_goes_on l
  end.

Fixpoint live_through (es : list event) (l : Life) : option Life :=
  match es with
  | [] => Some l
  | e :: es => match life_step e l with Some l' => live_through es l' | None => None end
  end.

(** Exposes what an event does. *)
Ltac unfold_step := unfold life_step, worker_receives, worker_finishes, worker_stops, main_goes_on, Wait.
Tactic Notation "unfold_step" "in" hyp(H) := unfold life_step, worker_receives, worker_finishes, worker_stops, main_goes_on, Wait in H.

(** ** No signal is duplicated or forgotten while the process lives *)

Definition is_stopped (w : worker_state) : bool := match w with Stopped => true | _ => false end.

(** The signals that workers have taken and are not done with. *)
Definition in_process (ws : list worker_state) : list Signal :=
  ws ≫= fun w => match w with Processing s => [s] | _ => [] end.

Definition running (ws : list worker_state) : nat := length (filter (fun w => is_stopped w = false) ws).

#[local] Arguments running : simpl never.
#[local] Arguments in_process : simpl never.

Record life_inv (l : Life) : Prop := {
  li_wg : wg l = Z.of_nat (running (workers l));
  li_len : Len (signals l) <= capacity (signals l);
  li_kept : accepted_signals l ≡ₚ finished_signals l ++ in_process (workers l) ++ ch (signals l);
  li_stopped : (running (workers l) < length (workers l))%nat -> ctx_done l = true;
  li_exit : main_at l = ClosingStores \/ main_at l = Exited 0 -> ctx_done l = true /\ running (workers l) = 0%nat;
  li_leaving : main_at l = ShuttingDown \/ main_at l = WaitingForWorkers -> ctx_done l = true;
}.

Lemma in_process_update ws i w w' : ws !! i = Some w ->
  in_process (<[i := w']> ws) ++ in_process [w] ≡ₚ in_process ws ++ in_process [w'].
Proof.
  intros Hi. rewrite insert_take_drop by (by eapply lookup_lt_Some). rewrite <- (take_drop_middle ws i w Hi) at 3.
  unfold in_process. rewrite !bind_app. cbn. rewrite !app_nil_r.
  generalize (drop (S i) ws ≫= fun w => match w with Processing s => [s] | _ => [] end). intros l2.
  set (w1 := match w with Processing s => [s] | _ => [] end). set (w2 := match w' with Processing s => [s] | _ => [] end).
  rewrite <- !app_assoc. f_equiv. rewrite (Permutation_app_comm l2 w1), (Permutation_app_comm l2 w2), !app_assoc.
  f_equiv. apply Permutation_app_comm.
Qed.

Definition weigh_running (w : worker_state) : nat := if is_stopped w then 0 else 1.

Lemma running_update ws i w w' : ws !! i = Some w ->
  (running (<[i := w']> ws) + weigh_running w = running ws + weigh_running w')%nat.
Proof.
  intros Hi. rewrite insert_take_drop by (by eapply lookup_lt_Some). rewrite <- (take_drop_middle ws i w Hi) at 3.
  unfold running, weigh_running. rewrite !filter_app, !length_app, !filter_cons.
  repeat case_decide; destruct w, w'; cbn in *; try done; lia.
Qed.

Lemma Start_keeps n l : Start n l =
  mkLife (main_at l) (ctx_done l) (workers l ++ replicate n Waiting) (wg l + Z.of_nat n) (signals l)
    (accepted_signals l) (finished_signals l).
Proof.
  revert l. induction n as [|n IH]; intros l; cbn [Start replicate]; [by destruct l; cbn; rewrite app_nil_r, Z.add_0_r|].
  rewrite IH. cbn. rewrite <- app_assoc. f_equal. lia.
Qed.

Lemma replicate_waiting n : running (replicate n Waiting) = n /\ in_process (replicate n Waiting) = [].
Proof.
  induction n as [|n [IH1 IH2]]; [done|]. cbn [replicate]. split; [|exact IH2].
  unfold running in *. rewrite filter_cons_True by done. cbn. by rewrite IH1.
Qed.

Lemma started_inv env : life_inv (started env).
Proof.
  unfold started. rewrite Start_keeps. cbn.
  destruct (replicate_waiting (Z.to_nat (pool_workers (worker_count env)))) as [Hr Hp].
  constructor; cbn; rewrite ?Hr, ?Hp; try done.
  - apply Z.lt_le_incl, Cap_New_pos.
  - rewrite length_replicate. lia.
  - by intros [].
  - by intros [].
Qed.

(** A worker goes from [w] to [w'], with the queue [q] and the finished signals [fin]. *)
Lemma life_inv_worker l i w w' q fin (n : Z) : life_inv l -> workers l !! i = Some w -> is_stopped w = false ->
  n = wg l - Z.of_nat (weigh_running w) + Z.of_nat (weigh_running w') ->
  Len q <= capacity q -> (is_stopped w' = true -> ctx_done l = true) ->
  in_process [w] ++ finished_signals l ++ ch (signals l) ≡ₚ in_process [w'] ++ fin ++ ch q ->
  life_inv (mkLife (main_at l) (ctx_done l) (<[i := w']> (workers l)) n q (accepted_signals l) fin).
Proof.
  intros [Hwg Hlen Hkept Hst Hex Hlv] Hi Hlive -> Hq Hw' Hp. pose proof (running_update _ _ _ w' Hi) as Hr.
  pose proof (in_process_update _ _ _ w' Hi) as Hip. constructor; cbn; try done.
  - rewrite Hwg. lia.
  - apply (Permutation_app_inv_l (in_process [w] ++ in_process [w'])). rewrite Hkept.
    transitivity ((in_process (workers l) ++ in_process [w']) ++ (in_process [w] ++ finished_signals l ++ ch (signals l))).
    { solve_Permutation. }
    rewrite <- Hip, Hp. solve_Permutation.
  - rewrite length_insert. intros Hlt. destruct (is_stopped w') eqn:Hs; [by apply Hw'|]. apply Hst.
    assert (weigh_running w' = 1)%nat by (unfold weigh_running; by rewrite Hs).
    assert (weigh_running w <= 1)%nat by (unfold weigh_running; destruct (is_stopped w); lia). lia.
  - intros Hm. destruct (Hex Hm) as [_ Hr0]. pose proof (running_update _ _ _ Stopped Hi) as Hr1.
    unfold weigh_running in Hr1 at 1. rewrite Hlive in Hr1. cbn in Hr1. lia.
Qed.

Lemma life_step_inv e l l' : life_inv l -> life_step e l = Some l' -> life_inv l'.
Proof.
  intros Hinv Hs. unfold_step in Hs. destruct (exited l) eqn:Hexit; [done|].
  pose proof Hinv as [Hwg Hlen Hkept Hst Hex Hlv].
  assert (Hlive : forall c, main_at l <> Exited c) by (by intros c Hc; unfold exited in Hexit; rewrite Hc in Hexit).
  destruct e as [s| | |i|i|i|].
  - unfold TryEnqueue in Hs. destruct (Z.ltb_spec (Len (signals l)) (capacity (signals l))) as [Hlt|Hge]; injection Hs as <-.
    + constructor; cbn; try done; [unfold Len in *; cbn; rewrite length_app; cbn; lia|]. rewrite Hkept. by rewrite !app_assoc.
    + by constructor.
  - destruct (ctx_done l); [done|]. injection Hs as <-. constructor; cbn; try done. intros Hm. split; [done|by apply Hex].
  - destruct (main_at l) eqn:Hm; try done. injection Hs as <-. constructor; cbn; try done; by intros [].
  - destruct (workers l !! i) as [[| |]|] eqn:Hi; try done. unfold Consume in Hs.
    destruct (ch (signals l)) as [|s rest] eqn:Hch; [done|]. injection Hs as <-.
    apply (life_inv_worker l i Waiting); try done; cbn; [lia|unfold Len in *; rewrite Hch in Hlen; cbn in *; lia|].
    rewrite Hch. unfold in_process. cbn. symmetry. apply Permutation_middle.
  - destruct (workers l !! i) as [[|s|]|] eqn:Hi; try done. injection Hs as <-.
    apply (life_inv_worker l i (Processing s)); try done; cbn; [lia|].
    unfold in_process. cbn. rewrite <- app_assoc. apply Permutation_middle.
  - destruct (workers l !! i) as [[| |]|] eqn:Hi; try done. destruct (ctx_done l) eqn:Hd; [|done]. injection Hs as <-.
    apply (life_inv_worker l i Waiting); try done; cbn; lia.
  - destruct (main_at l) eqn:Hm; try done.
    + destruct (ctx_done l) eqn:Hd; [|done]. injection Hs as <-. constructor; cbn; try done; by intros [].
    + injection Hs as <-. constructor; cbn; try done; [by intros []|by auto].
    + destruct (Z.eqb_spec (wg l) 0) as [Hz|]; [|done]. injection Hs as <-. constructor; cbn; try done; [|by intros []].
      intros _. split; [by auto|lia].
    + injection Hs as <-. constructor; cbn; try done; [by auto|by intros []].
Qed.

Lemma live_through_inv es l l' : life_inv l -> live_through es l = Some l' -> life_inv l'.
Proof.
  revert l. induction es as [|e es IH]; intros l Hi Hl; cbn in Hl; [by injection Hl as <-|].
  destruct (life_step e l) as [l1|] eqn:Hs; [|done]. by apply (IH l1); [eapply life_step_inv|].
Qed.

Lemma live_through_done es l l' : ctx_done l = true -> live_through es l = Some l' -> ctx_done l' = true.
Proof.
  revert l. induction es as [|e es IH]; intros l Hd Hl; cbn in Hl; [by injection Hl as <-|].
  destruct (life_step e l) as [l1|] eqn:Hs; [|done]. apply (IH l1); [|done]. unfold_step in Hs.
  destruct e; repeat case_match; simplify_eq/=; done.
Qed.

Lemma no_running ws : running ws = 0%nat -> in_process ws = [].
Proof.
  induction ws as [|w ws IH]; [done|]. unfold running, in_process in *. rewrite filter_cons. cbn.
  case_decide as Hw; [done|]. intros Hr. rewrite (IH Hr). by destruct w.
Qed.

(** C13. The signals of a process: in every life of the process, each accepted signal is exactly
    once finished by a worker, in the hands of a worker, or still in the queue, which keeps its
    bound; and when [main] has returned from [pool.Wait()], and closes the stores, every worker has
    stopped, so that no signal is lost in the middle of [processSignal]. *)
Theorem signals_are_conserved env es l : live_through es (started env) = Some l ->
  accepted_signals l ≡ₚ finished_signals l ++ in_process (workers l) ++ ch (signals l) /\
  Len (signals l) <= capacity (signals l) /\
  wg l = Z.of_nat (running (workers l)) /\
  (main_at l = ClosingStores \/ main_at l = Exited 0 ->
     running (workers l) = 0%nat /\ accepted_signals l ≡ₚ finished_signals l ++ ch (signals l)).
Proof.
  intros Hl. destruct (live_through_inv _ _ _ (started_inv env) Hl) as [Hwg Hlen Hkept _ Hex _].
  split; [done|]. split; [done|]. split; [done|]. intros Hm. destruct (Hex Hm) as [_ Hr].
  split; [done|]. by rewrite (no_running _ Hr) in Hkept.
Qed.

(** ** The shutdown ends *)

Definition is_enqueue (e : event) : bool := match e with Enqueue _ => true | _ => false end.

(** What is left to do: each worker must stop, after the signal it has; [main] has its way to go. *)
Definition weigh (w : worker_state) : nat := match w with Waiting => 1 | Processing _ => 2 | Stopped => 0 end.
Definition main_weight (p : main_state) : nat :=
  match p with Serving => 4 | ShuttingDown => 3 | WaitingForWorkers => 2 | ClosingStores => 1 | Exited _ => 0 end.
Definition left_to_do (l : Life) : nat :=
  2 * length (ch (signals l)) + sum_list_with weigh (workers l) + main_weight (main_at l) + (if ctx_done l then 0 else 1).

#[local] Arguments sum_list_with : simpl never.

(** Every event but an arrival brings the process nearer to its end. *)
Lemma life_step_left e l l' : life_step e l = Some l' ->
  (left_to_do l' + (if is_enqueue e then 0 else 1) <= left_to_do l + (if is_enqueue e then 2 else 0))%nat.
Proof.
  unfold_step; unfold left_to_do. destruct (exited l); [done|]. intros Hs. destruct e as [s| | |i|i|i|]; cbn [is_enqueue].
  - unfold TryEnqueue in Hs. destruct (_ <? _); injection Hs as <-; cbn; rewrite ?length_app; cbn; lia.
  - destruct (ctx_done l); [done|]. injection Hs as <-. cbn. lia.
  - destruct (main_at l); try done. injection Hs as <-. cbn. lia.
  - destruct (workers l !! i) as [[| |]|] eqn:Hi; try done. unfold Consume in Hs.
    destruct (ch (signals l)) as [|s rest]; [done|]. injection Hs as <-.
    pose proof (sum_list_with_insert weigh _ _ _ (Processing s) Hi). cbn in *. lia.
  - destruct (workers l !! i) as [[| |]|] eqn:Hi; try done. injection Hs as <-.
    pose proof (sum_list_with_insert weigh _ _ _ Waiting Hi). cbn in *. lia.
  - destruct (workers l !! i) as [[| |]|] eqn:Hi; try done. destruct (ctx_done l) eqn:Hd; [|done]. injection Hs as <-.
    pose proof (sum_list_with_insert weigh _ _ _ Stopped Hi). cbn in *. rewrite Hd. lia.
  - destruct (main_at l); try done; [destruct (ctx_done l) eqn:Hd; [|done]| |destruct (_ =? _); [|done]|]; injection Hs as <-; cbn; rewrite ?Hd; lia.
Qed.

Lemma live_through_left es l l' : live_through es l = Some l' -> Forall (fun e => is_enqueue e = false) es ->
  (left_to_do l' + length es <= left_to_do l)%nat.
Proof.
  revert l. induction es as [|e es IH]; intros l Hl Hes; cbn [live_through length] in *; [injection Hl as ->; lia|].
  apply Forall_cons in Hes as [He Hes]. destruct (life_step e l) as [l1|] eqn:Hs; [|done].
  pose proof (life_step_left _ _ _ Hs) as Hle. rewrite He in Hle. specialize (IH l1 Hl Hes). lia.
Qed.

(** Once the context is done something is always left to happen, until the process has exited. *)
Lemma shutdown_goes_on l : life_inv l -> ctx_done l = true -> exited l = false ->
  exists e l', is_enqueue e = false /\ life_step e l = Some l'.
Proof.
  intros [Hwg _ _ _ _ _] Hd Hex. destruct (main_at l) eqn:Hm; [..|by unfold exited in Hex; rewrite Hm in Hex].
  1,2,4: exists MainGoesOn; unfold_step; rewrite Hex, Hm, ?Hd; by eexists.
  destruct (Z.eqb_spec (wg l) 0) as [Hz|Hz].
  { exists MainGoesOn. unfold_step. rewrite Hex, Hm, Hz. by eexists. }
  assert (Hin : exists w, w ∈ workers l /\ is_stopped w = false).
  { unfold running in Hwg. destruct (filter (fun w => is_stopped w = false) (workers l)) as [|w ws] eqn:Hf; [done|].
    exists w. assert (Hw : w ∈ filter (fun w => is_stopped w = false) (workers l)) by (rewrite Hf; constructor).
    by apply list_elem_of_filter in Hw as [? ?]. }
  destruct Hin as (w & [i Hi]%list_elem_of_lookup & Hw). destruct w as [|s|]; [| |done].
  - exists (Stop i). unfold_step. rewrite Hex, Hi, Hd. by eexists.
  - exists (Finish i). unfold_step. rewrite Hex, Hi. by eexists.
Qed.

Lemma left_to_do_bound l : life_inv l ->
  (left_to_do l <= 2 * Z.to_nat (capacity (signals l)) + 2 * length (workers l) + 5)%nat.
Proof.
  intros [_ Hlen _ _ _ _]. unfold left_to_do, Len in *.
  assert (Hw : (sum_list_with weigh (workers l) <= 2 * length (workers l))%nat).
  { clear. induction (workers l) as [|w ws IH]; [done|]. unfold sum_list_with in *. cbn. destruct w; cbn; lia. }
  destruct (ctx_done l), (main_at l); cbn [main_weight]; lia.
Qed.

(** C12. The graceful shutdown ends: once the context is cancelled and the HTTP server lets no more
    signals in, every sequence of events of workers and [main] is bounded by twice the capacity
    of the queue, two for each worker and five; and until the process has exited there is always
    a next one. No fairness is assumed; [pool.Wait()] cannot hang. *)
Theorem shutdown_terminates env es l : live_through es (started env) = Some l -> ctx_done l = true ->
  forall es' l', live_through es' l = Some l' -> Forall (fun e => is_enqueue e = false) es' ->
    (length es' <= 2 * Z.to_nat (capacity (signals l)) + 2 * length (workers l) + 5)%nat /\
    (exited l' = false -> exists e l'', is_enqueue e = false /\ life_step e l' = Some l'').
Proof.
  intros Hl Hd es' l' Hl' Hes. pose proof (live_through_inv _ _ _ (started_inv env) Hl) as Hi. split.
  - pose proof (live_through_left _ _ _ Hl' Hes). pose proof (left_to_do_bound l Hi). lia.
  - apply shutdown_goes_on; [by eapply live_through_inv|by eapply live_through_done].
Qed.

(** ** The queue is not drained *)

Lemma live_through_app es1 es2 l : live_through (es1 ++ es2) l = live_through es1 l ≫= live_through es2.
Proof. revert l. induction es1 as [|e es1 IH]; intros l; [done|]. cbn. by destruct (life_step e l). Qed.

Lemma enqueue_all ss l : exited l = false -> Len (signals l) + Z.of_nat (length ss) <= capacity (signals l) ->
  exists q, ch q = ch (signals l) ++ ss /\
    live_through (Enqueue <$> ss) l =
      Some (mkLife (main_at l) (ctx_done l) (workers l) (wg l) q (accepted_signals l ++ ss) (finished_signals l)).
Proof.
  revert l. induction ss as [|s ss IH]; intros l Hex Hlen; cbn [fmap list_fmap live_through].
  { exists (signals l). rewrite !app_nil_r. by destruct l. }
  unfold_step. rewrite Hex. unfold TryEnqueue. cbn [length] in Hlen. rewrite (proj2 (Z.ltb_lt _ _)) by lia.
  destruct (IH (accept s (with_signals (mkSignalQueue (ch (signals l) ++ [s]) (capacity (signals l)) (dropped (signals l))
    (int64_wrap (enqueued (signals l) + 1))) l)) Hex) as (q & Hq & Hl).
  { unfold Len in *. cbn. rewrite length_app. cbn. lia. }
  cbn in Hq, Hl. rewrite <- app_assoc in Hq, Hl. by exists q.
Qed.

Lemma stop_all n k l : exited l = false -> ctx_done l = true -> workers l = replicate k Stopped ++ replicate n Waiting ->
  live_through (Stop <$> seq k n) l =
    Some (mkLife (main_at l) true (replicate (k + n) Stopped) (wg l - Z.of_nat n) (signals l) (accepted_signals l) (finished_signals l)).
Proof.
  revert k l. induction n as [|n IH]; intros k l Hex Hd Hw; cbn [seq fmap list_fmap live_through].
  { destruct l. cbn in *. rewrite Nat.add_0_r, Z.sub_0_r, Hw, app_nil_r, Hd. done. }
  assert (Hlen : length (replicate k Stopped) = k) by apply length_replicate.
  unfold_step. rewrite Hex, Hw, lookup_app_r, Hlen, Nat.sub_diag, Hd by lia. cbn [replicate lookup list_lookup].
  rewrite IH; [|done|done|].
  - cbn. do 2 f_equal; [by rewrite Nat.add_succ_r|lia].
  - cbn [with_wg with_worker workers]. rewrite Hw, insert_app_r_alt, Hlen, Nat.sub_diag by lia. cbn.
    by rewrite cons_middle, app_assoc, <- replicate_cons_app.
Qed.

(** C38. The shutdown does not drain the queue, although [main] says so: whatever the configuration,
    for every list of signals that the queue can hold there is a life of the process in which
    all of them are accepted, and [main] returns from [pool.Wait()] and exits with all of them
    in the queue and none processed. *)
Theorem shutdown_drops_the_queue env ss : Z.of_nat (length ss) <= Cap (New (queue_capacity env)) ->
  exists es l, live_through es (started env) = Some l /\ main_at l = Exited 0 /\
    accepted_signals l = ss /\ ch (signals l) = ss /\ finished_signals l = [].
Proof.
  intros Hlen. set (n := Z.to_nat (pool_workers (worker_count env))).
  destruct (enqueue_all ss (started env)) as (q & Hq & Hl).
  { unfold started. by rewrite Start_keeps. }
  { unfold started. by rewrite Start_keeps. }
  exists ((Enqueue <$> ss) ++ [Interrupt; MainGoesOn; MainGoesOn] ++ (Stop <$> seq 0 n) ++ [MainGoesOn; MainGoesOn]).
  rewrite live_through_app, Hl. cbn [mbind option_bind]. unfold started in *. rewrite Start_keeps in *. fold n in Hl |- *.
  rewrite live_through_app. cbn. rewrite live_through_app, (stop_all n 0) by done. cbn.
  rewrite Z.sub_diag. cbn. eexists. done.
Qed.

(** ** What [main] starts with *)

Section StartUp.
Context `{World}.

Lemma main_setup_sees env ReadFile s : sees (main_setup env ReadFile) (fun _ s' => waited 0 s s') s.
Proof.
  apply sees_bind. eapply sees_mono; [|apply InitAll_sees]. intros [err|] s1 H1; [by apply sees_ret|].
  assert (Hrun : sees (runMigrations ReadFile) (fun _ s' => waited 0 s1 s') s1).
  { unfold runMigrations. destruct (match ReadFile _ with inr sql => _ | inl _ => _ end) as [err|sql].
    - by apply sees_ret, waited_same.
    - apply sees_call. intros r s2 Hv Hm. by apply sees_ret, waited_same. }
  apply sees_bind. eapply sees_mono; [|exact Hrun]. intros [err|] s2 H2; pose proof (waited_trans _ _ _ _ _ H1 H2) as H12.
  - by apply sees_ret.
  - case_match; by apply sees_ret.
Qed.

End StartUp.

(** The paths at which the migration may be. *)
Definition migration_paths : list string := ["/app/migrations/001_init_schema.sql"; "migrations/001_init_schema.sql"].

Lemma runMigrations_logged ReadFile : logged startup_log (runMigrations ReadFile) (fun log r =>
  match r with
  | Some _ => log = [] /\ Forall (fun path => exists err, ReadFile path = inl err) migration_paths
  | None => exists path sql, path ∈ migration_paths /\ ReadFile path = inr sql /\ log = [Migrates sql]
  end).
Proof.
  unfold runMigrations, migration_paths. destruct (ReadFile "/app/migrations/001_init_schema.sql") as [e|sql] eqn:Happ.
  - destruct (ReadFile "migrations/001_init_schema.sql") as [e'|sql] eqn:Hlocal.
    + cbn. split; [done|]. repeat constructor; by eexists.
    + intros err. exists "migrations/001_init_schema.sql", sql. split; [set_solver|done].
  - intros err. exists "/app/migrations/001_init_schema.sql", sql. split; [set_solver|done].
Qed.

(** C37. The start-up, whatever the services answer, by the log of what [main] does: it ends, and
    changes nothing that the stores hold. The migration is executed only after each of the three
    stores in turn answered, each after less than five failures with waits of 2, 4, 8 and 16 seconds;
    the process runs exactly when the migration was executed and the queue can be made, with an
    empty queue of positive capacity and the configured number of workers, at least one, all
    counted in the wait group. Otherwise it ends, for one of four reasons: a DSN that does not
    parse, before anything else; exactly five failures at one store, after the stores before it
    answered; a migration that is at neither path; a capacity of the queue beyond what [make]
    takes. *)
Theorem main_setup_spec env ReadFile :
  (forall `(World) s, sees (main_setup env ReadFile) (fun _ s' => waited 0 s s') s) /\
  logged startup_log (main_setup env ReadFile) (fun log r =>
    ((exists sql, Migrates sql ∈ log) /\ Cap (New (queue_capacity env)) <= max_chan <-> exists l, r = inr l) /\
    match r with
    | inl (msg, err) =>
        msg = "failed to initialise stores" /\
          (log = [] /\ (exists e, err = EWrap "store: postgres: " (EWrap "postgres: parse config: " e "") "") \/
           exists store e, given_up store log /\ err = EWrap ("store: " +:+ store +:+ ": ") e "") \/
        msg = "failed to run migrations" /\ connecting ["postgres"; "mongodb"; "redis"] log /\
          Forall (fun path => exists err, ReadFile path = inl err) migration_paths \/
        msg = "panic" /\ max_chan < Cap (New (queue_capacity env))
    | inr (l, addr) =>
        (exists log' path sql, connecting ["postgres"; "mongodb"; "redis"] log' /\ log = log' ++ [Migrates sql] /\
           path ∈ migration_paths /\ ReadFile path = inr sql) /\
        main_at l = Serving /\ ch (signals l) = [] /\ 0 < capacity (signals l) <= max_chan /\
        workers l = replicate (Z.to_nat (wg l)) Waiting /\ wg l = pool_workers (worker_count env) /\ 0 < wg l /\
        addr = ":" +:+ (if bool_decide (env "PORT" = "") then "8080" else env "PORT")
    end).
Proof.
  split; [intros; apply main_setup_sees|]. apply logged_bind. eapply logged_mono; [|apply InitAll_logged].
  intros log1 [err|] H1; cbn [logged]; rewrite ?app_nil_r.
  { split; [|by left]. split; [intros [[sql Hsql] _]|by intros [l Hl]]. exfalso.
    destruct H1 as [[-> _]|(store & e & (before & after & log' & _ & Hc & ->) & _)]; [by apply elem_of_nil in Hsql|].
    apply elem_of_app in Hsql as [Hsql|Hsql]; [by apply (connecting_migrates _ _ sql) in Hc|by apply tries_migrates in Hsql]. }
  apply logged_bind. eapply logged_mono; [|apply runMigrations_logged].
  intros log2 [err|]; [intros [-> Hno]|intros (path & sql & Hpath & Hread & ->)]; cbn [logged]; rewrite ?app_nil_r.
  { split; [|by right; left]. split; [intros [[sql Hsql] _]|by intros [l Hl]]. exfalso. by apply (connecting_migrates _ _ sql) in H1. }
  destruct (Z.ltb_spec max_chan (Cap (New (queue_capacity env)))) as [Hbig|Hfits]; cbn [logged]; rewrite app_nil_r.
  { split; [|by right; right]. split; [intros [_ Hle]; lia|by intros [l Hl]]. }
  split; [split; [by eexists|intros _; split; [|done]]|]; [by exists sql; set_solver|].
  split; [by exists log1, path, sql|]. unfold started. rewrite Start_keeps. cbn.
  pose proof (pool_workers_pos (worker_count env)) as Hp. pose proof (Cap_New_pos (queue_capacity env)).
  repeat split; try lia; try done.
  - do 2 f_equal. lia.
  - unfold listen_port, getEnv. by repeat case_bool_decide.
Qed.

(** ** A process with two workers *)

Definition two_workers (key : string) : string := if bool_decide (key = "WORKER_COUNT") then "2" else "".

Definition example_signal (id : string) : Signal :=
  mkSignal id "db-1" ComponentRDBMS "connection refused" SeverityP0 None "wi-1" 0.

(** Two signals; a worker has one of them when the process is interrupted. *)
Definition interrupted : list event :=
  [Enqueue (example_signal "a"); Enqueue (example_signal "b"); Take 1; Interrupt].

Definition rest_of_life : list event := [MainGoesOn; Stop 0; MainGoesOn; Finish 1; Stop 1; MainGoesOn; MainGoesOn].

Definition life_of (es : list event) : Life := default (started two_workers) (live_through es (started two_workers)).

Lemma signals_are_conserved_witness :
  main_at (life_of (interrupted ++ rest_of_life)) = Exited 0 /\
  accepted_signals (life_of (interrupted ++ rest_of_life)) ≡ₚ
    finished_signals (life_of (interrupted ++ rest_of_life)) ++ ch (signals (life_of (interrupted ++ rest_of_life))).
Proof.
  split; [by vm_compute|].
  apply (signals_are_conserved two_workers (interrupted ++ rest_of_life)); [by vm_compute|right; by vm_compute].
Defined.

Lemma shutdown_terminates_witness :
  (length rest_of_life <= 2 * Z.to_nat (capacity (signals (life_of interrupted))) + 2 * length (workers (life_of interrupted)) + 5)%nat /\
  exited (life_of (interrupted ++ rest_of_life)) = true.
Proof.
  split; [|by vm_compute].
  apply (shutdown_terminates two_workers interrupted (life_of interrupted) ltac:(by vm_compute) ltac:(by vm_compute) rest_of_life
    (life_of (interrupted ++ rest_of_life))).
  - by vm_compute.
  - repeat constructor.
Defined.

Lemma shutdown_drops_the_queue_witness :
  exists es l, live_through es (started two_workers) = Some l /\ main_at l = Exited 0 /\
    accepted_signals l = [example_signal "a"] /\ ch (signals l) = [example_signal "a"] /\ finished_signals l = [].
Proof. apply shutdown_drops_the_queue. by vm_compute. Defined.
