(* ===== verification/Auth.v ===== *)
(** Accounts and tokens: [backend/internal/api/auth.go]. bcrypt and jwt are libraries: the class
    [Crypto] stands for the calls, [CryptoLaws] for the documented behaviour that is relied on. The
    accounts share no memory with the rest of the process, so they have a state of their own. *)
From S2P Require Import Prelude Float64 GoTime Models Config.
Local Open Scope string_scope.
Local Open Scope Z_scope.

(** The claims that [makeToken] puts in a token. *)
Record claims := mkClaims { sub : string; exp : Z; iat : Z }.

(** [bcrypt.GenerateFromPassword] draws a salt. [Verify] is what [jwtware] does with a token. *)
Class Crypto := {
  GenerateFromPassword : string -> string -> Z -> error + string;
  CompareHashAndPassword : string -> string -> option error;
  SignedString : claims -> string -> error + string;
  Verify : string -> string -> Time -> option claims;
}.

Class CryptoLaws `{Crypto} : Prop := {
  compare_generated : forall salt password cost hash,
    GenerateFromPassword salt password cost = inr hash -> CompareHashAndPassword hash password = None;
  verify_signed : forall c secret token t,
    SignedString c secret = inr token -> Unix t < exp c -> Verify secret token t = Some c;
}.

Record user := mkUser { u_ID : string; u_Username : string; u_PasswordHash : string; u_CreatedAt : Time }.

(** [userStore.users] *)
Abbreviation userStore := (gmap string user) (only parsing).

(** What the runtime hands out in the course of a request: the salt, the UUID and the clock readings. *)
Record draws := mkDraws { d_salt : string; d_uuid : string; d_created : Time; d_exp : Time; d_iat : Time }.

Section Accounts.
Context `{Crypto}.

(** The lock is held from the look-up to the insertion, so that this is one step. *)
Definition create (d : draws) (username password : string) (users : userStore) : option error * userStore :=
  match users !! username with
  | Some _ => (Some (EText "username already taken"), users)
  | None =>
      match GenerateFromPassword (d_salt d) password 10 with
      | inl err => (Some err, users)
      | inr hash => (None, <[username := mkUser (d_uuid d) username hash (d_created d)]> users)
      end
  end.

(** An account never changes, so that comparing after the lock is released sees the same hash. *)
Definition verify (username password : string) (users : userStore) : error + user :=
  match users !! username with
  | None => inl (ESentinel ErrInvalidCredentials)
  | Some u =>
      match CompareHashAndPassword (u_PasswordHash u) password with
      | Some _ => inl (ESentinel ErrInvalidCredentials)
      | None => inr u
      end
  end.

Definition jwtSecret (env : Env) : string :=
  let s := env "JWT_SECRET" in
  if bool_decide (s = "") then "ims-super-secret-change-in-production" else s.

Definition Hour : Duration := 60 * Minute.

Definition makeToken (env : Env) (d : draws) (username : string) : error + string :=
  SignedString (mkClaims username (Unix (d_exp d + 24 * Hour)) (Unix (d_iat d))) (jwtSecret env).

(** [JWTMiddleware], made when the secret was [secret]: the status of a refusal, or the claims of
    a request that goes on. *)
Definition JWTMiddleware (secret token : string) (t : Time) : Z + claims :=
  match Verify secret token t with Some c => inr c | None => inl 401 end.

(** ** The handlers *)

Inductive AuthBody := AuthError (msg : string) | Token (token : string).

Definition token_response (status : Z) (token : error + string) : Z * AuthBody :=
  match token with
  | inl _ => (500, AuthError "failed to generate token")
  | inr token => (status, Token token)
  end.

(** The body is a username and a password, when it parses. *)
Definition Signup (env : Env) (d : draws) (parsed : error + string * string) (users : userStore) : (Z * AuthBody) * userStore :=
  match parsed with
  | inl _ => ((400, AuthError "invalid request body"), users)
  | inr (username, password) =>
      if len username <? 3 then ((400, AuthError "username must be at least 3 characters"), users)
      else if len password <? 6 then ((400, AuthError "password must be at least 6 characters"), users)
      else
        let '(err, users) := create d username password users in
        match err with
        | Some err => ((409, AuthError (Error err)), users)
        | None => (token_response 201 (makeToken env d username), users)
        end
  end.

Definition Login (env : Env) (d : draws) (parsed : error + string * string) (users : userStore) : Z * AuthBody :=
  match parsed with
  | inl _ => (400, AuthError "invalid request body")
  | inr (username, password) =>
      match verify username password users with
      | inl _ => (401, AuthError (sentinel_text ErrInvalidCredentials))
      | inr u => token_response 200 (makeToken env d (u_Username u))
      end
  end.

(** ** Requests, in the order of their critical sections *)

Inductive auth_event :=
| SignedUp (d : draws) (parsed : error + string * string)
| LoggedIn (d : draws) (parsed : error + string * string).

Definition auth_step (env : Env) (users : userStore) (e : auth_event) : userStore :=
  match e with
  | SignedUp d parsed => (Signup env d parsed users).2
  | LoggedIn _ _ => users
  end.

Definition auth_run (env : Env) (evs : list auth_event) (users : userStore) : userStore := fold_left (auth_step env) evs users.

(** Each account is filed under its name, which has three bytes at least. *)
Definition users_ok (users : userStore) : Prop := map_Forall (fun name u => u_Username u = name /\ 3 <= len name) users.

Lemma Signup_keeps env d parsed users : users ⊆ (Signup env d parsed users).2.
Proof.
  destruct parsed as [e|[name pw]]; cbn; [done|]. destruct (len name <? 3), (len pw <? 6); cbn; try done.
  unfold create. destruct (users !! name) eqn:Hn; [done|]. destruct (GenerateFromPassword _ _ _); cbn; [done|].
  by apply insert_subseteq.
Qed.

Lemma Signup_ok env d parsed users : users_ok users -> users_ok (Signup env d parsed users).2.
Proof.
  intros Hok. destruct parsed as [e|[name pw]]; cbn; [done|].
  destruct (Z.ltb_spec (len name) 3); cbn; [done|]. destruct (len pw <? 6); cbn; [done|].
  unfold create. destruct (users !! name) eqn:Hn; [done|]. destruct (GenerateFromPassword _ _ _); cbn; [done|].
  apply map_Forall_insert_2; [|done]. cbn. by split; [|lia].
Qed.

(** What a created account is. *)
Lemma Signup_created env d name pw users token : (Signup env d (inr (name, pw)) users).1 = (201, Token token) ->
  users !! name = None /\ 3 <= len name /\ 6 <= len pw /\ makeToken env d name = inr token /\
  exists hash, GenerateFromPassword (d_salt d) pw 10 = inr hash /\
    (Signup env d (inr (name, pw)) users).2 !! name = Some (mkUser (d_uuid d) name hash (d_created d)).
Proof.
  cbn. destruct (Z.ltb_spec (len name) 3); [done|]. destruct (Z.ltb_spec (len pw) 6); [done|].
  unfold create. destruct (users !! name) eqn:Hn; [done|]. destruct (GenerateFromPassword _ _ _) as [|hash]; [done|].
  cbn. destruct (makeToken env d name) as [|tok]; [done|]. intros [= ->].
  do 4 (split; [done|]). exists hash. split; [done|]. apply lookup_insert_eq.
Qed.

Lemma auth_run_keeps env evs users : users ⊆ auth_run env evs users.
Proof.
  revert users. induction evs as [|e evs IH]; intros users; [done|]. etrans; [|apply IH].
  destruct e; [apply Signup_keeps|done].
Qed.

(** Accounts are kept, whatever requests come: none is ever changed or removed, each stays
    filed under its own name, and a name that is taken is refused with 409, whatever the password. *)
Theorem accounts_are_kept env evs users : users_ok users ->
  users_ok (auth_run env evs users) /\ users ⊆ auth_run env evs users /\
  forall d name pw, is_Some (users !! name) -> 3 <= len name -> 6 <= len pw ->
    Signup env d (inr (name, pw)) (auth_run env evs users) = ((409, AuthError "username already taken"), auth_run env evs users).
Proof.
  intros Hok. split; [|split; [apply auth_run_keeps|]].
  - revert users Hok. induction evs as [|e evs IH]; intros users Hok; [done|]. apply IH. destruct e; [by apply Signup_ok|done].
  - intros d name pw [u Hu] Hn Hp. cbn. destruct (Z.ltb_spec (len name) 3); [lia|]. destruct (Z.ltb_spec (len pw) 6); [lia|].
    unfold create. by rewrite (lookup_weaken _ _ _ _ Hu (auth_run_keeps env evs users)).
Qed.

(** C39. Who has signed up can log in: after a signup answered 201 and any other requests, a login
    with that name and password is never refused (it is answered 200, or 500 when the token cannot
    be signed), a login with another password is accepted only if bcrypt accepts it for the stored
    hash, and the tokens of both answers let requests through the middleware, as that user, for 24
    hours from the reading of the clock, in a process that keeps its secret. *)
Theorem signup_then_login `{!CryptoLaws} env d name pw token users evs :
  (Signup env d (inr (name, pw)) users).1 = (201, Token token) ->
  let users' := auth_run env evs (Signup env d (inr (name, pw)) users).2 in
  (forall d', Login env d' (inr (name, pw)) users' = token_response 200 (makeToken env d' name)) /\
  (exists hash, GenerateFromPassword (d_salt d) pw 10 = inr hash /\ forall d' pw',
     Login env d' (inr (name, pw')) users' =
       if decide (CompareHashAndPassword hash pw' = None) then token_response 200 (makeToken env d' name)
       else (401, AuthError (sentinel_text ErrInvalidCredentials))) /\
  (forall d' tok t, makeToken env d' name = inr tok -> Unix t < Unix (d_exp d' + 24 * Hour) ->
     exists c, JWTMiddleware (jwtSecret env) tok t = inr c /\ sub c = name) /\
  makeToken env d name = inr token.
Proof.
  intros Hs users'. destruct (Signup_created _ _ _ _ _ _ Hs) as (_ & _ & _ & Htok & hash & Hhash & Hu).
  pose proof (lookup_weaken _ _ _ _ Hu (auth_run_keeps env evs _)) as Hu'. fold users' in Hu'.
  assert (Hlogin : forall d' pw', Login env d' (inr (name, pw')) users' =
    if decide (CompareHashAndPassword hash pw' = None) then token_response 200 (makeToken env d' name)
    else (401, AuthError (sentinel_text ErrInvalidCredentials))).
  { intros d' pw'. cbn. unfold verify. rewrite Hu'. cbn. by destruct (CompareHashAndPassword hash pw'). }
  split; [|split; [by exists hash|split; [|done]]].
  - intros d'. rewrite Hlogin. by rewrite decide_True by (by eapply compare_generated).
  - intros d' tok t Ht Hlt. unfold JWTMiddleware. rewrite (verify_signed _ _ _ _ Ht Hlt). by eexists.
Qed.
End Accounts.

(** ** A toy instance: the hash is the password, and one token can be signed *)

Definition alice_claims : claims := mkClaims "alice" (Unix (24 * Hour)) (Unix 0).

Definition toy_crypto : Crypto :=
  {| GenerateFromPassword := fun _ password _ => inr password;
     CompareHashAndPassword := fun hash password => if decide (hash = password) then None else Some (EText "mismatch");
     SignedString := fun c secret =>
       if decide (sub c = sub alice_claims /\ exp c = exp alice_claims /\ iat c = iat alice_claims)
       then inr ("token " +:+ secret) else inl (EText "not this one");
     Verify := fun secret token t =>
       if decide (token = "token " +:+ secret) then if Unix t <? exp alice_claims then Some alice_claims else None else None |}.

Lemma toy_laws : @CryptoLaws toy_crypto.
Proof.
  constructor; cbn.
  - intros _ password _ hash [= ->]. by rewrite decide_True.
  - intros [s e i] secret token t. cbn. destruct (decide _) as [(-> & -> & ->)|]; [|done]. intros [= <-] Hlt.
    rewrite decide_True by done. by rewrite (proj2 (Z.ltb_lt _ _) Hlt).
Qed.

Definition no_env : Env := fun _ => "".
Definition no_draws : draws := mkDraws "" "" 0 0 0.
Definition secret_pw : string := "secret1".
Definition nobody : gmap string user := ∅.

Lemma accounts_are_kept_witness :
  users_ok (auth_run (H := toy_crypto) no_env [SignedUp no_draws (inr ("alice", secret_pw))] nobody).
Proof. apply (accounts_are_kept (H := toy_crypto)). apply map_Forall_empty. Defined.

Lemma signup_then_login_witness :
  Login (H := toy_crypto) no_env no_draws (inr ("alice", secret_pw))
    (auth_run (H := toy_crypto) no_env [SignedUp no_draws (inr ("bob", "hunter22"))]
      (Signup (H := toy_crypto) no_env no_draws (inr ("alice", secret_pw)) nobody).2) =
  (200, Token "token ims-super-secret-change-in-production").
Proof.
  destruct (signup_then_login (H := toy_crypto) (H0 := toy_laws) no_env no_draws "alice" secret_pw
    "token ims-super-secret-change-in-production" nobody [SignedUp no_draws (inr ("bob", "hunter22"))] ltac:(vm_compute; reflexivity))
    as (Hlogin & _ & _ & Htok).
  rewrite Hlogin. vm_compute. reflexivity.
Defined.
