(* ===== verification/Hub.v ===== *)
(** The WebSocket hub: [backend/internal/api/websocket.go]. The channels are bounded queues; the
    event loop, the handlers of the connections and the senders that the loop starts are the
    goroutines of a step relation. The hub shares no memory with the rest of the process.

    The library of the connections is not code of the repository. A [*websocket.Conn] belongs to
    the handler until it returns; what becomes of the pointer then is a parameter,
    [WebSocketLibrary]. *)
From S2P Require Import Prelude Float64 GoTime Models.
Local Open Scope string_scope.
Local Open Scope Z_scope.
Local Open Scope list_scope.

(** [*websocket.Conn]: a pointer. *)
Abbreviation conn := nat (only parsing).

Record WSMessage := mkWSMessage { ws_Type : string; ws_Payload : list (string * string); ws_Timestamp : Time }.

(** [Hub]: the map of clients and what the channels hold. *)
Record Hub := mkHub {
  clients : gset conn;
  broadcast : list WSMessage;
  register : list conn;
  unregister : list conn;
}.

Definition broadcast_cap : nat := 256.
Definition register_cap : nat := 32.
Definition unregister_cap : nat := 32.

Definition NewHub : Hub := mkHub ∅ [] [] [].

(** [Broadcast] never waits: it reports whether the message was queued. *)
Definition Broadcast (msgType : string) (payload : list (string * string)) (t : Time) (h : Hub) : bool * Hub :=
  let msg := mkWSMessage msgType payload t in
  if decide (length (broadcast h) < broadcast_cap)%nat
  then (true, mkHub (clients h) (broadcast h ++ [msg]) (register h) (unregister h))
  else (false, h).

(** A tick of [heartbeat]. *)
Definition heartbeat (t : Time) (h : Hub) : bool * Hub := Broadcast "ping" [("status", "ok")] t h.

Definition ClientCount (h : Hub) : Z := Z.of_nat (size (clients h)).

(** The cases of the [select] in [run]: what the loop does with a received connection or message. *)
Definition on_register (c : conn) (h : Hub) : Hub :=
  mkHub ({[c]} ∪ clients h) (broadcast h) (register h) (unregister h).

(** The result says whether the connection is closed. *)
Definition on_unregister (c : conn) (h : Hub) : bool * Hub :=
  if decide (c ∈ clients h)
  then (true, mkHub (clients h ∖ {[c]}) (broadcast h) (register h) (unregister h))
  else (false, h).

(** The connections whose [WriteMessage] fails are unregistered by goroutines of their own. *)
Definition on_broadcast (write_ok : conn -> bool) (h : Hub) : list conn :=
  elements (filter (fun c => write_ok c = false) (clients h)).

(** ** The goroutines *)

(** What the library does with a [*websocket.Conn] that it has taken back from a handler: whether it
    gives the pointer out again for another connection, and whether [Close] and [WriteMessage]
    panic on it meanwhile. *)
Class WebSocketLibrary := { reuses_conns : bool; released_conn_panics : bool }.

(** [HandleWS]: waiting to send on [register], reading, waiting to send on [unregister], returned;
    then the library takes the connection back. *)
Inductive phase := Registering | Reading | Leaving | Returned | Released.
#[global] Instance phase_eq_dec : EqDecision phase.
Proof. solve_decision. Defined.

(** The last three say what has happened so far: the registrations that were sent, those of them that
    the loop received for a pointer that was a client already, the calls of [conn.Close()]. *)
Record HubState := mkHubState {
  hub : Hub;
  handlers : gmap conn phase;
  senders : list conn;     (* the goroutines [h.unregister <- c] that wait *)
  crashed : bool;          (* a panic of the loop, which ends the process *)
  sent : list conn;
  repeated : list conn;
  closed : list conn;
}.

Definition initial : HubState := mkHubState NewHub ∅ [] false [] [] [].

Definition with_hub (h : Hub) (s : HubState) : HubState :=
  mkHubState h (handlers s) (senders s) (crashed s) (sent s) (repeated s) (closed s).
Definition with_phase (c : conn) (p : phase) (s : HubState) : HubState :=
  mkHubState (hub s) (<[c := p]> (handlers s)) (senders s) (crashed s) (sent s) (repeated s) (closed s).
Definition with_senders (l : list conn) (s : HubState) : HubState :=
  mkHubState (hub s) (handlers s) l (crashed s) (sent s) (repeated s) (closed s).
Definition with_crash (b : bool) (s : HubState) : HubState :=
  mkHubState (hub s) (handlers s) (senders s) b (sent s) (repeated s) (closed s).
Definition note_sent (c : conn) (s : HubState) : HubState :=
  mkHubState (hub s) (handlers s) (senders s) (crashed s) (sent s ++ [c]) (repeated s) (closed s).
Definition note_repeated (c : conn) (s : HubState) : HubState :=
  mkHubState (hub s) (handlers s) (senders s) (crashed s) (sent s) (repeated s ++ [c]) (closed s).
Definition note_closed (c : conn) (s : HubState) : HubState :=
  mkHubState (hub s) (handlers s) (senders s) (crashed s) (sent s) (repeated s) (closed s ++ [c]).

Definition push_register (c : conn) (h : Hub) : Hub := mkHub (clients h) (broadcast h) (register h ++ [c]) (unregister h).
Definition push_unregister (c : conn) (h : Hub) : Hub := mkHub (clients h) (broadcast h) (register h) (unregister h ++ [c]).

Section Loop.
Context `{WebSocketLibrary}.

(** The pointers that the library may give to a new connection. *)
Definition available (p : option phase) : bool :=
  match p with None => true | Some Released => reuses_conns | Some _ => false end.

(** A method of the connection panics. *)
Definition unusable (s : HubState) (c : conn) : bool := released_conn_panics && bool_decide (handlers s !! c = Some Released).

(** What the loop does with a registration, a connection that leaves, a message. *)
Definition receive_register (c : conn) (rest : list conn) (s : HubState) : HubState :=
  let s' := with_hub (on_register c (mkHub (clients (hub s)) (broadcast (hub s)) rest (unregister (hub s)))) s in
  if decide (c ∈ clients (hub s)) then note_repeated c s' else s'.

Definition receive_unregister (c : conn) (rest : list conn) (s : HubState) : HubState :=
  let '(close, h) := on_unregister c (mkHub (clients (hub s)) (broadcast (hub s)) (register (hub s)) rest) in
  if close then with_crash (unusable s c) (note_closed c (with_hub h s)) else with_hub h s.

Definition receive_broadcast (write_ok : conn -> bool) (rest : list WSMessage) (s : HubState) : HubState :=
  let s' := with_hub (mkHub (clients (hub s)) rest (register (hub s)) (unregister (hub s))) s in
  if existsb (unusable s) (elements (clients (hub s))) then with_crash true s'
  else with_senders (senders s ++ on_broadcast write_ok (hub s)) s'.

Inductive hub_action : HubState -> HubState -> Prop :=
| step_connect c s : available (handlers s !! c) = true -> hub_action s (with_phase c Registering s)
| step_register c s : handlers s !! c = Some Registering -> (length (register (hub s)) < register_cap)%nat ->
    hub_action s (note_sent c (with_phase c Reading (with_hub (push_register c (hub s)) s)))
| step_read_error c s : handlers s !! c = Some Reading -> hub_action s (with_phase c Leaving s)
| step_leave c s : handlers s !! c = Some Leaving -> (length (unregister (hub s)) < unregister_cap)%nat ->
    hub_action s (with_phase c Returned (with_hub (push_unregister c (hub s)) s))
| step_release c s : handlers s !! c = Some Returned -> hub_action s (with_phase c Released s)
| step_send c before after s : senders s = before ++ c :: after -> (length (unregister (hub s)) < unregister_cap)%nat ->
    hub_action s (with_senders (before ++ after) (with_hub (push_unregister c (hub s)) s))
| step_broadcast ty payload t s : hub_action s (with_hub (Broadcast ty payload t (hub s)).2 s)
| run_register c rest s : register (hub s) = c :: rest -> hub_action s (receive_register c rest s)
| run_unregister c rest s : unregister (hub s) = c :: rest -> hub_action s (receive_unregister c rest s)
| run_broadcast msg rest write_ok s : broadcast (hub s) = msg :: rest -> hub_action s (receive_broadcast write_ok rest s).

(** Until a panic of the loop. *)
Definition hub_step (s s' : HubState) : Prop := crashed s = false /\ hub_action s s'.

(** ** The invariant *)

Definition has_registered (p : phase) : bool := match p with Registering => false | _ => true end.

Record hub_inv (s : HubState) : Prop := {
  hi_broadcast : (length (broadcast (hub s)) <= broadcast_cap)%nat;
  hi_register : (length (register (hub s)) <= register_cap)%nat;
  hi_unregister : (length (unregister (hub s)) <= unregister_cap)%nat;
  (* a registration that was sent waits, made a client, was one of a client, or was closed *)
  hi_sent : sent s ≡ₚ register (hub s) ++ elements (clients (hub s)) ++ repeated s ++ closed s;
  (* without reuse each pointer registers once *)
  hi_once : reuses_conns = false -> NoDup (sent s) /\ repeated s = [] /\
    forall c, c ∈ sent s -> exists p, handlers s !! c = Some p /\ has_registered p = true;
  hi_crash : released_conn_panics = false -> crashed s = false;
}.

(** A step that sends no registration. *)
Lemma hub_inv_places s s' : hub_inv s -> sent s' = sent s ->
  register (hub s') ++ elements (clients (hub s')) ++ repeated s' ++ closed s' ≡ₚ
    register (hub s) ++ elements (clients (hub s)) ++ repeated s ++ closed s ->
  (reuses_conns = false -> forall c p, handlers s !! c = Some p -> has_registered p = true ->
     exists p', handlers s' !! c = Some p' /\ has_registered p' = true) ->
  (reuses_conns = false -> repeated s' = repeated s) -> (released_conn_panics = false -> crashed s' = crashed s) ->
  (length (broadcast (hub s')) <= broadcast_cap)%nat -> (length (register (hub s')) <= register_cap)%nat ->
  (length (unregister (hub s')) <= unregister_cap)%nat -> hub_inv s'.
Proof.
  intros [_ _ _ Hsent Honce Hcr] Hs Hp Hph Hrep Hc Hb Hr Hu. constructor; rewrite ?Hs, ?Hp; try done.
  - intros Hre. destruct (Honce Hre) as (Hnd & Hno & Hin). rewrite Hrep by done. do 2 (split; [done|]). intros c Hc'. destruct (Hin c Hc') as (p & Hcp & Hreg). by eapply Hph.
  - intros Hno. rewrite Hc by done. by apply Hcr.
Qed.

(** A handler moves on. *)
Lemma phase_moves s c p q : handlers s !! c = Some p -> has_registered p = has_registered q ->
  forall c' p', handlers s !! c' = Some p' -> has_registered p' = true ->
  exists q', <[c := q]> (handlers s) !! c' = Some q' /\ has_registered q' = true.
Proof.
  intros Hc Hpq c' p' Hc' Hreg. destruct (decide (c' = c)) as [->|Hne].
  - exists q. rewrite lookup_insert_eq. split; [done|]. congruence.
  - exists p'. by rewrite lookup_insert_ne.
Qed.

Lemma elements_remove (X : gset conn) c : c ∈ X -> elements X ≡ₚ c :: elements (X ∖ {[c]}).
Proof.
  intros Hc. rewrite <- elements_union_singleton by set_solver. f_equiv. intros x.
  destruct (decide (x = c)); set_solver.
Qed.

Lemma connect_inv c s : available (handlers s !! c) = true -> hub_inv s -> hub_inv (with_phase c Registering s).
Proof.
  intros Ha Hinv. apply (hub_inv_places s); try done; try apply Hinv. cbn. intros Hre c' p Hp Hreg. exists p.
  rewrite lookup_insert_ne; [done|]. intros ->. rewrite Hp in Ha. destruct p; cbn in Ha; congruence.
Qed.

Lemma register_inv c s : handlers s !! c = Some Registering -> (length (register (hub s)) < register_cap)%nat ->
  hub_inv s -> hub_inv (note_sent c (with_phase c Reading (with_hub (push_register c (hub s)) s))).
Proof.
  intros Hc Hlen [Hb Hr Hu Hsent Honce Hcr]. constructor; cbn; try done; [rewrite length_app; cbn; lia|..].
  - rewrite Hsent, <- !app_assoc. f_equiv. by rewrite (Permutation_app_comm [c]), <- !app_assoc.
  - intros Hre. destruct (Honce Hre) as (Hnd & Hno & Hin). split; [|split; [done|]].
    + apply NoDup_app. split; [done|]. split; [|apply NoDup_singleton]. intros c' Hc' ->%list_elem_of_singleton.
      destruct (Hin c Hc') as (p & Hp & Hreg). rewrite Hc in Hp. by injection Hp as <-.
    + intros c' [Hc'| ->%list_elem_of_singleton]%elem_of_app; [|exists Reading; by rewrite lookup_insert_eq].
      destruct (decide (c' = c)) as [->|Hne]; [exists Reading; by rewrite lookup_insert_eq|rewrite lookup_insert_ne by done; by apply Hin].
Qed.

Lemma receive_register_inv c rest s : register (hub s) = c :: rest -> hub_inv s -> hub_inv (receive_register c rest s).
Proof.
  intros Hreg Hinv. pose proof Hinv as [Hb Hr Hu Hsent Honce Hcr]. rewrite Hreg in Hr, Hsent. cbn in Hr.
  unfold receive_register. case_decide as Hin; apply (hub_inv_places s); try done; cbn; try lia; try (by eauto).
  - rewrite Hreg. replace ({[c]} ∪ clients (hub s)) with (clients (hub s)) by set_solver. solve_Permutation.
  - intros Hre. exfalso. destruct (Honce Hre) as [Hnd _]. rewrite Hsent in Hnd. cbn in Hnd. apply NoDup_cons in Hnd as [Hnew _].
    apply Hnew. rewrite !elem_of_app, elem_of_elements. by auto.
  - rewrite Hreg, elements_union_singleton by done. cbn. by rewrite <- Permutation_middle.
Qed.

Lemma receive_unregister_inv c rest s : unregister (hub s) = c :: rest -> hub_inv s -> hub_inv (receive_unregister c rest s).
Proof.
  intros Hun Hinv. unfold receive_unregister, on_unregister. pose proof (hi_unregister _ Hinv) as Hu. rewrite Hun in Hu. cbn in Hu.
  cbn [clients]. case_decide as Hin; apply (hub_inv_places s); try done; cbn; try apply Hinv; try lia; try by eauto.
  - rewrite (elements_remove (clients (hub s)) c Hin). solve_Permutation.
  - intros Hno. unfold unusable. rewrite Hno. symmetry. by apply (hi_crash _ Hinv).
Qed.

Lemma receive_broadcast_inv msg rest write_ok s : broadcast (hub s) = msg :: rest -> hub_inv s -> hub_inv (receive_broadcast write_ok rest s).
Proof.
  intros Hmsg Hinv. unfold receive_broadcast. pose proof (hi_broadcast _ Hinv) as Hb. rewrite Hmsg in Hb. cbn in Hb.
  destruct (existsb _ _) eqn:Hex; apply (hub_inv_places s); try done; cbn; try apply Hinv; try lia; try by eauto.
  intros Hno. exfalso. apply existsb_exists in Hex as (c & _ & Hc). unfold unusable in Hc. by rewrite Hno in Hc.
Qed.

Lemma hub_action_inv s s' : hub_action s s' -> hub_inv s -> hub_inv s'.
Proof.
  intros Hstep Hinv. pose proof Hinv as [Hb Hr Hu _ _ _].
  destruct Hstep as [c s Hc|c s Hc Hlen|c s Hc|c s Hc Hlen|c s Hc|c before after s Hs Hlen|ty payload t s|c rest s Hreg|c rest s Hun|msg rest ok s Hmsg].
  - by apply connect_inv.
  - by apply register_inv.
  - apply (hub_inv_places s); try done. intros _. by eapply (phase_moves s).
  - apply (hub_inv_places s); try done; [intros _; by eapply (phase_moves s)|]. cbn. rewrite length_app. cbn. lia.
  - apply (hub_inv_places s); try done. intros _. by eapply (phase_moves s).
  - apply (hub_inv_places s); try done; [by eauto|]. cbn. rewrite length_app. cbn. lia.
  - unfold Broadcast. case_decide; apply (hub_inv_places s); try done; cbn; try by eauto. rewrite length_app. cbn. lia.
  - by apply receive_register_inv.
  - by apply receive_unregister_inv.
  - by eapply receive_broadcast_inv.
Qed.

Lemma initial_inv : hub_inv initial.
Proof.
  constructor; cbn; try (unfold broadcast_cap, register_cap, unregister_cap; lia); try done.
  intros _. split; [apply NoDup_nil_2|]. split; [done|]. intros c Hc. by apply elem_of_nil in Hc.
Qed.

Lemma reachable_inv s : rtc hub_step initial s -> hub_inv s.
Proof. intros Hr. pattern s. eapply rtc_ind_r; [exact initial_inv| |exact Hr]. intros s1 s2 _ [_ Hs]. by apply hub_action_inv. Qed.

(** C40. The hub's book-keeping, in every interleaving of the event loop, the handlers, the senders
    and the broadcasts, and whatever the library does with connections that it has taken back: no
    channel exceeds its capacity, and the clients that the hub counts are the registrations that
    were sent, less those that still wait, those that named a client, and those that the loop has
    closed. With a library that does not give a pointer out twice the loop closes each connection
    at most once and never one that is a client, and no registration names a client; with one
    whose methods do not panic on a connection that it has taken back, neither does the loop. *)
Theorem hub_accounts_for_connections s : rtc hub_step initial s ->
  (length (broadcast (hub s)) <= 256)%nat /\ (length (register (hub s)) <= 32)%nat /\ (length (unregister (hub s)) <= 32)%nat /\
  sent s ≡ₚ register (hub s) ++ elements (clients (hub s)) ++ repeated s ++ closed s /\
  ClientCount (hub s) = Z.of_nat (length (sent s)) - Z.of_nat (length (register (hub s))) -
    Z.of_nat (length (repeated s)) - Z.of_nat (length (closed s)) /\
  (reuses_conns = false -> NoDup (closed s) /\ (forall c, c ∈ closed s -> c ∉ clients (hub s)) /\
     repeated s = []) /\
  (released_conn_panics = false -> crashed s = false).
Proof.
  intros Hr. destruct (reachable_inv s Hr) as [Hb Hreg Hu Hsent Honce Hcr]. do 4 (split; [done|]). split; [|split; [|done]].
  - rewrite (Permutation_length Hsent), !length_app. unfold ClientCount, size, set_size. cbn. lia.
  - intros Hre. destruct (Honce Hre) as (Hnd & Hno & _). rewrite Hsent, Hno in Hnd. cbn in Hnd.
    apply NoDup_app in Hnd as (_ & _ & Hnd). apply NoDup_app in Hnd as (_ & Hdis & Hnd). split; [done|].
    split; [|done]. intros c Hc Hin. apply (Hdis c); [by apply elem_of_elements|done].
Qed.
End Loop.

(** ** A connection that leaves at once *)

Section Departed.
Context `{WebSocketLibrary}.

(** Whether a step can be taken is computed. *)
Ltac hub_do := eapply rtc_l; [split; [by vm_compute|]|].

(** The [select] of the loop takes either channel first when both are ready: a connection that
    ends while its registration still waits may be unregistered before it is registered. It is then
    a client for good although its handler has returned and nothing about it is pending, until a
    write to it happens to fail. *)
Theorem departed_connection_stays_client :
  exists s c, rtc hub_step initial s /\ c ∈ clients (hub s) /\ handlers s !! c = Some Returned /\
    register (hub s) = [] /\ unregister (hub s) = [] /\ senders s = [] /\ closed s = [].
Proof.
  eexists _, 0%nat. split; [|].
  - hub_do; [by apply (step_connect 0)|]. hub_do; [apply (step_register 0); [done|apply Nat.ltb_lt; by vm_compute]|].
    hub_do; [by apply (step_read_error 0)|]. hub_do; [apply (step_leave 0); [done|apply Nat.ltb_lt; by vm_compute]|].
    hub_do; [by apply (run_unregister 0 [])|]. hub_do; [by apply (run_register 0 [])|]. reflexivity.
  - by vm_compute.
Qed.

(** The loop calls [conn.Close()] when the handler may have returned long ago. If the library has taken
    the connection back, and its methods panic then, one client that connects and leaves brings the
    process down. *)
Theorem disconnect_crashes_the_hub : released_conn_panics = true ->
  exists s, rtc hub_step initial s /\ crashed s = true /\ sent s = [0%nat].
Proof.
  intros Hp. eexists. split; [|].
  - hub_do; [by apply (step_connect 0)|]. hub_do; [apply (step_register 0); [done|apply Nat.ltb_lt; by vm_compute]|].
    hub_do; [by apply (run_register 0 [])|]. hub_do; [by apply (step_read_error 0)|].
    hub_do; [apply (step_leave 0); [done|apply Nat.ltb_lt; by vm_compute]|]. hub_do; [by apply (step_release 0)|].
    hub_do; [by apply (run_unregister 0 [])|]. reflexivity.
  - revert Hp. vm_compute. by intros ->.
Qed.

(** If the library gives its pointer to the next connection, the departure of a connection closes the
    next one: its handler reads, but the hub has closed it and does not count it. *)
Theorem departure_closes_the_next_connection : reuses_conns = true ->
  exists s c, rtc hub_step initial s /\ handlers s !! c = Some Reading /\ closed s = [c] /\ (c ∉ clients (hub s)) /\
    register (hub s) = [] /\ unregister (hub s) = [] /\ senders s = [].
Proof.
  intros Hre. eexists _, 0%nat. split; [|].
  - hub_do; [by apply (step_connect 0)|]. hub_do; [apply (step_register 0); [done|apply Nat.ltb_lt; by vm_compute]|].
    hub_do; [by apply (run_register 0 [])|]. hub_do; [by apply (step_read_error 0)|].
    hub_do; [apply (step_leave 0); [done|apply Nat.ltb_lt; by vm_compute]|]. hub_do; [by apply (step_release 0)|].
    hub_do; [by apply (step_connect 0)|]. hub_do; [apply (step_register 0); [done|apply Nat.ltb_lt; by vm_compute]|].
    hub_do; [by apply (run_register 0 [])|]. hub_do; [by apply (run_unregister 0 [])|]. reflexivity.
  - by vm_compute.
Qed.
End Departed.

(** ** One client, with a library that pools its connections *)

#[local] Instance pooling_library : WebSocketLibrary := {| reuses_conns := true; released_conn_panics := true |}.

Lemma hub_accounts_for_connections_witness :
  exists s, rtc hub_step initial s /\ sent s = [0%nat] /\ ClientCount (hub s) = 1.
Proof.
  assert (Hr : exists s, rtc hub_step initial s /\ sent s = [0%nat] /\ register (hub s) = [] /\ repeated s = [] /\ closed s = []).
  { eexists. split; [|].
    - eapply rtc_l; [split; [done|by apply (step_connect 0)]|].
      eapply rtc_l; [split; [done|apply (step_register 0); [done|apply Nat.ltb_lt; by vm_compute]]|].
      eapply rtc_l; [split; [done|by apply (run_register 0 [])]|]. reflexivity.
    - by vm_compute. }
  destruct Hr as (s & Hr & Hsent & Hw & Hrep & Hcl). exists s. split; [exact Hr|]. split; [exact Hsent|].
  destruct (hub_accounts_for_connections s Hr) as (_ & _ & _ & _ & -> & _). by rewrite Hsent, Hw, Hrep, Hcl.
Defined.
