(* ===== verification/System.v ===== *)
(** The running backend: every request handler, background loop and job as a goroutine of one
    process, in any interleaving, on any services. *)
From S2P Require Import Prelude Float64 GoTime Models Queue RateLimiter Tables Prog Services Retry.
From S2P Require Import Postgres RedisStore Mongo StatePattern Alerting Invariant StoreSafety.
From S2P Require Import Machine Escalator Debounce Ingestion Worker Health WorkItemsAPI MemWorld.
Local Open Scope string_scope.
Local Open Scope Z_scope.

(** What arrives: a request of a route of [api/router.go], as fiber parsed it, one of the background
    loops (escalation, bucket cleanup, throughput log, metrics) with some number of rounds, a
    worker's turn, or a job that a handler started. *)
Inductive Arrival :=
| IngestRequested (ip : string) (parsed : error + IngestRequest)
| BatchRequested (ip : string) (parsed : error + list IngestRequest)
| TransitionRequested (id : string) (parsed : error + WorkItemState)
| RCASubmitted (id : string) (parsed : error + RCA) (user : UserLocal)
| ListRequested
| ItemRequested (id : string)
| RCARequested (id : string)
| DashboardRequested
| SignalsRequested (id : string)
| HealthRequested (startTime : Time) (workers : Z)
| EscalatorStarted (rounds : nat)
| CleanupStarted (rounds : nat)
| ThroughputLogStarted (rounds : nat)
| MetricsStarted (clients : nat -> Z) (rounds : nat) (g : gauges)
| WorkerTurn
| JobStarted (j : Job).

Definition discard {A} (p : io A) : io unit := p;;; Ret tt.

Definition job_prog `{Formats} (j : Job) : io unit :=
  match j with
  | JobDispatch wi => discard (Dispatch wi)
  | JobIncrementSignalCounter => discard IncrementSignalCounter
  | JobRebuildDashboard items => rebuildDashboardCache items
  end.

Definition goroutine `{Formats} (a : Arrival) : io unit :=
  match a with
  | IngestRequested ip parsed => discard (IngestSignal ip parsed)
  | BatchRequested ip parsed => discard (IngestBatch ip parsed)
  | TransitionRequested id parsed => discard (handle_TransitionWorkItem id parsed)
  | RCASubmitted id parsed user => discard (handle_SubmitRCA id parsed user)
  | ListRequested => discard handle_ListWorkItems
  | ItemRequested id => discard (handle_GetWorkItem id)
  | RCARequested id => discard (handle_GetRCA id)
  | DashboardRequested => discard handle_GetDashboard
  | SignalsRequested id => discard (handle_GetSignals id)
  | HealthRequested startTime workers => discard (Health startTime workers)
  | EscalatorStarted rounds => Escalator_Start rounds
  | CleanupStarted rounds => RateLimiter_cleanup rounds
  | ThroughputLogStarted rounds => discard (logThroughput rounds)
  | MetricsStarted clients rounds g => discard (MetricsCollector_Start clients rounds g)
  | WorkerTurn => worker_round
  | JobStarted j => job_prog j
  end.

(** The goroutines that [main] starts before it listens: [pool.Start], [go escalator.Start], and in
    [SetupRoutes] the limiter's [go rl.cleanup] and the metrics collector. *)
Definition main_goroutines (workers rounds : nat) (clients : nat -> Z) (g : gauges) : list Arrival :=
  (repeat WorkerTurn workers ++
   [ThroughputLogStarted rounds; EscalatorStarted rounds; CleanupStarted rounds; MetricsStarted clients rounds g])%list.

Definition entry `{Formats} (p : io unit) : Prop := exists a, p = goroutine a.

Definition spawned `{Formats} (B : Type) (e : eff B) : list (io unit) :=
  match e with Go j => [job_prog j] | _ => [] end.

(** The jobs come from the handlers that start them: they do not arrive. *)
Definition is_job (a : Arrival) : bool := match a with JobStarted _ => true | _ => false end.
Definition arrives `{Formats} (p : io unit) : Prop := exists a, is_job a = false /\ p = goroutine a.

Lemma arrives_entry `{Formats} p : arrives p -> entry p.
Proof. intros (a & _ & ->). by exists a. Qed.

Lemma spawned_entry `{Formats} B (e : eff B) : Forall entry (spawned B e).
Proof. destruct e; repeat constructor. by exists (JobStarted j). Qed.

Section System.
Context `{World} `{Formats}.

(** The states, with their goroutines, that some interleaving leads to. *)
Definition system_reaches (s0 : Sys) (threads : list (io unit)) (s : Sys) : Prop :=
  reachable step spawned entry s0 threads s.

Lemma discard_safe {A} (p : io A) Q s : safe p Q s -> safe (discard p) (fun _ _ => True) s.
Proof. intros Hp. apply safe_bind. eapply safe_mono; [|exact Hp]. intros a s' _. by apply safe_ret. Qed.

Lemma Dispatch_safe wi s : Inv s -> safe (Dispatch wi) (fun _ _ => True) s.
Proof.
  intros Hi. assert (Hsend : forall sev ch msg, safe (send sev ch msg wi) (fun _ _ => True) s).
  { intros sev ch msg. apply safe_uuid; [done|]. intros u s1 _ Hi1 _. apply safe_now; [done|]. intros t s2 _ _.
    by apply safe_ret. }
  destruct (Dispatch_is_send wi) as [msg ->]. apply Hsend.
Qed.

Lemma goroutine_safe a s : Inv s -> safe (goroutine a) (fun _ _ => True) s.
Proof.
  intros Hi. destruct a as [| | | | | | | | | | | | | | |[wi| |items]]; cbn [goroutine job_prog].
  - by eapply discard_safe, IngestSignal_ok.
  - by eapply discard_safe, IngestBatch_ok.
  - by eapply discard_safe, handle_TransitionWorkItem_safe.
  - by eapply discard_safe, handle_SubmitRCA_safe.
  - by eapply discard_safe, handle_ListWorkItems_safe.
  - by eapply discard_safe, handle_GetWorkItem_safe.
  - by eapply discard_safe, handle_GetRCA_safe.
  - by eapply discard_safe, handle_GetDashboard_safe.
  - by eapply discard_safe, handle_GetSignals_safe.
  - by eapply discard_safe, Health_safe.
  - eapply safe_mono; [|by apply Escalator_Start_safe]. done.
  - eapply safe_mono; [|by apply RateLimiter_cleanup_safe]. done.
  - by eapply discard_safe, logThroughput_safe.
  - by eapply discard_safe, MetricsCollector_Start_safe.
  - by apply worker_round_safe.
  - by eapply discard_safe, Dispatch_safe.
  - eapply discard_safe. by apply (IncrementSignalCounter_safe (fun _ _ => True)).
  - by apply rebuildDashboardCache_safe.
Qed.

Lemma arrives_step c c' : pool_step step spawned arrives c c' -> pool_step step spawned entry c c'.
Proof. intros [i B e k ts s b s' Hi Hs|p ts s Hp]; [by econstructor|]. constructor. by apply arrives_entry. Qed.

(** What other processes do to the stores, as far as this one is concerned. *)
Definition elsewhere (s s' : Sys) : Prop := mem s' = mem s /\ evolves s s'.

#[export] Instance elsewhere_preorder : PreOrder elsewhere.
Proof. split; [by intros s; split|]. intros s1 s2 s3 [Hm1 He1] [Hm2 He2]. split; [by etrans|by etrans]. Qed.

(** A step of the process, seen from the stores. *)
Lemma system_step_safe c c' : Inv c.2 -> Forall (fun p => safe p (fun _ _ => True) c.2) c.1 ->
  pool_step step spawned entry c c' -> evolves c.2 c'.2 /\ Forall (fun p => safe p (fun _ _ => True) c'.2) c'.1.
Proof.
  intros Hi Hall Hs. apply (pool_step_safe step spawned entry evolves evolves c c'); try done; [apply _| |apply spawned_entry].
  intros p [a ->] He. apply goroutine_safe. by apply (ev_inv _ _ He).
Qed.

(** The states of every interleaving evolve from the initial one, and nobody panics. *)
Lemma system_evolves s0 threads s : Inv s0 -> system_reaches s0 threads s ->
  evolves s0 s /\ Forall (fun p => ~ panicked p) threads.
Proof.
  intros Hi. apply (pool_rely_guarantee step spawned entry evolves evolves s0); [apply _|done| |apply spawned_entry].
  intros p s1 [a ->] He. apply goroutine_safe. by apply (ev_inv _ _ He).
Qed.

(** C1. No incident is closed without its root-cause analysis: in every state that any
    interleaving of any requests, escalations, workers and jobs can reach, whatever the
    services answer and wherever they fail, each CLOSED work item has a stored RCA that is
    complete, and its recorded MTTR is the duration of the incident of that RCA. *)
Theorem closed_work_items_have_complete_rca s0 threads s id wi :
  Inv s0 -> system_reaches s0 threads s ->
  work_items (tables (seen s)) !! id = Some wi -> wi_State wi = StateClosed ->
  exists r, rcas (tables (seen s)) !! id = Some r /\ complete_RCA r /\ wi_MTTR wi = Some (MTTRMinutes r).
Proof.
  intros Hi Hr. destruct (system_evolves s0 threads s Hi Hr) as [He _].
  by apply (inv_closed _ (ev_inv _ _ He Hi)).
Qed.

(** C4. No goroutine of the process ever panics, in any interleaving and whatever the services
    answer; and all along the tables satisfy the schema, every debounce entry of the process
    and of Redis and every queued signal names an existing work item, and the queue and the
    rate limiter keep their bounds. *)
Theorem system_invariant s0 threads s :
  Inv s0 -> system_reaches s0 threads s -> Inv s /\ Forall (fun p => ~ panicked p) threads.
Proof.
  intros Hi Hr. destruct (system_evolves s0 threads s Hi Hr) as [He Hp].
  split; [by apply (ev_inv _ _ He)|done].
Qed.

(** History is kept, in any interleaving: a work item is never deleted, and its identity,
    component, title and creation time never change, nor does its signal count decrease; an RCA,
    once stored, and a document of the audit log, once inserted, stay as they are. *)
Theorem history_is_kept s0 threads s :
  Inv s0 -> system_reaches s0 threads s ->
  (forall id wi, work_items (tables (seen s0)) !! id = Some wi ->
     exists wi', work_items (tables (seen s)) !! id = Some wi' /\ same_incident wi wi') /\
  (forall id r, rcas (tables (seen s0)) !! id = Some r -> rcas (tables (seen s)) !! id = Some r) /\
  (forall id d, docs (seen s0) !! id = Some d -> docs (seen s) !! id = Some d).
Proof.
  intros Hi Hr. destruct (system_evolves s0 threads s Hi Hr) as [He _].
  split; [apply (ev_tables _ _ He)|]. split; [apply (ev_tables _ _ He)|apply (ev_docs _ _ He)].
Qed.
End System.
