(* ===== verification/Liveness.v ===== *)
(** Progress of the running system under a fair scheduler, also among other processes on the same
    stores: every queued signal is processed, and with services that do not fail it is stored in
    the end. *)
From S2P Require Import Prelude Float64 GoTime Models Queue RateLimiter Tables Prog Services Retry.
From S2P Require Import Postgres RedisStore Mongo StatePattern Alerting Invariant StoreSafety.
From S2P Require Import Machine Escalator Debounce Ingestion Worker Health WorkItemsAPI System.
Local Open Scope string_scope.
Local Open Scope Z_scope.

(** ** Who takes signals from the queue *)

(** The effects that at most append to the queue. *)
Definition only_appends {B} (e : eff B) : Prop :=
  match e with
  | Atomic f => forall m, ch (queue m) `prefix_of` ch (queue (f m).2)
  | AtomicNow f => forall t m, ch (queue m) `prefix_of` ch (queue (f t m).2)
  | _ => True
  end.

Lemma TryEnqueue_appends signal q : ch q `prefix_of` ch (TryEnqueue signal q).2.
Proof. unfold TryEnqueue. case_match; [by apply prefix_app_r|done]. Qed.

Lemma enqueue_appends signal : only_appends (Atomic (fun m => let '(ok, q) := TryEnqueue signal (queue m) in (ok, with_queue q m))).
Proof. intros m. pose proof (TryEnqueue_appends signal (queue m)). by destruct (TryEnqueue signal (queue m)). Qed.

Lemma Allow_create_appends key :
  only_appends (AtomicNow (fun t m => let '(p, rl) := Allow_create key t (limiter m) in (p, with_limiter rl m))).
Proof. intros t m. by destruct (Allow_create key t (limiter m)). Qed.

Lemma Allow_take_appends p :
  only_appends (AtomicNow (fun t m => let '(ok, rl) := Allow_take p t (limiter m) in (ok, with_limiter rl m))).
Proof. intros t m. by destruct (Allow_take p t (limiter m)). Qed.

#[export] Hint Resolve enqueue_appends Allow_create_appends Allow_take_appends : ims.

Lemma only_Dispatch mp (P : forall B, eff B -> Prop) wi : P _ (Ext NewUUID) -> P _ (Ext Now) -> only mp P (Dispatch wi).
Proof. intros Hu Ht. destruct (Dispatch_is_send wi) as [msg ->]. by repeat split. Qed.

(** Every goroutine but a worker's turn. *)
Lemma goroutine_appends `{Formats} a : a <> WorkerTurn -> only True (@only_appends) (goroutine a).
Proof.
  intros Hne. destruct a as [| | | | | | | | | | | | | | |[wi| |items]]; try done; cbn [goroutine job_prog]; unfold discard.
  all: try (by apply only_bind; [apply only_Dispatch|]).
  all: crawl; first [by auto with ims|by intros ?].
Qed.

(** A worker's turn, once it has received [signal]. *)
Definition processing (signal : Signal) : io unit := discard (processSignal signal).

Lemma processing_appends signal : only True (@only_appends) (processing signal).
Proof. unfold processing, discard. crawl; by intros ?. Qed.

Definition known_thread (p : io unit) : Prop := p = worker_round \/ only True (@only_appends) p.

Lemma next_worker_round q : next worker_round q -> q = Ret tt \/ exists signal, q = processing signal.
Proof. intros [[signal|] ->]; [right; by exists signal|by left]. Qed.

Lemma worker_round_takes : ~ only True (@only_appends) worker_round.
Proof.
  intros [Ha _]. set (signal := mkSignal "" "" "" "" "" None "" 0).
  specialize (Ha (mkMem ∅ (mkSignalQueue [signal] 1 0 0) (NewRateLimiter (f64_of_Z 200) (f64_of_Z 100)) 0 0)).
  by apply prefix_nil_not in Ha.
Qed.

Lemma worker_round_changes q : next worker_round q -> q <> worker_round.
Proof.
  intros [->|[signal ->]]%next_worker_round Heq; apply worker_round_takes; rewrite <- Heq; [done|apply processing_appends].
Qed.

Lemma known_next p q : known_thread p -> next p q -> known_thread q.
Proof.
  intros [->|Hp] Hn; right.
  - apply next_worker_round in Hn as [->|[signal ->]]; [done|apply processing_appends].
  - destruct p as [a|msg|B e k]; [done..|]. destruct Hn as [b ->]. by apply Hp.
Qed.

Lemma entry_known `{Formats} p : entry p -> known_thread p.
Proof. intros [a ->]. assert (a = WorkerTurn \/ a <> WorkerTurn) as [->|Hne] by (destruct a; first [by right|by left]); [by left|right; by apply goroutine_appends]. Qed.

(** ** Runs of the system *)

Section Runs.
Context `{World} `{Formats}.

Abbreviation config := (list (io unit) * Sys)%type (only parsing).
Abbreviation system_step := (pool_step step spawned entry).

(** A run of the process, from goroutines that have just arrived; other processes may use the stores
    at the same time. *)
Definition system_run (sigma : nat -> config) : Prop :=
  Forall entry (sigma 0%nat).1 /\ run_among step spawned entry elsewhere sigma.

Definition buffered (c : config) : list Signal := ch (queue (mem c.2)).

(** No goroutine that has arrived is forgotten by the scheduler. *)
Definition fair_scheduler (sigma : nat -> config) : Prop := forall i n, is_Some (thread i (sigma n)) -> fair i sigma.

(** A worker goes to take a signal, if there is one. *)
Definition worker_goes (c c' : config) : Prop := exists j, thread j c = Some worker_round /\ moves j c c'.

(** Again and again a worker returns to the queue, or it is empty. *)
Definition workers_return (sigma : nat -> config) : Prop :=
  forall n, exists m, (n <= m)%nat /\ (buffered (sigma m) = [] \/ worker_goes (sigma m) (sigma (S m))).

Lemma threads_known sigma n : system_run sigma -> Forall known_thread (sigma n).1.
Proof.
  intros [Hstart Hrun]. apply (run_keeps step spawned entry elsewhere); try done; [apply entry_known|apply known_next|apply spawned_entry|].
  eapply Forall_impl; [exact Hstart|apply entry_known].
Qed.

(** At any point of a run the stores have evolved, and all goroutines keep the guarantee. *)
Lemma run_evolves sigma n : Inv (sigma 0%nat).2 -> system_run sigma ->
  evolves (sigma 0%nat).2 (sigma n).2 /\ Forall (fun p => safe p (fun _ _ => True) (sigma n).2) (sigma n).1.
Proof.
  intros Hi [Hstart Hrun]. apply (run_rg step spawned entry evolves evolves elsewhere); try done; [apply _|by intros s1 s2 []| |apply spawned_entry].
  intros p s1 [a ->] He. apply goroutine_safe. by apply (ev_inv _ _ He).
Qed.

Lemma appends_step {B} (e : eff B) s b s' : only_appends e -> step B e s b s' ->
  ch (queue (mem s)) `prefix_of` ch (queue (mem s')).
Proof.
  destruct e as [B e|B f|B f| |j]; cbn; intros Hf Hs; try by subst.
  - by destruct Hs as [_ ->].
  - destruct Hs as [_ Hs]. specialize (Hf (mem s)). by rewrite <- Hs in Hf.
  - destruct Hs as (t & _ & Hs). specialize (Hf t (mem s)). by rewrite <- Hs in Hf.
Qed.

(** A step of the process appends to the queue, or a worker takes the first signal. *)
Lemma system_step_queue c c' : Forall known_thread c.1 -> system_step c c' ->
  (buffered c `prefix_of` buffered c' /\ (worker_goes c c' -> buffered c = [])) \/
  exists signal j, buffered c = signal :: buffered c' /\ thread j c' = Some (processing signal).
Proof.
  unfold buffered. intros Hk [(i & p & q & Hi & Hp & Hq & Hother)|[-> Hsame]]%pool_step_cases.
  - destruct (Forall_lookup_1 _ _ _ _ Hk Hi) as [->|Ha].
    + destruct Hp as (b & -> & _ & Hs). unfold Consume in Hs.
      destruct (ch (queue (mem c.2))) as [|signal rest]; injection Hs as -> Hm; rewrite Hm.
      * left. split; [apply prefix_nil|done].
      * right. by exists signal, i.
    + left. destruct p as [a|msg|B e k]; [done..|]. destruct Hp as (b & -> & Hs). destruct Ha as [Ha Hk'].
      split; [by eapply appends_step|]. intros (j & Hj & p' & q' & Hp' & Hq' & Hn). exfalso.
      rewrite Hj in Hp'. injection Hp' as <-. destruct (decide (j = i)) as [->|Hne].
      * assert (Hw : Step e k = worker_round) by congruence. apply worker_round_takes. by rewrite <- Hw.
      * rewrite (Hother j Hne), Hj in Hq' by (by eexists). injection Hq' as <-. by apply worker_round_changes in Hn.
  - left. split; [done|]. intros (j & Hj & p' & q' & Hp' & Hq' & Hn). exfalso.
    rewrite Hj in Hp'. injection Hp' as <-.
    rewrite Hsame, Hj in Hq' by (by eexists). injection Hq' as <-. by apply worker_round_changes in Hn.
Qed.

(** Where a buffered signal is after one more step. *)
Lemma signal_moves sigma n k signal : system_run sigma -> buffered (sigma n) !! k = Some signal ->
  (buffered (sigma (S n)) !! k = Some signal /\ ~ worker_goes (sigma n) (sigma (S n))) \/
  (exists k', k = S k' /\ buffered (sigma (S n)) !! k' = Some signal) \/
  (k = 0%nat /\ exists j, thread j (sigma (S n)) = Some (processing signal)).
Proof.
  intros Hsys Hk. pose proof (threads_known _ n Hsys) as Hts. destruct (proj2 Hsys n) as [[Heq [Hm _]]|Hs].
  - left. unfold buffered, worker_goes, moves, thread. rewrite Heq, Hm. split; [done|].
    intros (j & Hj & p & q & Hp & Hq & Hn). rewrite Hj in Hp, Hq. injection Hp as <-. injection Hq as <-. by apply worker_round_changes in Hn.
  - destruct (system_step_queue _ _ Hts Hs) as [[Hpre Hgo]|(first & j & Hb & Hj)].
    + left. split; [by eapply prefix_lookup_Some|]. intros Hg. by rewrite (Hgo Hg) in Hk.
    + right. rewrite Hb in Hk. destruct k as [|k]; [right; injection Hk as ->; by eauto|left; by eauto].
Qed.

Lemma signal_is_taken sigma n k signal : system_run sigma -> workers_return sigma ->
  buffered (sigma n) !! k = Some signal -> exists m j, (n <= m)%nat /\ thread j (sigma m) = Some (processing signal).
Proof.
  intros Hrun Hw. revert n. induction k as [k IH] using lt_wf_ind. intros n Hk.
  destruct (Hw n) as (m & Hnm & Hm). replace m with (n + (m - n))%nat in Hm by lia. revert Hm.
  generalize (m - n)%nat as d. clear m Hnm. intros d. revert n Hk. induction d as [|d IHd]; intros n Hk Hm.
  all: destruct (signal_moves sigma n k signal Hrun Hk) as [[Hk' Hg]|[(k' & -> & Hk')|[-> [j Hj]]]]; [| |by exists (S n), j; split; [lia|]].
  2,4: destruct (IH k' ltac:(lia) (S n) Hk') as (m & j & Hm' & Hj); exists m, j; split; [lia|done].
  - exfalso. rewrite Nat.add_0_r in Hm. destruct Hm as [He|Hm]; [by rewrite He in Hk|done].
  - destruct (IHd (S n) Hk') as (m & j & Hle & Hj); [by rewrite Nat.add_succ_comm|]. exists m, j. split; [lia|done].
Qed.

(** A goroutine that goes on, ends: in [Ret tt], since none panics. *)
Lemma goroutine_finishes sigma i n : Inv (sigma 0%nat).2 -> system_run sigma -> fair i sigma -> is_Some (thread i (sigma n)) ->
  exists m, (n <= m)%nat /\ thread i (sigma m) = Some (Ret tt).
Proof.
  intros Hi Hsys Hfair [p Hp]. destruct (fair_run_ends _ _ _ _ i sigma n p (proj2 Hsys) Hfair Hp) as (m & q & Hnm & Hq & Hend).
  exists m. split; [done|]. rewrite Hq. destruct q as [[]|msg|B e k]; [done| |done].
  destruct (run_evolves sigma m Hi Hsys) as [_ Hall]. by destruct (Forall_lookup_1 _ _ _ _ Hall Hq).
Qed.

Lemma signal_is_processed sigma n k signal :
  Inv (sigma 0%nat).2 -> system_run sigma -> fair_scheduler sigma -> workers_return sigma ->
  buffered (sigma n) !! k = Some signal ->
  exists j m m', (n <= m <= m')%nat /\
    thread j (sigma m) = Some (processing signal) /\ thread j (sigma m') = Some (Ret tt).
Proof.
  intros Hi Hrun Hfair Hw Hk. destruct (signal_is_taken sigma n k signal Hrun Hw Hk) as (m & j & Hnm & Hj).
  destruct (goroutine_finishes sigma j m Hi Hrun) as (m' & Hm' & Hend); [by eapply Hfair; eexists|by eexists|].
  exists j, m, m'. split; [lia|done].
Qed.

(** C10. No signal starves: under a fair scheduler and while workers return to the queue, each
    signal that is in the queue, at whatever position, is eventually taken by a worker, and the
    worker's [processSignal] for it eventually ends. *)
Theorem queued_signal_is_processed sigma n k signal :
  Inv (sigma 0%nat).2 -> system_run sigma -> fair_scheduler sigma -> workers_return sigma ->
  buffered (sigma n) !! k = Some signal ->
  exists j m m', (n <= m <= m')%nat /\
    thread j (sigma m) = Some (processing signal) /\ thread j (sigma m') = Some (Ret tt).
Proof. apply signal_is_processed. Qed.
End Runs.

(** ** What fault-free services make of it *)

Section Stored.
Context `{FaultFree} `{Formats}.

Definition document (id : string) (s : Sys) : Prop := is_Some (docs (seen s) !! id).

Lemma document_stays id s1 s2 : document id s1 -> evolves s1 s2 -> document id s2.
Proof. intros [d Hd] He. exists d. by apply (ev_docs _ _ He). Qed.

(** The first attempt inserts the document, unless it is there. *)
Lemma InsertSignal_stores signal s : Inv s -> safe (InsertSignal signal) (fun _ s' => document (sig_ID signal) s') s.
Proof.
  intros Hi. pose proof (InsertSignal_safe signal (fun _ _ => True) s Hi ltac:(done)) as Hsafe.
  intros s1 He b s2 Hs. destruct (Hsafe s1 He b s2 Hs) as [HG Hk]. split; [done|].
  eapply rg_mono; [|apply (rg_frame step evolves evolves _ (fun _ _ => True) (document (sig_ID signal))); [..|exact Hk]].
  - by intros r s' [_ ?].
  - apply document_stays.
  - done.
  - destruct Hs as [Ha Hm]. pose proof (fault_free _ _ _ _ _ Ha) as Hf. apply answer_allowed in Ha. cbn in Hf, Ha.
    unfold document. destruct (docs (view (outside s1)) !! sig_ID signal) as [d|] eqn:Hd.
    + apply (document_stays (sig_ID signal) s1); [by exists d|done].
    + rewrite (Hf eq_refl), decide_True in Ha by done. injection Ha as Hv. unfold seen. rewrite <- Hv. cbn.
      rewrite lookup_insert_eq. by eexists.
Qed.

Lemma processing_stores signal s : Inv s -> safe (processing signal) (fun _ s' => document (sig_ID signal) s') s.
Proof.
  intros Hi. apply safe_bind, safe_bind.
  eapply safe_mono; [|apply safe_inv; [done|apply (rg_par step evolves evolves Choose _ _
    (fun _ s' => document (sig_ID signal) s') (fun _ _ => True))]].
  - intros r s1 [[Hd _] Hi1]. assert (Hret : forall ok s2, evolves s1 s2 -> safe (Ret ok : io bool) (fun _ s' => safe (Ret tt) (fun _ s' => document (sig_ID signal) s') s') s2).
    { intros ok s2 He s3 He3 s4 He4. eapply document_stays; [exact Hd|]. etrans; [exact He|by etrans]. }
    destruct (_ || _); (apply safe_atomic; [done|]; intros s2 s3 He2 Hi2 Hv Hm; split; [by eapply evolves_mem|intros; by apply Hret]).
  - done.
  - apply Choose_evolves.
  - by apply InsertSignal_stores.
  - by apply fan_out_rest_safe.
Qed.

(** From the queue to the audit log: with services that do not fail, under a fair scheduler and
    while workers return to the queue, each signal that is in the queue, at whatever position, has
    its document in MongoDB at some later time, and from then on. *)
Theorem queued_signal_is_stored sigma n k signal :
  Inv (sigma 0%nat).2 -> system_run sigma -> fair_scheduler sigma -> workers_return sigma ->
  buffered (sigma n) !! k = Some signal ->
  exists m, (n <= m)%nat /\ forall m', (m <= m')%nat -> document (sig_ID signal) (sigma m').2.
Proof.
  intros Hi Hrun Hfair Hw Hk. destruct (signal_is_taken sigma n k signal Hrun Hw Hk) as (m & j & Hnm & Hj).
  destruct (goroutine_finishes sigma j m Hi Hrun) as (m1 & Hm1 & Hend); [by eapply Hfair; eexists|by eexists|].
  exists m1. split; [lia|]. intros m2 Hm2.
  apply (run_post step spawned entry evolves evolves elsewhere sigma j m m2 (processing signal) (fun _ s' => document (sig_ID signal) s') tt);
    [apply _|done|by intros s1 s2 []|apply Hrun|intros i; by apply run_evolves|done| |lia|].
  - apply processing_stores. destruct (run_evolves sigma m Hi Hrun) as [He _]. by apply (ev_inv _ _ He).
  - by apply (run_ended step spawned entry elsewhere j sigma (Ret tt) m1 m2 (proj2 Hrun)).
Qed.
End Stored.
