(* ===== verification/Alone.v ===== *)
(** What executions without interference write: the retried statements, and the life cycle of
    the work items when goroutines run one after the other. *)
From S2P Require Import Prelude Float64 GoTime Models Queue RateLimiter Tables Prog Services Retry.
From S2P Require Import Postgres RedisStore Mongo StatePattern Alerting Invariant StoreSafety.
From S2P Require Import Machine Escalator Debounce Ingestion Worker Health WorkItemsAPI System Liveness.
Local Open Scope string_scope.
Local Open Scope Z_scope.

(** ** The statements of a program *)

(** All SQL statements of the program satisfy [W]. *)
Definition writes_only (W : Stmt -> Prop) {B} (e : eff B) : Prop :=
  match e with Ext e => match e with PgExec stmt => W stmt | _ => True end | _ => True end.

Lemma write_tables o v r v' : write o v r v' -> (forall v1, o = Some v1 -> tables v1 = tables v) -> tables v' = tables v.
Proof. destruct r as [err|]; cbn; [|by auto]. intros [->|Ho] H; [done|by auto]. Qed.

Section Writes.
Context `{World}.

(** A step leaves the tables alone, or executes one of the statements. *)
Lemma step_tables (W : Stmt -> Prop) {B} (e : eff B) s b s' : writes_only W e -> step B e s b s' ->
  tables (seen s') = tables (seen s) \/ exists stmt, W stmt /\ exec_stmt stmt (tables (seen s)) = Some (tables (seen s')).
Proof.
  intros He Hs. destruct e as [B e|B f|B f| |j]; cbn in Hs; try (left; unfold seen; first [by subst|by destruct Hs as [-> _]]).
  2: { left. destruct Hs as (t & Ha & _). apply answer_allowed in Ha as [_ Hv]. unfold seen. by rewrite Hv. }
  destruct Hs as [Ha _]. apply answer_allowed in Ha. change (allowed e (seen s) b (seen s')) in Ha.
  destruct e; cbn in Ha, He.
  all: repeat match goal with
    | H : _ /\ _ |- _ => destruct H
    | H : exists _, _ |- _ => destruct H
    | H : read_at _ _ |- _ => destruct H
    end.
  all: try (left; match goal with H : seen _ = _ |- _ => by rewrite H end).
  all: try (left; apply (write_tables _ _ _ _ Ha); by intros v [= <-]).
  - destruct (exec_stmt s0 (tables (seen s))) as [T|] eqn:Hex; cbn in Ha.
    + assert (HT : seen s' = seen s \/ with_tables T (seen s) = seen s')
        by (destruct b as [err|]; cbn in Ha; [destruct Ha as [->|[= <-]]; by auto|injection Ha as <-; by right]).
      destruct HT as [->|<-]; [by left|right; by exists s0].
    + destruct b as [err|]; cbn in Ha; [|done]. destruct Ha as [->|]; [by left|done].
  - left. apply (write_tables _ _ _ _ H1). by intros v [= <-].
  - left. destruct (incr_entry _ _ _).
    + destruct H1 as [Hw|[_ ->]]; [|done]. apply (write_tables _ _ _ _ Hw). by intros v [= <-].
    + by destruct H1 as [_ [->| ->]].
  - left. apply (write_tables _ _ _ _ Ha). case_decide; by intros v [= <-].
Qed.

Lemma writes_only_keeps (W : Stmt -> Prop) (I : Tables -> Prop) {B} (e : eff B) s b s' :
  (forall stmt T T', W stmt -> exec_stmt stmt T = Some T' -> I T -> I T') ->
  writes_only W e -> step B e s b s' -> I (tables (seen s)) -> I (tables (seen s')).
Proof.
  intros HW He Hs HI. destruct (step_tables W e s b s' He Hs) as [->|(stmt & Hst & Hex)]; [done|by eapply HW].
Qed.

(** ** A retried statement takes effect up to three times *)

(** [k] executions of the statement, at some instants. *)
Inductive executed (stmt : Time -> Stmt) : nat -> Tables -> Tables -> Prop :=
| executed_none T : executed stmt 0 T T
| executed_more k T T1 T2 t : executed stmt k T T1 -> exec_stmt (stmt t) T1 = Some T2 -> executed stmt (S k) T T2.

Lemma attempt_sees stmt s :
  sees (t <-- now;; call (PgExec (stmt t))) (fun r s' => mem s' = mem s /\
    ((r <> None /\ tables (seen s') = tables (seen s)) \/
     exists t, exec_stmt (stmt t) (tables (seen s)) = Some (tables (seen s')))) s.
Proof.
  apply sees_call. intros t s1 [_ Hv] Hm. apply sees_call. intros r s2 Hw Hm2. apply sees_ret. split; [congruence|].
  cbn in Hw. rewrite Hv in Hw. cbn in Hw. destruct (exec_stmt (stmt t) (tables (seen s))) as [T|] eqn:Hex; cbn in Hw.
  - destruct r as [err|]; cbn in Hw.
    + destruct Hw as [->|[= <-]]; [by left|right; by exists t].
    + injection Hw as <-. right. by exists t.
  - destruct r as [err|]; [|done]. destruct Hw as [->|]; [by left|done].
Qed.

Lemma retried_statement store op stmt s :
  sees (withRetry store op (t <-- now;; call (PgExec (stmt t)))) (fun r s' => mem s' = mem s /\
    exists k, (k <= 3)%nat /\ (r = None -> (1 <= k)%nat) /\ executed stmt k (tables (seen s)) (tables (seen s'))) s.
Proof.
  set (I j s' := mem s' = mem s /\ exists k, (k <= j)%nat /\ executed stmt k (tables (seen s)) (tables (seen s'))).
  set (Q j s' := mem s' = mem s /\ exists k, (1 <= k <= j)%nat /\ executed stmt k (tables (seen s)) (tables (seen s'))).
  eapply sees_mono; [|apply (withRetry_sees I Q)].
  - intros [err|] s' (j & Hj & Hm & k & Hk & Hex); (split; [done|]); exists k; by repeat split; [lia|try done; lia|].
  - intros j s1 Hj (Hm & k & Hk & Hex). eapply sees_mono; [|apply attempt_sees].
    intros r s2 [Hm2 [[Hr HT]|[t HT]]].
    + destruct r as [err|]; [|done]. split; [congruence|]. exists k. rewrite HT. split; [lia|done].
    + assert (Hmore : executed stmt (S k) (tables (seen s)) (tables (seen s2))) by (by econstructor).
      destruct r; (split; [congruence|]); exists (S k); (split; [lia|done]).
  - intros j s1 s2 t (Hm & k & Hk & Hex) Hv Hm2. split; [congruence|]. exists k. rewrite Hv. done.
  - split; [done|]. exists O. split; [done|constructor].
Qed.

Lemma bumped id wi k T T' : work_items T !! id = Some wi -> executed (BumpSignalCount id) k T T' ->
  (exists wi', work_items T' !! id = Some wi' /\ wi_SignalCount wi' = wi_SignalCount wi + Z.of_nat k /\ wi_State wi' = wi_State wi) /\
  (forall id', id' <> id -> work_items T' !! id' = work_items T !! id') /\ rcas T' = rcas T.
Proof.
  intros Hwi Hex. induction Hex as [T|k T T1 T2 t Hex IH Hs]; [split; [exists wi; repeat split; [done|lia]|done]|].
  destruct (IH Hwi) as ((wi1 & Hwi1 & Hn & Hst) & Hothers & Hr). cbn in Hs. unfold update_work_item in Hs. rewrite Hwi1 in Hs.
  destruct (work_item_ok (bump_count t wi1)); [|done]. injection Hs as <-. cbn. split; [|split; [|done]].
  - exists (bump_count t wi1). rewrite lookup_insert_eq. split; [done|]. cbn. split; [lia|done].
  - intros id' Hne. rewrite lookup_insert_ne by done. by apply Hothers.
Qed.

(** How far the signal count can be off: run on its own, whatever the database does,
    [IncrementSignalCount] adds between one and three to the signal count of the work item when
    it returns nil (an attempt whose reply was lost has counted), and at most three when it
    returns an error; it changes no other work item and no RCA. *)
Theorem IncrementSignalCount_bounds id wi s : work_items (tables (seen s)) !! id = Some wi ->
  sees (IncrementSignalCount id) (fun r s' =>
    (exists wi', work_items (tables (seen s')) !! id = Some wi' /\
       (if decide (r = None) then wi_SignalCount wi + 1 else wi_SignalCount wi) <= wi_SignalCount wi' <= wi_SignalCount wi + 3) /\
    (forall id', id' <> id -> work_items (tables (seen s')) !! id' = work_items (tables (seen s)) !! id') /\
    rcas (tables (seen s')) = rcas (tables (seen s)) /\ mem s' = mem s) s.
Proof.
  intros Hwi. eapply sees_mono; [|apply (retried_statement _ _ (BumpSignalCount id))].
  intros r s' (Hm & k & Hk & Hr & Hex). destruct (bumped id wi k _ _ Hwi Hex) as ((wi' & Hwi' & Hn & _) & Hothers & Hrc).
  split; [|done]. exists wi'. split; [done|]. destruct (decide (r = None)) as [He|]; [specialize (Hr He)|]; lia.
Qed.
End Writes.

(** ** The life cycle, goroutine after goroutine *)

(** The statements that leave the states of the work items alone. *)
Definition stateless (stmt : Stmt) : Prop :=
  match stmt with SetResolved _ _ _ | SetClosed _ _ _ _ | SetState _ _ _ => False | _ => True end.

(** Every work item of [T0] is there, in its state, or [id] is in the state [to]. *)
Definition moved_only (id : string) (to : WorkItemState) (T0 T : Tables) : Prop :=
  forall id' wi, work_items T0 !! id' = Some wi -> exists wi', work_items T !! id' = Some wi' /\
    (wi_State wi' = wi_State wi \/ id' = id /\ wi_State wi' = to).

Lemma moved_only_refl id to T : moved_only id to T T.
Proof. intros id' wi Hwi. exists wi. by split; [|left]. Qed.

Lemma moved_only_update id to T0 T T' id1 f : update_work_item id1 f T = Some T' ->
  (forall wi, wi_State (f wi) = wi_State wi) \/ (id1 = id /\ forall wi, wi_State (f wi) = to) ->
  moved_only id to T0 T -> moved_only id to T0 T'.
Proof.
  intros Hup Hf HI id' wi Hwi. destruct (HI id' wi Hwi) as (wi1 & Hwi1 & Hst). unfold update_work_item in Hup.
  destruct (work_items T !! id1) as [wi0|] eqn:Hwi0; [|injection Hup as <-; by exists wi1].
  destruct (work_item_ok (f wi0)); [|done]. injection Hup as <-. cbn.
  destruct (decide (id1 = id')) as [->|Hne]; [|exists wi1; by rewrite lookup_insert_ne].
  rewrite lookup_insert_eq. exists (f wi0). split; [done|].
  assert (wi0 = wi1) as -> by congruence. destruct Hf as [Hf|[-> Hf]]; [by rewrite Hf|right; by rewrite Hf].
Qed.

Lemma stateless_moves id to T0 stmt T T' : stateless stmt -> exec_stmt stmt T = Some T' ->
  moved_only id to T0 T -> moved_only id to T0 T'.
Proof.
  intros Hst Hex HI. destruct stmt; cbn in Hst, Hex; try done.
  - destruct (_ && _) eqn:Hok; [|done]. injection Hex as <-. apply andb_true_iff in Hok as [_ Hnew%bool_decide_eq_true].
    intros id' wi' Hwi. destruct (HI id' wi' Hwi) as (wi1 & Hwi1 & Hor). exists wi1. cbn. by rewrite lookup_insert_ne by congruence.
  - eapply moved_only_update; [done|by left|done].
  - eapply moved_only_update; [done|by left|done].
  - destruct (_ && _); [|done]. by injection Hex as <-.
  - destruct (timeseries T !! _) as [[ctype n]|]; [destruct (_ <=? _); [|done]|]; by injection Hex as <-.
Qed.

Lemma update_stmt_moves id to mttr t T0 T T' : exec_stmt (update_stmt id to mttr t) T = Some T' ->
  moved_only id to T0 T -> moved_only id to T0 T'.
Proof.
  unfold update_stmt. repeat case_bool_decide; cbn [exec_stmt]; intros Hex;
    (eapply moved_only_update; [exact Hex|by right]).
Qed.

Section Serial.
Context `{World} `{Formats}.

Lemma goroutine_stateless a : (forall id parsed, a <> TransitionRequested id parsed) ->
  only True (@writes_only stateless) (goroutine a).
Proof.
  intros Hne. destruct a as [| |id parsed| | | | | | | | | | | | |[wi| |items]]; cbn [goroutine job_prog]; unfold discard.
  all: try (by edestruct Hne). all: try (by apply only_bind; [apply only_Dispatch|]).
  all: crawl.
Qed.

(** The part of a transition that writes. *)
Lemma persist_writes (W : Stmt -> Prop) id to mttr : (forall t, W (update_stmt id to mttr t)) ->
  only True (@writes_only W) (persist_transition id to mttr).
Proof.
  intros HW. unfold persist_transition. apply only_bind; [|crawl]. apply only_withRetry; [done|].
  split; [done|]. intros t. cbn [bind]. rewrite update_stmt_eq. by split; [apply HW|].
Qed.

(** Each work item stays in its state or goes on to the next one. *)
Definition advances (T T' : Tables) : Prop :=
  forall id wi, work_items T !! id = Some wi -> exists wi', work_items T' !! id = Some wi' /\
    (wi_State wi' = wi_State wi \/ follows (wi_State wi) (wi_State wi')).

Lemma advances_refl T : advances T T.
Proof. intros id wi Hwi. exists wi. by split; [|left]. Qed.

Lemma stateless_advances {A} (p : io A) s a s' : only True (@writes_only stateless) p -> runs p s a s' ->
  advances (tables (seen s)) (tables (seen s')).
Proof.
  intros Hp Hr id wi Hwi.
  assert (HI : moved_only "" (wi_State wi) (tables (seen s)) (tables (seen s'))).
  { eapply (only_exec step True (@writes_only stateless) (fun s1 => moved_only "" (wi_State wi) (tables (seen s)) (tables (seen s1))));
      [|exact Hp|exact Hr|apply moved_only_refl].
    intros B e s1 b s2 He Hs. eapply writes_only_keeps; [|exact He|exact Hs]. intros stmt T T'. apply stateless_moves. }
  destruct (HI id wi Hwi) as (wi' & Hwi' & [Hst|[_ Hst]]); exists wi'; by split; [|left].
Qed.

(** The guard of [Transition] is on the state that the work item is in. *)
Lemma Transition_advances id to s r s' : runs (Transition id to) s r s' -> advances (tables (seen s)) (tables (seen s')).
Proof.
  intros Hr. apply exec_bind_inv in Hr as (r1 & s1 & Hget & Hr).
  apply exec_inv in Hget as (row & s0 & [Ha _] & [-> ->]%exec_inv). apply answer_allowed in Ha as [Hv Hrow].
  change (seen s0 = seen s) in Hv. rewrite <- Hv.
  assert (Hstop : forall r2, runs (Ret r2) s0 r s' -> advances (tables (seen s0)) (tables (seen s')))
    by (intros r2 [_ ->]%exec_inv; apply advances_refl).
  destruct row as [wi| |p err]; [|by eapply Hstop..]. cbn [bind] in Hr.
  unfold stateFor in Hr. destruct (stateRegistry !! wi_State wi) as [impl|] eqn:Hreg; [|by apply exec_inv in Hr].
  cbn [bind] in Hr. pose proof (CanTransitionTo_follows _ _ to Hreg) as Hcan.
  destruct (CanTransitionTo impl to); cbn [negb] in Hr; [|by eapply Hstop]. pose proof (proj1 Hcan eq_refl) as Hnext.
  assert (Hp : only True (@writes_only (fun stmt => exists mttr t, stmt = update_stmt id to mttr t))
    (mttr <-- closing_mttr id to;; match mttr with inl err => Ret (None, Some err) | inr mttr => persist_transition id to mttr end)).
  { apply only_bind; [crawl|]. intros [err|mttr]; [done|]. apply persist_writes. intros t. by exists mttr, t. }
  assert (HI : moved_only id to (tables (seen s0)) (tables (seen s'))).
  { eapply (only_exec step True _ (fun s1 => moved_only id to (tables (seen s0)) (tables (seen s1)))); [|exact Hp|exact Hr|apply moved_only_refl].
    intros B e s1 b s2 He Hs. eapply writes_only_keeps; [|exact He|exact Hs]. intros stmt T T' (mttr & t & ->). apply update_stmt_moves. }
  intros id' wi' Hwi'. destruct (HI id' wi' Hwi') as (wi1 & Hwi1 & [Hst|[-> Hst]]); exists wi1; (split; [done|]); [by left|right].
  change (work_items (tables (seen s)) !! id = Some wi) in Hrow. rewrite Hv in Hwi'. assert (wi' = wi) as -> by congruence. by rewrite Hst.
Qed.

Lemma goroutine_advances a s s' : runs (goroutine a) s tt s' -> advances (tables (seen s)) (tables (seen s')).
Proof.
  destruct a; try (apply stateless_advances, goroutine_stateless; by intros).
  cbn [goroutine]. intros Hr. apply exec_bind_inv in Hr as (r & s1 & Hr & [_ ->]%exec_inv). unfold handle_TransitionWorkItem in Hr.
  assert (Hstop : forall r2, runs (Ret r2) s r s1 -> advances (tables (seen s)) (tables (seen s1)))
    by (intros r2 [_ ->]%exec_inv; apply advances_refl).
  case_bool_decide; [by eapply Hstop|]. destruct parsed as [err|to]; [by eapply Hstop|]. case_bool_decide; [by eapply Hstop|].
  apply exec_bind_inv in Hr as (r1 & s2 & Hr & Hend). apply Transition_advances in Hr.
  destruct r1 as [wi [err|]]; by apply exec_inv in Hend as [_ ->].
Qed.

(** Goroutines that run to their end one after the other, on any services. *)
Definition serially : Sys -> Sys -> Prop := rtc (fun s s' => exists a, runs (goroutine a) s tt s').

(** C15. Without interference the life cycle is respected, whatever the services answer and however
    often statements are retried: when the goroutines run one after the other, each work item
    only goes along the chain OPEN, INVESTIGATING, RESOLVED, CLOSED, and a CLOSED one stays
    CLOSED. (The interleavings of the running system break this.) *)
Theorem serial_executions_follow_the_lifecycle s s' id wi : serially s s' ->
  work_items (tables (seen s)) !! id = Some wi ->
  exists wi', work_items (tables (seen s')) !! id = Some wi' /\ rtc follows (wi_State wi) (wi_State wi') /\
    (wi_State wi = StateClosed -> wi_State wi' = StateClosed).
Proof.
  intros Hs Hwi. cut (exists wi', work_items (tables (seen s')) !! id = Some wi' /\ rtc follows (wi_State wi) (wi_State wi')).
  { intros (wi' & Hwi' & Hst). exists wi'. split; [done|]. split; [done|]. intros Hc. rewrite Hc in Hst.
    inversion Hst as [|? ? ? Hf]; subst; [done|]. by apply follows_cases in Hf as [[? _]|[[? _]|[? _]]]. }
  induction Hs as [s|s s1 s' [a Ha] _ IH] in wi, Hwi |- *; [by exists wi|].
  destruct (goroutine_advances _ _ _ Ha id wi Hwi) as (wi1 & Hwi1 & Hst). destruct (IH wi1 Hwi1) as (wi' & Hwi' & Hrtc).
  exists wi'. split; [done|]. destruct Hst as [<-|Hf]; [done|]. by eapply rtc_l.
Qed.
End Serial.
