(* ===== verification/Knowledge.v ===== *)
(** What a goroutine knows: each effect is checked against what the goroutine has learned from the
    replies to its earlier ones. In a run where what is learned stays true, every effect that is
    performed is permitted by the facts of that moment. *)
From S2P Require Import Prelude Prog.

Section Informed.
Context {E : Type -> Type} {K : Type} (le : K -> K -> Prop) `{!PreOrder le}.
Context (permits : K -> forall B, E B -> Prop) (learn : forall B, E B -> B -> K -> K).
Context (permits_mono : forall k k' B (e : E B), le k k' -> permits k B e -> permits k' B e).
Context (learn_mono : forall k k' B (e : E B) b, le k k' -> le (learn B e b k) (learn B e b k')).
Context (learn_grows : forall k B (e : E B) b, le k (learn B e b k)).

Fixpoint informed {A} (k : K) (p : prog E A) : Prop :=
  match p with
  | Ret _ | Panic _ => True
  | Step e f => permits k _ e /\ forall b, informed (learn _ e b k) (f b)
  end.

Lemma informed_mono {A} (p : prog E A) k k' : le k k' -> informed k p -> informed k' p.
Proof.
  revert k k'. induction p as [a|msg|B e f IH]; intros k k' Hk; cbn; [done..|].
  intros [Hp Hf]. split; [by eapply permits_mono|]. intros b. eapply IH; [|apply Hf]. by apply learn_mono.
Qed.

Lemma informed_bind {A B} (p : prog E A) (q : A -> prog E B) k :
  informed k p -> (forall a k', le k k' -> informed k' (q a)) -> informed k (bind q p).
Proof.
  revert k. induction p as [a|msg|C e f IH]; intros k; cbn; [|done|].
  - intros _ Hq. by apply Hq.
  - intros [Hp Hf] Hq. split; [done|]. intros b. apply IH; [apply Hf|].
    intros a k' Hk'. apply Hq. etrans; [apply (learn_grows k _ e b)|done].
Qed.

(** A program whose effects need no more than is known already. *)
Lemma only_informed {A} mp P (p : prog E A) k :
  (forall B (e : E B), P B e -> permits k B e) -> only mp P p -> informed k p.
Proof.
  intros HP. assert (Hk : le k k) by reflexivity. revert Hk. generalize k at 2 3.
  induction p as [a|msg|B e f IH]; intros k' Hk; cbn; [done..|]. intros [He Hf].
  split; [by apply (permits_mono k), HP|]. intros b. apply IH; [|done]. etrans; [exact Hk|apply learn_grows].
Qed.

(** ** Steps of a pool *)

Section Steps.
Context {St : Type} (step : forall B, E B -> St -> B -> St -> Prop).
Context (spawned : forall B, E B -> list (prog E unit)) (entry : prog E unit -> Prop).
Context (Hentry : forall p k, entry p -> informed k p).
Context (Hspawn : forall k B (e : E B), permits k B e -> Forall (informed k) (spawned B e)).

(** What happens between two moments, by somebody who knows [k]. *)
Definition permitted (k : K) (s s' : St) : Prop :=
  s' = s \/ exists B (e : E B) b, permits k B e /\ step B e s b s'.

(** A step of goroutines that are informed by the facts of now is permitted, and leaves them informed by
    the facts of then: what is learned is true, and what was true stays true. *)
Lemma pool_step_informed k k' c c' : pool_step step spawned entry c c' ->
  (forall B (e : E B) b, permits k B e -> step B e c.2 b c'.2 -> le (learn B e b k) k') -> (c'.2 = c.2 -> le k k') ->
  Forall (informed k) c.1 -> permitted k c.2 c'.2 /\ Forall (informed k') c'.1.
Proof.
  intros Hs Hl Hk Hn. unfold permitted. destruct Hs as [i B e f ts s b s' Hi Hs|p ts s Hp]; cbn in *.
  - pose proof (Forall_lookup_1 _ _ _ _ Hn Hi) as [Hperm Hf]. specialize (Hl B e b Hperm Hs).
    assert (Hkk : le k k') by (etrans; [apply (learn_grows _ _ e b)|done]).
    split; [right; by exists B, e, b|]. apply Forall_app. split.
    2: { eapply Forall_impl; [by apply Hspawn|]. intros p. by apply informed_mono. }
    apply Forall_insert; [|by apply informed_mono with (learn B e b k)].
    eapply Forall_impl; [exact Hn|]. intros p. by apply informed_mono.
  - split; [by left|]. apply Forall_app. split; [|by repeat constructor; apply Hentry].
    eapply Forall_impl; [exact Hn|]. intros q. by apply informed_mono, Hk.
Qed.
End Steps.
End Informed.
