(* ===== verification/Scenarios.v ===== *)
(** Concrete deployments: the theorems of the running system applied to them, and the races and
    the faults that its interleavings contain. *)
From S2P Require Import Prelude Float64 GoTime Models Queue RateLimiter Tables Prog Services Retry.
From S2P Require Import Postgres RedisStore Mongo StatePattern Alerting Invariant StoreSafety.
From S2P Require Import Machine Escalator Debounce Ingestion Worker Health WorkItemsAPI MemWorld System Liveness Alone.
Local Open Scope string_scope.
Local Open Scope Z_scope.

#[local] Existing Instance MemWorld.
#[local] Instance plain_formats : Formats :=
  {| marshal := fun _ => inr "{}"; unmarshal := fun _ => inl (EText "unexpected end of JSON input");
     sscanf_float := fun _ => None |}.

Definition start_time : Time := 63870000000000000000.

(** One work item, in a given state, whose RCA is stored. *)
Definition one_item (state : WorkItemState) : WorkItem :=
  mkWorkItem "wi-1" "db-1" ComponentRDBMS "Incident: RDBMS failure on db-1" SeverityP0 state 1 ""
    start_time start_time None None None.

Definition one_item_tables (state : WorkItemState) : Tables :=
  mkTables {[ "wi-1" := one_item state ]} {[ "wi-1" := example_RCA ]} ∅.

Definition one_item_system (state : WorkItemState) : Sys :=
  mkSys (mkView (one_item_tables state) ∅ ∅ start_time {[ "wi-1"; "rca-1" ]} : world) empty_mem.

Lemma one_item_lookup state id wi : work_items (one_item_tables state) !! id = Some wi -> id = "wi-1" /\ wi = one_item state.
Proof. intros Hw. apply (proj1 (lookup_singleton_Some (M := gmap string) "wi-1" id (one_item state) wi)) in Hw. naive_solver. Qed.

Lemma one_rca_lookup state id r : rcas (one_item_tables state) !! id = Some r -> id = "wi-1" /\ r = example_RCA.
Proof. intros Hw. apply (proj1 (lookup_singleton_Some (M := gmap string) "wi-1" id example_RCA r)) in Hw. naive_solver. Qed.

Lemma one_item_inv state : state_ok state = true -> state <> StateClosed -> Inv (one_item_system state).
Proof.
  intros Hst Hne. constructor.
  - constructor.
    + by intros id wi [-> ->]%one_item_lookup.
    + intros id wi [-> ->]%one_item_lookup. unfold work_item_ok. cbn. by rewrite Hst.
    + by intros id r [-> ->]%one_rca_lookup.
    + intros id r [-> ->]%one_rca_lookup. by eexists.
    + by intros id r [-> ->]%one_rca_lookup.
    + by intros id id' r r' [-> ->]%one_rca_lookup [-> ->]%one_rca_lookup.
  - by intros id wi [-> ->]%one_item_lookup.
  - apply map_Forall_empty.
  - intros cid e He. change ((∅ : gmap string RedisEntry) !! debounce_key cid = Some e) in He. by rewrite lookup_empty in He.
  - constructor.
  - done.
  - apply NewRateLimiter_wf.
Qed.

(** A schedule, from the goroutines that have arrived. *)
Definition play `{Formats} (arrivals : list Arrival) (sched : list nat) (s : Sys) : list (io unit) * Sys :=
  run_schedule mem_serve spawned sched (goroutine <$> arrivals) s.

Lemma arrivals_enter `{Formats} arrivals : Forall entry (goroutine <$> arrivals).
Proof. apply Forall_forall. intros p (a & -> & _)%list_elem_of_fmap. by exists a. Qed.

Lemma play_reaches `{Formats} arrivals sched s : system_reaches s (play arrivals sched s).1 (play arrivals sched s).2.
Proof.
  apply (run_schedule_reachable mem_serve step mem_serve_step), arrive_reachable, arrivals_enter.
Qed.

Definition closing : list Arrival := [TransitionRequested "wi-1" (inr StateClosed)].

Definition state_of (id : string) (s : Sys) : option WorkItemState :=
  wi_State <$> work_items (tables (seen s)) !! id.

Lemma closed_work_items_have_complete_rca_witness :
  exists wi, work_items (tables (seen (play closing (repeat 0%nat 10) (one_item_system StateResolved)).2)) !! "wi-1" = Some wi /\
    wi_MTTR wi = Some (MTTRMinutes example_RCA).
Proof.
  destruct (work_items (tables (seen (play closing (repeat 0%nat 10) (one_item_system StateResolved)).2)) !! "wi-1") as [wi|] eqn:Hwi.
  2: { vm_compute in Hwi. discriminate. }
  exists wi. split; [reflexivity|].
  destruct (closed_work_items_have_complete_rca (one_item_system StateResolved) _ _ "wi-1" wi
    (one_item_inv StateResolved eq_refl ltac:(done)) (play_reaches closing (repeat 0%nat 10) _) Hwi) as (r & Hr & _ & Hm).
  { vm_compute in Hwi. injection Hwi as <-. reflexivity. }
  rewrite Hm. do 2 f_equal. vm_compute in Hr. injection Hr as <-. reflexivity.
Defined.

Lemma system_invariant_witness :
  Inv (play closing (repeat 0%nat 10) (one_item_system StateResolved)).2.
Proof.
  apply (system_invariant (one_item_system StateResolved) (play closing (repeat 0%nat 10) (one_item_system StateResolved)).1).
  - by apply one_item_inv.
  - apply play_reaches.
Defined.

Lemma history_is_kept_witness :
  rcas (tables (seen (play closing (repeat 0%nat 10) (one_item_system StateResolved)).2)) !! "wi-1" = Some example_RCA.
Proof.
  apply (history_is_kept (one_item_system StateResolved) (play closing (repeat 0%nat 10) (one_item_system StateResolved)).1).
  - by apply one_item_inv.
  - apply play_reaches.
  - reflexivity.
Defined.

(** ** Two races *)

(** Two requests to resolve the incident; one to close it. *)
Definition racing : list Arrival :=
  [TransitionRequested "wi-1" (inr StateResolved); TransitionRequested "wi-1" (inr StateResolved);
   TransitionRequested "wi-1" (inr StateClosed)].

(** The first reads the state and is overtaken by the others; then it goes on. *)
Definition overtaken : list nat := ([0] ++ repeat 1 10 ++ repeat 2 10)%nat%list.
Definition late : list nat := repeat 0%nat 10.

Lemma run_schedule_app {E : Type -> Type} {St} (serve : forall B, E B -> St -> B * St) sp l1 l2 ts (s : St) :
  run_schedule serve sp (l1 ++ l2) ts s =
  run_schedule serve sp l2 (run_schedule serve sp l1 ts s).1 (run_schedule serve sp l1 ts s).2.
Proof.
  revert ts s. induction l1 as [|i l1 IH]; intros ts s; [done|]. cbn [app run_schedule].
  destruct (ts !! i) as [[a|msg|B e k]|]; try apply IH. destruct (serve B e s) as [b s']. apply IH.
Qed.

Lemma run_schedule_steps `{Formats} en sched ts s :
  rtc (pool_step step spawned en) (ts, s) (run_schedule mem_serve spawned sched ts s).
Proof.
  revert ts s. induction sched as [|i sched IH]; intros ts s; [reflexivity|]. cbn [run_schedule].
  destruct (ts !! i) as [[a|msg|B e k]|] eqn:Hi; try apply IH.
  pose proof (mem_serve_step B e s) as Hs. destruct (mem_serve B e s) as [b s'].
  eapply rtc_l; [|apply IH]. by econstructor.
Qed.

Lemma play_continues `{Formats} arrivals l1 l2 s :
  rtc (pool_step step spawned entry) ((play arrivals l1 s).1, (play arrivals l1 s).2)
    ((play arrivals (l1 ++ l2) s).1, (play arrivals (l1 ++ l2) s).2).
Proof.
  unfold play. rewrite run_schedule_app, <- !surjective_pairing.
  generalize (run_schedule mem_serve spawned l1 (goroutine <$> arrivals) s). intros [ts s']. apply run_schedule_steps.
Qed.

(** C31. CLOSED is not final in the running system, although the state objects say so:
    [Transition] reads the state and writes the new one in separate statements, without a
    transaction or a condition on the state it read, so that a request that was overtaken takes
    an incident that was closed meanwhile back to RESOLVED, without any fault of the services.
    (Its RCA and its MTTR stay.) *)
Theorem closed_incident_reopens :
  exists threads1 s1 threads2 s2,
    system_reaches (one_item_system StateInvestigating) threads1 s1 /\
    rtc (pool_step step spawned entry) (threads1, s1) (threads2, s2) /\
    state_of "wi-1" s1 = Some StateClosed /\ state_of "wi-1" s2 = Some StateResolved.
Proof.
  eexists _, _, _, _. split; [apply (play_reaches racing overtaken)|].
  split; [apply (play_continues racing overtaken late)|]. split; by vm_compute.
Qed.

Definition empty_system : Sys := mkSys (empty_view start_time : world) empty_mem.

Definition db_failure : IngestRequest := mkIngestRequest "db-1" ComponentRDBMS "connection refused" SeverityP0 None.

(** Two signals of one component. *)
Definition two_signals : list Arrival :=
  [IngestRequested "10.0.0.1" (inr db_failure); IngestRequested "10.0.0.2" (inr db_failure)].

(** Both find no entry before either has made one: the goroutines alternate. *)
Definition alternating : list nat := concat (repeat [0; 1]%nat 30).

Definition items_of (s : Sys) : list (string * WorkItem) := map_to_list (work_items (tables (seen s))).

(** C33. The debounce window does not keep the incidents of a component single: [Resolve] looks
    the component up and registers it in separate steps, so that two signals of one component
    that arrive together create two work items, without any fault of the services. *)
Theorem concurrent_signals_create_two_incidents :
  exists threads s id1 id2,
    system_reaches empty_system threads s /\ id1 <> id2 /\
    wi_ComponentID <$> work_items (tables (seen s)) !! id1 = Some "db-1" /\
    wi_ComponentID <$> work_items (tables (seen s)) !! id2 = Some "db-1".
Proof.
  exists (play two_signals alternating empty_system).1, (play two_signals alternating empty_system).2, "uuuuuu", "uuuuu".
  split; [apply play_reaches|]. split; [done|]. split; by vm_compute.
Qed.

(** ** The operations on concrete systems *)

(** The result of a handler that runs on its own. *)
Lemma sees_run {A} (p : io A) Q s a s' : sees p Q s -> run mem_serve p s = (Some a, s') -> Q a s'.
Proof. intros Hs Hr. eapply sees_runs; [exact Hs|]. by apply (run_exec mem_serve step mem_serve_step). Qed.

Definition returned {A} (p : io A) (s : Sys) : option A := (run mem_serve p s).1.
Definition after {A} (p : io A) (s : Sys) : Sys := (run mem_serve p s).2.

Lemma sees_result {A} (p : io A) Q s a : sees p Q s -> returned p s = Some a -> Q a (after p s).
Proof.
  intros Hs Hr. eapply sees_run; [exact Hs|]. unfold returned, after in *. destruct (run mem_serve p s). cbn in *. by subst.
Qed.

Lemma dashboard_counts_witness :
  returned GetDashboardCounts (one_item_system StateResolved) = Some (mkCounts 0 0 1 0, None) /\
  (1 = 0 \/ 1 = count_state (one_item_tables StateResolved) StateResolved).
Proof.
  split; [by vm_compute|].
  refine (proj2 (sees_result _ _ _ (mkCounts 0 0 1 0, None)
    (proj1 (dashboard_counts (one_item_system StateResolved) StateResolved eq_refl)) _) eq_refl).
  by vm_compute.
Defined.

(** The transition to CLOSED of the resolved item is the one the contract asks for. *)
Lemma Transition_refines_witness :
  exists t, tables (seen (after (Transition "wi-1" StateClosed) (one_item_system StateResolved))) =
    mkTables (<["wi-1" := transition_row StateClosed t (Some example_RCA) (one_item StateResolved)]> {[ "wi-1" := one_item StateResolved ]})
      {[ "wi-1" := example_RCA ]} ∅.
Proof.
  pose proof (Transition_refines (H0 := MemWorld_fault_free) "wi-1" StateClosed (one_item_system StateResolved)
    (inv_tables _ (one_item_inv StateResolved eq_refl ltac:(done)))) as Hs.
  destruct (returned (Transition "wi-1" StateClosed) (one_item_system StateResolved)) as [r|] eqn:Hr; [|by vm_compute in Hr].
  destruct (sees_result _ _ _ _ Hs Hr) as (t & _ & Ht & _). by exists t.
Defined.

Lemma SubmitRCA_durable_witness :
  safe (SubmitRCA example_RCA) (fun r s' => r.2 = None ->
    complete_RCA example_RCA /\ exists t, r.1 = set_submitted t example_RCA /\
    rcas (tables (seen s')) !! "wi-1" = Some (inserted_rca r.1)) (one_item_system StateInvestigating).
Proof. apply (SubmitRCA_durable example_RCA). by apply one_item_inv. Defined.

(** The item as a P2 that has been INVESTIGATING for 31 minutes. *)
Definition stale_tables : Tables :=
  default empty_tables (exec_stmt (SetSeverity "wi-1" SeverityP2 start_time) (one_item_tables StateInvestigating)).
Definition stale_system : Sys :=
  mkSys (mkView stale_tables ∅ ∅ (start_time + 31 * Minute) {[ "wi-1"; "rca-1" ]} : world) empty_mem.

Lemma stale_tables_ok : tables_ok stale_tables.
Proof.
  unfold stale_tables. destruct (exec_stmt _ _) as [T|] eqn:He; [|by vm_compute in He].
  eapply exec_stmt_ok; [|exact He]. apply (inv_tables _ (one_item_inv StateInvestigating eq_refl ltac:(done))).
Qed.

Lemma runEscalationCheck_spec_witness :
  wi_Severity <$> work_items (tables (seen (after runEscalationCheck stale_system))) !! "wi-1" = Some SeverityP1 /\
  rcas (tables (seen (after runEscalationCheck stale_system))) = rcas stale_tables.
Proof.
  split; [by vm_compute|].
  pose proof (runEscalationCheck_spec (H0 := MemWorld_fault_free) stale_system stale_tables_ok) as Hs.
  destruct (returned runEscalationCheck stale_system) as [r|] eqn:Hr; [|by vm_compute in Hr].
  apply (sees_result _ _ _ _ Hs Hr).
Defined.

Lemma handle_TransitionWorkItem_status_witness :
  option_map api_status (returned (handle_TransitionWorkItem "wi-2" (inr StateClosed)) (one_item_system StateResolved)) = Some 404.
Proof.
  pose proof (handle_TransitionWorkItem_status (H0 := MemWorld_fault_free) "wi-2" StateClosed (one_item_system StateResolved)
    (inv_tables _ (one_item_inv StateResolved eq_refl ltac:(done)))) as Hs.
  destruct (returned (handle_TransitionWorkItem "wi-2" (inr StateClosed)) (one_item_system StateResolved)) as [r|] eqn:Hr; [|by vm_compute in Hr].
  cbn [option_map]. f_equal. exact (proj1 (proj2 (sees_result _ _ _ _ Hs Hr)) eq_refl).
Defined.

(** The process remembers the component of the item. *)
Definition known_component : Sys :=
  mkSys (outside (one_item_system StateOpen)) (with_local {[ "db-1" := "wi-1" ]} empty_mem).

Lemma Resolve_hit_witness :
  returned (Resolve "db-1" (fun _ : unit => Panic "not called") tt) known_component = Some (tt, inr ("wi-1", false)).
Proof.
  pose proof (Resolve_hit "db-1" "wi-1" (fun _ : unit => Panic "not called") tt known_component eq_refl) as Hs.
  destruct (returned (Resolve "db-1" (fun _ : unit => Panic "not called") tt) known_component) as [r|] eqn:Hr; [|by vm_compute in Hr].
  f_equal. apply (sees_result _ _ _ _ Hs Hr).
Defined.

(** A closure that makes the item of the system. *)
Definition make_item (_ : unit) : io (unit * (error + WorkItem)) := Ret (tt, inr (one_item StateOpen)).

Lemma Resolve_registers_witness :
  local (mem (after (Resolve "db-1" make_item tt) empty_system)) !! "db-1" = Some "wi-1".
Proof.
  pose proof (Resolve_registers "db-1" make_item tt empty_system (fun wi => wi = one_item StateOpen)) as Hs.
  destruct (returned (Resolve "db-1" make_item tt) empty_system) as [r|] eqn:Hr; [|by vm_compute in Hr].
  assert (Hr' : r = (tt, inr ("wi-1", true))) by (vm_compute in Hr; congruence). subst r.
  refine (proj1 (sees_result _ _ _ _ (Hs _) Hr)).
  intros s1 Hm. apply sees_ret. split; [done|]. cbn. congruence.
Defined.


Lemma IngestSignal_safe_witness :
  safe (IngestSignal "10.0.0.1" (inr db_failure)) good_response (one_item_system StateOpen).
Proof. apply (IngestSignal_safe "10.0.0.1" (inr db_failure)). by apply one_item_inv. Defined.

Lemma IngestBatch_safe_witness :
  safe (IngestBatch "10.0.0.1" (inr [db_failure])) (fun r s' => good_response r s' /\
    (forall l, body r = ResultsBody l -> exists reqs, inr [db_failure] = inr reqs :> (error + list IngestRequest) /\
       length l = length reqs /\ (length reqs <= 100)%nat)) (one_item_system StateOpen).
Proof. apply (IngestBatch_safe "10.0.0.1" (inr [db_failure])). by apply one_item_inv. Defined.




Definition queued_signal : Signal :=
  mkSignal "sig-1" "db-1" ComponentRDBMS "connection refused" SeverityP0 None "wi-1" start_time.

Lemma processSignal_durable_witness :
  safe (processSignal queued_signal) (fun ok s' => ok = true ->
    docs (seen s') !! "sig-1" = Some (bson_signal queued_signal) /\ counted "wi-1" 2 s') (one_item_system StateOpen).
Proof.
  apply (processSignal_durable queued_signal 1); [by apply one_item_inv|done|].
  exists (one_item StateOpen). by split.
Defined.

(** The health of the empty deployment. *)
Lemma Health_empty :
  option_map fst (returned (Health start_time 20) empty_system) = Some 200 /\
  option_map (fun r => hr_length r.2) (returned (Health start_time 20) empty_system) = Some 0.
Proof.
  split; [by vm_compute|].
  pose proof (Health_spec start_time 20 empty_system ltac:(by vm_compute)) as Hs.
  destruct (returned (Health start_time 20) empty_system) as [r|] eqn:Hr; [|by vm_compute in Hr].
  destruct (sees_result _ _ _ _ Hs Hr) as (_ & _ & _ & _ & _ & Hl & _). cbn [option_map]. by rewrite Hl.
Qed.

(** ** Infinite runs: a schedule, then idling *)

Definition play_run `{Formats} (arrivals : list Arrival) (sched : list nat) (s : Sys) (n : nat) : list (io unit) * Sys :=
  play arrivals (take n sched) s.

Lemma run_schedule_one `{Formats} en i c :
  run_schedule mem_serve spawned [i] c.1 c.2 = c \/ pool_step step spawned en c (run_schedule mem_serve spawned [i] c.1 c.2).
Proof.
  destruct c as [ts s]. cbn. destruct (ts !! i) as [[a|msg|B e k]|] eqn:Hi; [by left..| |by left].
  right. pose proof (mem_serve_step B e s) as Hs. destruct (mem_serve B e s) as [b s']. by constructor.
Qed.

(** Nothing arrives during the schedule. *)
Lemma play_run_is_run `{Formats} en arrivals sched s : is_run step spawned en (play_run arrivals sched s).
Proof.
  intros n. unfold play_run, play.
  destruct (sched !! n) as [i|] eqn:Hi; [|apply lookup_ge_None in Hi; left; by rewrite !take_ge by lia].
  rewrite (take_S_r _ _ i) by done. rewrite run_schedule_app. apply run_schedule_one.
Qed.

Lemma play_run_system `{Formats} arrivals sched s : system_run (play_run arrivals sched s).
Proof. split; [apply (arrivals_enter arrivals)|apply is_run_among, play_run_is_run; apply _]. Qed.

Lemma play_run_stops `{Formats} arrivals sched s n : (length sched <= n)%nat -> play_run arrivals sched s n = play arrivals sched s.
Proof. intros Hn. unfold play_run. by rewrite take_ge. Qed.

Lemma play_run_fair `{Formats} arrivals sched s : Forall ended (play arrivals sched s).1 -> fair_scheduler (play_run arrivals sched s).
Proof.
  intros Hend i n0 Hi n. pose proof (proj2 (play_run_system arrivals sched s)) as Hrun.
  exists (n + (n0 + length sched))%nat. split; [lia|]. right.
  destruct (run_thread_stays _ _ _ _ i _ n0 (n + length sched)%nat Hrun Hi) as [p Hp].
  replace (n0 + (n + length sched))%nat with (n + (n0 + length sched))%nat in Hp by lia.
  exists p. split; [done|]. rewrite play_run_stops in Hp by lia. by eapply Forall_lookup_1.
Qed.

(** A signal waits for a worker. *)
Definition waiting_signal : Signal :=
  mkSignal "sig-1" "db-1" ComponentRDBMS "connection refused" SeverityP0 (Some []) "wi-1" start_time.

Definition waiting_system : Sys :=
  mkSys (outside (one_item_system StateOpen)) (with_queue (TryEnqueue waiting_signal (New 50000)).2 empty_mem).

Lemma waiting_system_inv : Inv waiting_system.
Proof.
  destruct (one_item_inv StateOpen eq_refl ltac:(done)). constructor; try done.
  constructor; [|constructor]. cbn. by eexists.
Qed.

Definition worker_sched : list nat := repeat 0%nat 20.
Definition worker_run : nat -> list (io unit) * Sys := play_run [WorkerTurn] worker_sched waiting_system.

Lemma worker_run_returns : workers_return worker_run.
Proof.
  intros [|n].
  - exists O. split; [done|]. right. exists O. split; [reflexivity|]. exists worker_round, (processing waiting_signal).
    split; [reflexivity|]. split; [reflexivity|]. by exists (Some waiting_signal).
  - exists (S n). split; [done|]. left. destruct (decide (20 <= S n)%nat) as [Hn|Hn].
    + unfold worker_run. rewrite play_run_stops by done. by vm_compute.
    + do 19 (destruct n as [|n]; [by vm_compute|]). lia.
Qed.

Lemma worker_run_fair : fair_scheduler worker_run.
Proof. apply play_run_fair. vm_compute. repeat constructor. Qed.

Lemma queued_signal_is_processed_witness :
  exists j m m', (0 <= m <= m')%nat /\
    thread j (worker_run m) = Some (processing waiting_signal) /\ thread j (worker_run m') = Some (Ret tt).
Proof.
  apply (queued_signal_is_processed worker_run 0 0 waiting_signal waiting_system_inv (play_run_system _ _ _)
    worker_run_fair worker_run_returns).
  reflexivity.
Defined.

Lemma queued_signal_is_stored_witness :
  exists m, (0 <= m)%nat /\ forall m', (m <= m')%nat -> document "sig-1" (worker_run m').2.
Proof.
  apply (queued_signal_is_stored (H0 := MemWorld_fault_free) worker_run 0 0 waiting_signal waiting_system_inv (play_run_system _ _ _)
    worker_run_fair worker_run_returns).
  reflexivity.
Defined.

(** ** One goroutine after the other *)

(** What [goroutine a], run alone, makes of the system. *)
Definition alone (a : Arrival) (s : Sys) : Sys := (run mem_serve (goroutine a) s).2.

Lemma alone_runs a s : (run mem_serve (goroutine a) s).1 = Some tt -> runs (goroutine a) s tt (alone a s).
Proof.
  intros Hr. apply (run_exec mem_serve step mem_serve_step). unfold alone.
  destruct (run mem_serve (goroutine a) s) as [r s']. cbn in *. by rewrite Hr.
Qed.

Definition resolved_system : Sys := one_item_system StateResolved.
Definition closed_system : Sys := alone (TransitionRequested "wi-1" (inr StateClosed)) resolved_system.

Lemma serial_executions_follow_the_lifecycle_witness :
  state_of "wi-1" closed_system = Some StateClosed /\
  exists wi', work_items (tables (seen (alone (TransitionRequested "wi-1" (inr StateResolved)) closed_system))) !! "wi-1" = Some wi' /\
    rtc follows StateResolved (wi_State wi').
Proof.
  split; [by vm_compute|].
  destruct (serial_executions_follow_the_lifecycle resolved_system
    (alone (TransitionRequested "wi-1" (inr StateResolved)) closed_system) "wi-1" (one_item StateResolved)) as (wi' & Hwi' & Hst & _).
  - apply rtc_l with closed_system; [|apply rtc_once].
    + exists (TransitionRequested "wi-1" (inr StateClosed)). apply alone_runs. by vm_compute.
    + exists (TransitionRequested "wi-1" (inr StateResolved)). apply alone_runs. by vm_compute.
  - reflexivity.
  - by exists wi'.
Defined.

Lemma IncrementSignalCount_bounds_witness :
  sees (IncrementSignalCount "wi-1") (fun r s' =>
    exists wi', work_items (tables (seen s')) !! "wi-1" = Some wi' /\ wi_SignalCount wi' <= 4) (one_item_system StateOpen).
Proof.
  eapply sees_mono; [|apply (IncrementSignalCount_bounds "wi-1" (one_item StateOpen)); reflexivity].
  intros r s' ((wi' & Hwi' & _ & Hn) & _). by exists wi'.
Defined.

(** ** A lost reply counts a signal twice *)

(** The database executes the first statement, but its reply is lost; the rest is served. *)
Definition lost_reply_system : @Sys FaultyWorld :=
  @mkSys FaultyWorld (outside (one_item_system StateOpen), [Unacked; Serve; Serve]) empty_mem.

Definition count_of (id : string) (s : @Sys FaultyWorld) : option Z :=
  wi_SignalCount <$> work_items (tables (@seen FaultyWorld s)) !! id.

(** One signal, and a signal count that grows by two: the retry of [IncrementSignalCount] executes
    an increment again that had taken effect, and then reports success. *)
Lemma lost_reply_counts_twice : exists s',
  @runs FaultyWorld _ (IncrementSignalCount "wi-1") lost_reply_system None s' /\
  count_of "wi-1" lost_reply_system = Some 1 /\ count_of "wi-1" s' = Some 3.
Proof.
  exists (run faulty_serve (IncrementSignalCount "wi-1") lost_reply_system).2.
  split; [|split; by vm_compute].
  apply (run_exec faulty_serve (@step FaultyWorld) faulty_serve_step).
  assert ((run faulty_serve (IncrementSignalCount "wi-1") lost_reply_system).1 = Some None) as <- by (by vm_compute).
  by destruct (run faulty_serve (IncrementSignalCount "wi-1") lost_reply_system).
Qed.
