(* ===== verification/Tracker.v ===== *)
(** The incident tracker that the backend implements, as an abstract machine, and the refinement:
    every run of the process, with all its races and failures, is a run of this machine. *)
From S2P Require Import Prelude Float64 GoTime Models Queue RateLimiter Tables Prog Services Retry.
From S2P Require Import Postgres RedisStore Mongo StatePattern Alerting Invariant StoreSafety Machine Escalator.
From S2P Require Import Debounce Ingestion Worker Health WorkItemsAPI MemWorld System Liveness Alone Knowledge Scenarios.
Local Open Scope string_scope.
Local Open Scope Z_scope.

(** ** The abstract machine *)

(** An incident as its users see it; [in_been] is the set of the states it has been in. *)
Record Incident := mkIncident {
  in_state : WorkItemState;
  in_severity : Severity;
  in_signals : Z;
  in_mttr : option float64;
  in_rca : option RCA;
  in_been : gset string;
}.

Abbreviation tracker := (gmap string Incident) (only parsing).

Definition opened (sev : Severity) : Incident := mkIncident StateOpen sev 1 None None {[ StateOpen ]}.

Definition moved_to (to : WorkItemState) (mttr : option float64) (i : Incident) : Incident :=
  mkIncident to (in_severity i) (in_signals i) mttr (in_rca i) ({[ to ]} ∪ in_been i).

Definition escalated_to (sev : Severity) (i : Incident) : Incident :=
  mkIncident (in_state i) sev (in_signals i) (in_mttr i) (in_rca i) (in_been i).

Definition signalled (i : Incident) : Incident :=
  mkIncident (in_state i) (in_severity i) (in_signals i + 1) (in_mttr i) (in_rca i) (in_been i).

Definition explained (r : RCA) (i : Incident) : Incident :=
  mkIncident (in_state i) (in_severity i) (in_signals i) (in_mttr i) (Some r) (in_been i).

(** An incident goes to a state when it has been in the one before it. (It need not be there
    still: [Transition] acts on the state it read.) *)
Definition may_go (to : WorkItemState) (i : Incident) : Prop := exists from, from ∈ in_been i /\ follows from to.

Inductive tracker_step (Tr : tracker) : tracker -> Prop :=
| trk_open id sev : Tr !! id = None -> severity_ok sev = true -> tracker_step Tr (<[id := opened sev]> Tr)
| trk_move id i to : Tr !! id = Some i -> may_go to i -> to <> StateClosed ->
    tracker_step Tr (<[id := moved_to to (in_mttr i) i]> Tr)
| trk_close id i r : Tr !! id = Some i -> may_go StateClosed i -> in_rca i = Some r -> complete_RCA r ->
    tracker_step Tr (<[id := moved_to StateClosed (Some (MTTRMinutes r)) i]> Tr)
| trk_signal id i : Tr !! id = Some i -> in_signals i < max_int4 -> tracker_step Tr (<[id := signalled i]> Tr)
| trk_escalate id i sev : Tr !! id = Some i -> severity_ok sev = true -> tracker_step Tr (<[id := escalated_to sev i]> Tr)
| trk_rca id i r : Tr !! id = Some i -> in_rca i = None -> rca_WorkItemID r = id -> complete_RCA r ->
    tracker_step Tr (<[id := explained (inserted_rca r) i]> Tr).

(** What the machine guarantees of an incident: it has been in its state; it was in each stage of
    the life cycle before the next one; and since it was CLOSED for the first time its RCA is
    there, complete, and its MTTR is that of the RCA. *)
Record incident_ok (i : Incident) : Prop := {
  ik_state : in_state i ∈ in_been i;
  ik_stages : forall from to, to ∈ in_been i -> follows from to -> from ∈ in_been i;
  ik_closed : StateClosed ∈ in_been i -> exists r, in_rca i = Some r /\ complete_RCA r /\ in_mttr i = Some (MTTRMinutes r);
}.

Definition tracker_ok (Tr : tracker) : Prop := map_Forall (fun _ => incident_ok) Tr.

Lemma follows_inj from from' to : follows from to -> follows from' to -> from = from'.
Proof. rewrite !follows_cases. naive_solver. Qed.

Lemma moved_ok to mttr i : incident_ok i -> may_go to i ->
  (StateClosed ∈ {[ to ]} ∪ in_been i -> exists r, in_rca i = Some r /\ complete_RCA r /\ mttr = Some (MTTRMinutes r)) ->
  incident_ok (moved_to to mttr i).
Proof.
  intros [Hs Hst Hc] (from & Hfrom & Hf) Hm. constructor; cbn; [set_solver| |done].
  intros from' to'. rewrite !elem_of_union, elem_of_singleton. intros [->|Hto] Hf'; right; [|by eapply Hst].
  by rewrite (follows_inj _ _ _ Hf' Hf).
Qed.

Lemma tracker_step_ok Tr Tr' : tracker_step Tr Tr' -> tracker_ok Tr -> tracker_ok Tr'.
Proof.
  intros Hs Hok. assert (Hget : forall id i, Tr !! id = Some i -> incident_ok i) by (intros id i; apply Hok).
  destruct Hs as [id sev Hi Hsev|id i to Hi Hgo Hne|id i r Hi Hgo Hr Hc|id i Hi Hn|id i sev Hi Hsev|id i r Hi Hr Hid Hc].
  all: apply map_Forall_insert_2; [|done]; try (pose proof (Hget _ _ Hi) as Hik).
  - constructor; cbn; [set_solver| |].
    + intros from to ->%elem_of_singleton. rewrite follows_cases. naive_solver.
    + intros H%elem_of_singleton. discriminate.
  - apply moved_ok; [done|done|]. intros [H%elem_of_singleton|H]%elem_of_union; [by destruct Hne|by apply Hik].
  - apply moved_ok; [done|done|]. intros _. by exists r.
  - by destruct Hik.
  - by destruct Hik.
  - destruct Hik as [H1 H2 H3]. constructor; cbn; [done|done|]. intros H. destruct (H3 H) as (r' & Hr' & _). congruence.
Qed.

(** ** What a run shows *)

(** The incident of a row: it has been where it was seen before, and where it is. *)
Definition incident (prev : option Incident) (wi : WorkItem) (r : option RCA) : Incident :=
  mkIncident (wi_State wi) (wi_Severity wi) (wi_SignalCount wi) (wi_MTTR wi) r
    ({[ wi_State wi ]} ∪ from_option in_been ∅ prev).

Definition observe (Tr : tracker) (T : Tables) : tracker :=
  map_imap (fun id wi => Some (incident (Tr !! id) wi (rcas T !! id))) (work_items T).

Lemma lookup_observe Tr T id :
  observe Tr T !! id = (fun wi => incident (Tr !! id) wi (rcas T !! id)) <$> work_items T !! id.
Proof. unfold observe. rewrite map_lookup_imap. by destruct (work_items T !! id). Qed.

(** An OPEN row that is observed for the first time. *)
Lemma observed_open wi r : wi_State wi = StateOpen -> incident_ok (incident None wi r).
Proof.
  intros Hopen. constructor; cbn; rewrite ?Hopen; [set_solver| |].
  - intros from to [->%elem_of_singleton|Hin%elem_of_empty]%elem_of_union; [|done]. rewrite follows_cases. naive_solver.
  - intros [Hin%elem_of_singleton|Hin%elem_of_empty]%elem_of_union; done.
Qed.

(** What was observed is what the tables show. *)
Definition shows (Tr : tracker) (T : Tables) : Prop := observe Tr T = Tr.

Lemma observe_shows Tr T : shows (observe Tr T) T.
Proof.
  apply map_eq. intros id. rewrite !lookup_observe. destruct (work_items T !! id) as [wi|]; [|done]. cbn.
  unfold incident. cbn. do 2 f_equal. set_solver.
Qed.

Lemma shows_lookup Tr T id : shows Tr T -> Tr !! id = (fun wi => incident (Tr !! id) wi (rcas T !! id)) <$> work_items T !! id.
Proof. intros Hs. rewrite <- lookup_observe. by rewrite Hs. Qed.

(** A statement that changes one row. *)
Lemma observe_insert Tr T T' id wi : shows Tr T ->
  work_items T' = <[id := wi]> (work_items T) -> rcas T' = rcas T ->
  observe Tr T' = <[id := incident (Tr !! id) wi (rcas T !! id)]> Tr.
Proof.
  intros Hs Hw Hr. apply map_eq. intros id'. rewrite lookup_observe, Hw, Hr.
  destruct (decide (id = id')) as [<-|Hne]; [by rewrite !lookup_insert_eq|].
  rewrite !lookup_insert_ne by done. symmetry. by apply shows_lookup.
Qed.

Lemma shows_agrees Tr T : shows Tr T -> forall id,
  match Tr !! id, work_items T !! id with
  | Some i, Some wi => in_state i = wi_State wi /\ in_severity i = wi_Severity wi /\ in_signals i = wi_SignalCount wi /\
      in_mttr i = wi_MTTR wi /\ in_rca i = rcas T !! id
  | None, None => True
  | _, _ => False
  end.
Proof. intros Hs id. rewrite (shows_lookup _ _ id Hs). by destruct (work_items T !! id). Qed.

Lemma shows_item Tr T id wi : shows Tr T -> work_items T !! id = Some wi ->
  exists i, Tr !! id = Some i /\ i = incident (Some i) wi (rcas T !! id).
Proof.
  intros Hs Hwi. pose proof (shows_lookup Tr T id Hs) as Hi. rewrite Hwi in Hi.
  destruct (Tr !! id) as [i|] eqn:Htr; [|done]. injection Hi as Hi. by exists i.
Qed.

(** ** What the statements do to the tracker *)

(** What a goroutine knows: states the incidents have been in, and stored RCAs. *)
Record knowledge := mkKnowledge {
  k_been : string -> WorkItemState -> Prop;
  k_rca : string -> RCA -> Prop;
}.

Definition less (k k' : knowledge) : Prop :=
  (forall id st, k_been k id st -> k_been k' id st) /\ (forall id r, k_rca k id r -> k_rca k' id r).

#[export] Instance less_preorder : PreOrder less.
Proof. split; [by intros k|]. intros k1 k2 k3 [H1 H2] [H3 H4]. split; by eauto. Qed.

Definition nothing_known : knowledge := mkKnowledge (fun _ _ => False) (fun _ _ => False).

(** The statements that a goroutine may issue. *)
Definition justified (k : knowledge) (s : Stmt) : Prop :=
  match s with
  | InsertWorkItem wi => wi_State wi = StateOpen /\ wi_SignalCount wi = 1
  | SetResolved id to _ | SetState id to _ => to <> StateClosed /\ exists from, k_been k id from /\ follows from to
  | SetClosed id to _ mttr => to = StateClosed /\ (exists from, k_been k id from /\ follows from to) /\
      exists r, k_rca k id r /\ complete_RCA r /\ mttr = Some (MTTRMinutes r)
  | InsertRCA r => complete_RCA r
  | _ => True
  end.

(** What the tracker knows. *)
Definition facts_of (Tr : tracker) : knowledge :=
  mkKnowledge (fun id st => exists i, Tr !! id = Some i /\ st ∈ in_been i)
              (fun id r => exists i, Tr !! id = Some i /\ in_rca i = Some r).

Lemma update_work_item_row id f T T' : update_work_item id f T = Some T' ->
  T' = T \/ exists wi, work_items T !! id = Some wi /\ work_item_ok (f wi) = true /\
    T' = mkTables (<[id := f wi]> (work_items T)) (rcas T) (timeseries T).
Proof.
  unfold update_work_item. destruct (work_items T !! id) as [wi|]; [|intros [= <-]; by left].
  destruct (work_item_ok (f wi)) eqn:Hok; [|done]. intros [= <-]. right. by exists wi.
Qed.

(** The incident and its row agree. *)
Record reflects (i : Incident) (wi : WorkItem) (r : option RCA) : Prop := {
  rf_state : in_state i = wi_State wi;
  rf_severity : in_severity i = wi_Severity wi;
  rf_signals : in_signals i = wi_SignalCount wi;
  rf_mttr : in_mttr i = wi_MTTR wi;
  rf_rca : in_rca i = r;
  rf_been : {[ wi_State wi ]} ∪ in_been i = in_been i;
}.

Lemma shows_reflects Tr T id wi : shows Tr T -> work_items T !! id = Some wi ->
  exists i, Tr !! id = Some i /\ reflects i wi (rcas T !! id).
Proof.
  intros Hs Hwi. pose proof (shows_lookup Tr T id Hs) as Hi. rewrite Hwi in Hi.
  destruct (Tr !! id) as [i|] eqn:Htr; [|done]. exists i. split; [done|]. cbn in Hi. injection Hi as Hi.
  unfold incident in Hi. cbn in Hi. destruct i. cbn in *. by injection Hi as -> -> -> -> -> Hb.
Qed.

(** An update of a row is the step that changes its incident, or nothing. *)
Lemma observe_update Tr T T' id f : shows Tr T -> update_work_item id f T = Some T' ->
  (forall wi i, Tr !! id = Some i -> reflects i wi (rcas T !! id) -> work_item_ok (f wi) = true ->
     tracker_step Tr (<[id := incident (Some i) (f wi) (rcas T !! id)]> Tr)) ->
  observe Tr T' = Tr \/ tracker_step Tr (observe Tr T').
Proof.
  intros Hs [->|(wi & Hwi & Hok & ->)]%update_work_item_row Hstep; [by left|right].
  destruct (shows_reflects Tr T id wi Hs Hwi) as (i & Hi & Hrf).
  rewrite (observe_insert Tr T _ id (f wi)) by done. rewrite Hi. by apply (Hstep wi).
Qed.

(** The three statements that move a work item. *)
Lemma observe_move Tr T T' id f to : shows Tr T -> update_work_item id f T = Some T' ->
  (forall wi, wi_State (f wi) = to /\ wi_Severity (f wi) = wi_Severity wi /\ wi_SignalCount (f wi) = wi_SignalCount wi) ->
  (exists from, k_been (facts_of Tr) id from /\ follows from to) ->
  (to <> StateClosed /\ forall wi, wi_MTTR (f wi) = wi_MTTR wi) \/
  (to = StateClosed /\ exists r, k_rca (facts_of Tr) id r /\ complete_RCA r /\ forall wi, wi_MTTR (f wi) = Some (MTTRMinutes r)) ->
  observe Tr T' = Tr \/ tracker_step Tr (observe Tr T').
Proof.
  intros Hs Hu Hf (from & (i0 & Hi0 & Hb) & Hgo) Hm. apply (observe_update _ _ _ _ _ Hs Hu). intros wi i Hi [] _.
  destruct (Hf wi) as (H1 & H2 & H3). assert (i0 = i) as -> by congruence.
  replace (incident (Some i) (f wi) (rcas T !! id)) with (moved_to to (wi_MTTR (f wi)) i)
    by (unfold incident, moved_to; cbn; congruence).
  assert (may_go to i) by (by exists from). destruct Hm as [[Hne Hm]|[-> (r & (i1 & Hi1 & Hr) & Hc & Hm)]]; rewrite Hm.
  - rewrite <- rf_mttr0. by apply trk_move.
  - assert (i1 = i) as -> by congruence. by apply trk_close.
Qed.

Lemma observe_statement Tr T s T' : tables_ok T -> shows Tr T -> justified (facts_of Tr) s ->
  exec_stmt s T = Some T' -> observe Tr T' = Tr \/ tracker_step Tr (observe Tr T').
Proof.
  intros Hok Hs Hj. destruct s as [wi|id to t|id to t mttr|id to t|id sev t|id t|r|bucket cid ctype sev]; cbn [exec_stmt justified] in *.
  - destruct (work_item_ok wi) eqn:Hrow; [|done]. case_bool_decide as Hnew; [|done]. intros [= <-]. right.
    assert (Hn : Tr !! wi_ID wi = None) by (by rewrite (shows_lookup Tr T _ Hs), Hnew).
    assert (Hr : rcas T !! wi_ID wi = None).
    { destruct (rcas T !! wi_ID wi) as [r|] eqn:Hr; [|done]. apply (tok_rca_fk _ Hok) in Hr as [? ?]; congruence. }
    rewrite (observe_insert Tr T _ (wi_ID wi) (inserted_work_item wi)) by done. rewrite Hn, Hr.
    destruct Hj as [Hst Hcnt]. replace (incident None (inserted_work_item wi) None) with (opened (wi_Severity wi)).
    + apply trk_open; [done|]. unfold work_item_ok in Hrow. rewrite !andb_true_iff in Hrow; apply Hrow.
    + unfold incident, opened. cbn. rewrite Hst, Hcnt. f_equal; set_solver.
  - intros Hu. destruct Hj as [Hne Hgo]. apply (observe_move _ _ _ _ _ to Hs Hu); [done|done|by left].
  - intros Hu. destruct Hj as (-> & Hgo & r & Hr & Hc & ->). apply (observe_move _ _ _ _ _ StateClosed Hs Hu); [done|done|].
    right. split; [done|]. by exists r.
  - intros Hu. destruct Hj as [Hne Hgo]. apply (observe_move _ _ _ _ _ to Hs Hu); [done|done|by left].
  - intros Hu. apply (observe_update _ _ _ _ _ Hs Hu). intros wi i Hi [] Hrow.
    replace (incident _ _ _) with (escalated_to sev i) by (unfold incident, escalated_to; cbn; congruence).
    apply trk_escalate; [done|]. unfold work_item_ok in Hrow. rewrite !andb_true_iff in Hrow; apply Hrow.
  - intros Hu. apply (observe_update _ _ _ _ _ Hs Hu). intros wi i Hi [] Hrow.
    replace (incident _ _ _) with (signalled i) by (unfold incident, signalled; cbn; congruence).
    apply trk_signal; [done|]. unfold work_item_ok in Hrow. rewrite !andb_true_iff in Hrow. destruct Hrow as [_ Hn%Z.leb_le].
    cbn in Hn. lia.
  - cbv zeta. set (r' := inserted_rca r) in *. destruct (_ && _) eqn:Hg; [|done]. intros [= <-]. right.
    rewrite !andb_true_iff, !bool_decide_eq_true in Hg. destruct Hg as [[[Hnone _] [wi Hwi]] _].
    destruct (shows_reflects Tr T _ wi Hs Hwi) as (i & Hi & []).
    replace (observe Tr _) with (<[rca_WorkItemID r' := explained r' i]> Tr).
    + apply trk_rca; [done| |done|done]. cbn in *. congruence.
    + apply map_eq. intros id. rewrite lookup_observe. cbn [work_items rcas]. destruct (decide (rca_WorkItemID r' = id)) as [<-|Hne].
      * rewrite !lookup_insert_eq, Hwi, Hi. cbn. unfold incident, explained. cbn. congruence.
      * rewrite !lookup_insert_ne by done. by apply shows_lookup.
  - intros Hex. left. transitivity (observe Tr T); [|done]. unfold observe.
    assert (work_items T' = work_items T /\ rcas T' = rcas T) as [-> ->] by (by repeat case_match; simplify_eq/=). done.
Qed.

(** ** What the goroutines know *)

Definition permits (k : knowledge) (B : Type) (e : eff B) : Prop := writes_only (justified k) e.

Definition learn_item (id : string) (r : row WorkItem) (k : knowledge) : knowledge :=
  match r with
  | RowOk wi => mkKnowledge (fun id' st => k_been k id' st \/ (id' = id /\ st = wi_State wi)) (k_rca k)
  | _ => k
  end.

Definition learn_rca (id : string) (r : row RCA) (k : knowledge) : knowledge :=
  match r with
  | RowOk rca => mkKnowledge (k_been k) (fun id' r' => k_rca k id' r' \/ (id' = id /\ r' = rca))
  | _ => k
  end.

Definition learn (B : Type) (e : eff B) : B -> knowledge -> knowledge :=
  match e with
  | Ext e =>
      match e with
      | PgSelectWorkItem id => learn_item id
      | PgSelectRCA id => learn_rca id
      | _ => fun _ k => k
      end
  | _ => fun _ k => k
  end.

Lemma justified_mono k k' s : less k k' -> justified k s -> justified k' s.
Proof. intros [Hb Hr]. destruct s; cbn; try done; naive_solver. Qed.

Lemma permits_mono k k' B (e : eff B) : less k k' -> permits k B e -> permits k' B e.
Proof. intros Hk. destruct e as [B e| | | |]; try done. destruct e; try done. by apply justified_mono. Qed.

Lemma learn_mono k k' B (e : eff B) b : less k k' -> less (learn B e b k) (learn B e b k').
Proof.
  intros Hk. destruct e as [B e| | | |]; try done. destruct e; try done; destruct b; try done;
    destruct Hk; split; cbn; naive_solver.
Qed.

Lemma learn_grows k B (e : eff B) b : less k (learn B e b k).
Proof.
  destruct e as [B e| | | |]; try done. destruct e; try done; destruct b; try done; split; cbn; naive_solver.
Qed.

Abbreviation aware := (informed permits learn).

Lemma aware_bind {A B} (p : io A) (q : A -> io B) k :
  aware k p -> (forall a k', less k k' -> aware k' (q a)) -> aware k (bind q p).
Proof. apply (informed_bind less permits learn learn_grows). Qed.

(** Programs that need no knowledge. *)
Abbreviation plain := (only True (@writes_only (justified nothing_known))).

Lemma plain_aware {A} (p : io A) k : plain p -> aware k p.
Proof.
  apply (only_informed less permits learn permits_mono learn_grows). intros B e.
  apply (permits_mono nothing_known). by split.
Qed.

Section Goroutines.
Context `{World} `{Formats}.

Lemma SubmitRCA_plain rca : plain (SubmitRCA rca).
Proof.
  unfold SubmitRCA. pose proof (Validate_complete rca) as Hv. destruct (Validate rca); [done|].
  crawl; by apply Hv.
Qed.

(** A new work item is OPEN and counts its signal. *)
Lemma new_incident_plain signal : plain (new_incident signal).
Proof. unfold new_incident, NewWorkItem, now, call, perform. cbn [bind]. repeat (split; [done|intro]). crawl. Qed.

Lemma new_incident_batch_plain signal : plain (new_incident_batch signal).
Proof. unfold new_incident_batch, NewWorkItem, now, call, perform. cbn [bind]. repeat (split; [done|intro]). crawl. Qed.

Lemma goroutine_plain a : (forall id parsed, a <> TransitionRequested id parsed) -> plain (goroutine a).
Proof.
  intros Hne. destruct a as [| |id parsed|id parsed user| | | | | | | | | | | |[wi| |items]]; cbn [goroutine job_prog]; unfold discard.
  all: try (by edestruct Hne). all: try (by apply only_bind; [apply only_Dispatch|]).
  all: crawl_with ltac:(first [apply new_incident_plain|apply new_incident_batch_plain|apply SubmitRCA_plain]).
Qed.

(** [Transition] knows that the work item has been in the state it leaves, and the RCA it closes
    with. *)
Lemma persist_aware id to mttr k : (exists from, k_been k id from /\ follows from to) ->
  (to = StateClosed -> exists r, k_rca k id r /\ complete_RCA r /\ mttr = Some (MTTRMinutes r)) ->
  aware k (persist_transition id to mttr).
Proof.
  intros Hgo Hc. apply (only_informed less permits learn permits_mono learn_grows True (@writes_only (justified k))); [done|].
  apply persist_writes. intros t. unfold update_stmt. case_bool_decide as Hr; [by split; [subst|]|].
  case_bool_decide as Hcl; [|by split]. split; [done|]. split; [done|by apply Hc].
Qed.

Lemma closing_mttr_aware {A} id to (q : error + option float64 -> io A) k :
  (forall k' err, aware k' (q (inl err))) ->
  (forall k' mttr, less k k' -> (to = StateClosed -> exists r, k_rca k' id r /\ complete_RCA r /\ mttr = Some (MTTRMinutes r)) ->
     aware k' (q (inr mttr))) ->
  aware k (r <-- closing_mttr id to;; q r).
Proof.
  intros Herr Hok. unfold closing_mttr. case_bool_decide as Hto; [|cbn; by apply Hok].
  unfold GetRCAByWorkItemID, call, perform. cbn [bind]. split; [done|]. intros [rca| |p err]; cbn [bind]; [|apply Herr..].
  pose proof (Validate_complete rca) as Hv. destruct (Validate rca); cbn [bind]; [apply Herr|]. apply Hok; [apply learn_grows|].
  intros _. exists rca. split; [by right|]. split; [by apply Hv|done].
Qed.

Lemma Transition_aware id to k : aware k (Transition id to).
Proof.
  unfold Transition, GetWorkItem, call, perform. cbn [bind]. split; [done|]. intros [wi| |p err]; cbn [bind]; [|done..].
  unfold stateFor. destruct (stateRegistry !! wi_State wi) as [impl|] eqn:Hreg; cbn [bind]; [|done].
  pose proof (CanTransitionTo_follows _ _ to Hreg) as Hcan. destruct (CanTransitionTo impl to); cbn [negb]; [|done].
  apply closing_mttr_aware; [done|]. intros k' mttr [Hb _]. apply persist_aware. exists (wi_State wi).
  split; [apply Hb; by right|by apply Hcan].
Qed.

Lemma goroutine_aware a k : aware k (goroutine a).
Proof.
  destruct a; try (by apply plain_aware, goroutine_plain). cbn [goroutine]. unfold discard, handle_TransitionWorkItem.
  apply aware_bind; [|done]. case_bool_decide; [done|]. destruct parsed as [err|to]; [done|]. case_bool_decide; [done|].
  apply aware_bind; [apply Transition_aware|]. intros [wi [err|]] k' _; [by apply plain_aware; crawl|done].
Qed.

(** ** The refinement *)

(** The tracker that a run shows. *)
Fixpoint tracked (sigma : nat -> list (io unit) * Sys) (n : nat) : tracker :=
  match n with
  | O => observe ∅ (tables (seen (sigma O).2))
  | S n' => observe (tracked sigma n') (tables (seen (sigma n).2))
  end.

Lemma tracked_shows sigma n : shows (tracked sigma n) (tables (seen (sigma n).2)).
Proof. destruct n; apply observe_shows. Qed.

(** What the tracker knows stays true. *)
Lemma facts_grow Tr T T' : shows Tr T -> tables_grow T T' -> less (facts_of Tr) (facts_of (observe Tr T')).
Proof.
  intros Hs [Hi Hr]. split; intros id x (i & Htr & Hx); pose proof (shows_lookup Tr T id Hs) as Hl; rewrite Htr in Hl;
    symmetry in Hl; apply fmap_Some in Hl as (wi & Hwi & Heq); destruct (Hi id wi Hwi) as (wi' & Hwi' & _);
    eexists; rewrite lookup_observe, Hwi', Htr; (split; [done|]); cbn; [set_solver|].
  apply Hr. rewrite Heq in Hx. done.
Qed.

Lemma facts_learned Tr B (e : eff B) s b s' : shows Tr (tables (seen s)) -> tables_ok (tables (seen s)) -> step B e s b s' ->
  less (learn B e b (facts_of Tr)) (facts_of Tr).
Proof.
  intros Hs Hok Hst. destruct e as [B e| | | |]; try done. destruct Hst as [Ha _]. apply answer_allowed in Ha.
  destruct e as [| | |id|id| | | | | | | | | | | | | | | | | | | |]; try done; destruct b as [x| |p err]; try done; destruct Ha as [_ Hx].
  - destruct (shows_reflects Tr _ _ _ Hs Hx) as (i & Hi & []). split; [|done]. intros id' st [Hk|[-> ->]]; [done|].
    exists i. split; [done|]. set_solver.
  - destruct (tok_rca_fk _ Hok _ _ Hx) as [wi Hwi]. destruct (shows_reflects Tr _ _ _ Hs Hwi) as (i & Hi & []).
    split; [done|]. intros id' r [Hk|[-> ->]]; [done|]. exists i. split; [done|]. by etrans; [exact rf_rca0|].
Qed.

(** What a permitted effect does to the tables. *)
Lemma permitted_tables k s s' : permitted permits step k s s' ->
  tables_grow (tables (seen s)) (tables (seen s')) /\
  (tables (seen s') = tables (seen s) \/
   exists stmt, justified k stmt /\ exec_stmt stmt (tables (seen s)) = Some (tables (seen s'))).
Proof.
  intros [->|(B & e & b & Hp & Hs)]; [split; [done|by left]|].
  destruct (step_tables _ e _ _ _ Hp Hs) as [Heq|(stmt & Hj & Hex)].
  - rewrite Heq. split; [done|by left].
  - split; [by eapply exec_stmt_grow|right; by exists stmt].
Qed.

(** The simulation: while the goroutines only know what the tracker shows, the next thing that one of
    them does is a step of the tracker, or invisible, and they only know what it shows then. *)
Lemma pool_step_simulated Tr c c' : Inv c.2 -> shows Tr (tables (seen c.2)) -> Forall (aware (facts_of Tr)) c.1 ->
  pool_step step spawned entry c c' ->
  let Tr' := observe Tr (tables (seen c'.2)) in
  (Tr' = Tr \/ tracker_step Tr Tr') /\ less (facts_of Tr) (facts_of Tr') /\ Forall (aware (facts_of Tr')) c'.1.
Proof.
  intros Hi Hsh Haw Hs Tr'.
  destruct (pool_step_informed less permits learn permits_mono learn_mono learn_grows step spawned entry
    ltac:(intros p k [a ->]; apply goroutine_aware)
    ltac:(intros k B e _; eapply Forall_impl; [apply spawned_entry|]; intros p [a ->]; apply goroutine_aware)
    (facts_of Tr) (facts_of Tr') c c' Hs) as [Hp Haw']; [| |done|].
  - intros B e b Hp He. etrans; [eapply facts_learned; [exact Hsh|by apply inv_tables|exact He]|]. apply (facts_grow _ _ _ Hsh).
    apply (permitted_tables (facts_of Tr)). right. by exists B, e, b.
  - intros Heq. apply (facts_grow _ _ _ Hsh). by rewrite Heq.
  - destruct (permitted_tables _ _ _ Hp) as [Hg Hex]. split; [|split; [by apply (facts_grow _ _ _ Hsh)|done]].
    destruct Hex as [Heq|(stmt & Hj & Hex)]; [left; unfold Tr'; by rewrite Heq|]. by eapply observe_statement; [apply inv_tables| | |].
Qed.

Section Run.
Context (sigma : nat -> list (io unit) * Sys).
Context (Hinv : Inv (sigma 0%nat).2) (Hstart : Forall entry (sigma 0%nat).1) (Hrun : is_run step spawned entry sigma).

Lemma run_inv n : Inv (sigma n).2.
Proof.
  assert (Hreach : system_reaches (sigma 0%nat).2 (sigma n).1 (sigma n).2).
  { apply run_reachable; [done|]. by apply arrive_reachable. }
  destruct (system_evolves _ _ _ Hinv Hreach) as [He _]. by apply (ev_inv _ _ He).
Qed.

Lemma run_simulated n : Forall (aware (facts_of (tracked sigma n))) (sigma n).1 ->
  (tracked sigma (S n) = tracked sigma n \/ tracker_step (tracked sigma n) (tracked sigma (S n))) /\
  Forall (aware (facts_of (tracked sigma (S n)))) (sigma (S n)).1.
Proof.
  intros Haw. cbn [tracked]. destruct (Hrun n) as [->|Hs]; [rewrite (tracked_shows sigma n); by split; [left|]|].
  by destruct (pool_step_simulated _ _ _ (run_inv n) (tracked_shows sigma n) Haw Hs) as (Ht & _ & Haw').
Qed.

Lemma tracked_step n : tracked sigma (S n) = tracked sigma n \/ tracker_step (tracked sigma n) (tracked sigma (S n)).
Proof.
  apply run_simulated. induction n as [|n IH]; [|by apply run_simulated].
  eapply Forall_impl; [exact Hstart|]. intros p [a ->]. apply goroutine_aware.
Qed.
End Run.

(** C3. The process implements the incident tracker: in every run, in any interleaving of the
    goroutines and whatever the services answer, each moment to the next is one step of the
    abstract machine [tracker_step] or changes nothing of what its users see. The tracker that
    is shown at each moment has exactly the work items of the tables, with their state,
    severity, signal count, MTTR and RCA. *)
Theorem run_refines_tracker sigma : Inv (sigma 0%nat).2 -> Forall entry (sigma 0%nat).1 -> is_run step spawned entry sigma ->
  forall n,
    (tracked sigma (S n) = tracked sigma n \/ tracker_step (tracked sigma n) (tracked sigma (S n))) /\
    forall id, match tracked sigma n !! id, work_items (tables (seen (sigma n).2)) !! id with
      | Some i, Some wi => in_state i = wi_State wi /\ in_severity i = wi_Severity wi /\ in_signals i = wi_SignalCount wi /\
          in_mttr i = wi_MTTR wi /\ in_rca i = rcas (tables (seen (sigma n).2)) !! id
      | None, None => True
      | _, _ => False
      end.
Proof.
  intros Hinv Hstart Hrun n. split; [by apply tracked_step|]. apply shows_agrees, tracked_shows.
Qed.

(** The states that an incident has been in are those that the run went through. *)
Lemma tracked_been sigma n id i st : tracked sigma n !! id = Some i -> st ∈ in_been i ->
  exists m wi, (m <= n)%nat /\ work_items (tables (seen (sigma m).2)) !! id = Some wi /\ wi_State wi = st.
Proof.
  revert i. induction n as [|n IH]; intros i; cbn [tracked]; rewrite lookup_observe;
    (destruct (work_items _ !! id) as [wi|] eqn:Hwi; [|done]); intros [= <-]; cbn; rewrite elem_of_union, elem_of_singleton.
  - rewrite lookup_empty. cbn. intros [->|Hin%elem_of_empty]; [|done]. by exists O, wi.
  - intros [->|Hin]; [by exists (S n), wi|]. destruct (tracked sigma n !! id) as [i|] eqn:Hi; [|by apply elem_of_empty in Hin].
    destruct (IH i eq_refl Hin) as (m & wi' & Hm & Hwi'). exists m, wi'. split; [lia|done].
Qed.

Lemma tracked_ok sigma n : Inv (sigma 0%nat).2 -> Forall entry (sigma 0%nat).1 -> is_run step spawned entry sigma ->
  map_Forall (fun _ wi => wi_State wi = StateOpen) (work_items (tables (seen (sigma 0%nat).2))) -> tracker_ok (tracked sigma n).
Proof.
  intros Hinv Hstart Hrun Hopen. induction n as [|n IH].
  - intros id i. cbn [tracked]. rewrite lookup_observe, lookup_empty. destruct (work_items _ !! id) as [wi|] eqn:Hwi; [|done].
    intros [= <-]. by apply observed_open, (Hopen id).
  - destruct (tracked_step sigma Hinv Hstart Hrun n) as [->|Hs]; [done|by eapply tracker_step_ok].
Qed.

(** No stage of the life cycle is skipped, in any run: when all work items are OPEN at first
    (or there is none), a work item that is in a later state was in the state before it at some
    earlier moment of the run, in every interleaving and whatever the services answer. *)
Theorem no_stage_is_skipped sigma n id wi st : Inv (sigma 0%nat).2 -> Forall entry (sigma 0%nat).1 -> is_run step spawned entry sigma ->
  map_Forall (fun _ wi => wi_State wi = StateOpen) (work_items (tables (seen (sigma 0%nat).2))) ->
  work_items (tables (seen (sigma n).2)) !! id = Some wi -> follows st (wi_State wi) ->
  exists m wi', (m < n)%nat /\ work_items (tables (seen (sigma m).2)) !! id = Some wi' /\ wi_State wi' = st.
Proof.
  intros Hinv Hstart Hrun Hopen Hwi Hf. pose proof (tracked_ok sigma n Hinv Hstart Hrun Hopen) as Hok.
  destruct (shows_reflects _ _ _ _ (tracked_shows sigma n) Hwi) as (i & Hi & []). destruct (Hok id i Hi) as [Hs Hst _].
  rewrite rf_state0 in Hs. destruct (tracked_been sigma n id i st Hi (Hst _ _ Hs Hf)) as (m & wi' & Hm & Hwi' & Heq).
  exists m, wi'. split; [|done]. destruct (decide (m = n)) as [->|]; [|lia]. exfalso.
  assert (wi' = wi) as -> by congruence. rewrite Heq in Hf. by apply follows_cases in Hf as [[-> ?]|[[-> ?]|[-> ?]]].
Qed.
End Goroutines.

(** ** A run *)

#[local] Existing Instance MemWorld.
#[local] Existing Instance plain_formats.

(** An OPEN incident is acknowledged, then resolved. *)
Definition handled : list Arrival :=
  [TransitionRequested "wi-1" (inr StateInvestigating); TransitionRequested "wi-1" (inr StateResolved)].
Definition handled_sched : list nat := (repeat 0 10 ++ repeat 1 10)%nat%list.
Definition handled_run : nat -> list (io unit) * Sys := play_run handled handled_sched (one_item_system StateOpen).

Lemma handled_run_starts : Forall entry (handled_run 0%nat).1.
Proof. apply (arrivals_enter handled). Qed.

Lemma one_item_open : map_Forall (fun _ wi => wi_State wi = StateOpen) (work_items (tables (seen (handled_run 0%nat).2))).
Proof. intros id wi [-> ->]%one_item_lookup. done. Qed.

Lemma run_refines_tracker_witness :
  tracked handled_run 4 = tracked handled_run 3 \/ tracker_step (tracked handled_run 3) (tracked handled_run 4).
Proof.
  exact (proj1 (run_refines_tracker handled_run (one_item_inv StateOpen eq_refl ltac:(done)) handled_run_starts
    (play_run_is_run entry handled handled_sched (one_item_system StateOpen)) 3%nat)).
Defined.

Lemma no_stage_is_skipped_witness :
  state_of "wi-1" (handled_run 20%nat).2 = Some StateResolved /\
  exists m wi', (m < 20)%nat /\ work_items (tables (seen (handled_run m).2)) !! "wi-1" = Some wi' /\ wi_State wi' = StateInvestigating.
Proof.
  split; [by vm_compute|]. destruct (work_items (tables (seen (handled_run 20%nat).2)) !! "wi-1") as [wi|] eqn:Hwi.
  2: { vm_compute in Hwi. discriminate. }
  apply (no_stage_is_skipped handled_run 20 "wi-1" wi StateInvestigating (one_item_inv StateOpen eq_refl ltac:(done)) handled_run_starts
    (play_run_is_run entry handled handled_sched (one_item_system StateOpen)) one_item_open Hwi).
  vm_compute in Hwi. injection Hwi as <-. exists 1%nat. by split.
Defined.
