(* ===== verification/Severity.v ===== *)
(** The escalator among the other goroutines: as long as one escalator runs, no incident ever
    becomes less urgent. *)
From S2P Require Import Prelude Float64 GoTime Models Queue RateLimiter Tables Prog Services Loops Retry.
From S2P Require Import Postgres RedisStore Mongo StatePattern Alerting Invariant StoreSafety Machine Escalator.
From S2P Require Import Debounce Ingestion Worker Health WorkItemsAPI MemWorld System Liveness Alone Scenarios.
Local Open Scope string_scope.
Local Open Scope Z_scope.

(** ** Changes of severities *)

Definition no_severity (stmt : Stmt) : Prop := match stmt with SetSeverity _ _ _ => False | _ => True end.

(** The schema is kept, every work item is still there, and its severities compare by [C]. *)
Definition severities (C : Severity -> Severity -> Prop) (T T' : Tables) : Prop :=
  (tables_ok T -> tables_ok T') /\
  forall id wi, work_items T !! id = Some wi -> exists wi', work_items T' !! id = Some wi' /\ C (wi_Severity wi) (wi_Severity wi').

#[export] Instance severities_preorder C : PreOrder C -> PreOrder (severities C).
Proof.
  intros HC. split.
  - intros T. split; [done|]. intros id wi Hwi. by exists wi.
  - intros T1 T2 T3 [H1 H2] [H3 H4]. split; [by auto|]. intros id wi Hwi. destruct (H2 id wi Hwi) as (wi2 & Hwi2 & Hc).
    destruct (H4 id wi2 Hwi2) as (wi3 & Hwi3 & Hc'). exists wi3. split; [done|by etrans].
Qed.

(** At least as urgent. *)
Definition urgent (a b : Severity) : Prop := severity_rank b <= severity_rank a.

#[export] Instance urgent_preorder : PreOrder urgent.
Proof. unfold urgent. split; [by intros a|intros a b c; lia]. Qed.

Lemma severities_update C id f T T' : Reflexive C -> (forall wi, work_items T !! id = Some wi -> C (wi_Severity wi) (wi_Severity (f wi))) ->
  update_work_item id f T = Some T' ->
  forall id' wi, work_items T !! id' = Some wi -> exists wi', work_items T' !! id' = Some wi' /\ C (wi_Severity wi) (wi_Severity wi').
Proof.
  intros HC Hf. unfold update_work_item. destruct (work_items T !! id) as [wi0|] eqn:Hwi0; [|intros [= <-]; by eauto].
  destruct (work_item_ok (f wi0)); [|done]. intros [= <-] id' wi Hwi. cbn. destruct (decide (id = id')) as [<-|Hne].
  - rewrite lookup_insert_eq. exists (f wi0). split; [done|]. assert (wi = wi0) as -> by congruence. by apply Hf.
  - rewrite lookup_insert_ne by done. by exists wi.
Qed.

Lemma exec_same_severity stmt T T' : no_severity stmt -> exec_stmt stmt T = Some T' -> severities eq T T'.
Proof.
  intros Hn Hex. split; [intros Hok; by eapply exec_stmt_ok|].
  destruct stmt; cbn in Hn, Hex; try done; try (eapply severities_update; [by intros ?| |exact Hex]; done).
  - destruct (_ && _) eqn:Hg; [|done]. injection Hex as <-. apply andb_true_iff in Hg as [_ Hnew%bool_decide_eq_true].
    intros id wi' Hwi'. exists wi'. cbn. by rewrite lookup_insert_ne by congruence.
  - destruct (_ && _); [|done]. injection Hex as <-. intros id wi Hwi. by exists wi.
  - repeat case_match; simplify_eq/=; intros id wi Hwi; by exists wi.
Qed.

Section Severity.
Context `{World} `{Formats}.

Definition Same (s s' : Sys) : Prop := severities eq (tables (seen s)) (tables (seen s')).
Definition Raised (s s' : Sys) : Prop := severities urgent (tables (seen s)) (tables (seen s')).

#[local] Instance Same_preorder : PreOrder Same.
Proof.
  split; [by intros s; unfold Same|]. intros s1 s2 s3. unfold Same. apply transitivity.
Qed.

(** Nobody but the escalator sets a severity. *)
Lemma goroutine_no_severity a : (forall rounds, a <> EscalatorStarted rounds) -> only True (@writes_only no_severity) (goroutine a).
Proof.
  intros Hne. destruct a as [| | | | | | | | | |rounds| | | | |[wi| |items]]; cbn [goroutine job_prog]; unfold discard.
  all: try (by edestruct Hne). all: try (by apply only_bind; [apply only_Dispatch|]).
  all: crawl_with ltac:(apply (persist_writes no_severity); intros ?; unfold update_stmt; repeat case_bool_decide; done).
Qed.

Lemma no_severity_step p q s s' : only True (@writes_only no_severity) p -> performs step p s q s' -> Same s s'.
Proof.
  destruct p as [a|msg|B e k]; [done..|]. intros [He _] (b & _ & Hs). unfold Same.
  destruct (step_tables _ e s b s' He Hs) as [->|(stmt & Hst & Hex)]; [done|by eapply exec_same_severity].
Qed.

(** ** The escalator *)

(** The list that a check works on: rows of the table, whose severities, when the check took them,
    the table still has, or at least as urgent as [low] says. *)
Record listed (low : WorkItem -> Severity) (items : list WorkItem) (s : Sys) : Prop := {
  ls_ok : tables_ok (tables (seen s));
  ls_items : forall wi, wi ∈ items -> exists cur, work_items (tables (seen s)) !! wi_ID wi = Some cur /\
    urgent (wi_Severity cur) (low wi);
}.

(** The items of a list are different rows. *)
Definition distinct (items : list WorkItem) : Prop :=
  forall wi wi', wi ∈ items -> wi' ∈ items -> wi_ID wi = wi_ID wi' -> wi = wi'.

Lemma listed_same low items s1 s2 : listed low items s1 -> Same s1 s2 -> listed low items s2.
Proof.
  intros [Hok Hall] [Hok' Hsame]. constructor; [by apply Hok'|]. intros wi Hwi. destruct (Hall wi Hwi) as (cur & Hcur & Hu).
  destruct (Hsame _ _ Hcur) as (cur' & Hcur' & Heq). exists cur'. split; [done|]. by rewrite <- Heq.
Qed.

Definition target (t : Time) (wi : WorkItem) : Severity := computeEscalation (wi_Severity wi) (Sub t (wi_CreatedAt wi)).

(** An effect of the check: it keeps what the check relies on, and no severity becomes less urgent. *)
Definition raises (J : Sys -> Prop) (B : Type) (e : eff B) : Prop :=
  forall s b s', J s -> step B e s b s' -> Raised s s' /\ J s'.

Lemma reads_raise (J : Sys -> Prop) B (e : eff B) : (forall s1 s2, J s1 -> Same s1 s2 -> J s2) -> writes_only (fun _ => False) e -> raises J B e.
Proof.
  intros HJ He s b s' Hj Hs. destruct (step_tables _ e s b s' He Hs) as [HT|(stmt & [] & _)].
  unfold Raised. rewrite HT. split; [done|]. apply (HJ s); [done|]. unfold Same. by rewrite HT.
Qed.

Lemma escalation_raises t items wi now' : wi ∈ items -> distinct items ->
  raises (listed (target t) items) (option error) (Ext (PgExec (SetSeverity (wi_ID wi) (target t wi) now'))).
Proof.
  intros Hwi Hd s r s' [Hok Hall] Hs.
  destruct (step_tables (eq (SetSeverity (wi_ID wi) (target t wi) now')) (Ext (PgExec _)) s r s' eq_refl Hs) as [HT|(stmt & <- & Hex)].
  { unfold Raised. rewrite HT. split; [done|]. by constructor; rewrite HT. }
  assert (Hok' : tables_ok (tables (seen s'))) by (by eapply exec_stmt_ok). destruct (Hall wi Hwi) as (cur & Hcur & Hu). split.
  - split; [done|]. eapply severities_update; [by intros ?| |exact Hex]. intros wi0 Hwi0. cbn. assert (wi0 = cur) as -> by congruence. done.
  - constructor; [done|]. intros wi' Hwi'. destruct (Hall wi' Hwi') as (cur' & Hcur' & Hu').
    cbn in Hex. unfold update_work_item in Hex. rewrite Hcur in Hex. destruct (work_item_ok _); [|done]. injection Hex as <-. cbn.
    destruct (decide (wi_ID wi = wi_ID wi')) as [Heq|Hne]; [|exists cur'; by rewrite lookup_insert_ne].
    rewrite Heq, lookup_insert_eq. eexists. split; [done|]. cbn. by rewrite (Hd wi wi' Hwi Hwi' Heq).
Qed.

Lemma check_raises t items : distinct items -> forall l n, l ⊆ items ->
  only False (raises (listed (target t) items)) (foldP (escalate_item t) l n).
Proof.
  intros Hd l. induction l as [|wi l IH]; intros n Hl; cbn [foldP]; [done|].
  assert (Hread : forall B (e : eff B), writes_only (fun _ => False) e -> raises (listed (target t) items) B e)
    by (intros B e; apply reads_raise, listed_same).
  apply only_bind; [|intros n'; apply IH; set_solver].
  unfold escalate_item. case_bool_decide; [done|]. cbv zeta. case_bool_decide; [done|]. unfold UpdateWorkItemSeverity.
  apply only_bind; [|intros [err|]; crawl; apply Hread; done]. apply only_withRetry; [intros d; by apply Hread|].
  split; [by apply Hread|]. intros t'. split; [|done]. apply escalation_raises; [set_solver|done].
Qed.

Abbreviation tolerates := (rg step Same Raised).

Lemma tables_same s1 s2 : tables (seen s2) = tables (seen s1) -> Raised s1 s2 /\ Same s1 s2.
Proof. intros HT. unfold Raised, Same. by rewrite HT. Qed.

(** What the query answers. *)
Lemma list_answer_listed active all s : tables_ok (tables (seen s)) -> list_answer active (tables (seen s)) all ->
  listed wi_Severity all s /\ distinct all /\ forall wi, wi ∈ all -> severity_ok (wi_Severity wi) = true.
Proof.
  intros Hok [Hperm _]. assert (Hin : forall wi, wi ∈ all -> work_items (tables (seen s)) !! wi_ID wi = Some wi).
  { intros wi Hwi. rewrite Hperm in Hwi. apply list_elem_of_filter in Hwi as [_ ([id w] & -> & Hwi)%list_elem_of_fmap].
    apply elem_of_map_to_list in Hwi. cbn. by rewrite (tok_id _ Hok _ _ Hwi). }
  split; [|split].
  - constructor; [done|]. intros wi Hwi. exists wi. split; [by apply Hin|reflexivity].
  - intros wi wi' Hwi%Hin Hwi'%Hin Heq. congruence.
  - intros wi Hwi%Hin%(tok_row _ Hok). unfold work_item_ok in Hwi. rewrite !andb_true_iff in Hwi. apply Hwi.
Qed.

(** The policy only raises. *)
Lemma listed_target t items s : (forall wi, wi ∈ items -> severity_ok (wi_Severity wi) = true) ->
  listed wi_Severity items s -> listed (target t) items s.
Proof.
  intros Hsev [Hok Hall]. constructor; [done|]. intros wi Hwi. destruct (Hall wi Hwi) as (cur & Hcur & Hu). exists cur. split; [done|].
  etrans; [exact Hu|]. unfold urgent, target.
  destruct (computeEscalation_spec (wi_Severity wi) (Sub t (wi_CreatedAt wi)) (Hsev wi Hwi)) as (_ & Hr & _). lia.
Qed.

Lemma runEscalationCheck_raises s : tables_ok (tables (seen s)) ->
  tolerates runEscalationCheck (fun _ s' => tables_ok (tables (seen s'))) s.
Proof.
  intros Hok. unfold runEscalationCheck, ListActiveWorkItems, list_items. cbn [bind call perform rg]. intros s1 HR1 b s2 [Ha _].
  apply answer_allowed in Ha as [Hv Hans]. change (seen s2 = seen s1) in Hv.
  assert (Hok1 : tables_ok (tables (seen s1))) by (by apply HR1). destruct (tables_same s1 s2) as [Hr2 _]; [by rewrite Hv|].
  split; [done|]. assert (Hstop : forall n s3, tables_ok (tables (seen s3)) -> tolerates (Ret n : io Z) (fun _ s' => tables_ok (tables (seen s'))) s3)
    by (intros n s3 Hok3 s4 HR4; by apply HR4).
  assert (Hok2 : tables_ok (tables (seen s2))) by (by rewrite Hv).
  destruct b as [err|rs]; [by apply Hstop|]. destruct (scan_rows (rs_rows rs)) as [items [err|]] eqn:Hscan; [by apply Hstop|].
  destruct (rs_err rs) as [err|] eqn:Herr; [by apply Hstop|]. destruct Hans as (all & Hans & Hrows & Hlen).
  pose proof (rows_complete _ items all (scan_rows_ok _ _ Hscan) Hrows (Hlen eq_refl)) as ->.
  change (view (outside s1)) with (seen s1) in Hans. rewrite <- Hv in Hans.
  destruct (list_answer_listed _ _ _ Hok2 Hans) as (Hl & Hd & Hsev).
  cbn [bind now call perform rg]. intros s3 HR3 t s4 [Ha4 _]. apply answer_allowed in Ha4 as [_ Hv4].
  destruct (tables_same s3 s4) as [Hr4 HS4]; [unfold seen; by rewrite Hv4|]. split; [done|].
  eapply rg_mono; [|apply (only_rg step Same Raised (listed (target t) all))].
  - by intros n s5 [].
  - apply listed_same.
  - apply (check_raises t all Hd all 0). done.
  - apply listed_target; [done|]. eapply listed_same; [|exact HS4]. by eapply listed_same.
Qed.

Lemma Escalator_Start_raises rounds s : tables_ok (tables (seen s)) -> tolerates (Escalator_Start rounds) (fun _ _ => True) s.
Proof.
  unfold Escalator_Start, ticker_loop. generalize 0%nat as i. intros i. revert i s.
  induction rounds as [|n IH]; intros i s Hok; cbn [ticker_loop_from]; [done|]. cbn [bind call perform rg].
  intros s1 HR1 stop s2 [Ha _]. apply answer_allowed in Ha as (t & _ & Hv).
  destruct (tables_same s1 s2) as [Hr HS]; [unfold seen; by rewrite Hv|]. split; [done|]. destruct stop; [done|].
  apply rg_bind; [apply _|]. unfold escalator_tick. apply rg_bind; [apply _|].
  eapply rg_mono; [|apply runEscalationCheck_raises; by apply HS, HR1]. intros k s3 Hok3 s4 HR4. apply IH. by apply HR4.
Qed.

(** ** The running system with one escalator *)

(** Anything may arrive but a second escalator. *)
Definition other_entry (p : io unit) : Prop := exists a, (forall rounds, a <> EscalatorStarted rounds) /\ p = goroutine a.

Lemma spawned_other B (e : eff B) : Forall other_entry (spawned B e).
Proof. destruct e; repeat constructor. exists (JobStarted j). by split. Qed.

(** C8. The severity of an incident never becomes less urgent: in every run with one escalator
    (as [main] starts it), in any interleaving with any other goroutines and whatever the services
    answer (so also when its writes are retried, fail, or take effect without a reply), each work
    item is at any later moment at least as urgent as it was. *)
Theorem severities_only_rise sigma before rounds others n m id wi :
  tables_ok (tables (seen (sigma 0%nat).2)) -> is_run step spawned other_entry sigma ->
  (sigma 0%nat).1 = (before ++ Escalator_Start rounds :: others)%list -> Forall other_entry (before ++ others)%list ->
  (n <= m)%nat -> work_items (tables (seen (sigma n).2)) !! id = Some wi ->
  exists wi', work_items (tables (seen (sigma m).2)) !! id = Some wi' /\ severity_rank (wi_Severity wi') <= severity_rank (wi_Severity wi).
Proof.
  intros Hok Hrun Hstart Hothers Hnm Hwi. set (K := only True (@writes_only no_severity) : io unit -> Prop).
  assert (HK : forall p, other_entry p -> K p) by (intros p (a & Ha & ->); by apply goroutine_no_severity).
  assert (Hd0 : distinguished step Same Raised K (length before) (sigma 0%nat)).
  { unfold distinguished, thread. rewrite Hstart. split.
    - exists (Escalator_Start rounds). split; [by apply list_lookup_middle|by apply Escalator_Start_raises].
    - intros j p Hj Hp. apply HK. eapply (proj1 (Forall_forall other_entry _) Hothers).
      apply lookup_app_Some in Hp as [Hp|[Hle Hp]]; apply elem_of_app; [left; by eapply list_elem_of_lookup_2|right].
      apply lookup_cons_Some in Hp as [[Hp _]|[_ Hp]]; [lia|by eapply list_elem_of_lookup_2]. }
  assert (Hstep : forall k, Raised (sigma k).2 (sigma (S k)).2).
  { intros k. destruct (run_distinguished step spawned other_entry Same Raised K HK) with (i := length before) (sigma := sigma) (n := k) as [_ [Hs|Hs]];
      try done; [|apply spawned_other| |].
    - intros p q Hp Hn. destruct p as [a|msg|B e f]; [done..|]. destruct Hn as [b ->]. by apply Hp.
    - intros p q s s'. apply no_severity_step.
    - destruct Hs as [Ht Hs]. split; [done|]. intros id' wi0 Hwi0. destruct (Hs id' wi0 Hwi0) as (wi1 & Hwi1 & Heq).
      exists wi1. split; [done|]. by rewrite Heq. }
  assert (Hall : Raised (sigma n).2 (sigma m).2) by (induction Hnm as [|m Hnm IH]; [unfold Raised; reflexivity|unfold Raised; by etrans; [apply IH|apply Hstep]]).
  by apply Hall.
Qed.
End Severity.

(** ** A run *)

#[local] Existing Instance MemWorld.
#[local] Existing Instance plain_formats.

(** A P2 incident that is being investigated for 40 minutes. *)
Definition aged_item : WorkItem :=
  mkWorkItem "wi-1" "cache-1" ComponentCache "Incident: CACHE failure on cache-1" SeverityP2 StateInvestigating 1 ""
    (start_time - 40 * Minute) start_time None None None.

Definition aged_system : Sys :=
  mkSys (mkView (mkTables {[ "wi-1" := aged_item ]} ∅ ∅) ∅ ∅ start_time {[ "wi-1" ]} : world) empty_mem.

Lemma aged_tables_ok : tables_ok (tables (seen aged_system)).
Proof.
  constructor; cbn; try (intros * Hr; by rewrite lookup_empty in Hr).
  - intros id wi Hw. apply (lookup_singleton_Some (M := gmap string)) in Hw as [<- <-]. done.
  - intros id wi Hw. apply (lookup_singleton_Some (M := gmap string)) in Hw as [<- <-]. done.
Qed.

Definition no_gauges : gauges := mkGauges (f64_of_Z 0) (f64_of_Z 0) (f64_of_Z 0) ∅ (f64_of_Z 0).

(** The goroutines of [main], and a request; the escalator has its turns among theirs. *)
Definition escalating_goroutines : list Arrival :=
  (main_goroutines 2 1 (fun _ => 0) no_gauges ++ [TransitionRequested "wi-1" (inr StateResolved)])%list.
Definition escalating : nat -> list (io unit) * Sys :=
  play_run escalating_goroutines (repeat 3%nat 3 ++ repeat 6%nat 4 ++ repeat 3%nat 5)%list aged_system.

Lemma severities_only_rise_witness :
  exists wi, work_items (tables (seen (escalating 12%nat).2)) !! "wi-1" = Some wi /\ wi_Severity wi = SeverityP1 /\
    severity_rank (wi_Severity wi) <= severity_rank SeverityP2.
Proof.
  destruct (severities_only_rise escalating (goroutine <$> [WorkerTurn; WorkerTurn; ThroughputLogStarted 1]) 1
    (goroutine <$> [CleanupStarted 1; MetricsStarted (fun _ => 0) 1 no_gauges; TransitionRequested "wi-1" (inr StateResolved)])
    0 12 "wi-1" aged_item) as (wi & Hwi & Hrank).
  - exact aged_tables_ok.
  - apply play_run_is_run.
  - reflexivity.
  - repeat (apply Forall_cons; split; [eexists; split; [|reflexivity]; done|]). constructor.
  - lia.
  - reflexivity.
  - exists wi. split; [exact Hwi|]. split; [|exact Hrank]. vm_compute in Hwi. by injection Hwi as <-.
Defined.
