(* ===== verification/Dashboard.v ===== *)
(** The cached dashboard: what is in the cache was true at some moment, in every interleaving of the
    requests, the jobs that rebuild it and the transitions that invalidate it. *)
From stdpp Require Import pretty.
From S2P Require Import Prelude Float64 GoTime Models Queue RateLimiter Tables Prog Services Loops Retry.
From S2P Require Import Postgres RedisStore Mongo StatePattern Alerting Invariant StoreSafety Machine Escalator.
From S2P Require Import Debounce Ingestion Worker Health WorkItemsAPI MemWorld System Liveness Alone Knowledge Scenarios.
Local Open Scope string_scope.
Local Open Scope Z_scope.

(** What encoding/json documents: decoding an encoded state gives it back. *)
Class FormatLaws `{Formats} : Prop := unmarshal_marshal : forall ds data, marshal ds = inr data -> unmarshal data = inr ds.

(** ** Who writes the cache *)

(** The effects that write under the key of the dashboard write a value in [W]. *)
Definition writes_cache (W : string -> Prop) {B} (e : eff B) : Prop :=
  match e with
  | Ext e =>
      match e with
      | RdSet key value _ => key = dashboardKey -> W value
      | RdIncrExpire key _ => key <> dashboardKey
      | _ => True
      end
  | _ => True
  end.

Section Cache.
Context `{World}.

(** What a write leaves under a key is what was there, or what it applies. *)
Lemma write_redis o v r v' (k : string) x : write o v r v' -> redis v' !! k = Some x ->
  redis v !! k = Some x \/ exists v1, o = Some v1 /\ redis v1 !! k = Some x.
Proof. destruct r as [err|]; cbn; [|intros Ho; right; by exists v']. intros [->|Ho]; [by left|right; by exists v']. Qed.

Lemma step_cache W {B} (e : eff B) s b s' x : writes_cache W e -> step B e s b s' -> redis (seen s') !! dashboardKey = Some x ->
  redis (seen s) !! dashboardKey = Some x \/ exists value, W value /\ re_value x = RStr value.
Proof.
  intros He Hs. destruct e as [B e|B f|B f| |j]; cbn in Hs; try (unfold seen; first [by subst; left|destruct Hs as [-> _]; by left]).
  2: { destruct Hs as (t & Ha & _). apply answer_allowed in Ha as [_ Hv]. unfold seen. rewrite Hv. by left. }
  destruct Hs as [Ha _]. apply answer_allowed in Ha. change (allowed e (seen s) b (seen s')) in Ha.
  destruct e; cbn in Ha, He.
  all: repeat match goal with
    | H : _ /\ _ |- _ => destruct H
    | H : exists _, _ |- _ => destruct H
    | H : read_at _ _ |- _ => destruct H
    end.
  all: try (match goal with H : seen _ = _ |- _ => rewrite H end; by left).
  all: try (intros Hx; destruct (write_redis _ _ _ _ _ _ Ha Hx) as [Hold|(v1 & Hv & Hx1)]; [by left|]).
  - apply fmap_Some in Hv as (T & _ & ->). by left.
  - intros Hx. destruct (write_redis _ _ _ _ _ _ H1 Hx) as [Hold|(v1 & [= <-] & Hx1)]; [by left|]. cbn in Hx1.
    apply lookup_insert_Some in Hx1 as [[Hk <-]|[_ Hold]]; [right; exists value; split; [by apply He|done]|by left].
  - injection Hv as <-. cbn in Hx1. apply lookup_delete_Some in Hx1 as [_ Hold]. by left.
  - assert (Hins : forall e, <[key := e]> (redis (seen s)) !! dashboardKey = redis (seen s) !! dashboardKey)
      by (intros e; by rewrite lookup_insert_ne).
    intros Hx. left. destruct (incr_entry _ _ _) as [e|].
    + destruct H1 as [Hw|[_ Hv]]; [|rewrite Hv in Hx; cbn in Hx; by rewrite Hins in Hx].
      destruct (write_redis _ _ _ _ _ _ Hw Hx) as [Hold|(v1 & [= <-] & Hx1)]; [done|]. cbn in Hx1. by rewrite Hins in Hx1.
    + destruct H1 as [_ [Hv|Hv]]; rewrite Hv in Hx; [done|]. cbn in Hx. by rewrite lookup_alter_ne in Hx.
  - case_decide; [|done]. injection Hv as <-. by left.
  - injection Hv as <-. by left.
Qed.
End Cache.

(** ** What the goroutines know *)

(** Lists that the queries gave: of the active work items ([true]), or of all of them. *)
Definition lists : Type := bool -> list WorkItem -> Prop.

Definition fewer (k k' : lists) : Prop := forall active l, k active l -> k' active l.

#[export] Instance fewer_preorder : PreOrder fewer.
Proof. split; [by intros k ? ?|]. intros k1 k2 k3 H1 H2 active l Hl. by apply H2, H1. Qed.

(** The active incidents of a list that was queried. *)
Definition listed_active (k : lists) (l : list WorkItem) : Prop := k true l \/ exists all, k false all /\ l = active_items all.

Section Knows.
Context `{Formats}.

Definition genuine (k : lists) (value : string) : Prop := exists ds, marshal ds = inr value /\ listed_active k (ds_ActiveIncidents ds).

(** The job that rebuilds the cache is given a list that was queried. *)
Definition starts (k : lists) {B} (e : eff B) : Prop := match e with Go (JobRebuildDashboard items) => k false items | _ => True end.

Definition shows_truth (k : lists) (B : Type) (e : eff B) : Prop := writes_cache (genuine k) e /\ starts k e.

Definition learn_list (active : bool) (r : error + RowSet WorkItem) (k : lists) : lists :=
  match r with
  | inr rs =>
      match scan_rows (rs_rows rs), rs_err rs with
      | (items, None), None => fun active' l => k active' l \/ (active' = active /\ l = items)
      | _, _ => k
      end
  | inl _ => k
  end.

Definition learn_query (B : Type) (e : eff B) : B -> lists -> lists :=
  match e with
  | Ext e => match e with PgListWorkItems active => learn_list active | _ => fun _ k => k end
  | _ => fun _ k => k
  end.

Lemma shows_truth_mono k k' B (e : eff B) : fewer k k' -> shows_truth k B e -> shows_truth k' B e.
Proof.
  intros Hk [Hw Hg]. assert (HW : forall v, genuine k v -> genuine k' v).
  { intros v (ds & Hm & Hl). exists ds. split; [done|]. destruct Hl as [Hl|(all & Hl & Heq)]; [left; by apply Hk|right; exists all; split; [by apply Hk|done]]. }
  split.
  - destruct e as [B e| | | |]; try done. destruct e; try done. cbn in *. intros Hkey. by apply HW, Hw.
  - destruct e as [| | | |j]; try done. destruct j; try done. by apply Hk.
Qed.

Lemma learn_query_mono k k' B (e : eff B) b : fewer k k' -> fewer (learn_query B e b k) (learn_query B e b k').
Proof.
  intros Hk. destruct e as [B e| | | |]; try done. destruct e; try done. cbn. destruct b as [err|rs]; [done|]. cbn.
  destruct (scan_rows (rs_rows rs)) as [items [err|]]; [done|]. destruct (rs_err rs); [done|].
  intros active' l [Hl|Heq]; [left; by apply Hk|by right].
Qed.

Lemma learn_query_grows k B (e : eff B) b : fewer k (learn_query B e b k).
Proof.
  destruct e as [B e| | | |]; try done. destruct e; try done. cbn. destruct b as [err|rs]; [done|]. cbn.
  destruct (scan_rows (rs_rows rs)) as [items [err|]]; [done|]. destruct (rs_err rs); [done|]. intros active' l Hl. by left.
Qed.

Abbreviation truthful := (informed shows_truth learn_query).

Lemma truthful_bind {A B} (p : io A) (q : A -> io B) k :
  truthful k p -> (forall a k', fewer k k' -> truthful k' (q a)) -> truthful k (bind q p).
Proof. apply (informed_bind fewer shows_truth learn_query learn_query_grows). Qed.

(** Goroutines that have nothing to do with the dashboard. *)
Definition apart (B : Type) (e : eff B) : Prop := shows_truth (fun _ _ => False) B e.

Lemma apart_truthful {A} (p : io A) k : only True apart p -> truthful k p.
Proof.
  apply (only_informed fewer shows_truth learn_query shows_truth_mono learn_query_grows). intros B e. apply shows_truth_mono. by intros ? ? [].
Qed.

Lemma throughput_key_ne n : throughput_key n <> dashboardKey.
Proof. done. Qed.

Lemma goroutine_apart a : (forall items, a <> JobStarted (JobRebuildDashboard items)) -> a <> ListRequested -> a <> DashboardRequested ->
  only True apart (goroutine a).
Proof.
  intros H1 H2 H3. destruct a as [| | | | | | | | | | | | | | |[wi| |items]]; cbn [goroutine job_prog]; unfold discard.
  all: try done. all: try (by edestruct H1). all: try (by apply only_bind; [apply only_Dispatch|]).
  all: crawl.
Qed.

(** A list that a query gave without an error is known. *)
Lemma list_items_truthful {A} active (q : list WorkItem * option error -> io A) k :
  (forall l err, truthful k (q (l, Some err))) -> (forall items k', k' active items -> truthful k' (q (items, None))) ->
  truthful k (r <-- list_items active;; q r).
Proof.
  intros Herr Hok. unfold list_items, call, perform. cbn [bind]. split; [done|]. intros [err|rs]; cbn [learn_query learn_list]; [apply Herr|].
  destruct (scan_rows (rs_rows rs)) as [items [err|]]; [apply Herr|]. destruct (rs_err rs) as [err|]; [apply Herr|apply Hok; by right].
Qed.

Lemma SetDashboardState_truthful ds k : listed_active k (ds_ActiveIncidents ds) -> truthful k (SetDashboardState ds).
Proof.
  intros Hl. unfold SetDashboardState. destruct (marshal ds) as [err|data] eqn:Hm; [done|].
  split; [|done]. split; [|done]. intros _. by exists ds.
Qed.

Lemma listed_active_mono k k' l : fewer k k' -> listed_active k l -> listed_active k' l.
Proof. intros Hk [Hl|(all & Hl & ->)]; [left; by apply Hk|right; exists all; split; [by apply Hk|done]]. Qed.

Lemma rebuildDashboardCache_truthful items k : k false items -> truthful k (rebuildDashboardCache items).
Proof.
  intros Hk. unfold rebuildDashboardCache. apply truthful_bind; [apply apart_truthful; crawl|]. intros [c [err|]] k1 H1; [done|].
  apply truthful_bind; [apply apart_truthful; crawl|]. intros sps k2 H2.
  apply truthful_bind; [apply apart_truthful; crawl|]. intros t k3 H3.
  apply truthful_bind; [|done]. apply SetDashboardState_truthful. right. exists items. split; [by apply H3, H2, H1|done].
Qed.

Lemma handle_ListWorkItems_truthful k : truthful k handle_ListWorkItems.
Proof.
  unfold handle_ListWorkItems. apply list_items_truthful; [done|]. intros items k' Hk. split; [by split|done].
Qed.

Lemma handle_GetDashboard_truthful k : truthful k handle_GetDashboard.
Proof.
  assert (Hmiss : forall k, truthful k (r <-- ListActiveWorkItems;;
    (let '(items, err) := r in
     match err with
     | Some err => Ret (api_error 500 (Error err))
     | None =>
         r <-- GetDashboardCounts;;
         let '(c, err) := r in
         match err with
         | Some err => Ret (api_error 500 (Error err))
         | None =>
             sps <-- GetSignalsPerSecond;;
             t <-- now;;
             let state := mkDashboardState (c_open c) (c_investigating c) (c_resolved c) (c_closed c) sps.1 items t in
             SetDashboardState state;;; Ret (mkApiResponse StatusOK (DashboardBody state))
         end
     end))).
  { clear k. intros k. apply list_items_truthful; [done|]. intros items k0 Hk.
    apply truthful_bind; [apply apart_truthful; crawl|]. intros [c [err|]] k1 H1; [done|].
    apply truthful_bind; [apply apart_truthful; crawl|]. intros sps k2 H2.
    apply truthful_bind; [apply apart_truthful; crawl|]. intros t k3 H3.
    apply truthful_bind; [|done]. apply SetDashboardState_truthful. left. by apply H3, H2, H1. }
  unfold handle_GetDashboard. apply truthful_bind; [apply apart_truthful; crawl|]. intros [[cached|] [err|]] k1 _; [apply Hmiss|done|apply Hmiss..].
Qed.

(** ** Runs *)

Lemma arrives_truthful p k : arrives p -> truthful k p.
Proof.
  intros (a & Ha & ->). assert (a = ListRequested \/ a = DashboardRequested \/ (a <> ListRequested /\ a <> DashboardRequested)) as [->|[->|[H1 H2]]].
  { destruct a; by auto. }
  - apply truthful_bind; [apply handle_ListWorkItems_truthful|done].
  - apply truthful_bind; [apply handle_GetDashboard_truthful|done].
  - apply apart_truthful, goroutine_apart; [intros items ->; done|done..].
Qed.

Lemma spawned_truthful k B (e : eff B) : shows_truth k B e -> Forall (truthful k) (spawned B e).
Proof.
  intros [_ Hg]. destruct e as [| | | |j]; repeat constructor. destruct j as [wi| |items].
  - apply (apart_truthful (goroutine (JobStarted (JobDispatch wi)))), goroutine_apart; done.
  - apply (apart_truthful (goroutine (JobStarted JobIncrementSignalCounter))), goroutine_apart; done.
  - by apply rebuildDashboardCache_truthful.
Qed.
End Knows.

Abbreviation truthful := (informed shows_truth learn_query).

(** The active ones of all items, in the order of the list, are an answer of the other query. *)
Lemma StronglySorted_filter {A} (R : A -> A -> Prop) (P : A -> Prop) `{!forall x, Decision (P x)} l :
  StronglySorted R l -> StronglySorted R (filter P l).
Proof.
  induction 1 as [|x l Hl IH Hx]; [constructor|]. rewrite filter_cons. case_decide; [|done]. constructor; [done|].
  apply Forall_forall. intros y Hy. apply list_elem_of_filter in Hy as [_ Hy]. by eapply (proj1 (Forall_forall _ _) Hx).
Qed.

Lemma list_answer_active T all : list_answer false T all -> list_answer true T (active_items all).
Proof.
  intros [Hp Hs]. split; [|by apply StronglySorted_filter]. unfold active_items. rewrite Hp, list_filter_filter.
  apply Permutation_refl', list_filter_iff. intros wi. unfold is_active. rewrite bool_decide_eq_true, elem_of_cons, list_elem_of_singleton.
  rewrite orb_True, !bool_decide_spec. naive_solver.
Qed.

Section Steps.
Context `{World} `{Formats}.

(** What the tables show now is known. *)
Definition knows_now (k : lists) (s : Sys) : Prop := forall active l, list_answer active (tables (seen s)) l -> k active l.

(** The cache holds nothing, or what somebody knew. *)
Definition genuine_cache (k : lists) (v : View) : Prop :=
  forall e, redis v !! dashboardKey = Some e -> exists value, genuine k value /\ re_value e = RStr value.

Lemma genuine_mono k k' value : fewer k k' -> genuine k value -> genuine k' value.
Proof. intros Hk (ds & Hm & Hl). exists ds. split; [done|by eapply listed_active_mono]. Qed.

Lemma genuine_cache_mono k k' v : fewer k k' -> genuine_cache k v -> genuine_cache k' v.
Proof. intros Hk Hc e He. destruct (Hc e He) as (value & Hg & Hv). exists value. split; [by eapply genuine_mono|done]. Qed.

Lemma query_true k B (e : eff B) s b s' : knows_now k s -> step B e s b s' -> fewer (learn_query B e b k) k.
Proof.
  intros Hk Hs. destruct e as [B e| | | |]; try done. destruct Hs as [Ha _]. apply answer_allowed in Ha. destruct e; try done. destruct Ha as [_ Hr]. cbn.
  destruct b as [err|rs]; [done|]. cbn. destruct (scan_rows (rs_rows rs)) as [items [err|]] eqn:Hscan; [done|].
  destruct (rs_err rs) as [err|] eqn:Herr; [done|]. destruct Hr as (all & Hans & Hrows & Hlen).
  intros active' l [Hl|[-> ->]]; [done|]. rewrite (rows_complete _ items all (scan_rows_ok _ _ Hscan) Hrows (Hlen eq_refl)). by apply Hk.
Qed.

(** Goroutines that know what the tables showed keep the cache to it. *)
Lemma dashboard_step k c c' : knows_now k c.2 -> pool_step step spawned arrives c c' -> Forall (truthful k) c.1 ->
  Forall (truthful k) c'.1 /\ (genuine_cache k (seen c.2) -> genuine_cache k (seen c'.2)).
Proof.
  intros Hk Hs Hall.
  destruct (pool_step_informed fewer shows_truth learn_query shows_truth_mono learn_query_mono learn_query_grows step spawned arrives
    ltac:(apply arrives_truthful) spawned_truthful k k c c' Hs) as [Hp Hall']; [|done..|].
  { intros B e b _ He. by eapply query_true. }
  split; [done|]. intros Hc. destruct Hp as [->|(B & e & b & [Hw _] & He)]; [done|]. intros x Hx.
  destruct (step_cache _ _ _ _ _ _ Hw He Hx) as [Hold|(value & Hg & Hv)]; [by apply Hc|by exists value].
Qed.
End Steps.

Section Runs.
Context `{World} `{Formats} (sigma : nat -> list (io unit) * Sys).

(** The lists that the tables have had. *)
Definition were_true (n : nat) : lists := fun active l => exists m, (m <= n)%nat /\ list_answer active (tables (seen (sigma m).2)) l.

Context (Hstart : Forall arrives (sigma 0%nat).1) (Hrun : is_run step spawned arrives sigma).

Lemma were_true_later n m : (n <= m)%nat -> fewer (were_true n) (were_true m).
Proof. intros Hle active l (j & Hj & Hl). exists j. split; [lia|done]. Qed.

Lemma were_true_now n : knows_now (were_true n) (sigma n).2.
Proof. intros active l Hl. by exists n. Qed.

Lemma run_cache n : redis (seen (sigma 0%nat).2) !! dashboardKey = None ->
  Forall (truthful (were_true n)) (sigma n).1 /\ genuine_cache (were_true n) (seen (sigma n).2).
Proof.
  intros Hnone. assert (Hmono : forall n (c : list (io unit)), Forall (truthful (were_true n)) c -> Forall (truthful (were_true (S n))) c).
  { clear n. intros n c Hc. eapply Forall_impl; [exact Hc|]. intros p.
    apply (informed_mono fewer shows_truth learn_query shows_truth_mono learn_query_mono), were_true_later. lia. }
  induction n as [|n [Hall Hc]].
  - split; [|intros e He; congruence]. eapply Forall_impl; [exact Hstart|]. intros p. apply arrives_truthful.
  - destruct (Hrun n) as [->|Hs].
    + split; [by apply Hmono|]. eapply genuine_cache_mono; [|done]. apply were_true_later. lia.
    + destruct (dashboard_step _ _ _ (were_true_now n) Hs Hall) as [Hall' Hc']. split; [by apply Hmono|].
      eapply genuine_cache_mono; [|by apply Hc']. apply were_true_later. lia.
Qed.

(** The cached dashboard was true: in every run that starts without one, whatever requests,
    rebuilding jobs and transitions interleave and whatever the services answer, a dashboard that
    the cache holds decodes, and lists as its active incidents exactly the OPEN and INVESTIGATING
    work items of one moment of the run, the most urgent and the newest first. *)
Theorem cached_dashboard_was_true `{!FormatLaws} n e :
  redis (seen (sigma 0%nat).2) !! dashboardKey = None -> redis (seen (sigma n).2) !! dashboardKey = Some e ->
  exists data ds m, re_value e = RStr data /\ unmarshal data = inr ds /\ (m <= n)%nat /\
    list_answer true (tables (seen (sigma m).2)) (ds_ActiveIncidents ds).
Proof.
  intros Hnone He. destruct (proj2 (run_cache n Hnone) e He) as (data & (ds & Hm & Hl) & Hv).
  assert (Ht : were_true n true (ds_ActiveIncidents ds)).
  { destruct Hl as [Hl|(all & (m & Hle & Hl) & ->)]; [done|]. exists m. split; [done|by apply list_answer_active]. }
  destruct Ht as (m & Hle & Ht). exists data, ds, m. split; [done|]. split; [by apply unmarshal_marshal|done].
Qed.
End Runs.

(** ** Two runs *)

#[local] Instance spec_float_eq_dec : EqDecision SpecFloat.spec_float.
Proof. solve_decision. Defined.
#[local] Instance WorkItem_eq_dec : EqDecision WorkItem.
Proof. solve_decision. Defined.
#[local] Instance DashboardState_eq_dec : EqDecision DashboardState.
Proof. solve_decision. Defined.

#[local] Existing Instance MemWorld.

(** A format that can encode one dashboard. *)
Definition one_dashboard (ds0 : DashboardState) : Formats :=
  {| marshal := fun ds => if decide (ds = ds0) then inr "{}" else inl (EText "json: unsupported value");
     unmarshal := fun _ => inr ds0; sscanf_float := fun _ => None |}.

Lemma one_dashboard_laws ds0 : @FormatLaws (one_dashboard ds0).
Proof. intros ds data. cbn. case_decide as Hds; [|done]. intros _. by rewrite Hds. Qed.

(** The dashboard of the system with one incident. *)
Definition first_dashboard (state : WorkItemState) : DashboardState :=
  mkDashboardState (if decide (state = StateOpen) then 1 else 0) (if decide (state = StateInvestigating) then 1 else 0) 0 0
    (f64_of_Z 0) [one_item state] start_time.

Definition dashboard_run : nat -> list (io unit) * Sys :=
  @play_run (one_dashboard (first_dashboard StateOpen)) [DashboardRequested] (repeat 0%nat 10) (one_item_system StateOpen).

Lemma cached_dashboard_was_true_witness :
  exists e m, redis (seen (dashboard_run 10%nat).2) !! dashboardKey = Some e /\ (m <= 10)%nat /\
    list_answer true (tables (seen (dashboard_run m).2)) [one_item StateOpen].
Proof.
  destruct (redis (seen (dashboard_run 10%nat).2) !! dashboardKey) as [e|] eqn:He.
  2: { vm_compute in He. discriminate. }
  destruct (cached_dashboard_was_true (H0 := one_dashboard (first_dashboard StateOpen)) dashboard_run)
    with (H1 := one_dashboard_laws (first_dashboard StateOpen)) (n := 10%nat) (e := e) as (data & ds & m & _ & Hds & Hm & Hl).
  - repeat constructor. exists DashboardRequested. by split.
  - apply play_run_is_run.
  - reflexivity.
  - exact He.
  - injection Hds as <-. exists e, m. split; [reflexivity|]. split; [exact Hm|exact Hl].
Defined.

(** The first request builds its dashboard; the incident is resolved, and the cache invalidated,
    before it stores what it has built. *)
Definition stale_arrivals : list Arrival := [DashboardRequested; TransitionRequested "wi-1" (inr StateResolved)].
Definition stale_sched : list nat := (repeat 0 6 ++ repeat 1 10 ++ [0])%nat%list.

(** The invalidation of a transition can be undone: the cache may hold a dashboard that lists an
    incident as active after the transition that resolved it has invalidated the cache and returned,
    until its entry expires. *)
Theorem invalidated_dashboard_comes_back :
  let F := one_dashboard (first_dashboard StateInvestigating) in
  let c := play_run stale_arrivals stale_sched (one_item_system StateInvestigating) 17%nat in
  thread 1 c = Some (Ret tt) /\ state_of "wi-1" c.2 = Some StateResolved /\
  exists e data, redis (seen c.2) !! dashboardKey = Some e /\ re_value e = RStr data /\
    exists ds, unmarshal data = inr ds /\ (wi_ID <$> ds_ActiveIncidents ds) = ["wi-1"].
Proof.
  cbv zeta. split; [by vm_compute|]. split; [by vm_compute|].
  eexists _, _. split; [by vm_compute|]. split; [reflexivity|]. eexists. split; [reflexivity|]. reflexivity.
Qed.
