(* ===== verification/Replicas.v ===== *)
(** The deployment ([helm/ims]): several replicas of the process on the same stores, each with a
    memory of its own. A replica starts, is killed and is replaced at any moment, in any
    interleaving with what the others do. *)
From S2P Require Import Prelude Float64 GoTime Models Queue RateLimiter Tables Prog Services Loops Retry.
From S2P Require Import Postgres RedisStore Mongo StatePattern Alerting Invariant StoreSafety Machine Escalator.
From S2P Require Import Debounce Ingestion Worker Health WorkItemsAPI MemWorld System Config Process Scenarios Severity.
Local Open Scope string_scope.
Local Open Scope Z_scope.
Local Open Scope list_scope.

(** ** The memory of a process that starts *)

Definition NewDebouncer : gmap string string := ∅.

(** The memory that [NewHandler] and [worker.New] set up, around the queue of [main]. *)
Definition NewHandler (q : SignalQueue) : Mem :=
  mkMem NewDebouncer q (NewRateLimiter (f64_of_Z burst) (f64_of_Z rate)) 0 0.

(** ** Replicas *)

(** A replica is in the start-up of [main], has its goroutines, or has ended. *)
Inductive replica :=
| Booting (p : io ((string * error) + (Life * string)))
| Running (threads : list (io unit)) (m : Mem)
| Gone.

Section Replicas.
Context `{World} `{Formats}.

Definition cluster : Type := list replica * world.

Inductive cluster_step : cluster -> cluster -> Prop :=
| replica_starts env ReadFile rs w :
    cluster_step (rs, w) (rs ++ [Booting (main_setup env ReadFile)], w)
| replica_boots i {B} (e : ext B) k rs w b w' :
    rs !! i = Some (Booting (Step (Ext e) k)) -> answer B e w b w' -> cluster_step (rs, w) (<[i := Booting (k b)]> rs, w')
| replica_serves i l addr rounds clients g rs w :
    rs !! i = Some (Booting (Ret (inr (l, addr)))) ->
    cluster_step (rs, w)
      (<[i := Running (goroutine <$> main_goroutines (length (workers l)) rounds clients g) (NewHandler (signals l))]> rs, w)
| replica_runs i threads m threads' s' rs w :
    rs !! i = Some (Running threads m) -> pool_step step spawned arrives (threads, mkSys w m) (threads', s') ->
    cluster_step (rs, w) (<[i := Running threads' (mem s')]> rs, outside s')
| replica_ends i r rs w : rs !! i = Some r -> cluster_step (rs, w) (<[i := Gone]> rs, w).

(** ** What the stores alone must satisfy, and what a memory must *)

Definition stores_ok (w : world) : Prop :=
  tables_ok (tables (view w)) /\ closed_ok (tables (view w)) /\
  forall cid e, redis (view w) !! debounce_key cid = Some e -> exists wid, re_value e = RStr wid /\ known (tables (view w)) wid.

Lemma stores_ok_new w q : stores_ok w -> ch q = [] -> 0 < capacity q -> Inv (mkSys w (NewHandler q)).
Proof.
  intros (Ht & Hc & Hr) Hq Hcap. constructor; cbn; try done.
  - by rewrite Hq.
  - unfold Len. rewrite Hq. cbn. lia.
  - apply NewRateLimiter_wf.
Qed.

(** A memory without any trace of the past, for a replica that has none yet. *)
Definition idle : Mem := NewHandler (New 1).

Lemma stores_ok_idle w : stores_ok w -> Inv (mkSys w idle).
Proof. intros Hw. apply stores_ok_new; [done|done|apply Cap_New_pos]. Qed.

Lemma Inv_stores_ok w m : Inv (mkSys w m) -> stores_ok w.
Proof. by intros []. Qed.

(** What one process does to the stores, every other process tolerates. *)
Lemma evolves_elsewhere w w' m m' m2 : Inv (mkSys w m) -> evolves (mkSys w m) (mkSys w' m') ->
  evolves (mkSys w m2) (mkSys w' m2).
Proof.
  intros Hi [Hinv Hcl Hiss Htab Hdocs _]. destruct (Hinv Hi) as [Ht Hc _ Hr _ _ _]. cbn in *.
  constructor; cbn; try done. intros [_ _ Hl _ Hq Hlen Hlim]. cbn in *. constructor; cbn; try done.
  - eapply map_Forall_impl; [exact Hl|]. intros ? ?. by apply known_grow.
  - eapply Forall_impl; [exact Hq|]. intros ?. by apply known_grow.
  - by eapply rl_wf_mono.
Qed.

(** ** The start-up under interference *)

Definition only_connects {B} (e : eff B) : Prop :=
  match e with
  | Ext e => match e with PgPing | RdPing | MgPing | Connect _ | PgExecScript _ => True | Sleep d => 0 <= d | _ => False end
  | _ => False
  end.

Lemma only_backoff {R} (connect : io (unit + R)) gave_up n attempt :
  only False (@only_connects) connect -> 0 <= attempt -> only False (@only_connects) (backoff connect gave_up n attempt).
Proof.
  intros Hc. revert attempt. induction n as [|n IH]; intros attempt Ha; cbn [backoff]; apply only_bind; try done.
  all: intros [[]|r]; [done|]; cbn; split; try (unfold Second; nia); intros _; try done. apply IH. lia.
Qed.

Lemma main_setup_connects env ReadFile : only False (@only_connects) (main_setup env ReadFile).
Proof. unfold main_setup. crawl_with ltac:(apply only_backoff; [|lia]). Qed.

Lemma connects_view B (e : ext B) w b w' : only_connects (Ext e) -> answer B e w b w' -> exists t, view w' = at_time t (view w).
Proof.
  intros He Ha%answer_allowed. destruct e; try done; cbn in Ha; try (exists (clock (view w)); rewrite Ha; by destruct (view w)).
  destruct Ha as (t & _ & ->). by exists t.
Qed.

Lemma connects_evolves B (e : eff B) s b s' : only_connects e -> step B e s b s' -> evolves s s'.
Proof.
  intros He Hs. destruct e as [B e| | | |]; try done. destruct Hs as [Ha Hm]. apply answer_allowed in Ha.
  destruct e; try done; cbn in Ha; try (by apply evolves_same).
  destruct Ha as (t & Ht & Hv). eapply evolves_read; [|exact Hv|done]. cbn in He. unfold seen. lia.
Qed.

(** What [main] has made when the start-up succeeds. *)
Definition made (r : (string * error) + (Life * string)) : Prop :=
  match r with inr (l, _) => exists env, l = started env | inl _ => True end.


Lemma connects_safe {A} (p : io A) s : only False (@only_connects) p -> safe p (fun _ _ => True) s.
Proof.
  revert s. induction p as [a|msg|B e k IH]; intros s Hp; [done|by destruct Hp|].
  destruct Hp as [He Hk]. intros s1 _ b s2 Hs. split; [by eapply connects_evolves|by apply IH].
Qed.

Lemma main_setup_safe env ReadFile s : safe (main_setup env ReadFile) (fun r _ => made r) s.
Proof.
  apply safe_bind. eapply safe_mono; [|apply connects_safe; crawl_with ltac:(apply only_backoff; [|lia])].
  intros [err|] s1 _; [by apply safe_ret|].
  apply safe_bind. eapply safe_mono; [|apply connects_safe; crawl].
  intros [err|] s2 _; [by apply safe_ret|]. case_match; apply safe_ret; [done|]. intros s3 _. by exists env.
Qed.

(** ** Every step keeps all replicas *)

Definition replica_ok (w : world) (r : replica) : Prop :=
  match r with
  | Booting p => safe p (fun r _ => made r) (mkSys w idle)
  | Running threads m => Inv (mkSys w m) /\ Forall (fun p => safe p (fun _ _ => True) (mkSys w m)) threads
  | Gone => True
  end.

Definition cluster_ok (c : cluster) : Prop := stores_ok c.2 /\ Forall (replica_ok c.2) c.1.

(** The stores of one moment and of a later one. *)
Definition stores_grow (w w' : world) : Prop := forall m, Inv (mkSys w m) -> evolves (mkSys w m) (mkSys w' m).

Lemma replica_ok_later w w' r : stores_ok w -> stores_grow w w' -> replica_ok w r -> replica_ok w' r.
Proof.
  intros Hw Hg. destruct r as [p|threads m|]; cbn; [| |done].
  - intros Hp. eapply safe_rely; [exact Hp|]. apply Hg. apply stores_ok_idle. exact Hw.
  - intros [Hi Hall]. pose proof (Hg m Hi) as He. split; [by apply (ev_inv _ _ He)|].
    eapply Forall_impl; [exact Hall|]. intros p Hp. eapply safe_rely; [exact Hp|exact He].
Qed.

(** A replica takes a step: the stores grow, and it is fine afterwards; so are the others. *)
Lemma cluster_update rs w w' i r m m' : cluster_ok (rs, w) -> Inv (mkSys w m) -> evolves (mkSys w m) (mkSys w' m') ->
  replica_ok w' r -> cluster_ok (<[i := r]> rs, w') /\ stores_grow w w'.
Proof.
  intros [Hw Hall] Hi He Hr. assert (Hg : stores_grow w w') by (intros m2 _; by eapply evolves_elsewhere).
  split; [|done]. split; cbn in *; [eapply Inv_stores_ok, (ev_inv _ _ He Hi)|].
  apply Forall_insert; [|done]. eapply Forall_impl; [exact Hall|]. intros r'. by apply replica_ok_later.
Qed.

Lemma stores_grow_refl w : stores_grow w w.
Proof. by intros m _. Qed.

Lemma cluster_step_ok c c' : cluster_step c c' -> cluster_ok c -> cluster_ok c' /\ stores_grow c.2 c'.2.
Proof.
  intros Hs Hok. pose proof Hok as [Hw Hall]. destruct Hs as
    [env ReadFile rs w|i B e k rs w b w' Hi Ha|i l addr rounds clients g rs w Hi|i threads m threads' s' rs w Hi Hp|i r rs w Hi]; cbn in *.
  - split; [|apply stores_grow_refl]. split; [done|]. apply Forall_app. split; [done|]. constructor; [apply main_setup_safe|done].
  - pose proof (Forall_lookup_1 _ _ _ _ Hall Hi) as Hsafe.
    destruct (Hsafe (mkSys w idle) ltac:(reflexivity) b (mkSys w' idle)) as [He Hk]; [done|].
    eapply (cluster_update rs w w' i _ idle idle); [done|by apply stores_ok_idle|exact He|exact Hk].
  - pose proof (Forall_lookup_1 _ _ _ _ Hall Hi (mkSys w idle) ltac:(reflexivity)) as [env ->].
    assert (Hnew : Inv (mkSys w (NewHandler (signals (started env))))).
    { unfold started. rewrite Start_keeps. apply stores_ok_new; [done|done|apply Cap_New_pos]. }
    split; [|apply stores_grow_refl]. split; [done|]. apply Forall_insert; [done|]. split; [done|].
    apply Forall_forall. intros p (a & -> & _)%list_elem_of_fmap. by apply goroutine_safe.
  - pose proof (Forall_lookup_1 _ _ _ _ Hall Hi) as [Hm Hsafe]. destruct (system_step_safe (threads, mkSys w m) (threads', s') Hm Hsafe (arrives_step _ _ Hp)) as [He Hk]. destruct s' as [w' m'].
    eapply cluster_update; [done|exact Hm|exact He|]. split; [by apply (ev_inv _ _ He)|done].
  - split; [|apply stores_grow_refl]. split; [done|]. by apply Forall_insert.
Qed.

Lemma cluster_run_ok c c' : rtc cluster_step c c' -> cluster_ok c -> cluster_ok c' /\ stores_grow c.2 c'.2.
Proof.
  induction 1 as [c|c c1 c2 Hs _ IH]; intros Hok; [split; [done|apply stores_grow_refl]|].
  destruct (cluster_step_ok _ _ Hs Hok) as [Hok1 Hg1]. destruct (IH Hok1) as [Hok2 Hg2]. split; [done|].
  intros m Hi. pose proof (Hg1 m Hi) as He. etrans; [exact He|]. by apply Hg2, (ev_inv _ _ He).
Qed.

(** C7. The deployment is safe: with any number of replicas on the same stores, which start, are
    killed and are replaced at any moment, in any interleaving and whatever the services answer,
    no goroutine of any replica panics and each replica keeps the invariant of the process; each
    CLOSED work item has its complete RCA and the MTTR of it; and no work item, RCA or audit
    document is ever lost or altered, also not by a replica that is killed in the middle of a
    request. *)
Theorem deployment_is_safe w0 rs w : stores_ok w0 -> rtc cluster_step ([], w0) (rs, w) ->
  (forall i threads m, rs !! i = Some (Running threads m) ->
     Inv (mkSys w m) /\ Forall (fun p => ~ panicked p) threads) /\
  (forall id wi, work_items (tables (view w)) !! id = Some wi -> wi_State wi = StateClosed ->
     exists r, rcas (tables (view w)) !! id = Some r /\ complete_RCA r /\ wi_MTTR wi = Some (MTTRMinutes r)) /\
  (forall id wi, work_items (tables (view w0)) !! id = Some wi ->
     exists wi', work_items (tables (view w)) !! id = Some wi' /\ same_incident wi wi') /\
  (forall id r, rcas (tables (view w0)) !! id = Some r -> rcas (tables (view w)) !! id = Some r) /\
  (forall id d, docs (view w0) !! id = Some d -> docs (view w) !! id = Some d).
Proof.
  intros Hw0 Hrun. destruct (cluster_run_ok _ _ Hrun) as [[Hw Hall] Hg]; [by split|]. cbn in *.
  pose proof (Hg idle (stores_ok_idle w0 Hw0)) as [_ _ _ [Hitems Hrcas] Hdocs _]. cbn in *.
  split; [|split; [apply Hw|split; [done|split; done]]]. intros i threads m Hi. destruct (Forall_lookup_1 _ _ _ _ Hall Hi) as [Hinv Hsafe].
  split; [done|]. eapply Forall_impl; [exact Hsafe|]. by intros p Hp [msg ->].
Qed.
End Replicas.

(** ** Concrete deployments *)

#[local] Existing Instance MemWorld.
#[local] Existing Instance plain_formats.

(** Two workers, else the defaults of the source; the migration is where the image has it. *)
Definition deployed_env (key : string) : string := if bool_decide (key = "WORKER_COUNT") then "2" else "".
Definition image_files (path : string) : error + string := inr "CREATE TABLE IF NOT EXISTS work_items".

(** What happens next: to a new replica, or to one of them. *)
Inductive move :=
| Deploy
| Boot (i : nat)
| Serve (i rounds : nat)
| Arrive (i : nat) (a : Arrival)
| Run (i j : nat)   (* goroutine [j] goes on *)
| Kill (i : nat).

Definition boot_effect {B} (e : eff B) : (B -> io ((string * error) + (Life * string))) -> world -> option (replica * world) :=
  match e with
  | Ext e => fun k w => let '(b, w') := serve_view e w in Some (Booting (k b), w')
  | _ => fun _ _ => None
  end.

Definition deploy `{Formats} (c : cluster) (mv : move) : cluster :=
  let '(rs, w) := c in
  match mv with
  | Deploy => (rs ++ [Booting (main_setup deployed_env image_files)], w)
  | Boot i =>
      match rs !! i with
      | Some (Booting (Step e k)) => match boot_effect e k w with Some (r, w') => (<[i := r]> rs, w') | None => c end
      | _ => c
      end
  | Serve i rounds =>
      match rs !! i with
      | Some (Booting (Ret (inr (l, addr)))) =>
          (<[i := Running (goroutine <$> main_goroutines (length (workers l)) rounds (fun _ => 0) no_gauges) (NewHandler (signals l))]> rs, w)
      | _ => c
      end
  | Arrive i a =>
      match rs !! i with
      | Some (Running threads m) => if is_job a then c else (<[i := Running (threads ++ [goroutine a]) m]> rs, w)
      | _ => c
      end
  | Run i j =>
      match rs !! i with
      | Some (Running threads m) =>
          let '(threads', s') := run_schedule mem_serve spawned [j] threads (mkSys w m) in
          (<[i := Running threads' (mem s')]> rs, outside s')
      | _ => c
      end
  | Kill i => match rs !! i with Some _ => (<[i := Gone]> rs, w) | None => c end
  end.

Lemma deploy_step `{Formats} c mv : deploy c mv = c \/ cluster_step c (deploy c mv).
Proof.
  destruct c as [rs w], mv as [|i|i rounds|i a|i j|i]; cbn [deploy].
  - right. constructor.
  - destruct (rs !! i) as [[[r|msg|B [C e|C f|C f| |j] k]|threads m|]|] eqn:Hi; try by left. right. cbn.
    destruct (serve_view e w) as [b w'] eqn:Hs. apply (replica_boots (H := MemWorld) i e k rs w b w' Hi). cbn. by rewrite Hs.
  - destruct (rs !! i) as [[[[fatal|[l addr]]|msg|B e k]|threads m|]|] eqn:Hi; try by left. right. by eapply replica_serves.
  - destruct (rs !! i) as [[p|threads m|]|] eqn:Hi; try by left. destruct (is_job a) eqn:Ha; [by left|right].
    apply (replica_runs i threads m (threads ++ [goroutine a]) (mkSys w m)); [done|]. constructor. by exists a.
  - destruct (rs !! i) as [[p|threads m|]|] eqn:Hi; try by left.
    pose proof (run_schedule_one arrives j (threads, mkSys w m)) as Hs. cbn [fst snd] in Hs.
    destruct (run_schedule mem_serve spawned [j] threads (mkSys w m)) as [threads' s']. destruct Hs as [[= -> ->]|Hs].
    + left. cbn. by rewrite list_insert_id.
    + right. exact (replica_runs i threads m threads' s' rs w Hi Hs).
  - destruct (rs !! i) as [r|] eqn:Hi; [right|by left]. by eapply replica_ends.
Qed.

Definition deployment `{Formats} (moves : list move) (c : cluster) : cluster := fold_left deploy moves c.

Lemma deployment_steps `{Formats} moves c : rtc cluster_step c (deployment moves c).
Proof.
  revert c. induction moves as [|mv moves IH]; intros c; cbn; [reflexivity|].
  destruct (deploy_step c mv) as [->|Hs]; [apply IH|by eapply rtc_l].
Qed.

Lemma deployment_reaches `{Formats} moves c : rtc cluster_step c ((deployment moves c).1, (deployment moves c).2).
Proof. rewrite <- surjective_pairing. apply deployment_steps. Qed.

(** A replica from its start to the moment when it listens. *)
Definition comes_up (i rounds : nat) : list move := (Deploy :: repeat (Boot i) 8 ++ [Serve i rounds])%list.

Definition runs_on (i : nat) (sched : list nat) : list move := Run i <$> sched.

(** The first replica resolves the incident, and is killed in the middle of the next request; the
    second closes it. *)
Definition handed_over : list move :=
  comes_up 0 1 ++ comes_up 1 1 ++
  [Arrive 0 (TransitionRequested "wi-1" (inr StateResolved))] ++ runs_on 0 (repeat 6%nat 10) ++
  [Arrive 0 (TransitionRequested "wi-1" (inr StateClosed)); Run 0 7; Kill 0] ++
  [Arrive 1 (TransitionRequested "wi-1" (inr StateClosed))] ++ runs_on 1 (repeat 6%nat 10).

Definition investigated : cluster := ([], outside (one_item_system StateInvestigating)).

Definition severity_in (id : string) (c : cluster) : option Severity := wi_Severity <$> work_items (tables (view c.2)) !! id.

(** A P2 incident that is being investigated for 70 minutes. *)
Definition old_item : WorkItem :=
  mkWorkItem "wi-1" "cache-1" ComponentCache "Incident: CACHE failure on cache-1" SeverityP2 StateInvestigating 1 ""
    (start_time - 70 * Minute) start_time None None None.
Definition old_incident : cluster := ([], mkView (mkTables {[ "wi-1" := old_item ]} ∅ ∅) ∅ ∅ start_time {[ "wi-1" ]} : world).

(** The escalator of the first replica has decided, when the second one takes two rounds. *)
Definition overtaking : list move := comes_up 0 1 ++ comes_up 1 2 ++ runs_on 0 (repeat 3%nat 3) ++ runs_on 1 (repeat 3%nat 16).
Definition overtaken_write : list move := runs_on 0 (repeat 3%nat 3).

Lemma deployment_is_safe_witness :
  exists wi, work_items (tables (view (deployment handed_over investigated).2)) !! "wi-1" = Some wi /\
    wi_State wi = StateClosed /\ wi_MTTR wi = Some (MTTRMinutes example_RCA).
Proof.
  destruct (deployment_is_safe investigated.2 (deployment handed_over investigated).1 (deployment handed_over investigated).2)
    as (_ & Hclosed & _ & Hrcas & _).
  { exact (Inv_stores_ok _ _ (one_item_inv StateInvestigating eq_refl ltac:(done))). }
  { exact (deployment_reaches handed_over investigated). }
  destruct (work_items (tables (view (deployment handed_over investigated).2)) !! "wi-1") as [wi|] eqn:Hwi; [|vm_compute in Hwi; discriminate].
  assert (Hst : wi_State wi = StateClosed) by (vm_compute in Hwi; injection Hwi as <-; reflexivity).
  exists wi. split; [reflexivity|]. split; [exact Hst|]. destruct (Hclosed "wi-1" wi Hwi Hst) as (r & Hr & _ & Hm).
  pose proof (Hrcas "wi-1" example_RCA eq_refl) as Hr'. rewrite Hm. do 2 f_equal. congruence.
Defined.

(** C32. With two replicas, which is what the chart deploys, severities do fall: each has an
    escalator of its own, and the write of the one that was overtaken takes an incident from P0
    back to P1, without any fault. (One replica never does: [Severity.severities_only_rise].) *)
Theorem replicas_lower_severities :
  exists c1 c2, rtc cluster_step old_incident c1 /\ rtc cluster_step c1 c2 /\
    severity_in "wi-1" c1 = Some SeverityP0 /\ severity_in "wi-1" c2 = Some SeverityP1.
Proof.
  exists (deployment overtaking old_incident), (deployment overtaken_write (deployment overtaking old_incident)).
  split; [apply deployment_steps|]. split; [apply deployment_steps|]. split; by vm_compute.
Qed.
