(* ===== verification/Fleet.v ===== *)
(** The deployment implements the incident tracker: the simulation of [Tracker.v], for any number of
    replicas that start, are killed and are replaced, and what the tracker guarantees carried over
    to the deployment: a closure stays, no stage is skipped. *)
From S2P Require Import Prelude Float64 GoTime Models Queue RateLimiter Tables Prog Services Loops Retry.
From S2P Require Import Postgres RedisStore Mongo StatePattern Alerting Invariant StoreSafety Machine Escalator.
From S2P Require Import Debounce Ingestion Worker Health WorkItemsAPI MemWorld System Alone Config Process Scenarios.
From S2P Require Import Knowledge Tracker Replicas.
Local Open Scope string_scope.
Local Open Scope Z_scope.
Local Open Scope list_scope.

(** ** What the tracker guarantees of an incident that has been CLOSED *)

Definition analysed (i : Incident) : Prop :=
  exists r, in_rca i = Some r /\ complete_RCA r /\ in_mttr i = Some (MTTRMinutes r).

Definition closed_analysed (Tr : gmap string Incident) : Prop :=
  map_Forall (fun _ i => StateClosed ∈ in_been i -> analysed i) Tr.

Lemma tracker_step_analysed Tr Tr' : tracker_step Tr Tr' -> closed_analysed Tr -> closed_analysed Tr'.
Proof.
  intros Hs Hok. assert (Hget : forall id i, Tr !! id = Some i -> StateClosed ∈ in_been i -> analysed i) by (intros id i; apply Hok).
  destruct Hs as [id sev Hi Hsev|id i to Hi Hgo Hne|id i r Hi Hgo Hr Hc|id i Hi Hn|id i sev Hi Hsev|id i r Hi Hr Hid Hc].
  all: apply map_Forall_insert_2; [|done]; cbn.
  - intros H%elem_of_singleton. discriminate.
  - intros [H%elem_of_singleton|H]%elem_of_union; [by destruct Hne|exact (Hget _ _ Hi H)].
  - intros _. by exists r.
  - exact (Hget _ _ Hi).
  - exact (Hget _ _ Hi).
  - intros H. destruct (Hget _ _ Hi H) as (r' & Hr' & _). congruence.
Qed.

(** The places an incident has been in are not forgotten. *)
Lemma tracker_step_been Tr Tr' id i : tracker_step Tr Tr' -> Tr !! id = Some i ->
  exists i', Tr' !! id = Some i' /\ in_been i ⊆ in_been i'.
Proof.
  intros Hs Hi. assert (Hupd : forall id' j, (id = id' -> in_been i ⊆ in_been j) ->
    exists i', <[id' := j]> Tr !! id = Some i' /\ in_been i ⊆ in_been i').
  { intros id' j Hj. destruct (decide (id' = id)) as [->|Hne]; [rewrite lookup_insert_eq; exists j; split; [done|by apply Hj]|].
    rewrite lookup_insert_ne by done. by exists i. }
  destruct Hs as [id' sev Hn Hsev|id' j to Hj Hgo Hne|id' j r Hj Hgo Hr Hc|id' j Hj Hn|id' j sev Hj Hsev|id' j r Hj Hr Hid Hc];
    apply Hupd; intros <-; [congruence|..]; assert (j = i) as -> by congruence; cbn; set_solver.
Qed.

Section Fleet.
Context `{World} `{Formats}.

(** ** The simulation *)

Definition replica_aware (Tr : gmap string Incident) (r : replica) : Prop :=
  match r with
  | Booting p => only False (@only_connects) p
  | Running threads _ => Forall (informed permits learn (facts_of Tr)) threads
  | Gone => True
  end.

Record simulates (Tr : gmap string Incident) (c : cluster) : Prop := {
  sim_ok : cluster_ok c;
  sim_shows : shows Tr (tables (view c.2));
  sim_aware : Forall (replica_aware Tr) c.1;
}.

Lemma replica_aware_later Tr Tr' r : less (facts_of Tr) (facts_of Tr') -> replica_aware Tr r -> replica_aware Tr' r.
Proof.
  intros Hl. destruct r as [p|threads m|]; cbn; try done. intros Hall. eapply Forall_impl; [exact Hall|].
  intros p. by apply (informed_mono less permits learn permits_mono learn_mono).
Qed.

Lemma goroutines_aware Tr arrivals : Forall (informed permits learn (facts_of Tr)) (goroutine <$> arrivals).
Proof. apply Forall_forall. intros p (a & -> & _)%list_elem_of_fmap. apply goroutine_aware. Qed.

(** A step of the deployment is a step of the tracker, or its users do not see it. *)
Lemma cluster_step_simulated Tr c c' : simulates Tr c -> cluster_step c c' ->
  let Tr' := observe Tr (tables (view c'.2)) in (Tr' = Tr \/ tracker_step Tr Tr') /\ simulates Tr' c'.
Proof.
  intros [Hok Hsh Haw] Hs Tr'. destruct (cluster_step_ok _ _ Hs Hok) as [Hok' _]. pose proof (observe_shows Tr (tables (view c'.2))) as Hsh'.
  assert (Hstay : tables (view c'.2) = tables (view c.2) -> Forall (replica_aware Tr) c'.1 -> (Tr' = Tr \/ tracker_step Tr Tr') /\ simulates Tr' c').
  { intros Heq Haw'. assert (Ht : Tr' = Tr) by (unfold Tr'; by rewrite Heq). split; [by left|]. constructor; [done|done|by rewrite Ht]. }
  destruct Hs as [env ReadFile rs w|i B e k rs w b w' Hi Ha|i l addr rounds clients g rs w Hi|i threads m threads' s' rs w Hi Hp|i r rs w Hi]; cbn in *.
  - apply Hstay; [done|]. apply Forall_app. split; [done|]. constructor; [apply main_setup_connects|done].
  - destruct (Forall_lookup_1 _ _ _ _ Haw Hi) as [He Hk]. apply Hstay; [by destruct (connects_view _ _ _ _ _ He Ha) as [t ->]|]. apply Forall_insert; [exact Haw|exact (Hk b)].
  - apply Hstay; [done|]. apply Forall_insert; [done|]. apply goroutines_aware.
  - pose proof (Forall_lookup_1 _ _ _ _ Haw Hi) as Hall. destruct Hok as [_ Hreps]. destruct (Forall_lookup_1 _ _ _ _ Hreps Hi) as [Hm _].
    destruct (pool_step_simulated Tr (threads, mkSys w m) (threads', s') Hm Hsh Hall (arrives_step _ _ Hp)) as (Ht & Hl & Hall'). split; [exact Ht|].
    constructor; [done|done|]. apply Forall_insert; [|exact Hall']. eapply Forall_impl; [exact Haw|]. intros r. by apply replica_aware_later.
  - apply Hstay; [done|]. by apply Forall_insert.
Qed.

Lemma cluster_run_simulated Tr c c' : rtc cluster_step c c' -> simulates Tr c ->
  exists Tr', rtc tracker_step Tr Tr' /\ simulates Tr' c'.
Proof.
  intros Hrun. revert Tr. induction Hrun as [c|c c1 c2 Hs _ IH]; intros Tr Hsim; [by exists Tr|].
  destruct (cluster_step_simulated _ _ _ Hsim Hs) as [Hstep Hsim1]. destruct (IH _ Hsim1) as (Tr' & Hrun & Hsim'). exists Tr'.
  split; [|done]. destruct Hstep as [Heq|Hstep]; [by rewrite Heq in Hrun|by eapply rtc_l].
Qed.

Lemma nobody_simulates w : stores_ok w -> simulates (observe ∅ (tables (view w))) ([], w).
Proof. intros Hw. constructor; [by split|apply observe_shows|constructor]. Qed.

(** C2. The deployment implements the incident tracker: whatever a number of replicas that start, are
    killed and are replaced do, in any interleaving and whatever the services answer, the stores
    show an incident tracker that steps of the abstract machine led to, with exactly the work
    items of the tables, their state, severity, signal count, MTTR and RCA. *)
Theorem deployment_refines_tracker w0 rs w : stores_ok w0 -> rtc cluster_step ([], w0) (rs, w) ->
  exists Tr, rtc tracker_step (observe ∅ (tables (view w0))) Tr /\
    forall id, match Tr !! id, work_items (tables (view w)) !! id with
      | Some i, Some wi => in_state i = wi_State wi /\ in_severity i = wi_Severity wi /\ in_signals i = wi_SignalCount wi /\
          in_mttr i = wi_MTTR wi /\ in_rca i = rcas (tables (view w)) !! id
      | None, None => True
      | _, _ => False
      end.
Proof.
  intros Hw Hrun. destruct (cluster_run_simulated _ _ _ Hrun (nobody_simulates w0 Hw)) as (Tr & Hsteps & Hsim).
  exists Tr. split; [done|]. apply shows_agrees, (sim_shows _ _ Hsim).
Qed.

Lemma stores_analysed w : stores_ok w -> closed_analysed (observe ∅ (tables (view w))).
Proof.
  intros (_ & Hc & _) id i. rewrite lookup_observe, lookup_empty. destruct (work_items _ !! id) as [wi|] eqn:Hwi; [|done].
  intros [= <-]. cbn. intros [Hst%elem_of_singleton|Hin%elem_of_empty]%elem_of_union; [|done].
  destruct (Hc id wi Hwi (eq_sym Hst)) as (r & Hr & Hcr & Hm). by exists r.
Qed.

Lemma steps_analysed Tr Tr' : rtc tracker_step Tr Tr' -> closed_analysed Tr -> closed_analysed Tr'.
Proof. induction 1 as [|Tr Tr1 Tr2 Hs _ IH]; [done|]. intros Hc. by eapply IH, tracker_step_analysed. Qed.

Lemma steps_been Tr Tr' id i : rtc tracker_step Tr Tr' -> Tr !! id = Some i ->
  exists i', Tr' !! id = Some i' /\ in_been i ⊆ in_been i'.
Proof.
  intros Hs. revert i. induction Hs as [Tr|Tr Tr1 Tr2 Hs _ IH]; intros i Hi; [by exists i|].
  destruct (tracker_step_been _ _ _ _ Hs Hi) as (i1 & Hi1 & Hsub). destruct (IH i1 Hi1) as (i2 & Hi2 & Hsub'). exists i2. split; [done|]. by etrans.
Qed.

(** C6. A closure is never undone: a work item that was CLOSED at some moment of the deployment has, at
    every later one, still its complete RCA and the MTTR of that RCA; whatever the replicas do,
    and also when a race took the work item back to an earlier state. *)
Theorem closure_is_kept w0 c1 rs w id wi : stores_ok w0 -> rtc cluster_step ([], w0) c1 -> rtc cluster_step c1 (rs, w) ->
  work_items (tables (view c1.2)) !! id = Some wi -> wi_State wi = StateClosed ->
  exists wi' r, work_items (tables (view w)) !! id = Some wi' /\ rcas (tables (view w)) !! id = Some r /\
    complete_RCA r /\ wi_MTTR wi' = Some (MTTRMinutes r).
Proof.
  intros Hw Hrun1 Hrun2 Hwi Hst. destruct (cluster_run_simulated _ _ _ Hrun1 (nobody_simulates w0 Hw)) as (Tr1 & Hs1 & Hsim1).
  destruct (cluster_run_simulated _ _ _ Hrun2 Hsim1) as (Tr2 & Hs2 & Hsim2).
  destruct (shows_reflects _ _ _ _ (sim_shows _ _ Hsim1) Hwi) as (i1 & Hi1 & Hrf1).
  destruct (steps_been _ _ _ _ Hs2 Hi1) as (i2 & Hi2 & Hsub).
  assert (Hin : StateClosed ∈ in_been i2). { apply Hsub. rewrite <- (rf_been _ _ _ Hrf1), Hst. set_solver. }
  destruct (steps_analysed _ _ (transitivity Hs1 Hs2) (stores_analysed _ Hw) id i2 Hi2 Hin) as (r & Hr & Hc & Hm).
  pose proof (shows_agrees _ _ (sim_shows _ _ Hsim2) id) as Ha. rewrite Hi2 in Ha. cbn in Ha.
  destruct (work_items (tables (view w)) !! id) as [wi'|]; [|done]. destruct Ha as (_ & _ & _ & Hm' & Hr'). exists wi', r.
  split; [done|]. split; [congruence|]. split; [done|congruence].
Qed.
(** ** The stages of the life cycle *)

(** The work item was in the state, at some moment between [c0] and [c]. *)
Definition was_in (c0 c : cluster) (id : string) (st : WorkItemState) : Prop :=
  exists c1 wi, rtc cluster_step c0 c1 /\ rtc cluster_step c1 c /\ work_items (tables (view c1.2)) !! id = Some wi /\ wi_State wi = st.

(** The tracker remembers where the incidents were, and nothing else. *)
Lemma cluster_run_been c0 c Tr0 : simulates Tr0 c0 -> tracker_ok Tr0 ->
  (forall id i st, Tr0 !! id = Some i -> st ∈ in_been i -> was_in c0 c0 id st) -> rtc cluster_step c0 c ->
  exists Tr, simulates Tr c /\ tracker_ok Tr /\ forall id i st, Tr !! id = Some i -> st ∈ in_been i -> was_in c0 c id st.
Proof.
  intros Hsim0 Hok0 Hbeen0 Hrun. refine (rtc_ind_r (fun c => exists Tr, simulates Tr c /\ tracker_ok Tr /\
    forall id i st, Tr !! id = Some i -> st ∈ in_been i -> was_in c0 c id st) _ _ _ _ Hrun); [by exists Tr0|].
  clear c Hrun. intros c c' Hrun Hs (Tr & Hsim & Hok & Hbeen). destruct (cluster_step_simulated _ _ _ Hsim Hs) as [Hstep Hsim'].
  exists (observe Tr (tables (view c'.2))). split; [done|]. split; [destruct Hstep as [->|Hstep]; [done|by eapply tracker_step_ok]|].
  intros id i st. rewrite lookup_observe. destruct (work_items (tables (view c'.2)) !! id) as [wi|] eqn:Hwi; [|done].
  intros [= <-]. cbn. intros [->%elem_of_singleton|Hin]%elem_of_union; [exists c', wi; split; [by eapply rtc_r|done]|].
  destruct (Tr !! id) as [i|] eqn:Hi; [|by apply elem_of_empty in Hin].
  destruct (Hbeen id i st Hi Hin) as (c1 & wi1 & Hc1 & Hc2 & Hw). exists c1, wi1. split; [done|]. split; [by eapply rtc_r|done].
Qed.

Lemma open_tracker_ok T : map_Forall (fun _ wi => wi_State wi = StateOpen) (work_items T) -> tracker_ok (observe ∅ T).
Proof.
  intros Hopen id i. rewrite lookup_observe, lookup_empty. destruct (work_items T !! id) as [wi|] eqn:Hwi; [|done].
  intros [= <-]. by apply observed_open, (Hopen id).
Qed.

(** C5. No stage of the life cycle is skipped, in the deployment: when all work items are OPEN at first
    (or there is none), a work item in a later state was in the state before it at some earlier
    moment, whatever any number of replicas do, which may be killed in the middle of a transition. *)
Theorem deployment_skips_no_stage w0 rs w id wi st : stores_ok w0 ->
  map_Forall (fun _ wi => wi_State wi = StateOpen) (work_items (tables (view w0))) -> rtc cluster_step ([], w0) (rs, w) ->
  work_items (tables (view w)) !! id = Some wi -> follows st (wi_State wi) ->
  exists c wi', rtc cluster_step ([], w0) c /\ rtc cluster_step c (rs, w) /\
    work_items (tables (view c.2)) !! id = Some wi' /\ wi_State wi' = st.
Proof.
  intros Hw Hopen Hrun Hwi Hf. destruct (cluster_run_been ([], w0) (rs, w) (observe ∅ (tables (view w0)))) as (Tr & Hsim & Hok & Hbeen); try done.
  - by apply nobody_simulates.
  - by apply open_tracker_ok.
  - intros id' i st'. rewrite lookup_observe, lookup_empty. destruct (work_items (tables (view w0)) !! id') as [wi'|] eqn:Hwi'; [|done].
    intros [= <-]. cbn. intros [->%elem_of_singleton|Hin%elem_of_empty]%elem_of_union; [|done]. by exists ([], w0), wi'.
  - destruct (shows_reflects _ _ _ _ (sim_shows _ _ Hsim) Hwi) as (i & Hi & []). destruct (Hok id i Hi) as [Hs Hst _].
    rewrite rf_state in Hs. exact (Hbeen id i st Hi (Hst _ _ Hs Hf)).
Qed.
End Fleet.

(** ** A deployment *)

#[local] Existing Instance MemWorld.
#[local] Existing Instance plain_formats.

Lemma investigated_ok : stores_ok investigated.2.
Proof. exact (Inv_stores_ok _ _ (one_item_inv StateInvestigating eq_refl ltac:(done))). Qed.

Lemma deployment_refines_tracker_witness :
  exists Tr i, rtc tracker_step (observe ∅ (tables (view investigated.2))) Tr /\ Tr !! "wi-1" = Some i /\ in_state i = StateClosed.
Proof.
  destruct (deployment_refines_tracker investigated.2 (deployment handed_over investigated).1 (deployment handed_over investigated).2
    investigated_ok (deployment_reaches handed_over investigated)) as (Tr & Hsteps & Hid).
  specialize (Hid "wi-1"). destruct (work_items (tables (view (deployment handed_over investigated).2)) !! "wi-1") as [wi|] eqn:Hwi.
  2: { vm_compute in Hwi. discriminate. }
  destruct (Tr !! "wi-1") as [i|] eqn:Hi; [|destruct Hid]. exists Tr, i. split; [exact Hsteps|]. split; [exact Hi|].
  destruct Hid as [-> _]. vm_compute in Hwi. injection Hwi as <-. reflexivity.
Defined.

(** The overtaken request of [Scenarios.closed_incident_reopens], at two replicas. *)
Definition closing_race : list move :=
  comes_up 0 1 ++ comes_up 1 1 ++
  [Arrive 0 (TransitionRequested "wi-1" (inr StateResolved)); Run 0 6] ++
  [Arrive 1 (TransitionRequested "wi-1" (inr StateResolved))] ++ runs_on 1 (repeat 6%nat 10) ++
  [Arrive 1 (TransitionRequested "wi-1" (inr StateClosed))] ++ runs_on 1 (repeat 7%nat 10).
Definition reopening : list move := Kill 1 :: runs_on 0 (repeat 6%nat 10).
Definition closed_moment : cluster := deployment closing_race investigated.

Lemma closure_is_kept_witness :
  (wi_State <$> work_items (tables (view (deployment reopening closed_moment).2)) !! "wi-1") = Some StateResolved /\
  exists wi' r, work_items (tables (view (deployment reopening closed_moment).2)) !! "wi-1" = Some wi' /\
    complete_RCA r /\ wi_MTTR wi' = Some (MTTRMinutes r).
Proof.
  split; [by vm_compute|]. destruct (work_items (tables (view closed_moment.2)) !! "wi-1") as [wi|] eqn:Hwi; [|vm_compute in Hwi; discriminate].
  assert (Hst : wi_State wi = StateClosed) by (vm_compute in Hwi; injection Hwi as <-; reflexivity).
  destruct (closure_is_kept investigated.2 closed_moment (deployment reopening closed_moment).1 (deployment reopening closed_moment).2
    "wi-1" wi investigated_ok (deployment_steps closing_race investigated) (deployment_reaches reopening closed_moment) Hwi Hst)
    as (wi' & r & Hwi' & _ & Hr & Hm).
  exists wi', r. split; [exact Hwi'|]. split; [exact Hr|exact Hm].
Defined.

(** A work item is taken to INVESTIGATING by one replica, which is then killed, and to RESOLVED by
    another one. *)
Definition two_stages : list move :=
  comes_up 0 1 ++ [Arrive 0 (TransitionRequested "wi-1" (inr StateInvestigating))] ++ runs_on 0 (repeat 6%nat 10) ++ [Kill 0] ++
  comes_up 1 1 ++ [Arrive 1 (TransitionRequested "wi-1" (inr StateResolved))] ++ runs_on 1 (repeat 6%nat 10).
Definition reported : cluster := ([], outside (one_item_system StateOpen)).

Lemma reported_open : map_Forall (fun _ wi => wi_State wi = StateOpen) (work_items (tables (view reported.2))).
Proof. intros id wi Hwi. by destruct (one_item_lookup _ _ _ Hwi) as [_ ->]. Qed.

Lemma deployment_skips_no_stage_witness :
  (wi_State <$> work_items (tables (view (deployment two_stages reported).2)) !! "wi-1") = Some StateResolved /\
  exists c wi', rtc cluster_step reported c /\ rtc cluster_step c (deployment two_stages reported) /\
    work_items (tables (view c.2)) !! "wi-1" = Some wi' /\ wi_State wi' = StateInvestigating.
Proof.
  split; [by vm_compute|]. destruct (work_items (tables (view (deployment two_stages reported).2)) !! "wi-1") as [wi|] eqn:Hwi.
  2: { vm_compute in Hwi. discriminate. }
  destruct (deployment_skips_no_stage reported.2 (deployment two_stages reported).1 (deployment two_stages reported).2 "wi-1" wi
    StateInvestigating (Inv_stores_ok _ _ (one_item_inv StateOpen eq_refl ltac:(done))) reported_open
    (deployment_reaches two_stages reported) Hwi) as (c & wi' & Hc & Hc' & Hw).
  { vm_compute in Hwi. injection Hwi as <-. exists 1%nat. by split. }
  exists c, wi'. split; [exact Hc|]. split; [|exact Hw]. destruct (deployment two_stages reported). exact Hc'.
Defined.
