(* ===== verification/Progress.v ===== *)
(** Progress in the deployment: what a replica that lives on has accepted, it processes, whatever
    happens to the other replicas. *)
From S2P Require Import Prelude Float64 GoTime Models Queue RateLimiter Tables Prog Services Loops Retry.
From S2P Require Import Postgres RedisStore Mongo StatePattern Alerting Invariant StoreSafety Machine Escalator.
From S2P Require Import Debounce Ingestion Worker Health WorkItemsAPI MemWorld System Liveness Config Process Scenarios.
From S2P Require Import Replicas.
Local Open Scope string_scope.
Local Open Scope Z_scope.

Section Progress.
Context `{World} `{Formats}.

(** Runs of the deployment, from its first replica on. *)
Definition cluster_run (sigma : nat -> cluster) : Prop :=
  (sigma 0%nat).1 = [] /\ stores_ok (sigma 0%nat).2 /\
  forall n, sigma (S n) = sigma n \/ cluster_step (sigma n) (sigma (S n)).

(** Replica [i] has its goroutines, and what it is then, as a process. *)
Definition serving (i : nat) (c : cluster) : Prop := exists threads m, c.1 !! i = Some (Running threads m).

Definition process (i : nat) (c : cluster) : list (io unit) * Sys :=
  match c.1 !! i with
  | Some (Running threads m) => (threads, mkSys c.2 m)
  | _ => ([], mkSys c.2 idle)
  end.

Definition process_run (i : nat) (sigma : nat -> cluster) (n : nat) : list (io unit) * Sys := process i (sigma n).

Lemma cluster_run_ok_at sigma n : cluster_run sigma -> cluster_ok (sigma n) /\
  forall m, (n <= m)%nat -> stores_grow (sigma n).2 (sigma m).2.
Proof.
  intros (Hnone & Hst & Hrun). assert (Hrtc : forall n m, (n <= m)%nat -> rtc cluster_step (sigma n) (sigma m)).
  { intros n1 m Hle. induction Hle as [|m Hle IH]; [done|]. destruct (Hrun m) as [->|Hs]; [done|by eapply rtc_r]. }
  assert (Hok : forall n, cluster_ok (sigma n)).
  { intros n1. apply (cluster_run_ok (sigma 0%nat)); [apply Hrtc; lia|]. split; [done|]. rewrite Hnone. constructor. }
  split; [done|]. intros m Hle. by apply cluster_run_ok; [apply Hrtc|].
Qed.

Lemma process_inv i c : cluster_ok c -> Inv (process i c).2.
Proof.
  intros [Hw Hall]. unfold process. destruct (c.1 !! i) as [[p|threads m|]|] eqn:Hi; try by apply stores_ok_idle.
  by destruct (Forall_lookup_1 _ _ _ _ Hall Hi).
Qed.

(** A step of the deployment is a step of the replica, or of other processes. *)
Lemma cluster_step_process i c c' : cluster_ok c -> cluster_step c c' -> serving i c -> serving i c' ->
  among step spawned entry elsewhere (process i c) (process i c').
Proof.
  intros Hok Hs (threads & m & Hi) (threads' & m' & Hi'). pose proof (cluster_step_ok _ _ Hs Hok) as [_ Hg].
  pose proof (process_inv i c Hok) as Hinv. unfold process in *. rewrite Hi in *. rewrite Hi'. cbn in Hinv.
  assert (Hother : threads' = threads -> m' = m -> among step spawned entry elsewhere (threads, mkSys c.2 m) (threads', mkSys c'.2 m')).
  { intros -> ->. left. split; [done|]. split; [done|by apply Hg]. }
  destruct Hs as [env ReadFile rs w|j B e k rs w b w' Hj Ha|j l addr rounds clients g rs w Hj|j ts m1 ts' s' rs w Hj Hp|j r rs w Hj]; cbn in *.
  - rewrite lookup_app_l in Hi' by (by eapply lookup_lt_Some). apply Hother; congruence.
  - destruct (decide (j = i)) as [->|Hne]; [congruence|]. rewrite list_lookup_insert_ne in Hi' by done. apply Hother; congruence.
  - destruct (decide (j = i)) as [->|Hne]; [congruence|]. rewrite list_lookup_insert_ne in Hi' by done. apply Hother; congruence.
  - destruct (decide (j = i)) as [->|Hne]; [|rewrite list_lookup_insert_ne in Hi' by done; apply Hother; congruence].
    rewrite Hi in Hj. injection Hj as -> ->. rewrite list_lookup_insert_eq in Hi' by (by eapply lookup_lt_Some).
    injection Hi' as <- <-. right. apply arrives_step in Hp. by destruct s'.
  - destruct (decide (j = i)) as [->|Hne]; [|rewrite list_lookup_insert_ne in Hi' by done; apply Hother; congruence].
    rewrite list_lookup_insert_eq in Hi' by (by eapply lookup_lt_Some). congruence.
Qed.

(** A replica that serves did so before, or has just started its goroutines. *)
Lemma cluster_step_serving i c c' : cluster_step c c' -> serving i c' -> serving i c \/ Forall entry (process i c').1.
Proof.
  intros Hs (threads & m & Hi). unfold process. rewrite Hi. cbn.
  destruct Hs as [env ReadFile rs w|j B e k rs w b w' Hj Ha|j l addr rounds clients g rs w Hj|j ts m1 ts' s' rs w Hj Hp|j r rs w Hj]; cbn in *.
  1: apply lookup_app_Some in Hi as [Hi|[_ Hi]]; [left; by eexists _, _|by apply list_lookup_singleton_Some in Hi as [_ Hi]].
  all: destruct (decide (j = i)) as [->|Hne]; [|rewrite list_lookup_insert_ne in Hi by done; left; by eexists _, _].
  all: rewrite list_lookup_insert_eq in Hi by (by eapply lookup_lt_Some); try done.
  - right. injection Hi as <- _. apply arrivals_enter.
  - left. by eexists _, _.
Qed.

(** The moment when a replica started its goroutines. *)
Lemma serving_since sigma i n : cluster_run sigma -> serving i (sigma n) ->
  exists n0, (n0 <= n)%nat /\ Forall entry (process i (sigma n0)).1 /\ forall m, (n0 <= m <= n)%nat -> serving i (sigma m).
Proof.
  intros (Hnone & _ & Hrun). induction n as [|n IH]; intros Hn.
  - destruct Hn as (threads & m & Hi). by rewrite Hnone in Hi.
  - assert (Hcase : serving i (sigma n) \/ Forall entry (process i (sigma (S n))).1).
    { destruct (Hrun n) as [Heq|Hs]; [left; by rewrite <- Heq|by eapply cluster_step_serving]. }
    destruct Hcase as [Hbefore|Hentry].
    + destruct (IH Hbefore) as (n0 & Hle & Hall & Hserv). exists n0. split; [lia|]. split; [done|]. intros m Hm.
      destruct (decide (m = S n)) as [->|]; [done|apply Hserv; lia].
    + exists (S n). split; [lia|]. split; [done|]. intros m Hm. by replace m with (S n) by lia.
Qed.

Definition from (n0 : nat) (sigma : nat -> list (io unit) * Sys) (n : nat) : list (io unit) * Sys := sigma (n0 + n)%nat.

(** To the replica, the deployment is a process whose stores others use too. *)
Lemma living_run sigma i n0 : cluster_run sigma -> Forall entry (process i (sigma n0)).1 ->
  (forall m, (n0 <= m)%nat -> serving i (sigma m)) ->
  Inv (process i (sigma n0)).2 /\ system_run (from n0 (process_run i sigma)).
Proof.
  intros Hrun Hentry Hserv. split; [by apply process_inv, (cluster_run_ok_at sigma n0)|].
  unfold system_run, from, process_run. rewrite Nat.add_0_r. split; [done|]. intros n. rewrite Nat.add_succ_r.
  pose proof Hrun as (_ & _ & Hstep). destruct (Hstep (n0 + n)%nat) as [->|Hs]; [by left|].
  apply cluster_step_process; [by apply cluster_run_ok_at|done|apply Hserv; lia|apply Hserv; lia].
Qed.

Lemma fair_from n0 sigma : fair_scheduler sigma -> fair_scheduler (from n0 sigma).
Proof.
  intros Hf i n Hi n1. destruct (Hf i (n0 + n)%nat Hi (n0 + n1)%nat) as (m & Hm & H1). exists (m - n0)%nat. split; [lia|].
  unfold from. rewrite Nat.add_succ_r. by replace (n0 + (m - n0))%nat with m by lia.
Qed.

Lemma return_from n0 sigma : workers_return sigma -> workers_return (from n0 sigma).
Proof.
  intros Hw n. destruct (Hw (n0 + n)%nat) as (m & Hm & H1). exists (m - n0)%nat. split; [lia|].
  unfold from. rewrite Nat.add_succ_r. by replace (n0 + (m - n0))%nat with m by lia.
Qed.

(** What holds of a signal that waits at a replica which lives on. *)
Lemma living_replica sigma i n : cluster_run sigma -> (forall m, (n <= m)%nat -> serving i (sigma m)) ->
  fair_scheduler (process_run i sigma) -> workers_return (process_run i sigma) ->
  exists n0, (n0 <= n)%nat /\ Inv (from n0 (process_run i sigma) 0%nat).2 /\ system_run (from n0 (process_run i sigma)) /\
    fair_scheduler (from n0 (process_run i sigma)) /\ workers_return (from n0 (process_run i sigma)).
Proof.
  intros Hrun Hserv Hf Hw. destruct (serving_since sigma i n Hrun (Hserv n ltac:(lia))) as (n0 & Hle & Hentry & Hbefore).
  destruct (living_run sigma i n0 Hrun Hentry) as [Hi Hsys].
  { intros m Hm. destruct (decide (m <= n)%nat); [apply Hbefore; lia|apply Hserv; lia]. }
  exists n0. split; [done|]. split; [unfold from; by rewrite Nat.add_0_r|]. split; [done|]. split; [by apply fair_from|by apply return_from].
Qed.

(** Every signal in the queue of a replica that lives on is taken by one of its workers, whose
    [processSignal] for it ends, whatever the other replicas do. *)
Theorem living_replica_processes sigma i n k signal :
  cluster_run sigma -> (forall m, (n <= m)%nat -> serving i (sigma m)) ->
  fair_scheduler (process_run i sigma) -> workers_return (process_run i sigma) ->
  buffered (process i (sigma n)) !! k = Some signal ->
  exists j m m', (n <= m <= m')%nat /\
    thread j (process i (sigma m)) = Some (processing signal) /\ thread j (process i (sigma m')) = Some (Ret tt).
Proof.
  intros Hrun Hserv Hf Hw Hk. destruct (living_replica sigma i n Hrun Hserv Hf Hw) as (n0 & Hle & Hi & Hsys & Hf' & Hw').
  replace n with (n0 + (n - n0))%nat in Hk by lia.
  destruct (signal_is_processed _ (n - n0) k signal Hi Hsys Hf' Hw' Hk) as (j & m & m' & Hm & Ht & Ht').
  exists j, (n0 + m)%nat, (n0 + m')%nat. split; [lia|done].
Qed.
End Progress.

Section Stored.
Context `{FaultFree} `{Formats}.

(** C11. Accepted signals reach the audit log: in the deployment, with services that do not fail, each
    signal in the queue of a replica that lives on, at whatever position, has its document in
    MongoDB at some later moment and from then on, under a fair scheduler and while the workers of
    that replica return to the queue; whatever the other replicas do, which may start and be
    killed at any moment. *)
Theorem living_replica_stores sigma i n k signal :
  cluster_run sigma -> (forall m, (n <= m)%nat -> serving i (sigma m)) ->
  fair_scheduler (process_run i sigma) -> workers_return (process_run i sigma) ->
  buffered (process i (sigma n)) !! k = Some signal ->
  exists m, (n <= m)%nat /\ forall m', (m <= m')%nat -> is_Some (docs (view (sigma m').2) !! sig_ID signal).
Proof.
  intros Hrun Hserv Hf Hw Hk. destruct (living_replica sigma i n Hrun Hserv Hf Hw) as (n0 & Hle & Hi & Hsys & Hf' & Hw').
  replace n with (n0 + (n - n0))%nat in Hk by lia.
  destruct (queued_signal_is_stored _ (n - n0) k signal Hi Hsys Hf' Hw' Hk) as (m & Hm & Hdoc).
  exists (n0 + m)%nat. split; [lia|]. intros m' Hm'. specialize (Hdoc (m' - n0)%nat ltac:(lia)).
  unfold document, from, process_run in Hdoc. replace (n0 + (m' - n0))%nat with m' in Hdoc by lia.
  revert Hdoc. unfold process. by destruct ((sigma m').1 !! i) as [[| |]|].
Qed.
End Stored.

(** ** A deployment *)

#[local] Existing Instance MemWorld.
#[local] Existing Instance plain_formats.

Definition deployment_run (moves : list move) (c : cluster) (n : nat) : cluster := deployment (take n moves) c.

Lemma deployment_run_is_run moves w : stores_ok w -> cluster_run (deployment_run moves ([], w)).
Proof.
  intros Hw. split; [done|]. split; [done|]. intros n. unfold deployment_run.
  destruct (moves !! n) as [mv|] eqn:Hmv; [|apply lookup_ge_None in Hmv; left; by rewrite !take_ge by lia].
  rewrite (take_S_r _ _ mv) by done. unfold deployment. rewrite fold_left_app. apply deploy_step.
Qed.

Lemma deploy_serving i c mv : mv <> Kill i -> serving i c -> serving i (deploy c mv).
Proof.
  destruct c as [rs w]. intros Hmv (threads & m & Hi). unfold serving. cbn in Hi.
  assert (Hne : forall j r, j <> i -> exists threads m, (<[j := r]> rs : list replica) !! i = Some (Running threads m)).
  { intros j r Hji. exists threads, m. by rewrite list_lookup_insert_ne. }
  assert (Heq : forall threads' m', exists threads m, (<[i := Running threads' m']> rs : list replica) !! i = Some (Running threads m)).
  { intros threads' m'. exists threads', m'. apply list_lookup_insert_eq. by eapply lookup_lt_Some. }
  destruct mv as [|j|j rounds|j a|j k|j]; cbn [deploy].
  - exists threads, m. by apply lookup_app_l_Some.
  - destruct (decide (j = i)) as [->|Hj]; [rewrite Hi; by exists threads, m|].
    destruct (rs !! j) as [[[r|msg|B e k]|ts m1|]|]; try by exists threads, m.
    destruct (boot_effect e k w) as [[r w']|]; [by apply Hne|by exists threads, m].
  - destruct (decide (j = i)) as [->|Hj]; [rewrite Hi; by exists threads, m|].
    destruct (rs !! j) as [[[[r|[l addr]]|msg|B e k]|ts m1|]|]; try by exists threads, m. by apply Hne.
  - destruct (rs !! j) as [[p|ts m1|]|] eqn:Hj; try by exists threads, m. destruct (is_job a); [by exists threads, m|].
    destruct (decide (j = i)) as [->|Hji]; [apply Heq|by apply Hne].
  - destruct (rs !! j) as [[p|ts m1|]|] eqn:Hj; try by exists threads, m. destruct (run_schedule _ _ _ _ _) as [ts' s'].
    destruct (decide (j = i)) as [->|Hji]; [apply Heq|by apply Hne].
  - destruct (rs !! j) as [r|]; [apply Hne; congruence|by exists threads, m].
Qed.

Definition spares (i : nat) (mv : move) : bool := match mv with Kill j => bool_decide (j <> i) | _ => true end.
Definition is_serving (i : nat) (c : cluster) : bool := match c.1 !! i with Some (Running _ _) => true | _ => false end.
Definition is_ended (p : io unit) : bool := match p with Step _ _ => false | _ => true end.

Lemma is_serving_true i c : is_serving i c = true -> serving i c.
Proof. unfold is_serving, serving. destruct (c.1 !! i) as [[|threads m|]|]; try done. by exists threads, m. Qed.

Lemma deployment_serving i c moves n m : forallb (spares i) moves = true -> (n <= m)%nat -> serving i (deployment_run moves c n) ->
  serving i (deployment_run moves c m).
Proof.
  intros Hk Hle Hn. induction Hle as [|m Hle IH]; [done|]. unfold deployment_run in *.
  destruct (moves !! m) as [mv|] eqn:Hmv; [|apply lookup_ge_None in Hmv; by rewrite take_ge in IH |- * by lia].
  rewrite (take_S_r _ _ mv) by done. unfold deployment. rewrite fold_left_app. apply deploy_serving; [|exact IH].
  intros ->. apply forallb_forall with (x := Kill i) in Hk; [by apply bool_decide_eq_true in Hk|].
  by eapply list_elem_of_In, list_elem_of_lookup_2.
Qed.

(** A replica that is not killed, and whose goroutines have all ended when nothing moves any more. *)
Lemma deployment_run_fair moves w i : stores_ok w -> forallb (spares i) moves = true ->
  forallb is_ended (process i (deployment moves ([], w))).1 = true ->
  fair_scheduler (process_run i (deployment_run moves ([], w))).
Proof.
  set (sigma := deployment_run moves ([], w)). intros Hw Hk Hend j n [p Hp] n1.
  assert (Hserv : forall m, (n <= m)%nat -> serving i (sigma m)).
  { intros m Hm. apply (deployment_serving i _ moves n m Hk Hm). fold sigma. unfold process_run, process, thread in Hp.
    destruct ((sigma n).1 !! i) as [[|threads mm|]|] eqn:Hi; try (cbn in Hp; by rewrite lookup_nil in Hp). by exists threads, mm. }
  pose proof (deployment_run_is_run moves w Hw) as Hrun. fold sigma in Hrun.
  assert (Hstay : forall d, is_Some (thread j (process i (sigma (n + d)%nat)))).
  { induction d as [|d IH]; [rewrite Nat.add_0_r; by exists p|]. rewrite Nat.add_succ_r. pose proof Hrun as (_ & _ & Hstep).
    destruct (Hstep (n + d)%nat) as [->|Hs]; [done|]. destruct IH as [q Hq].
    destruct (cluster_step_process i _ _ (proj1 (cluster_run_ok_at sigma (n + d)%nat Hrun)) Hs (Hserv (n + d)%nat ltac:(lia)) (Hserv (S (n + d)) ltac:(lia)))
      as [[Hts _]|Hp']; [unfold thread in *; rewrite Hts; by exists q|].
    destruct (pool_step_thread _ _ _ _ _ _ _ Hp' Hq) as [Hq'|(q' & Hq' & _)]; by eexists. }
  exists (n + (n1 + length moves))%nat. split; [lia|]. right. destruct (Hstay (n1 + length moves)%nat) as [q Hq]. exists q. split; [done|].
  unfold sigma, deployment_run in Hq. rewrite take_ge in Hq by lia.
  apply forallb_forall with (x := q) in Hend; [by destruct q|]. by eapply list_elem_of_In, list_elem_of_lookup_2.
Qed.

(** Two replicas come up. The first ingests a signal; the second is killed in the middle of a request;
    the goroutines of the first go on until they have all ended. *)
Definition ingesting : list move :=
  comes_up 0 0 ++ comes_up 1 0 ++ [Arrive 0 (IngestRequested "10.0.0.1" (inr db_failure))] ++ runs_on 0 (repeat 6%nat 20) ++
  [Arrive 1 (IngestRequested "10.0.0.2" (inr db_failure))] ++ runs_on 1 (repeat 6%nat 5) ++ [Kill 1] ++
  runs_on 0 (repeat 0%nat 10 ++ [1%nat] ++ repeat 7%nat 2 ++ repeat 8%nat 2).
Definition empty_cluster : cluster := ([], empty_view start_time : world).
Definition ingesting_run : nat -> cluster := deployment_run ingesting empty_cluster.

Lemma empty_cluster_ok : stores_ok empty_cluster.2.
Proof.
  split; [exact empty_tables_ok|]. split.
  { intros id wi Hwi. change ((∅ : gmap string WorkItem) !! id = Some wi) in Hwi. by rewrite lookup_empty in Hwi. }
  intros cid e He. change ((∅ : gmap string RedisEntry) !! debounce_key cid = Some e) in He. by rewrite lookup_empty in He.
Qed.

Lemma ingesting_lives m : (40 <= m)%nat -> serving 0 (ingesting_run m).
Proof. intros Hm. apply (deployment_serving 0 _ ingesting 40 m); [done|done|]. apply is_serving_true. by vm_compute. Qed.

Lemma living_replica_stores_witness :
  exists signal m, (40 <= m)%nat /\ buffered (process 0 (ingesting_run 40)) = [signal] /\
    forall m', (m <= m')%nat -> is_Some (docs (view (ingesting_run m').2) !! sig_ID signal).
Proof.
  destruct (buffered (process 0 (ingesting_run 40))) as [|signal [|]] eqn:Hb; [vm_compute in Hb; discriminate| |vm_compute in Hb; discriminate].
  exists signal. destruct (living_replica_stores (H0 := MemWorld_fault_free) ingesting_run 0 40 0 signal) as (m & Hm & Hdoc).
  - exact (deployment_run_is_run ingesting _ empty_cluster_ok).
  - exact ingesting_lives.
  - by apply deployment_run_fair; [exact empty_cluster_ok|vm_compute..].
  - intros n. exists (n + length ingesting)%nat. split; [lia|]. left. unfold process_run, ingesting_run, deployment_run. rewrite take_ge by lia. by vm_compute.
  - rewrite Hb. reflexivity.
  - exists m. split; [exact Hm|]. split; [reflexivity|exact Hdoc].
Defined.
