(* ===== verification/FleetDashboard.v ===== *)
(** The cached dashboard of the deployment: all replicas share one cache, and what is in it was true. *)
From stdpp Require Import pretty.
From S2P Require Import Prelude Float64 GoTime Models Queue RateLimiter Tables Prog Services Loops Retry.
From S2P Require Import Postgres RedisStore Mongo StatePattern Alerting Invariant StoreSafety Machine Escalator.
From S2P Require Import Debounce Ingestion Worker Health WorkItemsAPI MemWorld System Config Process Scenarios.
From S2P Require Import Knowledge Dashboard Replicas.
Local Open Scope string_scope.
Local Open Scope Z_scope.
Local Open Scope list_scope.

Section FleetDashboard.
Context `{World} `{Formats}.

(** The lists that the tables have had since [c0]. *)
Definition past (c0 c : cluster) : lists := fun active l =>
  exists c1, rtc cluster_step c0 c1 /\ rtc cluster_step c1 c /\ list_answer active (tables (view c1.2)) l.

Lemma past_later c0 c c' : rtc cluster_step c c' -> fewer (past c0 c) (past c0 c').
Proof. intros Hs active l (c1 & H01 & H1 & Hl). exists c1. split; [done|]. split; [by etrans|done]. Qed.

Definition replica_truthful (k : lists) (r : replica) : Prop :=
  match r with
  | Booting p => only False (@only_connects) p
  | Running threads _ => Forall (truthful k) threads
  | Gone => True
  end.

Lemma replica_truthful_later k k' r : fewer k k' -> replica_truthful k r -> replica_truthful k' r.
Proof.
  intros Hk. destruct r as [p|threads m|]; cbn; try done. intros Hall. eapply Forall_impl; [exact Hall|].
  intros p. by apply (informed_mono fewer shows_truth learn_query shows_truth_mono learn_query_mono).
Qed.

Lemma main_goroutines_truthful k n rounds clients g : Forall (truthful k) (goroutine <$> main_goroutines n rounds clients g).
Proof.
  apply Forall_forall. intros p (a & -> & Ha)%list_elem_of_fmap. apply arrives_truthful. exists a. split; [|done].
  apply elem_of_app in Ha as [Ha|Ha]; [apply list_elem_of_In, repeat_spec in Ha; by subst|].
  repeat (apply elem_of_cons in Ha as [->|Ha]; [done|]). by apply elem_of_nil in Ha.
Qed.

Definition cache_ok (k : lists) (c : cluster) : Prop := Forall (replica_truthful k) c.1 /\ genuine_cache k (view c.2).

Lemma cluster_step_cache k c c' : (forall active l, list_answer active (tables (view c.2)) l -> k active l) ->
  cluster_step c c' -> cache_ok k c -> cache_ok k c'.
Proof.
  intros Hnow Hs [Hall Hc].
  destruct Hs as [env ReadFile rs w|i B e p rs w b w' Hi Ha|i l addr rounds clients g rs w Hi|i threads m threads' s' rs w Hi Hp|i r rs w Hi]; cbn in *.
  - split; [|done]. apply Forall_app. split; [done|]. constructor; [apply main_setup_connects|done].
  - destruct (Forall_lookup_1 _ _ _ _ Hall Hi) as [He Hk]. split; [apply Forall_insert; [exact Hall|exact (Hk b)]|].
    destruct (connects_view _ _ _ _ _ He Ha) as [t Hv]. unfold genuine_cache in *. cbn. by rewrite Hv.
  - split; [|done]. apply Forall_insert; [done|]. apply main_goroutines_truthful.
  - pose proof (Forall_lookup_1 _ _ _ _ Hall Hi) as Ht.
    destruct (dashboard_step k (threads, mkSys w m) (threads', s') Hnow Hp Ht) as [Ht' Hc'].
    split; [apply Forall_insert; [exact Hall|exact Ht']|exact (Hc' Hc)].
  - split; [|done]. by apply Forall_insert.
Qed.

Lemma cluster_run_cache w0 c : redis (view w0) !! dashboardKey = None -> rtc cluster_step ([], w0) c -> cache_ok (past ([], w0) c) c.
Proof.
  intros Hnone Hrun. refine (rtc_ind_r (fun c => cache_ok (past ([], w0) c) c) _ _ _ _ Hrun).
  - split; [constructor|]. intros e He. cbn in He. congruence.
  - clear c Hrun. intros c c' Hrun Hs Hok.
    assert (Hok' : cache_ok (past ([], w0) c) c').
    { apply (cluster_step_cache _ c); [|done|done]. intros active l Hl. by exists c. }
    assert (Hf : fewer (past ([], w0) c) (past ([], w0) c')) by (apply past_later; by apply rtc_once).
    destruct Hok' as [Hall Hc]. split; [|by eapply genuine_cache_mono].
    eapply Forall_impl; [exact Hall|]. intros r. by apply replica_truthful_later.
Qed.

(** C17. The cached dashboard was true, in the deployment: whatever requests, rebuilding jobs,
    transitions and escalations of any number of replicas interleave, which share the cache and
    may be killed in between, and whatever the services answer, a dashboard that the cache holds
    decodes, and lists as its active incidents exactly the OPEN and INVESTIGATING work items of
    one moment since the deployment began with an empty cache, the most urgent and the newest
    first. *)
Theorem shared_dashboard_was_true `{!FormatLaws} w0 rs w e :
  redis (view w0) !! dashboardKey = None -> rtc cluster_step ([], w0) (rs, w) -> redis (view w) !! dashboardKey = Some e ->
  exists data ds c, re_value e = RStr data /\ unmarshal data = inr ds /\
    rtc cluster_step ([], w0) c /\ rtc cluster_step c (rs, w) /\
    list_answer true (tables (view c.2)) (ds_ActiveIncidents ds).
Proof.
  intros Hnone Hrun He. destruct (proj2 (cluster_run_cache w0 _ Hnone Hrun) e He) as (data & (ds & Hm & Hl) & Hv).
  assert (Ht : past ([], w0) (rs, w) true (ds_ActiveIncidents ds)).
  { destruct Hl as [Hl|(all & (c & Hc1 & Hc2 & Hl) & ->)]; [done|]. exists c. split; [done|]. split; [done|by apply list_answer_active]. }
  destruct Ht as (c & Hc1 & Hc2 & Ht). exists data, ds, c. split; [done|]. split; [by apply unmarshal_marshal|done].
Qed.
End FleetDashboard.

(** ** A deployment *)

#[local] Existing Instance MemWorld.

(** A replica builds the dashboard and is killed; another one comes up. *)
Definition building : list move :=
  comes_up 0 0 ++ [Arrive 0 DashboardRequested] ++ runs_on 0 (repeat 6%nat 10) ++ [Kill 0] ++ comes_up 1 0.

Definition one_incident : cluster := ([], outside (one_item_system StateOpen)).

#[local] Instance open_dashboard : Formats := one_dashboard (first_dashboard StateOpen).

Lemma shared_dashboard_was_true_witness :
  exists e c, redis (view (deployment building one_incident).2) !! dashboardKey = Some e /\
    rtc cluster_step one_incident c /\ list_answer true (tables (view c.2)) [one_item StateOpen].
Proof.
  destruct (redis (view (deployment building one_incident).2) !! dashboardKey) as [e|] eqn:He.
  2: { vm_compute in He. discriminate. }
  destruct (shared_dashboard_was_true (H1 := one_dashboard_laws (first_dashboard StateOpen)) one_incident.2
    (deployment building one_incident).1 (deployment building one_incident).2 e) as (data & ds & c & _ & Hds & Hrun & _ & Hl).
  - reflexivity.
  - exact (deployment_reaches building one_incident).
  - exact He.
  - injection Hds as <-. exists e, c. split; [reflexivity|]. split; [exact Hrun|exact Hl].
Defined.
