(* ===== verification/Router.v ===== *)
(** The router: [backend/internal/api/router.go]. Middleware and routes are layers that a request
    meets in the order of their registration; a handler answers, or calls [c.Next()].

    fiber is not code of the repository: the class [Fiber] stands for the matching of paths, the
    parsers and the middleware that the library brings along. *)
From Stdlib Require Import Ascii.
From S2P Require Import Prelude Float64 GoTime Models Queue RateLimiter Tables Prog Services Retry.
From S2P Require Import Postgres RedisStore Mongo StatePattern Alerting Invariant StoreSafety.
From S2P Require Import Machine Escalator Debounce Ingestion Worker Health WorkItemsAPI MemWorld System Liveness Config Auth.
From S2P Require Import Scenarios.
Local Open Scope string_scope.
Local Open Scope Z_scope.
Local Open Scope list_scope.

(** A request, and the time at which the middleware looks at its token. *)
Record Request := mkRequest {
  rq_method : string;
  rq_path : string;
  rq_ip : string;
  rq_authorization : string;
  rq_upgrade : bool;      (* [websocket.IsWebSocketUpgrade] *)
  rq_body : string;
  rq_time : Time;
}.

(** An error that a handler returns: [*fiber.Error] or another one. *)
Inductive go_error := FiberError (code : Z) (msg : string) | OtherError (msg : string).

Class Fiber := {
  (* the parameters of a path, when the pattern of a route matches it *)
  route_match : string -> string -> option (list string);
  (* whether middleware mounted at a prefix sees a path *)
  mount_match : string -> string -> bool;
  (* the status of the CORS middleware's own answer to a preflight request *)
  preflight : Request -> option Z;
  (* the token that the JWT middleware finds in the Authorization header *)
  bearer : string -> option string;
  (* the error for a request that no route takes *)
  unmatched : Request -> go_error;
  (* [c.BodyParser] *)
  parse_signal : string -> error + IngestRequest;
  parse_signals : string -> error + list IngestRequest;
  parse_transition : string -> error + WorkItemState;
  parse_rca : string -> error + RCA;
  parse_credentials : string -> error + string * string;
}.

(** Middleware mounted at a prefix without parameters sees every request that a route below it takes. *)
Definition no_parameters (prefix : string) : Prop := forall n, String.get n prefix <> Some ":"%char.

Class FiberLaws `{Fiber} : Prop :=
  mount_covers : forall prefix pattern path params, no_parameters prefix ->
    route_match (prefix +:+ pattern) path = Some params -> mount_match prefix path = true.

(** How a request ends: with an answer of the router, or in a handler. *)
Inductive outcome :=
| Answer (status : Z) (msg : string)
| Fails (err : go_error)
| Serve (a : Arrival)
| ServeSignup (parsed : error + string * string)
| ServeLogin (parsed : error + string * string)
| ServeMetrics
| ServeWebSocket.

(** [*fiber.Ctx]: the request, the parameters of the path, and [c.Locals("user")]. *)
Record Ctx := mkCtx { ctx_request : Request; ctx_params : list string; ctx_user : UserLocal }.

(** [c.Params] of the first parameter. *)
Definition Params (c : Ctx) : string := match ctx_params c with p :: _ => p | [] => "" end.

(** [inr] is [c.Next()]. *)
Abbreviation Handler := (Ctx -> outcome + Ctx) (only parsing).

Inductive layer :=
| Use (prefix : string) (h : Handler)
| Route (method : string) (pattern : string) (h : Handler).

Definition Next : Handler := fun c => inr c.

(** A route for GET serves HEAD too. *)
Definition serves (method : string) (rq : Request) : bool :=
  bool_decide (rq_method rq = method) || bool_decide (method = "GET" /\ rq_method rq = "HEAD").

(** The [ErrorHandler] of the configuration. *)
Definition ErrorHandler (err : go_error) : outcome :=
  match err with FiberError code msg => Answer code msg | OtherError msg => Answer 500 msg end.

Section Router.
Context `{Fiber} `{Crypto}.

Definition cors : Handler := fun c =>
  match preflight (ctx_request c) with Some status => inl (Answer status "") | None => inr c end.

(** [jwtware] with the [ErrorHandler] of [JWTMiddleware]; it stores a [*jwt.Token] in the locals. *)
Definition jwt_guard (secret : string) : Handler := fun c =>
  let refused := Answer 401 (sentinel_text ErrUnauthorized) in
  match bearer (rq_authorization (ctx_request c)) with
  | None => inl refused
  | Some token =>
      match JWTMiddleware secret token (rq_time (ctx_request c)) with
      | inl _ => inl refused
      | inr _ => inr (mkCtx (ctx_request c) (ctx_params c) OtherUser)
      end
  end.

(** The check of a WebSocket upgrade: [fiber.ErrUpgradeRequired] otherwise. *)
Definition upgrade_check : Handler := fun c =>
  if rq_upgrade (ctx_request c) then inr c else inl (Fails (FiberError 426 "Upgrade Required")).

(** A handler of the routes, which ends the chain. *)
Definition ends (f : Ctx -> outcome) : Handler := fun c => inl (f c).
Definition body_of (c : Ctx) : string := rq_body (ctx_request c).

Definition public_routes (startTime : Time) (workers : Z) : list layer :=
  [ Route "GET" "/health" (ends (fun _ => Serve (HealthRequested startTime workers)));
    Route "GET" "/metrics" (ends (fun _ => ServeMetrics));
    Route "POST" "/api/v1/auth/signup" (ends (fun c => ServeSignup (parse_credentials (body_of c))));
    Route "POST" "/api/v1/auth/login" (ends (fun c => ServeLogin (parse_credentials (body_of c))));
    Use "/ws" upgrade_check;
    Route "GET" "/ws/incidents" (ends (fun _ => ServeWebSocket)) ].

(** [app.Group("/api/v1", ...)] puts the prefix before the pattern of each of its routes. *)
Definition group (prefix : string) (l : layer) : layer :=
  match l with Use p h => Use (prefix +:+ p) h | Route m p h => Route m (prefix +:+ p) h end.

Definition protected_routes : list layer :=
  group "/api/v1" <$>
  [ Route "POST" "/signals" (ends (fun c => Serve (IngestRequested (rq_ip (ctx_request c)) (parse_signal (body_of c)))));
    Route "POST" "/signals/batch" (ends (fun c => Serve (BatchRequested (rq_ip (ctx_request c)) (parse_signals (body_of c)))));
    Route "GET" "/signals/:work_item_id" (ends (fun c => Serve (SignalsRequested (Params c))));
    Route "GET" "/workitems" (ends (fun _ => Serve ListRequested));
    Route "GET" "/workitems/:id" (ends (fun c => Serve (ItemRequested (Params c))));
    Route "PATCH" "/workitems/:id/transition" (ends (fun c => Serve (TransitionRequested (Params c) (parse_transition (body_of c)))));
    Route "POST" "/workitems/:id/rca" (ends (fun c => Serve (RCASubmitted (Params c) (parse_rca (body_of c)) (ctx_user c))));
    Route "GET" "/workitems/:id/rca" (ends (fun c => Serve (RCARequested (Params c))));
    Route "GET" "/dashboard" (ends (fun _ => Serve DashboardRequested)) ].

(** The recover and logger middleware call the next handler (no handler panics:
    [System.system_invariant]); the last layer only stores the hub in the locals. *)
Definition SetupRoutes (secret : string) (startTime : Time) (workers : Z) : list layer :=
  [Use "/" Next; Use "/" cors; Use "/" Next] ++ public_routes startTime workers ++
  [Use "/api/v1" (jwt_guard secret)] ++ protected_routes ++ [Use "/" Next].

(** The chain, from the layers that are left. *)
Fixpoint dispatch (layers : list layer) (c : Ctx) : outcome :=
  match layers with
  | [] => Fails (unmatched (ctx_request c))
  | Use prefix h :: rest =>
      if mount_match prefix (rq_path (ctx_request c))
      then match h c with inl o => o | inr c' => dispatch rest c' end
      else dispatch rest c
  | Route m pattern h :: rest =>
      if serves m (ctx_request c) then
        match route_match pattern (rq_path (ctx_request c)) with
        | Some params =>
            match h (mkCtx (ctx_request c) params (ctx_user c)) with inl o => o | inr c' => dispatch rest c' end
        | None => dispatch rest c
        end
      else dispatch rest c
  end.

Definition route (secret : string) (startTime : Time) (workers : Z) (rq : Request) : outcome :=
  match dispatch (SetupRoutes secret startTime workers) (mkCtx rq [] NoUser) with
  | Fails err => ErrorHandler err
  | o => o
  end.
End Router.

(** ** What the chain lets through *)

(** The effects that change nothing. *)
Definition reads_only {B} (e : eff B) : Prop :=
  match e with
  | Ext e => match e with Now | PgPing | RdPing => True | _ => False end
  | Atomic f => forall m, (f m).2 = m
  | _ => False
  end.

(** The stores and the memory of the process are as they were; time may have passed. *)
Definition untouched `{World} (s s' : Sys) : Prop :=
  tables (seen s') = tables (seen s) /\ redis (seen s') = redis (seen s) /\ docs (seen s') = docs (seen s) /\ mem s' = mem s.

#[export] Instance untouched_preorder `{World} : PreOrder untouched.
Proof. split; [done|]. intros s1 s2 s3 (? & ? & ? & ?) (? & ? & ? & ?). repeat split; congruence. Qed.

Lemma reads_only_sees `{World} {A} (p : io A) s0 s : only False (@reads_only) p -> untouched s0 s ->
  sees p (fun _ s' => untouched s0 s') s.
Proof.
  revert s. induction p as [a|msg|B e k IH]; intros s Hp Hu; [by apply sees_ret|done|].
  destruct Hp as [He Hk]. intros s1 <- b s2 Hs. split; [done|]. apply IH; [done|]. etrans; [exact Hu|].
  destruct e as [B e|B f|B f| |j]; cbn in He, Hs; try done.
  - destruct Hs as [Ha Hm]. apply answer_allowed in Ha. change (allowed e (seen s) b (seen s2)) in Ha.
    destruct e; cbn in He, Ha; try done; unfold untouched; [destruct Ha as [_ ->]|rewrite Ha..]; done.
  - destruct Hs as [Ho Hf]. unfold untouched, seen. rewrite Ho. specialize (He (mem s)). rewrite <- Hf in He. done.
Qed.

Lemma Health_reads startTime workers : only False (@reads_only) (discard (Health startTime workers)).
Proof. unfold discard. crawl. Qed.

Section Guard.
Context `{Fiber} `{Crypto}.

(** A request with a token that the JWT library accepts. *)
Definition authorized (secret : string) (rq : Request) : Prop :=
  exists token c, bearer (rq_authorization rq) = Some token /\ Verify secret token (rq_time rq) = Some c.

(** The layer has a say about the request. *)
Definition concerns (rq : Request) (l : layer) : Prop :=
  match l with
  | Use prefix _ => mount_match prefix (rq_path rq) = true
  | Route m pattern _ => serves m rq = true /\ is_Some (route_match pattern (rq_path rq))
  end.

(** The handler of the layer. *)
Definition layer_handler (l : layer) : Handler := match l with Use _ h => h | Route _ _ h => h end.

(** Along the chain: what ends it is one of its handlers, for a context of the same request in which
    [I] holds of the user; each middleware that passes the request on keeps [I]. *)
Lemma dispatch_inv (I : UserLocal -> Prop) layers c o :
  (forall l c c', l ∈ layers -> layer_handler l c = inr c' -> I (ctx_user c) -> ctx_request c' = ctx_request c /\ I (ctx_user c')) ->
  I (ctx_user c) -> dispatch layers c = o ->
  o = Fails (unmatched (ctx_request c)) \/
  exists l c', l ∈ layers /\ concerns (ctx_request c) l /\ ctx_request c' = ctx_request c /\ I (ctx_user c') /\ layer_handler l c' = inl o.
Proof.
  revert c. induction layers as [|l layers IH]; intros c Hkeep HI Hd; cbn in Hd; [by left|].
  assert (Hrest : forall c', ctx_request c' = ctx_request c -> I (ctx_user c') -> dispatch layers c' = o ->
    o = Fails (unmatched (ctx_request c)) \/
    exists l' c', l' ∈ l :: layers /\ concerns (ctx_request c) l' /\ ctx_request c' = ctx_request c /\ I (ctx_user c') /\ layer_handler l' c' = inl o).
  { intros c' Hc HI' Hd'. destruct (IH c') as [Ho|(l' & c'' & Hl & Hcon & Hrq & HIc & Hh)]; [|done|done|left; congruence|right].
    - intros l' c1 c2 Hl. apply Hkeep. by right.
    - rewrite Hc in Hcon, Hrq. exists l', c''. by split; [right|]. }
  assert (Hhere : forall c', ctx_request c' = ctx_request c -> I (ctx_user c') -> concerns (ctx_request c) l ->
    match layer_handler l c' with inl o => o | inr c' => dispatch layers c' end = o ->
    o = Fails (unmatched (ctx_request c)) \/
    exists l' c', l' ∈ l :: layers /\ concerns (ctx_request c) l' /\ ctx_request c' = ctx_request c /\ I (ctx_user c') /\ layer_handler l' c' = inl o).
  { intros c' Hc HI' Hcon Hd'. destruct (layer_handler l c') as [o'|c1] eqn:Hl.
    - subst o'. right. exists l, c'. by split; [left|].
    - destruct (Hkeep l c' c1 ltac:(by left) Hl HI') as [Hc1 HI1]. apply (Hrest c1); [congruence|done|done]. }
  destruct l as [prefix h|m pattern h].
  - destruct (mount_match prefix (rq_path (ctx_request c))) eqn:Hm; [by apply (Hhere c)|by apply (Hrest c)].
  - destruct (serves m (ctx_request c)) eqn:Hs; [|by apply (Hrest c)].
    destruct (route_match pattern (rq_path (ctx_request c))) as [params|] eqn:Hr; [|by apply (Hrest c)].
    by apply (Hhere (mkCtx (ctx_request c) params (ctx_user c))); [..|split; [|eexists]|].
Qed.

(** A chain in two parts: the first ends it, or the second goes on with the same request. *)
Lemma dispatch_app layers1 layers2 c o :
  (forall l c c', l ∈ layers1 -> layer_handler l c = inr c' -> ctx_request c' = ctx_request c) ->
  dispatch (layers1 ++ layers2) c = o ->
  (exists l c', l ∈ layers1 /\ concerns (ctx_request c) l /\ ctx_request c' = ctx_request c /\ layer_handler l c' = inl o) \/
  exists c', ctx_request c' = ctx_request c /\ dispatch layers2 c' = o.
Proof.
  revert c. induction layers1 as [|l layers1 IH]; intros c Hkeep Hd; [by right; exists c|].
  assert (Hrest : forall c', ctx_request c' = ctx_request c -> dispatch (layers1 ++ layers2) c' = o ->
    (exists l' c', l' ∈ l :: layers1 /\ concerns (ctx_request c) l' /\ ctx_request c' = ctx_request c /\ layer_handler l' c' = inl o) \/
    exists c', ctx_request c' = ctx_request c /\ dispatch layers2 c' = o).
  { intros c' Hc Hd'. destruct (IH c') as [(l' & c1 & Hl & Hcon & Hr & Hh)|(c1 & Hr & Hh)]; [|done|left|right].
    - intros l' c1 c2 Hl. apply Hkeep. by right.
    - rewrite Hc in Hcon. exists l', c1. split; [by right|]. split; [done|]. split; [congruence|done].
    - exists c1. split; [congruence|done]. }
  assert (Hhere : forall c', ctx_request c' = ctx_request c -> concerns (ctx_request c) l ->
    match layer_handler l c' with inl o => o | inr c' => dispatch (layers1 ++ layers2) c' end = o ->
    (exists l' c', l' ∈ l :: layers1 /\ concerns (ctx_request c) l' /\ ctx_request c' = ctx_request c /\ layer_handler l' c' = inl o) \/
    exists c', ctx_request c' = ctx_request c /\ dispatch layers2 c' = o).
  { intros c' Hc Hcon Hd'. destruct (layer_handler l c') as [o'|c1] eqn:Hl.
    - subst o'. left. exists l, c'. by split; [left|].
    - apply (Hrest c1); [|done]. rewrite <- Hc. by apply (Hkeep l); [left|]. }
  cbn in Hd. destruct l as [prefix h|m pattern h].
  - destruct (mount_match prefix (rq_path (ctx_request c))) eqn:Hm; [by apply (Hhere c)|by apply (Hrest c)].
  - destruct (serves m (ctx_request c)) eqn:Hs; [|by apply (Hrest c)].
    destruct (route_match pattern (rq_path (ctx_request c))) as [params|] eqn:Hr; [|by apply (Hrest c)].
    by apply (Hhere (mkCtx (ctx_request c) params (ctx_user c))); [|split; [|eexists]|].
Qed.

Lemma api_prefix : no_parameters "/api/v1".
Proof. intros n. by do 8 (destruct n as [|n]; [done|]). Qed.

Lemma guard_refuses secret c : ~ authorized secret (ctx_request c) ->
  jwt_guard secret c = inl (Answer 401 (sentinel_text ErrUnauthorized)).
Proof.
  intros Hno. unfold jwt_guard, JWTMiddleware. destruct (bearer _) as [token|] eqn:Hb; [|done].
  destruct (Verify secret token _) as [cl|] eqn:Hv; [|done]. destruct Hno. by exists token, cl.
Qed.

(** The layers before the guard. *)
Definition before_guard (startTime : Time) (workers : Z) : list layer :=
  [Use "/" Next; Use "/" cors; Use "/" Next] ++ public_routes startTime workers.

Lemma before_guard_keeps startTime workers l c c' : l ∈ before_guard startTime workers -> layer_handler l c = inr c' -> c' = c.
Proof.
  unfold before_guard, public_routes. cbn [app]. rewrite !elem_of_cons, elem_of_nil.
  intros Hl. repeat destruct Hl as [->|Hl]; cbn; try done; try (by intros [= <-]).
  - unfold cors. destruct (preflight _); [done|by intros [= <-]].
  - unfold upgrade_check. destruct (rq_upgrade _); [by intros [= <-]|done].
Qed.

Lemma protected_routes_cover l : l ∈ protected_routes -> exists m pattern f, l = Route m ("/api/v1" +:+ pattern) (ends f).
Proof.
  unfold protected_routes. intros (l0 & -> & Hl)%list_elem_of_fmap. rewrite !elem_of_cons, elem_of_nil in Hl.
  by repeat destruct Hl as [->|Hl]; [do 3 eexists..|].
Qed.

Lemma protected_keep (I : UserLocal -> Prop) l c c' : l ∈ protected_routes ++ [Use "/" Next] -> layer_handler l c = inr c' ->
  I (ctx_user c) -> ctx_request c' = ctx_request c /\ I (ctx_user c').
Proof.
  intros [(m & p & f & ->)%protected_routes_cover|Hl%list_elem_of_singleton]%elem_of_app Hh HI; [done|].
  subst l. by injection Hh as <-.
Qed.

(** Without an accepted token nothing but the layers before the guard serves a request. *)
Lemma dispatch_unauthorized `{!FiberLaws} secret startTime workers rq o : ~ authorized secret rq ->
  dispatch (SetupRoutes secret startTime workers) (mkCtx rq [] NoUser) = o ->
  (exists l c, l ∈ before_guard startTime workers /\ layer_handler l c = inl o) \/
  o = Answer 401 (sentinel_text ErrUnauthorized) \/ o = Fails (unmatched rq).
Proof.
  intros Hno Hd. unfold SetupRoutes in Hd. rewrite app_assoc in Hd. fold (before_guard startTime workers) in Hd.
  destruct (dispatch_app (before_guard startTime workers) _ _ _ ltac:(by intros l c c' Hl ->%(before_guard_keeps _ _ _ _ _ Hl)) Hd)
    as [(l & c & Hl & _ & _ & Hh)|(c & Hc & Hd')]; [left; by exists l, c|right].
  cbn in Hc. change (dispatch (Use "/api/v1" (jwt_guard secret) :: protected_routes ++ [Use "/" Next]) c = o) in Hd'.
  cbn [dispatch] in Hd'. rewrite Hc in Hd'. destruct (mount_match "/api/v1" (rq_path rq)) eqn:Hm.
  { rewrite guard_refuses in Hd' by (by rewrite Hc). by left. }
  right. destruct (dispatch_inv (fun _ => True) _ _ _ (protected_keep _) I Hd') as [->|(l & c' & Hl & Hcon & _ & _ & Hh)];
    [by rewrite Hc|].
  apply elem_of_app in Hl as [(m & p & f & ->)%protected_routes_cover|Hl%list_elem_of_singleton]; [|by subst l].
  destruct Hcon as [_ [params Hr]]. rewrite Hc in Hr. by rewrite (mount_covers _ _ _ _ api_prefix Hr) in Hm.
Qed.

Lemma authorized_dec secret rq : authorized secret rq \/ ~ authorized secret rq.
Proof.
  unfold authorized. destruct (bearer (rq_authorization rq)) as [token|]; [|right; by intros (? & ? & ? & _)].
  destruct (Verify secret token (rq_time rq)) as [c|] eqn:Hv; [left; by exists token, c|right].
  intros (? & c & [= <-] & Hv'). congruence.
Qed.

Lemma before_guard_serves startTime workers l c a : l ∈ before_guard startTime workers ->
  layer_handler l c = inl (Serve a) -> a = HealthRequested startTime workers.
Proof.
  unfold before_guard, public_routes. cbn [app]. rewrite !elem_of_cons, elem_of_nil.
  intros Hl. repeat destruct Hl as [->|Hl]; cbn; try done; try (by intros [= <-]).
  - unfold cors. by destruct (preflight _).
  - unfold upgrade_check. by destruct (rq_upgrade _).
Qed.

Lemma route_serves secret startTime workers rq a : route secret startTime workers rq = Serve a ->
  dispatch (SetupRoutes secret startTime workers) (mkCtx rq [] NoUser) = Serve a.
Proof. unfold route. by destruct (dispatch _ _) as [| [] | | | | |]. Qed.

(** Behind the guard it is a protected route that serves. *)
Lemma protected_serves (I : UserLocal -> Prop) c a : I (ctx_user c) -> dispatch (protected_routes ++ [Use "/" Next]) c = Serve a ->
  exists l c', l ∈ protected_routes /\ concerns (ctx_request c) l /\ ctx_request c' = ctx_request c /\ I (ctx_user c') /\
    layer_handler l c' = inl (Serve a).
Proof.
  intros HI Hd. destruct (dispatch_inv I _ _ _ (protected_keep I) HI Hd) as [?|(l & c' & Hl & Hcon & Hc & HIc & Hh)]; [done|].
  apply elem_of_app in Hl as [Hl|Hl%list_elem_of_singleton]; [by exists l, c'|by subst l].
Qed.

(** The RCA handler gets the user that the context has. *)
Lemma rca_route_user l c id parsed local_user : l ∈ protected_routes ->
  layer_handler l c = inl (Serve (RCASubmitted id parsed local_user)) -> local_user = ctx_user c.
Proof.
  unfold protected_routes. intros (l0 & -> & Hl)%list_elem_of_fmap. rewrite !elem_of_cons, elem_of_nil in Hl.
  repeat destruct Hl as [->|Hl]; cbn; try discriminate; [|done]. by intros [= _ _ ->].
Qed.

(** Without an accepted token only the health check is served of the handlers of the state. *)
Lemma route_unauthorized `{!FiberLaws} secret startTime workers rq a : ~ authorized secret rq ->
  route secret startTime workers rq = Serve a -> a = HealthRequested startTime workers.
Proof.
  intros Hno Hr%route_serves. destruct (dispatch_unauthorized _ _ _ _ _ Hno Hr) as [(l & c & Hl & Hh)|[|]]; [|done..].
  by eapply before_guard_serves.
Qed.

(** A request for a protected endpoint, which no public route takes, is then refused. *)
Lemma protected_refused `{!FiberLaws} secret startTime workers rq l : ~ authorized secret rq ->
  l ∈ protected_routes -> concerns rq l -> preflight rq = None ->
  Forall (fun l' => ~ concerns rq l') (public_routes startTime workers) ->
  route secret startTime workers rq = Answer 401 (sentinel_text ErrUnauthorized).
Proof.
  intros Hno Hl Hcon Hpre Hpub. unfold route, SetupRoutes. rewrite app_assoc. fold (before_guard startTime workers).
  apply protected_routes_cover in Hl as (m & p & f & ->). destruct Hcon as [_ [params Hr]].
  pose proof (mount_covers _ _ _ _ api_prefix Hr) as Hm.
  destruct (dispatch_app (before_guard startTime workers) ([Use "/api/v1" (jwt_guard secret)] ++ protected_routes ++ [Use "/" Next])
    (mkCtx rq [] NoUser) _ ltac:(by intros l c c' Hl ->%(before_guard_keeps _ _ _ _ _ Hl)) eq_refl)
    as [(l & c & Hl & Hcon & Hc & Hh)|(c & Hc & <-)].
  - exfalso. change (concerns rq l) in Hcon. change (ctx_request c = rq) in Hc. unfold before_guard in Hl.
    apply elem_of_app in Hl as [Hl|Hl].
    + apply elem_of_cons in Hl as [->|Hl]; [discriminate Hh|]. apply elem_of_cons in Hl as [->|Hl].
      { cbn [layer_handler] in Hh. unfold cors in Hh. rewrite Hc, Hpre in Hh. discriminate Hh. }
      apply list_elem_of_singleton in Hl as ->. discriminate Hh.
    + rewrite Forall_forall in Hpub. by apply (Hpub l).
  - cbn in Hc. cbn [app dispatch]. rewrite Hc, Hm, guard_refuses by (by rewrite Hc). done.
Qed.

(** The layers that serve no WebSocket. *)
Definition no_websocket (l : layer) : Prop := forall c, layer_handler l c <> inl ServeWebSocket.

Lemma protected_no_websocket secret l : l ∈ Use "/api/v1" (jwt_guard secret) :: protected_routes ++ [Use "/" Next] -> no_websocket l.
Proof.
  unfold protected_routes. rewrite elem_of_cons, elem_of_app, list_elem_of_singleton, list_elem_of_fmap.
  intros [->|[(l0 & -> & Hl)| ->]] c; cbn.
  - unfold jwt_guard. destruct (bearer _); [|done]. by destruct (JWTMiddleware _ _ _).
  - rewrite !elem_of_cons, elem_of_nil in Hl. by repeat destruct Hl as [->|Hl].
  - done.
Qed.

Lemma dispatch_no_websocket layers c : Forall no_websocket layers -> dispatch layers c <> ServeWebSocket.
Proof.
  revert c. induction layers as [|l layers IH]; intros c Hall; [done|]. apply Forall_cons in Hall as [Hl Hall].
  destruct l as [prefix h|m pattern h]; cbn.
  - destruct (mount_match _ _); [|by apply IH]. specialize (Hl c). cbn in Hl.
    destruct (h c); [by intros ->|by apply IH].
  - destruct (serves _ _); [|by apply IH]. destruct (route_match _ _) as [params|]; [|by apply IH].
    specialize (Hl (mkCtx (ctx_request c) params (ctx_user c))). cbn in Hl. destruct (h _); [by intros ->|by apply IH].
Qed.

Lemma ws_prefix : no_parameters "/ws".
Proof. intros n. by do 4 (destruct n as [|n]; [done|]). Qed.

(** Who gets a WebSocket asked for one. *)
Lemma websocket_upgrades `{!FiberLaws} secret startTime workers rq :
  route secret startTime workers rq = ServeWebSocket -> rq_upgrade rq = true.
Proof.
  intros Hr. assert (Hd : dispatch (SetupRoutes secret startTime workers) (mkCtx rq [] NoUser) = ServeWebSocket)
    by (revert Hr; unfold route; by destruct (dispatch _ _) as [| [] | | | | |]).
  change (dispatch (([Use "/" Next; Use "/" cors; Use "/" Next] ++ take 4 (public_routes startTime workers)) ++
    Use "/ws" upgrade_check :: Route "GET" ("/ws" +:+ "/incidents") (ends (fun _ => ServeWebSocket)) ::
    (Use "/api/v1" (jwt_guard secret) :: protected_routes ++ [Use "/" Next])) (mkCtx rq [] NoUser) = ServeWebSocket) in Hd.
  apply dispatch_app in Hd as [(l & c & Hl & _ & _ & Hh)|(c & Hc & Hd)].
  - exfalso. cbn in Hl. rewrite !elem_of_cons, elem_of_nil in Hl. repeat destruct Hl as [->|Hl]; try done.
    cbn in Hh. unfold cors in Hh. by destruct (preflight _).
  - cbn in Hc. cbn [dispatch] in Hd. rewrite Hc in Hd. destruct (mount_match "/ws" (rq_path rq)) eqn:Hm.
    + unfold upgrade_check in Hd at 1. rewrite Hc in Hd. by destruct (rq_upgrade rq).
    + exfalso. destruct (route_match ("/ws" +:+ "/incidents") (rq_path rq)) as [params|] eqn:Hp; [by rewrite (mount_covers _ _ _ _ ws_prefix Hp) in Hm|].
      assert (Hrest : dispatch (Use "/api/v1" (jwt_guard secret) :: protected_routes ++ [Use "/" Next]) c = ServeWebSocket)
        by (cbn [dispatch]; rewrite Hc; by destruct (serves "GET" rq)).
      revert Hrest. apply dispatch_no_websocket, Forall_forall. intros l. apply protected_no_websocket.
  - intros l c c' Hl Hh. rewrite (before_guard_keeps startTime workers l c c'); [done| |done].
    unfold before_guard. apply elem_of_app in Hl as [Hl|Hl]; apply elem_of_app; [by left|right].
    rewrite <- (take_drop 4 (public_routes startTime workers)). apply elem_of_app. by left.
Qed.

(** The submitter of an RCA is not authenticated: a request that reaches the RCA handler did
    pass the JWT middleware, but the middleware leaves a [*jwt.Token] where the handler looks
    for a [fiber.Map], so that the RCA it submits keeps the [submitted_by] of the request body,
    whoever the token belongs to. *)
Theorem rca_submitter_is_not_authenticated `{!FiberLaws} secret startTime workers rq id parsed local_user :
  route secret startTime workers rq = Serve (RCASubmitted id parsed local_user) ->
  authorized secret rq /\ local_user = OtherUser /\
  forall uuid t rca, rca_SubmittedBy (forced_rca id uuid t local_user rca) = rca_SubmittedBy rca.
Proof.
  intros Hr%route_serves.
  destruct (authorized_dec secret rq) as [Hauth|Hno].
  2: { destruct (dispatch_unauthorized _ _ _ _ _ Hno Hr) as [(l & c & Hl & Hh)|[|]]; [|done..].
    discriminate (before_guard_serves _ _ _ _ _ Hl Hh). }
  split; [done|]. cut (local_user = OtherUser); [by intros ->|].
  unfold SetupRoutes in Hr. rewrite app_assoc in Hr. fold (before_guard startTime workers) in Hr.
  destruct (dispatch_app (before_guard startTime workers) _ _ _ ltac:(by intros l c c' Hl ->%(before_guard_keeps _ _ _ _ _ Hl)) Hr)
    as [(l & c & Hl & _ & _ & Hh)|(c & Hc & Hr')]; [discriminate (before_guard_serves _ _ _ _ _ Hl Hh)|].
  change (ctx_request c = rq) in Hc. cbn [app dispatch] in Hr'. rewrite Hc in Hr'.
  destruct (mount_match "/api/v1" (rq_path rq)) eqn:Hm.
  - unfold jwt_guard in Hr'. destruct (bearer _) as [token|]; [|discriminate Hr'].
    destruct (JWTMiddleware _ _ _) as [code|cl]; [discriminate Hr'|].
    destruct (protected_serves (fun u => u = OtherUser) (mkCtx (ctx_request c) (ctx_params c) OtherUser) _ eq_refl Hr') as (l & c' & Hl & _ & _ & Hu & Hh).
    rewrite <- Hu. by apply (rca_route_user l c' id parsed).
  - destruct (protected_serves (fun _ => True) _ _ I Hr') as (l & c' & Hl & Hcon & _).
    rewrite Hc in Hcon. apply protected_routes_cover in Hl as (m & p & f & ->). destruct Hcon as [_ [params Hp]].
    by rewrite (mount_covers _ _ _ _ api_prefix Hp) in Hm.
Qed.
End Guard.

(** ** A toy library: a parameter is what comes before the next slash *)

Fixpoint until_slash (s : string) : string * string :=
  match s with
  | "" => ("", "")
  | String c rest =>
      if bool_decide (c = "/"%char) then ("", s)
      else let '(name, rest) := until_slash rest in (String c name, rest)
  end.

Fixpoint toy_match (fuel : nat) (pattern path : string) : option (list string) :=
  match fuel with
  | O => None
  | S fuel =>
      match pattern with
      | "" => if bool_decide (path = "") then Some [] else None
      | String c pattern =>
          if bool_decide (c = ":"%char) then
            let '(value, path) := until_slash path in
            if bool_decide (value = "") then None else cons value <$> toy_match fuel (until_slash pattern).2 path
          else
            match path with
            | "" => None
            | String c' path => if bool_decide (c = c') then toy_match fuel pattern path else None
            end
      end
  end.

#[local] Instance toy_fiber : Fiber :=
  {| route_match := fun pattern path => toy_match (S (String.length pattern)) pattern path;
     mount_match := fun prefix path => String.prefix prefix path;
     preflight := fun rq => if bool_decide (rq_method rq = "OPTIONS") then Some 204 else None;
     bearer := fun header => if String.prefix "Bearer " header then Some (String.substring 7 (String.length header - 7) header) else None;
     unmatched := fun rq => FiberError 404 ("Cannot " +:+ rq_method rq +:+ " " +:+ rq_path rq);
     parse_signal := fun _ => inl (EText "unexpected end of JSON input");
     parse_signals := fun _ => inl (EText "unexpected end of JSON input");
     parse_transition := fun body => inr body;
     parse_rca := fun _ => inr example_RCA;
     parse_credentials := fun _ => inr ("alice", secret_pw) |}.

Lemma toy_match_prefix fuel prefix pattern path params : no_parameters prefix ->
  toy_match fuel (prefix +:+ pattern) path = Some params -> String.prefix prefix path = true.
Proof.
  revert fuel path params. induction prefix as [|c prefix IH]; intros fuel path params Hno Hm; [by destruct path|].
  destruct fuel as [|fuel]; [done|]. change (String c prefix +:+ pattern) with (String c (prefix +:+ pattern)) in Hm.
  cbn [toy_match] in Hm.
  rewrite bool_decide_false in Hm by (intros Hc; apply (Hno O); rewrite Hc; reflexivity).
  destruct path as [|c' path]; [done|]. case_bool_decide as Hc; [|done]. subst c'. cbn.
  destruct (ascii_dec c c) as [_|]; [|done]. apply (IH fuel path params); [|done]. intros n. apply (Hno (S n)).
Qed.

#[local] Instance toy_fiber_laws : FiberLaws.
Proof. intros prefix pattern path params. apply toy_match_prefix. Qed.

#[local] Existing Instance toy_crypto.
#[local] Existing Instance MemWorld.
#[local] Existing Instance plain_formats.

Definition default_secret : string := jwtSecret no_env.
Definition alice : string := "Bearer token " +:+ default_secret.

(** A request of Alice's, or one without a token. *)
Definition signed (method path : string) : Request := mkRequest method path "10.0.0.1" alice false "RESOLVED" 0.
Definition unsigned (method path : string) : Request := mkRequest method path "10.0.0.1" "" false "RESOLVED" 0.

Definition toy_route (rq : Request) : outcome := route default_secret 0 20 rq.

(** Every endpoint of [SetupRoutes], and some requests that are turned away. *)
Example endpoints :
  [toy_route (unsigned "GET" "/health"); toy_route (unsigned "GET" "/metrics");
   toy_route (unsigned "POST" "/api/v1/auth/signup"); toy_route (unsigned "POST" "/api/v1/auth/login");
   toy_route (unsigned "GET" "/ws/incidents"); toy_route (unsigned "POST" "/api/v1/signals"); toy_route (unsigned "GET" "/nowhere");
   toy_route (signed "POST" "/api/v1/signals"); toy_route (signed "POST" "/api/v1/signals/batch");
   toy_route (signed "GET" "/api/v1/signals/wi-1"); toy_route (signed "GET" "/api/v1/workitems");
   toy_route (signed "GET" "/api/v1/workitems/wi-1"); toy_route (signed "PATCH" "/api/v1/workitems/wi-1/transition");
   toy_route (signed "POST" "/api/v1/workitems/wi-1/rca"); toy_route (signed "GET" "/api/v1/workitems/wi-1/rca");
   toy_route (signed "GET" "/api/v1/dashboard")] =
  [Serve (HealthRequested 0 20); ServeMetrics; ServeSignup (inr ("alice", secret_pw)); ServeLogin (inr ("alice", secret_pw));
   Answer 426 "Upgrade Required"; Answer 401 "auth: unauthorized"; Answer 404 "Cannot GET /nowhere";
   Serve (IngestRequested "10.0.0.1" (inl (EText "unexpected end of JSON input")));
   Serve (BatchRequested "10.0.0.1" (inl (EText "unexpected end of JSON input")));
   Serve (SignalsRequested "wi-1"); Serve ListRequested; Serve (ItemRequested "wi-1");
   Serve (TransitionRequested "wi-1" (inr StateResolved)); Serve (RCASubmitted "wi-1" (inr example_RCA) OtherUser);
   Serve (RCARequested "wi-1"); Serve DashboardRequested].
Proof. vm_compute. reflexivity. Qed.

Lemma rca_submitter_is_not_authenticated_witness :
  rca_SubmittedBy (forced_rca "wi-1" "u" 0 OtherUser example_RCA) = rca_SubmittedBy example_RCA.
Proof.
  apply (rca_submitter_is_not_authenticated default_secret 0 20 (signed "POST" "/api/v1/workitems/wi-1/rca")
    "wi-1" (inr example_RCA) OtherUser).
  vm_compute. reflexivity.
Defined.
