(* ===== verification/Gateway.v ===== *)
(** The router and the accounts together: who gets to the protected endpoints. *)
From S2P Require Import Prelude Float64 GoTime Models Queue RateLimiter Tables Prog Services Retry.
From S2P Require Import Health System Config Auth Router.
Local Open Scope string_scope.
Local Open Scope Z_scope.
Local Open Scope list_scope.

(** What the JWT library documents of verification: the claims are those that were signed, and the
    token has not expired. *)
Class TokenLaws `{Crypto} : Prop :=
  verify_sound : forall c c' secret token t,
    SignedString c secret = inr token -> Verify secret token t = Some c' -> c' = c /\ Unix t < exp c.

(** A token that a handler handed out: to whom, against which password. *)
Record grant := mkGrant { gr_token : string; gr_name : string; gr_password : string; gr_draws : draws }.

Definition granted (d : draws) (parsed : error + string * string) (body : AuthBody) : list grant :=
  match parsed, body with
  | inr (name, password), Token token => [mkGrant token name password d]
  | _, _ => []
  end.

(** The accounts, and the tokens that were handed out so far. *)
Record gateway := mkGateway { gw_users : gmap string user; gw_grants : list grant }.

Section Gateway.
Context `{Fiber} `{Crypto} (env : Env) (startTime : Time) (workers : Z).

(** A request goes through the chain, to one of the account handlers or elsewhere. *)
Definition gateway_step (g : gateway) (r : Request * draws) : gateway :=
  let '(rq, d) := r in
  match route (jwtSecret env) startTime workers rq with
  | ServeSignup parsed =>
      let '(reply, users) := Signup env d parsed (gw_users g) in
      mkGateway users (gw_grants g ++ granted d parsed reply.2)
  | ServeLogin parsed => mkGateway (gw_users g) (gw_grants g ++ granted d parsed (Login env d parsed (gw_users g)).2)
  | _ => g
  end.

Definition gateway_run (requests : list (Request * draws)) : gateway := fold_left gateway_step requests (mkGateway ∅ []).

(** The account is there, the password is its password, and the token is its token. *)
Definition deserved (users : gmap string user) (gr : grant) : Prop :=
  makeToken env (gr_draws gr) (gr_name gr) = inr (gr_token gr) /\
  exists u, users !! gr_name gr = Some u /\ CompareHashAndPassword (u_PasswordHash u) (gr_password gr) = None.

Lemma deserved_later users users' gr : users ⊆ users' -> deserved users gr -> deserved users' gr.
Proof. intros Hsub [Ht (u & Hu & Hc)]. split; [done|]. exists u. split; [by eapply lookup_weaken|done]. Qed.

(** A token is granted to who gives the password of an account, also when it was just created. *)
Lemma Login_deserved d parsed users : users_ok users -> Forall (deserved users) (granted d parsed (Login env d parsed users).2).
Proof.
  intros Hok. destruct parsed as [err|[name pw]]; [constructor|]. cbn [Login]. unfold verify.
  destruct (users !! name) as [u|] eqn:Hu; [|constructor]. destruct (CompareHashAndPassword _ _) eqn:Hc; [constructor|].
  rewrite (proj1 (Hok name u Hu)). unfold token_response. destruct (makeToken env d name) as [err|tok] eqn:Ht; [constructor|].
  repeat constructor; [done|]. by exists u.
Qed.

Lemma Signup_deserved `{!CryptoLaws} d parsed users :
  Forall (deserved (Signup env d parsed users).2) (granted d parsed (Signup env d parsed users).1.2).
Proof.
  destruct parsed as [err|[name pw]]; [constructor|]. destruct (Signup env d (inr (name, pw)) users) as [[status body] users'] eqn:Hs.
  destruct body as [msg|tok]; [constructor|]. assert (Hst : status = 201).
  { cbn in Hs. destruct (len name <? 3), (len pw <? 6); try done. unfold create in Hs. destruct (users !! name); [done|].
    destruct (GenerateFromPassword _ _ _); [done|]. unfold token_response in Hs. destruct (makeToken _ _ _); cbn in Hs; congruence. }
  subst status. destruct (Signup_created env d name pw users tok) as (_ & _ & _ & Ht & hash & Hh & Hu); [by rewrite Hs|].
  rewrite Hs in Hu. cbn in Hu |- *. repeat constructor; [done|]. eexists. split; [exact Hu|]. by eapply compare_generated.
Qed.

Definition gateway_ok (g : gateway) : Prop := users_ok (gw_users g) /\ Forall (deserved (gw_users g)) (gw_grants g).

Lemma gateway_step_ok `{!CryptoLaws} g r : gateway_ok g -> gateway_ok (gateway_step g r).
Proof.
  intros [Hok Hall]. destruct r as [rq d]. unfold gateway_step. destruct (route _ _ _ rq) as [| | |parsed|parsed| |]; try done.
  - pose proof (Signup_keeps env d parsed (gw_users g)) as Hsub. pose proof (Signup_ok env d parsed _ Hok) as Hok'.
    pose proof (Signup_deserved d parsed (gw_users g)) as Hd. destruct (Signup env d parsed (gw_users g)) as [reply users]. cbn in *.
    split; [done|]. apply Forall_app. split; [|done]. eapply Forall_impl; [exact Hall|]. intros gr. by apply deserved_later.
  - split; [done|]. apply Forall_app. split; [done|]. by apply Login_deserved.
Qed.

Lemma gateway_run_ok `{!CryptoLaws} requests : gateway_ok (gateway_run requests).
Proof.
  unfold gateway_run. assert (Hstart : gateway_ok (mkGateway ∅ [])) by (split; [apply map_Forall_empty|constructor]).
  revert Hstart. generalize (mkGateway ∅ []). induction requests as [|r requests IH]; intros g Hg; cbn; [done|]. by apply IH, gateway_step_ok.
Qed.

(** The tokens that the JWT library accepts are those that this process handed out: nobody can sign
    with the secret but the process. *)
Definition unforgeable (g : gateway) (rq : Request) : Prop := forall token c,
  bearer (rq_authorization rq) = Some token -> Verify (jwtSecret env) token (rq_time rq) = Some c ->
  exists gr, gr ∈ gw_grants g /\ gr_token gr = token.

(** A request that is served, other than the health check, carries a token that the library accepts. *)
Lemma route_authorized `{!FiberLaws} rq a : route (jwtSecret env) startTime workers rq = Serve a ->
  a <> HealthRequested startTime workers -> authorized (jwtSecret env) rq.
Proof.
  intros Hr Ha. destruct (authorized_dec (jwtSecret env) rq) as [Hyes|Hno]; [done|]. destruct Ha. apply route_serves in Hr.
  destruct (dispatch_unauthorized _ _ _ _ _ Hno Hr) as [(l & c & Hl & Hh)|[|]]; [|done..]. by eapply before_guard_serves.
Qed.

(** Only account holders get in: after any requests, a request that reaches a handler of the
    state behind the API, other than the health check, carries a token that this process handed
    out for a signup or a login with the name and password of an account, which still exists,
    less than 24 hours before by the clock; provided nobody else knows the secret. *)
Theorem served_requests_are_authenticated `{!CryptoLaws} `{!TokenLaws} `{!FiberLaws} requests rq a :
  let g := gateway_run requests in
  unforgeable g rq ->
  route (jwtSecret env) startTime workers rq = Serve a -> a <> HealthRequested startTime workers ->
  exists gr u, gr ∈ gw_grants g /\ bearer (rq_authorization rq) = Some (gr_token gr) /\
    gw_users g !! gr_name gr = Some u /\ u_Username u = gr_name gr /\
    CompareHashAndPassword (u_PasswordHash u) (gr_password gr) = None /\
    Unix (rq_time rq) < Unix (d_exp (gr_draws gr) + 24 * Hour).
Proof.
  intros g Hun Hr Ha. destruct (route_authorized rq a Hr Ha) as (token & c & Hb & Hv).
  destruct (Hun token c Hb Hv) as (gr & Hgr & <-). destruct (gateway_run_ok requests) as [Hok Hall].
  destruct (proj1 (Forall_forall _ _) Hall gr Hgr) as (Ht & u & Hu & Hc). exists gr, u.
  destruct (verify_sound _ _ _ _ _ Ht Hv) as [_ Hexp]. do 3 (split; [done|]). split; [by apply Hok|done].
Qed.

(** The proviso fails for the default secret, which is in the source: with JWT_SECRET unset, who signs
    a token with it, for any name, gets through the middleware before any account exists. *)
Theorem default_secret_admits_anyone name t0 t1 token rq `{!CryptoLaws} :
  env "JWT_SECRET" = "" ->
  SignedString (mkClaims name t1 t0) "ims-super-secret-change-in-production" = inr token -> Unix (rq_time rq) < t1 ->
  bearer (rq_authorization rq) = Some token -> authorized (jwtSecret env) rq.
Proof.
  intros He Hs Ht Hb. exists token, (mkClaims name t1 t0). split; [done|]. unfold jwtSecret. rewrite He. cbn.
  by eapply verify_signed.
Qed.
(** Accounts live in the memory of one process: another replica, or the same one after a restart,
    refuses the name and the password of an account that a signup made, while it accepts the token. *)
Theorem accounts_are_of_one_process d d' name pw users token rq `{!CryptoLaws} :
  (Signup env d (inr (name, pw)) users).1 = (201, Token token) ->
  Unix (rq_time rq) < Unix (d_exp d + 24 * Hour) -> bearer (rq_authorization rq) = Some token ->
  (Login env d' (inr (name, pw)) (gw_users (gateway_run []))).1 = 401 /\ authorized (jwtSecret env) rq.
Proof.
  intros Hs Ht Hb. split; [reflexivity|]. destruct (Signup_created env d name pw users token Hs) as (_ & _ & _ & Htok & _).
  eexists token, _. split; [done|]. by eapply verify_signed.
Qed.
End Gateway.

(** ** The toy library *)

#[local] Existing Instance toy_crypto.
#[local] Existing Instance toy_laws.
#[local] Existing Instance toy_fiber.
#[local] Existing Instance toy_fiber_laws.

#[local] Instance toy_token_laws : TokenLaws.
Proof.
  intros [s e i] c' secret token t. cbn. destruct (decide _) as [(-> & -> & ->)|]; [|done]. intros [= <-].
  rewrite decide_True by done. destruct (Z.ltb_spec (Unix t) (Unix (24 * Hour))); [|done]. intros [= <-]. by split.
Qed.

(** Alice signs up and lists the work items. *)
Definition visits : list (Request * draws) := [(unsigned "POST" "/api/v1/auth/signup", no_draws)].

Lemma served_requests_are_authenticated_witness :
  exists gr u, gr ∈ gw_grants (gateway_run no_env 0 20 visits) /\ gw_users (gateway_run no_env 0 20 visits) !! gr_name gr = Some u /\
    u_Username u = gr_name gr.
Proof.
  destruct (served_requests_are_authenticated no_env 0 20 visits (signed "GET" "/api/v1/workitems") ListRequested) as (gr & u & H1 & _ & H2 & H3 & _).
  - intros token c Hb _. vm_compute in Hb. injection Hb as <-. eexists. split; [vm_compute; left|reflexivity].
  - vm_compute. reflexivity.
  - done.
  - exists gr, u. done.
Defined.
