(* ===== verification/Outsider.v ===== *)
(** What a request without an accepted token can do to the whole server: the state behind the API,
    the accounts, and the WebSocket hub. *)
From S2P Require Import Prelude Float64 GoTime Models Queue RateLimiter Tables Prog Services Retry.
From S2P Require Import Postgres RedisStore Mongo Invariant StoreSafety Health MemWorld System Config Auth Hub Router Scenarios.
Local Open Scope string_scope.
Local Open Scope Z_scope.
Local Open Scope list_scope.

Section Outsider.
Context `{World} `{Formats} `{Fiber} `{Crypto} `{WebSocketLibrary} (env : Env) (startTime : Time) (workers : Z).

(** The stores and the memory behind the API, the accounts, the hub. *)
Record server := mkServer { sv_sys : Sys; sv_users : userStore; sv_hub : HubState }.

(** A request is handled, with nothing in between. A login reads the accounts, the handler of the
    metrics reads what the collector has registered; a WebSocket is a connection whose pointer the
    library has available, and whose handler begins with the registration. *)
Definition handled (rq : Request) (d : draws) (sv sv' : server) : Prop :=
  match route (jwtSecret env) startTime workers rq with
  | Serve a => runs (goroutine a) (sv_sys sv) tt (sv_sys sv') /\ sv_users sv' = sv_users sv /\ sv_hub sv' = sv_hub sv
  | ServeSignup parsed => sv' = mkServer (sv_sys sv) (Signup env d parsed (sv_users sv)).2 (sv_hub sv)
  | ServeWebSocket => exists c, available (handlers (sv_hub sv) !! c) = true /\
      sv' = mkServer (sv_sys sv) (sv_users sv) (with_phase c Registering (sv_hub sv))
  | ServeLogin _ | ServeMetrics | Answer _ _ | Fails _ => sv' = sv
  end.

(** A signup changes the accounts by one new account, under a name that was free. *)
Lemma Signup_changes d parsed users : (Signup env d parsed users).2 = users \/
  exists name pw hash, parsed = inr (name, pw) /\ users !! name = None /\ 3 <= len name /\ 6 <= len pw /\
    GenerateFromPassword (d_salt d) pw 10 = inr hash /\
    (Signup env d parsed users).2 = <[name := mkUser (d_uuid d) name hash (d_created d)]> users.
Proof.
  destruct parsed as [e|[name pw]]; cbn; [by left|].
  destruct (Z.ltb_spec (len name) 3); [by left|]. destruct (Z.ltb_spec (len pw) 6); [by left|].
  unfold create. destruct (users !! name) eqn:Hn; [by left|]. destruct (GenerateFromPassword _ _ _) as [|hash] eqn:Hg; [by left|].
  right. by exists name, pw, hash.
Qed.

(** C14. A request without an accepted token: it leaves the tables, the cache, the audit log and the
    memory behind the API as they are, since the only handler of that state which it reaches is
    the health check, none of whose effects changes anything. All it can do is sign up, which
    adds one account under a name that was free, with the hash of the password it gives, and open
    a WebSocket that it asks for, whose handler then waits to register. A request for a protected
    endpoint, which no public route takes, is answered 401. *)
Theorem unauthorized_requests_are_confined `{!FiberLaws} rq d sv sv' :
  ~ authorized (jwtSecret env) rq -> handled rq d sv sv' ->
  untouched (sv_sys sv) (sv_sys sv') /\
  (forall a, route (jwtSecret env) startTime workers rq = Serve a -> only False (@reads_only) (goroutine a)) /\
  (sv_users sv' = sv_users sv \/
   exists name pw hash, route (jwtSecret env) startTime workers rq = ServeSignup (inr (name, pw)) /\
     sv_users sv !! name = None /\ 3 <= len name /\ 6 <= len pw /\ GenerateFromPassword (d_salt d) pw 10 = inr hash /\
     sv_users sv' = <[name := mkUser (d_uuid d) name hash (d_created d)]> (sv_users sv)) /\
  (sv_hub sv' = sv_hub sv \/
   exists c, route (jwtSecret env) startTime workers rq = ServeWebSocket /\ rq_upgrade rq = true /\
     available (handlers (sv_hub sv) !! c) = true /\ sv_hub sv' = with_phase c Registering (sv_hub sv)) /\
  (forall l, l ∈ protected_routes -> concerns rq l -> preflight rq = None ->
     Forall (fun l' => ~ concerns rq l') (public_routes startTime workers) ->
     route (jwtSecret env) startTime workers rq = Answer 401 (sentinel_text ErrUnauthorized)).
Proof.
  intros Hno Hh. assert (Hread : forall a, route (jwtSecret env) startTime workers rq = Serve a -> only False (@reads_only) (goroutine a)).
  { intros a Ha. rewrite (route_unauthorized _ _ _ _ _ Hno Ha). apply Health_reads. }
  cut (untouched (sv_sys sv) (sv_sys sv') /\
    (sv_users sv' = sv_users sv \/ exists parsed, route (jwtSecret env) startTime workers rq = ServeSignup parsed /\
       sv_users sv' = (Signup env d parsed (sv_users sv)).2) /\
    (sv_hub sv' = sv_hub sv \/ exists c, route (jwtSecret env) startTime workers rq = ServeWebSocket /\
       available (handlers (sv_hub sv) !! c) = true /\ sv_hub sv' = with_phase c Registering (sv_hub sv))).
  - intros (Hsys & Husers & Hhub). split; [done|]. split; [done|]. split; [|split].
    + destruct Husers as [?|(parsed & Hr & Hu)]; [by left|]. rewrite Hu.
      destruct (Signup_changes d parsed (sv_users sv)) as [?|(name & pw & hash & -> & Hc)]; [by left|right]. by exists name, pw, hash.
    + destruct Hhub as [?|(c & Hr & Ha & Hc)]; [by left|right]. exists c. split; [done|]. split; [by eapply websocket_upgrades|done].
    + intros l Hl Hcon Hpre Hpub. by apply (protected_refused _ _ _ _ l).
  - unfold handled in Hh. destruct (route (jwtSecret env) startTime workers rq) as [st msg|err|a|parsed|parsed| |] eqn:Hr.
    all: try (by subst sv'; split; [|split; left]).
    + destruct Hh as (Hrun & -> & ->). split; [|split; by left].
      exact (sees_runs _ _ _ _ _ (reads_only_sees _ (sv_sys sv) _ (Hread a eq_refl) ltac:(done)) Hrun).
    + subst sv'. split; [done|]. split; [right; by exists parsed|by left].
    + destruct Hh as (c & Ha & ->). split; [done|]. split; [by left|right; by exists c].
Qed.
End Outsider.

(** ** A server with one incident *)

#[local] Existing Instance toy_crypto.
#[local] Existing Instance toy_fiber.
#[local] Existing Instance toy_fiber_laws.
#[local] Existing Instance MemWorld.
#[local] Existing Instance plain_formats.
#[local] Existing Instance pooling_library.

Definition resolved_server : server := mkServer resolved_system ∅ initial.

(** Alice signs up; a stranger asks for a transition. *)
Lemma unauthorized_requests_are_confined_witness :
  (exists hash, (Signup no_env no_draws (inr ("alice", secret_pw)) ∅).2 = <["alice" := mkUser (d_uuid no_draws) "alice" hash (d_created no_draws)]> ∅) /\
  toy_route (unsigned "PATCH" "/api/v1/workitems/wi-1/transition") = Answer 401 (sentinel_text ErrUnauthorized).
Proof.
  assert (Hno : forall m path, ~ authorized (jwtSecret no_env) (unsigned m path)) by (intros m path (token & c & Hb & _); discriminate Hb).
  split.
  - set (sv' := mkServer resolved_system (Signup no_env no_draws (inr ("alice", secret_pw)) ∅).2 initial).
    destruct (unauthorized_requests_are_confined no_env 0 20 (unsigned "POST" "/api/v1/auth/signup") no_draws resolved_server sv'
      (Hno _ _) ltac:(reflexivity)) as (_ & _ & Husers & _).
    destruct Husers as [Hsame|(name & pw & hash & Hr & _ & _ & _ & _ & Hu)].
    + exfalso. apply (f_equal (fun us : gmap string user => bool_decide (us !! "alice" = None))) in Hsame. vm_compute in Hsame. discriminate Hsame.
    + assert (Hname : name = "alice") by (vm_compute in Hr; congruence). subst name. exists hash. exact Hu.
  - destruct (unauthorized_requests_are_confined no_env 0 20 (unsigned "PATCH" "/api/v1/workitems/wi-1/transition") no_draws
      resolved_server resolved_server (Hno _ _) ltac:(reflexivity)) as (_ & _ & _ & _ & Hrefused).
    apply (Hrefused (group "/api/v1" (Route "PATCH" "/workitems/:id/transition"
      (ends (fun c => Serve (TransitionRequested (Params c) (parse_transition (body_of c)))))))).
    + unfold protected_routes. apply list_elem_of_fmap. eexists. split; [reflexivity|]. do 5 right. left.
    + split; [reflexivity|]. vm_compute. by eexists.
    + reflexivity.
    + repeat constructor; vm_compute; first [discriminate|intros [Hs _]; discriminate Hs].
Defined.
