(* ===== verification/Entrance.v ===== *)
(** The entrance of the deployment: each replica has accounts of its own, which end with it, while
    all accept each other's tokens. *)
From S2P Require Import Prelude Float64 GoTime Models Queue RateLimiter Tables Prog Services Retry.
From S2P Require Import Health System Config Auth Router Gateway.
Local Open Scope string_scope.
Local Open Scope Z_scope.
Local Open Scope list_scope.

(** The replicas that were started so far, with their start times and accounts ([None] once they have
    ended), and the tokens that they handed out. *)
Record entrance := mkEntrance {
  en_replicas : list (option (Time * gmap string user));
  en_grants : list grant;
}.

Inductive visit :=
| Visits (i : nat) (r : Request * draws)
| ReplicaStarts (startTime : Time)
| ReplicaEnds (i : nat).

Section Entrance.
Context `{Fiber} `{Crypto} (env : Env) (workers : Z).

(** A request goes to the replica that the load balancer chooses. *)
Definition entrance_step (en : entrance) (v : visit) : entrance :=
  match v with
  | Visits i r =>
      match en_replicas en !! i with
      | Some (Some (startTime, users)) =>
          let g := gateway_step env startTime workers (mkGateway users (en_grants en)) r in
          mkEntrance (<[i := Some (startTime, gw_users g)]> (en_replicas en)) (gw_grants g)
      | _ => en
      end
  | ReplicaStarts startTime => mkEntrance (en_replicas en ++ [Some (startTime, ∅)]) (en_grants en)
  | ReplicaEnds i => mkEntrance (alter (fun _ => None) i (en_replicas en)) (en_grants en)
  end.

Definition entrance_run (visits : list visit) : entrance := fold_left entrance_step visits (mkEntrance [] []).

Lemma entrance_run_snoc visits v : entrance_run (visits ++ [v]) = entrance_step (entrance_run visits) v.
Proof. unfold entrance_run. by rewrite fold_left_app. Qed.

(** The accounts of a replica that lives. *)
Definition accounts (en : entrance) (i : nat) : option (gmap string user) := snd <$> mjoin (en_replicas en !! i).

(** ** One request *)

(** What a request adds does not depend on the tokens that others were given. *)
Lemma gateway_step_grants startTime users grants r :
  let g := gateway_step env startTime workers (mkGateway users []) r in
  gateway_step env startTime workers (mkGateway users grants) r = mkGateway (gw_users g) (grants ++ gw_grants g).
Proof.
  destruct r as [rq d]. unfold gateway_step. destruct (route _ _ _ rq); cbn; try by rewrite app_nil_r.
  - by destruct (Signup _ _ _ _) as [reply users'].
  - done.
Qed.

Lemma gateway_step_keeps startTime g r : gw_users g ⊆ gw_users (gateway_step env startTime workers g r).
Proof.
  destruct r as [rq d]. unfold gateway_step. destruct (route _ _ _ rq) as [| | |parsed|parsed| |]; try done.
  pose proof (Signup_keeps env d parsed (gw_users g)) as Hsub. by destruct (Signup _ _ _ _) as [reply users'].
Qed.

(** ** What the entrance guarantees *)

Definition all_users_ok (en : entrance) : Prop :=
  Forall (fun r => match r with Some (_, users) => users_ok users | None => True end) (en_replicas en).

(** A replica has ended, or kept its accounts. *)
Definition kept (en en' : entrance) : Prop := forall i t users, en_replicas en !! i = Some (Some (t, users)) ->
  en_replicas en' !! i = Some None \/ exists users', en_replicas en' !! i = Some (Some (t, users')) /\ users ⊆ users'.

Definition ended_stay (en en' : entrance) : Prop := forall i, en_replicas en !! i = Some None -> en_replicas en' !! i = Some None.

Lemma entrance_step_kept en v : kept en (entrance_step en v) /\ ended_stay en (entrance_step en v).
Proof.
  destruct v as [i r|t|i]; cbn [entrance_step].
  - destruct (en_replicas en !! i) as [[[t users]|]|] eqn:Hi; try (split; [intros j t' users' Hj; right; by exists users'|by intros j]).
    split; [intros j t' users' Hj|intros j Hj]; cbn; (destruct (decide (i = j)) as [<-|Hne];
      [|rewrite list_lookup_insert_ne by done; try done; right; by exists users']).
    + rewrite list_lookup_insert_eq by (by eapply lookup_lt_Some). right. rewrite Hi in Hj. injection Hj as <- <-.
      eexists. split; [done|]. apply (gateway_step_keeps t (mkGateway users (en_grants en))).
    + congruence.
  - split; [intros j t' users' Hj; right; exists users'|intros j Hj]; cbn; rewrite lookup_app_l by (by eapply lookup_lt_Some); done.
  - split; [intros j t' users' Hj|intros j Hj]; cbn; (destruct (decide (i = j)) as [<-|Hne];
      [rewrite list_lookup_alter_eq, Hj; first [done|by left]|rewrite list_lookup_alter_ne by done; try done; right; by exists users']).
Qed.

Lemma entrance_step_users en v : all_users_ok en -> all_users_ok (entrance_step en v).
Proof.
  intros Hok. unfold all_users_ok in *. destruct v as [i [rq d]|t|i]; cbn [entrance_step].
  - destruct (en_replicas en !! i) as [[[t users]|]|] eqn:Hi; try done. cbn. apply Forall_insert; [done|].
    pose proof (Forall_lookup_1 _ _ _ _ Hok Hi) as Hu. cbn in Hu. unfold gateway_step. destruct (route _ _ _ rq) as [| | |parsed|parsed| |]; try done.
    pose proof (Signup_ok env d parsed users Hu). cbn [gw_users] in *. by destruct (Signup env d parsed users).
  - cbn. apply Forall_app. split; [done|]. constructor; [apply map_Forall_empty|constructor].
  - cbn. by apply Forall_alter.
Qed.

(** The token was handed out by a replica that had the account, which it has until it ends. *)
Definition earned (visits : list visit) (gr : grant) : Prop :=
  exists before after i t users, visits = before ++ after /\ en_replicas (entrance_run before) !! i = Some (Some (t, users)) /\
    users_ok users /\ deserved env users gr /\
    (en_replicas (entrance_run visits) !! i = Some None \/
     exists users', en_replicas (entrance_run visits) !! i = Some (Some (t, users')) /\ users ⊆ users').

Lemma earned_later visits v gr : earned visits gr -> earned (visits ++ [v]) gr.
Proof.
  intros (before & after & i & t & users & -> & Hi & Hu & Hd & Hnow). exists before, (after ++ [v]), i, t, users.
  rewrite app_assoc. do 4 (split; [done|]). rewrite entrance_run_snoc.
  destruct (entrance_step_kept (entrance_run (before ++ after)) v) as [Hk Hs].
  destruct Hnow as [Hnone|(users' & Hi' & Hsub)]; [left; by apply Hs|].
  destruct (Hk i t users' Hi') as [Hnone|(users2 & Hi2 & Hsub2)]; [by left|right]. exists users2. split; [done|by etrans].
Qed.

Lemma entrance_run_ok `{!CryptoLaws} visits :
  all_users_ok (entrance_run visits) /\ Forall (earned visits) (en_grants (entrance_run visits)).
Proof.
  induction visits as [|v visits [Hok Hall]] using rev_ind; [split; constructor|].
  assert (Hok' : all_users_ok (entrance_run (visits ++ [v]))) by (rewrite entrance_run_snoc; by apply entrance_step_users).
  split; [done|]. assert (Hold : Forall (earned (visits ++ [v])) (en_grants (entrance_run visits))).
  { eapply Forall_impl; [exact Hall|]. intros gr. apply earned_later. }
  destruct v as [i r|t|i]; try (by rewrite entrance_run_snoc).
  pose proof (entrance_run_snoc visits (Visits i r)) as Hsnoc. cbn [entrance_step] in Hsnoc.
  destruct (en_replicas (entrance_run visits) !! i) as [[[t users]|]|] eqn:Hi; try (by rewrite Hsnoc).
  rewrite gateway_step_grants in Hsnoc. pose proof (Forall_lookup_1 _ _ _ _ Hok Hi) as Hu. cbn in Hu.
  assert (Hg : gateway_ok env (gateway_step env t workers (mkGateway users []) r)).
  { apply (gateway_step_ok env t workers (mkGateway users []) r). split; [exact Hu|constructor]. }
  destruct Hg as [Hu' Hnew]. set (g := gateway_step env t workers (mkGateway users []) r) in *.
  assert (Hi' : en_replicas (entrance_run (visits ++ [Visits i r])) !! i = Some (Some (t, gw_users g))).
  { rewrite Hsnoc. cbn. apply list_lookup_insert_eq. by eapply lookup_lt_Some. }
  rewrite Hsnoc at 1. cbn [en_grants gw_grants]. apply Forall_app. split; [done|]. eapply Forall_impl; [exact Hnew|].
  intros gr Hd. exists (visits ++ [Visits i r]), [], i, t, (gw_users g). rewrite app_nil_r. do 4 (split; [done|]). right. by exists (gw_users g).
Qed.

(** C9. Only account holders get in, at every entrance: after any requests to any replicas, which start
    and end meanwhile, a request that reaches at some replica a handler of the state behind the
    API, other than the health check, carries a token that a replica handed out, less than 24
    hours before by the clock, for a signup or a login with the name and password of an account
    that it had; and it has the account still, unless it has ended; provided nobody else knows
    the secret. *)
Theorem entrance_is_guarded `{!CryptoLaws} `{!TokenLaws} `{!FiberLaws} visits startTime rq a :
  let en := entrance_run visits in
  unforgeable env (mkGateway ∅ (en_grants en)) rq ->
  route (jwtSecret env) startTime workers rq = Serve a -> a <> HealthRequested startTime workers ->
  exists gr before after i t users u, gr ∈ en_grants en /\ bearer (rq_authorization rq) = Some (gr_token gr) /\
    Unix (rq_time rq) < Unix (d_exp (gr_draws gr) + 24 * Hour) /\
    visits = before ++ after /\ en_replicas (entrance_run before) !! i = Some (Some (t, users)) /\
    users !! gr_name gr = Some u /\ u_Username u = gr_name gr /\ CompareHashAndPassword (u_PasswordHash u) (gr_password gr) = None /\
    (en_replicas en !! i = Some None \/
     exists users', en_replicas en !! i = Some (Some (t, users')) /\ users' !! gr_name gr = Some u).
Proof.
  intros en Hun Hr Ha. destruct (route_authorized _ _ _ _ _ Hr Ha) as (token & c & Hb & Hv).
  destruct (Hun token c Hb Hv) as (gr & Hgr & <-). destruct (entrance_run_ok visits) as [_ Hall].
  destruct (proj1 (Forall_forall _ _) Hall gr Hgr) as (before & after & i & t & users & Hsplit & Hi & Hu & (Ht & u & Hlook & Hc) & Hnow).
  destruct (verify_sound _ _ _ _ _ Ht Hv) as [_ Hexp]. exists gr, before, after, i, t, users, u.
  do 6 (split; [done|]). split; [by apply (Hu (gr_name gr))|]. split; [done|].
  destruct Hnow as [Hnone|(users' & Hi' & Hsub)]; [by left|right]. exists users'. split; [done|by eapply lookup_weaken].
Qed.
End Entrance.

(** ** The toy library *)

#[local] Existing Instance toy_crypto.
#[local] Existing Instance toy_laws.
#[local] Existing Instance toy_fiber.
#[local] Existing Instance toy_fiber_laws.
#[local] Existing Instance toy_token_laws.

(** Alice signs up at the first of two replicas, which is replaced. *)
Definition rolling : list visit :=
  [ReplicaStarts 0; ReplicaStarts 0; Visits 0 (unsigned "POST" "/api/v1/auth/signup", no_draws); ReplicaEnds 0; ReplicaStarts 1].

(** The second one serves her. *)
Lemma entrance_is_guarded_witness :
  route (jwtSecret no_env) 0 20 (signed "GET" "/api/v1/workitems") = Serve ListRequested /\
  exists gr before after, gr ∈ en_grants (entrance_run no_env 20 rolling) /\ rolling = before ++ after.
Proof.
  split; [vm_compute; reflexivity|].
  destruct (entrance_is_guarded no_env 20 rolling 0 (signed "GET" "/api/v1/workitems") ListRequested)
    as (gr & before & after & i & t & users & u & Hgr & _ & _ & Hsplit & _).
  - intros token c Hb _. vm_compute in Hb. injection Hb as <-. eexists. split; [vm_compute; left|reflexivity].
  - vm_compute. reflexivity.
  - done.
  - exists gr, before, after. split; [exact Hgr|exact Hsplit].
Defined.
